(* ===== verification/_CoqProject ===== *)
-Q . S2P
Prelude.v
Text.v
Job.v
Db.v
Store.v
Queues.v
Settings.v
Enqueue.v
Dequeue.v
Transitions.v
Cascade.v
Listing.v
Cursor.v
Stats.v
PubSub.v
Purge.v
Drain.v
Telemetry.v
Resilience.v
Rates.v
Shed.v
Claims.v
Workers.v
InFlight.v
Sched.v
Steps.v
StepSeq.v
DeadLetter.v
Retention.v
Quota.v
Periodic.v
Poller.v
Session.v
Lifecycle.v
Results.v
System.v
Maintenance.v
Cleanup.v
