(* ===== verification/Prelude.v ===== *)
(** * FlexiQ: a verification development

    FlexiQ is a task queue: producers enqueue jobs into a database, schedulers hand them to
    worker pools, workers report how each attempt ended, and a maintenance loop keeps the
    store in order.  This library models the core of it, the crate
    [src/crates/flexiq-core/src] over its SQLite backend, and proves what its parts promise
    each other.  Paths below are relative to that directory, and [diesel_common] is short
    for [storage/diesel_common].

    ** The parts and how they interact

    The store is a set of tables ([storage/schema.rs]).  Every call of the storage trait is
    one or more transactions over them.  A scheduler ([scheduler/]) owns no job: it dequeues,
    which makes a job running, claims it under an epoch, keeps a record of the dispatch and
    sends it to the pool; a result is settled only if that record still speaks for the job.
    A running body may commit durable steps ([step/]) behind the same fence.  What fails for
    good is dead-lettered, what ends is archived, what is archived ages out.  Quotas stand in
    front of every enqueue, rate limits, breakers and caps in front of every dispatch.
    Several schedulers and workers share one database: claims, leases, locks and the settle
    marker decide between them, and the theorems about them quantify over any state another
    process may have left.

    ** How the code is modelled

    - A call that can fail and change state is a computation [M S E A := S -> Result E A * S]
      ([Prelude.v]).  Storage calls are [DbM] over a [World]: the database and a counter that
      every read of an outside source advances ([Db.v]).  The quota gate, the scheduler and
      the poller add their own state ([GateM], [SchM], [PollM]).  [attempt] is a [match] on a
      result, [logged] an error that is logged and dropped.
    - A table is a finite map from primary keys to rows ([gmap]); inserts report conflicts,
      and a transaction that fails restores the tables it began with.
    - Integers are [Z]; saturating, truncating and wrapping operations of the source are
      written out.  Floats are IEEE 754 doubles ([SpecFloat] at 53 bits).
    - Code that is not part of the repository is a parameter: [Env] (UUIDv7, clock, random
      source, connection pool, JSON objects), [Engine] (the order of unordered rows, [LIKE]),
      [Texts], [QuotaJson], [RetentionJson], [Cron], [Base64], [Hasher], [Monotonic],
      [WorkerChannel].  What a theorem relies on of them is a class of its own: [UuidFresh]
      (ids are distinct), [ScanComplete] (a scan returns every row once), [JsonKeeps],
      [QuotaJsonLaw], [RetentionJsonLaw], [CronLaw], [Base64Law], [HashComplete],
      [MonotonicLaw], [Connected].  The examples at the end of each file give instances.

    ** Files

    - [Prelude.v], [Text.v]: machine integers, results, the monad and its invariants
      ([keeps], [keeps_ok], [wp]), comparisons and sorting, printed numbers and text.
    - [Job.v], [Db.v], [Store.v]: [job.rs], [error.rs], [storage/models.rs],
      [storage/schema.rs]; the tables, the statements Diesel issues, transactions; the
      helpers the job operations share and [wf], the invariant of the store.
    - [Enqueue.v], [Dequeue.v], [Transitions.v], [Cascade.v], [Listing.v], [Stats.v],
      [Purge.v]: [diesel_common/jobs.rs] and [sqlite/jobs.rs], one file per group of
      operations.  [Cursor.v]: [storage/cursor.rs] and the page of the Node binding.
    - [Queues.v], [Settings.v], [Workers.v], [PubSub.v], [DeadLetter.v], [Steps.v],
      [Claims.v], [Telemetry.v]: the other files of [diesel_common]; [Drain.v] is the batch
      sweep of one table that several of them instantiate.
    - [Resilience.v], [Rates.v], [Shed.v]: [resilience/], [scheduler/codel.rs],
      [scheduler/shed.rs].
    - [StepSeq.v], [Session.v]: [step/].  [Session.v] is proved against the interface
      [StepStore] and its laws, which the database discharges.
    - [Quota.v]: [quota/] and [storage/quota_gate.rs], over any enqueue behind the gate
      (class [Door]).  [Periodic.v]: [periodic.rs] and the firing of schedules.
      [Retention.v]: [scheduler/retention.rs] and [scheduler/retention_override.rs].
    - [InFlight.v], [Sched.v], [Poller.v], [Results.v], [Maintenance.v], [Cleanup.v]:
      [scheduler/mod.rs], [lease.rs], [scheduler/poller.rs], [scheduler/result_handler.rs],
      [scheduler/maintenance.rs].
    - [Lifecycle.v], [System.v]: every operation that writes the store as a step of one
      transition system, and the abstract life of a job they refine.

    ** What the theorems show

    - The store.  Its invariant holds in every world a sequence of operations reaches; each
      operation refines the life of a job (live, ended, forgotten); an ended job is never
      handed out again; each operation does what it says on every branch and changes nothing
      when it fails.
    - Handing out.  A dequeue takes only a ready job, the best of its window; a round of the
      scheduler hands over distinct jobs under claims of its own, strands none when it
      returns, and stays within every cap; claims and settle markers have one winner.
    - Settling.  A batch of results gets one answer each and a success is archived; a failure
      is retried or dead-lettered exactly when it should be; an overdue attempt is settled and
      one in time is left alone.
    - Steps.  A committed step is never run again, and an attempt started again goes on as if
      it had not been interrupted; a retried dead letter keeps the keys of its run.
    - Topics.  A publish delivers once per subscription; a leased message is not handed out
      twice; compaction removes only what every reader is done with.
    - Housekeeping.  A preview counts what the sweep removes; cleanup touches history only and
      is the leader's; a saved override is what is applied; every due schedule fires; each
      maintenance job comes due again within its interval; following cursors reads a listing
      once and ends.
    - Deviations.  Some theorems exhibit behaviour the code's own comments exclude: a window
      of blocked jobs starves a queue, a purge unblocks dependents, a breaker admits one probe
      too many, an error before the claim strands a job, a stranded retry is not reaped by the
      scheduler that ran it before, a schedule fires twice, windows cross namespaces.

    ** Bounds

    Loops of the code that are bounded keep their bound: [drain_batches] runs at most
    [MAX_BATCHES_PER_SWEEP] batches of [PURGE_BATCH] rows, and theorems about sweeps say what
    that leaves.  Loops without one get fuel that is shown to be enough: [bfs] one round per
    edge and the root ([bfs_complete]), [archive_loop] one more than the live rows
    ([archive_loop_run]), [walk] one page more than there are jobs ([walk_reads_all]).

    ** Not modelled

    - The Postgres and Redis backends: Postgres shares the Diesel code modelled here but runs
      its statements concurrently; Redis is Lua run by the server.
    - Interleavings inside one SQLite transaction do not occur; those between transactions
      are covered where a call has several, by labels of their own in [System.v] or by
      theorems over any state.
    - Worker processes, sockets, the push-dispatch loop and its wake sources, HTTP targets and
      their authentication, the network allowlist, the wire formats, event sinks and the
      audit middleware: asynchronous I/O around third-party clients.  The scheduler meets them
      as [WorkerChannel] and as the results it is given.
    - The server, the command line, the terminal interface, the macros, the SDK crates and the
      bindings (the page cursors of the Node binding apart), the mesh, the workflow layer,
      migrations.
    - Log lines, events and metrics counters that nothing in the store reads back. *)
From stdpp Require Export base list gmap strings sorting pretty.
From Stdlib Require Export ZArith Lia.

#[global] Open Scope Z_scope.

(** ** Machine integers

    Rust's [i32], [i64], [u32] and [u64] values are [Z]s; where the source
    saturates or casts, the width is written out. *)

Definition i32_min : Z := - 2 ^ 31.
Definition i32_max : Z := 2 ^ 31 - 1.
Definition i64_min : Z := - 2 ^ 63.
Definition i64_max : Z := 2 ^ 63 - 1.
Definition u64_max : Z := 2 ^ 64 - 1.
Definition u32_max : Z := 2 ^ 32 - 1.

(** Rust's [Ord::clamp]. *)
Definition clamp (lo hi x : Z) : Z :=
  if x <? lo then lo else if hi <? x then hi else x.

Definition sat_i64 (x : Z) : Z := clamp i64_min i64_max x.
Definition sat_add_i64 (x y : Z) : Z := sat_i64 (x + y).
Definition sat_sub_i64 (x y : Z) : Z := sat_i64 (x - y).
Definition sat_mul_i64 (x y : Z) : Z := sat_i64 (x * y).

(** [x as i32]: two's-complement truncation. *)
Definition as_i32 (x : Z) : Z := (x + 2 ^ 31) mod 2 ^ 32 - 2 ^ 31.
Definition as_u32 (x : Z) : Z := x mod 2 ^ 32.
Definition as_u64 (x : Z) : Z := x mod 2 ^ 64.
Definition as_i64 (x : Z) : Z := (x + 2 ^ 63) mod 2 ^ 64 - 2 ^ 63.

Lemma as_i32_id x : i32_min <= x <= i32_max -> as_i32 x = x.
Proof. unfold as_i32, i32_min, i32_max. intros. rewrite Z.mod_small; lia. Qed.

Lemma as_u32_id x : 0 <= x <= u32_max -> as_u32 x = x.
Proof. unfold as_u32, u32_max. intros. apply Z.mod_small. lia. Qed.

Lemma clamp_bounds lo hi x : lo <= hi -> lo <= clamp lo hi x <= hi.
Proof. unfold clamp. destruct (Z.ltb_spec x lo), (Z.ltb_spec hi x); lia. Qed.

Lemma clamp_id lo hi x : lo <= x <= hi -> clamp lo hi x = x.
Proof. unfold clamp. destruct (Z.ltb_spec x lo), (Z.ltb_spec hi x); lia. Qed.

Lemma sat_add_i64_id x y : i64_min <= x + y <= i64_max -> sat_add_i64 x y = x + y.
Proof. apply clamp_id. Qed.

Lemma clamp_mono lo hi x y : lo <= hi -> x <= y -> clamp lo hi x <= clamp lo hi y.
Proof.
  intros. unfold clamp.
  destruct (Z.ltb_spec x lo), (Z.ltb_spec hi x), (Z.ltb_spec y lo), (Z.ltb_spec hi y); lia.
Qed.

Lemma sat_add_i64_mono x y z : y <= z -> sat_add_i64 x y <= sat_add_i64 x z.
Proof. intros. apply clamp_mono; [done|lia]. Qed.

(** ** Results, and the state-and-error monad the storage code runs in *)

Inductive Result (E A : Type) :=
  | Ok (a : A)
  | Err (e : E).
Arguments Ok {E A} a.
Arguments Err {E A} e.

Definition is_ok {E A} (r : Result E A) : bool :=
  match r with Ok _ => true | Err _ => false end.

(** A computation threads the state and may stop with an error, keeping the
    state it has reached: a Rust function that has executed some statements
    and returns early with [?]. *)
Definition M (S E A : Type) : Type := S -> Result E A * S.

#[export] Instance M_ret {S E} : MRet (M S E) := fun A a s => (Ok a, s).
#[export] Instance M_bind {S E} : MBind (M S E) :=
  fun A B k m s =>
    match m s with
    | (Ok a, s') => k a s'
    | (Err e, s') => (Err e, s')
    end.

Definition throw {S E A} (e : E) : M S E A := fun s => (Err e, s).
Definition get_st {S E} : M S E S := fun s => (Ok s, s).
Definition gets {S E A} (f : S -> A) : M S E A := fun s => (Ok (f s), s).
Definition modify {S E} (f : S -> S) : M S E unit := fun s => (Ok tt, f s).

(** [match m { Ok(a) => k(Ok(a)), Err(e) => k(Err(e)) }]: the caller inspects
    the result instead of propagating it. *)
Definition attempt {S E A} (m : M S E A) : M S E (Result E A) :=
  fun s => let '(r, s') := m s in (Ok r, s').

(** [for x in l { f(x)?; }] *)
Fixpoint for_each {S E A} (f : A -> M S E unit) (l : list A) : M S E unit :=
  match l with
  | [] => mret tt
  | x :: l => f x ;; for_each f l
  end.

(** A loop that carries a value. *)
Fixpoint foldM {S E A B} (f : B -> A -> M S E B) (b : B) (l : list A) : M S E B :=
  match l with
  | [] => mret b
  | x :: l => b' ← f b x; foldM f b' l
  end.

(** *** Weakest preconditions *)

Definition wp {S E A} (m : M S E A) (Q : A -> S -> Prop) (R : E -> S -> Prop)
    (s : S) : Prop :=
  match m s with
  | (Ok a, s') => Q a s'
  | (Err e, s') => R e s'
  end.

(** [keeps I m]: whatever [m] returns, it leaves a state that satisfies [I]
    when it starts in one. *)
Definition keeps {S E A} (I : S -> Prop) (m : M S E A) : Prop :=
  forall s, I s -> I (snd (m s)).

Section wp.
Context {S E : Type}.
Implicit Types s : S.

Lemma wp_ret {A} (a : A) (Q : A -> S -> Prop) (R : E -> S -> Prop) s :
  Q a s -> wp (mret a) Q R s.
Proof. done. Qed.

Lemma wp_bind {A B} (m : M S E A) (k : A -> M S E B) Q R s :
  wp (m ≫= k) Q R s <-> wp m (fun a => wp (k a) Q R) R s.
Proof. unfold wp, mbind, M_bind. destruct (m s) as [[a|e] s']; done. Qed.

Lemma bind_ok {A B} (m : M S E A) (k : A -> M S E B) s a s' :
  m s = (Ok a, s') -> (m ≫= k) s = k a s'.
Proof. unfold mbind, M_bind. by intros ->. Qed.

Lemma bind_err {A B} (m : M S E A) (k : A -> M S E B) s e s' :
  m s = (Err e, s') -> (m ≫= k) s = (Err e, s').
Proof. unfold mbind, M_bind. by intros ->. Qed.

Lemma bind_attempt {A B} (m : M S E A) (k : Result E A -> M S E B) s r s' :
  m s = (r, s') -> (attempt m ≫= k) s = k r s'.
Proof. unfold mbind, M_bind, attempt. by intros ->. Qed.

(** A composed run that succeeds ran both parts. *)
Lemma bind_inv {A B} (m : M S E A) (k : A -> M S E B) s r s' :
  (m ≫= k) s = (r, s') ->
  (exists a s1, m s = (Ok a, s1) /\ k a s1 = (r, s'))
  \/ (exists e, m s = (Err e, s') /\ r = Err e).
Proof.
  unfold mbind, M_bind. destruct (m s) as [[a|e] s1]; [eauto|].
  intros [= <- <-]. eauto.
Qed.

Lemma bind_inv_ok {A B} (m : M S E A) (k : A -> M S E B) s b s' :
  (m ≫= k) s = (Ok b, s') -> exists a s1, m s = (Ok a, s1) /\ k a s1 = (Ok b, s').
Proof. by intros [?|(e & _ & ?)]%bind_inv. Qed.

Lemma for_each_app {A} (f : A -> M S E unit) l1 l2 s :
  for_each f (l1 ++ l2) s = (for_each f l1 ;; for_each f l2) s.
Proof.
  revert s. induction l1 as [|x l1 IH]; intros s; simpl; [done|].
  unfold mbind, M_bind in *. destruct (f x s) as [[[]|e] s1]; [|done]. by rewrite IH.
Qed.

Lemma for_each_concat {A} (f : A -> M S E unit) ls s :
  for_each (fun l => for_each f l) ls s = for_each f (concat ls) s.
Proof.
  revert s. induction ls as [|l ls IH]; intros s; [done|]. cbn [concat].
  rewrite for_each_app. simpl. unfold mbind, M_bind.
  destruct (for_each f l s) as [[[]|e] s1]; [by rewrite IH|done].
Qed.

Lemma for_each_fmap {A B} (g : B -> A) (f : A -> M S E unit) l s :
  for_each f (g <$> l) s = for_each (fun x => f (g x)) l s.
Proof.
  revert s. induction l as [|x l IH]; intros s; [done|]. simpl.
  unfold mbind, M_bind. destruct (f (g x) s) as [[[]|e] s1]; [by rewrite <- IH|done].
Qed.

(** A loop of checks that neither change the state nor fail in two ways. *)
Lemma for_each_check {A} (f : A -> M S E unit) (p : A -> bool) (e : E) l s :
  (forall x, f x s = (if p x then Ok tt else Err e, s)) ->
  for_each f l s = (if forallb p l then Ok tt else Err e, s).
Proof.
  intros Hf. induction l as [|x l IH]; [done|]. simpl. unfold mbind, M_bind.
  rewrite Hf. by destruct (p x).
Qed.

Lemma wp_eq {A} (m : M S E A) (Q : A -> S -> Prop) (R : E -> S -> Prop) s r s' :
  wp m Q R s -> m s = (r, s') -> match r with Ok a => Q a s' | Err e => R e s' end.
Proof. unfold wp. intros H Heq. by rewrite Heq in H. Qed.

Lemma wp_mono {A} (m : M S E A) (Q Q' : A -> S -> Prop) (R R' : E -> S -> Prop) s :
  wp m Q R s ->
  (forall a s', Q a s' -> Q' a s') -> (forall e s', R e s' -> R' e s') ->
  wp m Q' R' s.
Proof. unfold wp. destruct (m s) as [[a|e] s']; eauto. Qed.

(** Induction over a loop with an invariant on the rest of the list. *)
Lemma wp_for_each {A} (f : A -> M S E unit) (I : list A -> S -> Prop) (R : E -> S -> Prop) l s :
  (forall x l s, I (x :: l) s -> wp (f x) (fun _ => I l) R s) ->
  I l s -> wp (for_each f l) (fun _ => I []) R s.
Proof.
  intros Hf. revert s. induction l as [|x l IH]; intros s HI; simpl; [done|].
  apply wp_bind. eapply wp_mono; [by apply Hf| |done]. simpl. auto.
Qed.

Lemma wp_attempt {A} (m : M S E A) (Q : Result E A -> S -> Prop) (R : E -> S -> Prop) s :
  wp m (fun a => Q (Ok a)) (fun e => Q (Err e)) s -> wp (attempt m) Q R s.
Proof. unfold wp, attempt. destruct (m s) as [[a|e] s']; done. Qed.

Lemma keeps_wp {A} (I : S -> Prop) (m : M S E A) :
  keeps I m <-> (forall s, I s -> wp m (fun _ => I) (fun _ => I) s).
Proof.
  unfold keeps, wp. split; intros H s Hs; specialize (H s Hs);
    destruct (m s) as [[a|e] s']; done.
Qed.

Lemma keeps_ret {A} (I : S -> Prop) (a : A) : keeps (E:=E) I (mret a).
Proof. by intros s. Qed.

Lemma keeps_throw {A} (I : S -> Prop) (e : E) : keeps (A:=A) I (throw e).
Proof. by intros s. Qed.

Lemma keeps_gets {A} (I : S -> Prop) (f : S -> A) : keeps (E:=E) I (gets f).
Proof. by intros s. Qed.

Lemma keeps_bind {A B} (I : S -> Prop) (m : M S E A) (k : A -> M S E B) :
  keeps I m -> (forall a, keeps I (k a)) -> keeps I (m ≫= k).
Proof.
  intros Hm Hk s Hs. unfold mbind, M_bind. specialize (Hm s Hs).
  destruct (m s) as [[a|e] s']; [by apply Hk | done].
Qed.

Lemma keeps_attempt {A} (I : S -> Prop) (m : M S E A) :
  keeps I m -> keeps I (attempt m).
Proof.
  intros Hm s Hs. specialize (Hm s Hs). unfold attempt. by destruct (m s).
Qed.

Lemma keeps_for_each {A} (I : S -> Prop) (f : A -> M S E unit) l :
  (forall x, x ∈ l -> keeps I (f x)) -> keeps I (for_each f l).
Proof.
  induction l as [|x l IH]; intros Hf; simpl; [apply keeps_ret|].
  apply keeps_bind; [apply Hf; left|]. intros _. apply IH.
  intros y Hy. apply Hf. by right.
Qed.

Lemma keeps_foldM {A B} (I : S -> Prop) (f : B -> A -> M S E B) b l :
  (forall b x, x ∈ l -> keeps I (f b x)) -> keeps I (foldM f b l).
Proof.
  revert b. induction l as [|x l IH]; intros b Hf; simpl; [apply keeps_ret|].
  apply keeps_bind; [apply Hf; left|]. intros b'. apply IH.
  intros b'' y Hy. apply Hf. by right.
Qed.

Lemma keeps_mapM {A B} (I : S -> Prop) (f : A -> M S E B) l :
  (forall x, x ∈ l -> keeps I (f x)) -> keeps I (mapM f l).
Proof.
  induction l as [|x l IH]; intros Hf; simpl; [apply keeps_ret|].
  apply keeps_bind; [apply Hf; left|]. intros y. apply keeps_bind; [|intros; apply keeps_ret].
  apply IH. intros z Hz. apply Hf. by right.
Qed.
End wp.

Create HintDb keeps.
#[export] Hint Resolve keeps_ret keeps_throw keeps_gets keeps_attempt : keeps.

(** ** SQL-shaped list operations *)

(** *** Comparators

    A query's [ORDER BY] list is a lexicographic comparator; [TotalCmp] is what
    makes sorting by it meaningful, and the instances below derive it for every
    comparator built from integer and text columns. *)

Definition asc_Z {A} (f : A -> Z) : A -> A -> comparison :=
  fun x y => Z.compare (f x) (f y).
(** A nullable integer column: nulls come first. *)
Definition asc_opt_Z {A} (f : A -> option Z) : A -> A -> comparison :=
  fun x y => match f x, f y with
             | None, None => Eq
             | None, Some _ => Lt
             | Some _, None => Gt
             | Some a, Some b => Z.compare a b
             end.
Definition asc_str {A} (f : A -> string) : A -> A -> comparison :=
  fun x y => String.compare (f x) (f y).
Definition desc {A} (c : A -> A -> comparison) : A -> A -> comparison :=
  fun x y => c y x.
Definition then_by {A} (c d : A -> A -> comparison) : A -> A -> comparison :=
  fun x y => match c x y with Eq => d x y | o => o end.

Class TotalCmp {A} (c : A -> A -> comparison) : Prop := {
  cmp_opp : forall x y, c y x = CompOpp (c x y);
  cmp_lt_trans : forall x y z, c x y = Lt -> c y z = Lt -> c x z = Lt;
  cmp_eq_l : forall x y z, c x y = Eq -> c x z = c y z
}.

#[export] Hint Mode TotalCmp + ! : typeclass_instances.
#[export] Hint Opaque asc_Z asc_opt_Z asc_str desc then_by : typeclass_instances.

Definition cmp_le {A} (c : A -> A -> comparison) (x y : A) : Prop := c x y <> Gt.

#[export] Instance cmp_le_dec {A} (c : A -> A -> comparison) : RelDecision (cmp_le c).
Proof. intros x y. unfold cmp_le. apply _. Defined.

(** [ORDER BY] over a scanned list. *)
Definition order_by {A} (c : A -> A -> comparison) (l : list A) : list A :=
  merge_sort (cmp_le c) l.

Section cmp.
Context {A : Type}.

#[global] Instance asc_Z_total (f : A -> Z) : TotalCmp (asc_Z f).
Proof.
  unfold asc_Z. split.
  - intros x y. apply Z.compare_antisym.
  - intros x y z. rewrite !Z.compare_lt_iff. lia.
  - intros x y z ?%Z.compare_eq. congruence.
Qed.

#[global] Instance asc_opt_Z_total (f : A -> option Z) : TotalCmp (asc_opt_Z f).
Proof.
  unfold asc_opt_Z. split.
  - intros x y. destruct (f x), (f y); try done. apply Z.compare_antisym.
  - intros x y z. destruct (f x), (f y), (f z); try done. rewrite !Z.compare_lt_iff. lia.
  - intros x y z. destruct (f x), (f y); try done. by intros ->%Z.compare_eq.
Qed.

Lemma string_compare_lt_trans s t u :
  String.compare s t = Lt -> String.compare t u = Lt -> String.compare s u = Lt.
Proof.
  revert t u. induction s as [|a s IH]; intros [|b t] [|c u]; simpl; try done.
  unfold Ascii.compare. intros H1 H2.
  destruct (N.compare_spec (Ascii.N_of_ascii a) (Ascii.N_of_ascii b)),
    (N.compare_spec (Ascii.N_of_ascii b) (Ascii.N_of_ascii c)),
    (N.compare_spec (Ascii.N_of_ascii a) (Ascii.N_of_ascii c));
    try done; try lia; eauto.
Qed.

#[global] Instance asc_str_total (f : A -> string) : TotalCmp (asc_str f).
Proof.
  unfold asc_str. split.
  - intros x y. apply String.compare_antisym.
  - intros x y z. apply string_compare_lt_trans.
  - intros x y z ?%String.compare_eq_iff. congruence.
Qed.

#[global] Instance desc_total (c : A -> A -> comparison) :
  TotalCmp c -> TotalCmp (desc c).
Proof.
  intros Hc. unfold desc. split.
  - intros x y. apply (cmp_opp (c:=c)).
  - intros x y z H1 H2. by apply (cmp_lt_trans (c:=c) z y x).
  - intros x y z H. rewrite (cmp_opp (c:=c) x z), (cmp_opp (c:=c) y z). f_equal.
    apply (cmp_eq_l (c:=c)). by rewrite (cmp_opp (c:=c)), H.
Qed.

#[global] Instance then_by_total (c d : A -> A -> comparison) :
  TotalCmp c -> TotalCmp d -> TotalCmp (then_by c d).
Proof.
  intros Hc Hd. unfold then_by. split.
  - intros x y. rewrite (cmp_opp (c:=c) x y), (cmp_opp (c:=d) x y).
    by destruct (c x y).
  - intros x y z H1 H2. destruct (c x y) eqn:Exy; try done.
    + rewrite (cmp_eq_l x y z Exy).
      destruct (c y z); [by apply (cmp_lt_trans (c:=d) x y z)|done..].
    + destruct (c y z) eqn:Eyz; try done.
      * assert (c x z = Lt) as ->; [|done].
        rewrite (cmp_opp z x), <- (cmp_eq_l y z x Eyz), <- (cmp_opp y x). done.
      * by rewrite (cmp_lt_trans x y z Exy Eyz).
  - intros x y z H. destruct (c x y) eqn:Exy; try done.
    rewrite (cmp_eq_l x y z Exy). destruct (c y z); [|done..].
    by apply (cmp_eq_l (c:=d)).
Qed.

Context (c : A -> A -> comparison) `{!TotalCmp c}.

Lemma cmp_refl x : c x x = Eq.
Proof. pose proof (cmp_opp (c:=c) x x) as H. by destruct (c x x). Qed.

#[global] Instance cmp_le_total : Total (cmp_le c).
Proof.
  intros x y. unfold cmp_le. rewrite (cmp_opp (c:=c) x y). destruct (c x y); auto.
Qed.

#[global] Instance cmp_le_trans : Transitive (cmp_le c).
Proof.
  intros x y z Hxy Hyz. unfold cmp_le in *.
  destruct (c x y) eqn:Exy; [|clear Hxy|done].
  - by rewrite (cmp_eq_l x y z Exy).
  - destruct (c y z) eqn:Eyz; [| |done].
    + by rewrite (cmp_opp z x), <- (cmp_eq_l y z x Eyz), <- (cmp_opp y x), Exy.
    + by rewrite (cmp_lt_trans x y z Exy Eyz).
Qed.

Lemma order_by_sorted (l : list A) : StronglySorted (cmp_le c) (order_by c l).
Proof. apply Sorted_StronglySorted; [apply _|]. apply Sorted_merge_sort, _. Qed.
End cmp.

(** SQLite's [LIMIT] and [OFFSET]: a negative limit is no limit and a negative
    offset is zero. *)
Definition sql_limit {A} (n : Z) (l : list A) : list A :=
  if n <? 0 then l else take (Z.to_nat n) l.
Definition sql_offset {A} (n : Z) (l : list A) : list A := drop (Z.to_nat n) l.

(** [COUNT( * )] over a list. *)
Definition count {A} (l : list A) : Z := Z.of_nat (length l).

#[export] Instance count_Permutation {A} : Proper ((≡ₚ) ==> (=)) (@count A).
Proof. intros l l' Hl. unfold count. by rewrite Hl. Qed.

Lemma count_nonneg {A} (l : list A) : 0 <= count l.
Proof. unfold count. lia. Qed.

Lemma count_app {A} (l l' : list A) : count (l ++ l') = count l + count l'.
Proof. unfold count. rewrite length_app. lia. Qed.

Lemma count_fmap {A B} (f : A -> B) l : count (f <$> l) = count l.
Proof. unfold count. by rewrite length_fmap. Qed.

(** Rust's [slice::chunks]. *)
Fixpoint chunks_fuel {A} (fuel n : nat) (l : list A) : list (list A) :=
  match fuel, l with
  | O, _ | _, [] => []
  | S fuel, _ => take n l :: chunks_fuel fuel n (drop n l)
  end.
Definition chunks {A} (n : nat) (l : list A) : list (list A) :=
  chunks_fuel (length l) n l.

Section sql.
Context {A : Type}.
Implicit Types l : list A.

Lemma chunks_fuel_concat fuel n l :
  (0 < n)%nat -> (length l <= fuel)%nat -> concat (chunks_fuel fuel n l) = l.
Proof.
  revert l. induction fuel as [|fuel IH]; intros l Hn Hl; simpl.
  - destruct l; simpl in *; [done|lia].
  - destruct l as [|x l]; [done|]. cbn [concat].
    rewrite IH; [apply take_drop | done |].
    rewrite length_drop. simpl in *. lia.
Qed.

Lemma chunks_concat n l : (0 < n)%nat -> concat (chunks n l) = l.
Proof. intros Hn. by apply chunks_fuel_concat. Qed.

Lemma chunks_fuel_length fuel n l c : c ∈ chunks_fuel fuel n l -> (length c <= n)%nat.
Proof.
  revert l. induction fuel as [|fuel IH]; intros l; simpl.
  - by intros ?%elem_of_nil.
  - destruct l as [|x l]; [by intros ?%elem_of_nil|].
    intros [->|Hc]%elem_of_cons; [rewrite length_take; lia | eauto].
Qed.

Lemma order_by_perm (c : A -> A -> comparison) l : order_by c l ≡ₚ l.
Proof. apply merge_sort_Permutation. Qed.

Lemma order_by_elem_of (c : A -> A -> comparison) l x : x ∈ order_by c l <-> x ∈ l.
Proof. by rewrite order_by_perm. Qed.

Lemma sql_limit_sublist n l : sql_limit n l `sublist_of` l.
Proof. unfold sql_limit. case_match; [done|apply sublist_take]. Qed.

Lemma sql_limit_elem_of n l x : x ∈ sql_limit n l -> x ∈ l.
Proof. intros Hx. eapply elem_of_sublist, sql_limit_sublist. done. Qed.

Lemma sql_limit_length n l : 0 <= n -> count (sql_limit n l) <= n.
Proof.
  intros Hn. unfold sql_limit, count. destruct (Z.ltb_spec n 0); [lia|].
  rewrite length_take. lia.
Qed.

Lemma sublist_StronglySorted (R : relation A) l1 l2 :
  StronglySorted R l2 -> l1 `sublist_of` l2 -> StronglySorted R l1.
Proof.
  intros Hs Hsub. revert Hs. induction Hsub as [|x l1 l2 Hsub IH|x l1 l2 Hsub IH]; [done| |].
  - intros [Hx Hs]%StronglySorted_cons. constructor; [by apply IH|].
    apply Forall_forall. intros y Hy. rewrite Forall_forall in Hx.
    apply Hx. by eapply elem_of_sublist.
  - intros [_ Hs]%StronglySorted_cons. by apply IH.
Qed.

Lemma filter_none (P : A -> Prop) `{!forall x, Decision (P x)} l :
  (forall x, x ∈ l -> ~ P x) -> filter P l = [].
Proof.
  induction l as [|x l IH]; intros Hl; [done|]. rewrite filter_cons, decide_False.
  - apply IH. intros y Hy. apply Hl. by right.
  - apply Hl. left.
Qed.

Lemma filter_all (P : A -> Prop) `{!forall x, Decision (P x)} l :
  (forall x, x ∈ l -> P x) -> filter P l = l.
Proof.
  induction l as [|x l IH]; intros Hl; [done|]. rewrite filter_cons, decide_True.
  - f_equal. apply IH. intros y Hy. apply Hl. by right.
  - apply Hl. left.
Qed.

Lemma filter_StronglySorted (R : relation A) (P : A -> Prop) `{!forall x, Decision (P x)} l :
  StronglySorted R l -> StronglySorted R (filter P l).
Proof. intros Hs. eapply sublist_StronglySorted, sublist_filter. done. Qed.
End sql.

(** *** Sorting by a comparator that separates the elements

    When no two elements compare equal, a sorted permutation is unique; so sorting
    commutes with filters and projections, and the first [n] of a union are found
    among the first [n] of each part. *)

Definition separates {A} (c : A -> A -> comparison) (l : list A) : Prop :=
  forall x y, x ∈ l -> y ∈ l -> c x y = Eq -> x = y.

Section separated.
Context {A : Type} (c : A -> A -> comparison) `{!TotalCmp c}.
Implicit Types l : list A.

Lemma cmp_le_antisymm x y : cmp_le c x y -> cmp_le c y x -> c x y = Eq.
Proof. unfold cmp_le. rewrite (cmp_opp (c:=c) x y). by destruct (c x y). Qed.

Lemma separates_sub l l' : (forall x, x ∈ l' -> x ∈ l) -> separates c l -> separates c l'.
Proof. intros Hsub Hl x y ?%Hsub ?%Hsub. by apply Hl. Qed.

Lemma order_by_unique l l' :
  separates c l -> StronglySorted (cmp_le c) l' -> l' ≡ₚ l -> order_by c l = l'.
Proof.
  intros Hl Hs Hp. eapply (StronglySorted_unique_strong (cmp_le c)); [|by apply order_by_sorted|done|].
  - intros x y Hx Hy H1 H2. rewrite order_by_perm in Hx. rewrite Hp in Hy.
    apply Hl; [done|done|]. by apply cmp_le_antisymm.
  - by rewrite Hp, order_by_perm.
Qed.

Lemma order_by_filter (P : A -> Prop) `{!forall x, Decision (P x)} l :
  separates c l -> order_by c (filter P l) = filter P (order_by c l).
Proof.
  intros Hl. apply order_by_unique.
  - eapply separates_sub; [|done]. intros x [_ Hx]%list_elem_of_filter. done.
  - by apply filter_StronglySorted, order_by_sorted.
  - by rewrite order_by_perm.
Qed.

Lemma order_by_fmap {B} (d : B -> B -> comparison) `{!TotalCmp d} (f : B -> A) (l : list B) :
  (forall x y, d x y = c (f x) (f y)) -> separates c (f <$> l) ->
  order_by c (f <$> l) = f <$> order_by d l.
Proof.
  intros Hd Hl. apply order_by_unique; [done| |].
  - pose proof (order_by_sorted d l) as Hs. induction Hs as [|x l' Hs IH Hx]; simpl; [constructor|].
    constructor; [done|]. apply Forall_fmap. eapply Forall_impl; [done|].
    intros y. unfold cmp_le. simpl. by rewrite Hd.
  - by rewrite order_by_perm.
Qed.

Lemma merge_take n m1 m2 l1 l2 :
  (n <= m1)%nat -> (n <= m2)%nat ->
  take n (list_merge (cmp_le c) (take m1 l1) (take m2 l2)) = take n (list_merge (cmp_le c) l1 l2).
Proof.
  revert m1 m2 l1 l2. induction n as [|n IH]; intros m1 m2 l1 l2 H1 H2; [done|].
  destruct m1 as [|m1], m2 as [|m2]; [lia..|].
  destruct l1 as [|x l1].
  { rewrite take_nil, !list_merge_nil_l, take_take. f_equal. lia. }
  destruct l2 as [|y l2].
  { rewrite take_nil, !list_merge_nil_r, take_take. f_equal. lia. }
  cbn [take]. rewrite !list_merge_cons. case_decide; cbn [take]; f_equal.
  - apply (IH m1 (S m2) l1 (y :: l2)); lia.
  - apply (IH (S m1) m2 (x :: l1) l2); lia.
Qed.

Lemma order_by_merge l1 l2 :
  separates c (l1 ++ l2) -> StronglySorted (cmp_le c) l1 -> StronglySorted (cmp_le c) l2 ->
  order_by c (l1 ++ l2) = list_merge (cmp_le c) l1 l2.
Proof.
  intros Hl H1 H2. apply order_by_unique; [done| |apply merge_Permutation].
  apply Sorted_StronglySorted; [apply _|].
  apply Sorted_list_merge; [apply _|by apply StronglySorted_Sorted..].
Qed.

(** The first [n] of a union are among the first [n] of its parts. *)
Lemma order_by_top n l1 l2 :
  separates c (l1 ++ l2) ->
  take n (order_by c (take n (order_by c l1) ++ take n (order_by c l2)))
  = take n (order_by c (l1 ++ l2)).
Proof.
  intros Hl. rewrite order_by_merge.
  - rewrite merge_take by lia. f_equal. symmetry. apply order_by_unique; [done| |].
    + apply Sorted_StronglySorted; [apply _|].
      apply Sorted_list_merge; [apply _|apply StronglySorted_Sorted, order_by_sorted, _..].
    + by rewrite merge_Permutation, !order_by_perm.
  - eapply separates_sub; [|done]. intros x. rewrite !elem_of_app.
    intros [Hx|Hx]; [left|right]; rewrite <- (order_by_perm c);
      (eapply elem_of_sublist; [done|apply sublist_take]).
  - eapply sublist_StronglySorted; [by apply order_by_sorted|apply sublist_take].
  - eapply sublist_StronglySorted; [by apply order_by_sorted|apply sublist_take].
Qed.
End separated.

