(* ===== verification/Text.v ===== *)
(** * Text: printed numbers and delimited strings

    The standard library's decimal [Display], [usize::from_str], [str::split_once] and
    [str::strip_prefix], and the facts that make length-prefixed keys readable back. *)
From S2P Require Import Prelude.
From Stdlib Require Import Ascii.

(** The value of a decimal digit. *)
Definition digit (a : ascii) : option Z :=
  let n := Z.of_N (N_of_ascii a) in
  if (48 <=? n) && (n <=? 57) then Some (n - 48) else None.

(** The digits of an unsigned 64-bit number; [None] on a non-digit or an overflow. *)
Fixpoint parse_digits (acc : Z) (s : string) : option Z :=
  match s with
  | EmptyString => Some acc
  | String a s =>
      d ← digit a;
      let v := acc * 10 + d in
      if u64_max <? v then None else parse_digits v s
  end.

(** [s.parse::<usize>().ok()]: one leading plus sign is accepted. *)
Definition parse_usize (s : string) : option Z :=
  match s with
  | EmptyString => None
  | String a s' =>
      if bool_decide (a = "+"%char) then
        match s' with EmptyString => None | _ => parse_digits 0 s' end
      else parse_digits 0 s
  end.

(** [s.split_once(c)] *)
Fixpoint split_once (c : ascii) (s : string) : option (string * string) :=
  match s with
  | EmptyString => None
  | String a s =>
      if bool_decide (a = c) then Some (""%string, s)
      else '(l, r) ← split_once c s; Some (String a l, r)
  end.

(** [s.strip_prefix(p)] *)
Fixpoint strip_prefix (p s : string) : option string :=
  match p, s with
  | EmptyString, _ => Some s
  | String a p, String b s => if bool_decide (a = b) then strip_prefix p s else None
  | _, EmptyString => None
  end.

(** [s.starts_with(p)] *)
Definition starts_with (p s : string) : bool := bool_decide (is_Some (strip_prefix p s)).

(** The character does not occur. *)
Fixpoint lacks (c : ascii) (s : string) : bool :=
  match s with
  | EmptyString => true
  | String a s => negb (bool_decide (a = c)) && lacks c s
  end.

Lemma append_nil s : "" +:+ s = s.
Proof. done. Qed.
Lemma append_cons a p s : String a p +:+ s = String a (p +:+ s).
Proof. done. Qed.

Lemma strip_prefix_app p s : strip_prefix p (p +:+ s) = Some s.
Proof.
  induction p as [|a p IH]; [by destruct s|]. rewrite append_cons.
  cbn [strip_prefix]. by rewrite bool_decide_eq_true_2.
Qed.

Lemma starts_with_app p s : starts_with p (p +:+ s) = true.
Proof. unfold starts_with. rewrite strip_prefix_app. by apply bool_decide_eq_true_2. Qed.

Lemma split_once_app c p s : lacks c p = true -> split_once c (p +:+ String c s) = Some (p, s).
Proof.
  induction p as [|a p IH]; intros Hp.
  - rewrite append_nil. cbn [split_once]. by rewrite bool_decide_eq_true_2.
  - rewrite append_cons. cbn [split_once]. cbn [lacks] in Hp. apply andb_prop in Hp as [Ha Hp]. rewrite negb_true_iff in Ha.
    rewrite Ha, IH by done. done.
Qed.

(** *** Decimal numbers *)

Lemma digit_char (x : N) :
  (x < 10)%N -> digit (pretty_N_char x) = Some (Z.of_N x).
Proof.
  intros Hx. assert (x = 0 \/ x = 1 \/ x = 2 \/ x = 3 \/ x = 4 \/ x = 5 \/ x = 6 \/ x = 7
    \/ x = 8 \/ x = 9)%N as H by lia.
  by repeat destruct H as [->|H]; [..|subst].
Qed.

Lemma parse_digits_go (x : N) s :
  Z.of_N x <= u64_max -> parse_digits 0 (pretty_N_go x s) = parse_digits (Z.of_N x) s.
Proof.
  revert s. induction (N.lt_wf_0 x) as [x _ IH]. intros s Hx.
  destruct (decide (0 < x)%N) as [Hpos|Hz].
  2:{ assert (x = 0%N) as -> by lia. by rewrite pretty_N_go_0. }
  assert (Hlt : (x `div` 10 < x)%N) by (apply N.div_lt; lia).
  assert (Hmod : (x `mod` 10 < 10)%N) by (apply N.mod_lt; lia).
  assert (Hdm : Z.of_N x = Z.of_N (x `div` 10) * 10 + Z.of_N (x `mod` 10)).
  { pose proof (N.div_mod x 10 ltac:(lia)). lia. }
  rewrite pretty_N_go_step, IH by lia. cbn [parse_digits]. rewrite digit_char by done.
  cbn [mbind option_bind]. rewrite <- Hdm. destruct (Z.ltb_spec u64_max (Z.of_N x)); [lia|done].
Qed.

Lemma lacks_go c (x : N) s :
  digit c = None -> lacks c (pretty_N_go x s) = lacks c s.
Proof.
  intros Hc. revert s. induction (N.lt_wf_0 x) as [x _ IH]. intros s.
  destruct (decide (0 < x)%N) as [Hpos|Hz].
  2:{ assert (x = 0%N) as -> by lia. by rewrite pretty_N_go_0. }
  assert (Hmod : (x `mod` 10 < 10)%N) by (apply N.mod_lt; lia).
  rewrite pretty_N_go_step, IH by (done || apply N.div_lt; lia). cbn [lacks].
  rewrite bool_decide_eq_false_2; [done|]. intros <-. by rewrite digit_char in Hc.
Qed.

Lemma pretty_nat_go (n : nat) :
  pretty n = if decide (n = 0)%nat then "0"%string else pretty_N_go (N.of_nat n) "".
Proof.
  unfold pretty, pretty_nat, pretty, pretty_N. case_decide as H0; case_decide as H1; try done; lia.
Qed.

(** A printed number reads back. *)
Lemma parse_pretty (n : nat) : Z.of_nat n <= u64_max -> parse_usize (pretty n) = Some (Z.of_nat n).
Proof.
  intros Hn. rewrite pretty_nat_go. case_decide as H0; [by subst|].
  assert (Hp : parse_digits 0 (pretty_N_go (N.of_nat n) "") = Some (Z.of_nat n)).
  { rewrite parse_digits_go by lia. cbn [parse_digits]. f_equal. lia. }
  assert (Hplus : lacks "+"%char (pretty_N_go (N.of_nat n) "") = true) by by rewrite lacks_go.
  unfold parse_usize. destruct (pretty_N_go (N.of_nat n) "") as [|a s] eqn:Hs.
  { cbn [parse_digits] in Hp. injection Hp as Hp. lia. }
  cbn [lacks] in Hplus. apply andb_prop in Hplus as [Ha _]. rewrite negb_true_iff in Ha.
  by rewrite Ha.
Qed.

Lemma lacks_pretty c (n : nat) : digit c = None -> lacks c (pretty n) = true.
Proof.
  intros Hc. rewrite pretty_nat_go. case_decide as H0; [|by rewrite lacks_go].
  cbn [lacks]. rewrite bool_decide_eq_false_2; [done|]. by intros <-.
Qed.

(** *** Concatenations *)

Lemma append_assoc (a b c : string) : (a +:+ b) +:+ c = a +:+ (b +:+ c).
Proof. induction a as [|x a IH]; [done|]. by rewrite !append_cons, IH. Qed.

(** Two concatenations that agree on the length of their first part agree on both. *)
Lemma append_split (a b a' b' : string) :
  String.length a = String.length a' -> a +:+ b = a' +:+ b' -> a = a' /\ b = b'.
Proof.
  revert a'. induction a as [|x a IH]; intros [|x' a']; try done.
  rewrite !append_cons. cbn [String.length]. intros [= Hl] [= <- Hab]. by destruct (IH a' Hl Hab) as [-> ->].
Qed.

Lemma append_inv_head (a b b' : string) : a +:+ b = a +:+ b' -> b = b'.
Proof. intros Hab. by apply append_split in Hab as [_ ?]. Qed.

(** Two delimited texts agree on both sides of the first delimiter. *)
Lemma delimited_split c p s p' s' :
  lacks c p = true -> lacks c p' = true -> p +:+ String c s = p' +:+ String c s' -> p = p' /\ s = s'.
Proof.
  intros Hp Hp' Heq. pose proof (split_once_app c p s Hp) as H1.
  rewrite Heq, (split_once_app c p' s' Hp') in H1. by injection H1 as -> ->.
Qed.
