(* ===== verification/Job.v ===== *)
(** * Jobs: the data of [job.rs], [error.rs] and the row structs of [storage/models.rs]

    The statuses, the job record, the parameters of a new job, the columns of
    the [jobs] and [archived_jobs] tables, and the conversions between them.
    Timestamps, priorities and counters are [Z]; payloads and results are byte
    lists; nullable columns are options. *)
From S2P Require Import Prelude.
From Stdlib Require Export Strings.Byte.

Notation bytes := (list Byte.byte).

(** ** Errors ([error.rs]) *)

(** The cases of [diesel::result::Error] the storage code tells apart. *)
Inductive DieselError :=
  | NotFound
  | RollbackTransaction
  | UniqueViolation
  | ForeignKeyViolation
  | NotNullViolation
  | CheckViolation
  | OtherDiesel (msg : string).

Record StepDivergence := mkStepDivergence {
  sd_job_id : string;
  sd_position : Z;
  sd_recorded : string;
  sd_running : string;
  sd_expected : string;
  sd_found : string
}.

Inductive QueueError :=
  | Storage (e : DieselError)
  | Pool
  | Redis (msg : string)
  | Json (msg : string)
  | JobNotFound (id : string)
  | TaskNotRegistered (task : string)
  | Serialization (msg : string)
  | Worker (msg : string)
  | Scheduler (msg : string)
  | RateLimitExceeded (key : string)
  | QueueFull (queue : string) (pending cap : Z)
  | Timeout (msg : string)
  | Config (msg : string)
  | DependencyNotFound (msg : string)
  | LockNotAcquired (name : string)
  | SettingConflict (key : string)
  | ContractTooOld (speaks required : Z)
  | ClaimLost (job_id : string)
  | StepDiverged (job_id : string) (seq : Z) (expected found : string)
  | StepSequenceDiverged (d : StepDivergence)
  | StepLimitExceeded (step_key limit : string) (actual allowed : Z)
  | StepRefused (msg : string)
  | Other (msg : string).

(** ** Statuses *)

Inductive JobStatus :=
  | Pending | Running | Complete | Failed | Dead | Cancelled.

#[export] Instance JobStatus_eq_dec : EqDecision JobStatus.
Proof. solve_decision. Defined.

(** The [#[repr(i32)]] discriminant, [status as i32]. *)
Definition as_int (s : JobStatus) : Z :=
  match s with
  | Pending => 0
  | Running => 1
  | Complete => 2
  | Failed => 3
  | Dead => 4
  | Cancelled => 5
  end.
Arguments as_int s : simpl never.

Definition from_i32 (v : Z) : option JobStatus :=
  match v with
  | 0 => Some Pending
  | 1 => Some Running
  | 2 => Some Complete
  | 3 => Some Failed
  | 4 => Some Dead
  | 5 => Some Cancelled
  | _ => None
  end.

Definition as_str (s : JobStatus) : string :=
  match s with
  | Pending => "pending"
  | Running => "running"
  | Complete => "complete"
  | Failed => "failed"
  | Dead => "dead"
  | Cancelled => "cancelled"
  end.

Definition wire_name (s : JobStatus) : string :=
  match s with
  | Pending => "Pending"
  | Running => "Running"
  | Complete => "Complete"
  | Failed => "Failed"
  | Dead => "Dead"
  | Cancelled => "Cancelled"
  end.

(** [JobStatus::from_i32(v).unwrap_or(JobStatus::Pending)] *)
Definition status_of (v : Z) : JobStatus := default Pending (from_i32 v).

(** ** Records *)

Record Job := mkJob {
  j_id : string;
  j_queue : string;
  j_task_name : string;
  j_payload : bytes;
  j_status : JobStatus;
  j_priority : Z;
  j_created_at : Z;
  j_scheduled_at : Z;
  j_started_at : option Z;
  j_completed_at : option Z;
  j_retry_count : Z;
  j_max_retries : Z;
  j_result : option bytes;
  j_error : option string;
  j_timeout_ms : Z;
  j_unique_key : option string;
  j_progress : option Z;
  j_metadata : option string;
  j_notes : option string;
  j_cancel_requested : bool;
  j_expires_at : option Z;
  j_result_ttl_ms : option Z;
  j_namespace : option string;
  j_has_deps : bool;
  j_debounce_key : option string;
  j_enqueued_by : option string
}.

Record JobCompletion := mkJobCompletion {
  jc_job_id : string;
  jc_result : option bytes;
  jc_task_name : string;
  jc_wall_time_ns : Z
}.

Record NewJob := mkNewJob {
  nj_queue : string;
  nj_task_name : string;
  nj_payload : bytes;
  nj_priority : Z;
  nj_scheduled_at : Z;
  nj_max_retries : Z;
  nj_timeout_ms : Z;
  nj_unique_key : option string;
  nj_metadata : option string;
  nj_notes : option string;
  nj_depends_on : list string;
  nj_expires_at : option Z;
  nj_result_ttl_ms : option Z;
  nj_namespace : option string;
  nj_debounce_key : option string;
  nj_enqueued_by : option string
}.

(** A row of the [jobs] table: the columns of [JobRow] and the two pub/sub
    attribution columns of the schema that [JobRow] does not select. *)
Record JobRow := mkJobRow {
  jr_id : string;
  jr_queue : string;
  jr_task_name : string;
  jr_payload : bytes;
  jr_status : Z;
  jr_priority : Z;
  jr_created_at : Z;
  jr_scheduled_at : Z;
  jr_started_at : option Z;
  jr_completed_at : option Z;
  jr_retry_count : Z;
  jr_max_retries : Z;
  jr_result : option bytes;
  jr_error : option string;
  jr_timeout_ms : Z;
  jr_unique_key : option string;
  jr_progress : option Z;
  jr_metadata : option string;
  jr_notes : option string;
  jr_cancel_requested : Z;
  jr_expires_at : option Z;
  jr_result_ttl_ms : option Z;
  jr_namespace : option string;
  jr_has_deps : bool;
  jr_debounce_key : option string;
  jr_enqueued_by : option string;
  jr_topic : option string;
  jr_subscription_name : option string
}.

Record NarrowJobRow := mkNarrowJobRow {
  nw_id : string;
  nw_queue : string;
  nw_task_name : string;
  nw_status : Z;
  nw_priority : Z;
  nw_created_at : Z;
  nw_scheduled_at : Z;
  nw_started_at : option Z;
  nw_completed_at : option Z;
  nw_retry_count : Z;
  nw_max_retries : Z;
  nw_error : option string;
  nw_timeout_ms : Z;
  nw_unique_key : option string;
  nw_progress : option Z;
  nw_metadata : option string;
  nw_notes : option string;
  nw_cancel_requested : Z;
  nw_expires_at : option Z;
  nw_result_ttl_ms : option Z;
  nw_namespace : option string;
  nw_has_deps : bool;
  nw_debounce_key : option string;
  nw_enqueued_by : option string
}.

Record NewJobRow := mkNewJobRow {
  njr_id : string;
  njr_queue : string;
  njr_task_name : string;
  njr_payload : bytes;
  njr_status : Z;
  njr_priority : Z;
  njr_created_at : Z;
  njr_scheduled_at : Z;
  njr_retry_count : Z;
  njr_max_retries : Z;
  njr_timeout_ms : Z;
  njr_unique_key : option string;
  njr_metadata : option string;
  njr_notes : option string;
  njr_cancel_requested : Z;
  njr_expires_at : option Z;
  njr_result_ttl_ms : option Z;
  njr_namespace : option string;
  njr_has_deps : bool;
  njr_topic : option string;
  njr_subscription_name : option string;
  njr_debounce_key : option string;
  njr_enqueued_by : option string
}.

Record ArchivedJobRow := mkArchivedJobRow {
  ar_id : string;
  ar_queue : string;
  ar_task_name : string;
  ar_payload : bytes;
  ar_status : Z;
  ar_priority : Z;
  ar_created_at : Z;
  ar_scheduled_at : Z;
  ar_started_at : option Z;
  ar_completed_at : option Z;
  ar_retry_count : Z;
  ar_max_retries : Z;
  ar_result : option bytes;
  ar_error : option string;
  ar_timeout_ms : Z;
  ar_unique_key : option string;
  ar_progress : option Z;
  ar_metadata : option string;
  ar_notes : option string;
  ar_cancel_requested : Z;
  ar_expires_at : option Z;
  ar_result_ttl_ms : option Z;
  ar_namespace : option string;
  ar_enqueued_by : option string
}.

Record NarrowArchivedJobRow := mkNarrowArchivedJobRow {
  nar_id : string;
  nar_queue : string;
  nar_task_name : string;
  nar_status : Z;
  nar_priority : Z;
  nar_created_at : Z;
  nar_scheduled_at : Z;
  nar_started_at : option Z;
  nar_completed_at : option Z;
  nar_retry_count : Z;
  nar_max_retries : Z;
  nar_error : option string;
  nar_timeout_ms : Z;
  nar_unique_key : option string;
  nar_progress : option Z;
  nar_metadata : option string;
  nar_notes : option string;
  nar_cancel_requested : Z;
  nar_expires_at : option Z;
  nar_result_ttl_ms : option Z;
  nar_namespace : option string;
  nar_enqueued_by : option string
}.

(** ** Conversions *)

(** [impl From<JobRow> for Job] *)
Definition job_of_row (row : JobRow) : Job :=
  {| j_id := jr_id row;
     j_queue := jr_queue row;
     j_task_name := jr_task_name row;
     j_payload := jr_payload row;
     j_status := status_of (jr_status row);
     j_priority := jr_priority row;
     j_created_at := jr_created_at row;
     j_scheduled_at := jr_scheduled_at row;
     j_started_at := jr_started_at row;
     j_completed_at := jr_completed_at row;
     j_retry_count := jr_retry_count row;
     j_max_retries := jr_max_retries row;
     j_result := jr_result row;
     j_error := jr_error row;
     j_timeout_ms := jr_timeout_ms row;
     j_unique_key := jr_unique_key row;
     j_progress := jr_progress row;
     j_metadata := jr_metadata row;
     j_notes := jr_notes row;
     j_cancel_requested := negb (jr_cancel_requested row =? 0);
     j_expires_at := jr_expires_at row;
     j_result_ttl_ms := jr_result_ttl_ms row;
     j_namespace := jr_namespace row;
     j_has_deps := jr_has_deps row;
     j_debounce_key := jr_debounce_key row;
     j_enqueued_by := jr_enqueued_by row |}.

(** [impl From<ArchivedJobRow> for Job] *)
Definition job_of_archived (row : ArchivedJobRow) : Job :=
  {| j_id := ar_id row;
     j_queue := ar_queue row;
     j_task_name := ar_task_name row;
     j_payload := ar_payload row;
     j_status := status_of (ar_status row);
     j_priority := ar_priority row;
     j_created_at := ar_created_at row;
     j_scheduled_at := ar_scheduled_at row;
     j_started_at := ar_started_at row;
     j_completed_at := ar_completed_at row;
     j_retry_count := ar_retry_count row;
     j_max_retries := ar_max_retries row;
     j_result := ar_result row;
     j_error := ar_error row;
     j_timeout_ms := ar_timeout_ms row;
     j_unique_key := ar_unique_key row;
     j_progress := ar_progress row;
     j_metadata := ar_metadata row;
     j_notes := ar_notes row;
     j_cancel_requested := negb (ar_cancel_requested row =? 0);
     j_expires_at := ar_expires_at row;
     j_result_ttl_ms := ar_result_ttl_ms row;
     j_namespace := ar_namespace row;
     j_has_deps := false;
     j_debounce_key := None;
     j_enqueued_by := ar_enqueued_by row |}.

Definition from_narrow (narrow : NarrowJobRow) (payload : bytes)
    (result : option bytes) : Job :=
  {| j_id := nw_id narrow;
     j_queue := nw_queue narrow;
     j_task_name := nw_task_name narrow;
     j_payload := payload;
     j_status := status_of (nw_status narrow);
     j_priority := nw_priority narrow;
     j_created_at := nw_created_at narrow;
     j_scheduled_at := nw_scheduled_at narrow;
     j_started_at := nw_started_at narrow;
     j_completed_at := nw_completed_at narrow;
     j_retry_count := nw_retry_count narrow;
     j_max_retries := nw_max_retries narrow;
     j_result := result;
     j_error := nw_error narrow;
     j_timeout_ms := nw_timeout_ms narrow;
     j_unique_key := nw_unique_key narrow;
     j_progress := nw_progress narrow;
     j_metadata := nw_metadata narrow;
     j_notes := nw_notes narrow;
     j_cancel_requested := negb (nw_cancel_requested narrow =? 0);
     j_expires_at := nw_expires_at narrow;
     j_result_ttl_ms := nw_result_ttl_ms narrow;
     j_namespace := nw_namespace narrow;
     j_has_deps := nw_has_deps narrow;
     j_debounce_key := nw_debounce_key narrow;
     j_enqueued_by := nw_enqueued_by narrow |}.

Definition from_narrow_archived (narrow : NarrowArchivedJobRow) : Job :=
  {| j_id := nar_id narrow;
     j_queue := nar_queue narrow;
     j_task_name := nar_task_name narrow;
     j_payload := [];
     j_status := status_of (nar_status narrow);
     j_priority := nar_priority narrow;
     j_created_at := nar_created_at narrow;
     j_scheduled_at := nar_scheduled_at narrow;
     j_started_at := nar_started_at narrow;
     j_completed_at := nar_completed_at narrow;
     j_retry_count := nar_retry_count narrow;
     j_max_retries := nar_max_retries narrow;
     j_result := None;
     j_error := nar_error narrow;
     j_timeout_ms := nar_timeout_ms narrow;
     j_unique_key := nar_unique_key narrow;
     j_progress := nar_progress narrow;
     j_metadata := nar_metadata narrow;
     j_notes := nar_notes narrow;
     j_cancel_requested := negb (nar_cancel_requested narrow =? 0);
     j_expires_at := nar_expires_at narrow;
     j_result_ttl_ms := nar_result_ttl_ms narrow;
     j_namespace := nar_namespace narrow;
     j_has_deps := false;
     j_debounce_key := None;
     j_enqueued_by := nar_enqueued_by narrow |}.

(** [NarrowJobRow::as_select()]: the columns without the blobs. *)
Definition narrow (r : JobRow) : NarrowJobRow :=
  {| nw_id := jr_id r;
     nw_queue := jr_queue r;
     nw_task_name := jr_task_name r;
     nw_status := jr_status r;
     nw_priority := jr_priority r;
     nw_created_at := jr_created_at r;
     nw_scheduled_at := jr_scheduled_at r;
     nw_started_at := jr_started_at r;
     nw_completed_at := jr_completed_at r;
     nw_retry_count := jr_retry_count r;
     nw_max_retries := jr_max_retries r;
     nw_error := jr_error r;
     nw_timeout_ms := jr_timeout_ms r;
     nw_unique_key := jr_unique_key r;
     nw_progress := jr_progress r;
     nw_metadata := jr_metadata r;
     nw_notes := jr_notes r;
     nw_cancel_requested := jr_cancel_requested r;
     nw_expires_at := jr_expires_at r;
     nw_result_ttl_ms := jr_result_ttl_ms r;
     nw_namespace := jr_namespace r;
     nw_has_deps := jr_has_deps r;
     nw_debounce_key := jr_debounce_key r;
     nw_enqueued_by := jr_enqueued_by r |}.

(** [NarrowArchivedJobRow::as_select()] *)
Definition narrow_archived (r : ArchivedJobRow) : NarrowArchivedJobRow :=
  {| nar_id := ar_id r;
     nar_queue := ar_queue r;
     nar_task_name := ar_task_name r;
     nar_status := ar_status r;
     nar_priority := ar_priority r;
     nar_created_at := ar_created_at r;
     nar_scheduled_at := ar_scheduled_at r;
     nar_started_at := ar_started_at r;
     nar_completed_at := ar_completed_at r;
     nar_retry_count := ar_retry_count r;
     nar_max_retries := ar_max_retries r;
     nar_error := ar_error r;
     nar_timeout_ms := ar_timeout_ms r;
     nar_unique_key := ar_unique_key r;
     nar_progress := ar_progress r;
     nar_metadata := ar_metadata r;
     nar_notes := ar_notes r;
     nar_cancel_requested := ar_cancel_requested r;
     nar_expires_at := ar_expires_at r;
     nar_result_ttl_ms := ar_result_ttl_ms r;
     nar_namespace := ar_namespace r;
     nar_enqueued_by := ar_enqueued_by r |}.

(** [NewJob::into_job], given the fresh id and the clock reading it makes. *)
Definition into_job_at (id : string) (now : Z) (nj : NewJob) : Job :=
  let has_deps := negb (bool_decide (nj_depends_on nj = [])) in
  {| j_id := id;
     j_queue := nj_queue nj;
     j_task_name := nj_task_name nj;
     j_payload := nj_payload nj;
     j_status := Pending;
     j_priority := nj_priority nj;
     j_created_at := now;
     j_scheduled_at := nj_scheduled_at nj;
     j_started_at := None;
     j_completed_at := None;
     j_retry_count := 0;
     j_max_retries := nj_max_retries nj;
     j_result := None;
     j_error := None;
     j_timeout_ms := nj_timeout_ms nj;
     j_unique_key := nj_unique_key nj;
     j_progress := None;
     j_metadata := nj_metadata nj;
     j_notes := nj_notes nj;
     j_cancel_requested := false;
     j_expires_at := nj_expires_at nj;
     j_result_ttl_ms := nj_result_ttl_ms nj;
     j_namespace := nj_namespace nj;
     j_has_deps := has_deps;
     j_debounce_key := nj_debounce_key nj;
     j_enqueued_by := nj_enqueued_by nj |}.

(** [JobAttribution] ([diesel_common/job_row.rs]): the pub/sub columns of a row. *)
Record JobAttribution := mkJobAttribution {
  ja_topic : option string;
  ja_subscription_name : option string
}.

Definition new_job_row (job : Job) (attribution : JobAttribution) : NewJobRow :=
  {| njr_id := j_id job;
     njr_queue := j_queue job;
     njr_task_name := j_task_name job;
     njr_payload := j_payload job;
     njr_status := as_int (j_status job);
     njr_priority := j_priority job;
     njr_created_at := j_created_at job;
     njr_scheduled_at := j_scheduled_at job;
     njr_retry_count := j_retry_count job;
     njr_max_retries := j_max_retries job;
     njr_timeout_ms := j_timeout_ms job;
     njr_unique_key := j_unique_key job;
     njr_metadata := j_metadata job;
     njr_notes := j_notes job;
     njr_cancel_requested := 0;
     njr_expires_at := j_expires_at job;
     njr_result_ttl_ms := j_result_ttl_ms job;
     njr_namespace := j_namespace job;
     njr_has_deps := j_has_deps job;
     njr_topic := ja_topic attribution;
     njr_subscription_name := ja_subscription_name attribution;
     njr_debounce_key := j_debounce_key job;
     njr_enqueued_by := j_enqueued_by job |}.

(** The stored row of an [INSERT] that lists the [NewJobRow] columns: the others
    are [NULL]. *)
Definition inserted_row (n : NewJobRow) : JobRow :=
  {| jr_id := njr_id n;
     jr_queue := njr_queue n;
     jr_task_name := njr_task_name n;
     jr_payload := njr_payload n;
     jr_status := njr_status n;
     jr_priority := njr_priority n;
     jr_created_at := njr_created_at n;
     jr_scheduled_at := njr_scheduled_at n;
     jr_started_at := None;
     jr_completed_at := None;
     jr_retry_count := njr_retry_count n;
     jr_max_retries := njr_max_retries n;
     jr_result := None;
     jr_error := None;
     jr_timeout_ms := njr_timeout_ms n;
     jr_unique_key := njr_unique_key n;
     jr_progress := None;
     jr_metadata := njr_metadata n;
     jr_notes := njr_notes n;
     jr_cancel_requested := njr_cancel_requested n;
     jr_expires_at := njr_expires_at n;
     jr_result_ttl_ms := njr_result_ttl_ms n;
     jr_namespace := njr_namespace n;
     jr_has_deps := njr_has_deps n;
     jr_debounce_key := njr_debounce_key n;
     jr_enqueued_by := njr_enqueued_by n;
     jr_topic := njr_topic n;
     jr_subscription_name := njr_subscription_name n |}.

(** The [NewArchivedJobRow] that [archive_job_row] builds out of a live row. *)
Definition archived_of (row : JobRow) : ArchivedJobRow :=
  {| ar_id := jr_id row;
     ar_queue := jr_queue row;
     ar_task_name := jr_task_name row;
     ar_payload := jr_payload row;
     ar_status := jr_status row;
     ar_priority := jr_priority row;
     ar_created_at := jr_created_at row;
     ar_scheduled_at := jr_scheduled_at row;
     ar_started_at := jr_started_at row;
     ar_completed_at := jr_completed_at row;
     ar_retry_count := jr_retry_count row;
     ar_max_retries := jr_max_retries row;
     ar_result := jr_result row;
     ar_error := jr_error row;
     ar_timeout_ms := jr_timeout_ms row;
     ar_unique_key := jr_unique_key row;
     ar_progress := jr_progress row;
     ar_metadata := jr_metadata row;
     ar_notes := jr_notes row;
     ar_cancel_requested := jr_cancel_requested row;
     ar_expires_at := jr_expires_at row;
     ar_result_ttl_ms := jr_result_ttl_ms row;
     ar_namespace := jr_namespace row;
     ar_enqueued_by := jr_enqueued_by row |}.

(** ** Column updates ([UPDATE jobs SET ...]) and field assignments *)

Definition jr_with_status v (r : JobRow) : JobRow :=
  mkJobRow (jr_id r) (jr_queue r) (jr_task_name r) (jr_payload r) v (jr_priority r)
    (jr_created_at r) (jr_scheduled_at r) (jr_started_at r) (jr_completed_at r)
    (jr_retry_count r) (jr_max_retries r) (jr_result r) (jr_error r) (jr_timeout_ms r)
    (jr_unique_key r) (jr_progress r) (jr_metadata r) (jr_notes r) (jr_cancel_requested
    r) (jr_expires_at r) (jr_result_ttl_ms r) (jr_namespace r) (jr_has_deps r)
    (jr_debounce_key r) (jr_enqueued_by r) (jr_topic r) (jr_subscription_name r).

Definition jr_with_scheduled_at v (r : JobRow) : JobRow :=
  mkJobRow (jr_id r) (jr_queue r) (jr_task_name r) (jr_payload r) (jr_status r)
    (jr_priority r) (jr_created_at r) v (jr_started_at r) (jr_completed_at r)
    (jr_retry_count r) (jr_max_retries r) (jr_result r) (jr_error r) (jr_timeout_ms r)
    (jr_unique_key r) (jr_progress r) (jr_metadata r) (jr_notes r) (jr_cancel_requested
    r) (jr_expires_at r) (jr_result_ttl_ms r) (jr_namespace r) (jr_has_deps r)
    (jr_debounce_key r) (jr_enqueued_by r) (jr_topic r) (jr_subscription_name r).

Definition jr_with_started_at v (r : JobRow) : JobRow :=
  mkJobRow (jr_id r) (jr_queue r) (jr_task_name r) (jr_payload r) (jr_status r)
    (jr_priority r) (jr_created_at r) (jr_scheduled_at r) v (jr_completed_at r)
    (jr_retry_count r) (jr_max_retries r) (jr_result r) (jr_error r) (jr_timeout_ms r)
    (jr_unique_key r) (jr_progress r) (jr_metadata r) (jr_notes r) (jr_cancel_requested
    r) (jr_expires_at r) (jr_result_ttl_ms r) (jr_namespace r) (jr_has_deps r)
    (jr_debounce_key r) (jr_enqueued_by r) (jr_topic r) (jr_subscription_name r).

Definition jr_with_retry_count v (r : JobRow) : JobRow :=
  mkJobRow (jr_id r) (jr_queue r) (jr_task_name r) (jr_payload r) (jr_status r)
    (jr_priority r) (jr_created_at r) (jr_scheduled_at r) (jr_started_at r)
    (jr_completed_at r) v (jr_max_retries r) (jr_result r) (jr_error r) (jr_timeout_ms
    r) (jr_unique_key r) (jr_progress r) (jr_metadata r) (jr_notes r)
    (jr_cancel_requested r) (jr_expires_at r) (jr_result_ttl_ms r) (jr_namespace r)
    (jr_has_deps r) (jr_debounce_key r) (jr_enqueued_by r) (jr_topic r)
    (jr_subscription_name r).

Definition jr_with_progress v (r : JobRow) : JobRow :=
  mkJobRow (jr_id r) (jr_queue r) (jr_task_name r) (jr_payload r) (jr_status r)
    (jr_priority r) (jr_created_at r) (jr_scheduled_at r) (jr_started_at r)
    (jr_completed_at r) (jr_retry_count r) (jr_max_retries r) (jr_result r) (jr_error
    r) (jr_timeout_ms r) (jr_unique_key r) v (jr_metadata r) (jr_notes r)
    (jr_cancel_requested r) (jr_expires_at r) (jr_result_ttl_ms r) (jr_namespace r)
    (jr_has_deps r) (jr_debounce_key r) (jr_enqueued_by r) (jr_topic r)
    (jr_subscription_name r).

Definition jr_with_cancel_requested v (r : JobRow) : JobRow :=
  mkJobRow (jr_id r) (jr_queue r) (jr_task_name r) (jr_payload r) (jr_status r)
    (jr_priority r) (jr_created_at r) (jr_scheduled_at r) (jr_started_at r)
    (jr_completed_at r) (jr_retry_count r) (jr_max_retries r) (jr_result r) (jr_error
    r) (jr_timeout_ms r) (jr_unique_key r) (jr_progress r) (jr_metadata r) (jr_notes r)
    v (jr_expires_at r) (jr_result_ttl_ms r) (jr_namespace r) (jr_has_deps r)
    (jr_debounce_key r) (jr_enqueued_by r) (jr_topic r) (jr_subscription_name r).

Definition jr_with_payload v (r : JobRow) : JobRow :=
  mkJobRow (jr_id r) (jr_queue r) (jr_task_name r) v (jr_status r) (jr_priority r)
    (jr_created_at r) (jr_scheduled_at r) (jr_started_at r) (jr_completed_at r)
    (jr_retry_count r) (jr_max_retries r) (jr_result r) (jr_error r) (jr_timeout_ms r)
    (jr_unique_key r) (jr_progress r) (jr_metadata r) (jr_notes r) (jr_cancel_requested
    r) (jr_expires_at r) (jr_result_ttl_ms r) (jr_namespace r) (jr_has_deps r)
    (jr_debounce_key r) (jr_enqueued_by r) (jr_topic r) (jr_subscription_name r).

Definition jr_with_error v (r : JobRow) : JobRow :=
  mkJobRow (jr_id r) (jr_queue r) (jr_task_name r) (jr_payload r) (jr_status r)
    (jr_priority r) (jr_created_at r) (jr_scheduled_at r) (jr_started_at r)
    (jr_completed_at r) (jr_retry_count r) (jr_max_retries r) (jr_result r) v
    (jr_timeout_ms r) (jr_unique_key r) (jr_progress r) (jr_metadata r) (jr_notes r)
    (jr_cancel_requested r) (jr_expires_at r) (jr_result_ttl_ms r) (jr_namespace r)
    (jr_has_deps r) (jr_debounce_key r) (jr_enqueued_by r) (jr_topic r)
    (jr_subscription_name r).

Definition jr_with_result v (r : JobRow) : JobRow :=
  mkJobRow (jr_id r) (jr_queue r) (jr_task_name r) (jr_payload r) (jr_status r)
    (jr_priority r) (jr_created_at r) (jr_scheduled_at r) (jr_started_at r)
    (jr_completed_at r) (jr_retry_count r) (jr_max_retries r) v (jr_error r)
    (jr_timeout_ms r) (jr_unique_key r) (jr_progress r) (jr_metadata r) (jr_notes r)
    (jr_cancel_requested r) (jr_expires_at r) (jr_result_ttl_ms r) (jr_namespace r)
    (jr_has_deps r) (jr_debounce_key r) (jr_enqueued_by r) (jr_topic r)
    (jr_subscription_name r).

Definition jr_with_completed_at v (r : JobRow) : JobRow :=
  mkJobRow (jr_id r) (jr_queue r) (jr_task_name r) (jr_payload r) (jr_status r)
    (jr_priority r) (jr_created_at r) (jr_scheduled_at r) (jr_started_at r) v
    (jr_retry_count r) (jr_max_retries r) (jr_result r) (jr_error r) (jr_timeout_ms r)
    (jr_unique_key r) (jr_progress r) (jr_metadata r) (jr_notes r) (jr_cancel_requested
    r) (jr_expires_at r) (jr_result_ttl_ms r) (jr_namespace r) (jr_has_deps r)
    (jr_debounce_key r) (jr_enqueued_by r) (jr_topic r) (jr_subscription_name r).

Definition jr_with_metadata v (r : JobRow) : JobRow :=
  mkJobRow (jr_id r) (jr_queue r) (jr_task_name r) (jr_payload r) (jr_status r)
    (jr_priority r) (jr_created_at r) (jr_scheduled_at r) (jr_started_at r)
    (jr_completed_at r) (jr_retry_count r) (jr_max_retries r) (jr_result r) (jr_error
    r) (jr_timeout_ms r) (jr_unique_key r) (jr_progress r) v (jr_notes r)
    (jr_cancel_requested r) (jr_expires_at r) (jr_result_ttl_ms r) (jr_namespace r)
    (jr_has_deps r) (jr_debounce_key r) (jr_enqueued_by r) (jr_topic r)
    (jr_subscription_name r).

Definition jr_with_notes v (r : JobRow) : JobRow :=
  mkJobRow (jr_id r) (jr_queue r) (jr_task_name r) (jr_payload r) (jr_status r)
    (jr_priority r) (jr_created_at r) (jr_scheduled_at r) (jr_started_at r)
    (jr_completed_at r) (jr_retry_count r) (jr_max_retries r) (jr_result r) (jr_error
    r) (jr_timeout_ms r) (jr_unique_key r) (jr_progress r) (jr_metadata r) v
    (jr_cancel_requested r) (jr_expires_at r) (jr_result_ttl_ms r) (jr_namespace r)
    (jr_has_deps r) (jr_debounce_key r) (jr_enqueued_by r) (jr_topic r)
    (jr_subscription_name r).

Definition j_with_status v (r : Job) : Job :=
  mkJob (j_id r) (j_queue r) (j_task_name r) (j_payload r) v (j_priority r)
    (j_created_at r) (j_scheduled_at r) (j_started_at r) (j_completed_at r)
    (j_retry_count r) (j_max_retries r) (j_result r) (j_error r) (j_timeout_ms r)
    (j_unique_key r) (j_progress r) (j_metadata r) (j_notes r) (j_cancel_requested r)
    (j_expires_at r) (j_result_ttl_ms r) (j_namespace r) (j_has_deps r) (j_debounce_key
    r) (j_enqueued_by r).

Definition j_with_started_at v (r : Job) : Job :=
  mkJob (j_id r) (j_queue r) (j_task_name r) (j_payload r) (j_status r) (j_priority r)
    (j_created_at r) (j_scheduled_at r) v (j_completed_at r) (j_retry_count r)
    (j_max_retries r) (j_result r) (j_error r) (j_timeout_ms r) (j_unique_key r)
    (j_progress r) (j_metadata r) (j_notes r) (j_cancel_requested r) (j_expires_at r)
    (j_result_ttl_ms r) (j_namespace r) (j_has_deps r) (j_debounce_key r)
    (j_enqueued_by r).

Definition j_with_created_at v (r : Job) : Job :=
  mkJob (j_id r) (j_queue r) (j_task_name r) (j_payload r) (j_status r) (j_priority r)
    v (j_scheduled_at r) (j_started_at r) (j_completed_at r) (j_retry_count r)
    (j_max_retries r) (j_result r) (j_error r) (j_timeout_ms r) (j_unique_key r)
    (j_progress r) (j_metadata r) (j_notes r) (j_cancel_requested r) (j_expires_at r)
    (j_result_ttl_ms r) (j_namespace r) (j_has_deps r) (j_debounce_key r)
    (j_enqueued_by r).

Definition j_with_scheduled_at v (r : Job) : Job :=
  mkJob (j_id r) (j_queue r) (j_task_name r) (j_payload r) (j_status r) (j_priority r)
    (j_created_at r) v (j_started_at r) (j_completed_at r) (j_retry_count r)
    (j_max_retries r) (j_result r) (j_error r) (j_timeout_ms r) (j_unique_key r)
    (j_progress r) (j_metadata r) (j_notes r) (j_cancel_requested r) (j_expires_at r)
    (j_result_ttl_ms r) (j_namespace r) (j_has_deps r) (j_debounce_key r)
    (j_enqueued_by r).

Definition j_with_completed_at v (r : Job) : Job :=
  mkJob (j_id r) (j_queue r) (j_task_name r) (j_payload r) (j_status r) (j_priority r)
    (j_created_at r) (j_scheduled_at r) (j_started_at r) v (j_retry_count r)
    (j_max_retries r) (j_result r) (j_error r) (j_timeout_ms r) (j_unique_key r)
    (j_progress r) (j_metadata r) (j_notes r) (j_cancel_requested r) (j_expires_at r)
    (j_result_ttl_ms r) (j_namespace r) (j_has_deps r) (j_debounce_key r)
    (j_enqueued_by r).

Definition j_with_error v (r : Job) : Job :=
  mkJob (j_id r) (j_queue r) (j_task_name r) (j_payload r) (j_status r) (j_priority r)
    (j_created_at r) (j_scheduled_at r) (j_started_at r) (j_completed_at r)
    (j_retry_count r) (j_max_retries r) (j_result r) v (j_timeout_ms r) (j_unique_key
    r) (j_progress r) (j_metadata r) (j_notes r) (j_cancel_requested r) (j_expires_at
    r) (j_result_ttl_ms r) (j_namespace r) (j_has_deps r) (j_debounce_key r)
    (j_enqueued_by r).

Definition j_with_cancel_requested v (r : Job) : Job :=
  mkJob (j_id r) (j_queue r) (j_task_name r) (j_payload r) (j_status r) (j_priority r)
    (j_created_at r) (j_scheduled_at r) (j_started_at r) (j_completed_at r)
    (j_retry_count r) (j_max_retries r) (j_result r) (j_error r) (j_timeout_ms r)
    (j_unique_key r) (j_progress r) (j_metadata r) (j_notes r) v (j_expires_at r)
    (j_result_ttl_ms r) (j_namespace r) (j_has_deps r) (j_debounce_key r)
    (j_enqueued_by r).

Definition j_with_metadata v (r : Job) : Job :=
  mkJob (j_id r) (j_queue r) (j_task_name r) (j_payload r) (j_status r) (j_priority r)
    (j_created_at r) (j_scheduled_at r) (j_started_at r) (j_completed_at r)
    (j_retry_count r) (j_max_retries r) (j_result r) (j_error r) (j_timeout_ms r)
    (j_unique_key r) (j_progress r) v (j_notes r) (j_cancel_requested r) (j_expires_at
    r) (j_result_ttl_ms r) (j_namespace r) (j_has_deps r) (j_debounce_key r)
    (j_enqueued_by r).

Definition j_with_notes v (r : Job) : Job :=
  mkJob (j_id r) (j_queue r) (j_task_name r) (j_payload r) (j_status r) (j_priority r)
    (j_created_at r) (j_scheduled_at r) (j_started_at r) (j_completed_at r)
    (j_retry_count r) (j_max_retries r) (j_result r) (j_error r) (j_timeout_ms r)
    (j_unique_key r) (j_progress r) (j_metadata r) v (j_cancel_requested r)
    (j_expires_at r) (j_result_ttl_ms r) (j_namespace r) (j_has_deps r) (j_debounce_key
    r) (j_enqueued_by r).

Definition j_with_retry_count v (r : Job) : Job :=
  mkJob (j_id r) (j_queue r) (j_task_name r) (j_payload r) (j_status r) (j_priority r)
    (j_created_at r) (j_scheduled_at r) (j_started_at r) (j_completed_at r) v
    (j_max_retries r) (j_result r) (j_error r) (j_timeout_ms r) (j_unique_key r)
    (j_progress r) (j_metadata r) (j_notes r) (j_cancel_requested r) (j_expires_at r)
    (j_result_ttl_ms r) (j_namespace r) (j_has_deps r) (j_debounce_key r)
    (j_enqueued_by r).

Definition nw_with_status v (r : NarrowJobRow) : NarrowJobRow :=
  mkNarrowJobRow (nw_id r) (nw_queue r) (nw_task_name r) v (nw_priority r)
    (nw_created_at r) (nw_scheduled_at r) (nw_started_at r) (nw_completed_at r)
    (nw_retry_count r) (nw_max_retries r) (nw_error r) (nw_timeout_ms r) (nw_unique_key
    r) (nw_progress r) (nw_metadata r) (nw_notes r) (nw_cancel_requested r)
    (nw_expires_at r) (nw_result_ttl_ms r) (nw_namespace r) (nw_has_deps r)
    (nw_debounce_key r) (nw_enqueued_by r).

(** ** Properties *)

Lemma from_i32_as_int s : from_i32 (as_int s) = Some s.
Proof. by destruct s. Qed.

Lemma from_i32_Some v s : from_i32 v = Some s -> v = as_int s.
Proof.
  unfold from_i32. repeat (case_match; try done; try by intros [= <-]).
Qed.

#[export] Instance as_int_inj : Inj (=) (=) as_int.
Proof. by intros [] []. Qed.

Lemma status_of_as_int s : status_of (as_int s) = s.
Proof. by destruct s. Qed.

Lemma as_str_inj s t : as_str s = as_str t -> s = t.
Proof. by destruct s, t. Qed.

(** A listing assembled from the narrow row is the full job without its blobs. *)
Lemma from_narrow_narrow r :
  from_narrow (narrow r) (jr_payload r) (jr_result r) = job_of_row r.
Proof. done. Qed.

(** What an enqueue stores is what a later read of the row gives back. *)
Lemma stored_job_roundtrip id now nj a :
  job_of_row (inserted_row (new_job_row (into_job_at id now nj) a))
  = into_job_at id now nj.
Proof. done. Qed.

(** Archiving copies every column of the live row; a terminal job reads the same
    from the archive as from its last live row, up to the two columns the archive
    does not have. *)
Lemma job_of_archived_of row :
  job_of_archived (archived_of row)
  = mkJob (jr_id row) (jr_queue row) (jr_task_name row) (jr_payload row)
      (status_of (jr_status row)) (jr_priority row) (jr_created_at row)
      (jr_scheduled_at row) (jr_started_at row) (jr_completed_at row)
      (jr_retry_count row) (jr_max_retries row) (jr_result row) (jr_error row)
      (jr_timeout_ms row) (jr_unique_key row) (jr_progress row) (jr_metadata row)
      (jr_notes row) (negb (jr_cancel_requested row =? 0)) (jr_expires_at row)
      (jr_result_ttl_ms row) (jr_namespace row) false None (jr_enqueued_by row).
Proof. done. Qed.
