(* ===== verification/Db.v ===== *)
(** * The database: tables, the storage monad and its statements

    The tables of [storage/schema.rs] as finite maps from primary keys to rows;
    the world a storage call runs in (the database and a counter that every read
    of an outside source advances); the statements the Diesel code issues; and
    transactions.  Third-party code is a parameter: the UUID generator, the
    clock, the random source, the connection pool and the JSON codec are fields
    of [Env], and the SQL engine's row order and [LIKE] are fields of [Engine]. *)
From S2P Require Import Prelude Job.
From Stdlib Require Export Floats.SpecFloat.

(** Rust's [f64]. *)
Notation f64 := spec_float.

(** ** Rows *)


(** A row of [job_dependencies]. *)
Record JobDependencyRow := mkJobDependencyRow {
  dep_id : string;
  dep_job_id : string;
  dep_depends_on_job_id : string
}.

(** A row of [replay_history]. *)
Record ReplayHistoryRow := mkReplayHistoryRow {
  rh_id : string;
  rh_original_job_id : string;
  rh_replay_job_id : string;
  rh_replayed_at : Z;
  rh_original_result : option bytes;
  rh_replay_result : option bytes;
  rh_original_error : option string;
  rh_replay_error : option string
}.

(** A row of [job_errors]. *)
Record JobErrorRow := mkJobErrorRow {
  je_id : string;
  je_job_id : string;
  je_attempt : Z;
  je_error : string;
  je_failed_at : Z
}.

(** A row of [task_logs]. *)
Record TaskLogRow := mkTaskLogRow {
  tl_id : string;
  tl_job_id : string;
  tl_task_name : string;
  tl_level : string;
  tl_message : string;
  tl_extra : option string;
  tl_logged_at : Z;
  tl_namespace : option string
}.

(** A row of [task_metrics]. *)
Record TaskMetricRow := mkTaskMetricRow {
  tm_id : string;
  tm_task_name : string;
  tm_job_id : string;
  tm_wall_time_ns : Z;
  tm_memory_bytes : Z;
  tm_succeeded : bool;
  tm_recorded_at : Z;
  tm_namespace : option string
}.

(** A row of [execution_claims]. *)
Record ExecutionClaimRow := mkExecutionClaimRow {
  ec_job_id : string;
  ec_worker_id : string;
  ec_claimed_at : Z;
  ec_epoch : option Z;
  ec_settle_deadline_ms : option Z
}.

(** A row of [job_steps]. *)
Record JobStepRow := mkJobStepRow {
  js_id : string;
  js_job_id : string;
  js_namespace : option string;
  js_step_key : string;
  js_seq : Z;
  js_kind : string;
  js_result : option bytes;
  js_result_len : Z;
  js_wake_at : option Z;
  js_created_at : Z
}.

(** A row of [dead_letter]. *)
Record DeadLetterRow := mkDeadLetterRow {
  dl_id : string;
  dl_original_job_id : string;
  dl_queue : string;
  dl_task_name : string;
  dl_payload : bytes;
  dl_error : option string;
  dl_retry_count : Z;
  dl_failed_at : Z;
  dl_metadata : option string;
  dl_notes : option string;
  dl_priority : Z;
  dl_max_retries : Z;
  dl_timeout_ms : Z;
  dl_result_ttl_ms : option Z;
  dl_namespace : option string;
  dl_dlq_retry_count : Z;
  dl_topic : option string;
  dl_subscription_name : option string;
  dl_shed : bool;
  dl_origin_job_id : option string;
  dl_job_metadata : option string;
  dl_enqueued_by : option string
}.

(** A row of [distributed_locks]. *)
Record LockRow := mkLockRow {
  lk_lock_name : string;
  lk_owner_id : string;
  lk_acquired_at : Z;
  lk_expires_at : Z
}.

(** A row of [circuit_breakers]. *)
Record CircuitBreakerRow := mkCircuitBreakerRow {
  cb_task_name : string;
  cb_state : Z;
  cb_failure_count : Z;
  cb_last_failure_at : option Z;
  cb_opened_at : option Z;
  cb_half_open_at : option Z;
  cb_threshold : Z;
  cb_window_ms : Z;
  cb_cooldown_ms : Z;
  cb_half_open_max_probes : Z;
  cb_half_open_success_rate : f64;
  cb_half_open_probe_count : Z;
  cb_half_open_success_count : Z;
  cb_half_open_failure_count : Z
}.

(** A row of [rate_limits]. *)
Record RateLimitRow := mkRateLimitRow {
  rl_key : string;
  rl_tokens : f64;
  rl_max_tokens : f64;
  rl_refill_rate : f64;
  rl_last_refill : Z
}.

(** A row of [queue_state]. *)
Record QueueStateRow := mkQueueStateRow {
  qs_queue_name : string;
  qs_paused : bool;
  qs_paused_at : option Z;
  qs_namespace : option string
}.

(** A row of [periodic_tasks]. *)
Record PeriodicTaskRow := mkPeriodicTaskRow {
  pt_name : string;
  pt_task_name : string;
  pt_cron_expr : string;
  pt_args : option bytes;
  pt_kwargs : option bytes;
  pt_queue : string;
  pt_enabled : bool;
  pt_last_run : option Z;
  pt_next_run : Z;
  pt_timezone : option string;
  pt_namespace : option string
}.

(** A row of [workers]. *)
Record WorkerRow := mkWorkerRow {
  wk_worker_id : string;
  wk_last_heartbeat : Z;
  wk_queues : string;
  wk_status : string;
  wk_tags : option string;
  wk_resources : option string;
  wk_resource_health : option string;
  wk_threads : Z;
  wk_started_at : option Z;
  wk_hostname : option string;
  wk_pid : option Z;
  wk_pool_type : option string;
  wk_sdk : option string;
  wk_sdk_version : option string;
  wk_registry_fingerprint : option string;
  wk_namespace : option string
}.

(** A row of [dashboard_settings]. *)
Record DashboardSettingRow := mkDashboardSettingRow {
  ds_key : string;
  ds_value : string;
  ds_updated_at : Z
}.

(** A row of [topic_subscriptions]. *)
Record SubscriptionRow := mkSubscriptionRow {
  su_topic : string;
  su_subscription_name : string;
  su_task_name : string;
  su_queue : string;
  su_active : bool;
  su_durable : bool;
  su_owner_worker_id : option string;
  su_created_at : Z;
  su_priority : option Z;
  su_max_retries : option Z;
  su_timeout_ms : option Z;
  su_mode : string;
  su_cursor : option string
}.

(** A row of [topic_messages]. *)
Record TopicMessageRow := mkTopicMessageRow {
  tg_id : string;
  tg_topic : string;
  tg_payload : bytes;
  tg_metadata : option string;
  tg_notes : option string;
  tg_created_at : Z;
  tg_expires_at : option Z
}.

(** A row of [topics]. *)
Record TopicRow := mkTopicRow {
  tp_name : string;
  tp_mode : string;
  tp_retention_ms : option Z;
  tp_created_at : Z
}.

(** A row of [topic_deliveries]. *)
Record TopicDeliveryRow := mkTopicDeliveryRow {
  td_topic : string;
  td_subscription_name : string;
  td_message_id : string;
  td_acked : bool;
  td_attempts : Z;
  td_lease_expires_at : Z;
  td_delivered_at : Z
}.

(** A row of [audit_log]. *)
Record AuditRow := mkAuditRow {
  au_id : string;
  au_namespace : string;
  au_at_ms : Z;
  au_token_id : string;
  au_principal : string;
  au_operation : string;
  au_target_kind : option string;
  au_target : option string;
  au_outcome : string;
  au_principal_kind : string;
  au_access : string
}.

Definition ec_with_settle_deadline_ms v (r : ExecutionClaimRow) : ExecutionClaimRow :=
  mkExecutionClaimRow (ec_job_id r) (ec_worker_id r) (ec_claimed_at r) (ec_epoch r) v.

Definition lk_with_expires_at v (r : LockRow) : LockRow :=
  mkLockRow (lk_lock_name r) (lk_owner_id r) (lk_acquired_at r) v.

Definition wk_with_last_heartbeat v (r : WorkerRow) : WorkerRow :=
  mkWorkerRow (wk_worker_id r) v (wk_queues r) (wk_status r) (wk_tags r) (wk_resources
    r) (wk_resource_health r) (wk_threads r) (wk_started_at r) (wk_hostname r) (wk_pid
    r) (wk_pool_type r) (wk_sdk r) (wk_sdk_version r) (wk_registry_fingerprint r)
    (wk_namespace r).

Definition wk_with_status v (r : WorkerRow) : WorkerRow :=
  mkWorkerRow (wk_worker_id r) (wk_last_heartbeat r) (wk_queues r) v (wk_tags r)
    (wk_resources r) (wk_resource_health r) (wk_threads r) (wk_started_at r)
    (wk_hostname r) (wk_pid r) (wk_pool_type r) (wk_sdk r) (wk_sdk_version r)
    (wk_registry_fingerprint r) (wk_namespace r).

Definition wk_with_resource_health v (r : WorkerRow) : WorkerRow :=
  mkWorkerRow (wk_worker_id r) (wk_last_heartbeat r) (wk_queues r) (wk_status r)
    (wk_tags r) (wk_resources r) v (wk_threads r) (wk_started_at r) (wk_hostname r)
    (wk_pid r) (wk_pool_type r) (wk_sdk r) (wk_sdk_version r) (wk_registry_fingerprint
    r) (wk_namespace r).

Definition su_with_active v (r : SubscriptionRow) : SubscriptionRow :=
  mkSubscriptionRow (su_topic r) (su_subscription_name r) (su_task_name r) (su_queue r)
    v (su_durable r) (su_owner_worker_id r) (su_created_at r) (su_priority r)
    (su_max_retries r) (su_timeout_ms r) (su_mode r) (su_cursor r).

Definition su_with_cursor v (r : SubscriptionRow) : SubscriptionRow :=
  mkSubscriptionRow (su_topic r) (su_subscription_name r) (su_task_name r) (su_queue r)
    (su_active r) (su_durable r) (su_owner_worker_id r) (su_created_at r) (su_priority
    r) (su_max_retries r) (su_timeout_ms r) (su_mode r) v.

Definition td_with_acked v (r : TopicDeliveryRow) : TopicDeliveryRow :=
  mkTopicDeliveryRow (td_topic r) (td_subscription_name r) (td_message_id r) v
    (td_attempts r) (td_lease_expires_at r) (td_delivered_at r).

Definition td_with_lease_expires_at v (r : TopicDeliveryRow) : TopicDeliveryRow :=
  mkTopicDeliveryRow (td_topic r) (td_subscription_name r) (td_message_id r) (td_acked
    r) (td_attempts r) v (td_delivered_at r).

Definition qs_with_paused v (r : QueueStateRow) : QueueStateRow :=
  mkQueueStateRow (qs_queue_name r) v (qs_paused_at r) (qs_namespace r).

Definition qs_with_paused_at v (r : QueueStateRow) : QueueStateRow :=
  mkQueueStateRow (qs_queue_name r) (qs_paused r) v (qs_namespace r).

Definition pt_with_enabled v (r : PeriodicTaskRow) : PeriodicTaskRow :=
  mkPeriodicTaskRow (pt_name r) (pt_task_name r) (pt_cron_expr r) (pt_args r)
    (pt_kwargs r) (pt_queue r) v (pt_last_run r) (pt_next_run r) (pt_timezone r)
    (pt_namespace r).

Definition pt_with_last_run v (r : PeriodicTaskRow) : PeriodicTaskRow :=
  mkPeriodicTaskRow (pt_name r) (pt_task_name r) (pt_cron_expr r) (pt_args r)
    (pt_kwargs r) (pt_queue r) (pt_enabled r) v (pt_next_run r) (pt_timezone r)
    (pt_namespace r).

Definition pt_with_next_run v (r : PeriodicTaskRow) : PeriodicTaskRow :=
  mkPeriodicTaskRow (pt_name r) (pt_task_name r) (pt_cron_expr r) (pt_args r)
    (pt_kwargs r) (pt_queue r) (pt_enabled r) (pt_last_run r) v (pt_timezone r)
    (pt_namespace r).

(** The database. *)
Record DB := mkDB {
  db_jobs : gmap string JobRow;
  db_archived_jobs : gmap string ArchivedJobRow;
  db_job_dependencies : gmap string JobDependencyRow;
  db_replay_history : gmap string ReplayHistoryRow;
  db_job_errors : gmap string JobErrorRow;
  db_task_logs : gmap string TaskLogRow;
  db_task_metrics : gmap string TaskMetricRow;
  db_execution_claims : gmap string ExecutionClaimRow;
  db_job_steps : gmap string JobStepRow;
  db_dead_letter : gmap string DeadLetterRow;
  db_distributed_locks : gmap string LockRow;
  db_circuit_breakers : gmap string CircuitBreakerRow;
  db_rate_limits : gmap string RateLimitRow;
  db_queue_state : gmap (option string * string) QueueStateRow;
  db_periodic_tasks : gmap (option string * string) PeriodicTaskRow;
  db_workers : gmap string WorkerRow;
  db_dashboard_settings : gmap string DashboardSettingRow;
  db_topic_subscriptions : gmap (string * string) SubscriptionRow;
  db_topic_messages : gmap string TopicMessageRow;
  db_topics : gmap string TopicRow;
  db_topic_deliveries : gmap (string * string * string) TopicDeliveryRow;
  db_audit_log : gmap string AuditRow
}.

Definition empty_db : DB :=
  mkDB ∅ ∅ ∅ ∅ ∅ ∅ ∅ ∅ ∅ ∅ ∅ ∅ ∅ ∅ ∅ ∅ ∅ ∅ ∅ ∅ ∅ ∅.

Definition set_jobs v (d : DB) : DB :=
  mkDB v (db_archived_jobs d) (db_job_dependencies d) (db_replay_history d)
    (db_job_errors d) (db_task_logs d) (db_task_metrics d) (db_execution_claims d)
    (db_job_steps d) (db_dead_letter d) (db_distributed_locks d) (db_circuit_breakers
    d) (db_rate_limits d) (db_queue_state d) (db_periodic_tasks d) (db_workers d)
    (db_dashboard_settings d) (db_topic_subscriptions d) (db_topic_messages d)
    (db_topics d) (db_topic_deliveries d) (db_audit_log d).
Definition set_archived_jobs v (d : DB) : DB :=
  mkDB (db_jobs d) v (db_job_dependencies d) (db_replay_history d) (db_job_errors d)
    (db_task_logs d) (db_task_metrics d) (db_execution_claims d) (db_job_steps d)
    (db_dead_letter d) (db_distributed_locks d) (db_circuit_breakers d) (db_rate_limits
    d) (db_queue_state d) (db_periodic_tasks d) (db_workers d) (db_dashboard_settings
    d) (db_topic_subscriptions d) (db_topic_messages d) (db_topics d)
    (db_topic_deliveries d) (db_audit_log d).
Definition set_job_dependencies v (d : DB) : DB :=
  mkDB (db_jobs d) (db_archived_jobs d) v (db_replay_history d) (db_job_errors d)
    (db_task_logs d) (db_task_metrics d) (db_execution_claims d) (db_job_steps d)
    (db_dead_letter d) (db_distributed_locks d) (db_circuit_breakers d) (db_rate_limits
    d) (db_queue_state d) (db_periodic_tasks d) (db_workers d) (db_dashboard_settings
    d) (db_topic_subscriptions d) (db_topic_messages d) (db_topics d)
    (db_topic_deliveries d) (db_audit_log d).
Definition set_replay_history v (d : DB) : DB :=
  mkDB (db_jobs d) (db_archived_jobs d) (db_job_dependencies d) v (db_job_errors d)
    (db_task_logs d) (db_task_metrics d) (db_execution_claims d) (db_job_steps d)
    (db_dead_letter d) (db_distributed_locks d) (db_circuit_breakers d) (db_rate_limits
    d) (db_queue_state d) (db_periodic_tasks d) (db_workers d) (db_dashboard_settings
    d) (db_topic_subscriptions d) (db_topic_messages d) (db_topics d)
    (db_topic_deliveries d) (db_audit_log d).
Definition set_job_errors v (d : DB) : DB :=
  mkDB (db_jobs d) (db_archived_jobs d) (db_job_dependencies d) (db_replay_history d) v
    (db_task_logs d) (db_task_metrics d) (db_execution_claims d) (db_job_steps d)
    (db_dead_letter d) (db_distributed_locks d) (db_circuit_breakers d) (db_rate_limits
    d) (db_queue_state d) (db_periodic_tasks d) (db_workers d) (db_dashboard_settings
    d) (db_topic_subscriptions d) (db_topic_messages d) (db_topics d)
    (db_topic_deliveries d) (db_audit_log d).
Definition set_task_logs v (d : DB) : DB :=
  mkDB (db_jobs d) (db_archived_jobs d) (db_job_dependencies d) (db_replay_history d)
    (db_job_errors d) v (db_task_metrics d) (db_execution_claims d) (db_job_steps d)
    (db_dead_letter d) (db_distributed_locks d) (db_circuit_breakers d) (db_rate_limits
    d) (db_queue_state d) (db_periodic_tasks d) (db_workers d) (db_dashboard_settings
    d) (db_topic_subscriptions d) (db_topic_messages d) (db_topics d)
    (db_topic_deliveries d) (db_audit_log d).
Definition set_task_metrics v (d : DB) : DB :=
  mkDB (db_jobs d) (db_archived_jobs d) (db_job_dependencies d) (db_replay_history d)
    (db_job_errors d) (db_task_logs d) v (db_execution_claims d) (db_job_steps d)
    (db_dead_letter d) (db_distributed_locks d) (db_circuit_breakers d) (db_rate_limits
    d) (db_queue_state d) (db_periodic_tasks d) (db_workers d) (db_dashboard_settings
    d) (db_topic_subscriptions d) (db_topic_messages d) (db_topics d)
    (db_topic_deliveries d) (db_audit_log d).
Definition set_execution_claims v (d : DB) : DB :=
  mkDB (db_jobs d) (db_archived_jobs d) (db_job_dependencies d) (db_replay_history d)
    (db_job_errors d) (db_task_logs d) (db_task_metrics d) v (db_job_steps d)
    (db_dead_letter d) (db_distributed_locks d) (db_circuit_breakers d) (db_rate_limits
    d) (db_queue_state d) (db_periodic_tasks d) (db_workers d) (db_dashboard_settings
    d) (db_topic_subscriptions d) (db_topic_messages d) (db_topics d)
    (db_topic_deliveries d) (db_audit_log d).
Definition set_job_steps v (d : DB) : DB :=
  mkDB (db_jobs d) (db_archived_jobs d) (db_job_dependencies d) (db_replay_history d)
    (db_job_errors d) (db_task_logs d) (db_task_metrics d) (db_execution_claims d) v
    (db_dead_letter d) (db_distributed_locks d) (db_circuit_breakers d) (db_rate_limits
    d) (db_queue_state d) (db_periodic_tasks d) (db_workers d) (db_dashboard_settings
    d) (db_topic_subscriptions d) (db_topic_messages d) (db_topics d)
    (db_topic_deliveries d) (db_audit_log d).
Definition set_dead_letter v (d : DB) : DB :=
  mkDB (db_jobs d) (db_archived_jobs d) (db_job_dependencies d) (db_replay_history d)
    (db_job_errors d) (db_task_logs d) (db_task_metrics d) (db_execution_claims d)
    (db_job_steps d) v (db_distributed_locks d) (db_circuit_breakers d) (db_rate_limits
    d) (db_queue_state d) (db_periodic_tasks d) (db_workers d) (db_dashboard_settings
    d) (db_topic_subscriptions d) (db_topic_messages d) (db_topics d)
    (db_topic_deliveries d) (db_audit_log d).
Definition set_distributed_locks v (d : DB) : DB :=
  mkDB (db_jobs d) (db_archived_jobs d) (db_job_dependencies d) (db_replay_history d)
    (db_job_errors d) (db_task_logs d) (db_task_metrics d) (db_execution_claims d)
    (db_job_steps d) (db_dead_letter d) v (db_circuit_breakers d) (db_rate_limits d)
    (db_queue_state d) (db_periodic_tasks d) (db_workers d) (db_dashboard_settings d)
    (db_topic_subscriptions d) (db_topic_messages d) (db_topics d) (db_topic_deliveries
    d) (db_audit_log d).
Definition set_circuit_breakers v (d : DB) : DB :=
  mkDB (db_jobs d) (db_archived_jobs d) (db_job_dependencies d) (db_replay_history d)
    (db_job_errors d) (db_task_logs d) (db_task_metrics d) (db_execution_claims d)
    (db_job_steps d) (db_dead_letter d) (db_distributed_locks d) v (db_rate_limits d)
    (db_queue_state d) (db_periodic_tasks d) (db_workers d) (db_dashboard_settings d)
    (db_topic_subscriptions d) (db_topic_messages d) (db_topics d) (db_topic_deliveries
    d) (db_audit_log d).
Definition set_rate_limits v (d : DB) : DB :=
  mkDB (db_jobs d) (db_archived_jobs d) (db_job_dependencies d) (db_replay_history d)
    (db_job_errors d) (db_task_logs d) (db_task_metrics d) (db_execution_claims d)
    (db_job_steps d) (db_dead_letter d) (db_distributed_locks d) (db_circuit_breakers
    d) v (db_queue_state d) (db_periodic_tasks d) (db_workers d) (db_dashboard_settings
    d) (db_topic_subscriptions d) (db_topic_messages d) (db_topics d)
    (db_topic_deliveries d) (db_audit_log d).
Definition set_queue_state v (d : DB) : DB :=
  mkDB (db_jobs d) (db_archived_jobs d) (db_job_dependencies d) (db_replay_history d)
    (db_job_errors d) (db_task_logs d) (db_task_metrics d) (db_execution_claims d)
    (db_job_steps d) (db_dead_letter d) (db_distributed_locks d) (db_circuit_breakers
    d) (db_rate_limits d) v (db_periodic_tasks d) (db_workers d) (db_dashboard_settings
    d) (db_topic_subscriptions d) (db_topic_messages d) (db_topics d)
    (db_topic_deliveries d) (db_audit_log d).
Definition set_periodic_tasks v (d : DB) : DB :=
  mkDB (db_jobs d) (db_archived_jobs d) (db_job_dependencies d) (db_replay_history d)
    (db_job_errors d) (db_task_logs d) (db_task_metrics d) (db_execution_claims d)
    (db_job_steps d) (db_dead_letter d) (db_distributed_locks d) (db_circuit_breakers
    d) (db_rate_limits d) (db_queue_state d) v (db_workers d) (db_dashboard_settings d)
    (db_topic_subscriptions d) (db_topic_messages d) (db_topics d) (db_topic_deliveries
    d) (db_audit_log d).
Definition set_workers v (d : DB) : DB :=
  mkDB (db_jobs d) (db_archived_jobs d) (db_job_dependencies d) (db_replay_history d)
    (db_job_errors d) (db_task_logs d) (db_task_metrics d) (db_execution_claims d)
    (db_job_steps d) (db_dead_letter d) (db_distributed_locks d) (db_circuit_breakers
    d) (db_rate_limits d) (db_queue_state d) (db_periodic_tasks d) v
    (db_dashboard_settings d) (db_topic_subscriptions d) (db_topic_messages d)
    (db_topics d) (db_topic_deliveries d) (db_audit_log d).
Definition set_dashboard_settings v (d : DB) : DB :=
  mkDB (db_jobs d) (db_archived_jobs d) (db_job_dependencies d) (db_replay_history d)
    (db_job_errors d) (db_task_logs d) (db_task_metrics d) (db_execution_claims d)
    (db_job_steps d) (db_dead_letter d) (db_distributed_locks d) (db_circuit_breakers
    d) (db_rate_limits d) (db_queue_state d) (db_periodic_tasks d) (db_workers d) v
    (db_topic_subscriptions d) (db_topic_messages d) (db_topics d) (db_topic_deliveries
    d) (db_audit_log d).
Definition set_topic_subscriptions v (d : DB) : DB :=
  mkDB (db_jobs d) (db_archived_jobs d) (db_job_dependencies d) (db_replay_history d)
    (db_job_errors d) (db_task_logs d) (db_task_metrics d) (db_execution_claims d)
    (db_job_steps d) (db_dead_letter d) (db_distributed_locks d) (db_circuit_breakers
    d) (db_rate_limits d) (db_queue_state d) (db_periodic_tasks d) (db_workers d)
    (db_dashboard_settings d) v (db_topic_messages d) (db_topics d)
    (db_topic_deliveries d) (db_audit_log d).
Definition set_topic_messages v (d : DB) : DB :=
  mkDB (db_jobs d) (db_archived_jobs d) (db_job_dependencies d) (db_replay_history d)
    (db_job_errors d) (db_task_logs d) (db_task_metrics d) (db_execution_claims d)
    (db_job_steps d) (db_dead_letter d) (db_distributed_locks d) (db_circuit_breakers
    d) (db_rate_limits d) (db_queue_state d) (db_periodic_tasks d) (db_workers d)
    (db_dashboard_settings d) (db_topic_subscriptions d) v (db_topics d)
    (db_topic_deliveries d) (db_audit_log d).
Definition set_topics v (d : DB) : DB :=
  mkDB (db_jobs d) (db_archived_jobs d) (db_job_dependencies d) (db_replay_history d)
    (db_job_errors d) (db_task_logs d) (db_task_metrics d) (db_execution_claims d)
    (db_job_steps d) (db_dead_letter d) (db_distributed_locks d) (db_circuit_breakers
    d) (db_rate_limits d) (db_queue_state d) (db_periodic_tasks d) (db_workers d)
    (db_dashboard_settings d) (db_topic_subscriptions d) (db_topic_messages d) v
    (db_topic_deliveries d) (db_audit_log d).
Definition set_topic_deliveries v (d : DB) : DB :=
  mkDB (db_jobs d) (db_archived_jobs d) (db_job_dependencies d) (db_replay_history d)
    (db_job_errors d) (db_task_logs d) (db_task_metrics d) (db_execution_claims d)
    (db_job_steps d) (db_dead_letter d) (db_distributed_locks d) (db_circuit_breakers
    d) (db_rate_limits d) (db_queue_state d) (db_periodic_tasks d) (db_workers d)
    (db_dashboard_settings d) (db_topic_subscriptions d) (db_topic_messages d)
    (db_topics d) v (db_audit_log d).
Definition set_audit_log v (d : DB) : DB :=
  mkDB (db_jobs d) (db_archived_jobs d) (db_job_dependencies d) (db_replay_history d)
    (db_job_errors d) (db_task_logs d) (db_task_metrics d) (db_execution_claims d)
    (db_job_steps d) (db_dead_letter d) (db_distributed_locks d) (db_circuit_breakers
    d) (db_rate_limits d) (db_queue_state d) (db_periodic_tasks d) (db_workers d)
    (db_dashboard_settings d) (db_topic_subscriptions d) (db_topic_messages d)
    (db_topics d) (db_topic_deliveries d) v.

(** Computes the fields of a database built from setters. *)
Ltac db_simpl :=
  cbv beta iota zeta delta [db_jobs db_archived_jobs db_job_dependencies
    db_replay_history db_job_errors db_task_logs db_task_metrics db_execution_claims
    db_job_steps db_dead_letter db_distributed_locks db_circuit_breakers db_rate_limits
    db_queue_state db_periodic_tasks db_workers db_dashboard_settings
    db_topic_subscriptions db_topic_messages db_topics db_topic_deliveries db_audit_log
    set_jobs set_archived_jobs set_job_dependencies set_replay_history set_job_errors
    set_task_logs set_task_metrics set_execution_claims set_job_steps set_dead_letter
    set_distributed_locks set_circuit_breakers set_rate_limits set_queue_state
    set_periodic_tasks set_workers set_dashboard_settings set_topic_subscriptions
    set_topic_messages set_topics set_topic_deliveries set_audit_log].

(** ** Tables

    A table is its map and the secondary unique indexes an [INSERT] enforces:
    [t_conflict r r'] holds when [r] may not be stored beside [r']. *)
Record Table (K R : Type) `{Countable K} := mkTable {
  t_get : DB -> gmap K R;
  t_set : gmap K R -> DB -> DB;
  t_conflict : R -> R -> bool
}.
Arguments mkTable {K R _ _} t_get t_set t_conflict.
Arguments t_get {K R _ _} t d : rename.
Arguments t_set {K R _ _} t m d : rename.
Arguments t_conflict {K R _ _} t r r' : rename.

(** [status IN (0, 1)] *)
Definition is_active (status : Z) : bool :=
  (status =? as_int Pending) || (status =? as_int Running).

(** The key of [idx_jobs_unique_key], which is partial: only active rows with a
    [unique_key] have one. *)
Definition unique_slot (r : JobRow) : option (option string * string) :=
  if is_active (jr_status r)
  then (fun k => (jr_namespace r, k)) <$> jr_unique_key r
  else None.

Definition slot_conflict (r r' : JobRow) : bool :=
  match unique_slot r with
  | None => false
  | Some s => bool_decide (unique_slot r' = Some s)
  end.

(** The two unique indexes of [job_steps]. *)
Definition step_conflict (s s' : JobStepRow) : bool :=
  bool_decide (js_job_id s = js_job_id s') &&
  ((js_seq s =? js_seq s') || bool_decide (js_step_key s = js_step_key s')).


Definition jobs : Table string JobRow := mkTable db_jobs set_jobs slot_conflict.
Definition archived_jobs : Table string ArchivedJobRow := mkTable db_archived_jobs
  set_archived_jobs (fun _ _ => false).
Definition job_dependencies : Table string JobDependencyRow := mkTable
  db_job_dependencies set_job_dependencies (fun _ _ => false).
Definition replay_history : Table string ReplayHistoryRow := mkTable db_replay_history
  set_replay_history (fun _ _ => false).
Definition job_errors : Table string JobErrorRow := mkTable db_job_errors
  set_job_errors (fun _ _ => false).
Definition task_logs : Table string TaskLogRow := mkTable db_task_logs set_task_logs
  (fun _ _ => false).
Definition task_metrics : Table string TaskMetricRow := mkTable db_task_metrics
  set_task_metrics (fun _ _ => false).
Definition execution_claims : Table string ExecutionClaimRow := mkTable
  db_execution_claims set_execution_claims (fun _ _ => false).
Definition job_steps : Table string JobStepRow := mkTable db_job_steps set_job_steps
  step_conflict.
Definition dead_letter : Table string DeadLetterRow := mkTable db_dead_letter
  set_dead_letter (fun _ _ => false).
Definition distributed_locks : Table string LockRow := mkTable db_distributed_locks
  set_distributed_locks (fun _ _ => false).
Definition circuit_breakers : Table string CircuitBreakerRow := mkTable
  db_circuit_breakers set_circuit_breakers (fun _ _ => false).
Definition rate_limits : Table string RateLimitRow := mkTable db_rate_limits
  set_rate_limits (fun _ _ => false).
Definition queue_state : Table (option string * string) QueueStateRow := mkTable
  db_queue_state set_queue_state (fun _ _ => false).
Definition periodic_tasks : Table (option string * string) PeriodicTaskRow := mkTable
  db_periodic_tasks set_periodic_tasks (fun _ _ => false).
Definition workers : Table string WorkerRow := mkTable db_workers set_workers (fun _ _
  => false).
Definition dashboard_settings : Table string DashboardSettingRow := mkTable
  db_dashboard_settings set_dashboard_settings (fun _ _ => false).
Definition topic_subscriptions : Table (string * string) SubscriptionRow := mkTable
  db_topic_subscriptions set_topic_subscriptions (fun _ _ => false).
Definition topic_messages : Table string TopicMessageRow := mkTable db_topic_messages
  set_topic_messages (fun _ _ => false).
Definition topics : Table string TopicRow := mkTable db_topics set_topics (fun _ _ =>
  false).
Definition topic_deliveries : Table (string * string * string) TopicDeliveryRow :=
  mkTable db_topic_deliveries set_topic_deliveries (fun _ _ => false).
Definition audit_log : Table string AuditRow := mkTable db_audit_log set_audit_log (fun
  _ _ => false).

(** ** The world *)

Record World := mkWorld { db : DB; tick : nat }.

Notation DbM := (M World QueueError).

(** [serde_json::Value], with an object as its list of members. *)
Inductive JsonValue :=
  | JNull
  | JBool (b : bool)
  | JInt (n : Z)
  | JFloat (x : f64)
  | JString (s : string)
  | JArray (l : list JsonValue)
  | JObject (l : list (string * JsonValue)).

(** What the storage code takes from outside the repository.  Each read of one
    of the sources is indexed by the world's counter. *)
Class Env := {
  uuid_v7 : nat -> string;
  system_ms : nat -> Z;
  random_u64 : nat -> Z;
  pool_ready : nat -> bool;
  json_object : string -> option (gmap string JsonValue);
  json_to_string : gmap string JsonValue -> string
}.

(** UUIDs do not repeat. *)
Class UuidFresh (E : Env) : Prop :=
  uuid_v7_inj : forall m n, uuid_v7 m = uuid_v7 n -> m = n.

(** The order in which the SQL engine hands out rows when a query does not fix
    one, and its [LIKE]. *)
Class Engine := {
  scan : forall {K A} `{Countable K}, gmap K A -> list A;
  sql_like : string -> string -> bool
}.

(** A scan returns every row of the table once. *)
Class ScanComplete (G : Engine) : Prop :=
  scan_perm : forall K A `{Countable K} (m : gmap K A), scan m ≡ₚ (map_to_list m).*2.

(** Read an outside source. *)
Definition draw {A} (f : nat -> A) : DbM A :=
  fun w => (Ok (f (tick w)), mkWorld (db w) (S (tick w))).

Section statements.
Context {E : Env} {G : Engine}.

(** [Uuid::now_v7().to_string()] *)
Definition now_v7 : DbM string := draw uuid_v7.

(** [now_millis]: a clock before the epoch reads zero. *)
Definition now_millis : DbM Z :=
  draw (fun n => Z.min (Z.max 0 (system_ms n)) i64_max).

(** [self.conn()?] *)
Definition conn : DbM unit :=
  ok ← draw pool_ready;
  if (ok : bool) then mret tt else throw Pool.

(** [immediate_transaction]: an error rolls the database back; what was read from
    the outside stays read. *)
Definition transaction {A} (body : DbM A) : DbM A :=
  fun w =>
    match body w with
    | (Ok a, w') => (Ok a, w')
    | (Err e, w') => (Err e, mkWorld (db w) (Nat.max (tick w) (tick w')))
    end.

Definition write_transaction {A} (f : DbM A) : DbM A :=
  conn ;; transaction f.

(** [r.map_err(f)] *)
Definition map_err {A} (f : QueueError -> QueueError) (m : DbM A) : DbM A :=
  fun w => match m w with
           | (Ok a, w') => (Ok a, w')
           | (Err e, w') => (Err (f e), w')
           end.

(** The rows a [DELETE ... WHERE p] leaves. *)
Definition keep_where {K R} `{Countable K} (p : R -> bool) (m : gmap K R) : gmap K R :=
  filter (fun kr => Is_true (negb (p (snd kr)))) m.

(** *** Statements on one table *)

Section table.
Context {K R : Type} `{Countable K} (t : Table K R).

(** [INSERT]: refused by the primary key or a unique index. *)
Definition sql_insert (k : K) (r : R) : DbM unit :=
  fun w =>
    let m := t_get t (db w) in
    if bool_decide (is_Some (m !! k)) || existsb (t_conflict t r) (map_to_list m).*2
    then (Err (Storage UniqueViolation), w)
    else (Ok tt, mkWorld (t_set t (<[k := r]> m) (db w)) (tick w)).

(** [INSERT ... ON CONFLICT (pk) DO UPDATE], all columns. *)
Definition sql_replace (k : K) (r : R) : DbM unit :=
  modify (fun w => mkWorld (t_set t (<[k := r]> (t_get t (db w))) (db w)) (tick w)).

(** [INSERT ... ON CONFLICT (pk) DO UPDATE SET ...] *)
Definition sql_upsert (k : K) (r : R) (f : R -> R) : DbM unit :=
  modify (fun w =>
    let m := t_get t (db w) in
    mkWorld (t_set t (<[k := from_option f r (m !! k)]> m) (db w)) (tick w)).

(** [INSERT ... ON CONFLICT DO NOTHING], returning the rows written. *)
Definition sql_insert_ignore (k : K) (r : R) : DbM Z :=
  fun w =>
    let m := t_get t (db w) in
    if bool_decide (is_Some (m !! k)) || existsb (t_conflict t r) (map_to_list m).*2
    then (Ok 0, w)
    else (Ok 1, mkWorld (t_set t (<[k := r]> m) (db w)) (tick w)).

(** [SELECT ... WHERE pk = k] *)
Definition sql_find (k : K) : DbM (option R) :=
  gets (fun w => t_get t (db w) !! k).

(** [SELECT ... WHERE p], in the engine's order. *)
Definition sql_select (p : R -> bool) : DbM (list R) :=
  gets (fun w => filter (fun r => Is_true (p r)) (scan (t_get t (db w)))).

(** [SELECT COUNT( * ) WHERE p] *)
Definition sql_count (p : R -> bool) : DbM Z :=
  l ← sql_select p; mret (count l).

(** [UPDATE ... WHERE pk = k AND p], returning the rows affected. *)
Definition sql_update (k : K) (p : R -> bool) (f : R -> R) : DbM Z :=
  fun w =>
    match t_get t (db w) !! k with
    | Some r =>
        if p r
        then (Ok 1, mkWorld (t_set t (<[k := f r]> (t_get t (db w))) (db w)) (tick w))
        else (Ok 0, w)
    | None => (Ok 0, w)
    end.

(** [DELETE ... WHERE p], returning the rows affected. *)
Definition sql_delete (p : R -> bool) : DbM Z :=
  fun w =>
    let m := t_get t (db w) in
    let keep := filter (fun kr => Is_true (negb (p (snd kr)))) m in
    (Ok (Z.of_nat (size m) - Z.of_nat (size keep)),
     mkWorld (t_set t keep (db w)) (tick w)).

(** [DELETE ... WHERE pk = k] *)
Definition sql_delete_pk (k : K) : DbM Z :=
  fun w =>
    let m := t_get t (db w) in
    (Ok (if bool_decide (is_Some (m !! k)) then 1 else 0),
     mkWorld (t_set t (delete k m) (db w)) (tick w)).
End table.

(** [NewJob::into_job] *)
Definition into_job (nj : NewJob) : DbM Job :=
  now ← now_millis;
  id ← now_v7;
  mret (into_job_at id now nj).

End statements.

(** ** Rules for the statements *)

(** Predicates on worlds that survive reads of the outside. *)
Class TickMono (I : World -> Prop) : Prop :=
  tick_mono : forall d n n', (n <= n')%nat -> I (mkWorld d n) -> I (mkWorld d n').

(** A predicate on the database alone. *)
Definition on_db (P : DB -> Prop) : World -> Prop := fun w => P (db w).

#[export] Instance on_db_mono P : TickMono (on_db P).
Proof. by intros d n n'. Qed.

(** [keeps_ok I m]: a successful run of [m] keeps [I]; a failed one may leave
    anything, since an enclosing transaction will undo it. *)
Definition keeps_ok {A} (I : World -> Prop) (m : DbM A) : Prop :=
  forall w, I w -> wp m (fun _ => I) (fun _ _ => True) w.

Section rules.
Context {E : Env} {G : Engine} (I : World -> Prop).

Lemma keeps_keeps_ok {A} (m : DbM A) : keeps I m -> keeps_ok I m.
Proof.
  intros Hm w Hw. specialize (Hm w Hw). unfold wp. destruct (m w) as [[a|e] w']; done.
Qed.

Lemma keeps_ok_bind {A B} (m : DbM A) (k : A -> DbM B) :
  keeps_ok I m -> (forall a, keeps_ok I (k a)) -> keeps_ok I (m ≫= k).
Proof.
  intros Hm Hk w Hw. apply wp_bind. eapply wp_mono; [by apply Hm| |done].
  intros a w' Hw'. by apply Hk.
Qed.

Lemma keeps_ok_throw {A} e : keeps_ok (A:=A) I (throw e).
Proof. done. Qed.

Lemma keeps_ok_for_each {A} (f : A -> DbM unit) l :
  (forall x, x ∈ l -> keeps_ok I (f x)) -> keeps_ok I (for_each f l).
Proof.
  induction l as [|x l IH]; intros Hf; simpl; [by intros w|].
  apply keeps_ok_bind; [apply Hf; left|]. intros _. apply IH.
  intros y Hy. apply Hf. by right.
Qed.

Context `{!TickMono I}.

Lemma keeps_draw {A} (f : nat -> A) : keeps I (draw f).
Proof. intros [d n] Hw. simpl. eapply tick_mono; [|done]. lia. Qed.

Lemma keeps_now_millis : keeps I now_millis.
Proof. apply keeps_draw. Qed.

Lemma keeps_now_v7 : keeps I now_v7.
Proof. apply keeps_draw. Qed.

Lemma keeps_conn : keeps I conn.
Proof.
  apply keeps_bind; [apply keeps_draw|]. intros []; [apply keeps_ret|apply keeps_throw].
Qed.

Lemma keeps_into_job nj : keeps I (into_job nj).
Proof.
  apply keeps_bind; [apply keeps_draw|]. intros now.
  apply keeps_bind; [apply keeps_draw|]. intros id. apply keeps_ret.
Qed.

Lemma keeps_transaction {A} (m : DbM A) : keeps_ok I m -> keeps I (transaction m).
Proof.
  intros Hm [d n] Hw. specialize (Hm _ Hw). unfold wp in Hm. unfold transaction.
  destruct (m (mkWorld d n)) as [[a|e] [d' n']]; simpl; [done|].
  eapply tick_mono; [|done]. lia.
Qed.

Lemma keeps_write_transaction {A} (m : DbM A) :
  keeps_ok I m -> keeps I (write_transaction m).
Proof.
  intros Hm. apply keeps_bind; [apply keeps_conn|]. intros _. by apply
    keeps_transaction.
Qed.

Lemma keeps_map_err {A} f (m : DbM A) : keeps I m -> keeps I (map_err f m).
Proof.
  intros Hm w Hw. specialize (Hm w Hw). unfold map_err.
  destruct (m w) as [[a|e] w']; done.
Qed.
End rules.

#[export] Hint Resolve keeps_draw keeps_now_millis keeps_now_v7 keeps_conn
  keeps_into_job keeps_keeps_ok keeps_ok_throw : keeps.
#[export] Hint Extern 0 (TickMono _) => apply _ : keeps.

(** Walks a computation and leaves the statements that need a reason. *)
Ltac solve_keeps :=
  repeat first
    [ solve [eauto with keeps]
    | apply keeps_write_transaction; [apply _|]
    | apply keeps_transaction; [apply _|]
    | apply keeps_map_err
    | apply keeps_keeps_ok
    | apply keeps_bind; [|intros ?]
    | apply keeps_attempt
    | apply keeps_for_each; intros ? ?
    | apply keeps_mapM; intros ? ?
    | apply keeps_foldM; intros ? ? ?
    | case_match ];
  eauto with keeps.

(** A failed transaction leaves the database as it found it. *)
Lemma transaction_err {A} (m : DbM A) w e w' :
  transaction m w = (Err e, w') -> db w' = db w.
Proof.
  unfold transaction. destruct (m w) as [[a|e'] w'']; [done|]. by intros [= <- <-].
Qed.

Lemma write_transaction_err {E : Env} {A} (m : DbM A) w e w' :
  write_transaction m w = (Err e, w') -> db w' = db w.
Proof.
  unfold write_transaction, conn, draw, mbind, M_bind, mret, M_ret, throw. simpl.
  destruct (pool_ready (tick w)).
  - intros H%transaction_err. by rewrite H.
  - by intros [= <- <-].
Qed.

(** *** Scans *)

Section scans.
Context {G : Engine} `{!ScanComplete G} {K R : Type} `{Countable K}.
Implicit Types m : gmap K R.

Lemma elem_of_scan m r : r ∈ scan m <-> exists k, m !! k = Some r.
Proof.
  rewrite (scan_perm K R m), list_elem_of_fmap. split.
  - intros ([k r'] & -> & Hk%elem_of_map_to_list). by exists k.
  - intros [k Hk]. exists (k, r). by rewrite elem_of_map_to_list.
Qed.

Lemma length_scan m : length (scan m) = size m.
Proof. by rewrite (scan_perm K R m), length_fmap, length_map_to_list. Qed.

(** When every row carries its key, a scan lists each row once. *)
Lemma scan_NoDup_key (key : R -> K) m :
  map_Forall (fun k r => key r = k) m -> NoDup (key <$> scan m).
Proof.
  intros Hm. rewrite (scan_perm K R m), <- list_fmap_compose.
  rewrite (list_fmap_ext (key ∘ snd) fst).
  - apply NoDup_fst_map_to_list.
  - intros i [k r] Hi. simpl. apply Hm. apply elem_of_map_to_list.
    by eapply list_elem_of_lookup_2.
Qed.
End scans.

Lemma keep_where_lookup {K R} `{Countable K} (p : R -> bool) (m : gmap K R) k r :
  keep_where p m !! k = Some r <-> m !! k = Some r /\ p r = false.
Proof.
  unfold keep_where. rewrite map_lookup_filter_Some. simpl.
  destruct (p r); simpl; intuition done.
Qed.

Lemma keep_where_None {K R} `{Countable K} (p : R -> bool) (m : gmap K R) k :
  m !! k = None -> keep_where p m !! k = None.
Proof.
  intros Hk. apply eq_None_not_Some. intros [r [Hr _]%keep_where_lookup]. congruence.
Qed.

Lemma keep_where_subset {K R} `{Countable K} (p : R -> bool) (m : gmap K R) :
  keep_where p m ⊆ m.
Proof. apply map_filter_subseteq. Qed.

(** An insert into a table without secondary indexes, under a fresh key. *)
Lemma sql_insert_fresh {K R} `{Countable K} (t : Table K R) k r w :
  t_get t (db w) !! k = None ->
  (forall k' r', t_get t (db w) !! k' = Some r' -> t_conflict t r r' = false) ->
  sql_insert t k r w = (Ok tt, mkWorld (t_set t (<[k := r]> (t_get t (db w))) (db w))
    (tick w)).
Proof.
  intros Hk Hc. unfold sql_insert. rewrite Hk, bool_decide_eq_false_2 by (by intros []).
  replace (existsb _ _) with false; [done|]. symmetry.
  apply not_true_iff_false. rewrite existsb_exists. intros (r' & Hin & Hr').
  apply list_elem_of_In, list_elem_of_fmap in Hin as ([k' r''] & -> & Hl).
  apply elem_of_map_to_list in Hl. simpl in Hr'. by rewrite (Hc _ _ Hl) in Hr'.
Qed.

Lemma sql_insert_conflict {K R} `{Countable K} (t : Table K R) k r w k' r' :
  t_get t (db w) !! k' = Some r' -> t_conflict t r r' = true ->
  sql_insert t k r w = (Err (Storage UniqueViolation), w).
Proof.
  intros Hk' Hc. unfold sql_insert. replace (existsb _ _) with true.
  - by rewrite orb_true_r.
  - symmetry. rewrite existsb_exists. exists r'. split; [|done].
    apply list_elem_of_In, list_elem_of_fmap. exists (k', r').
    by rewrite elem_of_map_to_list.
Qed.

(** The two outcomes of an insert. *)
Lemma sql_insert_inv {K R} `{Countable K} (t : Table K R) k r w :
  sql_insert t k r w = (Err (Storage UniqueViolation), w) \/
  (t_get t (db w) !! k = None /\
   (forall k' r', t_get t (db w) !! k' = Some r' -> t_conflict t r r' = false) /\
   sql_insert t k r w =
     (Ok tt, mkWorld (t_set t (<[k := r]> (t_get t (db w))) (db w)) (tick w))).
Proof.
  unfold sql_insert. case_bool_decide as Hk; simpl; [by left|].
  apply eq_None_not_Some in Hk.
  destruct (existsb _ _) eqn:Hx; [by left|]. right. split_and!; [done| |done].
  intros k' r' Hr'. destruct (t_conflict t r r') eqn:Hc; [|done].
  rewrite <- Hx. symmetry. rewrite existsb_exists. exists r'. split; [|done].
  apply list_elem_of_In, list_elem_of_fmap. exists (k', r').
  by rewrite elem_of_map_to_list.
Qed.

(** *** A concrete environment

    Used by the examples: ids are decimal counters, the clock ticks once per
    read, the pool always has a connection, and a scan is the map's own order. *)
Definition demo_env : Env := {|
  uuid_v7 n := pretty n;
  system_ms n := 1000 + Z.of_nat n;
  random_u64 n := Z.of_nat n;
  pool_ready _ := true;
  json_object _ := None;
  json_to_string _ := "{}"%string
|}.

Definition demo_engine : Engine := {|
  scan K A _ _ m := (map_to_list m).*2;
  sql_like p s := bool_decide (p = s)
|}.

Lemma demo_uuid_fresh : UuidFresh demo_env.
Proof. intros m n Hmn. by apply (inj pretty) in Hmn. Qed.

Lemma demo_scan_complete : ScanComplete demo_engine.
Proof. by intros K A ?? m. Qed.
