(* ===== verification/Store.v ===== *)
(** * The job store: shared helpers and the invariant of its tables

    The private helpers that the operations of [diesel_common/jobs.rs] share:
    moving a row to the archive, deleting a job's children, validating and
    writing dependency edges.  Then [wf], the invariant of the tables, with one
    lemma per kind of edit the operations make. *)
From S2P Require Import Prelude Job Db.

(** ** Helpers *)

Definition mem (x : string) (l : list string) : bool := bool_decide (x ∈ l).

Definition PURGE_BATCH : Z := 500.
Definition DELETE_ID_CHUNK : nat := 450.
Definition MASS_ARCHIVE_BATCH : Z := 500.

(** [pubsub::extract_topic_subscription] *)
Definition extract_topic_subscription {E : Env} (notes : option string)
    : option (string * string) :=
  raw ← notes;
  obj ← json_object raw;
  t ← obj !! "topic"%string;
  s ← obj !! "subscription"%string;
  match t, s with
  | JString topic, JString subscription => Some (topic, subscription)
  | _, _ => None
  end.

(** [JobAttribution::of] *)
Definition attribution_of {E : Env} (job : Job) : JobAttribution :=
  match extract_topic_subscription (j_notes job) with
  | Some (t, s) => mkJobAttribution (Some t) (Some s)
  | None => mkJobAttribution None None
  end.

(** [dependency_not_found]: the sentinel of a failed dependency check becomes the
    error the caller sees. *)
Definition dependency_not_found (err : QueueError) : QueueError :=
  match err with
  | Storage RollbackTransaction =>
      DependencyNotFound "dependency not found or already dead/cancelled"
  | other => other
  end.

(** [job_in_namespace]: [None] is an unscoped read. *)
Definition job_in_namespace (row_ns namespace : option string) : bool :=
  match namespace with
  | None => true
  | Some ns => bool_decide (row_ns = Some ns)
  end.

(** A scan's namespace filter, where [None] is a namespace of its own:
    [Some(ns) => .eq(ns), None => .is_null()]. *)
Definition same_namespace (row_ns namespace : option string) : bool :=
  bool_decide (row_ns = namespace).

Section helpers.
Context {E : Env} {G : Engine}.

Definition delete_job_relations (job_ids : list string) : DbM unit :=
  for_each (fun chunk =>
    sql_delete job_dependencies (fun d =>
      mem (dep_job_id d) chunk || mem (dep_depends_on_job_id d) chunk) ;;
    sql_delete replay_history (fun h => mem (rh_original_job_id h) chunk) ;;
    mret tt)
  (chunks DELETE_ID_CHUNK job_ids).

Definition delete_job_diagnostics (job_ids : list string) : DbM unit :=
  for_each (fun chunk =>
    sql_delete job_errors (fun e => mem (je_job_id e) chunk) ;;
    sql_delete task_logs (fun l => mem (tl_job_id l) chunk) ;;
    sql_delete task_metrics (fun m => mem (tm_job_id m) chunk) ;;
    mret tt)
  (chunks DELETE_ID_CHUNK job_ids).

Definition archive_job_row (row : JobRow) : DbM unit :=
  sql_insert archived_jobs (jr_id row) (archived_of row) ;;
  sql_delete_pk jobs (jr_id row) ;;
  sql_delete job_steps (fun s => bool_decide (js_job_id s = jr_id row)) ;;
  sql_delete_pk execution_claims (jr_id row) ;;
  mret tt.

Definition deps_satisfied (job_id : string) : DbM bool :=
  deps ← sql_select job_dependencies (fun d => bool_decide (dep_job_id d = job_id));
  let dep_job_ids := dep_depends_on_job_id <$> deps in
  if bool_decide (dep_job_ids = []) then mret true
  else
    live_incomplete ← sql_count jobs (fun r =>
      mem (jr_id r) dep_job_ids && negb (jr_status r =? as_int Complete));
    archived_incomplete ← sql_count archived_jobs (fun r =>
      mem (ar_id r) dep_job_ids && negb (ar_status r =? as_int Complete));
    mret (live_incomplete + archived_incomplete =? 0).

Definition validate_dependency (dep_id : string) (namespace : option string) : DbM unit :=
  dep ← sql_find jobs dep_id;
  match dep with
  | Some d =>
      if (jr_status d =? as_int Dead) || (jr_status d =? as_int Cancelled)
         || negb (bool_decide (jr_namespace d = namespace))
      then throw (Storage RollbackTransaction)
      else mret tt
  | None =>
      archived ← sql_find archived_jobs dep_id;
      match archived with
      | Some a =>
          if (ar_status a =? as_int Complete) && bool_decide (ar_namespace a = namespace)
          then mret tt
          else throw (Storage RollbackTransaction)
      | None => throw (Storage RollbackTransaction)
      end
  end.

Definition validate_dependencies (depends_on : list string)
    (namespace : option string) : DbM unit :=
  for_each (fun dep_id => validate_dependency dep_id namespace) depends_on.

Definition insert_job_dependencies (job_id : string) (depends_on : list string) : DbM unit :=
  for_each (fun dep_id =>
    id ← now_v7;
    sql_insert job_dependencies id (mkJobDependencyRow id job_id dep_id)) depends_on.

Definition insert_job_with_deps (job : Job) (depends_on : list string) : DbM unit :=
  let row := new_job_row job (attribution_of job) in
  sql_insert jobs (njr_id row) (inserted_row row) ;;
  insert_job_dependencies (j_id job) depends_on.

Definition find_active_by_unique_key (unique_key : string) (namespace : option string)
    : DbM (option JobRow) :=
  l ← sql_select jobs (fun r =>
        bool_decide (jr_unique_key r = Some unique_key)
        && is_active (jr_status r)
        && same_namespace (jr_namespace r) namespace);
  mret (head l).

End helpers.

(** ** The invariant

    Live rows are pending or running, archived rows are terminal and stamped with
    their end, no id is in both tables, ids come from the UUID source, a unique
    key's slot is held by one row, dependency edges join existing jobs of one
    namespace, and step rows belong to live jobs and are numbered from zero
    without gaps. *)

Definition is_terminal (status : Z) : bool :=
  (status =? as_int Complete) || (status =? as_int Failed)
  || (status =? as_int Dead) || (status =? as_int Cancelled).

(** Every key of the table was minted before the [n]-th outside read. *)
Definition minted {E : Env} {A} (n : nat) (m : gmap string A) : Prop :=
  forall k, is_Some (m !! k) -> exists i, (i < n)%nat /\ k = uuid_v7 i.

(** The namespace of a job, wherever it is stored. *)
Definition ns_of (J : gmap string JobRow) (A : gmap string ArchivedJobRow)
    (id : string) : option (option string) :=
  match J !! id with
  | Some r => Some (jr_namespace r)
  | None => ar_namespace <$> A !! id
  end.

(** The number of committed steps of a job. *)
Definition steps_count (S : gmap string JobStepRow) (job_id : string) : nat :=
  size (filter (fun ks => js_job_id (snd ks) = job_id) S).

Record wf_tables {E : Env} (n : nat) (J : gmap string JobRow)
    (A : gmap string ArchivedJobRow) (D : gmap string JobDependencyRow)
    (S : gmap string JobStepRow) : Prop := {
  wf_live_key : map_Forall (fun k r => jr_id r = k) J;
  wf_live_status : map_Forall (fun _ r => is_active (jr_status r) = true) J;
  wf_live_started :
    map_Forall (fun _ r => jr_status r = as_int Running -> is_Some (jr_started_at r)) J;
  wf_arch_key : map_Forall (fun k r => ar_id r = k) A;
  wf_arch_status : map_Forall (fun _ r => is_terminal (ar_status r) = true) A;
  wf_arch_completed : map_Forall (fun _ r => is_Some (ar_completed_at r)) A;
  wf_disjoint : forall k, is_Some (J !! k) -> A !! k = None;
  wf_minted_live : minted n J;
  wf_minted_arch : minted n A;
  wf_minted_deps : minted n D;
  wf_minted_steps : minted n S;
  wf_unique : forall k k' r r' s,
    J !! k = Some r -> J !! k' = Some r' ->
    unique_slot r = Some s -> unique_slot r' = Some s -> k = k';
  wf_edges : forall k e, D !! k = Some e ->
    exists ns, ns_of J A (dep_job_id e) = Some ns
            /\ ns_of J A (dep_depends_on_job_id e) = Some ns;
  wf_flag : forall k e r, D !! k = Some e ->
    J !! dep_job_id e = Some r -> jr_has_deps r = true;
  wf_step_live : forall k s, S !! k = Some s ->
    exists r, J !! js_job_id s = Some r /\ js_namespace s = jr_namespace r;
  wf_step_unique : forall k k' s s', S !! k = Some s -> S !! k' = Some s' ->
    step_conflict s s' = true -> k = k';
  wf_step_bound : forall k s, S !! k = Some s ->
    0 <= js_seq s < Z.of_nat (steps_count S (js_job_id s))
}.

Definition wf {E : Env} (w : World) : Prop :=
  wf_tables (tick w) (db_jobs (db w)) (db_archived_jobs (db w))
    (db_job_dependencies (db w)) (db_job_steps (db w)).

(** The database [archive_job_row] leaves. *)
Definition archive_db (row : JobRow) (d : DB) : DB :=
  let id := jr_id row in
  set_execution_claims (delete id (db_execution_claims d))
    (set_job_steps
      (keep_where (fun s => bool_decide (js_job_id s = id)) (db_job_steps d))
      (set_jobs (delete id (db_jobs d))
        (set_archived_jobs (<[id := archived_of row]> (db_archived_jobs d)) d))).

Lemma archive_job_row_ok row w :
  db_archived_jobs (db w) !! jr_id row = None ->
  archive_job_row row w = (Ok tt, mkWorld (archive_db row (db w)) (tick w)).
Proof.
  intros Hfresh. unfold archive_job_row, mbind, M_bind.
  rewrite sql_insert_fresh by done. done.
Qed.

(** *** Edits that keep the invariant *)

Section edits.
Context {E : Env}.
Implicit Types (J : gmap string JobRow) (A : gmap string ArchivedJobRow)
  (D : gmap string JobDependencyRow) (S : gmap string JobStepRow).

Lemma minted_mono {B} n n' (m : gmap string B) :
  (n <= n')%nat -> minted n m -> minted n' m.
Proof. intros Hn Hm k Hk. destruct (Hm k Hk) as (i & ? & ?). exists i. split; [lia|done]. Qed.

Lemma minted_insert {B} n (m : gmap string B) i x :
  (i < n)%nat -> minted n m -> minted n (<[uuid_v7 i := x]> m).
Proof.
  intros Hi Hm k Hk. destruct (decide (k = uuid_v7 i)) as [->|Hne]; [by exists i|].
  rewrite lookup_insert_ne in Hk by done. by apply Hm.
Qed.

Lemma minted_subset {B} n (m m' : gmap string B) :
  (forall k, is_Some (m' !! k) -> is_Some (m !! k)) -> minted n m -> minted n m'.
Proof. intros Hsub Hm k Hk. by apply Hm, Hsub. Qed.

Lemma minted_not_fresh `{!UuidFresh E} {B} n (m : gmap string B) :
  minted n m -> m !! uuid_v7 n = None.
Proof.
  intros Hm. apply eq_None_not_Some. intros Hk. destruct (Hm _ Hk) as (i & Hi & Heq).
  apply uuid_v7_inj in Heq. lia.
Qed.

Lemma wf_tick n n' J A D S :
  (n <= n')%nat -> wf_tables n J A D S -> wf_tables n' J A D S.
Proof. intros Hn []. split; eauto using minted_mono. Qed.

#[export] Instance wf_mono : TickMono wf.
Proof. intros d n n' Hn. unfold wf. simpl. by apply wf_tick. Qed.

Lemma ns_of_Some_known J A id ns :
  ns_of J A id = Some ns -> is_Some (J !! id) \/ is_Some (A !! id).
Proof.
  unfold ns_of. destruct (J !! id); [by left; eexists|].
  destruct (A !! id); [by right; eexists | done].
Qed.

(** A pending row under a new id, in a free slot. *)
Lemma wf_insert_live n J A D S i r :
  wf_tables n J A D S ->
  (i < n)%nat -> jr_id r = uuid_v7 i -> J !! jr_id r = None -> A !! jr_id r = None ->
  jr_status r = as_int Pending ->
  (forall k' r', J !! k' = Some r' -> slot_conflict r r' = false) ->
  wf_tables n (<[jr_id r := r]> J) A D S.
Proof.
  intros [] Hi Hid HJ HA Hst Hslot.
  assert (Hns : forall id ns, ns_of J A id = Some ns -> ns_of (<[jr_id r := r]> J) A id = Some ns).
  { intros id ns Hn. destruct (decide (id = jr_id r)) as [->|Hne].
    - unfold ns_of in Hn. by rewrite HJ, HA in Hn.
    - unfold ns_of in *. by rewrite lookup_insert_ne. }
  assert (Hslot' : forall k' r' s, J !! k' = Some r' -> unique_slot r = Some s ->
    unique_slot r' = Some s -> False).
  { intros k' r' s Hk' Hs Hs'. specialize (Hslot _ _ Hk'). unfold slot_conflict in Hslot.
    rewrite Hs in Hslot. apply bool_decide_eq_false in Hslot. done. }
  split; try done.
  - by apply map_Forall_insert_2.
  - apply map_Forall_insert_2; [by rewrite Hst|done].
  - apply map_Forall_insert_2; [by rewrite Hst|done].
  - intros k Hk. destruct (decide (k = jr_id r)) as [->|]; [done|].
    rewrite lookup_insert_ne in Hk by done. auto.
  - rewrite Hid. by apply minted_insert.
  - intros k k' r1 r2 s H1 H2 Hs1 Hs2.
    apply lookup_insert_Some in H1 as [[<- <-]|[? H1]];
      apply lookup_insert_Some in H2 as [[<- <-]|[? H2]]; [done| | |by eauto];
      exfalso; eauto.
  - intros k e He. destruct (wf_edges0 k e He) as (ns & ? & ?). exists ns. auto.
  - intros k e r' He Hr'. apply lookup_insert_Some in Hr' as [[Heq <-]|[_ Hr']]; [|by eauto].
    destruct (wf_edges0 k e He) as (ns & [Hk|Hk]%ns_of_Some_known & _);
      rewrite <- Heq, ?HJ, ?HA in Hk; by destruct Hk.
  - intros k s Hs. destruct (wf_step_live0 k s Hs) as (r' & Hr' & ?).
    exists r'. split; [|done]. rewrite lookup_insert_ne; [done|]. intros Heq.
    rewrite Heq in HJ. congruence.
Qed.

(** A dependency edge of a live job onto a job of its namespace. *)
Lemma wf_insert_edge n J A D S i job_id dep_id r :
  wf_tables n J A D S -> (i < n)%nat ->
  J !! job_id = Some r -> jr_has_deps r = true ->
  ns_of J A dep_id = Some (jr_namespace r) ->
  wf_tables n J A (<[uuid_v7 i := mkJobDependencyRow (uuid_v7 i) job_id dep_id]> D) S.
Proof.
  intros [] Hi Hr Hdeps Hns. split; try done.
  - by apply minted_insert.
  - intros k e [[<- <-]|[_ He]]%lookup_insert_Some; [|by eauto]. simpl.
    exists (jr_namespace r). split; [|done]. unfold ns_of. by rewrite Hr.
  - intros k e r' [[<- <-]|[_ He]]%lookup_insert_Some; [|by eauto]. simpl. congruence.
Qed.

(** What an update of a live row may not touch. *)
Definition same_identity (r r' : JobRow) : Prop :=
  jr_id r' = jr_id r /\ jr_namespace r' = jr_namespace r /\
  jr_unique_key r' = jr_unique_key r /\ jr_has_deps r' = jr_has_deps r.

Lemma wf_update_live n J A D S k r r' :
  wf_tables n J A D S -> J !! k = Some r -> same_identity r r' ->
  is_active (jr_status r') = true ->
  (jr_status r' = as_int Running -> is_Some (jr_started_at r')) ->
  wf_tables n (<[k := r']> J) A D S.
Proof.
  intros [] Hr (Hid & Hns & Huk & Hdeps) Hact Hrun.
  assert (HnsJ : forall id, ns_of (<[k := r']> J) A id = ns_of J A id).
  { intros id. unfold ns_of. destruct (decide (id = k)) as [->|Hne].
    - by rewrite lookup_insert_eq, Hr, Hns.
    - by rewrite lookup_insert_ne. }
  assert (Hdom : forall k', is_Some (<[k := r']> J !! k') -> is_Some (J !! k')).
  { intros k'. destruct (decide (k' = k)) as [->|]; [by rewrite Hr|].
    by rewrite lookup_insert_ne. }
  assert (Hslot : unique_slot r' = unique_slot r).
  { unfold unique_slot. by rewrite Hact, (wf_live_status0 _ _ Hr), Hns, Huk. }
  split; try done.
  - apply map_Forall_insert_2; [|done]. rewrite Hid. by apply wf_live_key0.
  - by apply map_Forall_insert_2.
  - by apply map_Forall_insert_2.
  - intros k' Hk'. auto.
  - by eapply minted_subset.
  - intros k1 k2 r1 r2 s H1 H2 Hs1 Hs2.
    apply lookup_insert_Some in H1 as [[<- <-]|[? H1]];
      apply lookup_insert_Some in H2 as [[<- <-]|[? H2]]; [done| | |by eauto];
      rewrite Hslot in *; eauto.
  - intros k' e He. rewrite !HnsJ. by eauto.
  - intros k' e r1 He [[Heq <-]|[_ Hr1]]%lookup_insert_Some; [|by eauto].
    rewrite Hdeps. eapply wf_flag0; [done|]. by rewrite <- Heq.
  - intros k' s Hs. destruct (wf_step_live0 k' s Hs) as (r1 & Hr1 & Hn1).
    destruct (decide (js_job_id s = k)) as [Heq|Hne].
    + exists r'. rewrite Heq, lookup_insert_eq. split; [done|]. congruence.
    + exists r1. by rewrite lookup_insert_ne.
Qed.

Definition drop_steps (job_id : string) S : gmap string JobStepRow :=
  keep_where (fun s => bool_decide (js_job_id s = job_id)) S.

Lemma drop_steps_lookup job_id S k s :
  drop_steps job_id S !! k = Some s <-> S !! k = Some s /\ js_job_id s <> job_id.
Proof. unfold drop_steps. rewrite keep_where_lookup, bool_decide_eq_false. done. Qed.

Lemma steps_count_drop job_id S j :
  j <> job_id -> steps_count (drop_steps job_id S) j = steps_count S j.
Proof.
  intros Hj. unfold steps_count, drop_steps, keep_where. f_equal.
  rewrite map_filter_filter. apply map_filter_ext. intros k s _. simpl.
  rewrite negb_True, bool_decide_spec. naive_solver.
Qed.

(** Dropping all steps of one job keeps the others numbered. *)
Lemma wf_drop_steps n J A D S job_id :
  wf_tables n J A D S -> wf_tables n J A D (drop_steps job_id S).
Proof.
  intros []. split; try done.
  - eapply minted_subset; [|done]. intros k [s [Hs _]%drop_steps_lookup]. by eexists.
  - intros k s [Hs _]%drop_steps_lookup. by eauto.
  - intros k k' s s' [Hs _]%drop_steps_lookup [Hs' _]%drop_steps_lookup. by eauto.
  - intros k s [Hs Hne]%drop_steps_lookup. rewrite steps_count_drop by done. by eauto.
Qed.

(** Moving a live row to the archive under a terminal status. *)
Lemma wf_archive n J A D S r row :
  wf_tables n J A D S -> J !! jr_id row = Some r ->
  jr_namespace row = jr_namespace r -> is_terminal (jr_status row) = true ->
  is_Some (jr_completed_at row) ->
  wf_tables n (delete (jr_id row) J) (<[jr_id row := archived_of row]> A) D
    (drop_steps (jr_id row) S).
Proof.
  intros Hwf Hr Hns Hterm Hcomp. apply (wf_drop_steps _ _ _ _ _ (jr_id row)) in Hwf.
  destruct Hwf.
  assert (HnsJ : forall id, ns_of (delete (jr_id row) J) (<[jr_id row := archived_of row]> A) id
    = ns_of J A id).
  { intros id. unfold ns_of. destruct (decide (id = jr_id row)) as [->|Hne].
    - by rewrite lookup_delete_eq, lookup_insert_eq, Hr, <- Hns.
    - by rewrite lookup_delete_ne, lookup_insert_ne. }
  assert (Hsub : forall k x, delete (jr_id row) J !! k = Some x -> J !! k = Some x).
  { intros k x. rewrite lookup_delete_Some. naive_solver. }
  split; try done.
  - intros k x Hx%Hsub. auto.
  - intros k x Hx%Hsub. by eapply wf_live_status0.
  - intros k x Hx%Hsub. by eapply wf_live_started0.
  - by apply map_Forall_insert_2.
  - by apply map_Forall_insert_2.
  - by apply map_Forall_insert_2.
  - intros k [x Hx]. apply lookup_delete_Some in Hx as [Hne Hx].
    rewrite lookup_insert_ne by done. eauto.
  - eapply minted_subset; [|done]. intros k [x Hx%Hsub]. by eexists.
  - intros k Hk. destruct (decide (k = jr_id row)) as [->|Hne].
    + apply wf_minted_live0. by rewrite Hr.
    + rewrite lookup_insert_ne in Hk by done. auto.
  - intros k k' x x' s Hx%Hsub Hx'%Hsub. by eauto.
  - intros k e He. rewrite !HnsJ. by eauto.
  - intros k e x He Hx%Hsub. by eauto.
  - intros k s Hs. destruct (wf_step_live0 k s Hs) as (x & Hx & ?).
    exists x. split; [|done]. apply drop_steps_lookup in Hs as [_ Hne].
    by rewrite lookup_delete_ne.
Qed.

(** Removing archived rows together with every edge that touches them. *)
Lemma wf_purge n J A A' D D' S :
  wf_tables n J A D S -> A' ⊆ A -> D' ⊆ D ->
  (forall k e id, D' !! k = Some e -> A' !! id = None -> is_Some (A !! id) ->
    dep_job_id e <> id /\ dep_depends_on_job_id e <> id) ->
  wf_tables n J A' D' S.
Proof.
  intros [] HA HD Hedge.
  assert (HA' : forall k x, A' !! k = Some x -> A !! k = Some x)
    by (intros; by eapply lookup_weaken).
  assert (HD' : forall k x, D' !! k = Some x -> D !! k = Some x)
    by (intros; by eapply lookup_weaken).
  assert (Hns : forall id ns, ns_of J A id = Some ns ->
    (A' !! id = None -> is_Some (A !! id) -> False) -> ns_of J A' id = Some ns).
  { intros id ns Hns Hid. unfold ns_of in *. destruct (J !! id); [done|].
    destruct (A' !! id) as [x|] eqn:Hx; [by rewrite (HA' _ _ Hx) in Hns|].
    destruct (A !! id); [|done]. exfalso. by apply Hid. }
  split; try done.
  - intros k x Hx%HA'. auto.
  - intros k x Hx%HA'. by eapply wf_arch_status0.
  - intros k x Hx%HA'. by eapply wf_arch_completed0.
  - intros k Hk. destruct (A' !! k) eqn:Hx; [|done]. apply HA' in Hx.
    rewrite wf_disjoint0 in Hx; done.
  - eapply minted_subset; [|done]. intros k [x Hx%HA']. by eexists.
  - eapply minted_subset; [|done]. intros k [x Hx%HD']. by eexists.
  - intros k e He. destruct (wf_edges0 k e (HD' _ _ He)) as (ns & H1 & H2).
    exists ns. split; apply Hns; [done| |done|]; intros Hn Hs;
      destruct (Hedge _ _ _ He Hn Hs); congruence.
  - intros k e x He%HD'. by eauto.
Qed.

(** A step at the next free position of a live job. *)
Lemma wf_insert_step n J A D S i s r :
  wf_tables n J A D S -> (i < n)%nat -> js_id s = uuid_v7 i ->
  S !! uuid_v7 i = None ->
  J !! js_job_id s = Some r -> js_namespace s = jr_namespace r ->
  js_seq s = Z.of_nat (steps_count S (js_job_id s)) ->
  (forall k' s', S !! k' = Some s' -> step_conflict s s' = false) ->
  wf_tables n J A D (<[uuid_v7 i := s]> S).
Proof.
  intros [] Hi Hid HS Hr Hns Hseq Hconf.
  assert (Hconf' : forall k' s', S !! k' = Some s' -> step_conflict s' s = false).
  { intros k' s' Hs'. specialize (Hconf _ _ Hs'). unfold step_conflict in *.
    rewrite <- Hconf. f_equal; [apply bool_decide_ext; naive_solver|].
    rewrite Z.eqb_sym. f_equal. apply bool_decide_ext; naive_solver. }
  assert (Hcount : forall j, steps_count (<[uuid_v7 i := s]> S) j
    = (steps_count S j + if decide (js_job_id s = j) then 1 else 0)%nat).
  { intros j. unfold steps_count. destruct (decide (js_job_id s = j)) as [He|He].
    - rewrite map_filter_insert_True by done.
      rewrite map_size_insert_None; [lia|]. apply map_lookup_filter_None. by left.
    - rewrite map_filter_insert_not'; [lia|done|]. intros y Hy. congruence. }
  split; try done.
  - by apply minted_insert.
  - intros k x [[<- <-]|[_ Hx]]%lookup_insert_Some; [by exists r|by eauto].
  - intros k k' x x' [[<- <-]|[? Hx]]%lookup_insert_Some
      [[<- <-]|[? Hx']]%lookup_insert_Some Hc; [done| | |by eauto].
    + by rewrite (Hconf _ _ Hx') in Hc.
    + by rewrite (Hconf' _ _ Hx) in Hc.
  - intros k x [[<- <-]|[_ Hx]]%lookup_insert_Some; rewrite Hcount.
    + rewrite decide_True by done. lia.
    + specialize (wf_step_bound0 _ _ Hx). case_decide; lia.
Qed.
End edits.

(** *** Dependency checks and inserts *)

(** What [validate_dependency] accepts: a job of the same namespace that is live
    and not dead or cancelled, or archived as complete. *)
Definition valid_dep (d : DB) (namespace : option string) (dep_id : string) : bool :=
  match db_jobs d !! dep_id with
  | Some r =>
      negb ((jr_status r =? as_int Dead) || (jr_status r =? as_int Cancelled)
            || negb (bool_decide (jr_namespace r = namespace)))
  | None =>
      match db_archived_jobs d !! dep_id with
      | Some a => (ar_status a =? as_int Complete) && bool_decide (ar_namespace a = namespace)
      | None => false
      end
  end.

(** The edges [insert_job_dependencies] writes when it starts at counter [n]. *)
Fixpoint insert_edges {E : Env} (n : nat) (job_id : string) (deps : list string)
    (D : gmap string JobDependencyRow) : gmap string JobDependencyRow :=
  match deps with
  | [] => D
  | dep :: deps =>
      insert_edges (S n) job_id deps
        (<[uuid_v7 n := mkJobDependencyRow (uuid_v7 n) job_id dep]> D)
  end.

(** A job about to be inserted: pending, with an id no table has. *)
Definition fresh_job {E : Env} (job : Job) (w : World) : Prop :=
  j_status job = Pending /\
  exists i, (i < tick w)%nat /\ j_id job = uuid_v7 i
    /\ db_jobs (db w) !! j_id job = None /\ db_archived_jobs (db w) !! j_id job = None.

Definition row_of {E : Env} (job : Job) : JobRow :=
  inserted_row (new_job_row job (attribution_of job)).

(** The world after a job and its edges are inserted. *)
Definition inserted {E : Env} (job : Job) (deps : list string) (w : World) : World :=
  mkWorld
    (set_job_dependencies
       (insert_edges (tick w) (j_id job) deps (db_job_dependencies (db w)))
       (set_jobs (<[j_id job := row_of job]> (db_jobs (db w))) (db w)))
    (length deps + tick w).

Section inserts.
Context {E : Env}.

Lemma validate_dependency_eq dep_id ns w :
  validate_dependency dep_id ns w =
    (if valid_dep (db w) ns dep_id then Ok tt else Err (Storage RollbackTransaction), w).
Proof.
  unfold validate_dependency, valid_dep, mbind, M_bind. simpl.
  destruct (db_jobs (db w) !! dep_id) as [r|].
  - by destruct (_ || negb _).
  - destruct (db_archived_jobs (db w) !! dep_id) as [a|]; [|done].
    by destruct (_ && _).
Qed.

Lemma validate_dependencies_eq deps ns w :
  validate_dependencies deps ns w =
    (if forallb (valid_dep (db w) ns) deps then Ok tt
     else Err (Storage RollbackTransaction), w).
Proof. apply for_each_check. intros dep. apply validate_dependency_eq. Qed.

Lemma valid_dep_ns d ns dep_id :
  valid_dep d ns dep_id = true -> ns_of (db_jobs d) (db_archived_jobs d) dep_id = Some ns.
Proof.
  unfold valid_dep, ns_of. destruct (db_jobs d !! dep_id) as [r|].
  - rewrite !negb_orb, negb_involutive, !andb_true_iff, bool_decide_eq_true. naive_solver.
  - destruct (db_archived_jobs d !! dep_id) as [a|]; [|done].
    rewrite andb_true_iff, bool_decide_eq_true. naive_solver.
Qed.

Lemma insert_job_dependencies_eq `{!UuidFresh E} job_id deps w :
  minted (tick w) (db_job_dependencies (db w)) ->
  insert_job_dependencies job_id deps w =
    (Ok tt, mkWorld
       (set_job_dependencies (insert_edges (tick w) job_id deps (db_job_dependencies (db w)))
          (db w)) (length deps + tick w)).
Proof.
  revert w. induction deps as [|dep deps IH]; intros [d n] Hm; [by destruct d|].
  unfold insert_job_dependencies in *. simpl. unfold mbind, M_bind at 1.
  unfold mbind, M_bind, now_v7, draw. simpl.
  rewrite sql_insert_fresh; [|by apply minted_not_fresh|done]. simpl.
  rewrite IH; simpl.
  - f_equal. f_equal. lia.
  - apply minted_insert; [lia|]. eapply minted_mono; [|done]. simpl. lia.
Qed.

Lemma insert_edges_elem n job_id deps D k e :
  insert_edges n job_id deps D !! k = Some e ->
  D !! k = Some e \/ (dep_job_id e = job_id /\ dep_depends_on_job_id e ∈ deps).
Proof.
  revert n D. induction deps as [|dep deps IH]; intros n D; simpl; [by left|].
  intros [H|[H1 H2]]%IH; [|right; by split; [|right]].
  apply lookup_insert_Some in H as [[_ <-]|[_ H]]; [right; split; [done|left]|by left].
Qed.

Lemma insert_edges_old `{!UuidFresh E} n job_id deps D k e :
  minted n D -> D !! k = Some e -> insert_edges n job_id deps D !! k = Some e.
Proof.
  revert n D. induction deps as [|dep deps IH]; intros n D Hm Hk; simpl; [done|].
  apply IH.
  - apply minted_insert; [lia|]. eapply minted_mono; [|done]. lia.
  - rewrite lookup_insert_ne; [done|]. intros <-.
    by rewrite minted_not_fresh in Hk.
Qed.

Lemma insert_edges_new `{!UuidFresh E} n job_id deps D dep :
  minted n D -> dep ∈ deps ->
  exists k e, insert_edges n job_id deps D !! k = Some e
    /\ dep_job_id e = job_id /\ dep_depends_on_job_id e = dep.
Proof.
  revert n D. induction deps as [|dep' deps IH]; intros n D Hm; simpl.
  { by intros ?%elem_of_nil. }
  assert (Hm' : minted (S n) (<[uuid_v7 n := mkJobDependencyRow (uuid_v7 n) job_id dep']> D)).
  { apply minted_insert; [lia|]. eapply minted_mono; [|done]. lia. }
  intros [<-|Hin]%elem_of_cons; [|by apply IH].
  exists (uuid_v7 n), (mkJobDependencyRow (uuid_v7 n) job_id dep). split; [|done].
  apply insert_edges_old; [done|]. by rewrite lookup_insert_eq.
Qed.

Lemma wf_insert_edges n J A D S job_id deps r :
  wf_tables n J A D S -> J !! job_id = Some r -> (deps <> [] -> jr_has_deps r = true) ->
  Forall (fun dep => ns_of J A dep = Some (jr_namespace r)) deps ->
  wf_tables (length deps + n) J A (insert_edges n job_id deps D) S.
Proof.
  revert n D. induction deps as [|dep deps IH]; intros n D Hwf Hr Hdeps Hns; simpl; [done|].
  apply Forall_cons in Hns as [Hn Hns].
  replace (Datatypes.S (length deps + n)) with (length deps + Datatypes.S n)%nat by lia.
  apply IH; [|done|by intros _; apply Hdeps|done].
  eapply wf_insert_edge; [| |done| |done]; [|lia|by apply Hdeps].
  eapply wf_tick; [|done]. lia.
Qed.

(** Inserting a fresh job whose dependencies are valid either is refused by the
    unique-key index or stores the row and its edges; both keep the invariant. *)
Lemma insert_job_with_deps_cases `{!UuidFresh E} job deps w :
  wf w -> fresh_job job w -> (deps <> [] -> j_has_deps job = true) ->
  forallb (valid_dep (db w) (j_namespace job)) deps = true ->
  (insert_job_with_deps job deps w = (Err (Storage UniqueViolation), w)
   /\ exists k r, db_jobs (db w) !! k = Some r /\ slot_conflict (row_of job) r = true)
  \/ (insert_job_with_deps job deps w = (Ok tt, inserted job deps w)
      /\ wf (inserted job deps w)
      /\ forall k r, db_jobs (db w) !! k = Some r -> slot_conflict (row_of job) r = false).
Proof.
  intros Hwf (Hst & i & Hi & Hid & HJ & HA) Hdeps Hval.
  unfold insert_job_with_deps, mbind, M_bind.
  change (njr_id (new_job_row job (attribution_of job))) with (j_id job).
  fold (row_of job). unfold sql_insert at 1 2. simpl. rewrite HJ.
  rewrite bool_decide_eq_false_2 by (by intros []). simpl.
  destruct (existsb _ _) eqn:Hx.
  - left. split; [done|]. apply existsb_exists in Hx as (r & Hr & Hc).
    apply list_elem_of_In, list_elem_of_fmap in Hr as ([k r'] & -> & Hk).
    exists k, r'. by apply elem_of_map_to_list in Hk.
  - right. assert (Hc : forall k r, db_jobs (db w) !! k = Some r ->
      slot_conflict (row_of job) r = false).
    { intros k r Hk. destruct (slot_conflict (row_of job) r) eqn:Hc; [|done].
      rewrite <- Hx. symmetry. apply existsb_exists. exists r. split; [|done].
      apply list_elem_of_In, list_elem_of_fmap. exists (k, r).
      by rewrite elem_of_map_to_list. }
    rewrite insert_job_dependencies_eq by apply Hwf. split_and!; [done| |done].
    unfold wf, inserted. simpl. eapply wf_insert_edges.
    + apply (wf_insert_live _ _ _ _ _ i); try done. unfold row_of. simpl. by rewrite Hst.
    + by rewrite lookup_insert_eq.
    + done.
    + apply Forall_forall. intros dep Hin. rewrite forallb_forall in Hval.
      apply list_elem_of_In, Hval, valid_dep_ns in Hin. simpl.
      unfold ns_of in *. destruct (decide (dep = j_id job)) as [->|].
      * by rewrite HJ, HA in Hin.
      * by rewrite lookup_insert_ne.
Qed.
End inserts.

(** *** Running a transaction *)

(** [n] reads of the outside later. *)
Definition bump (n : nat) (w : World) : World := mkWorld (db w) (n + tick w).

Definition clock_at {E : Env} (n : nat) : Z := Z.min (Z.max 0 (system_ms n)) i64_max.

Section running.
Context {E : Env}.

Lemma write_transaction_eq {A} (m : DbM A) w :
  write_transaction m w =
    if pool_ready (tick w)
    then match m (bump 1 w) with
         | (Ok a, w') => (Ok a, w')
         | (Err e, w') => (Err e, mkWorld (db w) (Nat.max (S (tick w)) (tick w')))
         end
    else (Err Pool, bump 1 w).
Proof.
  unfold write_transaction, conn, mbind, M_bind, draw, transaction, bump. simpl.
  by destruct (pool_ready (tick w)).
Qed.

Lemma conn_ok w : pool_ready (tick w) = true -> conn w = (Ok tt, bump 1 w).
Proof. unfold conn, mbind, M_bind, draw. simpl. by intros ->. Qed.

Lemma conn_err w : pool_ready (tick w) = false -> conn w = (Err Pool, bump 1 w).
Proof. unfold conn, mbind, M_bind, draw. simpl. by intros ->. Qed.

Lemma write_transaction_ok {A} (m : DbM A) w a w' :
  pool_ready (tick w) = true -> m (bump 1 w) = (Ok a, w') ->
  write_transaction m w = (Ok a, w').
Proof. rewrite write_transaction_eq. by intros -> ->. Qed.

(** A body that fails having read nothing more leaves the world of its connection. *)
Lemma write_transaction_fail {A} (m : DbM A) w e w' :
  pool_ready (tick w) = true -> m (bump 1 w) = (Err e, w') -> tick w' = S (tick w) ->
  write_transaction m w = (Err e, bump 1 w).
Proof.
  rewrite write_transaction_eq. intros -> -> ->. unfold bump. by rewrite Nat.max_id.
Qed.

Lemma write_transaction_no_pool {A} (m : DbM A) w :
  pool_ready (tick w) = false -> write_transaction m w = (Err Pool, bump 1 w).
Proof. rewrite write_transaction_eq. by intros ->. Qed.

Lemma into_job_eq nj w :
  into_job nj w =
    (Ok (into_job_at (uuid_v7 (S (tick w))) (clock_at (tick w)) nj), bump 2 w).
Proof. done. Qed.

Lemma wf_bump n w : wf w -> wf (bump n w).
Proof. destruct w as [d m]. apply wf_mono. simpl. lia. Qed.

Lemma fresh_job_bump n job w : fresh_job job w -> fresh_job job (bump n w).
Proof. intros (? & i & ? & ?). split; [done|]. exists i. simpl. split; [lia|done]. Qed.

Lemma into_job_fresh `{!UuidFresh E} now nj w :
  wf w -> fresh_job (into_job_at (uuid_v7 (S (tick w))) now nj) (bump 2 w).
Proof.
  intros Hwf. split; [done|]. exists (S (tick w)). simpl. split_and!; [lia|done| |].
  - apply minted_not_fresh. eapply minted_mono; [|apply Hwf]. simpl. lia.
  - apply minted_not_fresh. eapply minted_mono; [|apply Hwf]. simpl. lia.
Qed.

Lemma into_job_has_deps id now nj :
  nj_depends_on nj <> [] -> j_has_deps (into_job_at id now nj) = true.
Proof. intros Hd. simpl. by rewrite bool_decide_eq_false_2. Qed.

Lemma wf_empty n : wf (mkWorld empty_db n).
Proof.
  assert (Hm : forall B, minted n (∅ : gmap string B)).
  { intros B k Hk. rewrite lookup_empty in Hk. by destruct Hk. }
  unfold wf. simpl.
  split; first [apply Hm | apply map_Forall_empty | intros; by simplify_map_eq].
Qed.

(** An edge of a job never points from an unknown id. *)
Lemma no_edges_of_fresh w id k e :
  wf w -> db_jobs (db w) !! id = None -> db_archived_jobs (db w) !! id = None ->
  db_job_dependencies (db w) !! k = Some e -> dep_job_id e <> id.
Proof.
  intros Hwf HJ HA He <-. destruct (wf_edges _ _ _ _ _ Hwf _ _ He) as (ns & Hns & _).
  unfold ns_of in Hns. by rewrite HJ, HA in Hns.
Qed.

End running.

(** *** Tables beside an invariant

    A table a predicate on worlds does not depend on can be written freely. *)
Class Aside {K R} `{Countable K} (I : World -> Prop) (t : Table K R) : Prop :=
  aside : forall m w, I w -> I (mkWorld (t_set t m (db w)) (tick w)).

Section aside.
Context {K R : Type} `{Countable K} (I : World -> Prop) (t : Table K R) `{!Aside I t}.

Lemma keeps_aside_insert k r : keeps I (sql_insert t k r).
Proof.
  intros w Hw. destruct (sql_insert_inv t k r w) as [->|(_ & _ & ->)]; [done|].
  by apply aside.
Qed.

Lemma keeps_aside_replace k r : keeps I (sql_replace t k r).
Proof. intros w Hw. by apply aside. Qed.

Lemma keeps_aside_upsert k r f : keeps I (sql_upsert t k r f).
Proof. intros w Hw. by apply aside. Qed.

Lemma keeps_aside_insert_ignore k r : keeps I (sql_insert_ignore t k r).
Proof. intros w Hw. unfold sql_insert_ignore. case_match; [done|]. by apply aside. Qed.

Lemma keeps_aside_update k p f : keeps I (sql_update t k p f).
Proof.
  intros w Hw. unfold sql_update. destruct (t_get t (db w) !! k) as [r|]; [|done].
  destruct (p r); [|done]. by apply aside.
Qed.

Lemma keeps_aside_delete p : keeps I (sql_delete t p).
Proof. intros w Hw. by apply aside. Qed.

Lemma keeps_aside_delete_pk k : keeps I (sql_delete_pk t k).
Proof. intros w Hw. by apply aside. Qed.
End aside.

#[export] Hint Resolve keeps_aside_insert keeps_aside_replace keeps_aside_upsert
  keeps_aside_insert_ignore keeps_aside_update
  keeps_aside_delete keeps_aside_delete_pk : keeps.
#[export] Hint Extern 0 (Aside _ _) => apply _ : keeps.

(** The tables [wf] does not mention: the setters leave its four by computation. *)
Section wf_aside.
Context {E : Env}.
#[export] Instance aside_replay_history : Aside wf replay_history. Proof. by intros m w Hw. Qed.
#[export] Instance aside_job_errors : Aside wf job_errors. Proof. by intros m w Hw. Qed.
#[export] Instance aside_task_logs : Aside wf task_logs. Proof. by intros m w Hw. Qed.
#[export] Instance aside_task_metrics : Aside wf task_metrics. Proof. by intros m w Hw. Qed.
#[export] Instance aside_execution_claims : Aside wf execution_claims. Proof. by intros m w Hw. Qed.
#[export] Instance aside_dead_letter : Aside wf dead_letter. Proof. by intros m w Hw. Qed.
#[export] Instance aside_distributed_locks : Aside wf distributed_locks. Proof. by intros m w Hw. Qed.
#[export] Instance aside_circuit_breakers : Aside wf circuit_breakers. Proof. by intros m w Hw. Qed.
#[export] Instance aside_rate_limits : Aside wf rate_limits. Proof. by intros m w Hw. Qed.
#[export] Instance aside_queue_state : Aside wf queue_state. Proof. by intros m w Hw. Qed.
#[export] Instance aside_periodic_tasks : Aside wf periodic_tasks. Proof. by intros m w Hw. Qed.
#[export] Instance aside_workers : Aside wf workers. Proof. by intros m w Hw. Qed.
#[export] Instance aside_dashboard_settings : Aside wf dashboard_settings. Proof. by intros m w Hw. Qed.
#[export] Instance aside_topic_subscriptions : Aside wf topic_subscriptions. Proof. by intros m w Hw. Qed.
#[export] Instance aside_topic_messages : Aside wf topic_messages. Proof. by intros m w Hw. Qed.
#[export] Instance aside_topics : Aside wf topics. Proof. by intros m w Hw. Qed.
#[export] Instance aside_topic_deliveries : Aside wf topic_deliveries. Proof. by intros m w Hw. Qed.
#[export] Instance aside_audit_log : Aside wf audit_log. Proof. by intros m w Hw. Qed.
End wf_aside.

(** *** Example data *)

Definition demo_new_job (unique_key debounce_key : option string) (deps : list string) : NewJob :=
  mkNewJob "default" "mail.send" [x01; x02] 5 0 3 30000 unique_key None None deps
    None None (Some "acme") debounce_key None.

Definition demo_world : World := mkWorld empty_db 0.

(** The value a computation returned, or a default. *)
Definition ok_or {A} (a : A) (r : Result QueueError A) : A :=
  match r with Ok x => x | Err _ => a end.
