(* ===== verification/Queues.v ===== *)
(** * Paused queues ([diesel_common/queue_state.rs])

    A row per paused queue of a namespace; the scheduler skips the queues it lists. *)
From S2P Require Import Prelude Job Db Store.

Section queue_state.
Context {E : Env} {G : Engine}.

Definition pause_queue_once (queue_name : string) (namespace : option string) : DbM unit :=
  now ← now_millis;
  write_transaction (
    updated ← sql_update queue_state (namespace, queue_name) (fun _ => true)
      (fun r => mkQueueStateRow (qs_queue_name r) true (Some now) (qs_namespace r));
    if updated =? 0 then
      sql_insert queue_state (namespace, queue_name)
        (mkQueueStateRow queue_name true (Some now) namespace)
    else mret tt).

Definition pause_queue (queue_name : string) (namespace : option string) : DbM unit :=
  r ← attempt (pause_queue_once queue_name namespace);
  match r with
  | Err (Storage UniqueViolation) => pause_queue_once queue_name namespace
  | Ok _ => mret tt
  | Err e => throw e
  end.

Definition resume_queue (queue_name : string) (namespace : option string) : DbM unit :=
  conn ;; sql_delete_pk queue_state (namespace, queue_name) ;; mret tt.

Definition list_paused_queues (namespace : option string) : DbM (list string) :=
  conn ;;
  rows ← sql_select queue_state (fun r => bool_decide (qs_namespace r = namespace) && qs_paused r);
  mret (qs_queue_name <$> rows).
End queue_state.
