(* ===== verification/Settings.v ===== *)
(** * Settings ([diesel_common/dashboard_settings.rs], [settings.rs]) and error texts
      ([error.rs])

    The key/value store the dashboard, the quotas and the cleanup leader share, and the
    text of an error as a caller prints it. *)
From S2P Require Import Prelude Text Job Db Store.

(** ** The store *)

Section settings.
Context {E : Env} {G : Engine}.

Definition get_setting (key : string) : DbM (option string) :=
  conn ;;
  row ← sql_find dashboard_settings key;
  mret (ds_value <$> row).

Definition set_setting (key value : string) : DbM unit :=
  conn ;;
  now ← now_millis;
  sql_upsert dashboard_settings key (mkDashboardSettingRow key value now)
    (fun r => mkDashboardSettingRow (ds_key r) value now).

(** A write that goes through only if the setting still holds [expected]. *)
Definition set_setting_if (key : string) (expected : option string) (value : string) : DbM bool :=
  conn ;;
  now ← now_millis;
  written ← match expected with
    | Some expected =>
        sql_update dashboard_settings key (fun r => bool_decide (ds_value r = expected))
          (fun r => mkDashboardSettingRow (ds_key r) value now)
    | None => sql_insert_ignore dashboard_settings key (mkDashboardSettingRow key value now)
    end;
  mret (0 <? written).

Definition delete_setting (key : string) : DbM bool :=
  conn ;;
  deleted ← sql_delete_pk dashboard_settings key;
  mret (0 <? deleted).

Definition list_settings : DbM (gmap string string) :=
  conn ;;
  rows ← sql_select dashboard_settings (fun _ => true);
  mret (list_to_map ((fun r => (ds_key r, ds_value r)) <$> rows)).
End settings.

(** ** Reserved keys *)

Definition RESERVED_SETTING_PREFIXES : list string :=
  ["auth:"; "contract:"; "middleware:disabled:"; "quota:"; "retention:"; "flexiq.webhooks";
   "webhook:"; "webhooks:"]%string.

Definition is_reserved_setting_key (key : string) : bool :=
  existsb (fun prefix => starts_with prefix key) RESERVED_SETTING_PREFIXES.

(** ** Error texts *)

(** What other libraries print: a failed query, an exhausted pool, and [Debug] on a text. *)
Class Texts := {
  diesel_text : DieselError -> string;
  pool_text : string;
  str_debug : string -> string
}.

Definition newline : string := String (Ascii.ascii_of_nat 10) "".

Definition divergence_text (d : StepDivergence) : string :=
  ("step sequence changed for job " +:+ sd_job_id d +:+ " at position " +:+ pretty (sd_position d)
   +:+ newline +:+ "  recorded: " +:+ sd_recorded d
   +:+ newline +:+ "  running:  " +:+ sd_running d
   +:+ newline +:+ "  step " +:+ pretty (sd_position d) +:+ " was " +:+ sd_expected d
   +:+ ", now " +:+ sd_found d
   +:+ newline +:+ "A memoized result would answer a different question than the step asking "
   +:+ "for it. Drain or dead-letter this task's in-flight jobs before deploying "
   +:+ "a change to its step sequence.")%string.

(** [e.to_string()] *)
Definition error_text {X : Texts} (e : QueueError) : string :=
  match e with
  | Storage e => "storage error: " +:+ diesel_text e
  | Pool => "connection pool error: " +:+ pool_text
  | Redis m => "redis error: " +:+ m
  | Json m => "json error: " +:+ m
  | JobNotFound id => "job not found: " +:+ id
  | TaskNotRegistered task => "task not registered: " +:+ task
  | Serialization m => "serialization error: " +:+ m
  | Worker m => "worker error: " +:+ m
  | Scheduler m => "scheduler error: " +:+ m
  | RateLimitExceeded key => "rate limit exceeded for: " +:+ key
  | QueueFull queue pending cap => "queue '" +:+ queue +:+ "' is full: " +:+ pretty pending
      +:+ " pending >= max_pending " +:+ pretty cap
  | Timeout m => "job timed out: " +:+ m
  | Config m => "config error: " +:+ m
  | DependencyNotFound m => "dependency not found: " +:+ m
  | LockNotAcquired name => "lock not acquired: " +:+ name
  | SettingConflict key => "setting '" +:+ key +:+ "' was changed by another writer on every attempt"
  | ContractTooOld speaks required => "storage requires contract " +:+ pretty required
      +:+ ", but this build speaks contract " +:+ pretty speaks
      +:+ ":          upgrade this process, or lower the floor from one that is already current"
  | ClaimLost id => "execution claim lost for job " +:+ id
  | StepDiverged id seq expected found => "step divergence on job " +:+ id +:+ " at position "
      +:+ pretty seq +:+ ": expected " +:+ expected +:+ ", found " +:+ found
  | StepSequenceDiverged d => divergence_text d
  | StepLimitExceeded key limit actual allowed => "step '" +:+ key +:+ "' exceeds the " +:+ limit
      +:+ " limit: " +:+ pretty actual +:+ " > " +:+ pretty allowed
  | StepRefused m => m
  | Other m => m
  end%string.

(** ** The store as a map *)

(** What the store holds, key by key. *)
Definition settings_map (d : DB) : gmap string string := ds_value <$> db_dashboard_settings d.

(** Rows are stored under their own keys. *)
Definition settings_keyed (d : DB) : Prop :=
  map_Forall (fun k r => ds_key r = k) (db_dashboard_settings d).

Section refinement.
Context {E : Env} {G : Engine} `{!ScanComplete G}.

(** A write of one row. *)
Lemma settings_put k v now o d :
  settings_keyed d -> o = db_dashboard_settings d !! k ->
  let d' := set_dashboard_settings (<[k := from_option
    (fun r => mkDashboardSettingRow (ds_key r) v now) (mkDashboardSettingRow k v now) o]>
    (db_dashboard_settings d)) d in
  settings_keyed d' /\ settings_map d' = <[k := v]> (settings_map d).
Proof.
  intros Hk -> d'. split.
  - apply map_Forall_insert_2; [|done].
    destruct (db_dashboard_settings d !! k) as [r|] eqn:Hr; [|done]. exact (Hk _ _ Hr).
  - unfold settings_map. simpl. rewrite fmap_insert. f_equal.
    by destruct (db_dashboard_settings d !! k).
Qed.

Lemma get_setting_run k w :
  get_setting k w =
    ((if pool_ready (tick w) then Ok (settings_map (db w) !! k) else Err Pool), bump 1 w).
Proof.
  unfold get_setting, settings_map. rewrite lookup_fmap. destruct (pool_ready (tick w)) eqn:Hp.
  - by rewrite (bind_ok _ _ _ _ _ (conn_ok _ Hp)).
  - by rewrite (bind_err _ _ _ _ _ (conn_err _ Hp)).
Qed.

Lemma set_setting_run k v w :
  settings_keyed (db w) ->
  exists w', set_setting k v w = ((if pool_ready (tick w) then Ok tt else Err Pool), w')
    /\ (tick w <= tick w')%nat /\ settings_keyed (db w')
    /\ settings_map (db w') = (if pool_ready (tick w) then <[k := v]> (settings_map (db w))
                               else settings_map (db w)).
Proof.
  intros Hk. unfold set_setting. destruct (pool_ready (tick w)) eqn:Hp.
  2:{ exists (bump 1 w). rewrite (bind_err _ _ _ _ _ (conn_err _ Hp)). split_and!; [done|simpl; lia|done|done]. }
  rewrite (bind_ok _ _ _ _ _ (conn_ok _ Hp)). erewrite bind_ok by done.
  eexists. split; [done|]. split; [simpl; lia|]. by apply settings_put.
Qed.

Lemma set_setting_if_run k e v w :
  pool_ready (tick w) = true -> settings_keyed (db w) ->
  exists w', set_setting_if k e v w = (Ok (bool_decide (settings_map (db w) !! k = e)), w')
    /\ settings_keyed (db w')
    /\ settings_map (db w') = (if bool_decide (settings_map (db w) !! k = e)
         then <[k := v]> (settings_map (db w)) else settings_map (db w)).
Proof.
  intros Hp Hk. unfold set_setting_if. rewrite (bind_ok _ _ _ _ _ (conn_ok _ Hp)).
  erewrite bind_ok by done. set (now := Z.min _ _).
  assert (Hl : settings_map (db w) !! k = ds_value <$> db_dashboard_settings (db w) !! k)
    by (unfold settings_map; by rewrite lookup_fmap). rewrite Hl.
  pose proof (fun o Ho => settings_put k v now o (db w) Hk Ho) as Hput.
  destruct (db_dashboard_settings (db w) !! k) as [r|] eqn:Hr; destruct e as [e|]; simpl.
  - unfold mbind, M_bind, sql_update. simpl. rewrite Hr. case_bool_decide as Hv.
    + rewrite bool_decide_eq_true_2 by congruence. eexists. split; [done|]. exact (Hput _ eq_refl).
    + rewrite bool_decide_eq_false_2 by congruence. by eexists.
  - unfold mbind, M_bind, sql_insert_ignore. simpl. rewrite Hr. by eexists.
  - unfold mbind, M_bind, sql_update. simpl. rewrite Hr. by eexists.
  - unfold mbind, M_bind, sql_insert_ignore. simpl. rewrite Hr. simpl.
    replace (existsb _ _) with false by (symmetry; apply not_true_iff_false; rewrite existsb_exists; naive_solver).
    eexists. split; [done|]. exact (Hput _ eq_refl).
Qed.

Lemma list_settings_run w :
  pool_ready (tick w) = true -> settings_keyed (db w) ->
  list_settings w = (Ok (settings_map (db w)), bump 1 w).
Proof.
  intros Hp Hk. unfold list_settings. rewrite (bind_ok _ _ _ _ _ (conn_ok _ Hp)).
  erewrite bind_ok by done. unfold mret, M_ret. do 2 f_equal. cbn [t_get dashboard_settings db bump].
  rewrite filter_all by done. apply map_eq. intros k. unfold settings_map. rewrite lookup_fmap.
  set (m := db_dashboard_settings (db w)) in *.
  assert (Hnd : NoDup (((fun r => (ds_key r, ds_value r)) <$> scan m).*1)).
  { rewrite <- list_fmap_compose. by apply (scan_NoDup_key ds_key). }
  destruct (m !! k) as [r|] eqn:Hr; simpl.
  - apply elem_of_list_to_map; [done|]. apply list_elem_of_fmap. exists r.
    assert (ds_key r = k) as -> by exact (Hk _ _ Hr). split; [done|]. apply elem_of_scan. by exists k.
  - apply not_elem_of_list_to_map. rewrite <- list_fmap_compose.
    intros (r & -> & [k' Hk']%elem_of_scan)%list_elem_of_fmap. simpl in Hr.
    assert (ds_key r = k') as Heq by exact (Hk _ _ Hk'). congruence.
Qed.

(** the setting store is a map with compare-and-set.  Reads, writes, conditional
    writes, deletes and the listing act on the map from keys to values as lookup, insert,
    insert-if-equal, delete and the map itself; a conditional write answers whether it
    was the one that wrote, and of two writers that expect the same old value and write
    new ones only the first succeeds. *)
Theorem settings_refine_map k e v w :
  pool_ready (tick w) = true -> settings_keyed (db w) ->
  let m := settings_map (db w) in
  fst (get_setting k w) = Ok (m !! k)
  /\ fst (list_settings w) = Ok m
  /\ (let '(r, w') := set_setting k v w in
      r = Ok tt /\ settings_keyed (db w') /\ settings_map (db w') = <[k := v]> m)
  /\ (let '(r, w') := delete_setting k w in
      r = Ok (bool_decide (is_Some (m !! k))) /\ settings_keyed (db w')
      /\ settings_map (db w') = delete k m)
  /\ (let '(r, w') := set_setting_if k e v w in
      r = Ok (bool_decide (m !! k = e)) /\ settings_keyed (db w')
      /\ settings_map (db w') = (if bool_decide (m !! k = e) then <[k := v]> m else m)
      /\ forall v2 n, r = Ok true -> e <> Some v -> pool_ready n = true ->
           fst (set_setting_if k e v2 (mkWorld (db w') n)) = Ok false).
Proof.
  intros Hp Hk m. split_and!.
  - by rewrite get_setting_run, Hp.
  - by rewrite list_settings_run.
  - destruct (set_setting_run k v w Hk) as (w' & -> & _ & Hk' & Hm). by rewrite Hp in *.
  - unfold delete_setting. rewrite (bind_ok _ _ _ _ _ (conn_ok _ Hp)). unfold mbind, M_bind, sql_delete_pk.
    simpl. split_and!.
    + unfold m, settings_map. rewrite lookup_fmap. by destruct (db_dashboard_settings (db w) !! k).
    + by apply map_Forall_delete.
    + unfold m, settings_map. simpl. by rewrite fmap_delete.
  - destruct (set_setting_if_run k e v w Hp Hk) as (w' & -> & Hk' & Hm). fold m in Hm |- *.
    split_and!; [done|done|done|]. intros v2 n [= Heq] Hne Hn. rewrite Heq in Hm.
    destruct (set_setting_if_run k e v2 (mkWorld (db w') n) Hn Hk') as (w2 & -> & _). simpl.
    rewrite Hm, lookup_insert_eq. f_equal. apply bool_decide_eq_false_2. congruence.
Qed.
End refinement.

(** *** Example *)

Section examples.
#[local] Existing Instances demo_env demo_engine demo_scan_complete.

Lemma settings_refine_map_witness :
  let w := snd (set_setting "theme" "dark" demo_world) in
  settings_keyed (db w) /\ fst (get_setting "theme" w) = Ok (Some "dark"%string)
  /\ fst (set_setting_if "theme" (Some "dark"%string) "light" w) = Ok true.
Proof.
  intros w.
  destruct (settings_refine_map (E:=demo_env) (G:=demo_engine) "theme" None "dark" demo_world eq_refl (map_Forall_empty _))
    as (_ & _ & (_ & Hk & _) & _).
  destruct (settings_refine_map (E:=demo_env) (G:=demo_engine) "theme" (Some "dark"%string) "light" w eq_refl Hk)
    as (Hget & _ & _ & _ & Hif).
  split; [exact Hk|]. split; [exact Hget|].
  destruct (set_setting_if "theme" _ _ w) as [r w']. exact (proj1 Hif).
Defined.
End examples.
