(* ===== verification/Enqueue.v ===== *)
(** * Enqueueing ([diesel_common/jobs.rs], [sqlite/jobs.rs], [storage/mod.rs])

    The five ways a job enters the store: [enqueue], [enqueue_batch],
    [enqueue_debounced], [enqueue_unique] and [enqueue_unique_batch]. *)
From S2P Require Import Prelude Job Db Store.

(** [DebounceOptions] ([storage/records.rs]) *)
Record DebounceOptions := mkDebounceOptions {
  do_window_ms : Z;
  do_max_wait_ms : Z;
  do_replace_payload : bool;
  do_max_pending : option Z
}.

Definition DEBOUNCE_CANDIDATE_SCAN : Z := 8.
Definition BATCH_INSERT_CHUNK : nat := 50.
Definition MAX_ENQUEUE_ATTEMPTS : nat := 3.

Section enqueue.
Context {E : Env} {G : Engine}.

Definition enqueue (new_job : NewJob) : DbM Job :=
  let depends_on := nj_depends_on new_job in
  job ← into_job new_job;
  map_err dependency_not_found (write_transaction (
    validate_dependencies depends_on (j_namespace job) ;;
    insert_job_with_deps job depends_on)) ;;
  mret job.

(** The namespace of every job of the batch, by id. *)
Definition batch_namespaces (jobs : list Job) : gmap string (option string) :=
  foldl (fun m job => <[j_id job := j_namespace job]> m) ∅ jobs.

(** The transaction of [enqueue_batch]. *)
Definition enqueue_batch_txn (jobs' : list Job) (dep_lists : list (list string))
    : DbM (list Job) :=
  let batch_ns := batch_namespaces jobs' in
  for_each (fun '(job, depends_on) =>
    for_each (fun dep_id =>
      match batch_ns !! dep_id with
      | Some dep_ns =>
          if bool_decide (dep_ns = j_namespace job) then mret tt
          else throw (Storage RollbackTransaction)
      | None => validate_dependency dep_id (j_namespace job)
      end) depends_on) (zip jobs' dep_lists) ;;
  let rows := (fun job => new_job_row job (attribution_of job)) <$> jobs' in
  for_each (fun chunk =>
    for_each (fun row => sql_insert jobs (njr_id row) (inserted_row row)) chunk)
    (chunks BATCH_INSERT_CHUNK rows) ;;
  for_each (fun '(job, depends_on) =>
    insert_job_dependencies (j_id job) depends_on) (zip jobs' dep_lists) ;;
  mret jobs'.

Definition enqueue_batch (new_jobs : list NewJob) : DbM (list Job) :=
  let dep_lists := nj_depends_on <$> new_jobs in
  jobs' ← mapM into_job new_jobs;
  map_err dependency_not_found (write_transaction (enqueue_batch_txn jobs' dep_lists)).

(** *** Debounced enqueue *)

Definition validated_debounce_key (new_job : NewJob) (options : DebounceOptions)
    : Result QueueError string :=
  let key := default "" (nj_debounce_key new_job) in
  if bool_decide (key = "") then
    Err (Config "enqueue_debounced requires a non-empty debounce_key")
  else if do_window_ms options <=? 0 then
    Err (Config ("debounce window_ms must be positive, got "
                 +:+ pretty (do_window_ms options)))
  else if do_max_wait_ms options <? do_window_ms options then
    Err (Config ("debounce max_wait_ms (" +:+ pretty (do_max_wait_ms options)
                 +:+ ") must be at least window_ms ("
                 +:+ pretty (do_window_ms options) +:+ ")"))
  else
    match do_max_pending options with
    | Some cap =>
        if cap <? 0 then
          Err (Config ("debounce max_pending must be non-negative, got " +:+ pretty cap
                       +:+ " — an uncapped queue is `None`, not a negative cap"))
        else Ok key
    | None => Ok key
    end.

Definition from_result {A} (r : Result QueueError A) : DbM A := fun w => (r, w).

Definition lock_debounce_candidates (namespace : option string) (debounce_key : string)
    : DbM (list NarrowJobRow) :=
  l ← sql_select jobs (fun r =>
        bool_decide (jr_debounce_key r = Some debounce_key)
        && (jr_status r =? as_int Pending)
        && same_namespace (jr_namespace r) namespace);
  mret (narrow <$> sql_limit DEBOUNCE_CANDIDATE_SCAN
          (order_by (then_by (asc_Z jr_created_at) (asc_str jr_id)) l)).

Definition find_debounce_target (namespace : option string) (debounce_key : string)
    : DbM (option NarrowJobRow) :=
  candidates ← lock_debounce_candidates namespace debounce_key;
  if bool_decide (nw_id <$> candidates = []) then mret None
  else
    let ids := nw_id <$> candidates in
    claims ← sql_select execution_claims (fun c => mem (ec_job_id c) ids);
    let claimed := ec_job_id <$> claims in
    mret (List.find (fun row => negb (mem (nw_id row) claimed)) candidates).

(** The columns a debounced enqueue overwrites on the row it coalesces onto. *)
Definition debounce_slide (job : Job) (options : DebounceOptions) (created_at : Z)
    : JobRow -> JobRow :=
  let deadline := Z.min (j_scheduled_at job)
    (sat_add_i64 created_at (do_max_wait_ms options)) in
  if do_replace_payload options
  then fun r => jr_with_payload (j_payload job) (jr_with_scheduled_at deadline r)
  else fun r => jr_with_scheduled_at deadline r.

(** The transaction of [enqueue_debounced]. *)
Definition enqueue_debounced_txn (job : Job) (depends_on : list string)
    (options : DebounceOptions) (debounce_key : string) : DbM Job :=
  target ← find_debounce_target (j_namespace job) debounce_key;
  match target with
  | Some pending =>
      sql_update jobs (nw_id pending) (fun _ => true)
        (debounce_slide job options (nw_created_at pending)) ;;
      row ← sql_find jobs (nw_id pending);
      match row with
      | Some row => mret (job_of_row row)
      | None => throw (Storage NotFound)
      end
  | None =>
      validate_dependencies depends_on (j_namespace job) ;;
      match do_max_pending options with
      | Some cap =>
          pending ← sql_count jobs (fun r =>
            bool_decide (jr_queue r = j_queue job) && (jr_status r =? as_int Pending));
          if cap <? pending + 1 then throw (QueueFull (j_queue job) pending cap)
          else mret tt
      | None => mret tt
      end ;;
      insert_job_with_deps job depends_on ;;
      mret job
  end.

Definition enqueue_debounced (new_job : NewJob) (options : DebounceOptions) : DbM Job :=
  debounce_key ← from_result (validated_debounce_key new_job options);
  let depends_on := nj_depends_on new_job in
  job0 ← into_job new_job;
  now ← now_millis;
  let job := j_with_scheduled_at (sat_add_i64 now (do_window_ms options))
               (j_with_created_at now job0) in
  map_err dependency_not_found
    (write_transaction (enqueue_debounced_txn job depends_on options debounce_key)).

(** *** Unique enqueue *)

(** The transaction one attempt of [enqueue_unique_reporting] makes, and the step
    the batch variant repeats per job. *)
Definition enqueue_unique_step (job : Job) (depends_on : list string) : DbM (Job * bool) :=
  existing ← match j_unique_key job with
             | Some uk => find_active_by_unique_key uk (j_namespace job)
             | None => mret None
             end;
  match existing with
  | Some row => mret (job_of_row row, true)
  | None =>
      validate_dependencies depends_on (j_namespace job) ;;
      insert_job_with_deps job depends_on ;;
      mret (job, false)
  end.

Fixpoint enqueue_unique_attempts (attempts : nat) (job : Job) (depends_on : list string)
    : DbM (Job * bool) :=
  match attempts with
  | O => throw (Other "enqueue_unique: unique key contended across retries")
  | S attempts =>
      result ← attempt (write_transaction (enqueue_unique_step job depends_on));
      match result with
      | Ok j => mret j
      | Err (Storage UniqueViolation) =>
          match j_unique_key job with
          | Some uk =>
              conn ;;
              existing ← find_active_by_unique_key uk (j_namespace job);
              match existing with
              | Some row => mret (job_of_row row, true)
              | None => enqueue_unique_attempts attempts job depends_on
              end
          | None => enqueue_unique_attempts attempts job depends_on
          end
      | Err (Storage RollbackTransaction) =>
          throw (DependencyNotFound "dependency not found or already dead/cancelled")
      | Err e => throw e
      end
  end.

Definition enqueue_unique_reporting (new_job : NewJob) : DbM (Job * bool) :=
  let depends_on := nj_depends_on new_job in
  job ← into_job new_job;
  enqueue_unique_attempts MAX_ENQUEUE_ATTEMPTS job depends_on.

Definition enqueue_unique (new_job : NewJob) : DbM Job :=
  r ← enqueue_unique_reporting new_job; mret (fst r).

Fixpoint enqueue_unique_batch_attempts (attempts : nat) (prepared : list (Job * list string))
    : DbM (list (Job * bool)) :=
  match attempts with
  | O => throw (Other "enqueue_unique_batch: unique key contended across retries")
  | S attempts =>
      result ← attempt (write_transaction
        (mapM (fun '(job, depends_on) => enqueue_unique_step job depends_on) prepared));
      match result with
      | Ok v => mret v
      | Err (Storage UniqueViolation) => enqueue_unique_batch_attempts attempts prepared
      | Err (Storage RollbackTransaction) =>
          throw (DependencyNotFound "dependency not found or already dead/cancelled")
      | Err e => throw e
      end
  end.

Definition enqueue_unique_batch_reporting (new_jobs : list NewJob)
    : DbM (list (Job * bool)) :=
  prepared ← mapM (fun nj => job ← into_job nj; mret (job, nj_depends_on nj)) new_jobs;
  enqueue_unique_batch_attempts MAX_ENQUEUE_ATTEMPTS prepared.

Definition enqueue_unique_batch (new_jobs : list NewJob) : DbM (list Job) :=
  l ← enqueue_unique_batch_reporting new_jobs; mret (fst <$> l).

End enqueue.

(** ** Properties *)

(** The unique-key slot of the job is held by a stored row. *)
Definition slot_taken {E : Env} (d : DB) (job : Job) : bool :=
  existsb (slot_conflict (row_of job)) (map_to_list (db_jobs d)).*2.

Section properties.
Context {E : Env} {G : Engine} `{!UuidFresh E} `{!ScanComplete G}.

Lemma slot_taken_true d job :
  slot_taken d job = true <->
  exists k r, db_jobs d !! k = Some r /\ slot_conflict (row_of job) r = true.
Proof.
  unfold slot_taken. rewrite existsb_exists. split.
  - intros (r & Hr & Hc). apply list_elem_of_In, list_elem_of_fmap in Hr as ([k r'] & -> & Hk).
    exists k, r'. by apply elem_of_map_to_list in Hk.
  - intros (k & r & Hk & Hc). exists r. split; [|done].
    apply list_elem_of_In, list_elem_of_fmap. exists (k, r). by rewrite elem_of_map_to_list.
Qed.

Lemma slot_taken_false d job :
  (forall k r, db_jobs d !! k = Some r -> slot_conflict (row_of job) r = false) ->
  slot_taken d job = false.
Proof.
  intros H. apply not_true_iff_false. rewrite slot_taken_true.
  intros (k & r & Hk & Hc). by rewrite (H _ _ Hk) in Hc.
Qed.

(** The body shared by [enqueue] and the inserting branch of the others. *)
Lemma validate_insert_eq job deps w :
  wf w -> fresh_job job w -> (deps <> [] -> j_has_deps job = true) ->
  (validate_dependencies deps (j_namespace job) ;; insert_job_with_deps job deps) w =
    if forallb (valid_dep (db w) (j_namespace job)) deps then
      if slot_taken (db w) job then (Err (Storage UniqueViolation), w)
      else (Ok tt, inserted job deps w)
    else (Err (Storage RollbackTransaction), w).
Proof.
  intros Hwf Hf Hd. unfold mbind, M_bind. rewrite validate_dependencies_eq.
  destruct (forallb _ deps) eqn:Hv; [|done].
  destruct (insert_job_with_deps_cases job deps w) as [[-> Hc]|(-> & _ & Hc)]; try done.
  - apply slot_taken_true in Hc. by rewrite Hc.
  - by rewrite slot_taken_false.
Qed.

Lemma wf_inserted job deps w :
  wf w -> fresh_job job w -> (deps <> [] -> j_has_deps job = true) ->
  forallb (valid_dep (db w) (j_namespace job)) deps = true ->
  slot_taken (db w) job = false -> wf (inserted job deps w).
Proof.
  intros Hwf Hf Hd Hv Hs.
  destruct (insert_job_with_deps_cases job deps w) as [[_ Hc]|(_ & ? & _)]; try done.
  apply slot_taken_true in Hc. congruence.
Qed.

(** [enqueue] on every branch: the job enqueued, the world it leaves and the
    error it reports are determined by the pool, the dependencies and the slot. *)
Lemma enqueue_eq nj w :
  wf w ->
  let job := into_job_at (uuid_v7 (S (tick w))) (clock_at (tick w)) nj in
  enqueue nj w =
    if negb (pool_ready (2 + tick w)) then (Err Pool, bump 3 w)
    else if negb (forallb (valid_dep (db w) (nj_namespace nj)) (nj_depends_on nj)) then
      (Err (DependencyNotFound "dependency not found or already dead/cancelled"), bump 3 w)
    else if slot_taken (db w) job then (Err (Storage UniqueViolation), bump 3 w)
    else (Ok job, inserted job (nj_depends_on nj) (bump 3 w)).
Proof.
  intros Hwf job. unfold enqueue. erewrite bind_ok by apply into_job_eq. fold job.
  assert (Hf : fresh_job job (bump 3 w)) 
    by by apply (fresh_job_bump 1 _ (bump 2 w)), into_job_fresh.
  assert (Hd : nj_depends_on nj <> [] -> j_has_deps job = true) by apply into_job_has_deps.
  pose proof (validate_insert_eq job (nj_depends_on nj) (bump 3 w)
    (wf_bump 3 _ Hwf) Hf Hd) as Heq.
  change (db (bump 3 w)) with (db w) in Heq.
  change (nj_namespace nj) with (j_namespace job).
  unfold map_err. destruct (pool_ready (2 + tick w)) eqn:Hp; simpl.
  2:{ apply bind_err. by rewrite write_transaction_no_pool. }
  destruct (forallb _ _) eqn:Hv; simpl.
  - destruct (slot_taken _ _) eqn:Hs; simpl.
    + apply bind_err. by erewrite write_transaction_fail by done.
    + erewrite bind_ok; [done|]. by erewrite write_transaction_ok by done.
  - apply bind_err. by erewrite write_transaction_fail by done.
Qed.

(** *** Unique enqueue *)

Lemma unique_slot_row_of job :
  j_status job = Pending ->
  unique_slot (row_of job) = (fun k => (j_namespace job, k)) <$> j_unique_key job.
Proof. intros Hst. unfold unique_slot, row_of. simpl. by rewrite Hst. Qed.

Lemma unique_slot_spec r ns uk :
  unique_slot r = Some (ns, uk) <->
  is_active (jr_status r) = true /\ jr_namespace r = ns /\ jr_unique_key r = Some uk.
Proof.
  unfold unique_slot. destruct (is_active _); [|naive_solver].
  destruct (jr_unique_key r); naive_solver.
Qed.

Lemma find_active_cases uk ns w :
  (exists k r, find_active_by_unique_key uk ns w = (Ok (Some r), w)
     /\ db_jobs (db w) !! k = Some r /\ unique_slot r = Some (ns, uk))
  \/ (find_active_by_unique_key uk ns w = (Ok None, w)
      /\ forall k r, db_jobs (db w) !! k = Some r -> unique_slot r <> Some (ns, uk)).
Proof.
  unfold find_active_by_unique_key, mbind, M_bind. simpl.
  set (P := fun r => Is_true _). set (l := filter P (scan (db_jobs (db w)))).
  assert (HP : forall r, P r <-> unique_slot r = Some (ns, uk)).
  { intros r. rewrite unique_slot_spec. unfold P, same_namespace.
    rewrite !andb_True, !bool_decide_spec, Is_true_true. naive_solver. }
  assert (Hin : forall r, r ∈ l <-> P r /\ exists k, db_jobs (db w) !! k = Some r).
  { intros r. unfold l. by rewrite list_elem_of_filter, elem_of_scan. }
  destruct l as [|r l'].
  - right. split; [done|]. intros k r Hk Hs. apply HP in Hs.
    assert (r ∈ @nil JobRow) as []%elem_of_nil by (apply Hin; eauto).
  - left. destruct (proj1 (Hin r)) as [Hr [k Hk]]; [by left|].
    exists k, r. by rewrite <- HP.
Qed.

Lemma slot_free d job :
  j_status job = Pending ->
  (forall uk, j_unique_key job = Some uk ->
     forall k r, db_jobs d !! k = Some r -> unique_slot r <> Some (j_namespace job, uk)) ->
  slot_taken d job = false.
Proof.
  intros Hst Hfree. apply slot_taken_false. intros k r Hk. unfold slot_conflict.
  rewrite unique_slot_row_of by done. destruct (j_unique_key job) as [uk|]; [|done].
  simpl. apply bool_decide_eq_false. eauto.
Qed.

(** One attempt: the holder of the slot is returned and nothing is written, or
    the slot is free and the job is inserted or its dependencies are refused.  A
    unique violation is impossible. *)
Lemma enqueue_unique_step_cases job deps w :
  wf w -> fresh_job job w -> (deps <> [] -> j_has_deps job = true) ->
  (exists uk k r, j_unique_key job = Some uk /\ db_jobs (db w) !! k = Some r
     /\ unique_slot r = Some (j_namespace job, uk)
     /\ enqueue_unique_step job deps w = (Ok (job_of_row r, true), w))
  \/ (slot_taken (db w) job = false
      /\ enqueue_unique_step job deps w =
           if forallb (valid_dep (db w) (j_namespace job)) deps
           then (Ok (job, false), inserted job deps w)
           else (Err (Storage RollbackTransaction), w)).
Proof.
  intros Hwf Hf Hd. unfold enqueue_unique_step.
  assert (Htail : slot_taken (db w) job = false ->
    (validate_dependencies deps (j_namespace job) ;;
     insert_job_with_deps job deps ;; mret (job, false)) w
    = if forallb (valid_dep (db w) (j_namespace job)) deps
      then (Ok (job, false), inserted job deps w)
      else (Err (Storage RollbackTransaction), w)).
  { intros Hs. pose proof (validate_insert_eq job deps w Hwf Hf Hd) as Heq.
    unfold mbind, M_bind in *. destruct (validate_dependencies _ _ w) as [[[]|e] w1].
    - rewrite Heq, Hs. by destruct (forallb _ _).
    - rewrite Hs in Heq. destruct (forallb _ _); congruence. }
  destruct (j_unique_key job) as [uk|] eqn:Huk.
  - destruct (find_active_cases uk (j_namespace job) w)
      as [(k & r & Hfind & Hk & Hs)|[Hfind Hfree]].
    + left. exists uk, k, r. split_and!; try done. by erewrite bind_ok by done.
    + assert (slot_taken (db w) job = false).
      { apply slot_free; [apply Hf|]. rewrite Huk. by intros ? [= <-]. }
      right. split; [done|]. erewrite bind_ok by done. by apply Htail.
  - assert (slot_taken (db w) job = false).
    { apply slot_free; [apply Hf|]. by rewrite Huk. }
    right. split; [done|]. erewrite bind_ok by done. by apply Htail.
Qed.

(** The outcome of [enqueue_unique_reporting]: the bounded retry never runs out
    and the index never refuses the insert, whatever the slot holds. *)
Lemma enqueue_unique_reporting_cases nj w :
  wf w ->
  let job := into_job_at (uuid_v7 (S (tick w))) (clock_at (tick w)) nj in
  let w3 := bump 3 w in
  (pool_ready (2 + tick w) = false /\ enqueue_unique_reporting nj w = (Err Pool, w3))
  \/ (exists uk k r, nj_unique_key nj = Some uk /\ db_jobs (db w) !! k = Some r
        /\ unique_slot r = Some (nj_namespace nj, uk)
        /\ enqueue_unique_reporting nj w = (Ok (job_of_row r, true), w3))
  \/ (slot_taken (db w) job = false
      /\ forallb (valid_dep (db w) (nj_namespace nj)) (nj_depends_on nj) = false
      /\ enqueue_unique_reporting nj w =
           (Err (DependencyNotFound "dependency not found or already dead/cancelled"), w3))
  \/ (slot_taken (db w) job = false
      /\ forallb (valid_dep (db w) (nj_namespace nj)) (nj_depends_on nj) = true
      /\ enqueue_unique_reporting nj w =
           (Ok (job, false), inserted job (nj_depends_on nj) w3)
      /\ wf (inserted job (nj_depends_on nj) w3)).
Proof.
  intros Hwf job w3. unfold enqueue_unique_reporting.
  erewrite bind_ok by apply into_job_eq. fold job.
  assert (Hf : fresh_job job w3) by by apply (fresh_job_bump 1 _ (bump 2 w)), into_job_fresh.
  assert (Hd : nj_depends_on nj <> [] -> j_has_deps job = true) by apply into_job_has_deps.
  assert (Hwf3 : wf w3) by by apply wf_bump.
  cbn [enqueue_unique_attempts MAX_ENQUEUE_ATTEMPTS].
  destruct (pool_ready (2 + tick w)) eqn:Hp.
  2:{ left. split; [done|]. unfold attempt.
      erewrite bind_ok; [|by rewrite write_transaction_no_pool]. done. }
  right. unfold attempt.
  destruct (enqueue_unique_step_cases job (nj_depends_on nj) w3 Hwf3 Hf Hd)
    as [(uk & k & r & Huk & Hk & Hs & Heq)|[Hs Heq]].
  - left. exists uk, k, r. split_and!; try done.
    erewrite bind_ok; [|by erewrite write_transaction_ok by done]. done.
  - right. change (nj_namespace nj) with (j_namespace job).
    change (db w3) with (db w) in *.
    destruct (forallb _ _) eqn:Hv; [right|left].
    + split_and!; [done..| |by apply wf_inserted].
      erewrite bind_ok; [|by erewrite write_transaction_ok by done]. done.
    + split_and!; [done..|].
      erewrite bind_ok; [|by erewrite write_transaction_fail by done]. done.
Qed.

(** *** Batches *)

(** The jobs still to insert: fresh, and no two with one id. *)
Definition all_fresh (jobs : list Job) (w : World) : Prop :=
  NoDup (j_id <$> jobs) /\ Forall (fun j => fresh_job j w) jobs.

Lemma mapM_into_job_cases njs w :
  wf w ->
  exists js, mapM into_job njs w = (Ok js, bump (2 * length njs) w)
    /\ all_fresh js (bump (2 * length njs) w)
    /\ Forall (fun j => exists i, (tick w < i)%nat /\ j_id j = uuid_v7 i) js
    /\ Forall2 (fun nj j => exists id now, j = into_job_at id now nj) njs js.
Proof.
  revert w. induction njs as [|nj njs IH]; intros w Hwf.
  - exists []. split_and!; [by destruct w|split; constructor|constructor..].
  - destruct (IH (bump 2 w) (wf_bump 2 _ Hwf)) as (js & Heq & [Hnd Hfr] & Hid & Hf2).
    set (j := into_job_at (uuid_v7 (S (tick w))) (clock_at (tick w)) nj).
    exists (j :: js). cbn [mapM length]. rewrite (bind_ok _ _ _ _ _ (into_job_eq nj w)).
    assert (Hb : bump (2 * length njs) (bump 2 w) = bump (2 * S (length njs)) w).
    { unfold bump. simpl. f_equal. lia. }
    assert (Hj : fresh_job j (bump (2 * length njs) (bump 2 w)))
      by by apply fresh_job_bump, into_job_fresh.
    rewrite Hb in Heq, Hfr, Hj. rewrite (bind_ok _ _ _ _ _ Heq).
    split_and!; [done| | |].
    + split; simpl; constructor; [|done| |done].
      * rewrite list_elem_of_fmap. intros (j' & Hj' & Hin).
        rewrite Forall_forall in Hid. destruct (Hid _ Hin) as (i & Hi & Heqi).
        rewrite Heqi in Hj'. apply uuid_v7_inj in Hj'. simpl in Hi. lia.
      * exact Hj.
    + constructor; [exists (S (tick w)); split; [lia|done]|].
      eapply Forall_impl; [done|]. intros j' (i & Hi & ?). exists i. simpl in Hi.
      split; [lia|done].
    + constructor; [by do 2 eexists|done].
Qed.

Lemma all_fresh_bump n js w : all_fresh js w -> all_fresh js (bump n w).
Proof.
  intros [? Hf]. split; [done|]. eapply Forall_impl; [done|].
  intros j ?. by apply fresh_job_bump.
Qed.

(** After [done] of the batch is inserted and [rest] is left: the rows are in
    place, the rest is still fresh, and every namespace known in [d0] still is. *)
Definition batch_inserted (d0 : DB) (done rest : list Job) (w : World) : Prop :=
  wf w /\ all_fresh rest w
  /\ Forall (fun j => j_id j ∉ (j_id <$> rest)) done
  /\ Forall (fun j => db_jobs (db w) !! j_id j = Some (row_of j)) done
  /\ db_archived_jobs (db w) = db_archived_jobs d0
  /\ db_job_dependencies (db w) = db_job_dependencies d0
  /\ (forall id r, db_jobs d0 !! id = Some r -> db_jobs (db w) !! id = Some r).

Lemma insert_rows_wp d0 rest done w :
  batch_inserted d0 done rest w ->
  wp (for_each (fun j => sql_insert jobs (j_id j) (row_of j)) rest)
    (fun _ => batch_inserted d0 (done ++ rest) [])
    (fun _ _ => True) w.
Proof.
  revert done w. induction rest as [|j rest IH]; intros dn w HI; simpl.
  { by rewrite app_nil_r. }
  destruct HI as (Hwf & [Hnd Hfr] & Hne & Hdn & HA & HD & Hold).
  apply NoDup_cons in Hnd as [Hj Hnd]. apply Forall_cons in Hfr as [Hfj Hfr].
  destruct Hfj as (Hst & i & Hi & Hid & HJ & HAj).
  apply wp_bind. unfold wp at 1.
  destruct (sql_insert_inv jobs (j_id j) (row_of j) w) as [->|(_ & Hc & ->)]; [done|].
  rewrite (assoc_L (++) dn [j] rest : dn ++ j :: rest = (dn ++ [j]) ++ rest).
  apply IH. split_and!; simpl.
  - unfold wf. simpl. apply (wf_insert_live _ _ _ _ _ i); try done.
    unfold row_of. simpl. by rewrite Hst.
  - split; [done|]. apply Forall_forall. intros j' Hin. rewrite Forall_forall in Hfr.
    destruct (Hfr _ Hin) as (? & i' & ? & ? & HJ' & ?). split; [done|]. exists i'.
    split_and!; try done. simpl. rewrite lookup_insert_ne; [done|]. intros Heq.
    apply Hj. rewrite Heq. by apply list_elem_of_fmap_2.
  - apply Forall_app. split; [|by constructor]. eapply Forall_impl; [exact Hne|].
    intros j' Hj'. by apply not_elem_of_cons in Hj' as [_ ?].
  - apply Forall_app. split; [|constructor; [by rewrite lookup_insert_eq|done]].
    rewrite Forall_forall in Hne, Hdn. apply Forall_forall. intros j' Hin.
    rewrite lookup_insert_ne; [by apply Hdn|]. intros Heq. apply (Hne _ Hin).
    rewrite <- Heq. left.
  - done.
  - done.
  - intros id r Hr. rewrite lookup_insert_ne; [by apply Hold|]. intros <-.
    specialize (Hold _ _ Hr). congruence.
Qed.

Lemma batch_namespaces_Some js id ns :
  batch_namespaces js !! id = Some ns ->
  exists j, j ∈ js /\ j_id j = id /\ j_namespace j = ns.
Proof.
  unfold batch_namespaces. induction js as [|j js IH] using rev_ind; [done|].
  rewrite foldl_snoc. intros [[<- <-]|[_ Hl]]%lookup_insert_Some.
  - exists j. rewrite elem_of_app, list_elem_of_singleton. auto.
  - destruct (IH Hl) as (j' & ? & ?). exists j'. rewrite elem_of_app. auto.
Qed.

(** What the batch's validation accepts for one dependency. *)
Definition batch_dep_ok (d : DB) (js : list Job) (ns : option string) (dep : string) : bool :=
  match batch_namespaces js !! dep with
  | Some dep_ns => bool_decide (dep_ns = ns)
  | None => valid_dep d ns dep
  end.

(** All rows are stored as [J] and [A]; the edges of [dn] are written. *)
Definition edges_written (d0 : DB) (J : gmap string JobRow) (A : gmap string ArchivedJobRow)
    (dn : list (Job * list string)) (w : World) : Prop :=
  wf w /\ db_jobs (db w) = J /\ db_archived_jobs (db w) = A
  /\ (forall k e, db_job_dependencies d0 !! k = Some e ->
        db_job_dependencies (db w) !! k = Some e)
  /\ Forall (fun '(j, deps) => forall dep, dep ∈ deps ->
        exists k e, db_job_dependencies (db w) !! k = Some e
          /\ dep_job_id e = j_id j /\ dep_depends_on_job_id e = dep) dn.

Lemma insert_edges_wp d0 J A rest dn w :
  Forall (fun '(j, deps) => J !! j_id j = Some (row_of j)
    /\ (deps <> [] -> j_has_deps j = true)
    /\ Forall (fun dep => ns_of J A dep = Some (j_namespace j)) deps) rest ->
  edges_written d0 J A dn w ->
  wp (for_each (fun '(j, deps) => insert_job_dependencies (j_id j) deps) rest)
    (fun _ => edges_written d0 J A (dn ++ rest)) (fun _ _ => False) w.
Proof.
  revert dn w. induction rest as [|[j deps] rest IH]; intros dn w Hok HI; simpl.
  { by rewrite app_nil_r. }
  apply Forall_cons in Hok as [(HJ & Hd & Hns) Hok].
  destruct HI as (Hwf & HJw & HAw & Hold & Hdn).
  apply wp_bind. unfold wp at 1.
  rewrite insert_job_dependencies_eq by apply Hwf.
  rewrite (assoc_L (++) dn [(j, deps)] rest : dn ++ (j, deps) :: rest = (dn ++ [(j, deps)]) ++ rest).
  apply IH; [done|]. split_and!; simpl; try done.
  - unfold wf. simpl. eapply wf_insert_edges; [done|by rewrite HJw|done|].
    by rewrite HJw, HAw.
  - intros k e He. apply insert_edges_old; [apply Hwf|by apply Hold].
  - apply Forall_app. split.
    + eapply Forall_impl; [exact Hdn|]. intros [j' deps'] Hj' dep Hdep.
      destruct (Hj' dep Hdep) as (k & e & Hk & ?). exists k, e. split; [|done].
      apply insert_edges_old; [apply Hwf|done].
    + constructor; [|done]. intros dep Hdep. apply insert_edges_new; [apply Hwf|done].
Qed.

(** The batch's checks, in one test. *)
Definition batch_ok (d : DB) (js : list Job) (pairs : list (Job * list string)) : bool :=
  forallb (fun '(j, deps) => forallb (batch_dep_ok d js (j_namespace j)) deps) pairs.

Lemma enqueue_batch_txn_wp js dls w :
  wf w -> all_fresh js w ->
  Forall (fun '(j, deps) => deps <> [] -> j_has_deps j = true) (zip js dls) ->
  wp (enqueue_batch_txn js dls)
    (fun js' w' => js' = js /\ batch_ok (db w) js (zip js dls) = true
      /\ Forall (fun j => db_jobs (db w') !! j_id j = Some (row_of j)) js
      /\ (forall id r, db_jobs (db w) !! id = Some r -> db_jobs (db w') !! id = Some r)
      /\ edges_written (db w) (db_jobs (db w')) (db_archived_jobs (db w)) (zip js dls) w')
    (fun _ _ => True) w.
Proof.
  intros Hwf Hfr Hd. unfold enqueue_batch_txn. apply wp_bind. unfold wp at 1.
  rewrite (for_each_check _ (fun '(j, deps) => forallb (batch_dep_ok (db w) js (j_namespace j)) deps)
    (Storage RollbackTransaction)).
  2:{ intros [j deps]. apply for_each_check. intros dep. unfold batch_dep_ok.
      destruct (_ !! dep) as [ns|]; [by case_bool_decide|apply validate_dependency_eq]. }
  fold (batch_ok (db w) js (zip js dls)).
  destruct (batch_ok _ _ _) eqn:Hok; [|done].
  apply wp_bind. unfold wp at 1.
  rewrite for_each_concat, chunks_concat by (unfold BATCH_INSERT_CHUNK; lia).
  rewrite for_each_fmap.
  assert (Hwp : wp (for_each (fun j => sql_insert jobs (j_id j) (row_of j)) js)
    (fun _ => batch_inserted (db w) ([] ++ js) []) (fun _ _ => True) w).
  { apply insert_rows_wp. split_and!; try done. }
  unfold wp in Hwp at 1. change (fun x => sql_insert jobs _ _) with
    (fun j => sql_insert jobs (j_id j) (row_of j)).
  destruct (for_each _ js w) as [[[]|e] w1]; [|done].
  destruct Hwp as (Hwf1 & _ & _ & Hin & HA & HD & Hold). simpl in Hin.
  apply wp_bind. eapply wp_mono; [apply (insert_edges_wp (db w1) (db_jobs (db w1))
    (db_archived_jobs (db w1)) _ [])| |].
  - apply Forall_forall. intros [j deps] Hjd. rewrite Forall_forall in Hd. rewrite Forall_forall in Hin.
    assert (Hj : j ∈ js) by by eapply elem_of_zip_l.
    split_and!; [by apply Hin|by apply (Hd _ Hjd)|].
    apply Forall_forall. intros dep Hdep.
    unfold batch_ok in Hok. rewrite forallb_forall in Hok.
    pose proof (Hok _ (proj1 (list_elem_of_In _ _) Hjd)) as Hok'. simpl in Hok'.
    rewrite forallb_forall in Hok'.
    pose proof (Hok' _ (proj1 (list_elem_of_In _ _) Hdep)) as Hdok.
    unfold batch_dep_ok in Hdok. destruct (_ !! dep) as [ns|] eqn:Hb.
    + apply bool_decide_eq_true in Hdok as ->.
      apply batch_namespaces_Some in Hb as (j' & Hj' & <- & <-).
      unfold ns_of. by rewrite (Hin _ Hj').
    + apply valid_dep_ns in Hdok. unfold ns_of in *. rewrite HA.
      destruct (db_jobs (db w) !! dep) as [r|] eqn:Hr; [by rewrite (Hold _ _ Hr)|].
      destruct (db_jobs (db w1) !! dep) as [r|] eqn:Hr1; [|done].
      assert (HN : db_archived_jobs (db w1) !! dep = None)
        by (eapply (wf_disjoint _ _ _ _ _ Hwf1); by eexists).
      rewrite HA in HN. by rewrite HN in Hdok.
  - split_and!; try done.
  - intros [] w2 HI. destruct HI as (Hwf2 & HJ & HA2 & Hold2 & Hdn).
    simpl. unfold wp. simpl. rewrite HJ. split_and!; try done.
    split_and!; try done; [congruence|]. by rewrite <- HD.
  - done.
Qed.

(** *** Batches of unique jobs *)

Lemma fresh_job_inserted job deps j w :
  j_id j <> j_id job -> fresh_job j w -> fresh_job j (inserted job deps w).
Proof.
  intros Hne (Hst & i & Hi & Hid & HJ & HA). split; [done|]. exists i. simpl.
  split_and!; try done; [lia|]. by rewrite lookup_insert_ne.
Qed.

Lemma row_of_into_job id now nj : job_of_row (row_of (into_job_at id now nj))
  = into_job_at id now nj.
Proof. done. Qed.

(** A prepared request: its row reads back as the job, and the flag agrees with
    the dependency list. *)
Definition prepared_ok (p : Job * list string) : Prop :=
  job_of_row (row_of (fst p)) = fst p /\ (snd p <> [] -> j_has_deps (fst p) = true).

(** What one answer of a unique enqueue promises of the world it leaves: the job
    returned is stored, it holds the requested slot, and it is the submitted job
    unless it is reported as a duplicate. *)
Definition unique_answer (w : World) (p : Job * list string) (a : Job * bool) : Prop :=
  exists r, db_jobs (db w) !! j_id (fst a) = Some r /\ job_of_row r = fst a
    /\ (forall uk, j_unique_key (fst p) = Some uk ->
          unique_slot r = Some (j_namespace (fst p), uk))
    /\ (snd a = false -> fst a = fst p).

Lemma unique_answer_mono w w' p a :
  (forall id r, db_jobs (db w) !! id = Some r -> db_jobs (db w') !! id = Some r) ->
  unique_answer w p a -> unique_answer w' p a.
Proof. intros Hold (r & Hr & ?). exists r. split; [by apply Hold|done]. Qed.

Lemma enqueue_unique_step_wp job deps w :
  wf w -> fresh_job job w -> prepared_ok (job, deps) ->
  wp (enqueue_unique_step job deps)
    (fun a w' => wf w' /\ unique_answer w' (job, deps) a
      /\ (forall id r, db_jobs (db w) !! id = Some r -> db_jobs (db w') !! id = Some r)
      /\ (forall j, j_id j <> j_id job -> fresh_job j w -> fresh_job j w'))
    (fun e _ => e = Storage RollbackTransaction) w.
Proof.
  intros Hwf Hf [Hrt Hd]. simpl in *. unfold wp.
  destruct (enqueue_unique_step_cases job deps w Hwf Hf Hd)
    as [(uk & k & r & Huk & Hk & Hs & ->)|[Hs ->]].
  - split_and!; try done. exists r. simpl.
    rewrite (wf_live_key _ _ _ _ _ Hwf _ _ Hk). split_and!; try done. congruence.
  - destruct (forallb _ _) eqn:Hv; [|done].
    split_and!; [by apply wf_inserted| | |].
    + exists (row_of job). simpl. rewrite lookup_insert_eq. split_and!; try done.
      intros uk Huk. rewrite unique_slot_row_of by apply Hf. by rewrite Huk.
    + intros id r Hr. simpl. rewrite lookup_insert_ne; [done|]. intros <-.
      destruct Hf as (_ & i & _ & _ & HJ & _). congruence.
    + intros j Hne. by apply fresh_job_inserted.
Qed.

Lemma enqueue_unique_mapM_wp prepared w :
  wf w -> all_fresh prepared.*1 w -> Forall prepared_ok prepared ->
  wp (mapM (fun '(job, deps) => enqueue_unique_step job deps) prepared)
    (fun out w' => wf w' /\ Forall2 (unique_answer w') prepared out
      /\ forall id r, db_jobs (db w) !! id = Some r -> db_jobs (db w') !! id = Some r)
    (fun e _ => e = Storage RollbackTransaction) w.
Proof.
  revert w. induction prepared as [|[job deps] prepared IH]; intros w Hwf [Hnd Hfr] Hok.
  { apply wp_ret. split_and!; [done|constructor|done]. }
  simpl. apply wp_bind. simpl in *.
  apply NoDup_cons in Hnd as [Hj Hnd]. apply Forall_cons in Hfr as [Hfj Hfr].
  apply Forall_cons in Hok as [Hok1 Hok].
  eapply wp_mono; [by apply enqueue_unique_step_wp| |done].
  intros a w1 (Hwf1 & Ha & Hold1 & Hfr1). apply wp_bind.
  eapply wp_mono; [apply IH; [done| |done]| |done].
  - split; [done|]. apply Forall_forall. intros j Hin. rewrite Forall_forall in Hfr.
    apply Hfr1; [|by apply Hfr]. intros Heq. apply Hj. rewrite <- Heq.
    by apply list_elem_of_fmap_2.
  - intros out w2 (Hwf2 & Hout & Hold2). apply wp_ret. split_and!; [done| |by eauto].
    constructor; [by eapply unique_answer_mono|done].
Qed.

Lemma prepare_cases njs w :
  wf w ->
  exists ps, mapM (fun nj => job ← into_job nj; mret (job, nj_depends_on nj)) njs w
      = (Ok ps, bump (2 * length njs) w)
    /\ all_fresh ps.*1 (bump (2 * length njs) w) /\ Forall prepared_ok ps
    /\ Forall2 (fun nj p => snd p = nj_depends_on nj
         /\ exists id now, fst p = into_job_at id now nj) njs ps.
Proof.
  intros Hwf. destruct (mapM_into_job_cases njs w Hwf) as (js & Heq & Hfr & _ & Hf2).
  exists (zip js (nj_depends_on <$> njs)).
  assert (Hlen : length js = length (nj_depends_on <$> njs)).
  { rewrite length_fmap. symmetry. by eapply Forall2_length. }
  rewrite fst_zip by lia. split_and!; [|done| |].
  - clear Hfr Hf2 Hwf. revert w js Heq Hlen.
    induction njs as [|nj njs IH]; intros w js Heq Hlen; simpl in *.
    { destruct js; [|done]. by injection Heq as <-. }
    destruct js as [|j js]; [done|].
    rewrite (bind_ok _ _ _ _ _ (into_job_eq nj w)) in Heq.
    apply bind_inv in Heq as [(js' & w1 & Hm & Heq)|(e & _ & [=])].
    injection Heq as <- <- Hw.
    erewrite bind_ok; [|by erewrite bind_ok by apply into_job_eq].
    assert (Hb : w1 = bump (2 * length njs) (bump 2 w)).
    { rewrite Hw. unfold bump. simpl. f_equal. lia. }
    rewrite Hb in Hm. erewrite bind_ok; [|apply (IH _ _ Hm); by injection Hlen].
    change (bump _ (bump 2 w)) with (bump (2 * length njs) (bump 2 w)). by rewrite <- Hb, Hw.
  - clear Heq Hfr Hlen. induction Hf2 as [|nj j njs js (id & now & ->) Hf2 IH]; simpl;
      constructor; [|done]. split; [done|]. apply into_job_has_deps.
  - clear Heq Hfr Hlen. induction Hf2 as [|nj j njs js (id & now & ->) Hf2 IH]; simpl;
      constructor; [|done]. split; [done|]. by do 2 eexists.
Qed.

(** *** Debounced enqueue *)

(** A row a debounced enqueue may slide. *)
Definition debounce_row (d : DB) (ns : option string) (key : string) (r : JobRow) : Prop :=
  db_jobs d !! jr_id r = Some r /\ jr_debounce_key r = Some key
  /\ jr_status r = as_int Pending /\ jr_namespace r = ns.

Definition claimed (d : DB) (id : string) : Prop :=
  exists k c, db_execution_claims d !! k = Some c /\ ec_job_id c = id.

Lemma lock_debounce_candidates_eq ns key w :
  wf w ->
  exists l, lock_debounce_candidates ns key w = (Ok (narrow <$> sql_limit DEBOUNCE_CANDIDATE_SCAN l), w)
    /\ forall r, r ∈ l <-> debounce_row (db w) ns key r.
Proof.
  intros Hwf. eexists. split; [done|]. intros r.
  rewrite order_by_elem_of, list_elem_of_filter, elem_of_scan.
  rewrite !andb_True, bool_decide_spec, Is_true_true, Z.eqb_eq.
  unfold same_namespace. rewrite bool_decide_spec. unfold debounce_row. split.
  - intros ([[? ?] ?] & k & Hk). by rewrite (wf_live_key _ _ _ _ _ Hwf _ _ Hk).
  - intros (? & ? & ? & ?). split; [done|]. by eexists.
Qed.

Lemma find_debounce_target_cases ns key w :
  wf w ->
  (exists r, debounce_row (db w) ns key r /\ ~ claimed (db w) (jr_id r)
     /\ find_debounce_target ns key w = (Ok (Some (narrow r)), w))
  \/ (find_debounce_target ns key w = (Ok None, w)
      /\ forall r, debounce_row (db w) ns key r -> ~ claimed (db w) (jr_id r) ->
           ~ (forall r', debounce_row (db w) ns key r' -> r' = r)).
Proof.
  intros Hwf. destruct (lock_debounce_candidates_eq ns key w Hwf) as (l & Heq & Hl).
  unfold find_debounce_target. rewrite (bind_ok _ _ _ _ _ Heq).
  set (cs := sql_limit DEBOUNCE_CANDIDATE_SCAN l).
  assert (Hlone : forall r, r ∈ l -> (forall r', r' ∈ l -> r' = r) -> r ∈ cs).
  { intros r Hr Hall. destruct l as [|x l']; [by apply elem_of_nil in Hr|].
    rewrite <- (Hall x) by left. unfold cs. by left. }
  case_bool_decide as Hnil.
  - right. split; [done|]. intros r Hr _ Hall.
    assert (Hrc : r ∈ cs).
    { apply Hlone; [by apply Hl|]. intros r' Hr'. by apply Hall, Hl. }
    destruct cs as [|x cs']; [by apply elem_of_nil in Hrc|done].
  - set (claims := ec_job_id <$> filter (fun c => Is_true (mem (ec_job_id c)
      (nw_id <$> (narrow <$> cs)))) (scan (db_execution_claims (db w)))).
    assert (Hcl : forall r, r ∈ cs -> mem (nw_id (narrow r)) claims = true
      <-> claimed (db w) (jr_id r)).
    { intros r Hr. unfold mem. rewrite bool_decide_eq_true. unfold claims.
      rewrite list_elem_of_fmap. split.
      - intros (c & Hc & [_ [k Hk]%elem_of_scan]%list_elem_of_filter). by exists k, c.
      - intros (k & c & Hk & Hc). exists c. split; [done|].
        apply list_elem_of_filter. split; [|apply elem_of_scan; by eexists].
        unfold mem. rewrite bool_decide_spec, Hc. change (jr_id r) with (nw_id (narrow r)).
        by do 2 apply list_elem_of_fmap_2. }
    set (res := (mbind (M:=DbM) _ _) w).
    assert (Hres : res = (Ok (List.find (fun row => negb (mem (nw_id row) claims))
      (narrow <$> cs)), w)) by done.
    rewrite Hres. clear res Hres.
    destruct (List.find (fun row => negb (mem (nw_id row) claims)) (narrow <$> cs))
      as [x|] eqn:Hfind.
    + left. apply find_some in Hfind as [Hin Hneg].
      apply list_elem_of_In, list_elem_of_fmap in Hin as (r & -> & Hin).
      exists r. split_and!; [|intros Hm%Hcl; [by rewrite Hm in Hneg|done]|done].
      apply Hl. by eapply sql_limit_elem_of.
    + right. split; [done|]. intros r Hr Hnc Hall. assert (Hrc : r ∈ cs).
      { apply Hlone; [by apply Hl|]. intros r' Hr'. by apply Hall, Hl. }
      apply Hnc, (Hcl r Hrc).
      apply negb_false_iff, (find_none _ _ Hfind), list_elem_of_In.
      by apply list_elem_of_fmap_2.
Qed.

Lemma debounce_slide_identity job opts c r : same_identity r (debounce_slide job opts c r).
Proof. unfold debounce_slide. by destruct (do_replace_payload opts). Qed.

Lemma debounce_slide_status job opts c r :
  jr_status (debounce_slide job opts c r) = jr_status r
  /\ jr_created_at (debounce_slide job opts c r) = jr_created_at r
  /\ jr_scheduled_at (debounce_slide job opts c r)
     = Z.min (j_scheduled_at job) (sat_add_i64 c (do_max_wait_ms opts)).
Proof. unfold debounce_slide. by destruct (do_replace_payload opts). Qed.

(** The two ways a debounced enqueue succeeds: it slides the pending row, or it
    finds no row to slide and inserts the job. *)
Definition debounce_slid (w : World) (job : Job) (opts : DebounceOptions) (key : string)
    (answer : Job) (w' : World) : Prop :=
  exists row, debounce_row (db w) (j_namespace job) key row
    /\ ~ claimed (db w) (jr_id row)
    /\ (let row' := debounce_slide job opts (jr_created_at row) row in
        answer = job_of_row row'
        /\ db w' = set_jobs (<[jr_id row := row']> (db_jobs (db w))) (db w)).

Definition debounce_inserted (w : World) (job : Job) (deps : list string)
    (opts : DebounceOptions) (key : string) (answer : Job) (w' : World) : Prop :=
  answer = job /\ w' = inserted job deps w
  /\ forallb (valid_dep (db w) (j_namespace job)) deps = true
  /\ slot_taken (db w) job = false
  /\ (forall cap, do_max_pending opts = Some cap ->
        count (filter (fun r => jr_queue r = j_queue job /\ jr_status r = as_int Pending)
          (scan (db_jobs (db w)))) < cap)
  /\ (forall row, debounce_row (db w) (j_namespace job) key row ->
        ~ claimed (db w) (jr_id row) ->
        ~ (forall row', debounce_row (db w) (j_namespace job) key row' -> row' = row)).

Lemma enqueue_debounced_txn_wp job deps opts key w :
  wf w -> fresh_job job w -> (deps <> [] -> j_has_deps job = true) ->
  wp (enqueue_debounced_txn job deps opts key)
    (fun answer w' => wf w' /\ (debounce_slid w job opts key answer w'
       \/ debounce_inserted w job deps opts key answer w'))
    (fun _ _ => True) w.
Proof.
  intros Hwf Hf Hd. unfold enqueue_debounced_txn. apply wp_bind. unfold wp at 1.
  destruct (find_debounce_target_cases (j_namespace job) key w Hwf)
    as [(r & Hr & Hnc & ->)|[-> Hnone]].
  - destruct Hr as (Hk & Hkey & Hst & Hns).
    apply wp_bind. unfold wp at 1, sql_update. simpl. rewrite Hk.
    set (r' := debounce_slide job opts (jr_created_at r) r).
    unfold wp, mbind, M_bind. simpl. rewrite lookup_insert_eq. simpl. split.
    + unfold wf. simpl. eapply wf_update_live; [done|done|apply debounce_slide_identity| |];
        unfold r'; destruct (debounce_slide_status job opts (jr_created_at r) r)
          as (Hs & _); by rewrite Hs, Hst.
    + left. exists r. by split_and!.
  - apply wp_bind. unfold wp at 1. rewrite validate_dependencies_eq.
    destruct (forallb _ _) eqn:Hv; [|done].
    assert (Hins : wp (insert_job_with_deps job deps ;; mret job)
        (fun answer w' => wf w' /\ answer = job /\ w' = inserted job deps w
          /\ slot_taken (db w) job = false) (fun _ _ => True) w).
    { apply wp_bind. unfold wp at 1.
      destruct (insert_job_with_deps_cases job deps w) as [[-> _]|(-> & ? & Hc)]; try done.
      apply wp_ret. pose proof (slot_taken_false _ _ Hc). split_and!; auto. }
    destruct (do_max_pending opts) as [cap|] eqn:Hcap.
    + apply wp_bind. unfold wp at 1, sql_count, sql_select, mbind, M_bind, gets. simpl.
      match goal with |- context [if cap <? ?n then _ else _] => destruct (Z.ltb_spec cap n) end;
        [done|]. change (t_get jobs (db w)) with (db_jobs (db w)) in *. simpl.
      eapply wp_mono; [apply Hins| |done].
      intros answer w' (? & ? & ? & ?). split; [done|]. right.
      split_and!; try done. rewrite Hcap. intros cap' [= <-].
      erewrite list_filter_iff; [apply Z.le_succ_l; eassumption|].
      intros r. simpl. by rewrite andb_True, bool_decide_spec, Is_true_true, Z.eqb_eq.
    + simpl. eapply wp_mono; [apply Hins| |done].
      intros answer w' (? & ? & ? & ?). split; [done|]. right.
      split_and!; try done. by rewrite Hcap.
Qed.

(** *** Statements *)

(** C1: [enqueue] on every branch.  A missing connection, an invalid dependency
    and an occupied unique slot each report their own error and leave the database
    untouched; otherwise the job is stored and reads back as returned, with exactly
    the dependency edges it asked for.  The table invariant is kept either way. *)
Theorem enqueue_spec nj w :
  wf w ->
  let job := into_job_at (uuid_v7 (S (tick w))) (clock_at (tick w)) nj in
  enqueue nj w =
    (if negb (pool_ready (2 + tick w)) then (Err Pool, bump 3 w)
     else if negb (forallb (valid_dep (db w) (nj_namespace nj)) (nj_depends_on nj)) then
       (Err (DependencyNotFound "dependency not found or already dead/cancelled"), bump 3 w)
     else if slot_taken (db w) job then (Err (Storage UniqueViolation), bump 3 w)
     else (Ok job, inserted job (nj_depends_on nj) (bump 3 w)))
  /\ wf (snd (enqueue nj w))
  /\ (forall j w', enqueue nj w = (Ok j, w') ->
        job_of_row <$> db_jobs (db w') !! j_id j = Some j
        /\ forall dep, dep ∈ nj_depends_on nj <->
             exists k e, db_job_dependencies (db w') !! k = Some e
               /\ dep_job_id e = j_id j /\ dep_depends_on_job_id e = dep).
Proof.
  intros Hwf job. pose proof (enqueue_eq nj w Hwf) as Heq. fold job in Heq.
  assert (Hf : fresh_job job (bump 3 w))
    by by apply (fresh_job_bump 1 _ (bump 2 w)), into_job_fresh.
  pose proof (wf_bump 3 _ Hwf) as Hwf3.
  split; [done|]. split.
  - rewrite Heq. repeat case_match; try done. apply wf_inserted; try done.
    + apply into_job_has_deps.
    + by apply negb_false_iff.
  - intros j w'. rewrite Heq. repeat case_match; try done. intros [= <- <-]. simpl.
    rewrite lookup_insert_eq. split; [done|]. intros dep. split.
    + intros Hdep. apply insert_edges_new; [|done]. apply Hwf3.
    + intros (k & e & He & Hj & <-). apply insert_edges_elem in He as [He|[_ He]]; [|done].
      destruct Hf as (_ & i & _ & _ & HJ & HA).
      by destruct (no_edges_of_fresh _ _ _ _ Hwf HJ HA He).
Qed.

Lemma enqueue_batch_cases njs w r w' :
  wf w -> enqueue_batch njs w = (r, w') ->
  wf w' /\
  match r with
  | Ok js =>
      Forall2 (fun nj j => exists id now, j = into_job_at id now nj) njs js
      /\ NoDup (j_id <$> js)
      /\ Forall (fun j => job_of_row <$> db_jobs (db w') !! j_id j = Some j) js
      /\ Forall (fun '(j, deps) => forall dep, dep ∈ deps ->
           exists k e, db_job_dependencies (db w') !! k = Some e
             /\ dep_job_id e = j_id j /\ dep_depends_on_job_id e = dep)
           (zip js (nj_depends_on <$> njs))
      /\ (forall id row, db_jobs (db w) !! id = Some row -> db_jobs (db w') !! id = Some row)
  | Err _ => db w' = db w
  end.
Proof.
  intros Hwf. destruct (mapM_into_job_cases njs w Hwf) as (js & Heq & Hfr & _ & Hf2).
  unfold enqueue_batch. rewrite (bind_ok _ _ _ _ _ Heq). clear Heq.
  set (w1 := bump (2 * length njs) w) in *. unfold map_err.
  assert (Hwf1 : wf w1) by by apply wf_bump.
  rewrite write_transaction_eq. destruct (pool_ready (tick w1)).
  2:{ intros [= <- <-]. split; [by apply wf_bump|done]. }
  assert (Hpre : Forall (fun '(j, deps) => deps <> [] -> j_has_deps j = true)
    (zip js (nj_depends_on <$> njs))).
  { clear -Hf2. induction Hf2 as [|nj j njs' js' (id & now & ->) _ IH]; simpl;
      [constructor|]. constructor; [apply into_job_has_deps|done]. }
  pose proof (enqueue_batch_txn_wp js (nj_depends_on <$> njs) (bump 1 w1)
    (wf_bump 1 _ Hwf1) (all_fresh_bump 1 _ _ Hfr) Hpre) as Hwp.
  unfold wp in Hwp. destruct (enqueue_batch_txn _ _ _) as [[js'|e] w2].
  - destruct Hwp as (-> & _ & Hrows & Hold & Hwf2 & _ & _ & _ & Hedges).
    intros [= <- <-]. split; [done|]. split_and!; try done; [apply Hfr|].
    clear -Hf2 Hrows. induction Hf2 as [|nj j njs' js' (id & now & ->) _ IH];
      [constructor|]. apply Forall_cons in Hrows as [Hr Hrows].
    constructor; [by rewrite Hr|auto].
  - intros [= <- <-]. split; [|done]. eapply (wf_mono (db w)); [|apply Hwf1]. simpl. lia.
Qed.

(** [enqueue_batch] is all or nothing.  On success every job of the batch is
    stored as returned with an edge for each of its dependencies, ids are distinct
    and nothing stored before is lost; on any error the database is unchanged. *)
Theorem enqueue_batch_spec njs w r w' :
  wf w -> enqueue_batch njs w = (r, w') ->
  wf w' /\
  match r with
  | Ok js =>
      Forall2 (fun nj j => exists id now, j = into_job_at id now nj) njs js
      /\ NoDup (j_id <$> js)
      /\ Forall (fun j => job_of_row <$> db_jobs (db w') !! j_id j = Some j) js
      /\ Forall (fun '(j, deps) => forall dep, dep ∈ deps ->
           exists k e, db_job_dependencies (db w') !! k = Some e
             /\ dep_job_id e = j_id j /\ dep_depends_on_job_id e = dep)
           (zip js (nj_depends_on <$> njs))
      /\ (forall id row, db_jobs (db w) !! id = Some row -> db_jobs (db w') !! id = Some row)
  | Err _ => db w' = db w
  end.
Proof. apply enqueue_batch_cases. Qed.

Lemma enqueue_unique_cases nj w r w' :
  wf w -> enqueue_unique_reporting nj w = (r, w') ->
  wf w' /\
  match r with
  | Ok (job, true) =>
      db w' = db w
      /\ exists uk row, nj_unique_key nj = Some uk
           /\ db_jobs (db w) !! j_id job = Some row /\ job = job_of_row row
           /\ unique_slot row = Some (nj_namespace nj, uk)
  | Ok (job, false) =>
      job = into_job_at (uuid_v7 (S (tick w))) (clock_at (tick w)) nj
      /\ w' = inserted job (nj_depends_on nj) (bump 3 w)
      /\ forall uk k row, nj_unique_key nj = Some uk -> db_jobs (db w) !! k = Some row ->
           unique_slot row <> Some (nj_namespace nj, uk)
  | Err Pool => db w' = db w
  | Err (DependencyNotFound _) =>
      db w' = db w
      /\ forallb (valid_dep (db w) (nj_namespace nj)) (nj_depends_on nj) = false
  | Err _ => False
  end.
Proof.
  intros Hwf Hrun. pose proof (wf_bump 3 _ Hwf) as Hwf3.
  destruct (enqueue_unique_reporting_cases nj w Hwf)
    as [[_ Heq]|[(uk & k & row & Huk & Hk & Hs & Heq)|[(_ & Hv & Heq)|(Hs & Hv & Heq & Hwf')]]];
    rewrite Heq in Hrun; injection Hrun as <- <-; (split; [done|]).
  - done.
  - split; [done|]. exists uk, row. simpl.
    rewrite (wf_live_key _ _ _ _ _ Hwf _ _ Hk). by split_and!.
  - done.
  - split_and!; [done..|]. intros uk k row Huk Hk Hslot.
    assert (slot_taken (db w) (into_job_at (uuid_v7 (S (tick w))) (clock_at (tick w)) nj) = true)
      as Ht; [|congruence].
    apply slot_taken_true. exists k, row. split; [done|]. unfold slot_conflict.
    rewrite unique_slot_row_of by done. simpl. rewrite Huk. simpl.
    by apply bool_decide_eq_true.
Qed.

(** [enqueue_unique_reporting] finds the active holder of the slot or fills a
    free slot.  It reports a duplicate exactly when an active job of the namespace
    has the key, and then returns that job and writes nothing; the retry loop never
    runs out of attempts and the index violation never reaches the caller. *)
Theorem enqueue_unique_spec nj w r w' :
  wf w -> enqueue_unique_reporting nj w = (r, w') ->
  wf w' /\
  match r with
  | Ok (job, true) =>
      db w' = db w
      /\ exists uk row, nj_unique_key nj = Some uk
           /\ db_jobs (db w) !! j_id job = Some row /\ job = job_of_row row
           /\ unique_slot row = Some (nj_namespace nj, uk)
  | Ok (job, false) =>
      job = into_job_at (uuid_v7 (S (tick w))) (clock_at (tick w)) nj
      /\ w' = inserted job (nj_depends_on nj) (bump 3 w)
      /\ forall uk k row, nj_unique_key nj = Some uk -> db_jobs (db w) !! k = Some row ->
           unique_slot row <> Some (nj_namespace nj, uk)
  | Err Pool => db w' = db w
  | Err (DependencyNotFound _) =>
      db w' = db w
      /\ forallb (valid_dep (db w) (nj_namespace nj)) (nj_depends_on nj) = false
  | Err _ => False
  end.
Proof. apply enqueue_unique_cases. Qed.

(** C2: Resubmitting a unique job is idempotent: once a submission has been
    accepted, a second one for the same key and namespace returns the same job id,
    flagged as a duplicate, and leaves the database as it is. *)
Theorem enqueue_unique_idempotent nj nj' uk w job b w1 :
  wf w -> nj_unique_key nj = Some uk -> nj_unique_key nj' = Some uk ->
  nj_namespace nj' = nj_namespace nj ->
  enqueue_unique_reporting nj w = (Ok (job, b), w1) -> pool_ready (2 + tick w1) = true ->
  exists job', enqueue_unique_reporting nj' w1 = (Ok (job', true), bump 3 w1)
    /\ j_id job' = j_id job.
Proof.
  intros Hwf Huk Huk' Hns Hrun Hpool.
  assert (Hholds : wf w1 /\ exists row, db_jobs (db w1) !! j_id job = Some row
    /\ unique_slot row = Some (nj_namespace nj, uk)).
  { destruct (enqueue_unique_reporting_cases nj w Hwf)
      as [[_ Heq]|[(uk' & k & row & Huk1 & Hk & Hs & Heq)|[(_ & Hv & Heq)|(Hs & Hv & Heq & Hwf')]]];
      rewrite Heq in Hrun; try done; injection Hrun as <- <- <-.
    - split; [by apply wf_bump|]. exists row. simpl.
      rewrite (wf_live_key _ _ _ _ _ Hwf _ _ Hk). split; [done|congruence].
    - split; [done|]. eexists. simpl. rewrite lookup_insert_eq. split; [done|].
      rewrite unique_slot_row_of by done. simpl. by rewrite Huk. }
  destruct Hholds as (Hwf1 & row & Hrow & Hslot).
  destruct (enqueue_unique_reporting_cases nj' w1 Hwf1)
    as [[Hp _]|[(uk' & k & row' & Huk1 & Hk & Hs & Heq)|Hfree]]; [congruence| |].
  - rewrite Heq. exists (job_of_row row'). split; [done|].
    simpl. rewrite (wf_live_key _ _ _ _ _ Hwf1 _ _ Hk).
    eapply (wf_unique _ _ _ _ _ Hwf1); [done|done|done|]. congruence.
  - exfalso. assert (Ht : slot_taken (db w1)
      (into_job_at (uuid_v7 (S (tick w1))) (clock_at (tick w1)) nj') = true).
    { apply slot_taken_true. exists (j_id job), row. split; [done|]. unfold slot_conflict.
      rewrite unique_slot_row_of by done. simpl. rewrite Huk'. simpl.
      apply bool_decide_eq_true. congruence. }
    destruct Hfree as [(Hs & _)|(Hs & _)]; congruence.
Qed.

Lemma enqueue_unique_batch_cases njs w r w' :
  wf w -> enqueue_unique_batch_reporting njs w = (r, w') ->
  wf w' /\
  match r with
  | Ok out =>
      exists prepared, Forall2 (unique_answer w') prepared out
        /\ Forall2 (fun nj p => snd p = nj_depends_on nj
             /\ exists id now, fst p = into_job_at id now nj) njs prepared
        /\ (forall id row, db_jobs (db w) !! id = Some row -> db_jobs (db w') !! id = Some row)
  | Err Pool | Err (DependencyNotFound _) => db w' = db w
  | Err _ => False
  end.
Proof.
  intros Hwf. destruct (prepare_cases njs w Hwf) as (ps & Heq & Hfr & Hok & Hf2).
  unfold enqueue_unique_batch_reporting. rewrite (bind_ok _ _ _ _ _ Heq). clear Heq.
  set (w1 := bump (2 * length njs) w) in *.
  assert (Hwf1 : wf w1) by by apply wf_bump.
  cbn [enqueue_unique_batch_attempts MAX_ENQUEUE_ATTEMPTS].
  pose proof (write_transaction_eq (mapM (fun '(job, deps) =>
    enqueue_unique_step job deps) ps) w1) as Htx.
  destruct (pool_ready (tick w1)).
  2:{ rewrite (bind_attempt _ _ _ _ _ Htx). intros [= <- <-].
      split; [by apply wf_bump|done]. }
  pose proof (enqueue_unique_mapM_wp ps (bump 1 w1) (wf_bump 1 _ Hwf1)
    (all_fresh_bump 1 _ _ Hfr) Hok) as Hwp. unfold wp in Hwp.
  destruct (mapM (M:=DbM) _ ps (bump 1 w1)) as [[out|e] w2]; rewrite (bind_attempt _ _ _ _ _ Htx).
  - intros [= <- <-]. destruct Hwp as (? & ? & ?). split; [done|]. by exists ps.
  - subst e. intros [= <- <-]. split; [|done].
    eapply (wf_mono (db w)); [|apply Hwf1]. simpl. lia.
Qed.

(** [enqueue_unique_batch_reporting] answers each request with a stored job
    that holds the requested slot, the submitted job itself unless it is flagged as
    a duplicate, keeps every stored job, and reports no contention; on an error nothing
    is written. *)
Theorem enqueue_unique_batch_spec njs w r w' :
  wf w -> enqueue_unique_batch_reporting njs w = (r, w') ->
  wf w' /\
  match r with
  | Ok out =>
      exists prepared, Forall2 (unique_answer w') prepared out
        /\ Forall2 (fun nj p => snd p = nj_depends_on nj
             /\ exists id now, fst p = into_job_at id now nj) njs prepared
        /\ (forall id row, db_jobs (db w) !! id = Some row -> db_jobs (db w') !! id = Some row)
  | Err Pool | Err (DependencyNotFound _) => db w' = db w
  | Err _ => False
  end.
Proof. apply enqueue_unique_batch_cases. Qed.

(** The run of a debounced enqueue, case by case. *)
Lemma enqueue_debounced_cases nj opts w r w' :
  wf w -> enqueue_debounced nj opts w = (r, w') ->
  wf w' /\
  match r with
  | Ok answer =>
      j_scheduled_at answer <= sat_add_i64 (j_created_at answer) (do_max_wait_ms opts)
      /\ exists key job w0, nj_debounce_key nj = Some key /\ db w0 = db w
        /\ j_namespace job = nj_namespace nj
        /\ (debounce_slid w0 job opts key answer w'
            \/ debounce_inserted w0 job (nj_depends_on nj) opts key answer w')
  | Err _ => db w' = db w
  end.
Proof.
  intros Hwf. unfold enqueue_debounced, from_result, mbind at 1, M_bind at 1.
  destruct (validated_debounce_key nj opts) as [key|e] eqn:Hkey;
    [|intros [= <- <-]; done].
  assert (Hvalid : nj_debounce_key nj = Some key
    /\ do_window_ms opts <= do_max_wait_ms opts).
  { unfold validated_debounce_key in Hkey. case_bool_decide as Hne; [done|].
    destruct (Z.leb_spec (do_window_ms opts) 0); [done|].
    destruct (Z.ltb_spec (do_max_wait_ms opts) (do_window_ms opts)); [done|].
    destruct (nj_debounce_key nj) as [k|]; simpl in *; [|done].
    repeat case_match; simplify_eq; (split; [done|lia]). }
  rewrite (bind_ok _ _ _ _ _ (into_job_eq nj w)).
  set (job0 := into_job_at _ _ _). erewrite bind_ok by done.
  set (now := Z.min _ _). change (mkWorld _ _) with (bump 3 w).
  set (job := j_with_scheduled_at _ _). unfold map_err. rewrite write_transaction_eq.
  destruct (pool_ready _).
  2:{ intros [= <- <-]. split; [by apply (wf_bump 4)|done]. }
  assert (Hf : fresh_job job (bump 4 w))
    by exact (fresh_job_bump 2 _ _ (into_job_fresh (clock_at (tick w)) nj w Hwf)).
  pose proof (enqueue_debounced_txn_wp job (nj_depends_on nj) opts key (bump 4 w)
    (wf_bump 4 _ Hwf) Hf (into_job_has_deps _ _ nj)) as Hwp.
  unfold wp in Hwp. change (bump 1 (bump 3 w)) with (bump 4 w).
  destruct (enqueue_debounced_txn _ _ _ _ _) as [[answer|e] w2]; intros [= <- <-].
  - destruct Hwp as [Hwf2 Hans]. split; [done|]. split.
    + destruct Hans as [(row & _ & _ & -> & _)|(-> & _)]; simpl.
      * destruct (debounce_slide_status job opts (jr_created_at row) row) as (_ & -> & ->). lia.
      * apply sat_add_i64_mono, Hvalid.
    + exists key, job, (bump 4 w). split_and!; try done. apply Hvalid.
  - split; [|done]. eapply (wf_mono (db w)); [|apply Hwf]. simpl. lia.
Qed.

Lemma enqueue_debounced_inv nj opts w answer w' :
  wf w -> enqueue_debounced nj opts w = (Ok answer, w') ->
  exists key job w0, nj_debounce_key nj = Some key /\ db w0 = db w
    /\ j_namespace job = nj_namespace nj
    /\ (debounce_slid w0 job opts key answer w'
        \/ debounce_inserted w0 job (nj_depends_on nj) opts key answer w').
Proof. intros Hwf Hrun. apply (enqueue_debounced_cases _ _ _ _ _ Hwf Hrun). Qed.

(** C3: A debounced enqueue slides the pending, unclaimed row of its key or, when
    there is none to slide, inserts the job; an error writes nothing.  Either way
    the job returned is scheduled no later than [max_wait_ms] after the instant its
    window opened, however often it has been pushed back. *)
Theorem enqueue_debounced_spec nj opts w r w' :
  wf w -> enqueue_debounced nj opts w = (r, w') ->
  wf w' /\
  match r with
  | Ok answer =>
      j_scheduled_at answer <= sat_add_i64 (j_created_at answer) (do_max_wait_ms opts)
      /\ exists key job w0, nj_debounce_key nj = Some key /\ db w0 = db w
        /\ j_namespace job = nj_namespace nj
        /\ (debounce_slid w0 job opts key answer w'
            \/ debounce_inserted w0 job (nj_depends_on nj) opts key answer w')
  | Err _ => db w' = db w
  end.
Proof. apply enqueue_debounced_cases. Qed.

(** While the pending row of a key is unclaimed and the only one, a debounced
    enqueue for the key coalesces: it returns that row's id and the set of stored
    jobs does not change. *)
Theorem enqueue_debounced_coalesces nj opts key row w answer w' :
  wf w -> nj_debounce_key nj = Some key ->
  debounce_row (db w) (nj_namespace nj) key row -> ~ claimed (db w) (jr_id row) ->
  (forall row', debounce_row (db w) (nj_namespace nj) key row' -> row' = row) ->
  enqueue_debounced nj opts w = (Ok answer, w') ->
  j_id answer = jr_id row /\ dom (db_jobs (db w')) = dom (db_jobs (db w)).
Proof.
  intros Hwf Hkey Hrow Hnc Honly Hrun.
  destruct (enqueue_debounced_inv nj opts w answer w' Hwf Hrun)
    as (key' & job & w0 & Hkey' & Hdb & Hns & Hcase).
  assert (key' = key) as -> by congruence. rewrite <- Hdb, <- Hns in *.
  destruct Hcase as [(row1 & Hrow1 & _ & -> & ->)|(_ & _ & _ & _ & _ & Hnone)].
  - rewrite (Honly _ Hrow1) in *. destruct Hrow as (Hk & _). split.
    + apply (debounce_slide_identity job opts (jr_created_at row) row).
    + simpl. rewrite dom_insert_L. apply subseteq_union_1_L, singleton_subseteq_l.
      by apply elem_of_dom_2 in Hk.
  - by destruct (Hnone row Hrow Hnc).
Qed.

(** *** Preservation of the invariant *)

Lemma keeps_enqueue nj : keeps wf (enqueue nj).
Proof.
  intros w Hwf. rewrite enqueue_eq by done. pose proof (wf_bump 3 _ Hwf) as Hwf3.
  repeat case_match; try done. apply wf_inserted; try done.
  - by apply (fresh_job_bump 1 _ (bump 2 w)), into_job_fresh.
  - apply into_job_has_deps.
  - by apply negb_false_iff.
Qed.

Lemma keeps_enqueue_batch njs : keeps wf (enqueue_batch njs).
Proof. intros w Hwf. apply (enqueue_batch_cases _ _ _ _ Hwf (surjective_pairing _)). Qed.

Lemma keeps_enqueue_unique_reporting nj : keeps wf (enqueue_unique_reporting nj).
Proof. intros w Hwf. apply (enqueue_unique_cases _ _ _ _ Hwf (surjective_pairing _)). Qed.

Lemma keeps_enqueue_unique_batch_reporting njs : keeps wf (enqueue_unique_batch_reporting njs).
Proof. intros w Hwf. apply (enqueue_unique_batch_cases _ _ _ _ Hwf (surjective_pairing _)). Qed.

Lemma keeps_enqueue_debounced nj opts : keeps wf (enqueue_debounced nj opts).
Proof. intros w Hwf. apply (enqueue_debounced_cases _ _ _ _ _ Hwf (surjective_pairing _)). Qed.

End properties.

(** *** Examples *)

Section examples.
#[local] Existing Instances demo_env demo_engine demo_uuid_fresh demo_scan_complete.

Lemma enqueue_spec_witness :
  wf demo_world /\ wf (snd (enqueue (demo_new_job None None []) demo_world))
  /\ is_ok (fst (enqueue (demo_new_job None None []) demo_world)) = true.
Proof.
  split; [apply wf_empty|]. split; [|by vm_compute].
  exact (proj1 (proj2 (enqueue_spec (demo_new_job None None []) demo_world (wf_empty 0)))).
Defined.

Lemma enqueue_batch_spec_witness :
  let x := enqueue_batch [demo_new_job None None []; demo_new_job None None []] demo_world in
  is_ok (fst x) = true /\ wf (snd x).
Proof.
  split; [by vm_compute|].
  exact (proj1 (enqueue_batch_spec _ demo_world _ _ (wf_empty 0) (surjective_pairing _))).
Defined.

Lemma enqueue_unique_spec_witness :
  let x := enqueue_unique_reporting (demo_new_job (Some "k") None []) demo_world in
  is_ok (fst x) = true /\ wf (snd x).
Proof.
  split; [by vm_compute|].
  exact (proj1 (enqueue_unique_spec _ demo_world _ _ (wf_empty 0) (surjective_pairing _))).
Defined.

Lemma enqueue_unique_idempotent_witness :
  let nj := demo_new_job (Some "k") None [] in
  exists job w1 job', enqueue_unique_reporting nj demo_world = (Ok (job, false), w1)
    /\ enqueue_unique_reporting nj w1 = (Ok (job', true), bump 3 w1)
    /\ j_id job' = j_id job.
Proof.
  intros nj.
  set (x := enqueue_unique_reporting nj demo_world).
  set (job := into_job_at (uuid_v7 1) (clock_at 0) nj).
  assert (Hx : x = (Ok (job, false), snd x)) by by vm_compute.
  destruct (enqueue_unique_idempotent nj nj "k" demo_world job false (snd x)
    (wf_empty 0) eq_refl eq_refl eq_refl Hx eq_refl) as (job' & H1 & H2).
  by exists job, (snd x), job'.
Defined.

Lemma enqueue_unique_batch_spec_witness :
  let x := enqueue_unique_batch_reporting
    [demo_new_job (Some "k") None []; demo_new_job (Some "k") None []] demo_world in
  snd <$> ok_or [] (fst x) = [false; true] /\ wf (snd x).
Proof.
  split; [by vm_compute|].
  exact (proj1 (enqueue_unique_batch_spec _ demo_world _ _ (wf_empty 0) (surjective_pairing _))).
Defined.

Definition demo_debounce : DebounceOptions := mkDebounceOptions 100 250 true (Some 10).

Lemma enqueue_debounced_spec_witness :
  let x := enqueue_debounced (demo_new_job None (Some "d") []) demo_debounce demo_world in
  is_ok (fst x) = true /\ wf (snd x).
Proof.
  split; [by vm_compute|].
  exact (proj1 (enqueue_debounced_spec _ demo_debounce demo_world _ _ (wf_empty 0)
    (surjective_pairing _))).
Defined.

Lemma enqueue_debounced_coalesces_witness :
  let nj := demo_new_job None (Some "d") [] in
  let w1 := snd (enqueue_debounced nj demo_debounce demo_world) in
  exists answer, fst (enqueue_debounced nj demo_debounce w1) = Ok answer
    /\ j_id answer = uuid_v7 1.
Proof.
  intros nj w1.
  assert (Hwf1 : wf w1)
    by apply (enqueue_debounced_cases _ demo_debounce demo_world _ _ (wf_empty 0)
      (surjective_pairing _)).
  pose (row := default (row_of (into_job_at (uuid_v7 1) (clock_at 0) nj))
    (db_jobs (db w1) !! uuid_v7 1)).
  assert (HJ : db_jobs (db w1) = {[ uuid_v7 1 := row ]}) by by vm_compute.
  destruct (enqueue_debounced nj demo_debounce w1) as [[answer|e] w2] eqn:Hrun;
    [|by vm_compute in Hrun].
  exists answer. split; [done|].
  refine (proj1 (enqueue_debounced_coalesces nj demo_debounce "d" row w1 answer w2
    Hwf1 eq_refl _ _ _ Hrun)).
  - unfold debounce_row. rewrite HJ. by vm_compute.
  - intros (k & c & Hk & _). by vm_compute in Hk.
  - intros row' (Hk & _). rewrite HJ in Hk. by apply lookup_singleton_Some in Hk as [_ ?].
Defined.

End examples.

#[export] Hint Resolve keeps_enqueue keeps_enqueue_batch keeps_enqueue_unique_reporting
  keeps_enqueue_unique_batch_reporting keeps_enqueue_debounced : keeps.
