(* ===== verification/Dequeue.v ===== *)
(** * Dequeueing ([diesel_common/jobs.rs], [sqlite/jobs.rs])

    The claim of one ready job or a batch, from one queue or several in order.
    The loops are related to [dq_run], a pure walk over the candidates whose
    eligibility is decided on the database the transaction started from; the
    theorems about order, budget and dependencies are proved of the walk. *)
From S2P Require Import Prelude Job Db Store Enqueue.

(** [DispatchOrder] and [order_for] ([storage/mod.rs]) *)
Inductive DispatchOrder := Fifo | Lifo.

Definition order_for (orders : gmap string DispatchOrder) (queue : string) : DispatchOrder :=
  default Fifo (orders !! queue).

(** [Dequeued] ([storage/records.rs]) *)
Record Dequeued (C : Type) := mkDequeued { dq_claimed : C; dq_expired : list Job }.
Arguments mkDequeued {C} dq_claimed dq_expired.
Arguments dq_claimed {C} d.
Arguments dq_expired {C} d.

Definition EXPIRED_BEFORE_EXECUTION : string := "expired before execution".

(** [ORDER BY] of the candidate scan. *)
Definition dispatch_cmp (order : DispatchOrder) : JobRow -> JobRow -> comparison :=
  then_by (desc (asc_Z jr_priority))
    match order with
    | Fifo => then_by (asc_Z jr_scheduled_at) (asc_str jr_id)
    | Lifo => then_by (desc (asc_Z jr_scheduled_at)) (desc (asc_str jr_id))
    end.

(** [WHERE] of the candidate scan. *)
Definition is_candidate (queue_name : string) (now : Z) (namespace : option string)
    (r : JobRow) : bool :=
  bool_decide (jr_queue r = queue_name) && (jr_status r =? as_int Pending)
  && (jr_scheduled_at r <=? now) && same_namespace (jr_namespace r) namespace.

(** [now > expires_at] *)
Definition past_expiry (now : Z) (expires_at : option Z) : bool :=
  match expires_at with
  | Some t => t <? now
  | None => false
  end.

Section dequeue.
Context {E : Env} {G : Engine}.

Definition scan_dequeue_candidates (queue_name : string) (now : Z)
    (namespace : option string) (limit : Z) (order : DispatchOrder)
    : DbM (list NarrowJobRow) :=
  l ← sql_select jobs (is_candidate queue_name now namespace);
  mret (narrow <$> sql_limit limit (order_by (dispatch_cmp order) l)).

Definition archive_expired_candidate (id : string) (now : Z) : DbM Job :=
  row ← sql_find jobs id;
  match row with
  | None => throw (Storage NotFound)
  | Some full0 =>
      let full := jr_with_error (Some EXPIRED_BEFORE_EXECUTION)
        (jr_with_completed_at (Some now) (jr_with_status (as_int Cancelled) full0)) in
      archive_job_row full ;;
      mret (job_of_row full)
  end.

(** The guarded claim of a candidate: [UPDATE ... WHERE status = Pending]. *)
Definition claim_row (id : string) (now : Z) : DbM Z :=
  sql_update jobs id (fun r => jr_status r =? as_int Pending)
    (fun r => jr_with_started_at (Some now) (jr_with_status (as_int Running) r)).

(** Expiry, dependency gate, claim and reload of one candidate, the part the two
    loops share: the archived job, the claimed job, or neither. *)
Definition try_candidate (row : NarrowJobRow) (now : Z) : DbM (option Job * option Job) :=
  if past_expiry now (nw_expires_at row) then
    job ← archive_expired_candidate (nw_id row) now;
    mret (None, Some job)
  else
    ready ← (if nw_has_deps row then deps_satisfied (nw_id row) else mret true);
    if negb ready then mret (None, None)
    else
      claimed ← claim_row (nw_id row) now;
      if claimed =? 0 then mret (None, None)
      else
        updated ← sql_find jobs (nw_id row);
        match updated with
        | Some r => mret (Some (job_of_row r), None)
        | None => throw (Storage NotFound)
        end.

Fixpoint dequeue_loop (now : Z) (candidates : list NarrowJobRow) (expired : list Job)
    : DbM (Dequeued (option Job)) :=
  match candidates with
  | [] => mret (mkDequeued None expired)
  | row :: rest =>
      res ← try_candidate row now;
      match res with
      | (Some job, _) => mret (mkDequeued (Some job) expired)
      | (None, Some gone) => dequeue_loop now rest (expired ++ [gone])
      | (None, None) => dequeue_loop now rest expired
      end
  end.

Definition dequeue_ordered_reporting (queue_name : string) (now : Z)
    (namespace : option string) (order : DispatchOrder) : DbM (Dequeued (option Job)) :=
  write_transaction (
    candidates ← scan_dequeue_candidates queue_name now namespace 100 order;
    dequeue_loop now candidates []).

Definition dequeue_ordered (queue_name : string) (now : Z) (namespace : option string)
    (order : DispatchOrder) : DbM (option Job) :=
  d ← dequeue_ordered_reporting queue_name now namespace order; mret (dq_claimed d).

Definition dequeue (queue_name : string) (now : Z) (namespace : option string)
    : DbM (option Job) :=
  dequeue_ordered queue_name now namespace Fifo.

Fixpoint dequeue_from_loop (queues : list string) (now : Z) (namespace : option string)
    (orders : gmap string DispatchOrder) (expired : list Job) : DbM (Dequeued (option Job)) :=
  match queues with
  | [] => mret (mkDequeued None expired)
  | queue_name :: rest =>
      step ← dequeue_ordered_reporting queue_name now namespace (order_for orders queue_name);
      let expired := expired ++ dq_expired step in
      match dq_claimed step with
      | Some job => mret (mkDequeued (Some job) expired)
      | None => dequeue_from_loop rest now namespace orders expired
      end
  end.

Definition dequeue_from_reporting (queues : list string) (now : Z)
    (namespace : option string) (orders : gmap string DispatchOrder)
    : DbM (Dequeued (option Job)) :=
  dequeue_from_loop queues now namespace orders [].

Definition dequeue_from (queues : list string) (now : Z) (namespace : option string)
    (orders : gmap string DispatchOrder) : DbM (option Job) :=
  d ← dequeue_from_reporting queues now namespace orders; mret (dq_claimed d).

Fixpoint dequeue_batch_loop (max : nat) (now : Z) (candidates : list NarrowJobRow)
    (claimed expired : list Job) : DbM (Dequeued (list Job)) :=
  match candidates with
  | [] => mret (mkDequeued claimed expired)
  | row :: rest =>
      if bool_decide (length claimed = max) then mret (mkDequeued claimed expired)
      else
        res ← try_candidate row now;
        match res with
        | (Some job, _) => dequeue_batch_loop max now rest (claimed ++ [job]) expired
        | (None, Some gone) => dequeue_batch_loop max now rest claimed (expired ++ [gone])
        | (None, None) => dequeue_batch_loop max now rest claimed expired
        end
  end.

Definition dequeue_batch_ordered_reporting (queue_name : string) (now : Z)
    (namespace : option string) (max : nat) (order : DispatchOrder)
    : DbM (Dequeued (list Job)) :=
  if (max =? 0)%nat then mret (mkDequeued [] [])
  else
    let scan_limit := Z.min (Z.min (Z.of_nat max * 4) u64_max) 400 in
    write_transaction (
      candidates ← scan_dequeue_candidates queue_name now namespace scan_limit order;
      dequeue_batch_loop max now candidates [] []).

Definition dequeue_batch_ordered (queue_name : string) (now : Z)
    (namespace : option string) (max : nat) (order : DispatchOrder) : DbM (list Job) :=
  d ← dequeue_batch_ordered_reporting queue_name now namespace max order;
  mret (dq_claimed d).

Definition dequeue_batch (queue_name : string) (now : Z) (namespace : option string)
    (max : nat) : DbM (list Job) :=
  dequeue_batch_ordered queue_name now namespace max Fifo.

Fixpoint dequeue_batch_from_loop (queues : list string) (now : Z)
    (namespace : option string) (max : nat) (orders : gmap string DispatchOrder)
    (out : Dequeued (list Job)) : DbM (Dequeued (list Job)) :=
  match queues with
  | [] => mret out
  | queue_name :: rest =>
      if bool_decide (max <= length (dq_claimed out))%nat then mret out
      else
        let remaining := (max - length (dq_claimed out))%nat in
        batch ← dequeue_batch_ordered_reporting queue_name now namespace remaining
                  (order_for orders queue_name);
        dequeue_batch_from_loop rest now namespace max orders
          (mkDequeued (dq_claimed out ++ dq_claimed batch)
                      (dq_expired out ++ dq_expired batch))
  end.

Definition dequeue_batch_from_reporting (queues : list string) (now : Z)
    (namespace : option string) (max : nat) (orders : gmap string DispatchOrder)
    : DbM (Dequeued (list Job)) :=
  dequeue_batch_from_loop queues now namespace max orders (mkDequeued [] []).

Definition dequeue_batch_from (queues : list string) (now : Z) (namespace : option string)
    (max : nat) (orders : gmap string DispatchOrder) : DbM (list Job) :=
  d ← dequeue_batch_from_reporting queues now namespace max orders; mret (dq_claimed d).

End dequeue.

(** ** The pure walk *)

(** A dependency that still blocks: live and not complete, or archived in another
    state than complete. *)
Definition incomplete (d : DB) (dep_id : string) : bool :=
  match db_jobs d !! dep_id with
  | Some r => negb (jr_status r =? as_int Complete)
  | None =>
      match db_archived_jobs d !! dep_id with
      | Some a => negb (ar_status a =? as_int Complete)
      | None => false
      end
  end.

Definition blocked (d : DB) (job_id : string) : bool :=
  existsb (fun e => bool_decide (dep_job_id e = job_id) && incomplete d (dep_depends_on_job_id e))
    (map_to_list (db_job_dependencies d)).*2.

(** A candidate that can be claimed. *)
Definition ready (d : DB) (now : Z) (r : JobRow) : bool :=
  negb (past_expiry now (jr_expires_at r)) && negb (jr_has_deps r && blocked d (jr_id r)).

Definition run_row (now : Z) (r : JobRow) : JobRow :=
  jr_with_started_at (Some now) (jr_with_status (as_int Running) r).

Definition expire_row (now : Z) (r : JobRow) : JobRow :=
  jr_with_error (Some EXPIRED_BEFORE_EXECUTION)
    (jr_with_completed_at (Some now) (jr_with_status (as_int Cancelled) r)).

(** The walk over the candidates with a budget of [n] claims: readiness is that of
    [d0]; the result is the database, the claimed rows and the expired rows. *)
Fixpoint dq_run (n : nat) (now : Z) (d0 : DB) (rs : list JobRow) (d : DB)
    : DB * list JobRow * list JobRow :=
  match rs, n with
  | [], _ | _, O => (d, [], [])
  | r :: rs, S n' =>
      if past_expiry now (jr_expires_at r) then
        let '(d', c, x) := dq_run n now d0 rs (archive_db (expire_row now r) d) in
        (d', c, expire_row now r :: x)
      else if ready d0 now r then
        let '(d', c, x) := dq_run n' now d0 rs
          (set_jobs (<[jr_id r := run_row now r]> (db_jobs d)) d) in
        (d', run_row now r :: c, x)
      else dq_run n now d0 rs d
  end.

Section walk.
Context {E : Env} {G : Engine} `{!ScanComplete G}.

Lemma count_filter_scan_zero {K R} `{Countable K} (P : R -> Prop) `{!forall r, Decision (P r)}
    (m : gmap K R) :
  count (filter P (scan m)) = 0 <-> forall k r, m !! k = Some r -> ~ P r.
Proof.
  unfold count. split.
  - intros Hz k r Hr HP. assert (Hin : r ∈ filter P (scan m)).
    { apply list_elem_of_filter. split; [done|]. apply elem_of_scan. by exists k. }
    destruct (filter P (scan m)); [by apply elem_of_nil in Hin|simpl in Hz; lia].
  - intros HP. destruct (filter P (scan m)) as [|r l] eqn:Hf; [done|].
    assert (r ∈ filter P (scan m)) as [HPr [k Hk]%elem_of_scan]%list_elem_of_filter
      by (rewrite Hf; left).
    by destruct (HP _ _ Hk).
Qed.

Lemma blocked_spec d id :
  blocked d id = true <->
  exists k e, db_job_dependencies d !! k = Some e /\ dep_job_id e = id
    /\ incomplete d (dep_depends_on_job_id e) = true.
Proof.
  unfold blocked. rewrite existsb_exists. split.
  - intros (e & He & [Hid Hi]%andb_true_iff).
    apply list_elem_of_In, list_elem_of_fmap in He as ([k e'] & -> & Hk).
    apply elem_of_map_to_list in Hk. exists k, e'. by apply bool_decide_eq_true in Hid.
  - intros (k & e & Hk & Hid & Hi). exists e. split.
    + apply list_elem_of_In, list_elem_of_fmap. exists (k, e). by rewrite elem_of_map_to_list.
    + by rewrite bool_decide_eq_true_2.
Qed.

Lemma deps_satisfied_eq id w :
  wf w -> deps_satisfied id w = (Ok (negb (blocked (db w) id)), w).
Proof.
  intros Hwf. unfold deps_satisfied, mbind at 1, M_bind at 1. simpl.
  set (l := dep_depends_on_job_id <$> _).
  assert (Hl : forall p, p ∈ l <-> exists k e, db_job_dependencies (db w) !! k = Some e
    /\ dep_job_id e = id /\ dep_depends_on_job_id e = p).
  { intros p. unfold l. rewrite list_elem_of_fmap. split.
    - intros (e & -> & [He [k Hk]%elem_of_scan]%list_elem_of_filter).
      apply bool_decide_spec in He. by exists k, e.
    - intros (k & e & Hk & He & <-). exists e. split; [done|].
      apply list_elem_of_filter. rewrite bool_decide_spec. split; [done|].
      apply elem_of_scan. by exists k. }
  case_bool_decide as Hnil.
  - assert (Hb : blocked (db w) id = false); [|by rewrite Hb].
    apply not_true_iff_false. rewrite blocked_spec. intros (k & e & Hk & He & _).
    assert (Hin : dep_depends_on_job_id e ∈ l) by (apply Hl; eauto).
    rewrite Hnil in Hin. by apply elem_of_nil in Hin.
  - unfold sql_count, mbind, M_bind. simpl. do 2 f_equal. clear Hnil.
    match goal with |- context [count ?a + count ?b =? 0] =>
      assert (Hz : count a + count b = 0 <-> count a = 0 /\ count b = 0)
        by (unfold count; lia); destruct (Z.eqb_spec (count a + count b) 0) as [H0|H0];
      rewrite Hz, !count_filter_scan_zero in H0 end.
    + destruct (blocked (db w) id) eqn:Hb; [|done]. exfalso.
      apply blocked_spec in Hb as (k & e & Hk & He & Hi). destruct H0 as [HJ HA].
      assert (Hin : dep_depends_on_job_id e ∈ l) by (apply Hl; eauto).
      unfold incomplete in Hi. destruct (db_jobs (db w) !! _) as [r|] eqn:Hr.
      * apply (HJ _ _ Hr). rewrite (wf_live_key _ _ _ _ _ Hwf _ _ Hr).
        apply andb_True. split; [by apply bool_decide_spec|by apply Is_true_true].
      * destruct (db_archived_jobs (db w) !! _) as [a|] eqn:Ha; [|done].
        apply (HA _ _ Ha). rewrite (wf_arch_key _ _ _ _ _ Hwf _ _ Ha).
        apply andb_True. split; [by apply bool_decide_spec|by apply Is_true_true].
    + destruct (blocked (db w) id) eqn:Hb; [done|]. exfalso. apply H0.
      assert (Hn : forall p, p ∈ l -> incomplete (db w) p = false).
      { intros p (k & e & Hk & He & <-)%Hl.
        destruct (incomplete (db w) (dep_depends_on_job_id e)) eqn:Hi; [|done].
        rewrite <- Hb. symmetry. apply blocked_spec. eauto. }
      split; intros k r Hr [Hm Hc]%andb_True; unfold mem in Hm;
        apply bool_decide_spec in Hm; specialize (Hn _ Hm); unfold incomplete in Hn.
      * rewrite (wf_live_key _ _ _ _ _ Hwf _ _ Hr), Hr in Hn.
        apply Is_true_true in Hc.
        by assert (true = false) by (etrans; [symmetry; exact Hc|exact Hn]).
      * rewrite (wf_arch_key _ _ _ _ _ Hwf _ _ Hr), Hr in Hn.
        apply Is_true_true in Hc. destruct (db_jobs (db w) !! k) eqn:HJ;
          [|by assert (true = false) by (etrans; [symmetry; exact Hc|exact Hn])].
        by rewrite (wf_disjoint _ _ _ _ _ Hwf k) in Hr by eauto.
Qed.

(** Neither archiving a live job in another state than complete nor updating a live
    row changes what is blocked. *)
Lemma blocked_ext d d' id :
  db_job_dependencies d' = db_job_dependencies d ->
  (forall p, incomplete d' p = incomplete d p) -> blocked d' id = blocked d id.
Proof.
  intros HD Hi. unfold blocked. rewrite HD. induction (map_to_list _).*2; simpl; [done|].
  by rewrite Hi, IHl.
Qed.

Lemma live_incomplete w k r :
  wf w -> db_jobs (db w) !! k = Some r -> negb (jr_status r =? as_int Complete) = true.
Proof.
  intros Hwf Hk. pose proof (wf_live_status _ _ _ _ _ Hwf _ _ Hk) as Ha. simpl in Ha.
  unfold is_active in Ha. destruct (Z.eqb_spec (jr_status r) (as_int Complete)) as [He|]; [|done].
  by rewrite He in Ha.
Qed.

Lemma blocked_archive w row r id :
  wf w -> db_jobs (db w) !! jr_id row = Some r ->
  negb (jr_status row =? as_int Complete) = true ->
  blocked (archive_db row (db w)) id = blocked (db w) id.
Proof.
  intros Hwf Hr Hst. apply blocked_ext; [done|]. intros p. unfold incomplete. simpl.
  destruct (decide (p = jr_id row)) as [->|Hne].
  - rewrite lookup_delete_eq, lookup_insert_eq, Hr. simpl.
    by rewrite Hst, (live_incomplete w (jr_id row) r).
  - by rewrite lookup_delete_ne, lookup_insert_ne.
Qed.

Lemma blocked_update w k r r' id :
  wf w -> db_jobs (db w) !! k = Some r ->
  negb (jr_status r' =? as_int Complete) = true ->
  blocked (set_jobs (<[k := r']> (db_jobs (db w))) (db w)) id = blocked (db w) id.
Proof.
  intros Hwf Hr Hst. apply blocked_ext; [done|]. intros p. unfold incomplete. simpl.
  destruct (decide (p = k)) as [->|Hne].
  - by rewrite lookup_insert_eq, Hr, Hst, (live_incomplete w k r).
  - by rewrite lookup_insert_ne.
Qed.

Lemma try_candidate_eq r now w :
  wf w -> db_jobs (db w) !! jr_id r = Some r -> jr_status r = as_int Pending ->
  try_candidate (narrow r) now w =
    if past_expiry now (jr_expires_at r) then
      (Ok (None, Some (job_of_row (expire_row now r))),
       mkWorld (archive_db (expire_row now r) (db w)) (tick w))
    else if ready (db w) now r then
      (Ok (Some (job_of_row (run_row now r)), None),
       mkWorld (set_jobs (<[jr_id r := run_row now r]> (db_jobs (db w))) (db w)) (tick w))
    else (Ok (None, None), w).
Proof.
  intros Hwf Hr Hst. unfold try_candidate, ready.
  change (nw_expires_at (narrow r)) with (jr_expires_at r).
  change (nw_id (narrow r)) with (jr_id r). change (nw_has_deps (narrow r)) with (jr_has_deps r).
  destruct (past_expiry now (jr_expires_at r)).
  - unfold archive_expired_candidate, mbind, M_bind. simpl. rewrite Hr.
    fold (expire_row now r). rewrite archive_job_row_ok; [done|].
    apply (wf_disjoint _ _ _ _ _ Hwf). by exists r.
  - assert (Hgate : (if jr_has_deps r then deps_satisfied (jr_id r) else mret true) w
      = (Ok (negb (jr_has_deps r && blocked (db w) (jr_id r))), w)).
    { destruct (jr_has_deps r); [by apply deps_satisfied_eq|done]. }
    rewrite (bind_ok _ _ _ _ _ Hgate). simpl.
    destruct (jr_has_deps r && _); simpl; [done|].
    unfold claim_row, sql_update, mbind, M_bind. simpl. rewrite Hr, Hst. simpl.
    by rewrite lookup_insert_eq.
Qed.

(** The state of a walk over [rs]: the rest of the candidates is still stored and
    pending, and readiness has not changed since [d0]. *)
Definition walking (d0 : DB) (rs : list JobRow) (w : World) : Prop :=
  wf w /\ NoDup (jr_id <$> rs)
  /\ Forall (fun r => db_jobs (db w) !! jr_id r = Some r /\ jr_status r = as_int Pending) rs
  /\ (forall id, blocked (db w) id = blocked d0 id).

Lemma walking_expire d0 r rs w now :
  walking d0 (r :: rs) w ->
  walking d0 rs (mkWorld (archive_db (expire_row now r) (db w)) (tick w)).
Proof.
  intros (Hwf & Hnd & Hrs & Hb). apply NoDup_cons in Hnd as [Hr Hnd].
  apply Forall_cons in Hrs as [[Hk Hst] Hrs]. split_and!; [|done| |].
  - unfold wf. simpl. change (jr_id r) with (jr_id (expire_row now r)).
    by eapply wf_archive.
  - apply Forall_forall. intros r' Hin. rewrite Forall_forall in Hrs.
    destruct (Hrs _ Hin) as [Hk' ?]. split; [|done]. simpl.
    rewrite lookup_delete_ne; [done|]. intros Heq. apply Hr. simpl in Heq. rewrite Heq.
    by apply list_elem_of_fmap_2.
  - intros id. simpl. by erewrite blocked_archive.
Qed.

Lemma walking_claim d0 r rs w now :
  walking d0 (r :: rs) w ->
  walking d0 rs
    (mkWorld (set_jobs (<[jr_id r := run_row now r]> (db_jobs (db w))) (db w)) (tick w)).
Proof.
  intros (Hwf & Hnd & Hrs & Hb). apply NoDup_cons in Hnd as [Hr Hnd].
  apply Forall_cons in Hrs as [[Hk Hst] Hrs]. split_and!; [|done| |].
  - unfold wf. simpl. eapply wf_update_live; [done|done|done|done|]. by eexists.
  - apply Forall_forall. intros r' Hin. rewrite Forall_forall in Hrs.
    destruct (Hrs _ Hin) as [Hk' ?]. split; [|done]. simpl.
    rewrite lookup_insert_ne; [done|]. intros Heq. apply Hr. rewrite Heq.
    by apply list_elem_of_fmap_2.
  - intros id. simpl. by erewrite blocked_update.
Qed.

Lemma walking_skip d0 r rs w : walking d0 (r :: rs) w -> walking d0 rs w.
Proof.
  intros (Hwf & Hnd & Hrs & Hb). apply NoDup_cons in Hnd as [_ Hnd].
  apply Forall_cons in Hrs as [_ Hrs]. by split_and!.
Qed.

Lemma walking_ready d0 rs w now r : walking d0 rs w -> ready (db w) now r = ready d0 now r.
Proof. intros (_ & _ & _ & Hb). unfold ready. by rewrite Hb. Qed.

(** One step of either loop. *)
Lemma walking_step d0 r rs w now :
  walking d0 (r :: rs) w ->
  try_candidate (narrow r) now w =
    if past_expiry now (jr_expires_at r) then
      (Ok (None, Some (job_of_row (expire_row now r))),
       mkWorld (archive_db (expire_row now r) (db w)) (tick w))
    else if ready d0 now r then
      (Ok (Some (job_of_row (run_row now r)), None),
       mkWorld (set_jobs (<[jr_id r := run_row now r]> (db_jobs (db w))) (db w)) (tick w))
    else (Ok (None, None), w).
Proof.
  intros Hw. rewrite <- (walking_ready _ _ _ now r Hw).
  destruct Hw as (Hwf & _ & [[Hk Hst] _]%Forall_cons & _). by apply try_candidate_eq.
Qed.

Lemma dequeue_loop_eq d0 now rs acc w :
  walking d0 rs w ->
  let '(d', c, x) := dq_run 1 now d0 rs (db w) in
  dequeue_loop now (narrow <$> rs) acc w =
    (Ok (mkDequeued (head (job_of_row <$> c)) (acc ++ (job_of_row <$> x))),
     mkWorld d' (tick w)).
Proof.
  revert acc w. induction rs as [|r rs IH]; intros acc w Hw.
  { simpl. by rewrite app_nil_r; destruct w. }
  rewrite fmap_cons. cbn [dequeue_loop dq_run].
  pose proof (walking_step _ _ _ _ now Hw) as Hstep.
  destruct (past_expiry now (jr_expires_at r)).
  - rewrite (bind_ok _ _ _ _ _ Hstep).
    specialize (IH (acc ++ [job_of_row (expire_row now r)]) _ (walking_expire _ _ _ _ now Hw)).
    cbn [db tick] in IH. destruct (dq_run 1 now d0 rs _) as [[d' c] x]. rewrite IH.
    by rewrite <- app_assoc.
  - destruct (ready d0 now r); rewrite (bind_ok _ _ _ _ _ Hstep).
    + destruct rs; simpl; by rewrite app_nil_r.
    + apply IH. by eapply walking_skip.
Qed.

Lemma dequeue_batch_loop_eq d0 now max rs claimed expired w :
  walking d0 rs w -> (length claimed <= max)%nat ->
  let '(d', c, x) := dq_run (max - length claimed) now d0 rs (db w) in
  dequeue_batch_loop max now (narrow <$> rs) claimed expired w =
    (Ok (mkDequeued (claimed ++ (job_of_row <$> c)) (expired ++ (job_of_row <$> x))),
     mkWorld d' (tick w)).
Proof.
  revert claimed expired w. induction rs as [|r rs IH]; intros cl ex w Hw Hlen.
  { simpl. by rewrite !app_nil_r; destruct w. }
  rewrite fmap_cons. cbn [dequeue_batch_loop dq_run].
  case_bool_decide as Hmax.
  { rewrite Hmax, Nat.sub_diag. simpl. by rewrite !app_nil_r; destruct w. }
  pose proof (walking_step _ _ _ _ now Hw) as Hstep.
  destruct (max - length cl)%nat as [|n] eqn:Hn; [lia|].
  destruct (past_expiry now (jr_expires_at r)).
  - rewrite (bind_ok _ _ _ _ _ Hstep).
    specialize (IH cl (ex ++ [job_of_row (expire_row now r)]) _
      (walking_expire _ _ _ _ now Hw) Hlen).
    cbn [db tick] in IH. rewrite Hn in IH. destruct (dq_run (S n) now d0 rs _) as [[d' c] x].
    rewrite IH. by rewrite <- app_assoc.
  - destruct (ready d0 now r); rewrite (bind_ok _ _ _ _ _ Hstep).
    + assert (Hlen' : (length (cl ++ [job_of_row (run_row now r)]) <= max)%nat)
        by (rewrite length_app; simpl; lia).
      specialize (IH (cl ++ [job_of_row (run_row now r)]) ex _
        (walking_claim _ _ _ _ now Hw) Hlen').
      rewrite length_app in IH. cbn [db tick length] in IH.
      replace (max - (length cl + 1))%nat with n in IH by lia.
      destruct (dq_run n now d0 rs _) as [[d' c] x]. rewrite IH.
      by rewrite <- app_assoc.
    + specialize (IH cl ex w (walking_skip _ _ _ _ Hw) Hlen). by rewrite Hn in IH.
Qed.

(** What a dequeue does to the database: [cs] are claimed, [xs] are archived as
    expired with their claims, and everything else about jobs is as before. *)
Definition dequeue_effect (now : Z) (cs xs : list JobRow) (d d' : DB) : Prop :=
  (forall r, r ∈ cs -> db_jobs d' !! jr_id r = Some (run_row now r))
  /\ (forall r, r ∈ xs -> db_jobs d' !! jr_id r = None
        /\ db_archived_jobs d' !! jr_id r = Some (archived_of (expire_row now r)))
  /\ (forall id, id ∉ (jr_id <$> cs ++ xs) ->
        db_jobs d' !! id = db_jobs d !! id
        /\ db_archived_jobs d' !! id = db_archived_jobs d !! id)
  /\ db_job_dependencies d' = db_job_dependencies d
  /\ (forall id, id ∉ (jr_id <$> xs) ->
        db_execution_claims d' !! id = db_execution_claims d !! id).

Lemma dequeue_effect_nil now d : dequeue_effect now [] [] d d.
Proof. split_and!; try done; by intros r ?%elem_of_nil. Qed.

Lemma dequeue_effect_expire now r cs xs d d' :
  jr_id r ∉ (jr_id <$> cs ++ xs) ->
  dequeue_effect now cs xs (archive_db (expire_row now r) d) d' ->
  dequeue_effect now cs (r :: xs) d d'.
Proof.
  intros Hr (He1 & He2 & He3 & He4 & He5). split_and!; try done.
  - intros r' [->|Hin]%elem_of_cons; [|by apply He2].
    destruct (He3 _ Hr) as [-> ->]. simpl. by rewrite lookup_delete_eq, lookup_insert_eq.
  - intros id. rewrite !fmap_app, fmap_cons, !not_elem_of_app, not_elem_of_cons.
    intros (Hn1 & Hn2 & Hn3). destruct (He3 id) as [-> ->];
      [by rewrite fmap_app, not_elem_of_app|].
    simpl. by rewrite lookup_delete_ne, lookup_insert_ne.
  - intros id [Hn1 Hn2]%not_elem_of_cons. rewrite (He5 _ Hn2). simpl. by rewrite lookup_delete_ne.
Qed.

Lemma dequeue_effect_claim now r cs xs d d' :
  jr_id r ∉ (jr_id <$> cs ++ xs) ->
  dequeue_effect now cs xs (set_jobs (<[jr_id r := run_row now r]> (db_jobs d)) d) d' ->
  dequeue_effect now (r :: cs) xs d d'.
Proof.
  intros Hr (He1 & He2 & He3 & [He4 He5]). split_and!; try done.
  - intros r' [->|Hin]%elem_of_cons; [|by apply He1].
    destruct (He3 _ Hr) as [-> _]. simpl. by rewrite lookup_insert_eq.
  - intros id [Hn1 Hn2]%not_elem_of_cons. destruct (He3 id Hn2) as [-> ->].
    simpl. by rewrite lookup_insert_ne.
Qed.

(** The walk stops after a prefix [pre] of the candidates, at the budget or at the
    end; it claims the ready rows of the prefix and archives its expired ones. *)
Lemma dq_run_spec n now d0 rs w d' c x :
  walking d0 rs w -> dq_run n now d0 rs (db w) = (d', c, x) ->
  wf (mkWorld d' (tick w)) /\
  exists pre post, rs = pre ++ post
    /\ let cs := filter (fun r => Is_true (ready d0 now r)) pre in
       let xs := filter (fun r => Is_true (past_expiry now (jr_expires_at r))) pre in
       c = run_row now <$> cs /\ x = expire_row now <$> xs
       /\ (length cs <= n)%nat /\ (length cs = n \/ post = [])
       /\ dequeue_effect now cs xs (db w) d'.
Proof.
  revert n w c x. induction rs as [|r rs IH]; intros n w c x Hw Hrun.
  { injection Hrun as <- <- <-. split; [destruct w; apply Hw|]. exists [], [].
    simpl. split_and!; try done; [lia|by right|apply dequeue_effect_nil]. }
  cbn [dq_run] in Hrun. destruct n as [|n].
  { injection Hrun as <- <- <-. split; [destruct w; apply Hw|]. exists [], (r :: rs).
    simpl. split_and!; try done; [by left|apply dequeue_effect_nil]. }
  assert (Hne : forall (P Q : JobRow -> Prop) `{!forall r, Decision (P r), !forall r, Decision (Q r)}
    pre post, rs = pre ++ post -> jr_id r ∉ (jr_id <$> filter P pre ++ filter Q pre)).
  { intros P Q ? ? pre post ->. destruct Hw as (_ & [Hnr _]%NoDup_cons & _).
    intros (r' & Heq & Hin)%list_elem_of_fmap. apply Hnr. rewrite Heq.
    apply list_elem_of_fmap_2. rewrite !elem_of_app, !list_elem_of_filter in *. naive_solver. }
  destruct (past_expiry now (jr_expires_at r)) eqn:Hx.
  - assert (Hnready : ready d0 now r = false) by (unfold ready; by rewrite Hx).
    destruct (dq_run (S n) now d0 rs _) as [[d1 c1] x1] eqn:Hr1. injection Hrun as <- <- <-.
    destruct (IH (S n) _ _ _ (walking_expire _ _ _ _ now Hw) Hr1)
      as (Hwf' & pre & post & Hsplit & Hc & Hxs & Hlen & Hend & Heff).
    split; [done|]. exists (r :: pre), post. rewrite !filter_cons, Hx, Hnready. simpl.
    split_and!; try done; [by rewrite Hsplit|by rewrite Hxs|].
    apply dequeue_effect_expire; [by eapply Hne|done].
  - destruct (ready d0 now r) eqn:Hready.
    + destruct (dq_run n now d0 rs _) as [[d1 c1] x1] eqn:Hr1. injection Hrun as <- <- <-.
      destruct (IH n _ _ _ (walking_claim _ _ _ _ now Hw) Hr1)
        as (Hwf' & pre & post & Hsplit & Hc & Hxs & Hlen & Hend & Heff).
      split; [done|]. exists (r :: pre), post. rewrite !filter_cons, Hx, Hready. simpl.
      split_and!; try done; [by rewrite Hsplit|by rewrite Hc|lia| |].
      * destruct Hend as [<-|]; [by left|by right].
      * apply dequeue_effect_claim; [by eapply Hne|done].
    + destruct (IH (S n) _ _ _ (walking_skip _ _ _ _ Hw) Hrun)
        as (Hwf' & pre & post & Hsplit & Hrest).
      split; [done|]. exists (r :: pre), post. rewrite !filter_cons, Hx, Hready. simpl.
      split; [by rewrite Hsplit|done].
Qed.

End walk.

(** ** Properties *)

(** All candidates of a queue in dispatch order; a dequeue looks at a prefix. *)
Definition ranked {G : Engine} (queue_name : string) (now : Z) (namespace : option string)
    (order : DispatchOrder) (d : DB) : list JobRow :=
  order_by (dispatch_cmp order)
    (filter (fun r => Is_true (is_candidate queue_name now namespace r)) (scan (db_jobs d))).

Section properties.
Context {E : Env} {G : Engine} `{!UuidFresh E} `{!ScanComplete G}.

#[global] Instance dispatch_cmp_total order : TotalCmp (dispatch_cmp order).
Proof. unfold dispatch_cmp. destruct order; apply _. Qed.

Lemma elem_of_ranked q now ns order w r :
  wf w ->
  r ∈ ranked q now ns order (db w) <->
  db_jobs (db w) !! jr_id r = Some r /\ is_candidate q now ns r = true.
Proof.
  intros Hwf. unfold ranked. rewrite order_by_elem_of, list_elem_of_filter, elem_of_scan.
  rewrite Is_true_true. split.
  - intros [? [k Hk]]. by rewrite (wf_live_key _ _ _ _ _ Hwf _ _ Hk).
  - intros [? ?]. eauto.
Qed.

Lemma is_candidate_pending q now ns r :
  is_candidate q now ns r = true -> jr_status r = as_int Pending.
Proof. unfold is_candidate. rewrite !andb_true_iff, Z.eqb_eq. tauto. Qed.

Lemma NoDup_ranked q now ns order w :
  wf w -> NoDup (jr_id <$> ranked q now ns order (db w)).
Proof.
  intros Hwf. unfold ranked. rewrite order_by_perm.
  eapply sublist_NoDup; [|apply fmap_sublist, sublist_filter].
  apply scan_NoDup_key, Hwf.
Qed.

Lemma scan_walking q now ns order limit w n :
  wf w ->
  scan_dequeue_candidates q now ns limit order (bump n w)
    = (Ok (narrow <$> sql_limit limit (ranked q now ns order (db w))), bump n w)
  /\ walking (db w) (sql_limit limit (ranked q now ns order (db w))) (bump n w).
Proof.
  intros Hwf. split; [done|]. split_and!; [by apply wf_bump| | |done].
  - eapply sublist_NoDup; [by apply NoDup_ranked|].
    apply fmap_sublist, sql_limit_sublist.
  - apply Forall_forall. intros r Hr%sql_limit_elem_of.
    apply elem_of_ranked in Hr as [Hk Hc]; [|done]. split; [done|].
    by eapply is_candidate_pending.
Qed.

(** The run of one dequeue with a budget of one claim. *)
Lemma dequeue_run q now ns order w :
  wf w -> pool_ready (tick w) = true ->
  let rs := sql_limit 100 (ranked q now ns order (db w)) in
  exists pre post w', rs = pre ++ post
    /\ let cs := filter (fun r => Is_true (ready (db w) now r)) pre in
       let xs := filter (fun r => Is_true (past_expiry now (jr_expires_at r))) pre in
       dequeue_ordered_reporting q now ns order w
         = (Ok (mkDequeued (head ((fun r => job_of_row (run_row now r)) <$> cs))
                  ((fun r => job_of_row (expire_row now r)) <$> xs)), w')
       /\ wf w' /\ (length cs <= 1)%nat /\ (length cs = 1%nat \/ post = [])
       /\ dequeue_effect now cs xs (db w) (db w').
Proof.
  intros Hwf Hp rs. destruct (scan_walking q now ns order 100 w 1 Hwf) as [Hscan Hw].
  fold rs in Hscan, Hw. destruct (dq_run 1 now (db w) rs (db w)) as [[d' c] x] eqn:Hrun.
  destruct (dq_run_spec 1 now (db w) rs (bump 1 w) d' c x Hw Hrun)
    as (Hwf' & pre & post & Hsplit & -> & -> & Hlen & Hend & Heff).
  exists pre, post, (mkWorld d' (S (tick w))). cbv zeta. split_and!; try done.
  unfold dequeue_ordered_reporting. apply write_transaction_ok; [done|].
  rewrite (bind_ok _ _ _ _ _ Hscan).
  pose proof (dequeue_loop_eq (db w) now rs [] _ Hw) as Hloop.
  change (db (bump 1 w)) with (db w) in Hloop. rewrite Hrun in Hloop.
  by rewrite <- !list_fmap_compose in Hloop.
Qed.

(** The run of one batch dequeue. *)
Lemma dequeue_batch_run q now ns max order w :
  wf w -> pool_ready (tick w) = true -> (0 < max)%nat ->
  let rs := sql_limit (Z.min (Z.min (Z.of_nat max * 4) u64_max) 400)
              (ranked q now ns order (db w)) in
  exists pre post w', rs = pre ++ post
    /\ let cs := filter (fun r => Is_true (ready (db w) now r)) pre in
       let xs := filter (fun r => Is_true (past_expiry now (jr_expires_at r))) pre in
       dequeue_batch_ordered_reporting q now ns max order w
         = (Ok (mkDequeued ((fun r => job_of_row (run_row now r)) <$> cs)
                  ((fun r => job_of_row (expire_row now r)) <$> xs)), w')
       /\ wf w' /\ (length cs <= max)%nat /\ (length cs = max \/ post = [])
       /\ dequeue_effect now cs xs (db w) (db w').
Proof.
  intros Hwf Hp Hmax rs. unfold dequeue_batch_ordered_reporting.
  destruct (Nat.eqb_spec max 0) as [|_]; [lia|].
  set (limit := Z.min _ 400) in *. clearbody limit.
  destruct (scan_walking q now ns order limit w 1 Hwf) as [Hscan Hw].
  fold rs in Hscan, Hw. destruct (dq_run max now (db w) rs (db w)) as [[d' c] x] eqn:Hrun.
  destruct (dq_run_spec max now (db w) rs (bump 1 w) d' c x Hw Hrun)
    as (Hwf' & pre & post & Hsplit & -> & -> & Hlen & Hend & Heff).
  exists pre, post, (mkWorld d' (S (tick w))). cbv zeta. split_and!; try done.
  apply write_transaction_ok; [done|]. rewrite (bind_ok _ _ _ _ _ Hscan).
  pose proof (dequeue_batch_loop_eq (db w) now max rs [] [] _ Hw) as Hloop.
  simpl in Hloop. rewrite Nat.sub_0_r, Hrun in Hloop.
  rewrite <- !list_fmap_compose in Hloop. apply Hloop. lia.
Qed.

Lemma dequeue_no_pool q now ns order w :
  pool_ready (tick w) = false ->
  dequeue_ordered_reporting q now ns order w = (Err Pool, bump 1 w).
Proof. apply write_transaction_no_pool. Qed.

Lemma dequeue_batch_no_pool q now ns max order w :
  pool_ready (tick w) = false -> (0 < max)%nat ->
  dequeue_batch_ordered_reporting q now ns max order w = (Err Pool, bump 1 w).
Proof.
  intros Hp Hmax. unfold dequeue_batch_ordered_reporting.
  destruct (Nat.eqb_spec max 0); [lia|]. by apply write_transaction_no_pool.
Qed.

(** The rows a dequeue may hand out, and the ones it may expire. *)
Definition claimable (q : string) (now : Z) (ns : option string) (d : DB) (r : JobRow) : Prop :=
  db_jobs d !! jr_id r = Some r /\ is_candidate q now ns r = true /\ ready d now r = true.
Definition expirable (q : string) (now : Z) (ns : option string) (d : DB) (r : JobRow) : Prop :=
  db_jobs d !! jr_id r = Some r /\ is_candidate q now ns r = true
  /\ past_expiry now (jr_expires_at r) = true.

Lemma window_claimable q now ns order limit pre post w :
  wf w -> sql_limit limit (ranked q now ns order (db w)) = pre ++ post ->
  Forall (claimable q now ns (db w)) (filter (fun r => Is_true (ready (db w) now r)) pre)
  /\ Forall (expirable q now ns (db w))
       (filter (fun r => Is_true (past_expiry now (jr_expires_at r))) pre).
Proof.
  intros Hwf Hsplit.
  assert (Hpre : forall r, r ∈ pre -> db_jobs (db w) !! jr_id r = Some r
    /\ is_candidate q now ns r = true).
  { intros r Hr. apply (elem_of_ranked q now ns order w r Hwf), (sql_limit_elem_of limit).
    rewrite Hsplit. apply elem_of_app. by left. }
  split; apply Forall_forall; intros r [Hp Hr]%list_elem_of_filter;
    apply Is_true_true in Hp; destruct (Hpre r Hr); by split_and!.
Qed.

(** A dequeue that answers [Ok] had a connection and ran the walk. *)
Lemma dequeue_ok_run q now ns order w res w' :
  wf w -> dequeue_ordered_reporting q now ns order w = (Ok res, w') ->
  exists pre post, sql_limit 100 (ranked q now ns order (db w)) = pre ++ post
    /\ let cs := filter (fun r => Is_true (ready (db w) now r)) pre in
       let xs := filter (fun r => Is_true (past_expiry now (jr_expires_at r))) pre in
       res = mkDequeued (head ((fun r => job_of_row (run_row now r)) <$> cs))
               ((fun r => job_of_row (expire_row now r)) <$> xs)
       /\ wf w' /\ (length cs <= 1)%nat /\ (length cs = 1%nat \/ post = [])
       /\ dequeue_effect now cs xs (db w) (db w').
Proof.
  intros Hwf Hrun. destruct (pool_ready (tick w)) eqn:Hp.
  - destruct (dequeue_run q now ns order w Hwf Hp) as (pre & post & w1 & Hsplit & Heq & Hrest).
    rewrite Heq in Hrun. injection Hrun as <- <-. by exists pre, post.
  - by rewrite dequeue_no_pool in Hrun.
Qed.

Lemma dequeue_cases q now ns order w res w' :
  wf w -> dequeue_ordered_reporting q now ns order w = (Ok res, w') ->
  wf w' /\ exists cs xs,
    (length cs <= 1)%nat
    /\ dq_claimed res = head ((fun r => job_of_row (run_row now r)) <$> cs)
    /\ dq_expired res = (fun r => job_of_row (expire_row now r)) <$> xs
    /\ Forall (claimable q now ns (db w)) cs /\ Forall (expirable q now ns (db w)) xs
    /\ dequeue_effect now cs xs (db w) (db w').
Proof.
  intros Hwf Hrun. destruct (dequeue_ok_run _ _ _ _ _ _ _ Hwf Hrun)
    as (pre & post & Hsplit & -> & Hwf' & Hlen & _ & Heff).
  destruct (window_claimable _ _ _ _ _ _ _ _ Hwf Hsplit) as [Hcs Hxs].
  split; [done|]. do 2 eexists. by split_and!.
Qed.


(** [r] is dispatched no later than [r']: it has the higher priority or, at equal
    priority, was scheduled earlier (later, for LIFO); ids break the tie. *)
Definition dispatched_by (order : DispatchOrder) (r r' : JobRow) : Prop :=
  jr_priority r' < jr_priority r
  \/ jr_priority r = jr_priority r'
     /\ match order with
        | Fifo => jr_scheduled_at r < jr_scheduled_at r'
            \/ jr_scheduled_at r = jr_scheduled_at r' /\ cmp_le String.compare (jr_id r) (jr_id r')
        | Lifo => jr_scheduled_at r' < jr_scheduled_at r
            \/ jr_scheduled_at r = jr_scheduled_at r' /\ cmp_le String.compare (jr_id r') (jr_id r)
        end.

Lemma dispatch_cmp_by order r r' : cmp_le (dispatch_cmp order) r r' -> dispatched_by order r r'.
Proof.
  unfold cmp_le, dispatched_by, dispatch_cmp, then_by, desc, asc_Z, asc_str. simpl.
  destruct (Z.compare_spec (jr_priority r') (jr_priority r)); [|by left|done]. right.
  split; [done|]. destruct order; simpl;
    [destruct (Z.compare_spec (jr_scheduled_at r) (jr_scheduled_at r'))
    |destruct (Z.compare_spec (jr_scheduled_at r') (jr_scheduled_at r))]; auto; done.
Qed.

(** C5: Dispatch order.  The claimed job is dispatched no later (higher priority first,
    then schedule and id by FIFO or LIFO) than every other claimable job of the hundred
    best-ranked candidates, and every claimable job of the queue when there are no
    more than a hundred candidates. *)
Theorem dequeue_best_first q now ns order w job xs w' :
  wf w -> dequeue_ordered_reporting q now ns order w = (Ok (mkDequeued (Some job) xs), w') ->
  exists r, job = job_of_row (run_row now r) /\ claimable q now ns (db w) r
    /\ forall r', claimable q now ns (db w) r' ->
         (r' ∈ sql_limit 100 (ranked q now ns order (db w))
          \/ (length (ranked q now ns order (db w)) <= 100)%nat) ->
         dispatched_by order r r'.
Proof.
  intros Hwf Hrun. destruct (dequeue_ok_run _ _ _ _ _ _ _ Hwf Hrun)
    as (pre & post & Hsplit & Heq & _ & Hlen & _ & _).
  destruct (window_claimable _ _ _ _ _ _ _ _ Hwf Hsplit) as [Hcs _].
  destruct (filter (fun r => Is_true (ready (db w) now r)) pre) as [|r [|? ?]] eqn:Hf;
    [done| |simpl in Hlen; lia].
  injection Heq as -> _. apply Forall_cons in Hcs as [Hr _].
  exists r. split_and!; [done|done|]. intros r' Hr' Hwin. apply dispatch_cmp_by.
  assert (Hin : r' ∈ sql_limit 100 (ranked q now ns order (db w))).
  { destruct Hwin as [|Hall]; [done|]. unfold sql_limit. simpl. rewrite take_ge by done.
    destruct Hr' as (? & ? & _). by apply elem_of_ranked. }
  rewrite Hsplit in Hin.
  assert (Hsorted : StronglySorted (cmp_le (dispatch_cmp order)) (pre ++ post)).
  { rewrite <- Hsplit. unfold sql_limit. simpl.
    eapply (StronglySorted_app_1_l _ _ (drop 100 _)). rewrite take_drop.
    apply order_by_sorted, _. }
  assert (Hrp : r ∈ pre).
  { eapply (list_elem_of_filter (fun r => Is_true (ready (db w) now r))). rewrite Hf. left. }
  apply elem_of_app in Hin as [Hin|Hin].
  - assert (r' = r) as ->.
    { apply list_elem_of_singleton. rewrite <- Hf. apply list_elem_of_filter.
      split; [|done]. apply Is_true_true, Hr'. }
    unfold cmp_le. by rewrite (cmp_refl (dispatch_cmp order)).
  - by eapply StronglySorted_app_1_elem_of.
Qed.

(** A dequeue that hands out nothing found no claimable job among the hundred
    best-ranked candidates, and none in the queue at all when it has no more than a
    hundred candidates. *)
Theorem dequeue_none_no_ready q now ns order w xs w' r :
  wf w -> dequeue_ordered_reporting q now ns order w = (Ok (mkDequeued None xs), w') ->
  r ∈ sql_limit 100 (ranked q now ns order (db w))
  \/ (length (ranked q now ns order (db w)) <= 100)%nat ->
  ~ claimable q now ns (db w) r.
Proof.
  intros Hwf Hrun Hwin Hr. destruct (dequeue_ok_run _ _ _ _ _ _ _ Hwf Hrun)
    as (pre & post & Hsplit & Heq & _ & _ & Hend & _).
  destruct (filter (fun r => Is_true (ready (db w) now r)) pre) as [|r0 cs] eqn:Hf; [|done].
  destruct Hend as [[=]| ->]. rewrite app_nil_r in Hsplit.
  assert (Hin : r ∈ sql_limit 100 (ranked q now ns order (db w))).
  { destruct Hwin as [|Hall]; [done|]. unfold sql_limit. simpl. rewrite take_ge by done.
    destruct Hr as (? & ? & _). by apply elem_of_ranked. }
  rewrite Hsplit in Hin.
  assert (r ∈ @nil JobRow) as []%elem_of_nil. rewrite <- Hf.
  apply list_elem_of_filter. split; [|done]. apply Is_true_true, Hr.
Qed.

(** The dependency gate.  When a job is handed out, every job it depends on has
    completed: each of its dependency edges ends in an archived job whose status is
    complete. *)
Theorem dequeue_dependencies_complete q now ns order w job xs w' k e :
  wf w -> dequeue_ordered_reporting q now ns order w = (Ok (mkDequeued (Some job) xs), w') ->
  db_job_dependencies (db w) !! k = Some e -> dep_job_id e = j_id job ->
  exists a, db_archived_jobs (db w) !! dep_depends_on_job_id e = Some a
    /\ ar_status a = as_int Complete.
Proof.
  intros Hwf Hrun He Hid. destruct (dequeue_ok_run _ _ _ _ _ _ _ Hwf Hrun)
    as (pre & post & Hsplit & Heq & _).
  destruct (window_claimable _ _ _ _ _ _ _ _ Hwf Hsplit) as [Hcs _].
  destruct (filter _ pre) as [|r cs]; [done|]. injection Heq as -> _.
  apply Forall_cons in Hcs as [(Hk & Hc & Hr) _]. simpl in Hid.
  assert (Hflag : jr_has_deps r = true).
  { eapply (wf_flag _ _ _ _ _ Hwf); [done|]. by rewrite Hid. }
  assert (Hi : incomplete (db w) (dep_depends_on_job_id e) = false).
  { destruct (incomplete _ _) eqn:Hi; [|done]. unfold ready in Hr. rewrite Hflag in Hr.
    rewrite (proj2 (blocked_spec (db w) (jr_id r))) in Hr by eauto.
    by rewrite andb_false_r in Hr. }
  destruct (wf_edges _ _ _ _ _ Hwf _ _ He) as (ns' & _ & Hns).
  unfold incomplete in Hi. unfold ns_of in Hns.
  destruct (db_jobs (db w) !! dep_depends_on_job_id e) as [p|] eqn:Hp.
  - by rewrite (live_incomplete w _ p Hwf Hp) in Hi.
  - destruct (db_archived_jobs (db w) !! _) as [a|]; [|done]. exists a. split; [done|].
    by apply negb_false_iff, Z.eqb_eq in Hi.
Qed.

Lemma dequeue_batch_cases q now ns max order w res w' :
  wf w -> (0 < max)%nat ->
  dequeue_batch_ordered_reporting q now ns max order w = (Ok res, w') ->
  wf w' /\ exists cs xs,
    dq_claimed res = (fun r => job_of_row (run_row now r)) <$> cs
    /\ dq_expired res = (fun r => job_of_row (expire_row now r)) <$> xs
    /\ (length cs <= max)%nat /\ NoDup (jr_id <$> cs)
    /\ StronglySorted (cmp_le (dispatch_cmp order)) cs
    /\ Forall (claimable q now ns (db w)) cs /\ Forall (expirable q now ns (db w)) xs
    /\ dequeue_effect now cs xs (db w) (db w')
    /\ ((length cs < max)%nat -> forall r,
          r ∈ sql_limit (Z.min (Z.min (Z.of_nat max * 4) u64_max) 400)
                (ranked q now ns order (db w)) ->
          claimable q now ns (db w) r -> r ∈ cs).
Proof.
  intros Hwf Hmax Hrun. destruct (pool_ready (tick w)) eqn:Hp.
  2:{ by rewrite dequeue_batch_no_pool in Hrun. }
  destruct (dequeue_batch_run q now ns max order w Hwf Hp Hmax)
    as (pre & post & w1 & Hsplit & Heq & Hwf' & Hlen & Hend & Heff).
  rewrite Heq in Hrun. injection Hrun as <- <-.
  set (limit := Z.min _ 400) in *. clearbody limit.
  destruct (window_claimable _ _ _ _ _ _ _ _ Hwf Hsplit) as [Hcs Hxs].
  split; [done|]. do 2 eexists. split_and!; try done.
  - eapply sublist_NoDup; [by apply (NoDup_ranked q now ns order w)|].
    apply fmap_sublist. etrans; [apply sublist_filter|].
    etrans; [|apply (sql_limit_sublist limit)]. rewrite Hsplit. by apply sublist_inserts_r.
  - eapply sublist_StronglySorted; [|apply sublist_filter].
    eapply (StronglySorted_app_1_l _ pre post). rewrite <- Hsplit.
    eapply sublist_StronglySorted; [|apply sql_limit_sublist]. apply order_by_sorted, _.
  - intros Hshort r Hin Hr. destruct Hend as [Hend| ->]; [lia|].
    rewrite Hsplit, app_nil_r in Hin. apply list_elem_of_filter.
    split; [apply Is_true_true, Hr|done].
Qed.

(** A batch dequeue that has a connection returns, and hands out at most [max]
    jobs, each a different claimable one and now running, in dispatch order; it stops
    short of [max] only when no claimable job is left in its window of four candidates
    per requested job (at most 400).  It fails only without a connection. *)
Theorem dequeue_batch_spec q now ns max order w r w' :
  wf w -> (0 < max)%nat -> dequeue_batch_ordered_reporting q now ns max order w = (r, w') ->
  wf w' /\
  match r with
  | Ok res => exists cs xs,
      dq_claimed res = (fun r => job_of_row (run_row now r)) <$> cs
      /\ dq_expired res = (fun r => job_of_row (expire_row now r)) <$> xs
      /\ (length cs <= max)%nat /\ NoDup (jr_id <$> cs)
      /\ StronglySorted (cmp_le (dispatch_cmp order)) cs
      /\ Forall (claimable q now ns (db w)) cs /\ Forall (expirable q now ns (db w)) xs
      /\ dequeue_effect now cs xs (db w) (db w')
      /\ ((length cs < max)%nat -> forall r,
            r ∈ sql_limit (Z.min (Z.min (Z.of_nat max * 4) u64_max) 400)
                  (ranked q now ns order (db w)) ->
            claimable q now ns (db w) r -> r ∈ cs)
  | Err e => e = Pool /\ pool_ready (tick w) = false /\ db w' = db w
  end.
Proof.
  intros Hwf Hmax Hrun. destruct (pool_ready (tick w)) eqn:Hp.
  - destruct (dequeue_batch_run q now ns max order w Hwf Hp Hmax) as (? & ? & ? & _ & Heq & _).
    rewrite Heq in Hrun. injection Hrun as <- <-.
    exact (dequeue_batch_cases _ _ _ _ _ _ _ _ Hwf Hmax Heq).
  - rewrite dequeue_batch_no_pool in Hrun by done. injection Hrun as <- <-.
    split; [by apply wf_bump|done].
Qed.

(** *** Several queues *)

(** Jobs handed out so far: distinct, and stored as running. *)
Definition handed_out (js : list Job) (w : World) : Prop :=
  wf w /\ NoDup (j_id <$> js)
  /\ Forall (fun j => exists r, db_jobs (db w) !! j_id j = Some r
       /\ jr_status r = as_int Running /\ job_of_row r = j) js.

Lemma handed_out_batch q now ns max order js w res w' :
  (0 < max)%nat -> handed_out js w ->
  dequeue_batch_ordered_reporting q now ns max order w = (Ok res, w') ->
  handed_out (js ++ dq_claimed res) w' /\ (length (dq_claimed res) <= max)%nat.
Proof.
  intros Hmax (Hwf & Hnd & Hjs) Hrun.
  destruct (dequeue_batch_cases _ _ _ _ _ _ _ _ Hwf Hmax Hrun)
    as (Hwf' & cs & xs & -> & _ & Hlen & Hnd' & _ & Hcs & Hxs & (He1 & _ & He3 & _) & _).
  split; [|by rewrite length_fmap]. rewrite Forall_forall in Hjs.
  assert (Hnot : forall j, j ∈ js -> j_id j ∉ (jr_id <$> cs ++ xs)).
  { intros j Hj (r & Hid & Hr)%list_elem_of_fmap.
    assert (db_jobs (db w) !! jr_id r = Some r /\ jr_status r = as_int Pending) as [Hk Hst].
    { rewrite Forall_forall in Hcs, Hxs.
      apply elem_of_app in Hr as [Hr|Hr]; [destruct (Hcs _ Hr) as (? & Hc & _)
        |destruct (Hxs _ Hr) as (? & Hc & _)]; eauto using is_candidate_pending. }
    destruct (Hjs _ Hj) as (r' & Hk' & Hst' & _). rewrite Hid in Hk'.
    simplify_eq. by rewrite Hst in Hst'. }
  split_and!; [done| |].
  - rewrite fmap_app. apply NoDup_app. split_and!; [done| |].
    + intros id (j & -> & Hj)%list_elem_of_fmap Hin. apply (Hnot _ Hj).
      rewrite fmap_app, elem_of_app. left. rewrite <- list_fmap_compose in Hin. exact Hin.
    + by rewrite <- list_fmap_compose.
  - apply Forall_app. split.
    + apply Forall_forall. intros j Hj. destruct (Hjs _ Hj) as (r & Hk & ?).
      exists r. split; [|done]. by rewrite (proj1 (He3 _ (Hnot _ Hj))).
    + apply Forall_fmap, Forall_forall. intros r Hr. exists (run_row now r).
      split; [exact (He1 r Hr)|done].
Qed.

Lemma handed_out_bump n js w : handed_out js w -> handed_out js (bump n w).
Proof. intros (? & ? & ?). split; [by apply wf_bump|done]. Qed.

Lemma dequeue_batch_from_cases queues now ns max orders out w r w' :
  handed_out (dq_claimed out) w -> (length (dq_claimed out) <= max)%nat ->
  dequeue_batch_from_loop queues now ns max orders out w = (r, w') ->
  wf w' /\ match r with
           | Ok out' => handed_out (dq_claimed out') w'
                        /\ (length (dq_claimed out') <= max)%nat
           | Err e => e = Pool
           end.
Proof.
  revert out w. induction queues as [|q queues IH]; intros out w Hout Hlen; simpl.
  { intros [= <- <-]. split; [apply Hout|done]. }
  case_bool_decide as Hfull; [intros [= <- <-]; split; [apply Hout|done]|].
  set (rem := (max - length (dq_claimed out))%nat). assert (Hrem : (0 < rem)%nat) by lia.
  destruct (dequeue_batch_ordered_reporting q now ns rem (order_for orders q) w)
    as [[res|e] w1] eqn:Hrun.
  - rewrite (bind_ok _ _ _ _ _ Hrun).
    destruct (handed_out_batch _ _ _ _ _ _ _ _ _ Hrem Hout Hrun) as [Hout1 Hlen1].
    apply IH; [done|]. simpl. rewrite length_app. lia.
  - rewrite (bind_err _ _ _ _ _ Hrun). intros [= <- <-].
    destruct Hout as (Hwf & _). destruct (pool_ready (tick w)) eqn:Hp.
    + destruct (dequeue_batch_run q now ns rem (order_for orders q) w Hwf Hp Hrem)
        as (? & ? & ? & _ & Heq & _). by rewrite Heq in Hrun.
    + rewrite dequeue_batch_no_pool in Hrun by done. injection Hrun as <- <-.
      split; [by apply wf_bump|done].
Qed.

(** A batch dequeue over several queues stays within its budget: the jobs it hands
    out are distinct, all of them are stored as running, and the table invariant
    holds afterwards whether or not a connection was lost half way. *)
Theorem dequeue_batch_from_spec queues now ns max orders w r w' :
  wf w -> dequeue_batch_from_reporting queues now ns max orders w = (r, w') ->
  wf w' /\
  match r with
  | Ok out =>
      (length (dq_claimed out) <= max)%nat /\ NoDup (j_id <$> dq_claimed out)
      /\ Forall (fun j => exists row, db_jobs (db w') !! j_id j = Some row
           /\ jr_status row = as_int Running /\ job_of_row row = j) (dq_claimed out)
  | Err e => e = Pool
  end.
Proof.
  intros Hwf Hrun.
  destruct (dequeue_batch_from_cases queues now ns max orders (mkDequeued [] []) w r w')
    as [Hwf' Hr]; [|simpl; lia|done|].
  - split_and!; [done|constructor|constructor].
  - split; [done|]. destruct r; [|done]. by destruct Hr as ((_ & ? & ?) & ?).
Qed.

(** *** Preservation of the invariant *)

Lemma keeps_dequeue_ordered_reporting q now ns order :
  keeps wf (dequeue_ordered_reporting q now ns order).
Proof.
  intros w Hwf. destruct (pool_ready (tick w)) eqn:Hp.
  - destruct (dequeue_run q now ns order w Hwf Hp) as (? & ? & ? & _ & -> & ? & _). done.
  - rewrite dequeue_no_pool by done. by apply wf_bump.
Qed.

Lemma keeps_dequeue_from_reporting queues now ns orders :
  keeps wf (dequeue_from_reporting queues now ns orders).
Proof.
  unfold dequeue_from_reporting. generalize (@nil Job).
  induction queues as [|q queues IH]; intros ex; simpl; [apply keeps_ret|].
  apply keeps_bind; [apply keeps_dequeue_ordered_reporting|]. intros step.
  destruct (dq_claimed step); [apply keeps_ret|apply IH].
Qed.

Lemma keeps_dequeue_batch_from_reporting queues now ns max orders :
  keeps wf (dequeue_batch_from_reporting queues now ns max orders).
Proof.
  intros w Hwf. eapply (dequeue_batch_from_cases _ _ _ _ _ (mkDequeued [] []) w);
    [|simpl; lia|apply surjective_pairing].
  split_and!; [done|constructor|constructor].
Qed.

(** *** The candidate window *)

(** When the hundred best-ranked candidates are all blocked, a dequeue hands out
    nothing and changes nothing, whatever ranks behind them. *)
Lemma dequeue_blocked_window q now ns order w :
  wf w -> pool_ready (tick w) = true ->
  (forall r, r ∈ sql_limit 100 (ranked q now ns order (db w)) ->
     past_expiry now (jr_expires_at r) = false /\ ready (db w) now r = false) ->
  exists w', dequeue_ordered_reporting q now ns order w = (Ok (mkDequeued None []), w')
    /\ db_jobs (db w') = db_jobs (db w).
Proof.
  intros Hwf Hp Hblocked.
  destruct (dequeue_run q now ns order w Hwf Hp)
    as (pre & post & w1 & Hsplit & Heq & _ & _ & _ & _ & _ & Hsame & _).
  assert (Hnil : forall (P : JobRow -> Prop) `{!forall r, Decision (P r)},
    (forall r, r ∈ pre -> ~ P r) -> filter P pre = []).
  { intros P ? HP. destruct (filter P pre) as [|r l] eqn:Hf; [done|].
    assert (r ∈ filter P pre) as [Hr Hin]%list_elem_of_filter by (rewrite Hf; left).
    by destruct (HP r Hin). }
  assert (Hpre : forall r, r ∈ pre ->
    past_expiry now (jr_expires_at r) = false /\ ready (db w) now r = false).
  { intros r Hr. apply Hblocked. rewrite Hsplit. apply elem_of_app. by left. }
  rewrite !Hnil in Heq, Hsame; try (intros r Hr; destruct (Hpre r Hr) as [Hx Hy];
    by rewrite ?Hx, ?Hy; intros []).
  exists w1. split; [done|]. apply map_eq. intros id. apply Hsame. by intros ?%elem_of_nil.
Qed.

End properties.

#[export] Hint Resolve keeps_dequeue_ordered_reporting keeps_dequeue_from_reporting
  keeps_dequeue_batch_from_reporting : keeps.

(** *** Examples *)

Section examples.
#[local] Existing Instances demo_env demo_engine demo_uuid_fresh demo_scan_complete.

Definition demo_prio (priority : Z) (deps : list string) : NewJob :=
  mkNewJob "default" "mail.send" [] priority 0 3 30000 None None None deps
    None None (Some "acme") None None.

(** A job and [n] dependents of higher priority, all in one queue. *)
Definition stuck_world (n : nat) : World :=
  snd (enqueue_batch (replicate n (demo_prio 10 [uuid_v7 1]))
        (snd (enqueue (demo_prio 0 []) demo_world))).

Lemma wf_stuck_world n : wf (stuck_world n).
Proof. apply keeps_enqueue_batch, keeps_enqueue, wf_empty. Qed.

Definition demo_parent : JobRow :=
  row_of (into_job_at (uuid_v7 1) (clock_at 0) (demo_prio 0 [])).

(** A row whose readiness and rank do not depend on the clock. *)
Definition timeless (r : JobRow) : bool :=
  (jr_scheduled_at r =? 0) && bool_decide (jr_expires_at r = None).

Lemma ranked_timeless q now ns order d :
  0 <= now -> forallb timeless (scan (db_jobs d)) = true ->
  ranked q now ns order d = ranked q 0 ns order d.
Proof.
  intros Hnow Hall. unfold ranked. f_equal.
  rewrite forallb_forall in Hall.
  assert (Hiff : forall r, r ∈ scan (db_jobs d) ->
    is_candidate q now ns r = is_candidate q 0 ns r).
  { intros r Hr%list_elem_of_In. apply Hall, andb_true_iff in Hr as [Hs%Z.eqb_eq _].
    unfold is_candidate. rewrite Hs. by rewrite (proj2 (Z.leb_le 0 now)) by done. }
  clear Hall. induction (scan (db_jobs d)) as [|r l IH]; [done|].
  rewrite !filter_cons, Hiff by left.
  rewrite IH by (intros r' Hr'; apply Hiff; by right). done.
Qed.

Lemma ready_timeless d now r : timeless r = true -> ready d now r = ready d 0 r.
Proof.
  unfold timeless, ready, past_expiry. rewrite andb_true_iff, bool_decide_eq_true.
  by intros [_ ->].
Qed.

(** C6: The hundred-candidate window can starve a queue.  When a hundred blocked
    dependents outrank the job they wait for, that job is pending, due, unexpired and
    unblocked, yet at every later instant a dequeue of the queue hands out nothing and
    changes nothing: the queue is stuck although it has a claimable job. *)
Theorem dequeue_window_starves now :
  0 <= now ->
  let w := stuck_world 100 in
  wf w /\ claimable "default" now (Some "acme") (db w) demo_parent
  /\ exists w', dequeue_ordered_reporting "default" now (Some "acme") Fifo w
        = (Ok (mkDequeued None []), w') /\ db_jobs (db w') = db_jobs (db w).
Proof.
  intros Hnow w. split; [apply wf_stuck_world|].
  assert (Hall : forallb timeless (scan (db_jobs (db w))) = true) by by vm_compute.
  split.
  - split_and!; [by vm_compute| |].
    + unfold is_candidate. rewrite (proj2 (Z.leb_le _ now)) by done. by vm_compute.
    + rewrite ready_timeless by by vm_compute. by vm_compute.
  - apply dequeue_blocked_window; [apply wf_stuck_world|done|].
    rewrite ranked_timeless by done. intros r Hr.
    assert (Hb : forallb (fun r => timeless r && negb (ready (db w) 0 r))
      (sql_limit 100 (ranked "default" 0 (Some "acme") Fifo (db w))) = true) by by vm_compute.
    rewrite forallb_forall in Hb. apply list_elem_of_In, Hb, andb_true_iff in Hr as [Ht Hr].
    rewrite ready_timeless by done. split; [|by destruct (ready (db w) 0 r)].
    unfold timeless in Ht. apply andb_true_iff in Ht as [_ Ht%bool_decide_eq_true].
    by rewrite Ht.
Qed.

Lemma dequeue_window_starves_witness :
  exists w', dequeue_ordered_reporting "default" 5000 (Some "acme") Fifo (stuck_world 100)
    = (Ok (mkDequeued None []), w').
Proof.
  destruct (dequeue_window_starves 5000) as (_ & _ & w' & H & _); [lia|]. by exists w'.
Defined.

(** One job ready to run. *)
Definition one_world : World := snd (enqueue (demo_prio 3 []) demo_world).

Lemma wf_one_world : wf one_world.
Proof. apply keeps_enqueue, wf_empty. Qed.


Lemma dequeue_best_first_witness :
  let x := dequeue_ordered_reporting "default" 5000 (Some "acme") Fifo one_world in
  exists r, claimable "default" 5000 (Some "acme") (db one_world) r
    /\ jr_id r = uuid_v7 1.
Proof.
  intros x.
  set (job := job_of_row (run_row 5000 (row_of (into_job_at (uuid_v7 1) (clock_at 0)
    (demo_prio 3 []))))).
  assert (Hx : x = (Ok (mkDequeued (Some job) []), snd x)) by by vm_compute.
  destruct (dequeue_best_first _ _ _ _ _ _ _ _ wf_one_world Hx) as (r & Hj & Hr & _).
  exists r. split; [done|]. by injection Hj.
Defined.

Lemma dequeue_none_no_ready_witness :
  ~ claimable "other" 5000 (Some "acme") (db one_world)
      (row_of (into_job_at (uuid_v7 1) (clock_at 0) (demo_prio 3 []))).
Proof.
  set (x := dequeue_ordered_reporting "other" 5000 (Some "acme") Fifo one_world).
  assert (Hx : x = (Ok (mkDequeued None []), snd x)) by by vm_compute.
  apply (dequeue_none_no_ready _ _ _ _ _ _ _ _ wf_one_world Hx). right. vm_compute. lia.
Defined.

(** A completed job and a dependent of it. *)
Definition gate_world : World :=
  let w := snd (enqueue (demo_prio 0 []) demo_world) in
  let row := jr_with_completed_at (Some 7) (jr_with_status (as_int Complete) demo_parent) in
  let w := mkWorld (archive_db row (db w)) (tick w) in
  snd (enqueue (demo_prio 3 [uuid_v7 1]) w).

Lemma wf_gate_world : wf gate_world.
Proof.
  apply keeps_enqueue. unfold wf. simpl.
  eapply (wf_archive _ _ _ _ _ demo_parent (jr_with_completed_at (Some 7)
    (jr_with_status (as_int Complete) demo_parent)));
    [by apply keeps_enqueue, wf_empty|by vm_compute|done|done|by eexists].
Qed.

Lemma dequeue_dependencies_complete_witness :
  exists a, db_archived_jobs (db gate_world) !! uuid_v7 1 = Some a
    /\ ar_status a = as_int Complete.
Proof.
  set (x := dequeue_ordered_reporting "default" 5000 (Some "acme") Fifo gate_world).
  set (job := job_of_row (run_row 5000 (row_of (into_job_at (uuid_v7 4) (clock_at 3)
    (demo_prio 3 [uuid_v7 1]))))).
  assert (Hx : x = (Ok (mkDequeued (Some job) []), snd x)) by by vm_compute.
  apply (dequeue_dependencies_complete _ _ _ _ _ _ _ _ (uuid_v7 6)
    (mkJobDependencyRow (uuid_v7 6) (uuid_v7 4) (uuid_v7 1)) wf_gate_world Hx); by vm_compute.
Defined.

Lemma dequeue_batch_spec_witness :
  let x := dequeue_batch_ordered_reporting "default" 5000 (Some "acme") 2 Lifo one_world in
  is_ok (fst x) = true /\ wf (snd x).
Proof.
  intros x. split; [by vm_compute|].
  set (job := job_of_row (run_row 5000 (row_of (into_job_at (uuid_v7 1) (clock_at 0)
    (demo_prio 3 []))))).
  assert (Hx : x = (Ok (mkDequeued [job] []), snd x)) by by vm_compute.
  apply (dequeue_batch_spec _ _ _ 2 _ _ _ _ wf_one_world ltac:(lia) Hx).
Defined.

Lemma dequeue_batch_from_spec_witness :
  let x := dequeue_batch_from_reporting ["other"; "default"] 5000 (Some "acme") 2 ∅ one_world in
  is_ok (fst x) = true /\ wf (snd x).
Proof.
  intros x. split; [by vm_compute|].
  apply (dequeue_batch_from_spec _ _ _ _ _ _ _ _ wf_one_world (surjective_pairing x)).
Defined.

End examples.
