(* ===== verification/Transitions.v ===== *)
(** * Job transitions and single-job reads ([diesel_common/jobs.rs])

    What happens to a job after it is claimed: completion (one or many), failure,
    retry, reschedule, forced requeue, cancellation requests, progress; and the
    reads by id. *)
From S2P Require Import Prelude Job Db Store Enqueue Dequeue.

(** The field assignments the terminal paths make before archiving a row. *)
Definition completed_row (now : Z) (result : option bytes) (r : JobRow) : JobRow :=
  jr_with_result result (jr_with_completed_at (Some now) (jr_with_status (as_int Complete) r)).
Definition failed_row (now : Z) (error : string) (r : JobRow) : JobRow :=
  jr_with_error (Some error) (jr_with_completed_at (Some now) (jr_with_status (as_int Failed) r)).
Definition cancelled_row (now : Z) (error : option string) (r : JobRow) : JobRow :=
  match error with
  | Some e =>
      jr_with_error (Some e)
        (jr_with_completed_at (Some now) (jr_with_status (as_int Cancelled) r))
  | None => jr_with_completed_at (Some now) (jr_with_status (as_int Cancelled) r)
  end.

(** The assignments of the updates that put a job back to [Pending]. *)
Definition pending_row (scheduled_at : Z) (r : JobRow) : JobRow :=
  jr_with_error None (jr_with_completed_at None (jr_with_started_at None
    (jr_with_scheduled_at scheduled_at (jr_with_status (as_int Pending) r)))).

Section transitions.
Context {E : Env} {G : Engine}.

(** [jobs.find(id)] under the filters of the completing paths. *)
Definition find_running (id : string) (namespace : option string) : DbM (option JobRow) :=
  row ← sql_find jobs id;
  mret match row with
       | Some r =>
           if (jr_status r =? as_int Running) && job_in_namespace (jr_namespace r) namespace
           then Some r else None
       | None => None
       end.

Definition complete (id : string) (result_bytes : option bytes) (namespace : option string)
    : DbM unit :=
  now ← now_millis;
  write_transaction (
    row ← find_running id namespace;
    match row with
    | None => throw (JobNotFound id)
    | Some row => archive_job_row (completed_row now result_bytes row)
    end).

Definition complete_one (now : Z) (namespace : option string) (c : JobCompletion) : DbM unit :=
  row ← find_running (jc_job_id c) namespace;
  match row with
  | None => throw (JobNotFound (jc_job_id c))
  | Some row =>
      archive_job_row (completed_row now (jc_result c) row) ;;
      metric_id ← now_v7;
      sql_insert task_metrics metric_id
        (mkTaskMetricRow metric_id (jc_task_name c) (jc_job_id c) (jc_wall_time_ns c)
           0 true now (jr_namespace row))
  end.

Definition complete_batch (completions : list JobCompletion) (namespace : option string)
    : DbM unit :=
  if bool_decide (jc_job_id <$> completions = []) then mret tt
  else
    now ← now_millis;
    write_transaction (for_each (complete_one now namespace) completions).

Definition fail (id : string) (error : string) : DbM unit :=
  now ← now_millis;
  write_transaction (
    row ← find_running id None;
    match row with
    | None => throw (JobNotFound id)
    | Some row => archive_job_row (failed_row now error row)
    end).

Definition retry (id : string) (next_scheduled_at : Z) (namespace : option string) : DbM unit :=
  write_transaction (
    affected ← sql_update jobs id (fun r => job_in_namespace (jr_namespace r) namespace)
      (fun r => jr_with_retry_count (jr_retry_count r + 1) (pending_row next_scheduled_at r));
    if affected =? 0 then throw (JobNotFound id)
    else sql_delete_pk execution_claims id ;; mret tt).

Definition reschedule (id : string) (next_scheduled_at : Z) (namespace : option string)
    : DbM unit :=
  conn ;;
  affected ← sql_update jobs id (fun r => job_in_namespace (jr_namespace r) namespace)
    (pending_row next_scheduled_at);
  if affected =? 0 then throw (JobNotFound id) else mret tt.

Definition requeue_stuck (id : string) (now : Z) : DbM bool :=
  write_transaction (
    affected ← sql_update jobs id (fun r => jr_status r =? as_int Running)
      (fun r => jr_with_cancel_requested 0 (pending_row now r));
    if affected =? 0 then mret false
    else sql_delete_pk execution_claims id ;; mret true).

Definition request_cancel (id : string) (namespace : option string) : DbM bool :=
  conn ;;
  affected ← sql_update jobs id
    (fun r => (jr_status r =? as_int Running) && job_in_namespace (jr_namespace r) namespace)
    (jr_with_cancel_requested 1);
  mret (0 <? affected).

Definition is_cancel_requested (id : string) (namespace : option string) : DbM bool :=
  conn ;;
  row ← sql_find jobs id;
  mret match row with
       | Some r => job_in_namespace (jr_namespace r) namespace
                   && negb (jr_cancel_requested r =? 0)
       | None => false
       end.

Definition CANCEL_CHUNK : nat := 500.

Definition cancel_requested_among (ids : list string) (namespace : option string)
    : DbM (list string) :=
  conn ;;
  foldM (fun requested chunk =>
    rows ← sql_select jobs (fun r =>
      mem (jr_id r) chunk && negb (jr_cancel_requested r =? 0)
      && job_in_namespace (jr_namespace r) namespace);
    mret (requested ++ (jr_id <$> rows))) [] (chunks CANCEL_CHUNK ids).

Definition mark_cancelled (id : string) (namespace : option string) : DbM unit :=
  now ← now_millis;
  write_transaction (
    row ← sql_find jobs id;
    match row with
    | None => mret tt
    | Some row =>
        if negb (job_in_namespace (jr_namespace row) namespace) then mret tt
        else archive_job_row (cancelled_row now (Some "cancelled by request") row)
    end).

Definition update_progress (id : string) (progress : Z) (namespace : option string) : DbM unit :=
  if negb ((0 <=? progress) && (progress <=? 100)) then
    throw (Other "progress must be between 0 and 100")
  else
    conn ;;
    affected ← sql_update jobs id (fun r => job_in_namespace (jr_namespace r) namespace)
      (jr_with_progress (Some progress));
    if affected =? 0 then throw (JobNotFound id) else mret tt.

Definition get_job (id : string) (namespace : option string) : DbM (option Job) :=
  conn ;;
  row ← sql_find jobs id;
  match row with
  | Some jobrow =>
      mret (if negb (job_in_namespace (jr_namespace jobrow) namespace) then None
            else Some (job_of_row jobrow))
  | None =>
      archived ← sql_find archived_jobs id;
      mret match archived with
           | Some a => if job_in_namespace (ar_namespace a) namespace
                       then Some (job_of_archived a) else None
           | None => None
           end
  end.

(** The [HashMap] of [get_jobs_by_ids] is a finite map; its values come out in the
    order of a scan. *)
Definition get_jobs_by_ids (ids : list string) (namespace : option string) : DbM (list Job) :=
  conn ;;
  found ← foldM (fun found chunk =>
    live ← sql_select jobs (fun r => mem (jr_id r) chunk);
    let found := foldl (fun m r => let job := from_narrow (narrow r) [] None in
                                   <[j_id job := job]> m) found live in
    archived ← sql_select archived_jobs (fun r => mem (ar_id r) chunk);
    mret (foldl (fun m r => let job := from_narrow_archived (narrow_archived r) in
                            <[j_id job := job]> m) found archived))
    (∅ : gmap string Job) (chunks DELETE_ID_CHUNK ids);
  mret (filter (fun job => Is_true (job_in_namespace (j_namespace job) namespace)) (scan found)).

Definition get_dependencies (job_id : string) (namespace : option string) : DbM (list string) :=
  hidden ← match namespace with
           | Some _ => j ← get_job job_id namespace; mret (bool_decide (j_id <$> j = None))
           | None => mret false
           end;
  if (hidden : bool) then mret []
  else
    conn ;;
    l ← sql_select job_dependencies (fun d => bool_decide (dep_job_id d = job_id));
    mret (dep_depends_on_job_id <$> l).

Definition get_dependents (job_id : string) (namespace : option string) : DbM (list string) :=
  hidden ← match namespace with
           | Some _ => j ← get_job job_id namespace; mret (bool_decide (j_id <$> j = None))
           | None => mret false
           end;
  if (hidden : bool) then mret []
  else
    conn ;;
    l ← sql_select job_dependencies (fun d => bool_decide (dep_depends_on_job_id d = job_id));
    mret (dep_job_id <$> l).

End transitions.

(** ** Properties *)

Section properties.
Context {E : Env} {G : Engine} `{!UuidFresh E} `{!ScanComplete G}.

(** The running row an operation addresses. *)
Definition running_in (d : DB) (id : string) (namespace : option string) : option JobRow :=
  r ← db_jobs d !! id;
  if (jr_status r =? as_int Running) && job_in_namespace (jr_namespace r) namespace
  then Some r else None.

Lemma find_running_eq id ns w : find_running id ns w = (Ok (running_in (db w) id ns), w).
Proof. unfold find_running, running_in, mbind, M_bind. simpl. by destruct (_ !! id). Qed.

Lemma running_in_Some d id ns r :
  running_in d id ns = Some r <->
  db_jobs d !! id = Some r /\ jr_status r = as_int Running
  /\ job_in_namespace (jr_namespace r) ns = true.
Proof.
  unfold running_in. destruct (db_jobs d !! id) as [r'|]; simpl; [|by split; [|intros []]].
  destruct (Z.eqb_spec (jr_status r') (as_int Running)),
    (job_in_namespace (jr_namespace r') ns) eqn:?; simpl; split;
    try done; try (by intros [= <-]); intros ([= <-] & ? & ?); congruence.
Qed.

(** Archiving a live row under a terminal status. *)
Lemma archive_live w r row :
  wf w -> db_jobs (db w) !! jr_id row = Some r -> jr_namespace row = jr_namespace r ->
  is_terminal (jr_status row) = true -> is_Some (jr_completed_at row) ->
  archive_job_row row w = (Ok tt, mkWorld (archive_db row (db w)) (tick w))
  /\ wf (mkWorld (archive_db row (db w)) (tick w)).
Proof.
  intros Hwf Hr Hns Hterm Hc. split.
  - apply archive_job_row_ok, (wf_disjoint _ _ _ _ _ Hwf). by rewrite Hr.
  - by eapply wf_archive.
Qed.

(** The update of one live row. *)
Definition update_db (id : string) (r : JobRow) (d : DB) : DB :=
  set_jobs (<[id := r]> (db_jobs d)) d.

Lemma sql_update_jobs_eq id p f w :
  sql_update jobs id p f w =
    match db_jobs (db w) !! id with
    | Some r => if p r then (Ok 1, mkWorld (update_db id (f r) (db w)) (tick w)) else (Ok 0, w)
    | None => (Ok 0, w)
    end.
Proof. done. Qed.

(** An update that keeps the identity and an active, consistent status. *)
Definition live_edit (f : JobRow -> JobRow) : Prop :=
  forall r, same_identity r (f r)
    /\ (is_active (jr_status r) = true -> is_active (jr_status (f r)) = true)
    /\ ((jr_status r = as_int Running -> is_Some (jr_started_at r)) ->
        jr_status (f r) = as_int Running -> is_Some (jr_started_at (f r))).

Lemma wf_live_edit f id r w :
  wf w -> live_edit f -> db_jobs (db w) !! id = Some r ->
  wf (mkWorld (update_db id (f r) (db w)) (tick w)).
Proof.
  intros Hwf Hf Hr. destruct (Hf r) as (Hid & Hact & Hrun). unfold wf. simpl.
  eapply wf_update_live; [done|done|done| |].
  - apply Hact. by eapply (wf_live_status _ _ _ _ _ Hwf).
  - apply Hrun. by eapply (wf_live_started _ _ _ _ _ Hwf).
Qed.

Lemma keeps_sql_update_jobs id p f : live_edit f -> keeps wf (sql_update jobs id p f).
Proof.
  intros Hf w Hwf. rewrite sql_update_jobs_eq. destruct (_ !! id) as [r|] eqn:Hr; [|done].
  destruct (p r); [|done]. by apply wf_live_edit.
Qed.

Lemma live_edit_pending t : live_edit (pending_row t).
Proof. by intros r. Qed.

Lemma live_edit_retry t :
  live_edit (fun r => jr_with_retry_count (jr_retry_count r + 1) (pending_row t r)).
Proof. by intros r. Qed.

Lemma live_edit_requeue t : live_edit (fun r => jr_with_cancel_requested 0 (pending_row t r)).
Proof. by intros r. Qed.

Lemma live_edit_cancel : live_edit (jr_with_cancel_requested 1).
Proof. by intros r. Qed.

Lemma live_edit_progress p : live_edit (jr_with_progress p).
Proof. by intros r. Qed.

(** Statements on tables the invariant does not mention. *)
Lemma keeps_delete_claim id : keeps wf (sql_delete_pk execution_claims id).
Proof. by intros w. Qed.

Lemma keeps_insert_metric id m : keeps wf (sql_insert task_metrics id m).
Proof.
  intros w Hwf. destruct (sql_insert_inv task_metrics id m w) as [->|(_ & _ & ->)]; done.
Qed.

(** *** What archiving leaves *)

Lemma archive_db_facts row d :
  let d' := archive_db row d in let id := jr_id row in
  db_jobs d' = delete id (db_jobs d)
  /\ db_archived_jobs d' = <[id := archived_of row]> (db_archived_jobs d)
  /\ db_execution_claims d' !! id = None
  /\ (forall k s, db_job_steps d' !! k = Some s -> js_job_id s <> id)
  /\ db_job_dependencies d' = db_job_dependencies d.
Proof.
  split_and!; try done; simpl.
  - apply lookup_delete_eq.
  - intros k s Hs. by apply drop_steps_lookup in Hs as [_ ?].
Qed.

(** A transaction that archives the running row it finds. *)
Lemma finish_running_eq id ns (f : JobRow -> JobRow) w :
  wf w ->
  (forall r, jr_id (f r) = jr_id r /\ jr_namespace (f r) = jr_namespace r
     /\ is_terminal (jr_status (f r)) = true /\ is_Some (jr_completed_at (f r))) ->
  let m := write_transaction (
    row ← find_running id ns;
    match row with
    | None => throw (JobNotFound id)
    | Some row => archive_job_row (f row)
    end) in
  m w = (if negb (pool_ready (tick w)) then (Err Pool, bump 1 w)
         else match running_in (db w) id ns with
              | None => (Err (JobNotFound id), bump 1 w)
              | Some r => (Ok tt, mkWorld (archive_db (f r) (db w)) (S (tick w)))
              end)
  /\ wf (snd (m w)).
Proof.
  intros Hwf Hf m. unfold m. rewrite write_transaction_eq.
  destruct (pool_ready (tick w)); simpl; [|split; [done|by apply (wf_bump 1)]].
  rewrite (bind_ok _ _ _ _ _ (find_running_eq id ns (bump 1 w))). simpl.
  destruct (running_in (db w) id ns) as [r|] eqn:Hr; simpl.
  - apply running_in_Some in Hr as (Hk & Hst & Hns). destruct (Hf r) as (Hid & ? & ? & ?).
    assert (Hkey : jr_id r = id) by exact (wf_live_key _ _ _ _ _ Hwf _ _ Hk).
    destruct (archive_live (bump 1 w) r (f r)) as [-> Hwf']; try done.
    + by apply wf_bump.
    + rewrite Hid, Hkey. done.
  - unfold bump. rewrite Nat.max_id. split; [done|by apply (wf_bump 1)].
Qed.

(** *** Statements *)

(** C7: Completing and failing a job.  Exactly a running job of the namespace is
    accepted; it leaves the live table, is archived as complete with its result (as
    failed with its error) at the time read, and its claim and its committed steps are
    gone.  Any other id reports [JobNotFound] and changes nothing. *)
Theorem finish_spec id result error ns w :
  wf w ->
  let now := clock_at (tick w) in
  complete id result ns w =
    (if negb (pool_ready (S (tick w))) then (Err Pool, bump 2 w)
     else match running_in (db w) id ns with
          | None => (Err (JobNotFound id), bump 2 w)
          | Some r => (Ok tt, mkWorld (archive_db (completed_row now result r) (db w)) (2 + tick w))
          end)
  /\ fail id error w =
    (if negb (pool_ready (S (tick w))) then (Err Pool, bump 2 w)
     else match running_in (db w) id None with
          | None => (Err (JobNotFound id), bump 2 w)
          | Some r => (Ok tt, mkWorld (archive_db (failed_row now error r) (db w)) (2 + tick w))
          end)
  /\ wf (snd (complete id result ns w)) /\ wf (snd (fail id error w))
  /\ (forall r, running_in (db w) id ns = Some r ->
        let d' := archive_db (completed_row now result r) (db w) in
        db_jobs d' !! id = None /\ db_execution_claims d' !! id = None
        /\ (forall k s, db_job_steps d' !! k = Some s -> js_job_id s <> id)
        /\ exists a, db_archived_jobs d' !! id = Some a /\ ar_status a = as_int Complete
             /\ ar_result a = result /\ ar_completed_at a = Some now).
Proof.
  intros Hwf now.
  destruct (finish_running_eq id ns (completed_row now result) (bump 1 w)) as [Hc Hcwf];
    [by apply wf_bump|by intros r|].
  destruct (finish_running_eq id None (failed_row now error) (bump 1 w)) as [Hf Hfwf];
    [by apply wf_bump|by intros r|].
  split_and!; [exact Hc|exact Hf|exact Hcwf|exact Hfwf|].
  intros r Hr d'. apply running_in_Some in Hr as (Hk & _ & _).
  assert (Hkey : jr_id r = id) by exact (wf_live_key _ _ _ _ _ Hwf _ _ Hk).
  destruct (archive_db_facts (completed_row now result r) (db w)) as (HJ & HA & Hcl & Hst & _).
  change (jr_id (completed_row now result r)) with (jr_id r) in *.
  fold d' in HJ, HA, Hcl, Hst. clearbody d'. rewrite Hkey in *.
  split_and!; [by rewrite HJ, lookup_delete_eq|done|done|].
  eexists. rewrite HA, lookup_insert_eq. by split_and!.
Qed.

(** *** Batches of completions *)

Definition metric_of (now : Z) (id : string) (ns : option string) (c : JobCompletion)
    : TaskMetricRow :=
  mkTaskMetricRow id (jc_task_name c) (jc_job_id c) (jc_wall_time_ns c) 0 true now ns.

(** The rows of [dn] are archived as complete since [d0] and their metrics recorded;
    no other live row has changed. *)
Definition completed_all (d0 : DB) (ns : option string) (now : Z) (dn : list JobCompletion)
    (w : World) : Prop :=
  wf w /\ minted (tick w) (db_task_metrics (db w)) /\ NoDup (jc_job_id <$> dn)
  /\ (forall id, id ∉ (jc_job_id <$> dn) -> db_jobs (db w) !! id = db_jobs d0 !! id)
  /\ Forall (fun c => exists r, running_in d0 (jc_job_id c) ns = Some r
       /\ db_jobs (db w) !! jc_job_id c = None
       /\ db_archived_jobs (db w) !! jc_job_id c
          = Some (archived_of (completed_row now (jc_result c) r))
       /\ exists k, db_task_metrics (db w) !! k = Some (metric_of now k (jr_namespace r) c)) dn.

Lemma complete_one_step d0 ns now dn c w :
  completed_all d0 ns now dn w ->
  match running_in (db w) (jc_job_id c) ns with
  | None => complete_one now ns c w = (Err (JobNotFound (jc_job_id c)), w)
  | Some r => exists w', complete_one now ns c w = (Ok tt, w') /\ (tick w <= tick w')%nat
      /\ completed_all d0 ns now (dn ++ [c]) w'
  end.
Proof.
  intros (Hwf & Hm & Hnd & Hold & Hdn). unfold complete_one.
  rewrite (bind_ok _ _ _ _ _ (find_running_eq (jc_job_id c) ns w)).
  destruct (running_in (db w) (jc_job_id c) ns) as [r|] eqn:Hrun; [|done].
  pose proof Hrun as (Hk & Hst & Hns)%running_in_Some.
  assert (Hkey : jr_id r = jc_job_id c) by exact (wf_live_key _ _ _ _ _ Hwf _ _ Hk).
  assert (Hnew : jc_job_id c ∉ (jc_job_id <$> dn)).
  { intros (c' & Hid & Hin)%list_elem_of_fmap. rewrite Forall_forall in Hdn.
    destruct (Hdn _ Hin) as (? & _ & Hnone & _). rewrite <- Hid in Hnone. congruence. }
  assert (Hk' : db_jobs (db w) !! jr_id r = Some r) by by rewrite Hkey.
  destruct (archive_live w r (completed_row now (jc_result c) r) Hwf Hk' eq_refl eq_refl
    (ex_intro _ _ eq_refl)) as [Harch Hwf'].
  erewrite bind_ok by exact Harch. erewrite bind_ok by done. simpl.
  rewrite sql_insert_fresh; [|by apply minted_not_fresh|done].
  eexists. split; [done|]. split; [simpl; lia|]. split_and!; simpl.
  - by apply (wf_bump 1 (mkWorld _ (tick w))) in Hwf'.
  - apply minted_insert; [lia|]. eapply minted_mono; [|done]. lia.
  - rewrite fmap_app. apply NoDup_app. split_and!; [done| |apply NoDup_singleton].
    intros id Hin Hs%list_elem_of_singleton. by rewrite Hs in Hin.
  - intros id. rewrite fmap_app, not_elem_of_app. intros [Hn1 Hn2].
    rewrite Hkey, lookup_delete_ne; [by apply Hold|]. intros <-. apply Hn2. by left.
  - apply Forall_app. split.
    + apply Forall_forall. intros c' Hin. rewrite Forall_forall in Hdn.
      destruct (Hdn _ Hin) as (r' & ? & ? & ? & k & Hmk). exists r'.
      assert (Hne : jc_job_id c' <> jc_job_id c).
      { intros Heq. apply Hnew. rewrite <- Heq. by apply list_elem_of_fmap_2. }
      rewrite Hkey, lookup_delete_ne, lookup_insert_ne by done. split_and!; try done.
      exists k. rewrite lookup_insert_ne; [done|]. intros <-.
      by rewrite minted_not_fresh in Hmk.
    + constructor; [|done]. exists r. rewrite Hkey, lookup_delete_eq, lookup_insert_eq.
      split_and!; try done.
      * unfold running_in in *. by rewrite <- (Hold _ Hnew).
      * eexists. by rewrite lookup_insert_eq.
Qed.

Lemma complete_loop_wp d0 ns now cs dn w :
  completed_all d0 ns now dn w ->
  wp (for_each (complete_one now ns) cs)
    (fun _ => completed_all d0 ns now (dn ++ cs))
    (fun e _ => exists c, c ∈ cs /\ e = JobNotFound (jc_job_id c)) w.
Proof.
  revert dn w. induction cs as [|c cs IH]; intros dn w Hdn; simpl; [by rewrite app_nil_r|].
  apply wp_bind. unfold wp at 1. pose proof (complete_one_step d0 ns now dn c w Hdn) as Hstep.
  destruct (running_in (db w) (jc_job_id c) ns).
  - destruct Hstep as (w' & -> & _ & Hdn'). specialize (IH _ _ Hdn').
    rewrite <- app_assoc in IH. eapply wp_mono; [exact IH|done|].
    intros e w'' (c' & Hin & ->). exists c'. split; [by right|done].
  - rewrite Hstep. exists c. split; [left|done].
Qed.

Lemma complete_batch_cases cs ns w r w' :
  wf w -> minted (tick w) (db_task_metrics (db w)) -> cs <> [] ->
  complete_batch cs ns w = (r, w') ->
  match r with
  | Ok _ => completed_all (db w) ns (clock_at (tick w)) cs w'
  | Err Pool => db w' = db w
  | Err (JobNotFound id) => db w' = db w /\ id ∈ (jc_job_id <$> cs)
  | Err _ => False
  end.
Proof.
  intros Hwf Hm Hne. unfold complete_batch. rewrite bool_decide_eq_false_2
    by (by intros ?%fmap_nil_inv).
  erewrite bind_ok by done. fold (clock_at (tick w)). rewrite write_transaction_eq. simpl.
  destruct (pool_ready (S (tick w))); [|by intros [= <- <-]].
  assert (H0 : completed_all (db w) ns (clock_at (tick w)) [] (bump 2 w)).
  { split_and!; [by apply wf_bump| |constructor|done|constructor].
    eapply minted_mono; [|done]. simpl. lia. }
  pose proof (complete_loop_wp (db w) ns (clock_at (tick w)) cs [] (bump 2 w) H0) as Hwp.
  unfold wp in Hwp. simpl in Hwp. unfold bump in *. simpl in *.
  destruct (for_each _ cs _) as [[[]|e] w1]; [by intros [= <- <-]|].
  destruct Hwp as (c & Hin & ->). intros [= <- <-]. split; [done|].
  by apply list_elem_of_fmap_2.
Qed.

(** A batch of completions is all or nothing.  On success every job named was
    running in the namespace, all of them are archived as complete with their own
    results, each has its metric, and no job is named twice; on any error (a job that
    is not running, or named twice, gives [JobNotFound]) the database is unchanged. *)
Theorem complete_batch_spec cs ns w r w' :
  wf w -> minted (tick w) (db_task_metrics (db w)) -> cs <> [] ->
  complete_batch cs ns w = (r, w') ->
  match r with
  | Ok _ => completed_all (db w) ns (clock_at (tick w)) cs w'
  | Err Pool => db w' = db w
  | Err (JobNotFound id) => db w' = db w /\ id ∈ (jc_job_id <$> cs)
  | Err _ => False
  end.
Proof. apply complete_batch_cases. Qed.

(** *** Putting a job back *)

Lemma retry_cases id t ns w :
  wf w ->
  retry id t ns w =
    (if negb (pool_ready (tick w)) then (Err Pool, bump 1 w)
     else match db_jobs (db w) !! id with
          | Some r =>
              if job_in_namespace (jr_namespace r) ns then
                (Ok tt, mkWorld
                   (set_execution_claims (delete id (db_execution_claims (db w)))
                      (update_db id (jr_with_retry_count (jr_retry_count r + 1) (pending_row t r))
                         (db w))) (S (tick w)))
              else (Err (JobNotFound id), bump 1 w)
          | None => (Err (JobNotFound id), bump 1 w)
          end)
  /\ wf (snd (retry id t ns w)).
Proof.
  intros Hwf. unfold retry. rewrite write_transaction_eq.
  destruct (pool_ready (tick w)); [|split; [done|by apply (wf_bump 1)]].
  unfold mbind, M_bind. rewrite sql_update_jobs_eq. simpl.
  destruct (db_jobs (db w) !! id) as [r|] eqn:Hr.
  - destruct (job_in_namespace (jr_namespace r) ns); simpl.
    + split; [done|]. apply (wf_live_edit _ id r (bump 1 w) (wf_bump 1 _ Hwf)
        (live_edit_retry t) Hr).
    + unfold bump. rewrite Nat.max_id. split; [done|by apply (wf_bump 1)].
  - unfold bump. simpl. rewrite Nat.max_id. split; [done|by apply (wf_bump 1)].
Qed.

(** [retry] on every branch.  The live job of the namespace goes back to pending at
    the given time with its retry count raised by one and its claim revoked, keeping its
    committed steps, payload and identity; otherwise [JobNotFound] and no change. *)
Theorem retry_spec id t ns w :
  wf w ->
  retry id t ns w =
    (if negb (pool_ready (tick w)) then (Err Pool, bump 1 w)
     else match db_jobs (db w) !! id with
          | Some r =>
              if job_in_namespace (jr_namespace r) ns then
                (Ok tt, mkWorld
                   (set_execution_claims (delete id (db_execution_claims (db w)))
                      (update_db id (jr_with_retry_count (jr_retry_count r + 1) (pending_row t r))
                         (db w))) (S (tick w)))
              else (Err (JobNotFound id), bump 1 w)
          | None => (Err (JobNotFound id), bump 1 w)
          end)
  /\ wf (snd (retry id t ns w)).
Proof. apply retry_cases. Qed.

(** [requeue_stuck] on every branch.  Only a running job is put back: pending,
    due at [now], with its claim and any cancellation request cleared and its retry
    count untouched; for any other id it reports [false] and changes nothing. *)
Theorem requeue_stuck_spec id now w :
  wf w ->
  requeue_stuck id now w =
    (if negb (pool_ready (tick w)) then (Err Pool, bump 1 w)
     else match running_in (db w) id None with
          | Some r =>
              (Ok true, mkWorld
                 (set_execution_claims (delete id (db_execution_claims (db w)))
                    (update_db id (jr_with_cancel_requested 0 (pending_row now r)) (db w)))
                 (S (tick w)))
          | None => (Ok false, bump 1 w)
          end)
  /\ wf (snd (requeue_stuck id now w)).
Proof.
  intros Hwf. unfold requeue_stuck. rewrite write_transaction_eq.
  destruct (pool_ready (tick w)); [|split; [done|by apply (wf_bump 1)]].
  unfold mbind, M_bind, running_in. rewrite sql_update_jobs_eq. simpl.
  destruct (db_jobs (db w) !! id) as [r|] eqn:Hr; [|split; [done|by apply (wf_bump 1)]].
  simpl. rewrite andb_true_r. destruct (jr_status r =? as_int Running); simpl.
  - split; [done|]. apply (wf_live_edit _ id r (bump 1 w) (wf_bump 1 _ Hwf)
      (live_edit_requeue now) Hr).
  - split; [done|by apply (wf_bump 1)].
Qed.

(** *** Archiving many rows *)

(** What a loop of archivings does to the database: the rows of [rows], as changed by
    [f], are in the archive, and no other job has moved or lost its claim. *)
Definition archive_effect (f : JobRow -> JobRow) (rows : list JobRow) (d d' : DB) : Prop :=
  (forall r, r ∈ rows -> db_jobs d' !! jr_id r = None
     /\ db_archived_jobs d' !! jr_id r = Some (archived_of (f r)))
  /\ (forall id, id ∉ (jr_id <$> rows) ->
       db_jobs d' !! id = db_jobs d !! id
       /\ db_archived_jobs d' !! id = db_archived_jobs d !! id)
  /\ db_job_dependencies d' = db_job_dependencies d
  /\ (forall id, id ∉ (jr_id <$> rows) ->
       db_execution_claims d' !! id = db_execution_claims d !! id).

(** An assignment that makes a row terminal. *)
Definition ends_row (f : JobRow -> JobRow) : Prop :=
  forall r, jr_id (f r) = jr_id r /\ jr_namespace (f r) = jr_namespace r
    /\ is_terminal (jr_status (f r)) = true /\ is_Some (jr_completed_at (f r)).

Lemma archive_rows_eq {B} (g : JobRow -> B) f rows w :
  wf w -> ends_row f -> NoDup (jr_id <$> rows) ->
  Forall (fun r => db_jobs (db w) !! jr_id r = Some r) rows ->
  exists w', mapM (fun r => archive_job_row (f r) ;; mret (g (f r))) rows w
      = (Ok ((fun r => g (f r)) <$> rows), w')
    /\ wf w' /\ tick w' = tick w /\ archive_effect f rows (db w) (db w').
Proof.
  intros Hwf Hf. revert w Hwf. induction rows as [|r rows IH]; intros w Hwf Hnd Hrows.
  { exists w. split; [done|]. split; [done|]. split; [done|].
    split_and!; try done. by intros r ?%elem_of_nil. }
  apply NoDup_cons in Hnd as [Hr Hnd]. apply Forall_cons in Hrows as [Hk Hrows].
  destruct (Hf r) as (Hid & Hns & Hterm & Hcomp).
  assert (Hk' : db_jobs (db w) !! jr_id (f r) = Some r) by by rewrite Hid.
  destruct (archive_live w r (f r) Hwf Hk' Hns Hterm Hcomp) as [Harch Hwf1].
  destruct (IH _ Hwf1 Hnd) as (w' & Heq & Hwf' & Htick & He1 & He2 & He3 & He4).
  { apply Forall_forall. intros r' Hin. simpl. rewrite Hid, lookup_delete_ne.
    - rewrite Forall_forall in Hrows. by apply Hrows.
    - intros Heq. apply Hr. rewrite Heq. by apply list_elem_of_fmap_2. }
  exists w'. split; [|split; [done|split; [by rewrite Htick|split_and!; [| |done|]]]].
  - simpl. erewrite bind_ok; [|by erewrite bind_ok by exact Harch].
    by erewrite bind_ok by exact Heq.
  - intros r' [->|Hin]%elem_of_cons; [|by apply He1].
    destruct (He2 _ Hr) as [-> ->]. simpl. by rewrite Hid, lookup_delete_eq, lookup_insert_eq.
  - intros id [Hne Hn]%not_elem_of_cons. destruct (He2 _ Hn) as [-> ->]. simpl.
    by rewrite Hid, lookup_delete_ne, lookup_insert_ne.
  - intros id [Hne Hn]%not_elem_of_cons. rewrite (He4 _ Hn). simpl. by rewrite Hid, lookup_delete_ne.
Qed.

(** *** Preservation of the invariant *)

Lemma keeps_complete id result ns : keeps wf (complete id result ns).
Proof.
  apply keeps_bind; [apply keeps_now_millis, _|]. intros now w Hwf.
  by apply (finish_running_eq id ns (completed_row now result) w).
Qed.

Lemma keeps_fail id error : keeps wf (fail id error).
Proof.
  apply keeps_bind; [apply keeps_now_millis, _|]. intros now w Hwf.
  by apply (finish_running_eq id None (failed_row now error) w).
Qed.

(** Archiving the row a lookup has just returned. *)
Lemma keeps_archive_found id (p : JobRow -> bool) (f : JobRow -> JobRow) :
  ends_row f ->
  keeps wf (row ← sql_find jobs id;
            match row with
            | Some r => if p r then archive_job_row (f r) else mret tt
            | None => mret tt
            end).
Proof.
  intros Hf w Hwf. unfold mbind, M_bind. simpl.
  destruct (db_jobs (db w) !! id) as [r|] eqn:Hr; [|done]. destruct (p r); [|done].
  destruct (Hf r) as (Hid & ? & ? & ?).
  assert (Hr' : db_jobs (db w) !! jr_id (f r) = Some r).
  { rewrite Hid. by rewrite (wf_live_key _ _ _ _ _ Hwf _ _ Hr). }
  destruct (archive_live w r (f r)) as [-> ?]; done.
Qed.

Lemma keeps_mark_cancelled id ns : keeps wf (mark_cancelled id ns).
Proof.
  apply keeps_bind; [apply keeps_now_millis, _|]. intros now.
  apply keeps_write_transaction; [apply _|]. apply keeps_keeps_ok. intros w Hwf.
  pose proof (keeps_archive_found id (fun r => job_in_namespace (jr_namespace r) ns)
    (cancelled_row now (Some "cancelled by request")) ltac:(by intros r) w Hwf) as H.
  unfold mbind, M_bind in *. simpl in *. destruct (db_jobs (db w) !! id) as [r|]; [|done].
  by destruct (job_in_namespace (jr_namespace r) ns).
Qed.

Lemma keeps_complete_one now ns c : keeps wf (complete_one now ns c).
Proof.
  intros w Hwf. unfold complete_one.
  rewrite (bind_ok _ _ _ _ _ (find_running_eq (jc_job_id c) ns w)).
  destruct (running_in (db w) (jc_job_id c) ns) as [r|] eqn:Hr; [|done].
  apply running_in_Some in Hr as (Hk & _).
  assert (Hk' : db_jobs (db w) !! jr_id r = Some r)
    by by rewrite (wf_live_key _ _ _ _ _ Hwf _ _ Hk).
  destruct (archive_live w r (completed_row now (jc_result c) r) Hwf Hk' eq_refl eq_refl
    (ex_intro _ _ eq_refl)) as [Harch Hwf'].
  erewrite bind_ok by exact Harch. erewrite bind_ok by done. apply keeps_insert_metric.
  by apply (wf_bump 1 (mkWorld _ (tick w))) in Hwf'.
Qed.

#[local] Hint Resolve keeps_complete_one keeps_sql_update_jobs live_edit_pending
  live_edit_retry live_edit_requeue live_edit_cancel live_edit_progress
  keeps_delete_claim : keeps.

Lemma keeps_complete_batch cs ns : keeps wf (complete_batch cs ns).
Proof. unfold complete_batch. solve_keeps. Qed.

Lemma keeps_retry id t ns : keeps wf (retry id t ns).
Proof. unfold retry. solve_keeps. Qed.

Lemma keeps_reschedule id t ns : keeps wf (reschedule id t ns).
Proof. unfold reschedule. solve_keeps. Qed.

Lemma keeps_requeue_stuck id now : keeps wf (requeue_stuck id now).
Proof. unfold requeue_stuck. solve_keeps. Qed.

Lemma keeps_request_cancel id ns : keeps wf (request_cancel id ns).
Proof. unfold request_cancel. solve_keeps. Qed.

Lemma keeps_update_progress id p ns : keeps wf (update_progress id p ns).
Proof. unfold update_progress. solve_keeps. Qed.

End properties.

#[export] Hint Resolve keeps_sql_update_jobs live_edit_pending live_edit_retry
  live_edit_requeue live_edit_cancel live_edit_progress keeps_delete_claim
  keeps_insert_metric keeps_complete keeps_fail keeps_mark_cancelled keeps_complete_batch
  keeps_retry keeps_reschedule keeps_requeue_stuck keeps_request_cancel
  keeps_update_progress : keeps.

(** *** Examples *)

Section examples.
#[local] Existing Instances demo_env demo_engine demo_uuid_fresh demo_scan_complete.

(** One job, claimed and running. *)
Definition running_world : World :=
  snd (dequeue_ordered_reporting "default" 5000 (Some "acme") Fifo one_world).

Lemma wf_running_world : wf running_world.
Proof. apply keeps_dequeue_ordered_reporting, wf_one_world. Qed.

Lemma finish_spec_witness :
  is_ok (fst (complete (uuid_v7 1) (Some [x07]) (Some "acme") running_world)) = true
  /\ wf (snd (complete (uuid_v7 1) (Some [x07]) (Some "acme") running_world)).
Proof.
  split; [by vm_compute|].
  destruct (finish_spec (uuid_v7 1) (Some [x07]) "boom" (Some "acme") _ wf_running_world)
    as (_ & _ & H & _). exact H.
Defined.

Lemma complete_batch_spec_witness :
  let cs := [mkJobCompletion (uuid_v7 1) (Some [x07]) "mail.send" 42] in
  let x := complete_batch cs None running_world in
  fst x = Ok tt /\ completed_all (db running_world) None (clock_at 4) cs (snd x).
Proof.
  intros cs x. assert (Hx : x = (Ok tt, snd x)) by by vm_compute. split; [by rewrite Hx|].
  apply (complete_batch_spec cs None running_world (Ok tt) (snd x) wf_running_world);
    [|done|exact Hx].
  intros k Hk. vm_compute in Hk. by destruct Hk.
Defined.

Lemma retry_spec_witness :
  is_ok (fst (retry (uuid_v7 1) 9000 (Some "acme") running_world)) = true
  /\ wf (snd (retry (uuid_v7 1) 9000 (Some "acme") running_world)).
Proof.
  split; [by vm_compute|]. exact (proj2 (retry_spec (uuid_v7 1) 9000 (Some "acme") _ wf_running_world)).
Defined.

Lemma requeue_stuck_spec_witness :
  fst (requeue_stuck (uuid_v7 1) 9000 running_world) = Ok true
  /\ wf (snd (requeue_stuck (uuid_v7 1) 9000 running_world)).
Proof.
  split; [by vm_compute|]. exact (proj2 (requeue_stuck_spec (uuid_v7 1) 9000 _ wf_running_world)).
Defined.

End examples.
