(* ===== verification/Cascade.v ===== *)
(** * Cascading cancellation ([diesel_common/jobs.rs])

    [cascade_cancel_reporting] walks the dependency graph breadth first from a job
    that failed and archives every pending dependent it reaches.  The loop's bound is
    the number of edges: each round takes one id off the work list, and the list holds
    the root and the dependents of edges, without repetitions.  [bfs_complete] shows
    the bound is enough, so the walk always ends with the whole set of dependents. *)
From S2P Require Import Prelude Job Db Store Enqueue Dequeue Transitions.

Definition DEPENDENCY_CANCELLED : string := "dependency cancelled".
Definition DEPENDENCY_FAILED : string := "dependency failed".

Section cascade.
Context {E : Env} {G : Engine}.

(** [for dep_id in dependents { if visited.insert(..) { queue.push(..) } }], with the
    set of visited ids as the work list itself: an id is pushed when it is inserted. *)
Definition push_new (queue : list string) (dep_id : string) : list string :=
  if mem dep_id queue then queue else queue ++ [dep_id].

(** The loop from position [idx] of the work list; [None] when [fuel] rounds did not
    reach its end. *)
Fixpoint bfs (fuel idx : nat) (queue : list string) : DbM (option (list string)) :=
  match queue !! idx with
  | None => mret (Some queue)
  | Some current_id =>
      match fuel with
      | O => mret None
      | S fuel =>
          edges ← sql_select job_dependencies
            (fun e => bool_decide (dep_depends_on_job_id e = current_id));
          bfs fuel (S idx) (foldl push_new queue (dep_job_id <$> edges))
      end
  end.

(** Rounds enough for any graph with these edges. *)
Definition bfs_fuel (d : DB) : nat := S (size (db_job_dependencies d)).

Definition cascade_cancel_reporting (failed_job_id reason : string) (namespace : option string)
    : DbM (list Job) :=
  conn ;;
  now ← now_millis;
  fuel ← gets (fun w => bfs_fuel (db w));
  walked ← bfs fuel 0 [failed_job_id];
  let queue := tail (default [failed_job_id] walked) in
  if bool_decide (queue = []) then mret []
  else
    let error_msg := (reason +:+ ": " +:+ failed_job_id)%string in
    write_transaction (
      rows ← sql_select jobs (fun r =>
        mem (jr_id r) queue && (jr_status r =? as_int Pending)
        && job_in_namespace (jr_namespace r) namespace);
      mapM (fun row =>
        let row := cancelled_row now (Some error_msg) row in
        archive_job_row row ;; mret (job_of_row row)) rows).

Definition cascade_cancel (failed_job_id reason : string) (namespace : option string)
    : DbM unit :=
  cascade_cancel_reporting failed_job_id reason namespace ;; mret tt.

(** The transaction of [cancel_job_reporting]. *)
Definition cancel_txn (id : string) (now : Z) (namespace : option string) : DbM bool :=
  row ← sql_find jobs id;
  match row with
  | None => mret false
  | Some row =>
      if negb (jr_status row =? as_int Pending) then mret false
      else if negb (job_in_namespace (jr_namespace row) namespace) then mret false
      else archive_job_row (cancelled_row now None row) ;; mret true
  end.

Definition cancel_job_reporting (id : string) (namespace : option string)
    : DbM (bool * list Job) :=
  now ← now_millis;
  archived ← write_transaction (cancel_txn id now namespace);
  if negb (archived : bool) then mret (false, [])
  else
    cascaded ← cascade_cancel_reporting id DEPENDENCY_CANCELLED namespace;
    mret (true, cascaded).

Definition cancel_job (id : string) (namespace : option string) : DbM bool :=
  r ← cancel_job_reporting id namespace; mret (fst r).

End cascade.

(** ** Properties *)

(** [b] waits for [a]. *)
Definition depends (d : DB) (a b : string) : Prop :=
  exists k e, db_job_dependencies d !! k = Some e
    /\ dep_depends_on_job_id e = a /\ dep_job_id e = b.

Section properties.
Context {E : Env} {G : Engine} `{!UuidFresh E} `{!ScanComplete G}.

Lemma mem_spec x l : mem x l = true <-> x ∈ l.
Proof. unfold mem. by rewrite bool_decide_eq_true. Qed.

Lemma push_new_elem queue x y : y ∈ push_new queue x <-> y ∈ queue \/ y = x.
Proof.
  unfold push_new. destruct (mem x queue) eqn:Hm.
  - apply mem_spec in Hm. naive_solver.
  - by rewrite elem_of_app, list_elem_of_singleton.
Qed.

Lemma push_new_NoDup queue x : NoDup queue -> NoDup (push_new queue x).
Proof.
  intros Hnd. unfold push_new. destruct (mem x queue) eqn:Hm; [done|].
  apply NoDup_app. split_and!; [done| |apply NoDup_singleton].
  intros y Hy Hx%list_elem_of_singleton. subst. apply mem_spec in Hy. congruence.
Qed.

(** Pushing a list of dependents extends the work list at its end. *)
Lemma push_all_spec queue xs :
  NoDup queue ->
  let q := foldl push_new queue xs in
  NoDup q /\ (exists ext, q = queue ++ ext) /\ forall y, y ∈ q <-> y ∈ queue \/ y ∈ xs.
Proof.
  revert queue. induction xs as [|x xs IH]; intros queue Hnd; simpl.
  { split_and!; [done|exists []; by rewrite app_nil_r|]. intros y. rewrite elem_of_nil. naive_solver. }
  destruct (IH (push_new queue x) (push_new_NoDup _ _ Hnd)) as (Hnd' & [ext Hext] & Hin).
  split_and!; [done| |].
  - rewrite Hext. unfold push_new. destruct (mem x queue); [by eexists|].
    rewrite <- app_assoc. by eexists.
  - intros y. rewrite Hin, push_new_elem, elem_of_cons. naive_solver.
Qed.

(** The state of the walk: the list starts with the root, holds only what depends on
    it, and the first [idx] entries have had their dependents added. *)
Definition walked (d : DB) (root : string) (idx : nat) (queue : list string) : Prop :=
  NoDup queue /\ head queue = Some root /\ (idx <= length queue)%nat
  /\ Forall (rtc (depends d) root) queue
  /\ (forall i a b, (i < idx)%nat -> queue !! i = Some a -> depends d a b -> b ∈ queue).

(** What the walk returns: the root first, then exactly the jobs that depend on it,
    each once. *)
Definition bfs_result (d : DB) (root : string) (queue : list string) : Prop :=
  NoDup queue /\ head queue = Some root /\ (forall b, b ∈ queue <-> rtc (depends d) root b).

Lemma walked_step w root idx queue a :
  walked (db w) root idx queue -> queue !! idx = Some a ->
  let edges := filter (fun e => Is_true (bool_decide (dep_depends_on_job_id e = a)))
                 (scan (db_job_dependencies (db w))) in
  walked (db w) root (S idx) (foldl push_new queue (dep_job_id <$> edges)).
Proof.
  intros (Hnd & Hroot & Hidx & Hreach & Hclosed) Ha edges.
  assert (Hedges : forall b, b ∈ (dep_job_id <$> edges) <-> depends (db w) a b).
  { intros b. unfold edges, depends. rewrite list_elem_of_fmap. split.
    - intros (e & -> & [He%bool_decide_spec [k Hk]%elem_of_scan]%list_elem_of_filter). eauto.
    - intros (k & e & Hk & He & <-). exists e. split; [done|].
      apply list_elem_of_filter. rewrite bool_decide_spec, elem_of_scan. eauto. }
  destruct (push_all_spec queue (dep_job_id <$> edges) Hnd) as (Hnd' & [ext Hext] & Hin).
  apply lookup_lt_Some in Ha as Hlt. rewrite Hext in *. split_and!; [done| | | |].
  - by destruct queue.
  - rewrite length_app. lia.
  - apply Forall_forall. intros y [Hy|Hy%Hedges]%Hin.
    + rewrite Forall_forall in Hreach. by apply Hreach.
    + eapply rtc_r; [|done]. rewrite Forall_forall in Hreach.
      by eapply Hreach, list_elem_of_lookup_2.
  - intros i x y Hi Hx Hxy. apply Hin. destruct (decide (i = idx)) as [->|Hne].
    + right. rewrite lookup_app_l in Hx by done. simplify_eq. by apply Hedges.
    + left. rewrite lookup_app_l in Hx by lia. eapply (Hclosed i x y); [lia|done|done].
Qed.

(** The work list never outgrows the edges. *)
Lemma walked_bound w root idx queue :
  walked (db w) root idx queue -> (length queue <= S (size (db_job_dependencies (db w))))%nat.
Proof.
  intros (Hnd & Hroot & _ & Hreach & _). destruct queue as [|r rest]; [done|].
  injection Hroot as ->. simpl. apply le_n_S. apply NoDup_cons in Hnd as [Hr Hnd].
  apply Forall_cons in Hreach as [_ Hreach]. rewrite <- length_scan, <- (length_fmap dep_job_id).
  apply submseteq_length, NoDup_submseteq; [done|]. intros b Hb.
  rewrite Forall_forall in Hreach. pose proof (Hreach _ Hb) as Hrtc.
  apply rtc_inv_r in Hrtc as [<-|(a & _ & k & e & Hk & _ & <-)]; [done|].
  apply list_elem_of_fmap_2, elem_of_scan. by eexists.
Qed.

(** At the end of the list everything reachable has been added. *)
Lemma walked_done d root idx queue :
  walked d root idx queue -> queue !! idx = None -> bfs_result d root queue.
Proof.
  intros (Hnd & Hroot & Hidx & Hreach & Hclosed) Hnone%lookup_ge_None.
  split_and!; [done|done|]. intros b. split.
  - rewrite Forall_forall in Hreach. apply Hreach.
  - intros Hb. assert (Hstart : root ∈ queue) by (destruct queue; [done|injection Hroot as ->; left]).
    clear Hroot Hreach. revert Hstart. induction Hb as [|x y z Hxy _ IH]; [done|]. intros Hx.
    apply IH. apply list_elem_of_lookup in Hx as [i Hi].
    eapply Hclosed; [|done|done]. apply lookup_lt_Some in Hi. lia.
Qed.

Lemma bfs_complete fuel w root idx queue :
  walked (db w) root idx queue ->
  (S (size (db_job_dependencies (db w))) <= idx + fuel)%nat ->
  exists q, bfs fuel idx queue w = (Ok (Some q), w) /\ bfs_result (db w) root q.
Proof.
  revert idx queue. induction fuel as [|fuel IH]; intros idx queue Hw Hfuel;
    pose proof (walked_bound _ _ _ _ Hw) as Hbound; simpl.
  - assert (Hnone : queue !! idx = None) by (apply lookup_ge_None; lia).
    rewrite Hnone. exists queue. split; [done|]. by eapply walked_done.
  - destruct (queue !! idx) as [a|] eqn:Ha.
    + erewrite bind_ok by done. apply IH; [by apply walked_step|lia].
    + exists queue. split; [done|]. by eapply walked_done.
Qed.

(** The rows a scan of the live table selects are stored, each once. *)
Lemma selected_rows p w :
  wf w ->
  let rows := filter (fun r => Is_true (p r)) (scan (db_jobs (db w))) in
  NoDup (jr_id <$> rows) /\ Forall (fun r => db_jobs (db w) !! jr_id r = Some r) rows
  /\ forall r, r ∈ rows <-> db_jobs (db w) !! jr_id r = Some r /\ p r = true.
Proof.
  intros Hwf rows.
  assert (Hin : forall r, r ∈ rows <-> db_jobs (db w) !! jr_id r = Some r /\ p r = true).
  { intros r. unfold rows. rewrite list_elem_of_filter, elem_of_scan, Is_true_true. split.
    - intros [? [k Hk]]. by rewrite (wf_live_key _ _ _ _ _ Hwf _ _ Hk).
    - intros [? ?]. eauto. }
  split_and!; [| |done].
  - eapply sublist_NoDup; [|apply fmap_sublist, sublist_filter]. apply scan_NoDup_key, Hwf.
  - apply Forall_forall. intros r Hr. by apply Hin.
Qed.

Lemma ends_cancelled now e : ends_row (cancelled_row now e).
Proof. intros r. destruct e; by split_and!; [..|eexists]. Qed.

(** The pending dependents of [root] that a caller scoped to [ns] may cancel. *)
Definition cascade_target (d : DB) (root : string) (ns : option string) (r : JobRow) : Prop :=
  db_jobs d !! jr_id r = Some r /\ jr_status r = as_int Pending
  /\ job_in_namespace (jr_namespace r) ns = true
  /\ jr_id r <> root /\ rtc (depends d) root (jr_id r).

Lemma cascade_cases root reason ns w r w' :
  wf w -> cascade_cancel_reporting root reason ns w = (r, w') ->
  wf w' /\
  match r with
  | Ok cancelled => exists rows now,
      NoDup (jr_id <$> rows)
      /\ (forall row, row ∈ rows <-> cascade_target (db w) root ns row)
      /\ (let f := cancelled_row now (Some (reason +:+ ": " +:+ root)%string) in
          cancelled = (fun r => job_of_row (f r)) <$> rows
          /\ archive_effect f rows (db w) (db w'))
  | Err e => e = Pool /\ db w' = db w
  end.
Proof.
  intros Hwf. unfold cascade_cancel_reporting. destruct (pool_ready (tick w)) eqn:Hp.
  2:{ rewrite (bind_err _ _ _ _ _ (conn_err w Hp)). intros [= <- <-].
      split; [by apply (wf_bump 1)|done]. }
  rewrite (bind_ok _ _ _ _ _ (conn_ok w Hp)).
  erewrite bind_ok by done. erewrite bind_ok by done.
  set (now := Z.min _ _). change (mkWorld (db w) (S (S (tick w)))) with (bump 2 w).
  assert (Hstart : walked (db (bump 2 w)) root 0 [root]).
  { split_and!; [apply NoDup_singleton|done|simpl; lia| |lia].
    constructor; [apply rtc_refl|done]. }
  destruct (bfs_complete (bfs_fuel (db w)) (bump 2 w) root 0 [root] Hstart)
    as (q & Hq & Hnd & Hroot & Hreach); [unfold bfs_fuel; simpl; lia|].
  rewrite (bind_ok _ _ _ _ _ Hq). simpl in Hreach.
  destruct q as [|root' queue]; [done|]. injection Hroot as ->. simpl.
  apply NoDup_cons in Hnd as [Hnr Hnd].
  assert (Hqueue : forall b, b ∈ queue <-> b <> root /\ rtc (depends (db w)) root b).
  { intros b. rewrite <- Hreach, elem_of_cons. split; [|naive_solver].
    intros Hb. split; [by intros ->|auto]. }
  case_bool_decide as Hnil.
  { intros [= <- <-]. split; [by apply (wf_bump 2)|]. exists [], now. split_and!; [constructor| |done|].
    - intros row. split; [by intros ?%elem_of_nil|]. intros (_ & _ & _ & H1 & H2).
      assert (Hin : jr_id row ∈ queue) by by apply Hqueue.
      rewrite Hnil in Hin. by apply elem_of_nil in Hin.
    - split_and!; try done. by intros r0 ?%elem_of_nil. }
  rewrite write_transaction_eq. simpl. destruct (pool_ready (S (S (tick w)))).
  2:{ intros [= <- <-]. split; [by apply (wf_bump 3)|done]. }
  erewrite bind_ok by done. simpl.
  destruct (selected_rows (fun r => mem (jr_id r) queue && (jr_status r =? as_int Pending)
    && job_in_namespace (jr_namespace r) ns) (bump 3 w) (wf_bump 3 _ Hwf))
    as (HndR & Hrows & HinR).
  destruct (archive_rows_eq job_of_row _ _ (bump 3 w) (wf_bump 3 _ Hwf)
    (ends_cancelled now (Some (reason +:+ ": " +:+ root)%string)) HndR Hrows)
    as (w1 & Heq & Hwf1 & _ & Heff).
  simpl in Heq. unfold bump in *. simpl in *. rewrite Heq. intros [= <- <-].
  split; [done|]. eexists _, now. split_and!; [done| |done|done].
  intros row. rewrite HinR, !andb_true_iff, mem_spec, Hqueue, Z.eqb_eq.
  unfold cascade_target. tauto.
Qed.

(** C8: A cascade archives exactly the pending dependents.  The jobs cancelled are
    those, and only those, that are pending, in the caller's namespace, and depend on
    the failed job directly or through any chain of edges; each carries the reason and
    the failed job's id as its error, and no other job changes.  The walk terminates
    on every graph, cyclic ones included. *)
Theorem cascade_cancel_spec root reason ns w r w' :
  wf w -> cascade_cancel_reporting root reason ns w = (r, w') ->
  wf w' /\
  match r with
  | Ok cancelled => exists rows now,
      NoDup (jr_id <$> rows)
      /\ (forall row, row ∈ rows <-> cascade_target (db w) root ns row)
      /\ (let f := cancelled_row now (Some (reason +:+ ": " +:+ root)%string) in
          cancelled = (fun r => job_of_row (f r)) <$> rows
          /\ archive_effect f rows (db w) (db w'))
  | Err e => e = Pool /\ db w' = db w
  end.
Proof. apply cascade_cases. Qed.

Lemma keeps_cascade_cancel_reporting root reason ns :
  keeps wf (cascade_cancel_reporting root reason ns).
Proof. intros w Hwf. apply (cascade_cases _ _ _ _ _ _ Hwf (surjective_pairing _)). Qed.

Lemma keeps_cancel_txn id now ns : keeps wf (cancel_txn id now ns).
Proof.
  intros w Hwf. unfold cancel_txn, mbind, M_bind. simpl.
  destruct (db_jobs (db w) !! id) as [r|] eqn:Hr; [|done].
  destruct (negb (_ =? _)); [done|]. destruct (negb _); [done|].
  destruct (ends_cancelled now None r) as (Hid & ? & ? & ?).
  assert (Hr' : db_jobs (db w) !! jr_id (cancelled_row now None r) = Some r).
  { rewrite Hid. by rewrite (wf_live_key _ _ _ _ _ Hwf _ _ Hr). }
  destruct (archive_live w r (cancelled_row now None r)) as [Ha ?]; try done.
  simpl in Ha. by rewrite Ha.
Qed.

Lemma keeps_cancel_job_reporting id ns : keeps wf (cancel_job_reporting id ns).
Proof.
  unfold cancel_job_reporting. apply keeps_bind; [apply keeps_now_millis, _|]. intros now.
  apply keeps_bind.
  - apply keeps_write_transaction; [apply _|]. apply keeps_keeps_ok, keeps_cancel_txn.
  - intros archived. destruct archived; simpl; [|apply keeps_ret].
    apply keeps_bind; [apply keeps_cascade_cancel_reporting|]. intros l. apply keeps_ret.
Qed.

End properties.

#[export] Hint Resolve keeps_cancel_txn keeps_cascade_cancel_reporting
  keeps_cancel_job_reporting : keeps.

(** *** Examples *)

Section examples.
#[local] Existing Instances demo_env demo_engine demo_uuid_fresh demo_scan_complete.

Lemma cascade_cancel_spec_witness :
  exists r w', cascade_cancel_reporting (uuid_v7 1) DEPENDENCY_FAILED (Some "acme")
      (stuck_world 3) = (r, w')
    /\ length (ok_or [] r) = 3%nat /\ wf w'.
Proof.
  destruct (cascade_cancel_reporting (uuid_v7 1) DEPENDENCY_FAILED (Some "acme")
    (stuck_world 3)) as [r w'] eqn:Hx.
  exists r, w'. split; [done|]. split.
  - change r with (fst (r, w')). rewrite <- Hx. by vm_compute.
  - exact (proj1 (cascade_cancel_spec _ _ _ _ _ _ (wf_stuck_world 3) Hx)).
Defined.

End examples.
