(* ===== verification/Listing.v ===== *)
(** * Listing jobs ([diesel_common/jobs.rs])

    The filtered listings, by offset and by keyset, over the live table, the archive
    or both.  The keyset form is related to a reference: the matching jobs of both
    tables in [(created_at, id)] descending order, below the cursor, cut at the limit. *)
From S2P Require Import Prelude Job Db Store Enqueue Dequeue Transitions.

(** The filter arguments the listings share. *)
Record JobFilter := mkJobFilter {
  jf_queue_name : option string;
  jf_task_name : option string;
  jf_metadata_like : option string;
  jf_error_like : option string;
  jf_created_after : option Z;
  jf_created_before : option Z;
  jf_namespace : option string
}.

(** [if let Some(x) = arg { query = query.filter(p(x)) }] *)
Definition opt_filter {A} (p : A -> bool) (arg : option A) : bool :=
  match arg with
  | Some x => p x
  | None => true
  end.

(** [column.like(format!("%{m}%"))], where a null column matches nothing. *)
Definition col_like {G : Engine} (column : option string) (m : string) : bool :=
  match column with
  | Some c => sql_like ("%" +:+ m +:+ "%")%string c
  | None => false
  end.

Definition str_lt (s t : string) : bool :=
  match String.compare s t with Lt => true | _ => false end.

(** [created_at < c OR (created_at = c AND id < i)] *)
Definition before_cursor (after : option (Z * string)) (created_at : Z) (id : string) : bool :=
  opt_filter (fun '(c, i) => (created_at <? c) || ((created_at =? c) && str_lt id i)) after.

Definition is_terminal_status (status : Z) : bool :=
  match from_i32 status with
  | Some Complete | Some Failed | Some Dead | Some Cancelled => true
  | _ => false
  end.

Section listing.
Context {E : Env} {G : Engine}.

(** The [WHERE] of a listing of the live table. *)
Definition live_where (status : option Z) (f : JobFilter) (r : JobRow) : bool :=
  opt_filter (fun s => jr_status r =? s) status
  && opt_filter (fun q => bool_decide (jr_queue r = q)) (jf_queue_name f)
  && opt_filter (fun t => bool_decide (jr_task_name r = t)) (jf_task_name f)
  && opt_filter (col_like (jr_metadata r)) (jf_metadata_like f)
  && opt_filter (col_like (jr_error r)) (jf_error_like f)
  && opt_filter (fun a => a <=? jr_created_at r) (jf_created_after f)
  && opt_filter (fun b => jr_created_at r <=? b) (jf_created_before f)
  && opt_filter (fun ns => bool_decide (jr_namespace r = Some ns)) (jf_namespace f).

(** The [WHERE] of a listing of the archive. *)
Definition archived_where (status : option Z) (f : JobFilter) (r : ArchivedJobRow) : bool :=
  opt_filter (fun s => ar_status r =? s) status
  && opt_filter (fun q => bool_decide (ar_queue r = q)) (jf_queue_name f)
  && opt_filter (fun t => bool_decide (ar_task_name r = t)) (jf_task_name f)
  && opt_filter (col_like (ar_metadata r)) (jf_metadata_like f)
  && opt_filter (col_like (ar_error r)) (jf_error_like f)
  && opt_filter (fun a => a <=? ar_created_at r) (jf_created_after f)
  && opt_filter (fun b => ar_created_at r <=? b) (jf_created_before f)
  && opt_filter (fun ns => bool_decide (ar_namespace r = Some ns)) (jf_namespace f).

Definition list_live_filtered (status : option Z) (f : JobFilter) (limit offset : Z)
    : DbM (list Job) :=
  conn ;;
  l ← sql_select jobs (live_where status f);
  let rows := sql_limit limit (sql_offset offset (order_by (desc (asc_Z jr_created_at)) l)) in
  mret ((fun r => from_narrow (narrow r) [] None) <$> rows).

Definition list_archived_filtered (status : option Z) (f : JobFilter) (limit offset : Z)
    : DbM (list Job) :=
  conn ;;
  l ← sql_select archived_jobs (archived_where status f);
  let rows := sql_limit limit (sql_offset offset (order_by (desc (asc_Z ar_created_at)) l)) in
  mret ((fun r => from_narrow_archived (narrow_archived r)) <$> rows).

Definition list_live_filtered_after (status : option Z) (f : JobFilter) (limit : Z)
    (after : option (Z * string)) : DbM (list Job) :=
  conn ;;
  l ← sql_select jobs (fun r =>
        live_where status f r && before_cursor after (jr_created_at r) (jr_id r));
  let rows := sql_limit limit
    (order_by (then_by (desc (asc_Z jr_created_at)) (desc (asc_str jr_id))) l) in
  mret ((fun r => from_narrow (narrow r) [] None) <$> rows).

Definition list_archived_filtered_after (status : option Z) (f : JobFilter) (limit : Z)
    (after : option (Z * string)) : DbM (list Job) :=
  conn ;;
  l ← sql_select archived_jobs (fun r =>
        archived_where status f r && before_cursor after (ar_created_at r) (ar_id r));
  let rows := sql_limit limit
    (order_by (then_by (desc (asc_Z ar_created_at)) (desc (asc_str ar_id))) l) in
  mret ((fun r => from_narrow_archived (narrow_archived r)) <$> rows).

Definition list_jobs_filtered (status : option Z) (f : JobFilter) (limit offset : Z)
    : DbM (list Job) :=
  match status with
  | Some s =>
      if is_terminal_status s then list_archived_filtered (Some s) f limit offset
      else list_live_filtered status f limit offset
  | None =>
      let take_n := Z.max (sat_add_i64 limit offset) 0 in
      live ← list_live_filtered None f take_n 0;
      archived ← list_archived_filtered None f take_n 0;
      let live := order_by (desc (asc_Z j_created_at)) (live ++ archived) in
      let start := Nat.min (Z.to_nat (Z.max offset 0)) (length live) in
      let end_ := Z.to_nat (Z.min (Z.min (Z.of_nat start + Z.max limit 0) u64_max)
                              (Z.of_nat (length live))) in
      mret (take (end_ - start) (drop start live))
  end.

(** [(created_at, id)] descending. *)
Definition keyset_cmp : Job -> Job -> comparison :=
  then_by (desc (asc_Z j_created_at)) (desc (asc_str j_id)).

Definition list_jobs_filtered_after (status : option Z) (f : JobFilter) (limit : Z)
    (after : option (Z * string)) : DbM (list Job) :=
  if limit <=? 0 then mret []
  else
    match status with
    | Some s =>
        if is_terminal_status s then list_archived_filtered_after (Some s) f limit after
        else list_live_filtered_after status f limit after
    | None =>
        live ← list_live_filtered_after None f limit after;
        archived ← list_archived_filtered_after None f limit after;
        mret (take (Z.to_nat (Z.max limit 0)) (order_by keyset_cmp (live ++ archived)))
    end.

Definition list_jobs (status : option Z) (queue_name task_name : option string)
    (limit offset : Z) (namespace : option string) : DbM (list Job) :=
  list_jobs_filtered status
    (mkJobFilter queue_name task_name None None None None namespace) limit offset.

Definition list_jobs_after (status : option Z) (queue_name task_name : option string)
    (limit : Z) (after : option (Z * string)) (namespace : option string) : DbM (list Job) :=
  list_jobs_filtered_after status
    (mkJobFilter queue_name task_name None None None None namespace) limit after.

End listing.

(** ** The reference *)

(** A job as a listing shows it: without its payload and result. *)
Definition live_view (r : JobRow) : Job := from_narrow (narrow r) [] None.
Definition archived_view (r : ArchivedJobRow) : Job := from_narrow_archived (narrow_archived r).

Definition all_jobs {G : Engine} (d : DB) : list Job :=
  (live_view <$> scan (db_jobs d)) ++ (archived_view <$> scan (db_archived_jobs d)).

Definition job_matches {G : Engine} (status : option Z) (f : JobFilter) (j : Job) : bool :=
  opt_filter (fun s => as_int (j_status j) =? s) status
  && opt_filter (fun q => bool_decide (j_queue j = q)) (jf_queue_name f)
  && opt_filter (fun t => bool_decide (j_task_name j = t)) (jf_task_name f)
  && opt_filter (col_like (j_metadata j)) (jf_metadata_like f)
  && opt_filter (col_like (j_error j)) (jf_error_like f)
  && opt_filter (fun a => a <=? j_created_at j) (jf_created_after f)
  && opt_filter (fun b => j_created_at j <=? b) (jf_created_before f)
  && opt_filter (fun ns => bool_decide (j_namespace j = Some ns)) (jf_namespace f).

(** The jobs a listing ranges over, in its order. *)
Definition matching {G : Engine} (status : option Z) (f : JobFilter) (d : DB) : list Job :=
  order_by keyset_cmp (filter (fun j => Is_true (job_matches status f j)) (all_jobs d)).

Definition below (after : option (Z * string)) (j : Job) : bool :=
  before_cursor after (j_created_at j) (j_id j).

Section reference.
Context {E : Env} {G : Engine} `{!UuidFresh E} `{!ScanComplete G}.

#[global] Instance keyset_cmp_total : TotalCmp keyset_cmp.
Proof. unfold keyset_cmp. apply _. Qed.

Lemma keyset_cmp_id x y : keyset_cmp x y = Eq -> j_id x = j_id y.
Proof.
  unfold keyset_cmp, then_by, desc, asc_Z, asc_str. destruct (_ ?= _); try done.
  by intros ->%String.compare_eq_iff.
Qed.

Lemma separates_NoDup (l : list Job) : NoDup (j_id <$> l) -> separates keyset_cmp l.
Proof.
  intros Hnd x y [i Hi]%list_elem_of_lookup_1 [k Hk]%list_elem_of_lookup_1 Heq%keyset_cmp_id.
  assert (i = k) as ->; [|congruence].
  eapply NoDup_lookup; [exact Hnd| |]; rewrite list_lookup_fmap_Some; eauto.
Qed.

Lemma all_jobs_NoDup w : wf w -> NoDup (j_id <$> all_jobs (db w)).
Proof.
  intros Hwf. unfold all_jobs. rewrite fmap_app, <- !list_fmap_compose.
  apply NoDup_app. split_and!.
  - exact (scan_NoDup_key jr_id _ (wf_live_key _ _ _ _ _ Hwf)).
  - intros id (r & -> & [k Hk]%elem_of_scan)%list_elem_of_fmap
      (a & Heq & [k' Hk']%elem_of_scan)%list_elem_of_fmap.
    pose proof (wf_live_key _ _ _ _ _ Hwf _ _ Hk) as Hid.
    pose proof (wf_arch_key _ _ _ _ _ Hwf _ _ Hk') as Hid'. simpl in *.
    rewrite Hid, Hid' in Heq. subst k'.
    by rewrite (wf_disjoint _ _ _ _ _ Hwf k) in Hk' by eauto.
  - exact (scan_NoDup_key ar_id _ (wf_arch_key _ _ _ _ _ Hwf)).
Qed.

Lemma all_jobs_separates w : wf w -> separates keyset_cmp (all_jobs (db w)).
Proof. intros Hwf. by apply separates_NoDup, all_jobs_NoDup. Qed.

(** The rows of the two tables carry valid statuses. *)
Lemma active_status_of s : is_active s = true -> as_int (status_of s) = s.
Proof.
  unfold is_active. rewrite orb_true_iff, !Z.eqb_eq. by intros [->| ->].
Qed.

Lemma terminal_status_of s : is_terminal s = true -> as_int (status_of s) = s.
Proof.
  unfold is_terminal. rewrite !orb_true_iff, !Z.eqb_eq. by intros [[[->| ->]| ->]| ->].
Qed.

Lemma live_where_matches w r :
  wf w -> r ∈ scan (db_jobs (db w)) -> forall status f,
  live_where status f r = job_matches status f (live_view r).
Proof.
  intros Hwf [k Hk]%elem_of_scan status f. unfold live_where, job_matches.
  change (j_status (live_view r)) with (status_of (jr_status r)).
  rewrite active_status_of; [done|]. by eapply (wf_live_status _ _ _ _ _ Hwf).
Qed.

Lemma archived_where_matches w r :
  wf w -> r ∈ scan (db_archived_jobs (db w)) -> forall status f,
  archived_where status f r = job_matches status f (archived_view r).
Proof.
  intros Hwf [k Hk]%elem_of_scan status f. unfold archived_where, job_matches.
  change (j_status (archived_view r)) with (status_of (ar_status r)).
  rewrite terminal_status_of; [done|]. by eapply (wf_arch_status _ _ _ _ _ Hwf).
Qed.

(** A page of one table, as what its rows are shown as. *)
Lemma table_page {R V} (view : R -> V) (c : R -> R -> comparison) `{!TotalCmp c}
    (d : V -> V -> comparison) `{!TotalCmp d} (p : R -> bool) (q : V -> bool) (l : list R) n :
  0 <= n -> (forall x y, c x y = d (view x) (view y)) ->
  (forall r, r ∈ l -> p r = q (view r)) -> separates d (view <$> l) ->
  view <$> sql_limit n (order_by c (filter (fun r => Is_true (p r)) l))
  = take (Z.to_nat n) (order_by d (filter (fun j => Is_true (q j)) (view <$> l))).
Proof.
  intros Hn Hc Hp Hsep. unfold sql_limit. destruct (Z.ltb_spec n 0); [lia|].
  rewrite fmap_take. f_equal.
  assert (Hf : view <$> filter (fun r => Is_true (p r)) l
    = filter (fun j => Is_true (q j)) (view <$> l)).
  { clear Hsep. induction l as [|x l IH]; [done|]. rewrite fmap_cons, !filter_cons.
    rewrite <- (Hp x) by left. destruct (p x); simpl; rewrite <- IH; try done;
      intros r Hr; apply Hp; by right. }
  rewrite <- Hf. symmetry. apply order_by_fmap; [apply _|apply _|done|].
  rewrite Hf. eapply separates_sub; [|done]. by intros x [_ ?]%list_elem_of_filter.
Qed.

(** The matching jobs of one table below the cursor, in order. *)
Definition page_of (status : option Z) (f : JobFilter) (after : option (Z * string))
    (l : list Job) : list Job :=
  order_by keyset_cmp (filter (fun j => Is_true (job_matches status f j && below after j)) l).

Lemma live_page status f limit after w :
  wf w -> 0 <= limit -> pool_ready (tick w) = true ->
  list_live_filtered_after status f limit after w
  = (Ok (take (Z.to_nat limit) (page_of status f after (live_view <$> scan (db_jobs (db w))))),
     bump 1 w).
Proof.
  intros Hwf Hl Hp. unfold list_live_filtered_after. rewrite (bind_ok _ _ _ _ _ (conn_ok w Hp)).
  erewrite bind_ok by done. unfold mret, M_ret. do 2 f_equal. simpl.
  eapply (table_page live_view _ keyset_cmp _ (fun j => job_matches status f j && below after j));
    [done|done| |].
  - intros r Hr. by rewrite (live_where_matches w r Hwf Hr).
  - eapply separates_sub; [|by apply (all_jobs_separates w)].
    intros x Hx. apply elem_of_app. by left.
Qed.

Lemma archived_page status f limit after w :
  wf w -> 0 <= limit -> pool_ready (tick w) = true ->
  list_archived_filtered_after status f limit after w
  = (Ok (take (Z.to_nat limit)
           (page_of status f after (archived_view <$> scan (db_archived_jobs (db w))))),
     bump 1 w).
Proof.
  intros Hwf Hl Hp. unfold list_archived_filtered_after.
  rewrite (bind_ok _ _ _ _ _ (conn_ok w Hp)).
  erewrite bind_ok by done. unfold mret, M_ret. do 2 f_equal. simpl.
  eapply (table_page archived_view _ keyset_cmp _ (fun j => job_matches status f j && below after j));
    [done|done| |].
  - intros r Hr. by rewrite (archived_where_matches w r Hwf Hr).
  - eapply separates_sub; [|by apply (all_jobs_separates w)].
    intros x Hx. apply elem_of_app. by right.
Qed.

(** A status filter selects one of the tables. *)
Lemma live_not_terminal s f w j :
  wf w -> is_terminal_status s = true -> j ∈ live_view <$> scan (db_jobs (db w)) ->
  job_matches (Some s) f j = false.
Proof.
  intros Hwf Hs (r & -> & [k Hk]%elem_of_scan)%list_elem_of_fmap. unfold job_matches.
  change (j_status (live_view r)) with (status_of (jr_status r)). cbn [opt_filter].
  assert (Hst : is_active (jr_status r) = true) by by eapply (wf_live_status _ _ _ _ _ Hwf).
  rewrite (active_status_of _ Hst). destruct (Z.eqb_spec (jr_status r) s) as [<-|]; [|done].
  unfold is_active in Hst. rewrite orb_true_iff, !Z.eqb_eq in Hst. by destruct Hst as [Hv|Hv]; rewrite Hv in Hs.
Qed.

Lemma archived_terminal s f w j :
  wf w -> is_terminal_status s = false ->
  j ∈ archived_view <$> scan (db_archived_jobs (db w)) -> job_matches (Some s) f j = false.
Proof.
  intros Hwf Hs (r & -> & [k Hk]%elem_of_scan)%list_elem_of_fmap. unfold job_matches.
  change (j_status (archived_view r)) with (status_of (ar_status r)). cbn [opt_filter].
  assert (Hst : is_terminal (ar_status r) = true) by by eapply (wf_arch_status _ _ _ _ _ Hwf).
  rewrite (terminal_status_of _ Hst). destruct (Z.eqb_spec (ar_status r) s) as [<-|]; [|done].
  unfold is_terminal in Hst. rewrite !orb_true_iff, !Z.eqb_eq in Hst.
  by destruct Hst as [[[Hv|Hv]|Hv]|Hv]; rewrite Hv in Hs.
Qed.

Lemma page_of_all status f after w :
  wf w ->
  page_of status f after (all_jobs (db w))
  = filter (fun j => Is_true (below after j)) (matching status f (db w)).
Proof.
  intros Hwf. unfold page_of, matching. rewrite <- order_by_filter; [|apply _|].
  - f_equal. rewrite list_filter_filter. apply list_filter_iff. intros j.
    rewrite andb_True. tauto.
  - eapply separates_sub; [|by apply all_jobs_separates].
    by intros x [_ ?]%list_elem_of_filter.
Qed.

Lemma separates_filter (P : Job -> Prop) `{!forall x, Decision (P x)} l :
  separates keyset_cmp l -> separates keyset_cmp (filter P l).
Proof. apply separates_sub. by intros x [_ ?]%list_elem_of_filter. Qed.

Lemma list_after_cases status f limit after w :
  wf w -> pool_ready (tick w) = true -> pool_ready (S (tick w)) = true ->
  exists w', db w' = db w /\
  list_jobs_filtered_after status f limit after w
  = (Ok (take (Z.to_nat limit)
       (filter (fun j => Is_true (below after j)) (matching status f (db w)))), w').
Proof.
  intros Hwf Hp Hp'. rewrite <- page_of_all by done. unfold list_jobs_filtered_after.
  destruct (Z.leb_spec limit 0) as [Hle|Hlt].
  { exists w. split; [done|]. by replace (Z.to_nat limit) with O by lia. }
  pose proof (all_jobs_separates w Hwf) as Hsep.
  destruct status as [s|]; [destruct (is_terminal_status s) eqn:Hs|].
  - exists (bump 1 w). split; [done|]. rewrite archived_page by (done || lia).
    do 3 f_equal. unfold page_of, all_jobs. rewrite filter_app.
    pose proof (fun j => live_not_terminal s f w j Hwf Hs) as Hn.
    replace (filter _ (live_view <$> _)) with (@nil Job); [done|]. symmetry.
    apply filter_none. intros j Hj. rewrite (Hn j Hj). simpl. tauto.
  - exists (bump 1 w). split; [done|]. rewrite live_page by (done || lia).
    do 3 f_equal. unfold page_of, all_jobs. rewrite filter_app.
    pose proof (fun j => archived_terminal s f w j Hwf Hs) as Hn.
    replace (filter _ (archived_view <$> _)) with (@nil Job); [by rewrite app_nil_r|].
    symmetry. apply filter_none. intros j Hj. rewrite (Hn j Hj). simpl. tauto.
  - exists (bump 1 (bump 1 w)). split; [done|].
    rewrite (bind_ok _ _ _ _ _ (live_page None f limit after w Hwf ltac:(lia) Hp)).
    rewrite (bind_ok _ _ _ _ _ (archived_page None f limit after (bump 1 w)
      (wf_bump 1 w Hwf) ltac:(lia) Hp')).
    unfold mret, M_ret. do 2 f_equal. rewrite Z.max_l by lia. unfold page_of at 1 2.
    rewrite order_by_top; [|apply _|rewrite <- filter_app; by apply separates_filter].
    by rewrite <- filter_app.
Qed.

(** Below a job of a sorted list are the ones after it. *)
Lemma keyset_below x j : below (Some (j_created_at x, j_id x)) j = true <-> keyset_cmp x j = Lt.
Proof.
  unfold below, before_cursor, opt_filter, keyset_cmp, then_by, desc, asc_Z, asc_str, str_lt.
  destruct (Z.compare_spec (j_created_at j) (j_created_at x)) as [->|H|H].
  - rewrite Z.ltb_irrefl, Z.eqb_refl. simpl. by destruct (String.compare _ _).
  - by rewrite (proj2 (Z.ltb_lt _ _) H).
  - rewrite (proj2 (Z.ltb_ge _ _)), (proj2 (Z.eqb_neq _ _)) by lia. done.
Qed.

Lemma below_suffix pre x post :
  StronglySorted (cmp_le keyset_cmp) (pre ++ x :: post) -> NoDup (j_id <$> pre ++ x :: post) ->
  filter (fun j => Is_true (below (Some (j_created_at x, j_id x)) j)) (pre ++ x :: post) = post.
Proof.
  intros Hs Hnd. rewrite filter_app, filter_cons, filter_none, decide_False.
  - apply filter_all. intros j Hj. apply Is_true_true, keyset_below.
    apply StronglySorted_app_1_r, StronglySorted_cons in Hs as [Hle _].
    rewrite Forall_forall in Hle. specialize (Hle j Hj). unfold cmp_le in Hle.
    destruct (keyset_cmp x j) eqn:Hc; [|done|done]. apply keyset_cmp_id in Hc.
    rewrite fmap_app, fmap_cons in Hnd. apply NoDup_app in Hnd as (_ & _ & Hnd).
    apply NoDup_cons in Hnd as [Hnin _]. destruct Hnin. rewrite Hc.
    by apply list_elem_of_fmap_2.
  - rewrite Is_true_true, keyset_below, (cmp_refl keyset_cmp). done.
  - intros j Hj. rewrite Is_true_true, keyset_below. intros Hlt.
    assert (Hle : cmp_le keyset_cmp j x).
    { eapply StronglySorted_app_1_elem_of; [exact Hs|done|left]. }
    unfold cmp_le in Hle. rewrite (cmp_opp (c:=keyset_cmp) x j), Hlt in Hle. done.
Qed.

Lemma matching_sorted status f w :
  wf w -> StronglySorted (cmp_le keyset_cmp) (matching status f (db w))
  /\ NoDup (j_id <$> matching status f (db w)).
Proof.
  intros Hwf. split; [apply order_by_sorted, _|]. unfold matching. rewrite order_by_perm.
  eapply sublist_NoDup; [by apply (all_jobs_NoDup w)|]. apply fmap_sublist, sublist_filter.
Qed.

End reference.

(** ** Properties *)

Section properties.
Context {E : Env} {G : Engine} `{!UuidFresh E} `{!ScanComplete G}.

(** A keyset page is the reference page.  Whatever the status filter (one that
    selects the live table, the archive, or none, where the pages of both tables are
    merged), the result is the first [limit] jobs below the cursor of all the jobs
    stored that match the filters, in [(created_at, id)] descending order; the database
    is only read. *)
Theorem list_jobs_filtered_after_spec status f limit after w :
  wf w -> pool_ready (tick w) = true -> pool_ready (S (tick w)) = true ->
  exists w', db w' = db w /\
  list_jobs_filtered_after status f limit after w
  = (Ok (take (Z.to_nat limit)
       (filter (fun j => Is_true (below after j)) (matching status f (db w)))), w').
Proof. apply list_after_cases. Qed.

(** Paging neither skips nor repeats.  Without a cursor a page is the beginning of
    the matching jobs; with the key of a matching job as the cursor it is what follows
    that job, so pages read one after another, each from the last job of the one
    before, walk through all matching jobs. *)
Theorem list_jobs_filtered_after_resumes status f limit w pre x post :
  wf w -> pool_ready (tick w) = true -> pool_ready (S (tick w)) = true ->
  matching status f (db w) = pre ++ x :: post ->
  (exists w', list_jobs_filtered_after status f limit None w
     = (Ok (take (Z.to_nat limit) (pre ++ x :: post)), w'))
  /\ exists w', list_jobs_filtered_after status f limit (Some (j_created_at x, j_id x)) w
     = (Ok (take (Z.to_nat limit) post), w').
Proof.
  intros Hwf Hp Hp' Hm. destruct (matching_sorted status f w Hwf) as [Hs Hnd].
  split.
  - destruct (list_after_cases status f limit None w Hwf Hp Hp') as (w' & _ & Heq).
    exists w'. rewrite Heq, Hm. do 3 f_equal. by apply filter_all.
  - destruct (list_after_cases status f limit (Some (j_created_at x, j_id x)) w Hwf Hp Hp')
      as (w' & _ & Heq).
    exists w'. rewrite Heq. rewrite Hm in *. by rewrite below_suffix.
Qed.

(** *** The listings only read *)

Lemma keeps_list_live I `{!TickMono I} status f limit offset :
  keeps I (list_live_filtered status f limit offset).
Proof. solve_keeps. Qed.

Lemma keeps_list_archived I `{!TickMono I} status f limit offset :
  keeps I (list_archived_filtered status f limit offset).
Proof. solve_keeps. Qed.

Lemma keeps_list_jobs_filtered I `{!TickMono I} status f limit offset :
  keeps I (list_jobs_filtered status f limit offset).
Proof.
  unfold list_jobs_filtered. solve_keeps; first [apply keeps_list_live | apply keeps_list_archived];
    apply _.
Qed.

Lemma keeps_list_live_after I `{!TickMono I} status f limit after :
  keeps I (list_live_filtered_after status f limit after).
Proof. solve_keeps. Qed.

Lemma keeps_list_archived_after I `{!TickMono I} status f limit after :
  keeps I (list_archived_filtered_after status f limit after).
Proof. solve_keeps. Qed.

Lemma keeps_list_jobs_filtered_after I `{!TickMono I} status f limit after :
  keeps I (list_jobs_filtered_after status f limit after).
Proof.
  unfold list_jobs_filtered_after. solve_keeps;
    first [apply keeps_list_live_after | apply keeps_list_archived_after]; apply _.
Qed.
End properties.

#[export] Hint Resolve keeps_list_jobs_filtered keeps_list_jobs_filtered_after : keeps.

(** ** Examples *)

Section examples.
#[local] Existing Instances demo_env demo_engine demo_uuid_fresh demo_scan_complete.

Definition demo_filter : JobFilter := mkJobFilter (Some "default") None None None None None
  (Some "acme").

(** Both jobs of [gate_world], the live one first. *)
Lemma list_jobs_filtered_after_spec_witness :
  exists w', list_jobs_filtered_after None demo_filter 5 None gate_world
    = (Ok (matching None demo_filter (db gate_world)), w')
    /\ (j_id <$> matching None demo_filter (db gate_world)) = [uuid_v7 4; uuid_v7 1].
Proof.
  destruct (list_jobs_filtered_after_spec None demo_filter 5 None gate_world wf_gate_world
    eq_refl eq_refl) as (w' & _ & Heq).
  exists w'. split; [|by vm_compute]. rewrite Heq. by vm_compute.
Defined.

Lemma list_jobs_filtered_after_resumes_witness :
  exists x y w', matching None demo_filter (db gate_world) = [x; y]
    /\ list_jobs_filtered_after None demo_filter 5 (Some (j_created_at x, j_id x)) gate_world
       = (Ok [y], w').
Proof.
  destruct (matching None demo_filter (db gate_world)) as [|x [|y [|? ?]]] eqn:Hm;
    try (apply (f_equal length) in Hm; vm_compute in Hm; discriminate Hm).
  destruct (list_jobs_filtered_after_resumes None demo_filter 5 gate_world [] x [y]
    wf_gate_world eq_refl eq_refl Hm) as (_ & w' & Heq).
  exists x, y, w'. split; [done|]. exact Heq.
Defined.
End examples.
