(* ===== verification/Cursor.v ===== *)
(** * Page cursors ([storage/cursor.rs], [flexiq-node/src/queue/inspect.rs])

    A listing is read page by page: every page comes with an opaque cursor, the sort key and
    the id of its last row, that the caller passes back for the next one; a page shorter than
    asked for is the last and has none. *)
From S2P Require Import Prelude Text Job Db Store Enqueue Listing.
From Stdlib Require Import Ascii.

(** The digits after the sign. *)
Definition parse_signed (neg : bool) (digits : string) : option Z :=
  match digits with
  | EmptyString => None
  | _ =>
      v ← parse_digits 0 digits;
      if neg then if v <=? 2 ^ 63 then Some (- v) else None
      else if v <=? i64_max then Some v else None
  end.

(** [s.parse::<i64>()] *)
Definition parse_i64 (s : string) : option Z :=
  match s with
  | EmptyString => None
  | String a s' =>
      if bool_decide (a = "-"%char) then parse_signed true s'
      else if bool_decide (a = "+"%char) then parse_signed false s'
      else parse_signed false s
  end.

Definition encode_cursor (sort_key : Z) (id : string) : string :=
  (pretty sort_key +:+ ":" +:+ id)%string.

Definition decode_cursor (cursor : string) : Result QueueError (Z * string) :=
  let invalid := Err (Other ("invalid cursor: " +:+ cursor)) in
  match split_once ":"%char cursor with
  | None => invalid
  | Some (key, id) =>
      match parse_i64 key with
      | None => invalid
      | Some sort_key =>
          if (sort_key <? 0) || bool_decide (id = ""%string) then invalid else Ok (sort_key, id)
      end
  end.

Definition next_cursor {T} (rows : list T) (limit : Z) (key : T -> Z * string) : option string :=
  if count rows <? limit then None
  else (fun row => let '(sort_key, id) := key row in encode_cursor sort_key id) <$> last rows.

Record Page (T : Type) := mkPage { pg_items : list T; pg_next_cursor : option string }.
Arguments mkPage {T} pg_items pg_next_cursor.
Arguments pg_items {T} _.
Arguments pg_next_cursor {T} _.

Definition page {T} (items : list T) (limit : Z) (key : T -> Z * string) : Page T :=
  mkPage items (next_cursor items limit key).

Definition parse_cursor (after : option string) : Result QueueError (option (Z * string)) :=
  match after with
  | None => Ok None
  | Some c => match decode_cursor c with Ok x => Ok (Some x) | Err e => Err e end
  end.

(** [(created_at, id)], or [(completed_at, id)] for the archive. *)
Definition job_page (jobs : list Job) (limit : Z) (by_completed_at : bool) : Page Job :=
  page jobs limit (fun j =>
    ((if by_completed_at then default (j_created_at j) (j_completed_at j) else j_created_at j), j_id j)).

Section paging.
Context {E : Env} {G : Engine}.

(** A page of [list_jobs_filtered_after] as a binding serves it. *)
Definition list_jobs_page (status : option Z) (f : JobFilter) (limit : Z) (after : option string)
    : DbM (Page Job) :=
  match parse_cursor after with
  | Err e => throw e
  | Ok cursor =>
      jobs ← list_jobs_filtered_after status f limit cursor;
      mret (job_page jobs limit false)
  end.

(** [while let Some(cursor)]: follow the cursors; [None] if [fuel] pages were not enough. *)
Fixpoint walk (fuel : nat) (status : option Z) (f : JobFilter) (limit : Z) (after : option string)
    : DbM (option (list Job)) :=
  match fuel with
  | O => mret None
  | S fuel =>
      p ← list_jobs_page status f limit after;
      match pg_next_cursor p with
      | None => mret (Some (pg_items p))
      | Some c => rest ← walk fuel status f limit (Some c); mret (app (pg_items p) <$> rest)
      end
  end.
End paging.

(** ** Round trip *)

Lemma pretty_Z_go (k : Z) :
  0 <= k -> pretty k = if decide (k = 0) then "0"%string else pretty_N_go (Z.to_N k) "".
Proof.
  intros Hk. destruct k as [|p|p]; [done| |lia]. rewrite decide_False by lia.
  unfold pretty, pretty_Z, pretty, pretty_positive, pretty, pretty_N. case_decide; [lia|done].
Qed.

Lemma parse_i64_pretty (k : Z) : 0 <= k <= i64_max -> parse_i64 (pretty k) = Some k.
Proof.
  intros Hk. rewrite pretty_Z_go by lia. case_decide as H0; [by subst|].
  assert (Hp : parse_digits 0 (pretty_N_go (Z.to_N k) "") = Some k).
  { rewrite parse_digits_go by (unfold u64_max, i64_max in *; lia). cbn [parse_digits]. f_equal. lia. }
  assert (Hl : forall c, digit c = None -> lacks c (pretty_N_go (Z.to_N k) "") = true)
    by (intros c Hc; by rewrite lacks_go).
  pose proof (Hl "+"%char eq_refl) as Hplus. pose proof (Hl "-"%char eq_refl) as Hminus.
  unfold parse_i64. destruct (pretty_N_go (Z.to_N k) "") as [|a s] eqn:Hs.
  { cbn [parse_digits] in Hp. injection Hp as Hp. lia. }
  cbn [lacks] in Hplus, Hminus. apply andb_prop in Hplus as [Ha _], Hminus as [Hb _].
  rewrite negb_true_iff in Ha, Hb. rewrite Ha, Hb. unfold parse_signed. rewrite Hp. cbn [mbind option_bind].
  by rewrite (proj2 (Z.leb_le _ _)) by lia.
Qed.

Lemma lacks_pretty_Z c (k : Z) : digit c = None -> 0 <= k -> lacks c (pretty k) = true.
Proof.
  intros Hc Hk. rewrite pretty_Z_go by done. case_decide as H0; [|by rewrite lacks_go].
  cbn [lacks]. rewrite bool_decide_eq_false_2; [done|]. by intros <-.
Qed.

Lemma decode_encode k id : 0 <= k <= i64_max -> id <> ""%string -> decode_cursor (encode_cursor k id) = Ok (k, id).
Proof.
  intros Hk Hid. unfold decode_cursor, encode_cursor.
  change (pretty k +:+ ":" +:+ id)%string with (pretty k +:+ String ":"%char id).
  rewrite split_once_app by (apply lacks_pretty_Z; [done|lia]). rewrite parse_i64_pretty by done.
  rewrite (proj2 (Z.ltb_ge _ _)), bool_decide_eq_false_2 by (done || lia). done.
Qed.

Lemma parse_digits_nonneg acc s v : 0 <= acc -> parse_digits acc s = Some v -> 0 <= v.
Proof.
  revert acc. induction s as [|a s IH]; intros acc Hacc; simpl; [by intros [= <-]|].
  destruct (digit a) as [d|] eqn:Hd; [|done]. simpl. destruct (u64_max <? acc * 10 + d); [done|]. apply IH.
  unfold digit in Hd. destruct (Z.leb_spec 48 (Z.of_N (N_of_ascii a))); [|done]. simpl in Hd.
  destruct (Z.of_N (N_of_ascii a) <=? 57); [|done]. injection Hd as <-. lia.
Qed.

(** A cursor reads back as the position it was made from, whatever the id contains, and what
    decodes at all is a position a row can hold: a time that is not negative and an id. *)
Theorem cursor_roundtrip k id c k' id' :
  (0 <= k <= i64_max -> id <> ""%string -> decode_cursor (encode_cursor k id) = Ok (k, id))
  /\ (decode_cursor c = Ok (k', id') -> 0 <= k' <= i64_max /\ id' <> ""%string).
Proof.
  split; [apply decode_encode|]. unfold decode_cursor.
  destruct (split_once _ c) as [[key i]|]; [|done].
  destruct (parse_i64 key) as [k0|] eqn:Hp; [|done].
  destruct (Z.ltb_spec k0 0) as [|Hk0]; [done|]. simpl. case_bool_decide as Hi; [done|].
  intros [= <- <-]. split; [|done]. split; [done|]. unfold parse_i64 in Hp.
  assert (Hsigned : forall neg s, parse_signed neg s = Some k0 -> k0 <= i64_max).
  { intros neg s. unfold parse_signed. destruct s as [|a s]; [done|].
    destruct (parse_digits 0 (String a s)) as [v|] eqn:Hv; [|done].
    apply parse_digits_nonneg in Hv; [|done]. cbn [mbind option_bind].
    destruct neg; [destruct (Z.leb_spec v (2 ^ 63))|destruct (Z.leb_spec v i64_max)];
      try done; intros Heq; injection Heq; unfold i64_max in *; lia. }
  destruct key as [|a s]; [done|]. repeat case_bool_decide; by eapply Hsigned in Hp.
Qed.

(** ** Following the cursors *)

Section walks.
Context {E : Env} {G : Engine} `{!UuidFresh E} `{!ScanComplete G}.

(** A job whose position can be written as a cursor. *)
Definition has_position (j : Job) : Prop := 0 <= j_created_at j <= i64_max /\ j_id j <> ""%string.

Lemma page_run status f limit w cursor pre l :
  wf w -> (forall n, pool_ready n = true) -> 1 <= limit ->
  matching status f (db w) = pre ++ l -> Forall has_position (matching status f (db w)) ->
  cursor = (fun j => encode_cursor (j_created_at j) (j_id j)) <$> last pre ->
  exists w', wf w' /\ db w' = db w /\ list_jobs_page status f limit cursor w
    = (Ok (job_page (take (Z.to_nat limit) l) limit false), w').
Proof.
  intros Hwf Hp Hl Hm Hpos ->. unfold list_jobs_page. set (after := (fun j => (j_created_at j, j_id j)) <$> last pre).
  assert (Hparse : parse_cursor ((fun j => encode_cursor (j_created_at j) (j_id j)) <$> last pre) = Ok after).
  { unfold after. destruct (last pre) as [j|] eqn:Hlast; [|done]. simpl.
    rewrite Hm in Hpos. apply Forall_app in Hpos as [Hpre _].
    apply last_Some_elem_of in Hlast. rewrite Forall_forall in Hpre. destruct (Hpre _ Hlast).
    by rewrite decode_encode. }
  rewrite Hparse. destruct (list_after_cases status f limit after w Hwf (Hp _) (Hp _)) as (w' & Hdb & Heq).
  pose proof (keeps_list_jobs_filtered_after wf status f limit after w Hwf) as Hwf'. rewrite Heq in Hwf'.
  exists w'. split_and!; [exact Hwf'|done|]. rewrite (bind_ok _ _ _ _ _ Heq). unfold mret, M_ret. do 3 f_equal.
  destruct (matching_sorted status f w Hwf) as [Hs Hnd]. rewrite Hm in *. unfold after.
  destruct pre as [|x pre _] using rev_ind.
  - simpl. f_equal. by apply filter_all.
  - rewrite last_snoc. cbn [fmap option_fmap option_map]. rewrite <- app_assoc in *.
    change ([x] ++ l) with (x :: l) in *. by rewrite below_suffix.
Qed.

Lemma walk_run fuel status f limit w cursor pre l :
  wf w -> (forall n, pool_ready n = true) -> 1 <= limit -> (length l < fuel)%nat ->
  matching status f (db w) = pre ++ l -> Forall has_position (matching status f (db w)) ->
  cursor = (fun j => encode_cursor (j_created_at j) (j_id j)) <$> last pre ->
  exists w', db w' = db w /\ walk fuel status f limit cursor w = (Ok (Some l), w').
Proof.
  intros Hwf Hp Hl. revert w cursor pre l Hwf.
  induction fuel as [|fuel IH]; intros w cursor pre l Hwf Hlen Hm Hpos Hc; [lia|].
  destruct (page_run status f limit w cursor pre l Hwf Hp Hl Hm Hpos Hc) as (w1 & Hwf1 & Hdb & Heq).
  cbn [walk]. rewrite (bind_ok _ _ _ _ _ Heq). unfold job_page, page, next_cursor. cbn [pg_items pg_next_cursor].
  destruct (Z.ltb_spec (count (take (Z.to_nat limit) l)) limit) as [Hshort|Hfull].
  - exists w1. split; [done|]. rewrite take_ge; [done|]. unfold count in Hshort. rewrite length_take in Hshort. lia.
  - assert (Htake : length (take (Z.to_nat limit) l) = Z.to_nat limit).
    { unfold count in Hfull. rewrite length_take in *. lia. }
    destruct (last (take (Z.to_nat limit) l)) as [j|] eqn:Hj.
    2:{ apply last_None in Hj. rewrite Hj in Htake. simpl in Htake. lia. }
    cbn [fmap option_fmap option_map].
    destruct (IH w1 (Some (encode_cursor (j_created_at j) (j_id j))) (pre ++ take (Z.to_nat limit) l)
      (drop (Z.to_nat limit) l) Hwf1) as (w' & Hdb' & Hrest).
    + rewrite length_take in Htake. rewrite length_drop. lia.
    + by rewrite <- app_assoc, take_drop, Hdb.
    + by rewrite Hdb.
    + by rewrite last_app, Hj.
    + exists w'. split; [by rewrite Hdb'|]. rewrite (bind_ok _ _ _ _ _ Hrest). unfold mret, M_ret. simpl.
      by rewrite take_drop.
Qed.

(** C29: following the cursors reads the listing.  Asking for a page, passing its cursor back
    for the next, and stopping at the first page without one, a caller has read every job
    that matches the filters exactly once, in order, whatever the page size, and has asked for
    no more pages than there are jobs and one more. *)
Theorem walk_reads_all status f limit w :
  wf w -> (forall n, pool_ready n = true) -> 1 <= limit ->
  Forall has_position (matching status f (db w)) ->
  let jobs := matching status f (db w) in
  exists w', db w' = db w
    /\ walk (S (length jobs)) status f limit None w = (Ok (Some jobs), w')
    /\ NoDup (j_id <$> jobs)
    /\ forall j, j ∈ jobs <-> j ∈ all_jobs (db w) /\ job_matches status f j = true.
Proof.
  intros Hwf Hp Hl Hpos jobs.
  destruct (walk_run (S (length jobs)) status f limit w None [] jobs Hwf Hp Hl) as (w' & Hdb & Heq); [lia|done..|].
  exists w'. split_and!; [done|done|by apply matching_sorted|]. intros j. unfold jobs, matching.
  rewrite order_by_elem_of, list_elem_of_filter, Is_true_true. tauto.
Qed.
End walks.

(** ** Examples *)

Section examples.
#[local] Existing Instances demo_env demo_engine demo_uuid_fresh demo_scan_complete.

Lemma cursor_roundtrip_witness :
  decode_cursor (encode_cursor 1720000000123 "a:b") = Ok (1720000000123, "a:b"%string)
  /\ decode_cursor "-1:a" = Err (Other "invalid cursor: -1:a").
Proof.
  destruct (cursor_roundtrip 1720000000123 "a:b" "1:a" 1 "a") as [H _]. split; [|by vm_compute].
  apply H; [unfold i64_max; lia|done].
Defined.

(** Three jobs, read two at a time. *)
Definition listed_world : World :=
  snd ((enqueue (demo_new_job None None []) ;; enqueue (demo_new_job None None []) ;;
        enqueue (demo_new_job None None [])) demo_world).

Definition any_job : JobFilter := mkJobFilter None None None None None None None.

Lemma walk_reads_all_witness :
  let x := walk 4 None any_job 2 None listed_world in
  exists jobs, fst x = Ok (Some jobs) /\ length jobs = 3%nat /\ NoDup (j_id <$> jobs).
Proof.
  intros x. set (jobs := matching None any_job (db listed_world)).
  assert (Hlen : length jobs = 3%nat) by by vm_compute.
  assert (Hpos : Forall has_position jobs).
  { assert (Hb : forallb (fun j => (0 <=? j_created_at j) && (j_created_at j <=? i64_max)
      && negb (bool_decide (j_id j = ""%string))) jobs = true) by by vm_compute.
    apply Forall_forall. intros j Hj. rewrite forallb_forall in Hb. apply list_elem_of_In, Hb in Hj.
    apply andb_prop in Hj as [[H1%Z.leb_le H2%Z.leb_le]%andb_prop H3].
    split; [lia|]. by apply negb_true_iff, bool_decide_eq_false in H3. }
  assert (Hwf : wf listed_world).
  { assert (Hk : keeps wf (enqueue (demo_new_job None None []) ;; enqueue (demo_new_job None None []) ;;
        enqueue (demo_new_job None None []))).
    { repeat (apply keeps_bind; [apply keeps_enqueue|intros _]). apply keeps_enqueue. }
    apply Hk, wf_empty. }
  destruct (walk_reads_all None any_job 2 listed_world Hwf (fun _ => eq_refl) ltac:(lia) Hpos)
    as (w' & _ & Heq & Hnd & _).
  fold jobs in Heq, Hnd. rewrite Hlen in Heq. exists jobs. unfold x. rewrite Heq. split_and!; [done|done|done].
Defined.
End examples.
