(* ===== verification/Stats.v ===== *)
(** * Counting jobs ([diesel_common/jobs.rs], [storage/mod.rs])

    The per-status statistics: grouped counts of the live table and the archive
    assigned into [QueueStats], overall, for one queue, for all queues, and for a
    window of recent completions; and the small counts that admission control reads. *)
From S2P Require Import Prelude Job Db Store Enqueue Dequeue Transitions Listing.

Record QueueStats := mkQueueStats {
  st_pending : Z;
  st_running : Z;
  st_completed : Z;
  st_failed : Z;
  st_dead : Z;
  st_cancelled : Z
}.

(** [QueueStats::default] *)
Definition zero_stats : QueueStats := mkQueueStats 0 0 0 0 0 0.

Definition stat_field (s : JobStatus) (q : QueueStats) : Z :=
  match s with
  | Pending => st_pending q
  | Running => st_running q
  | Complete => st_completed q
  | Failed => st_failed q
  | Dead => st_dead q
  | Cancelled => st_cancelled q
  end.

(** [stats.<field> = v] for the field of a status. *)
Definition with_stat (s : JobStatus) (v : Z) (q : QueueStats) : QueueStats :=
  let 'mkQueueStats p r c f d x := q in
  match s with
  | Pending => mkQueueStats v r c f d x
  | Running => mkQueueStats p v c f d x
  | Complete => mkQueueStats p r v f d x
  | Failed => mkQueueStats p r c v d x
  | Dead => mkQueueStats p r c f v x
  | Cancelled => mkQueueStats p r c f d v
  end.

(** [QueueStats::add] *)
Definition stats_add (q : QueueStats) (s : JobStatus) (count : Z) : QueueStats :=
  with_stat s (stat_field s q + count) q.

Definition set_status_count (stats : QueueStats) (status count : Z) : QueueStats :=
  match from_i32 status with
  | Some s => with_stat s count stats
  | None => stats
  end.

Definition apply_status_count (stats : QueueStats) (rows : list (Z * Z)) : QueueStats :=
  foldl (fun st '(status, count) => set_status_count st status count) stats rows.

Record LiveCounts := mkLiveCounts { lc_pending : Z; lc_running : Z }.

(** [GROUP BY key] with [COUNT( * )], the groups in the engine's order. *)
Definition group_map {R K} `{Countable K} (key : R -> K) (l : list R) : gmap K (K * Z) :=
  list_to_map ((fun r => (key r, (key r, count (filter (fun r' => key r' = key r) l)))) <$> l).

Definition group_count {G : Engine} {R K} `{Countable K} (key : R -> K) (l : list R)
    : list (K * Z) :=
  scan (group_map key l).

(** [completed_at >= since]: false on null. *)
Definition done_since (since : Z) (completed_at : option Z) : bool :=
  match completed_at with
  | Some t => since <=? t
  | None => false
  end.

Section stats.
Context {E : Env} {G : Engine}.

(** [Some(ns) => .filter(namespace.eq(ns)), None => no filter] *)
Definition ns_filter (namespace : option string) (row_ns : option string) : bool :=
  opt_filter (fun ns => bool_decide (row_ns = Some ns)) namespace.

Definition stats (namespace : option string) : DbM QueueStats :=
  conn ;;
  live ← sql_select jobs (fun r => ns_filter namespace (jr_namespace r));
  archived ← sql_select archived_jobs (fun r => ns_filter namespace (ar_namespace r));
  let st := apply_status_count zero_stats (group_count jr_status live) in
  mret (apply_status_count st (group_count ar_status archived)).

Definition stats_by_queue (queue_name : string) (namespace : option string) : DbM QueueStats :=
  conn ;;
  live ← sql_select jobs (fun r =>
    bool_decide (jr_queue r = queue_name) && ns_filter namespace (jr_namespace r));
  archived ← sql_select archived_jobs (fun r =>
    bool_decide (ar_queue r = queue_name) && ns_filter namespace (ar_namespace r));
  let st := apply_status_count zero_stats (group_count jr_status live) in
  mret (apply_status_count st (group_count ar_status archived)).

(** [map.entry(queue).or_default()], updated. *)
Definition upsert_stats (f : QueueStats -> QueueStats) (queue : string)
    (m : gmap string QueueStats) : gmap string QueueStats :=
  <[queue := f (default zero_stats (m !! queue))]> m.

Definition stats_all_queues (namespace : option string) : DbM (gmap string QueueStats) :=
  conn ;;
  live ← sql_select jobs (fun r => ns_filter namespace (jr_namespace r));
  archived ← sql_select archived_jobs (fun r => ns_filter namespace (ar_namespace r));
  let rows := group_count (fun r => (jr_queue r, jr_status r)) live
    ++ group_count (fun r => (ar_queue r, ar_status r)) archived in
  mret (foldl (fun m '(queue, status, count) =>
    upsert_stats (fun st => set_status_count st status count) queue m) ∅ rows).

Definition terminal_statuses : list Z :=
  [as_int Complete; as_int Failed; as_int Dead; as_int Cancelled].

Definition queue_throughput (since_ms : Z) (namespace : option string)
    : DbM (gmap string QueueStats) :=
  conn ;;
  live ← sql_select jobs (fun r =>
    done_since since_ms (jr_completed_at r) && bool_decide (jr_status r ∈ terminal_statuses)
    && ns_filter namespace (jr_namespace r));
  archived ← sql_select archived_jobs (fun r =>
    done_since since_ms (ar_completed_at r) && bool_decide (ar_status r ∈ terminal_statuses)
    && ns_filter namespace (ar_namespace r));
  let rows := group_count (fun r => (jr_queue r, jr_status r)) live
    ++ group_count (fun r => (ar_queue r, ar_status r)) archived in
  mret (foldl (fun m '(queue, status, count) =>
    match from_i32 status with
    | Some s => upsert_stats (fun st => stats_add st s count) queue m
    | None => m
    end) ∅ rows).

Definition count_running_by_task (task_name : string) (namespace : option string) : DbM Z :=
  conn ;;
  sql_count jobs (fun r =>
    bool_decide (jr_task_name r = task_name) && (jr_status r =? as_int Running)
    && ns_filter namespace (jr_namespace r)).

Definition count_by_namespace (namespace : option string) (status : JobStatus) : DbM Z :=
  conn ;;
  sql_count jobs (fun r =>
    (jr_status r =? as_int status) && same_namespace (jr_namespace r) namespace).

Definition count_pending_by_queue (queue_name : string) : DbM Z :=
  conn ;;
  sql_count jobs (fun r =>
    bool_decide (jr_queue r = queue_name) && (jr_status r =? as_int Pending)).

Definition live_counts (queue namespace : option string) : DbM LiveCounts :=
  conn ;;
  let count_of (status : JobStatus) := sql_count jobs (fun r =>
    (jr_status r =? as_int status) && opt_filter (fun q => bool_decide (jr_queue r = q)) queue
    && ns_filter namespace (jr_namespace r)) in
  pending ← count_of Pending;
  running ← count_of Running;
  mret (mkLiveCounts pending running).

End stats.

(** ** Properties *)

(** The jobs of both tables that satisfy a predicate and have a status. *)
Definition tally {G : Engine} (p : Job -> bool) (s : JobStatus) (d : DB) : Z :=
  count (filter (fun j => Is_true (p j) /\ j_status j = s) (all_jobs d)).

Section groups.
Context {G : Engine} `{!ScanComplete G}.

Lemma group_map_lookup {R K} `{Countable K} (key : R -> K) (l : list R) k kn :
  group_map key l !! k = Some kn <->
  k ∈ key <$> l /\ kn = (k, count (filter (fun r => key r = k) l)).
Proof.
  unfold group_map. split.
  - intros Hk%elem_of_list_to_map_2. apply list_elem_of_fmap in Hk as (r & Heq & Hr).
    injection Heq as -> ->. split; [by apply list_elem_of_fmap_2|done].
  - intros [(r & -> & Hr)%list_elem_of_fmap ->].
    destruct (list_to_map _ !! key r) as [v|] eqn:Hv.
    + apply elem_of_list_to_map_2 in Hv. apply list_elem_of_fmap in Hv as (r' & Heq & _).
      injection Heq as -> ->. done.
    + apply not_elem_of_list_to_map_2 in Hv. destruct Hv.
      rewrite <- list_fmap_compose. apply (list_elem_of_fmap_2 key _ _ Hr).
Qed.

Lemma elem_of_group_count {R K} `{Countable K} (key : R -> K) (l : list R) k n :
  (k, n) ∈ group_count key l <-> k ∈ key <$> l /\ n = count (filter (fun r => key r = k) l).
Proof.
  unfold group_count. rewrite elem_of_scan. split.
  - intros [k' [Hin [= -> ->]]%group_map_lookup]. done.
  - intros [Hin ->]. exists k. by apply group_map_lookup.
Qed.

Lemma group_count_NoDup {R K} `{Countable K} (key : R -> K) (l : list R) :
  NoDup (fst <$> group_count key l).
Proof.
  apply scan_NoDup_key. intros k kn [_ ->]%group_map_lookup. done.
Qed.

Lemma status_code_Some v s : from_i32 v = Some s <-> v = as_int s.
Proof.
  split; [|intros ->; by destruct s]. unfold from_i32.
  repeat (case_match; try done); intros [= <-]; done.
Qed.

Lemma stat_field_with s s' v q :
  stat_field s (with_stat s' v q) = if decide (s' = s) then v else stat_field s q.
Proof. destruct q, s, s'; done. Qed.

Lemma stat_field_set s q v n :
  stat_field s (set_status_count q v n) = if decide (v = as_int s) then n else stat_field s q.
Proof.
  unfold set_status_count. destruct (from_i32 v) as [s'|] eqn:Hv.
  - rewrite stat_field_with. apply status_code_Some in Hv as ->.
    destruct (decide (s' = s)) as [->|Hne]; [by rewrite decide_True|].
    rewrite decide_False; [done|]. intros Heq. by destruct s, s'.
  - rewrite decide_False; [done|]. intros ->. by destruct s.
Qed.

Lemma apply_miss s q rows :
  as_int s ∉ rows.*1 -> stat_field s (apply_status_count q rows) = stat_field s q.
Proof.
  unfold apply_status_count. revert q. induction rows as [|[v n] rows IH]; intros q Hn; [done|].
  rewrite fmap_cons, not_elem_of_cons in Hn. destruct Hn as [Hv Hn]. simpl.
  rewrite IH by done. rewrite stat_field_set, decide_False; [done|]. by intros ->.
Qed.

Lemma apply_hit s q rows n :
  NoDup rows.*1 -> (as_int s, n) ∈ rows -> stat_field s (apply_status_count q rows) = n.
Proof.
  unfold apply_status_count. revert q. induction rows as [|[v m] rows IH]; intros q Hnd Hin.
  { by apply elem_of_nil in Hin. }
  rewrite fmap_cons in Hnd. apply NoDup_cons in Hnd as [Hv Hnd]. simpl.
  apply elem_of_cons in Hin as [[= <- <-]|Hin]; [|by apply IH].
  fold (apply_status_count (set_status_count q (as_int s) n) rows).
  rewrite apply_miss by done. by rewrite stat_field_set, decide_True.
Qed.

(** The rows of a grouped count of [l], in any order. *)
Definition groups_of {R K} `{EqDecision K} (key : R -> K) (l : list R) (rows : list (K * Z))
    : Prop :=
  NoDup rows.*1 /\ forall k n, (k, n) ∈ rows <->
    k ∈ key <$> l /\ n = count (filter (fun r => key r = k) l).

Lemma group_count_groups {R K} `{Countable K} (key : R -> K) (l : list R) :
  groups_of key l (group_count key l).
Proof. split; [apply group_count_NoDup|]. intros k n. apply elem_of_group_count. Qed.

(** Assigning the grouped counts of one list. *)
Lemma apply_group {R} (key : R -> Z) s q (l : list R) rows :
  groups_of key l rows ->
  stat_field s (apply_status_count q rows) =
  if decide (as_int s ∈ key <$> l) then count (filter (fun r => key r = as_int s) l)
  else stat_field s q.
Proof.
  intros [Hnd Hrows]. case_decide as Hin.
  - apply apply_hit; [done|]. by apply Hrows.
  - apply apply_miss. intros ([k n] & Heq & Hk)%list_elem_of_fmap. simpl in Heq. subst k.
    by apply Hrows in Hk as [? _].
Qed.

(** Of the groups by queue and status, the ones of a queue are the groups by status of
    its rows. *)
Definition rows_of_queue (queue : string) (rows : list (string * Z * Z)) : list (Z * Z) :=
  (fun x => (snd (fst x), snd x)) <$> filter (fun x => fst (fst x) = queue) rows.

Lemma rows_of_queue_NoDup queue rows :
  NoDup rows.*1 -> NoDup (rows_of_queue queue rows).*1.
Proof.
  unfold rows_of_queue. induction rows as [|[[q v] n] rows IH]; intros Hnd; [constructor|].
  rewrite fmap_cons in Hnd. apply NoDup_cons in Hnd as [Hx Hnd]. rewrite filter_cons.
  case_decide as Hq; [|by apply IH]. simpl in Hq. subst q. rewrite !fmap_cons.
  constructor; [|by apply IH]. simpl. intros ([v' n'] & -> & Hin)%list_elem_of_fmap.
  apply list_elem_of_fmap in Hin as ([[q' v''] n''] & Heq & [Hq Hin]%list_elem_of_filter).
  simpl in *. injection Heq as -> ->. subst q'. apply Hx.
  exact (list_elem_of_fmap_2 fst _ _ Hin).
Qed.

Lemma rows_of_queue_groups {R} (queue_of : R -> string) (key : R -> Z) queue (l : list R) rows :
  groups_of (fun r => (queue_of r, key r)) l rows ->
  groups_of key (filter (fun r => queue_of r = queue) l) (rows_of_queue queue rows).
Proof.
  intros [Hnd Hrows]. assert (Hin : forall k n, (k, n) ∈ rows_of_queue queue rows <->
    ((queue, k), n) ∈ rows).
  { intros k n. unfold rows_of_queue. rewrite list_elem_of_fmap. split.
    - intros ([[q v] m] & [= -> ->] & [<- Hx]%list_elem_of_filter). done.
    - intros Hx. exists ((queue, k), n). by rewrite list_elem_of_filter. }
  split.
  - by apply rows_of_queue_NoDup.
  - intros k n. rewrite Hin, Hrows, list_filter_filter, !list_elem_of_fmap. split.
    + intros [(r & [= -> ->] & Hr) ->]. split.
      * exists r. by rewrite list_elem_of_filter.
      * f_equal. apply list_filter_iff. intros x. split; [by intros [= ? ?]|]. by intros [-> ->].
    + intros [(r & -> & [<- Hr]%list_elem_of_filter) ->]. split; [by exists r|].
      f_equal. apply list_filter_iff. intros x. split; [by intros [-> ->]|]. by intros [= ? ?].
Qed.

Lemma count_none {R} (key : R -> Z) v (l : list R) :
  v ∉ key <$> l -> count (filter (fun r => key r = v) l) = 0.
Proof.
  intros Hn. rewrite filter_none; [done|]. intros r Hr <-. by apply Hn, list_elem_of_fmap_2.
Qed.

(** Counting through a view. *)
Lemma count_view {R} (view : R -> Job) (key : R -> Z) (p : R -> bool) (q : Job -> bool) s l :
  (forall r, r ∈ l -> p r = q (view r) /\ (key r = as_int s <-> j_status (view r) = s)) ->
  count (filter (fun r => key r = as_int s) (filter (fun r => Is_true (p r)) l))
  = count (filter (fun j => Is_true (q j) /\ j_status j = s) (view <$> l)).
Proof.
  unfold count. intros Hl. f_equal. induction l as [|r l IH]; [done|].
  destruct (Hl r) as [Hp Hk]; [left|]. assert (IH' := IH (fun r' Hr' => Hl r' ltac:(by right))).
  rewrite fmap_cons, (filter_cons _ (view r)), (filter_cons _ r), Hp.
  destruct (q (view r)).
  - rewrite (decide_True (P:=Is_true true)) by done. rewrite filter_cons.
    destruct (decide (key r = as_int s)) as [Hs|Hs].
    + rewrite decide_True by (split; [done|by apply Hk]). simpl. by rewrite IH'.
    + rewrite decide_False; [done|]. intros [_ ?]. by apply Hs, Hk.
  - rewrite (decide_False (P:=Is_true false)) by (by intros []).
    rewrite decide_False; [done|]. by intros [[] _].
Qed.
End groups.

Section properties.
Context {E : Env} {G : Engine} `{!UuidFresh E} `{!ScanComplete G}.

Lemma as_int_inj s s' : as_int s = as_int s' -> s = s'.
Proof. by destruct s, s'. Qed.

Lemma live_status_iff w r s :
  wf w -> r ∈ scan (db_jobs (db w)) -> jr_status r = as_int s <-> j_status (live_view r) = s.
Proof.
  intros Hwf [k Hk]%elem_of_scan. change (j_status (live_view r)) with (status_of (jr_status r)).
  pose proof (active_status_of _ (wf_live_status _ _ _ _ _ Hwf _ _ Hk)) as Hs.
  split; [|by intros <-]. intros Heq. apply as_int_inj. congruence.
Qed.

Lemma archived_status_iff w r s :
  wf w -> r ∈ scan (db_archived_jobs (db w)) ->
  ar_status r = as_int s <-> j_status (archived_view r) = s.
Proof.
  intros Hwf [k Hk]%elem_of_scan.
  change (j_status (archived_view r)) with (status_of (ar_status r)).
  pose proof (terminal_status_of _ (wf_arch_status _ _ _ _ _ Hwf _ _ Hk)) as Hs.
  split; [|by intros <-]. intros Heq. apply as_int_inj. congruence.
Qed.

Lemma active_not_terminal v : is_active v = true -> is_terminal v = true -> False.
Proof.
  unfold is_active. rewrite orb_true_iff, !Z.eqb_eq. by intros [->| ->].
Qed.

(** The counts of the two tables never meet: a status is live or terminal. *)
Lemma tally_split w (pl : JobRow -> bool) (pa : ArchivedJobRow -> bool) q s :
  wf w -> (forall r, pl r = q (live_view r)) -> (forall r, pa r = q (archived_view r)) ->
  let L := filter (fun r => Is_true (pl r)) (scan (db_jobs (db w))) in
  let A := filter (fun r => Is_true (pa r)) (scan (db_archived_jobs (db w))) in
  tally q s (db w) = count (filter (fun r => jr_status r = as_int s) L)
                     + count (filter (fun r => ar_status r = as_int s) A)
  /\ (as_int s ∈ jr_status <$> L -> as_int s ∈ ar_status <$> A -> False).
Proof.
  intros Hwf Hl Ha L A. split.
  - unfold tally, all_jobs. rewrite filter_app. unfold count at 1. rewrite length_app, Nat2Z.inj_add.
    f_equal; symmetry.
    + apply count_view. intros r Hr. split; [apply Hl|by eapply live_status_iff].
    + apply count_view. intros r Hr. split; [apply Ha|by eapply archived_status_iff].
  - intros (r & Hr & [_ [k Hk]%elem_of_scan]%list_elem_of_filter)%list_elem_of_fmap
      (a & Ha' & [_ [k' Hk']%elem_of_scan]%list_elem_of_filter)%list_elem_of_fmap.
    apply (active_not_terminal (as_int s)).
    + rewrite Hr. by eapply (wf_live_status _ _ _ _ _ Hwf).
    + rewrite Ha'. by eapply (wf_arch_status _ _ _ _ _ Hwf).
Qed.

Lemma assign_both w (pl : JobRow -> bool) (pa : ArchivedJobRow -> bool) q s rl ra :
  wf w -> (forall r, pl r = q (live_view r)) -> (forall r, pa r = q (archived_view r)) ->
  groups_of jr_status (filter (fun r => Is_true (pl r)) (scan (db_jobs (db w)))) rl ->
  groups_of ar_status (filter (fun r => Is_true (pa r)) (scan (db_archived_jobs (db w)))) ra ->
  stat_field s (apply_status_count (apply_status_count zero_stats rl) ra) = tally q s (db w).
Proof.
  intros Hwf Hl Ha Hrl Hra. destruct (tally_split w pl pa q s Hwf Hl Ha) as [-> Hdis].
  rewrite (apply_group _ _ _ _ _ Hra), (apply_group _ _ _ _ _ Hrl).
  destruct (decide (as_int s ∈ ar_status <$> _)) as [HA|HA].
  - rewrite (count_none jr_status); [lia|]. intros HL. by apply Hdis.
  - rewrite (count_none ar_status) by done. case_decide as HL; [lia|].
    rewrite (count_none jr_status) by done. by destruct s.
Qed.

(** The predicate of a job's queue and namespace. *)
Definition in_queue (queue namespace : option string) (j : Job) : bool :=
  opt_filter (fun q => bool_decide (j_queue j = q)) queue
  && ns_filter namespace (j_namespace j).

(** Statistics are exact.  Each counter of [stats], and of [stats_by_queue] for one
    queue, is the number of jobs in that status that the store holds, live or archived,
    in the namespace (every namespace without one).  Assigning instead of adding the
    counts of the two tables loses nothing. *)
Theorem stats_spec queue ns w :
  wf w -> pool_ready (tick w) = true ->
  exists st st_q,
    stats ns w = (Ok st, bump 1 w) /\ stats_by_queue queue ns w = (Ok st_q, bump 1 w)
    /\ forall s, stat_field s st = tally (in_queue None ns) s (db w)
              /\ stat_field s st_q = tally (in_queue (Some queue) ns) s (db w).
Proof.
  intros Hwf Hp. unfold stats, stats_by_queue.
  rewrite !(bind_ok _ _ _ _ _ (conn_ok w Hp)).
  do 2 eexists. split_and!; [done|done|]. intros s. split.
  - apply (assign_both w (fun r => ns_filter ns (jr_namespace r))
      (fun r => ns_filter ns (ar_namespace r))); try done; apply group_count_groups.
  - apply (assign_both w
      (fun r => bool_decide (jr_queue r = queue) && ns_filter ns (jr_namespace r))
      (fun r => bool_decide (ar_queue r = queue) && ns_filter ns (ar_namespace r))); try done;
      apply group_count_groups.
Qed.
(** The entry of one queue after all rows are folded into the map. *)
Lemma upsert_fold rows m queue :
  foldl (fun m '(q, status, n) =>
    upsert_stats (fun st => set_status_count st status n) q m) m rows !! queue
  = let rq := rows_of_queue queue rows in
    if decide (rq = []) then m !! queue
    else Some (apply_status_count (default zero_stats (m !! queue)) rq).
Proof.
  revert m. induction rows as [|[[q v] n] rows IH]; intros m; [done|]. cbn [foldl].
  rewrite IH. unfold upsert_stats.
  assert (Hrows : rows_of_queue queue ((q, v, n) :: rows)
    = if decide (q = queue) then (v, n) :: rows_of_queue queue rows else rows_of_queue queue rows).
  { unfold rows_of_queue. rewrite filter_cons. cbn [fst]. by case_decide. }
  rewrite Hrows. destruct (decide (q = queue)) as [->|Hne].
  - rewrite lookup_insert_eq. cbn [default]. generalize (rows_of_queue queue rows) as rq.
    intros [|x rq]; done.
  - by rewrite lookup_insert_ne.
Qed.

Lemma groups_nil {R} (key : R -> Z) (l : list R) rows :
  groups_of key l rows -> rows = [] <-> l = [].
Proof.
  intros [_ Hrows]. split.
  - intros ->. destruct l as [|r l]; [done|].
    assert ((key r, count (filter (fun r' => key r' = key r) (r :: l))) ∈ @nil (Z * Z))
      as []%elem_of_nil. apply Hrows. split; [left|done].
  - intros ->. destruct rows as [|[k n] rows]; [done|].
    by destruct (proj1 (Hrows k n) ltac:(left)) as [[]%elem_of_nil _].
Qed.

(** The jobs a predicate selects, as views of the rows of the two tables. *)
Lemma selected_jobs w (pl : JobRow -> bool) (pa : ArchivedJobRow -> bool) (q : Job -> bool) :
  (forall r, pl r = q (live_view r)) -> (forall r, pa r = q (archived_view r)) ->
  (filter (fun r => Is_true (pl r)) (scan (db_jobs (db w))) = []
   /\ filter (fun r => Is_true (pa r)) (scan (db_archived_jobs (db w))) = [])
  <-> forall j, j ∈ all_jobs (db w) -> q j = false.
Proof.
  intros Hl Ha. unfold all_jobs. split.
  - intros [HL HA] j [(r & -> & Hr)%list_elem_of_fmap|(r & -> & Hr)%list_elem_of_fmap]%elem_of_app;
      apply not_true_iff_false; intros Hq%Is_true_true.
    + rewrite <- Hl in Hq. by eapply (filter_nil_not_elem_of (fun r => Is_true (pl r))).
    + rewrite <- Ha in Hq. by eapply (filter_nil_not_elem_of (fun r => Is_true (pa r))).
  - intros Hj. split; apply filter_none; intros r Hr; rewrite ?Hl, ?Ha, Hj;
      try (by intros []); apply elem_of_app; [left|right]; by apply list_elem_of_fmap_2.
Qed.

Lemma filter_queue {R} (queue_of : R -> string) (p : R -> bool) queue (l : list R) :
  filter (fun r => Is_true (bool_decide (queue_of r = queue) && p r)) l
  = filter (fun r => queue_of r = queue) (filter (fun r => Is_true (p r)) l).
Proof.
  rewrite list_filter_filter. apply list_filter_iff. intros r.
  by rewrite andb_True, bool_decide_spec.
Qed.

(** The breakdown by queue is exact and complete: a queue has an entry exactly when
    a visible job is stored under it, and each counter of the entry is the number of
    such jobs in that status. *)
Theorem stats_all_queues_spec ns w :
  wf w -> pool_ready (tick w) = true ->
  exists m, stats_all_queues ns w = (Ok m, bump 1 w)
    /\ forall queue, match m !! queue with
         | Some st => forall s, stat_field s st = tally (in_queue (Some queue) ns) s (db w)
         | None => forall j, j ∈ all_jobs (db w) -> in_queue (Some queue) ns j = false
         end.
Proof.
  intros Hwf Hp. unfold stats_all_queues. rewrite (bind_ok _ _ _ _ _ (conn_ok w Hp)).
  eexists. split; [done|]. intros queue. rewrite upsert_fold, lookup_empty. cbn [default].
  set (rl := group_count _ _). set (ra := group_count _ _).
  replace (rows_of_queue queue (rl ++ ra)) with (rows_of_queue queue rl ++ rows_of_queue queue ra)
    by (unfold rows_of_queue; by rewrite filter_app, fmap_app).
  assert (Hrl : groups_of jr_status (filter (fun r => Is_true (bool_decide (jr_queue r = queue)
    && ns_filter ns (jr_namespace r))) (scan (db_jobs (db w)))) (rows_of_queue queue rl)).
  { rewrite filter_queue. apply rows_of_queue_groups, group_count_groups. }
  assert (Hra : groups_of ar_status (filter (fun r => Is_true (bool_decide (ar_queue r = queue)
    && ns_filter ns (ar_namespace r))) (scan (db_archived_jobs (db w)))) (rows_of_queue queue ra)).
  { rewrite filter_queue. apply rows_of_queue_groups, group_count_groups. }
  case_decide as Hnil.
  - apply app_eq_nil in Hnil as [Hl%(groups_nil _ _ _ Hrl) Ha%(groups_nil _ _ _ Hra)].
    eapply (selected_jobs w); [..|split; [exact Hl|exact Ha]]; done.
  - intros s. unfold apply_status_count. rewrite foldl_app. by eapply (assign_both w).
Qed.

(** *** The counts only read *)

Lemma keeps_stats I `{!TickMono I} ns : keeps I (stats ns).
Proof. solve_keeps. Qed.
Lemma keeps_stats_by_queue I `{!TickMono I} q ns : keeps I (stats_by_queue q ns).
Proof. solve_keeps. Qed.
Lemma keeps_stats_all_queues I `{!TickMono I} ns : keeps I (stats_all_queues ns).
Proof. solve_keeps. Qed.
Lemma keeps_queue_throughput I `{!TickMono I} since ns : keeps I (queue_throughput since ns).
Proof. solve_keeps. Qed.
Lemma keeps_count_running_by_task I `{!TickMono I} t ns : keeps I (count_running_by_task t ns).
Proof. solve_keeps. Qed.
Lemma keeps_count_by_namespace I `{!TickMono I} ns s : keeps I (count_by_namespace ns s).
Proof. solve_keeps. Qed.
Lemma keeps_count_pending_by_queue I `{!TickMono I} q : keeps I (count_pending_by_queue q).
Proof. solve_keeps. Qed.
Lemma keeps_live_counts I `{!TickMono I} q ns : keeps I (live_counts q ns).
Proof. solve_keeps. Qed.
End properties.

#[export] Hint Resolve keeps_stats keeps_stats_by_queue keeps_stats_all_queues
  keeps_queue_throughput keeps_count_running_by_task keeps_count_by_namespace
  keeps_count_pending_by_queue keeps_live_counts : keeps.

(** ** Examples *)

Section examples.
#[local] Existing Instances demo_env demo_engine demo_uuid_fresh demo_scan_complete.

(** One pending and one completed job. *)
Lemma stats_spec_witness :
  exists st st_q,
    stats (Some "acme") gate_world = (Ok st, bump 1 gate_world)
    /\ stats_by_queue "other" (Some "acme") gate_world = (Ok st_q, bump 1 gate_world)
    /\ st_pending st = 1 /\ st_completed st = 1 /\ st_pending st_q = 0.
Proof.
  destruct (stats_spec "other" (Some "acme") gate_world wf_gate_world eq_refl)
    as (st & st_q & Hst & Hq & Hs).
  exists st, st_q. split_and!; [exact Hst|exact Hq|..].
  - rewrite (proj1 (Hs Pending) : st_pending st = _). by vm_compute.
  - rewrite (proj1 (Hs Complete) : st_completed st = _). by vm_compute.
  - rewrite (proj2 (Hs Pending) : st_pending st_q = _). by vm_compute.
Defined.

Lemma stats_all_queues_spec_witness :
  exists m, stats_all_queues None gate_world = (Ok m, bump 1 gate_world)
    /\ (st_completed <$> m !! "default"%string) = Some 1 /\ m !! "other"%string = None.
Proof.
  destruct (stats_all_queues_spec None gate_world wf_gate_world eq_refl) as (m & Hm & Hq).
  exists m. split; [exact Hm|].
  assert (Heq : m = ok_or ∅ (fst (stats_all_queues None gate_world))) by by rewrite Hm.
  rewrite Heq. split; by vm_compute.
Defined.
End examples.
