(* ===== verification/PubSub.v ===== *)
(** * Topics and subscriptions ([pubsub.rs], [diesel_common/pubsub.rs],
      [sqlite/pubsub.rs], [storage/mod.rs])

    A publish becomes one job per active fan-out subscription and, for a log topic, one
    message.  A log subscription reads the messages after its cursor and moves the
    cursor, or leases messages one by one and acks or nacks each; the retention sweep
    drops the messages every subscription of the topic is done with. *)
From S2P Require Import Prelude Text Job Db Store Enqueue Listing Stats.

(** ** Modes and records *)

Inductive SubscriptionMode := Fanout | Log.

Definition mode_str (m : SubscriptionMode) : string :=
  match m with Fanout => "fanout" | Log => "log" end.

(** Anything that is not ["log"] reads as fan-out. *)
Definition mode_from_wire (wire : string) : SubscriptionMode :=
  if bool_decide (wire = "log"%string) then Log else Fanout.

Definition mode_parse (wire : string) : option SubscriptionMode :=
  if bool_decide (wire = "fanout"%string) then Some Fanout
  else if bool_decide (wire = "log"%string) then Some Log else None.

Definition mode_is_log (m : SubscriptionMode) : bool :=
  match m with Log => true | Fanout => false end.

Record Subscription := mkSubscription {
  sb_topic : string;
  sb_subscription_name : string;
  sb_task_name : string;
  sb_queue : string;
  sb_active : bool;
  sb_durable : bool;
  sb_owner_worker_id : option string;
  sb_created_at : Z;
  sb_priority : option Z;
  sb_max_retries : option Z;
  sb_timeout_ms : option Z;
  sb_mode : SubscriptionMode;
  sb_cursor : option string
}.

Record NewSubscription := mkNewSubscription {
  nsub_topic : string;
  nsub_subscription_name : string;
  nsub_task_name : string;
  nsub_queue : string;
  nsub_active : bool;
  nsub_durable : bool;
  nsub_owner_worker_id : option string;
  nsub_created_at : Z;
  nsub_priority : option Z;
  nsub_max_retries : option Z;
  nsub_timeout_ms : option Z;
  nsub_mode : SubscriptionMode
}.

Record TopicMessage := mkTopicMessage {
  ms_id : string;
  ms_topic : string;
  ms_payload : bytes;
  ms_metadata : option string;
  ms_notes : option string;
  ms_created_at : Z;
  ms_expires_at : option Z
}.

Record Topic := mkTopic {
  to_name : string;
  to_mode : SubscriptionMode;
  to_retention_ms : option Z;
  to_created_at : Z
}.

Record TopicLogStats := mkTopicLogStats {
  ls_topic : string;
  ls_subscription_name : string;
  ls_cursor : option string;
  ls_lag : Z;
  ls_oldest_unacked_age_ms : option Z
}.

Record SubscriptionBacklogStats := mkSubscriptionBacklogStats {
  bs_topic : string;
  bs_subscription_name : string;
  bs_task_name : string;
  bs_queue : string;
  bs_active : bool;
  bs_durable : bool;
  bs_pending : Z;
  bs_running : Z;
  bs_dead : Z;
  bs_oldest_pending_age_ms : option Z
}.

Definition subscription_of_row (r : SubscriptionRow) : Subscription :=
  mkSubscription (su_topic r) (su_subscription_name r) (su_task_name r) (su_queue r)
    (su_active r) (su_durable r) (su_owner_worker_id r) (su_created_at r) (su_priority r)
    (su_max_retries r) (su_timeout_ms r) (mode_from_wire (su_mode r)) (su_cursor r).

Definition message_of_row (r : TopicMessageRow) : TopicMessage :=
  mkTopicMessage (tg_id r) (tg_topic r) (tg_payload r) (tg_metadata r) (tg_notes r)
    (tg_created_at r) (tg_expires_at r).

Definition topic_of_row (r : TopicRow) : Topic :=
  mkTopic (tp_name r) (mode_from_wire (tp_mode r)) (tp_retention_ms r) (tp_created_at r).

Definition topic_is_log (t : Topic) : bool := mode_is_log (to_mode t).

(** [mode = 'log'] *)
Definition is_log_row (r : SubscriptionRow) : bool :=
  bool_decide (su_mode r = mode_str Log).

(** [id > after], where a null cursor is before every id. *)
Definition after_cursor (cursor : option string) (id : string) : bool :=
  match cursor with Some c => String.ltb c id | None => true end.

Definition EPHEMERAL_SUBSCRIPTION_GRACE_MS : Z := 60000.

(** [HashMap]'s iteration order. *)
Class Hasher := {
  hash_iter : forall {K A} `{Countable K}, gmap K A -> list (K * A)
}.

(** Every entry is visited once. *)
Class HashComplete (H : Hasher) : Prop :=
  hash_perm : forall K A `{Countable K} (m : gmap K A), hash_iter m ≡ₚ map_to_list m.

(** ** The registry *)

Section registry.
Context {E : Env} {G : Engine}.

(** A text between double quotes. *)
Definition quoted (s : string) : string :=
  let q := String (Ascii.ascii_of_nat 34) "" in (q +:+ s +:+ q)%string.

Definition validate_topic_declaration (mode : SubscriptionMode) (retention_ms : option Z)
    : Result QueueError unit :=
  if negb (mode_is_log mode) then
    Err (Config ("only " +:+ quoted "log" +:+ " topics are declarable, got Fanout"))
  else if from_option (fun ms => ms <? 0) false retention_ms then
    Err (Config "topic retention_ms must be non-negative")
  else Ok tt.

(** [r?] *)
Definition lift_result {A} (r : Result QueueError A) : DbM A :=
  match r with Ok a => mret a | Err e => throw e end.

Definition declare_topic (name : string) (mode : SubscriptionMode) (retention_ms : option Z)
    : DbM unit :=
  lift_result (validate_topic_declaration mode retention_ms) ;;
  conn ;;
  now ← now_millis;
  sql_upsert topics name (mkTopicRow name (mode_str mode) retention_ms now)
    (fun r => mkTopicRow (tp_name r) (mode_str mode) retention_ms (tp_created_at r)).

Definition get_topic (name : string) : DbM (option Topic) :=
  conn ;;
  row ← sql_find topics name;
  mret (topic_of_row <$> row).

Definition list_declared_topics : DbM (list Topic) :=
  conn ;;
  rows ← sql_select topics (fun _ => true);
  mret (topic_of_row <$> rows).

Definition new_subscription_row (s : NewSubscription) : SubscriptionRow :=
  mkSubscriptionRow (nsub_topic s) (nsub_subscription_name s) (nsub_task_name s) (nsub_queue s)
    (nsub_active s) (nsub_durable s) (nsub_owner_worker_id s) (nsub_created_at s)
    (nsub_priority s) (nsub_max_retries s) (nsub_timeout_ms s) (mode_str (nsub_mode s)) None.

(** The columns a re-registration writes: not [active], [created_at] or [cursor]. *)
Definition reregistered (s : NewSubscription) (r : SubscriptionRow) : SubscriptionRow :=
  mkSubscriptionRow (su_topic r) (su_subscription_name r) (nsub_task_name s) (nsub_queue s)
    (su_active r) (nsub_durable s) (nsub_owner_worker_id s) (su_created_at r)
    (nsub_priority s) (nsub_max_retries s) (nsub_timeout_ms s) (mode_str (nsub_mode s))
    (su_cursor r).

Definition register_subscription (s : NewSubscription) : DbM unit :=
  conn ;;
  sql_upsert topic_subscriptions (nsub_topic s, nsub_subscription_name s)
    (new_subscription_row s) (reregistered s).

Definition registration_order : SubscriptionRow -> SubscriptionRow -> comparison :=
  then_by (asc_Z su_created_at) (asc_str su_subscription_name).

Definition list_subscriptions_for_topic (topic : string) : DbM (list Subscription) :=
  conn ;;
  rows ← sql_select topic_subscriptions (fun r =>
    bool_decide (su_topic r = topic) && su_active r);
  mret (subscription_of_row <$> order_by registration_order rows).

Definition list_subscriptions : DbM (list Subscription) :=
  conn ;;
  rows ← sql_select topic_subscriptions (fun _ => true);
  mret (subscription_of_row <$> rows).

Definition unsubscribe (topic name : string) : DbM bool :=
  conn ;;
  affected ← sql_delete_pk topic_subscriptions (topic, name);
  mret (0 <? affected).

Definition set_subscription_active (topic name : string) (active : bool) : DbM bool :=
  conn ;;
  affected ← sql_update topic_subscriptions (topic, name) (fun _ => true)
    (su_with_active active);
  mret (0 <? affected).

Definition reap_ephemeral_subscriptions (live_worker_ids : list string) : DbM Z :=
  conn ;;
  now ← now_millis;
  let cutoff := now - EPHEMERAL_SUBSCRIPTION_GRACE_MS in
  sql_delete topic_subscriptions (fun r =>
    match su_owner_worker_id r with
    | Some owner => negb (mem owner live_worker_ids)
    | None => false
    end && (su_created_at r <? cutoff)).

(** *** Fan-out *)

Record DeliveryDefaults := mkDeliveryDefaults {
  dd_priority : Z; dd_max_retries : Z; dd_timeout_ms : Z
}.

Record PublishRequest := mkPublishRequest {
  pr_topic : string;
  pr_payload : bytes;
  pr_idempotency_key : option string;
  pr_metadata : option string;
  pr_notes : option string;
  pr_priority : option Z;
  pr_scheduled_at : Z;
  pr_max_retries : option Z;
  pr_timeout_ms : option Z;
  pr_expires_at : option Z;
  pr_result_ttl_ms : option Z;
  pr_namespace : option string;
  pr_queue_defaults : DeliveryDefaults
}.

(** [key::<topic_len>:<name_len>:<topic><name>] *)
Definition salted_unique_key (key topic name : string) : string :=
  (key +:+ "::" +:+ pretty (String.length topic) +:+ ":" +:+ pretty (String.length name)
    +:+ ":" +:+ topic +:+ name)%string.

Definition delivery_notes (request : PublishRequest) (sub : Subscription) : string :=
  let notes := default ∅ (raw ← pr_notes request; json_object raw) in
  json_to_string
    (<["subscription"%string := JString (sb_subscription_name sub)]>
      (<["topic"%string := JString (pr_topic request)]> notes)).

(** [a.or(b).unwrap_or(c)] *)
Definition first_of (a b : option Z) (c : Z) : Z :=
  match a, b with
  | Some v, _ => v
  | None, Some v => v
  | None, None => c
  end.

Definition delivery_job (request : PublishRequest) (sub : Subscription) : NewJob :=
  let d := pr_queue_defaults request in
  mkNewJob (sb_queue sub) (sb_task_name sub) (pr_payload request)
    (first_of (pr_priority request) (sb_priority sub) (dd_priority d))
    (pr_scheduled_at request)
    (first_of (pr_max_retries request) (sb_max_retries sub) (dd_max_retries d))
    (first_of (pr_timeout_ms request) (sb_timeout_ms sub) (dd_timeout_ms d))
    ((fun key => salted_unique_key key (pr_topic request) (sb_subscription_name sub))
      <$> pr_idempotency_key request)
    (pr_metadata request) (Some (delivery_notes request sub)) []
    (pr_expires_at request) (pr_result_ttl_ms request) (pr_namespace request) None None.

(** *** The log *)

Definition publish_message (topic : string) (payload : bytes) (metadata notes : option string)
    (expires_at : option Z) : DbM TopicMessage :=
  conn ;;
  id ← now_v7;
  created_at ← now_millis;
  sql_insert topic_messages id
    (mkTopicMessageRow id topic payload metadata notes created_at expires_at) ;;
  mret (mkTopicMessage id topic payload metadata notes created_at expires_at).

(** Whether the publish is also logged, and under which expiry. *)
Definition log_expiry (request : PublishRequest) (subs : list Subscription)
    : DbM (option (option Z)) :=
  if existsb (fun s => mode_is_log (sb_mode s)) subs then mret (Some (pr_expires_at request))
  else
    declared ← get_topic (pr_topic request);
    match declared with
    | Some topic =>
        if topic_is_log topic then
          match pr_expires_at request, to_retention_ms topic with
          | Some e, _ => mret (Some (Some e))
          | None, Some ms => now ← now_millis; mret (Some (Some (as_i64 (now + ms))))
          | None, None => mret (Some None)
          end
        else mret None
    | None => mret None
    end.

Definition fanout_jobs (request : PublishRequest) (subs : list Subscription) : list NewJob :=
  delivery_job request <$> filter (fun s => Is_true (negb (mode_is_log (sb_mode s)))) subs.

Definition publish_to_topic (request : PublishRequest) : DbM (list Job) :=
  subs ← list_subscriptions_for_topic (pr_topic request);
  log_expires ← log_expiry request subs;
  match log_expires with
  | Some expires_at =>
      publish_message (pr_topic request) (pr_payload request) (pr_metadata request)
        (pr_notes request) expires_at ;; mret tt
  | None => mret tt
  end ;;
  let jobs := fanout_jobs request subs in
  if bool_decide (jobs = []) then mret []
  else
    match pr_idempotency_key request with
    | None => enqueue_batch jobs
    | Some _ => enqueue_unique_batch jobs
    end.
End registry.

(** ** Reading the log *)

Section reading.
Context {E : Env} {G : Engine}.

Definition find_log_subscription (topic name : string) : DbM (option SubscriptionRow) :=
  row ← sql_find topic_subscriptions (topic, name);
  mret match row with
       | Some r => if is_log_row r then Some r else None
       | None => None
       end.

Definition read_topic_messages (topic name : string) (limit : Z) : DbM (list TopicMessage) :=
  if limit <=? 0 then mret []
  else
    conn ;;
    sub ← find_log_subscription topic name;
    match sub with
    | None => mret []
    | Some sub =>
        rows ← sql_select topic_messages (fun m =>
          bool_decide (tg_topic m = topic) && after_cursor (su_cursor sub) (tg_id m));
        mret (message_of_row <$> sql_limit limit (order_by (asc_str tg_id) rows))
    end.

(** [cursor IS NULL OR cursor < c] *)
Definition cursor_before (c : string) (r : SubscriptionRow) : bool :=
  match su_cursor r with Some old => String.ltb old c | None => true end.

Definition ack_topic_cursor (topic name cursor : string) : DbM bool :=
  conn ;;
  affected ← sql_update topic_subscriptions (topic, name)
    (fun r => is_log_row r && cursor_before cursor r)
    (su_with_cursor (Some cursor));
  mret (0 <? affected).

(** [MIN(column)]: null on no rows. *)
Definition sql_min (l : list Z) : option Z :=
  match l with [] => None | x :: l => Some (foldr Z.min x l) end.

Definition log_stats_of (now : Z) (sub : SubscriptionRow) : DbM TopicLogStats :=
  rows ← sql_select topic_messages (fun m =>
    bool_decide (tg_topic m = su_topic sub) && after_cursor (su_cursor sub) (tg_id m));
  mret (mkTopicLogStats (su_topic sub) (su_subscription_name sub) (su_cursor sub) (count rows)
    ((fun c => Z.max (as_i64 (now - c)) 0) <$> sql_min (tg_created_at <$> rows))).

Definition topic_log_stats : DbM (list TopicLogStats) :=
  conn ;;
  now ← now_millis;
  subs ← sql_select topic_subscriptions is_log_row;
  mapM (log_stats_of now) subs.

(** *** Leases *)

(** No delivery row, or a lease that ran out and was not acked. *)
Definition available (now : Z) (delivery : option TopicDeliveryRow) : bool :=
  match delivery with
  | None => true
  | Some d => negb (td_acked d) && (td_lease_expires_at d <=? now)
  end.

(** The left join of the messages with the subscription's deliveries. *)
Definition available_messages (topic name : string) (now : Z) : DbM (list TopicMessageRow) :=
  gets (fun w =>
    filter (fun m => Is_true (bool_decide (tg_topic m = topic)
        && available now (db_topic_deliveries (db w) !! (topic, name, tg_id m))))
      (scan (db_topic_messages (db w)))).

(** [ON CONFLICT DO UPDATE] of the columns of a delivery that is leased again. *)
Definition leased_again (until now : Z) (d : TopicDeliveryRow) : TopicDeliveryRow :=
  mkTopicDeliveryRow (td_topic d) (td_subscription_name d) (td_message_id d) false
    (td_attempts d + 1) until now.

Definition lease_row (topic name : string) (until now : Z) (m : TopicMessageRow) : DbM unit :=
  sql_upsert topic_deliveries (topic, name, tg_id m)
    (mkTopicDeliveryRow topic name (tg_id m) false 1 until now) (leased_again until now).

Definition lease_topic_messages (topic name : string) (limit visibility_ms now : Z)
    : DbM (list TopicMessage) :=
  if limit <=? 0 then mret []
  else
    conn ;;
    sub ← find_log_subscription topic name;
    match sub with
    | None => mret []
    | Some _ =>
        transaction (
          rows ← available_messages topic name now;
          let rows := sql_limit limit (order_by (asc_str tg_id) rows) in
          for_each (lease_row topic name (as_i64 (now + visibility_ms)) now) rows ;;
          mret (message_of_row <$> rows))
    end.

Definition ack_message (topic name message_id : string) : DbM bool :=
  conn ;;
  affected ← sql_update topic_deliveries (topic, name, message_id)
    (fun d => negb (td_acked d)) (td_with_acked true);
  mret (0 <? affected).

Definition nack_message (topic name message_id : string) : DbM bool :=
  conn ;;
  affected ← sql_update topic_deliveries (topic, name, message_id)
    (fun d => negb (td_acked d)) (td_with_lease_expires_at 0);
  mret (0 <? affected).

(** *** Backlogs of the fan-out *)

(** [GROUP BY key] with [MIN(value)]. *)
Definition group_min {R K} `{Countable K} (key : R -> K) (value : R -> Z) (l : list R)
    : list (K * option Z) :=
  scan (list_to_map ((fun r => (key r, (key r,
    sql_min (value <$> filter (fun r' => key r' = key r) l)))) <$> l) : gmap K (K * option Z)).

Definition blank_backlog (s : Subscription) : SubscriptionBacklogStats :=
  mkSubscriptionBacklogStats (sb_topic s) (sb_subscription_name s) (sb_task_name s) (sb_queue s)
    (sb_active s) (sb_durable s) 0 0 0 None.

Definition with_counts (pending running dead : Z) (age : option Z) (b : SubscriptionBacklogStats)
    : SubscriptionBacklogStats :=
  mkSubscriptionBacklogStats (bs_topic b) (bs_subscription_name b) (bs_task_name b) (bs_queue b)
    (bs_active b) (bs_durable b) pending running dead age.

(** The three passes over the grouped rows; a row of an unregistered subscription is
    dropped. *)
Definition fold_count (m : gmap (string * string) SubscriptionBacklogStats)
    (row : string * string * Z * Z) : gmap (string * string) SubscriptionBacklogStats :=
  let '(topic, name, status, n) := row in
  alter (fun b =>
    if status =? as_int Pending then
      with_counts n (bs_running b) (bs_dead b) (bs_oldest_pending_age_ms b) b
    else if status =? as_int Running then
      with_counts (bs_pending b) n (bs_dead b) (bs_oldest_pending_age_ms b) b
    else b) (topic, name) m.

Definition fold_oldest (now : Z) (m : gmap (string * string) SubscriptionBacklogStats)
    (row : string * string * option Z) : gmap (string * string) SubscriptionBacklogStats :=
  let '(topic, name, oldest) := row in
  match oldest with
  | Some created =>
      alter (fun b => with_counts (bs_pending b) (bs_running b) (bs_dead b)
        (Some (Z.max (as_i64 (now - created)) 0)) b) (topic, name) m
  | None => m
  end.

Definition fold_dead (m : gmap (string * string) SubscriptionBacklogStats)
    (row : string * string * Z) : gmap (string * string) SubscriptionBacklogStats :=
  let '(topic, name, n) := row in
  alter (fun b => with_counts (bs_pending b) (bs_running b) n (bs_oldest_pending_age_ms b) b)
    (topic, name) m.

Context {H : Hasher}.

Definition merge_backlog_stats (subs : list Subscription) (counts : list (string * string * Z * Z))
    (oldest : list (string * string * option Z)) (dead : list (string * string * Z))
    : DbM (list SubscriptionBacklogStats) :=
  let by_key : gmap (string * string) SubscriptionBacklogStats :=
    foldl (fun m s => <[(sb_topic s, sb_subscription_name s) := blank_backlog s]> m) ∅ subs in
  let by_key := foldl fold_count by_key counts in
  now ← now_millis;
  let by_key := foldl (fold_oldest now) by_key oldest in
  let by_key := foldl fold_dead by_key dead in
  mret (snd <$> hash_iter by_key).

(** The pub/sub columns of a row, which are set together. *)
Definition job_subscription (r : JobRow) : string * string :=
  (default ""%string (jr_topic r), default ""%string (jr_subscription_name r)).
Definition dead_subscription (r : DeadLetterRow) : string * string :=
  (default ""%string (dl_topic r), default ""%string (dl_subscription_name r)).

Definition topic_backlog_stats : DbM (list SubscriptionBacklogStats) :=
  conn ;;
  subs ← sql_select topic_subscriptions (fun _ => true);
  live ← sql_select jobs (fun r =>
    bool_decide (is_Some (jr_subscription_name r)) && is_active (jr_status r));
  pending ← sql_select jobs (fun r =>
    bool_decide (is_Some (jr_subscription_name r)) && (jr_status r =? as_int Pending));
  dead ← sql_select dead_letter (fun r => bool_decide (is_Some (dl_subscription_name r)));
  merge_backlog_stats (subscription_of_row <$> subs)
    (group_count (fun r => (job_subscription r, jr_status r)) live)
    (group_min job_subscription jr_created_at pending)
    (group_count dead_subscription dead).

(** ** Compaction *)

(** [Ord::min] on texts. *)
Definition text_min (a b : string) : string := if String.ltb b a then b else a.

(** The least cursor of a topic's log subscriptions, or [None] once one of them has read
    nothing. *)
Definition merge_floor (floors : gmap string (option string)) (sub : SubscriptionRow)
    : gmap string (option string) :=
  <[su_topic sub :=
      match floors !! su_topic sub with
      | None => su_cursor sub
      | Some current =>
          match current, su_cursor sub with
          | Some a, Some b => Some (text_min a b)
          | _, _ => None
          end
      end]> floors.

Definition cursor_floors (subs : list SubscriptionRow) : gmap string (option string) :=
  foldl merge_floor ∅ subs.

(** The messages every cursor is past, topic by topic within the budget. *)
Fixpoint collect_acked (limit : Z) (floors : list (string * option string)) (ids : list string)
    : DbM (list string) :=
  match floors with
  | [] => mret ids
  | (topic, None) :: floors => collect_acked limit floors ids
  | (topic, Some floor) :: floors =>
      let remaining := limit - count ids in
      if remaining <=? 0 then mret ids
      else
        acked ← sql_select topic_messages (fun m =>
          bool_decide (tg_topic m = topic) && String.leb (tg_id m) floor);
        collect_acked limit floors (ids ++ (tg_id <$> sql_limit remaining acked))
  end.

(** The subscriptions with delivery rows, by topic. *)
Definition per_message_subs (ds : list TopicDeliveryRow) : gmap string (gset string) :=
  foldl (fun m d =>
    <[td_topic d := {[td_subscription_name d]} ∪ default ∅ (m !! td_topic d)]> m) ∅ ds.

Definition log_names (subs : list SubscriptionRow) : gmap string (list string) :=
  foldl (fun m s =>
    <[su_topic s := default [] (m !! su_topic s) ++ [su_subscription_name s]]> m) ∅ subs.

(** A topic read only per message: no log subscription of it reads by cursor. *)
Definition reads_per_message (logs : gmap string (list string)) (topic : string)
    (names : gset string) : bool :=
  match logs !! topic with
  | Some l => negb (existsb (fun n => negb (bool_decide (n ∈ names))) l)
  | None => true
  end.

Fixpoint collect_delivered (limit : Z) (logs : gmap string (list string))
    (topics : list (string * gset string)) (ids : list string) : DbM (list string) :=
  match topics with
  | [] => mret ids
  | (topic, names) :: topics =>
      let remaining := limit - count ids in
      if remaining <=? 0 then mret ids
      else if negb (reads_per_message logs topic names) then
        collect_delivered limit logs topics ids
      else
        rows ← sql_select topic_messages (fun m => bool_decide (tg_topic m = topic));
        let candidates := tg_id <$> sql_limit remaining (order_by (asc_str tg_id) rows) in
        if bool_decide (candidates = []) then collect_delivered limit logs topics ids
        else
          ds ← sql_select topic_deliveries (fun d =>
            bool_decide (td_topic d = topic) && mem (td_message_id d) candidates && td_acked d);
          let counts : gmap string Z := list_to_map (group_count td_message_id ds) in
          collect_delivered limit logs topics
            (ids ++ filter (fun id =>
               default 0 (counts !! id) = Z.of_nat (size names)) candidates)
  end.

Definition purge_topic_messages (now limit : Z) : DbM Z :=
  if limit <=? 0 then mret 0
  else
    conn ;;
    subs ← sql_select topic_subscriptions is_log_row;
    expired ← sql_select topic_messages (fun m =>
      from_option (fun e => e <=? now) false (tg_expires_at m));
    ids ← collect_acked limit (hash_iter (cursor_floors subs)) (tg_id <$> sql_limit limit expired);
    ids ← (if 0 <? limit - count ids then
             ds ← sql_select topic_deliveries (fun _ => true);
             log_subs ← sql_select topic_subscriptions is_log_row;
             collect_delivered limit (log_names log_subs) (hash_iter (per_message_subs ds)) ids
           else mret ids);
    if bool_decide (ids = []) then mret 0
    else
      removed ← sql_delete topic_messages (fun m => mem (tg_id m) ids);
      sql_delete topic_deliveries (fun d => mem (td_message_id d) ids) ;;
      mret removed.
End reading.

(** ** Invariant *)

(** Rows are stored under their own keys. *)
Record pubsub_ok (d : DB) : Prop := {
  po_subs : map_Forall (fun k r => (su_topic r, su_subscription_name r) = k)
    (db_topic_subscriptions d);
  po_messages : map_Forall (fun k r => tg_id r = k) (db_topic_messages d);
  po_deliveries : map_Forall (fun k r => (td_topic r, td_subscription_name r, td_message_id r) = k)
    (db_topic_deliveries d)
}.

Definition pubsub_wf (w : World) : Prop := pubsub_ok (db w).

#[export] Instance pubsub_wf_mono : TickMono pubsub_wf.
Proof. by intros d n n'. Qed.

(** *** Texts in order *)

Lemma leb_cmp a b : String.leb a b = true <-> cmp_le (asc_str id) a b.
Proof.
  unfold String.leb, cmp_le, asc_str. simpl. destruct (String.compare a b); split; done.
Qed.

Lemma leb_trans a b c : String.leb a b = true -> String.leb b c = true -> String.leb a c = true.
Proof. rewrite !leb_cmp. intros H1 H2. by etrans. Qed.

Lemma leb_refl a : String.leb a a = true.
Proof. rewrite leb_cmp. unfold cmp_le. rewrite (cmp_refl (asc_str id)). done. Qed.

Lemma ltb_leb a b : String.ltb b a = false -> String.leb a b = true.
Proof.
  unfold String.ltb, String.leb. rewrite (String.compare_antisym b a).
  by destruct (String.compare a b).
Qed.

Lemma ltb_leb_neg a b : String.leb a b = true -> String.ltb b a = false.
Proof.
  unfold String.ltb, String.leb. rewrite (String.compare_antisym b a).
  by destruct (String.compare a b).
Qed.

Lemma ltb_lt_le a b : String.ltb a b = true -> String.leb a b = true.
Proof. unfold String.ltb, String.leb. by destruct (String.compare a b). Qed.

Lemma text_min_le a b : String.leb (text_min a b) a = true /\ String.leb (text_min a b) b = true.
Proof.
  unfold text_min. destruct (String.ltb b a) eqn:Hab.
  - split; [by apply ltb_lt_le|apply leb_refl].
  - split; [apply leb_refl|by apply ltb_leb].
Qed.

(** ** What the retention sweep removes *)

Section compaction.
Context {E : Env} {G : Engine} {H : Hasher} `{!ScanComplete G} `{!HashComplete H}.

(** The subscription is done with the message: its cursor is at or past it, or it acked
    its delivery. *)
Definition done_with (d : DB) (m : TopicMessageRow) (s : SubscriptionRow) : Prop :=
  (exists c, su_cursor s = Some c /\ String.leb (tg_id m) c = true)
  \/ (exists dl, db_topic_deliveries d !! (tg_topic m, su_subscription_name s, tg_id m) = Some dl
        /\ td_acked dl = true).

(** Every log subscription of the topic is done with the message. *)
Definition consumed (d : DB) (m : TopicMessageRow) : Prop :=
  forall k s, db_topic_subscriptions d !! k = Some s -> is_log_row s = true ->
    su_topic s = tg_topic m -> done_with d m s.

Definition expired (now : Z) (m : TopicMessageRow) : Prop :=
  exists e, tg_expires_at m = Some e /\ e <= now.

(** A message the sweep at [now] may remove. *)
Definition removable (now : Z) (d : DB) (id : string) : Prop :=
  exists m, db_topic_messages d !! id = Some m /\ (expired now m \/ consumed d m).

(** *** Cursor floors *)

(** The floors of a list of subscriptions. *)
Definition floors_ok (subs : list SubscriptionRow) (floors : gmap string (option string)) : Prop :=
  forall t, match floors !! t with
    | None => forall s, s ∈ subs -> su_topic s <> t
    | Some None => True
    | Some (Some f) => forall s, s ∈ subs -> su_topic s = t ->
        exists c, su_cursor s = Some c /\ String.leb f c = true
    end.

Lemma merge_floor_ok subs floors s :
  floors_ok subs floors -> floors_ok (subs ++ [s]) (merge_floor floors s).
Proof.
  intros Hf t. specialize (Hf t). unfold merge_floor. destruct (decide (su_topic s = t)) as [Ht|Ht].
  - rewrite Ht, lookup_insert_eq. destruct (floors !! t) as [[f|]|].
    + destruct (su_cursor s) as [c|] eqn:Hc; [|done]. destruct (text_min_le f c) as [H1 H2].
      intros s' [Hs'|Hs']%elem_of_app Ht'.
      * destruct (Hf s' Hs' Ht') as (c' & Hc' & Hle). exists c'. split; [done|exact (leb_trans _ _ _ H1 Hle)].
      * apply list_elem_of_singleton in Hs' as ->. by exists c.
    + done.
    + destruct (su_cursor s) as [c|] eqn:Hc; [|done]. intros s' [Hs'|Hs']%elem_of_app Ht'.
      * by destruct (Hf s' Hs').
      * apply list_elem_of_singleton in Hs' as ->. exists c. split; [done|apply leb_refl].
  - rewrite lookup_insert_ne by done. destruct (floors !! t) as [[f|]|]; [|done|].
    + intros s' [Hs'|Hs']%elem_of_app Ht'; [by apply Hf|].
      apply list_elem_of_singleton in Hs' as ->. done.
    + intros s' [Hs'|Hs']%elem_of_app; [by apply Hf|].
      apply list_elem_of_singleton in Hs' as ->. done.
Qed.

Lemma cursor_floors_ok subs : floors_ok subs (cursor_floors subs).
Proof.
  unfold cursor_floors. induction subs as [|s subs IH] using rev_ind.
  { intros t. simpl. rewrite lookup_empty. by intros s ?%not_elem_of_nil. }
  rewrite foldl_app. simpl. by apply merge_floor_ok.
Qed.

(** *** Collecting ids *)

Context (now limit : Z) (w : World) (Hok : pubsub_ok (db w)).

Definition log_rows : list SubscriptionRow :=
  filter (fun s => Is_true (is_log_row s)) (scan (db_topic_subscriptions (db w))).

Lemma elem_of_log_rows s :
  s ∈ log_rows <-> is_log_row s = true /\ exists k, db_topic_subscriptions (db w) !! k = Some s.
Proof. unfold log_rows. by rewrite list_elem_of_filter, elem_of_scan, Is_true_true. Qed.

Lemma selected_message (p : TopicMessageRow -> bool) id :
  id ∈ tg_id <$> filter (fun m => Is_true (p m)) (scan (db_topic_messages (db w))) ->
  exists m, db_topic_messages (db w) !! id = Some m /\ p m = true /\ tg_id m = id.
Proof.
  intros (m & -> & [Hp%Is_true_true [k Hk]%elem_of_scan]%list_elem_of_filter)%list_elem_of_fmap.
  assert (tg_id m = k) as Hid by exact (po_messages _ Hok _ _ Hk). exists m. rewrite Hid at 1. done.
Qed.

Lemma limited_elem_of {A B} (f : A -> B) n (l : list A) x :
  x ∈ f <$> sql_limit n l -> x ∈ f <$> l.
Proof.
  intros (y & -> & Hy%sql_limit_elem_of)%list_elem_of_fmap. by apply list_elem_of_fmap_2.
Qed.

(** The ids so far: all removable, within the budget. *)
Definition collected (ids : list string) : Prop :=
  Forall (removable now (db w)) ids /\ count ids <= limit.

Lemma collect_acked_ok floors ids r w' :
  (forall t f, (t, Some f) ∈ floors -> cursor_floors log_rows !! t = Some (Some f)) ->
  collected ids -> collect_acked limit floors ids w = (r, w') ->
  w' = w /\ exists ids', r = Ok ids' /\ collected ids'.
Proof.
  revert ids. induction floors as [|[t [f|]] floors IH]; intros ids Hfl Hids; cbn [collect_acked].
  - intros [= <- <-]. split; [done|by exists ids].
  - destruct (Z.leb_spec (limit - count ids) 0); [intros [= <- <-]; split; [done|by exists ids]|].
    erewrite bind_ok by done. apply IH; [intros t' f' Hin; apply Hfl; by right|].
    destruct Hids as [Hall Hlen]. split.
    + apply Forall_app. split; [done|]. apply Forall_forall. intros id Hid%limited_elem_of.
      apply selected_message in Hid as (m & Hm & [Ht%bool_decide_eq_true Hle]%andb_prop & Hidm).
      exists m. split; [done|]. right. intros k s Hs Hlog Htopic. left.
      pose proof (cursor_floors_ok log_rows t) as Hf. rewrite (Hfl t f) in Hf by by left.
      destruct (Hf s) as (c & Hc & Hfc); [apply elem_of_log_rows; eauto|congruence|].
      exists c. split; [done|]. exact (leb_trans _ _ _ Hle Hfc).
    + rewrite count_app, count_fmap.
      match goal with |- context [sql_limit ?n ?l] =>
        pose proof (sql_limit_length n l ltac:(lia)) end. lia.
  - apply IH; [|done]. intros t' f' Hin. apply Hfl. by right.
Qed.

(** *** Deliveries *)

Lemma per_message_subs_spec ds d :
  d ∈ ds -> exists names, per_message_subs ds !! td_topic d = Some names
    /\ td_subscription_name d ∈ names.
Proof.
  unfold per_message_subs. induction ds as [|x ds IH] using rev_ind; [by intros ?%not_elem_of_nil|].
  rewrite foldl_app. simpl. intros [Hd|Hd]%elem_of_app.
  - destruct (IH Hd) as (names & Hn & Hin). destruct (decide (td_topic x = td_topic d)) as [->|Hx].
    + rewrite lookup_insert_eq, Hn. eexists. split; [done|]. by apply elem_of_union_r.
    + rewrite lookup_insert_ne by done. eauto.
  - apply list_elem_of_singleton in Hd as ->. rewrite lookup_insert_eq. eexists. split; [done|].
    by apply elem_of_union_l, elem_of_singleton.
Qed.

Lemma log_names_spec subs s :
  s ∈ subs -> exists l, log_names subs !! su_topic s = Some l /\ su_subscription_name s ∈ l.
Proof.
  unfold log_names. induction subs as [|x subs IH] using rev_ind; [by intros ?%not_elem_of_nil|].
  rewrite foldl_app. simpl. intros [Hs|Hs]%elem_of_app.
  - destruct (IH Hs) as (l & Hl & Hin). destruct (decide (su_topic x = su_topic s)) as [->|Hx].
    + rewrite lookup_insert_eq, Hl. eexists. split; [done|]. apply elem_of_app. by left.
    + rewrite lookup_insert_ne by done. eauto.
  - apply list_elem_of_singleton in Hs as ->. rewrite lookup_insert_eq. eexists. split; [done|].
    apply elem_of_app. right. by apply list_elem_of_singleton.
Qed.

(** Every log subscription of a topic that is read per message is one of its readers. *)
Lemma reads_per_message_names t names s :
  reads_per_message (log_names log_rows) t names = true -> s ∈ log_rows -> su_topic s = t ->
  su_subscription_name s ∈ names.
Proof.
  intros Hr Hs <-. destruct (log_names_spec log_rows s Hs) as (l & Hl & Hin).
  unfold reads_per_message in Hr. rewrite Hl in Hr. apply negb_true_iff in Hr.
  destruct (decide (su_subscription_name s ∈ names)) as [|Hn]; [done|].
  assert (Hex : existsb (fun n => negb (bool_decide (n ∈ names))) l = true); [|congruence].
  apply existsb_exists. exists (su_subscription_name s). split; [by apply list_elem_of_In|].
  by rewrite bool_decide_eq_false_2.
Qed.

Lemma group_count_lookup {R} (key : R -> string) (l : list R) k :
  default 0 ((list_to_map (group_count key l) : gmap string Z) !! k)
  = count (filter (fun r => key r = k) l).
Proof.
  destruct ((list_to_map (group_count key l) : gmap string Z) !! k) as [n|] eqn:Hk.
  - apply elem_of_list_to_map_2, elem_of_group_count in Hk as [_ ->]. done.
  - apply not_elem_of_list_to_map in Hk. simpl. rewrite filter_none; [done|].
    intros r Hr Heq. apply Hk, list_elem_of_fmap.
    exists (k, count (filter (fun r => key r = k) l)). split; [done|].
    apply elem_of_group_count. split; [|done]. rewrite <- Heq. by apply list_elem_of_fmap_2.
Qed.

(** A message acked as often as its topic has readers is acked by each of them. *)
Lemma all_acked t names id (ds : list TopicDeliveryRow) (p : TopicDeliveryRow -> bool) :
  ds = filter (fun d => Is_true (p d)) (scan (db_topic_deliveries (db w))) ->
  (forall d, p d = true -> td_topic d = t /\ td_acked d = true) ->
  per_message_subs (scan (db_topic_deliveries (db w))) !! t = Some names ->
  count (filter (fun d => td_message_id d = id) ds) = Z.of_nat (size names) ->
  forall name, name ∈ names ->
    exists dl, db_topic_deliveries (db w) !! (t, name, id) = Some dl /\ td_acked dl = true.
Proof.
  intros -> Hp Hnames Hcount name Hname.
  set (l := filter (fun d => td_message_id d = id) _) in Hcount.
  assert (Hl : forall d, d ∈ l -> td_message_id d = id /\ td_topic d = t /\ td_acked d = true
    /\ db_topic_deliveries (db w) !! (t, td_subscription_name d, id) = Some d
    /\ td_subscription_name d ∈ names).
  { intros d [Hid [Hpd%Is_true_true Hd]%list_elem_of_filter]%list_elem_of_filter.
    destruct (Hp d Hpd) as [Ht Hack].
    destruct (per_message_subs_spec _ _ Hd) as (names' & Hn' & Hin').
    apply elem_of_scan in Hd as [k Hk]. pose proof (po_deliveries _ Hok _ _ Hk) as Hkey.
    simpl in Hkey. rewrite Ht, Hid in Hkey. rewrite Ht in Hn'. split_and!; try done; congruence. }
  assert (Hnd : NoDup (td_subscription_name <$> l)).
  { apply (NoDup_fmap_1 (fun n => (t, n, id))).
    set (key := fun d => (td_topic d, td_subscription_name d, td_message_id d)).
    assert (Hk : key <$> l = (fun n => (t, n, id)) <$> (td_subscription_name <$> l)).
    { rewrite <- list_fmap_compose. apply list_fmap_ext. intros i d Hi.
      apply list_elem_of_lookup_2, Hl in Hi as (Hid & Ht & _). unfold key. simpl. congruence. }
    rewrite <- Hk. eapply sublist_NoDup; [|apply fmap_sublist; etrans; [apply sublist_filter|apply sublist_filter]].
    apply scan_NoDup_key, (po_deliveries _ Hok). }
  assert (Heq : (list_to_set (td_subscription_name <$> l) : gset string) = names).
  { apply set_subseteq_size_eq.
    - intros x (d & -> & Hd)%elem_of_list_to_set%list_elem_of_fmap. by apply Hl.
    - rewrite size_list_to_set by done. rewrite length_fmap. unfold count in Hcount. lia. }
  rewrite <- Heq, elem_of_list_to_set in Hname.
  apply list_elem_of_fmap in Hname as (d & -> & Hd). exists d. by destruct (Hl d Hd) as (_ & _ & ? & ? & _).
Qed.

Lemma collect_delivered_ok (topics : list (string * gset string)) ids r w' :
  (forall t names, (t, names) ∈ topics ->
     per_message_subs (scan (db_topic_deliveries (db w))) !! t = Some names) ->
  collected ids -> collect_delivered limit (log_names log_rows) topics ids w = (r, w') ->
  w' = w /\ exists ids', r = Ok ids' /\ collected ids'.
Proof.
  revert ids. induction topics as [|[t names] topics IH]; intros ids Htp Hids; cbn [collect_delivered].
  { intros [= <- <-]. split; [done|by exists ids]. }
  assert (Htp' : forall t names, (t, names) ∈ topics ->
    per_message_subs (scan (db_topic_deliveries (db w))) !! t = Some names).
  { intros t' n' Hin. apply Htp. by right. }
  destruct (Z.leb_spec (limit - count ids) 0); [intros [= <- <-]; split; [done|by exists ids]|].
  destruct (reads_per_message _ t names) eqn:Hreads; [|by apply IH]. cbn [negb].
  erewrite bind_ok by done. cbv zeta.
  set (candidates := tg_id <$> sql_limit _ _). destruct (bool_decide (candidates = [])); [by apply IH|].
  erewrite bind_ok by done. cbv zeta. apply IH; [done|]. destruct Hids as [Hall Hlen]. split.
  - apply Forall_app. split; [done|]. apply Forall_forall.
    intros id [Hn Hid]%list_elem_of_filter. rewrite group_count_lookup in Hn.
    apply limited_elem_of in Hid. rewrite (fmap_Permutation _ _ _ (order_by_perm _ _)) in Hid.
    apply selected_message in Hid as (m & Hm & Ht%bool_decide_eq_true & Hidm).
    exists m. split; [done|]. right. intros k s Hs Hlog Htopic. right. rewrite Ht, Hidm.
    eapply all_acked; [done| |by apply Htp; left|exact Hn|].
    + intros d [[Hd%bool_decide_eq_true _]%andb_prop Ha]%andb_prop. done.
    + eapply reads_per_message_names; [done|apply elem_of_log_rows; eauto|congruence].
  - rewrite count_app.
    match goal with |- _ + count (filter ?P ?l) <= _ => pose proof (length_filter P l) end.
    unfold candidates in *. rewrite length_fmap in *.
    match goal with Hf : context [sql_limit ?n ?l] |- _ =>
      pose proof (sql_limit_length n l ltac:(lia)) end. unfold count in *. lia.
Qed.
End compaction.

Lemma size_ids_le (ids : list string) : (size (list_to_set ids : gset string) <= length ids)%nat.
Proof.
  induction ids as [|x ids IH]; [done|]. cbn [list_to_set length]. rewrite size_union_alt, size_singleton.
  assert (size ((list_to_set ids : gset string) ∖ {[x]}) <= size (list_to_set ids : gset string))%nat; [|lia].
  apply subseteq_size. set_solver.
Qed.

(** A deletion by id removes at most one row per id. *)
Lemma size_delete_ids {R} (key : R -> string) (m : gmap string R) ids :
  map_Forall (fun k r => key r = k) m ->
  (size m <= size (keep_where (fun r => mem (key r) ids) m) + length ids)%nat.
Proof.
  intros Hkey. set (keep := keep_where _ m).
  assert (Hsub : dom m ⊆ dom keep ∪ (list_to_set ids : gset string)).
  { intros k [r Hr]%elem_of_dom. apply elem_of_union.
    destruct (decide (k ∈ ids)) as [Hin|Hin]; [right; by apply elem_of_list_to_set|left].
    apply elem_of_dom. exists r. apply map_lookup_filter_Some. split; [done|].
    rewrite <- (Hkey _ _ Hr) in Hin. simpl. unfold mem. by rewrite bool_decide_eq_false_2. }
  apply subseteq_size in Hsub. rewrite size_union_alt, !size_dom in Hsub.
  pose proof (size_ids_le ids).
  assert (size ((list_to_set ids : gset string) ∖ dom keep) <= size (list_to_set ids : gset string))%nat; [|lia].
  apply subseteq_size. set_solver.
Qed.

Section sweep.
Context {E : Env} {G : Engine} {H : Hasher} `{!ScanComplete G} `{!HashComplete H}.

(** What a sweep at [now] with a budget does to the log. *)
Definition compacted (now limit n : Z) (d d' : DB) : Prop :=
  n <= Z.max 0 limit
  /\ (forall id m, db_topic_messages d !! id = Some m ->
        db_topic_messages d' !! id = Some m
        \/ (db_topic_messages d' !! id = None /\ (expired now m \/ consumed d m)))
  /\ (forall k dl, db_topic_deliveries d !! k = Some dl ->
        db_topic_deliveries d' !! k = Some dl
        \/ db_topic_messages d' !! td_message_id dl = None).

Lemma keep_where_found {K R} `{Countable K} (p : R -> bool) (m : gmap K R) k r :
  m !! k = Some r -> keep_where p m !! k = if p r then None else Some r.
Proof.
  intros Hr. unfold keep_where. destruct (p r) eqn:Hp.
  - apply map_lookup_filter_None. right. intros r' Hr'. simplify_eq. simpl. rewrite Hp. by intros [].
  - apply map_lookup_filter_Some. split; [done|]. simpl. by rewrite Hp.
Qed.

Lemma compacted_delete now limit ids w :
  pubsub_ok (db w) -> collected now limit w ids -> 0 < limit ->
  let d := db w in
  let d' := set_topic_deliveries (keep_where (fun dl => mem (td_message_id dl) ids) (db_topic_deliveries d))
    (set_topic_messages (keep_where (fun m => mem (tg_id m) ids) (db_topic_messages d)) d) in
  pubsub_ok d' /\ compacted now limit
    (Z.of_nat (size (db_topic_messages d))
     - Z.of_nat (size (keep_where (fun m => mem (tg_id m) ids) (db_topic_messages d)))) d d'.
Proof.
  intros Hok [Hall Hlen] Hlim d d'. rewrite Forall_forall in Hall. split; [split|split_and!].
  - exact (po_subs _ Hok).
  - intros k m [Hm _]%map_lookup_filter_Some. exact (po_messages _ Hok _ _ Hm).
  - intros k dl [Hm _]%map_lookup_filter_Some. exact (po_deliveries _ Hok _ _ Hm).
  - pose proof (size_delete_ids tg_id (db_topic_messages d) ids (po_messages _ Hok)).
    unfold count in Hlen. lia.
  - intros id m Hm. simpl. rewrite (keep_where_found _ _ _ _ Hm).
    assert (tg_id m = id) as Hid by exact (po_messages _ Hok _ _ Hm). rewrite Hid.
    unfold mem. case_bool_decide as Hin; [right|by left]. split; [done|].
    destruct (Hall _ Hin) as (m' & Hm' & Hrem).
    by assert (Some m' = Some m) as [= ->] by by rewrite <- Hm', <- Hm.
  - intros k dl Hk. simpl. rewrite (keep_where_found _ _ _ _ Hk).
    unfold mem. case_bool_decide as Hin; [right|by left].
    destruct (Hall _ Hin) as (m & Hm & _). rewrite (keep_where_found _ _ _ _ Hm).
    assert (tg_id m = td_message_id dl) as -> by exact (po_messages _ Hok _ _ Hm).
    by rewrite bool_decide_eq_true_2.
Qed.

Lemma collected_expired now limit w :
  pubsub_ok (db w) -> 0 < limit ->
  collected now limit w (tg_id <$> sql_limit limit (filter (fun m =>
    Is_true (from_option (fun e => e <=? now) false (tg_expires_at m)))
    (scan (db_topic_messages (db w))))).
Proof.
  intros Hok Hlim. split.
  - apply Forall_forall. intros id Hid%limited_elem_of.
    apply selected_message in Hid as (m & Hm & He & _); [|done]. exists m. split; [done|left].
    unfold expired. destruct (tg_expires_at m) as [e|]; [|done]. exists e. split; [done|].
    simpl in He. lia.
  - rewrite count_fmap. apply sql_limit_length. lia.
Qed.

Lemma collect_delivered_eq now limit w ids r w' :
  pubsub_ok (db w) -> collected now limit w ids ->
  (ds ← sql_select topic_deliveries (fun _ => true);
   log_subs ← sql_select topic_subscriptions is_log_row;
   collect_delivered limit (log_names log_subs) (hash_iter (per_message_subs ds)) ids) w = (r, w') ->
  w' = w /\ exists ids', r = Ok ids' /\ collected now limit w ids'.
Proof.
  intros Hok Hids. erewrite bind_ok by done. erewrite bind_ok by done.
  assert (Hall : forall A (l : list A), filter (fun _ => Is_true true) l = l)
    by (intros A l; by apply filter_all). cbn [t_get topic_deliveries].
  rewrite Hall. apply collect_delivered_ok; [done| |done]. intros t names Hin.
  rewrite hash_perm in Hin. by apply elem_of_map_to_list.
Qed.

Lemma purge_topic_messages_run now limit w r w' :
  pubsub_ok (db w) -> purge_topic_messages now limit w = (r, w') ->
  pubsub_ok (db w') /\ db_topic_subscriptions (db w') = db_topic_subscriptions (db w) /\
  match r with
  | Ok n => compacted now limit n (db w) (db w')
  | Err e => e = Pool /\ db w' = db w
  end.
Proof.
  intros Hok. unfold purge_topic_messages. destruct (Z.leb_spec limit 0).
  { intros [= <- <-]. split_and!; [done..|]. split_and!; [lia|by left|by left]. }
  destruct (pool_ready (tick w)) eqn:Hp.
  2:{ rewrite (bind_err _ _ _ _ _ (conn_err _ Hp)). by intros [= <- <-]. }
  rewrite (bind_ok _ _ _ _ _ (conn_ok _ Hp)).
  assert (Hok1 : pubsub_ok (db (bump 1 w))) by done. set (w1 := bump 1 w) in *.
  erewrite bind_ok by done. erewrite bind_ok by done.
  match goal with |- (collect_acked limit ?fs ?ids ≫= _) w1 = _ -> _ =>
    destruct (collect_acked limit fs ids w1) as [r1 w2] eqn:Hacked end.
  assert (w2 = w1 /\ exists ids, r1 = Ok ids /\ collected now limit w1 ids) as (-> & ids1 & -> & Hids1).
  { eapply collect_acked_ok; [done| |by apply collected_expired|exact Hacked].
    intros t f Hin. rewrite hash_perm in Hin. by apply elem_of_map_to_list in Hin. }
  rewrite (bind_ok _ _ _ _ _ Hacked).
  match goal with |- (?m ≫= _) w1 = _ -> _ => destruct (m w1) as [r2 w2] eqn:Hdel end.
  assert (w2 = w1 /\ exists ids, r2 = Ok ids /\ collected now limit w1 ids) as (-> & ids & -> & Hids).
  { destruct (0 <? limit - count ids1); [by eapply collect_delivered_eq|].
    injection Hdel as <- <-. split; [done|by exists ids1]. }
  rewrite (bind_ok _ _ _ _ _ Hdel). case_bool_decide as Hnil.
  { intros [= <- <-]. split_and!; [done..|]. split_and!; [lia|by left|by left]. }
  destruct (compacted_delete now limit ids w1 Hok1 Hids) as [Hok' Hc]; [done|].
  erewrite bind_ok by done. erewrite bind_ok by done. intros [= <- <-]. done.
Qed.

(** C19: the retention sweep of the log loses no message.  It removes a message only if the
    message is past its expiry or every log subscription of its topic is done with it,
    its cursor at or past the message or its delivery acked; it removes no more than its
    budget, drops only the deliveries of removed messages, leaves the subscriptions
    alone, and fails only before it has written anything. *)
Theorem purge_keeps_unconsumed now limit w r w' :
  pubsub_ok (db w) -> purge_topic_messages now limit w = (r, w') ->
  pubsub_ok (db w') /\ db_topic_subscriptions (db w') = db_topic_subscriptions (db w) /\
  match r with
  | Ok n => compacted now limit n (db w) (db w')
  | Err e => e = Pool /\ db w' = db w
  end.
Proof. apply purge_topic_messages_run. Qed.
End sweep.

(** ** Leases *)

Section leases.
Context {E : Env} {G : Engine} `{!ScanComplete G}.

(** The delivery is leased until a time and not acked. *)
Definition leased (until : Z) (k : string * string * string) (d : DB) : Prop :=
  exists dl, db_topic_deliveries d !! k = Some dl /\ td_acked dl = false
             /\ td_lease_expires_at dl = until.

(** What a round of leases touches. *)
Definition leases_only (d d' : DB) : Prop :=
  d' = set_topic_deliveries (db_topic_deliveries d') d.

Lemma lease_row_run topic name until now m w :
  exists w', lease_row topic name until now m w = (Ok tt, w') /\ tick w' = tick w
    /\ leases_only (db w) (db w') /\ leased until (topic, name, tg_id m) (db w')
    /\ (forall k, leased until k (db w) -> leased until k (db w'))
    /\ (pubsub_ok (db w) -> pubsub_ok (db w')).
Proof.
  eexists. split; [done|]. split; [done|]. split; [done|].
  pose (d0 := mkTopicDeliveryRow topic name (tg_id m) false 1 until now).
  assert (Hd : forall o, td_acked (from_option (leased_again until now) d0 o) = false
    /\ td_lease_expires_at (from_option (leased_again until now) d0 o) = until) by by intros [dl|].
  split_and!.
  - eexists. split; [apply lookup_insert_eq|]. apply Hd.
  - intros k (dl & Hk & Hl). destruct (decide (k = (topic, name, tg_id m))) as [->|Hne].
    + eexists. split; [apply lookup_insert_eq|]. apply Hd.
    + exists dl. split; [|done]. simpl. by rewrite lookup_insert_ne.
  - intros [H1 H2 H3]. split; [done|done|]. simpl. apply map_Forall_insert_2; [|done].
    destruct (db_topic_deliveries (db w) !! (topic, name, tg_id m)) as [dl|] eqn:Hl; [|done].
    exact (H3 _ _ Hl).
Qed.

Lemma lease_rows_run topic name until now rows w :
  exists w', for_each (lease_row topic name until now) rows w = (Ok tt, w') /\ tick w' = tick w
    /\ leases_only (db w) (db w')
    /\ (forall m, m ∈ rows -> leased until (topic, name, tg_id m) (db w'))
    /\ (forall k, leased until k (db w) -> leased until k (db w'))
    /\ (pubsub_ok (db w) -> pubsub_ok (db w')).
Proof.
  revert w. induction rows as [|m rows IH]; intros w.
  { exists w. split_and!; [done|done|by destruct w as [[] n]| |done|done].
    by intros m ?%not_elem_of_nil. }
  destruct (lease_row_run topic name until now m w) as (w1 & Hrun1 & Ht1 & Ho1 & Hm & Hk1 & Hp1).
  destruct (IH w1) as (w2 & Hrun2 & Ht2 & Ho2 & Hrows & Hk2 & Hp2). exists w2.
  cbn [for_each]. rewrite (bind_ok _ _ _ _ _ Hrun1). split_and!; [done|congruence| | |auto|auto].
  - unfold leases_only in *. rewrite Ho2 at 1. rewrite Ho1 at 1. done.
  - intros m' [->|Hm']%elem_of_cons; [by apply Hk2|by apply Hrows].
Qed.

(** The messages a lease hands out are of the topic and were available. *)
Lemma lease_run topic name limit vis now w ms w' :
  pubsub_ok (db w) -> lease_topic_messages topic name limit vis now w = (Ok ms, w') ->
  pubsub_ok (db w') /\ leases_only (db w) (db w') /\ count ms <= Z.max 0 limit
  /\ (forall m, m ∈ ms -> exists row, db_topic_messages (db w) !! ms_id m = Some row
        /\ m = message_of_row row /\ tg_topic row = topic
        /\ available now (db_topic_deliveries (db w) !! (topic, name, ms_id m)) = true
        /\ leased (as_i64 (now + vis)) (topic, name, ms_id m) (db w')).
Proof.
  intros Hok. unfold lease_topic_messages.
  assert (Hnone : pubsub_ok (db w) /\ leases_only (db w) (db w) /\ count (@nil TopicMessage) <= Z.max 0 limit
    /\ (forall m, m ∈ @nil TopicMessage -> exists row, db_topic_messages (db w) !! ms_id m = Some row
        /\ m = message_of_row row /\ tg_topic row = topic
        /\ available now (db_topic_deliveries (db w) !! (topic, name, ms_id m)) = true
        /\ leased (as_i64 (now + vis)) (topic, name, ms_id m) (db w))).
  { split_and!; [done|by destruct w as [[] n]|unfold count; simpl; lia|by intros m ?%not_elem_of_nil]. }
  destruct (Z.leb_spec limit 0); [by intros [= <- <-]|].
  destruct (pool_ready (tick w)) eqn:Hp.
  2:{ by rewrite (bind_err _ _ _ _ _ (conn_err _ Hp)). }
  rewrite (bind_ok _ _ _ _ _ (conn_ok _ Hp)). unfold find_log_subscription.
  erewrite bind_ok by (erewrite bind_ok by done; done).
  match goal with |- match ?o with Some _ => _ | None => _ end _ = _ -> _ => destruct o as [sub|] end;
    [|by intros [= <- <-]].
  unfold transaction. erewrite bind_ok by done. cbv zeta.
  set (rows := sql_limit limit _).
  destruct (lease_rows_run topic name (as_i64 (now + vis)) now rows (bump 1 w))
    as (w2 & Hrun & Ht & Ho & Hl & _ & Hok2).
  rewrite (bind_ok _ _ _ _ _ Hrun). intros [= <- <-]. split_and!; [by apply Hok2|done| |].
  - rewrite count_fmap. unfold rows. match goal with |- context [sql_limit ?n ?l] =>
      pose proof (sql_limit_length n l ltac:(lia)) end. lia.
  - intros m (row & -> & Hrow)%list_elem_of_fmap. specialize (Hl row Hrow).
    apply sql_limit_elem_of in Hrow. rewrite order_by_elem_of, list_elem_of_filter in Hrow.
    destruct Hrow as [[Ht1%bool_decide_eq_true Hav]%Is_true_true%andb_prop [k Hk]%elem_of_scan].
    assert (tg_id row = k) as Hid by exact (po_messages _ Hok _ _ Hk).
    exists row. simpl. rewrite Hid at 1. done.
Qed.

Lemma leased_unavailable until k now d :
  leased until k d -> now < until -> available now (db_topic_deliveries d !! k) = false.
Proof.
  intros (dl & -> & Hack & Hl) Hlt. simpl. rewrite Hack, Hl. simpl. lia.
Qed.

(** An ack of an unacked delivery marks it, and leaves the rest of the database. *)
Lemma ack_message_ok topic name id w w' :
  ack_message topic name id w = (Ok true, w') ->
  leases_only (db w) (db w')
  /\ (exists dl, db_topic_deliveries (db w') !! (topic, name, id) = Some dl /\ td_acked dl = true)
  /\ (pubsub_ok (db w) -> pubsub_ok (db w')).
Proof.
  unfold ack_message. destruct (pool_ready (tick w)) eqn:Hp.
  2:{ by rewrite (bind_err _ _ _ _ _ (conn_err _ Hp)). }
  rewrite (bind_ok _ _ _ _ _ (conn_ok _ Hp)). unfold sql_update, mbind, M_bind. simpl.
  destruct (db_topic_deliveries (db w) !! (topic, name, id)) as [dl|] eqn:Hl; [|done].
  destruct (negb (td_acked dl)); [|done]. intros [= <-]. split_and!; [done| |].
  - eexists. split; [apply lookup_insert_eq|done].
  - intros [H1 H2 H3]. split; [done|done|]. simpl. apply map_Forall_insert_2; [|done].
    exact (H3 _ _ Hl).
Qed.

End leases.

(** ** Cursors *)

Section cursors.
Context {E : Env} {G : Engine} `{!ScanComplete G}.

(** The unread messages of a subscription, oldest first. *)
Definition unread (d : DB) (topic : string) (cursor : option string) : list TopicMessageRow :=
  order_by (asc_str tg_id) (filter (fun m =>
    Is_true (bool_decide (tg_topic m = topic) && after_cursor cursor (tg_id m)))
    (scan (db_topic_messages d))).

(** The page a read returns. *)
Definition page (d : DB) (topic name : string) (limit : Z) : list TopicMessage :=
  match db_topic_subscriptions d !! (topic, name) with
  | Some sub =>
      if is_log_row sub then message_of_row <$> sql_limit limit (unread d topic (su_cursor sub))
      else []
  | None => []
  end.

Lemma read_eq topic name limit w :
  0 < limit -> read_topic_messages topic name limit w =
    ((if pool_ready (tick w) then Ok (page (db w) topic name limit) else Err Pool), bump 1 w).
Proof.
  intros Hl. unfold read_topic_messages, page. destruct (Z.leb_spec limit 0); [lia|].
  destruct (pool_ready (tick w)) eqn:Hp.
  2:{ by rewrite (bind_err _ _ _ _ _ (conn_err _ Hp)). }
  rewrite (bind_ok _ _ _ _ _ (conn_ok _ Hp)). unfold find_log_subscription.
  erewrite bind_ok by (erewrite bind_ok by done; done). simpl.
  destruct (db_topic_subscriptions (db w) !! (topic, name)) as [sub|]; [|done].
  by destruct (is_log_row sub).
Qed.

Lemma leb_ne_ltb a b : String.leb a b = true -> a <> b -> String.ltb a b = true.
Proof.
  unfold String.leb, String.ltb. destruct (String.compare a b) eqn:Hc; [|done|done].
  by apply String.compare_eq_iff in Hc.
Qed.

(** In a list sorted by distinct texts, what is past an element is what follows it. *)
Lemma filter_past {A} (key : A -> string) (l1 l2 : list A) x :
  StronglySorted (cmp_le (asc_str key)) (l1 ++ x :: l2) -> NoDup (key <$> l1 ++ x :: l2) ->
  filter (fun y => Is_true (String.ltb (key x) (key y))) (l1 ++ x :: l2) = l2.
Proof.
  intros Hs Hnd. apply StronglySorted_app in Hs as (Hle & _ & Hs2).
  rewrite filter_app, (filter_none _ l1).
  2:{ intros y Hy Hlt%Is_true_true. specialize (Hle y x Hy ltac:(by left)).
      apply leb_cmp, ltb_leb_neg in Hle. unfold id in Hle. congruence. }
  rewrite app_nil_l, filter_cons_False.
  2:{ intros Hlt%Is_true_true. by rewrite (ltb_leb_neg _ _ (leb_refl _)) in Hlt. }
  apply filter_all. intros y Hy. apply Is_true_true, leb_ne_ltb.
  - apply leb_cmp. apply StronglySorted_inv in Hs2 as [_ Hx]. rewrite Forall_forall in Hx.
    exact (Hx y Hy).
  - rewrite fmap_app, fmap_cons in Hnd. apply NoDup_app in Hnd as (_ & _ & [Hx _]%NoDup_cons).
    intros Heq. apply Hx. rewrite Heq. by apply list_elem_of_fmap_2.
Qed.

Lemma separates_key {A} (key : A -> string) (l : list A) :
  NoDup (key <$> l) -> separates (asc_str key) l.
Proof.
  intros Hnd x y [i Hi]%list_elem_of_lookup_1 [k Hk]%list_elem_of_lookup_1 Heq%String.compare_eq_iff.
  assert (i = k) as ->; [|congruence].
  eapply NoDup_lookup; [exact Hnd| |]; rewrite list_lookup_fmap_Some; eauto.
Qed.

Lemma ltb_trans a b c : String.ltb a b = true -> String.ltb b c = true -> String.ltb a c = true.
Proof.
  unfold String.ltb. destruct (String.compare a b) eqn:H1, (String.compare b c) eqn:H2; try done.
  by rewrite (string_compare_lt_trans _ _ _ H1 H2).
Qed.

Lemma unread_NoDup d topic cursor : pubsub_ok d -> NoDup (tg_id <$> unread d topic cursor).
Proof.
  intros Hok. unfold unread. rewrite (fmap_Permutation _ _ _ (order_by_perm _ _)).
  eapply sublist_NoDup; [|apply fmap_sublist, sublist_filter].
  apply scan_NoDup_key, (po_messages _ Hok).
Qed.

(** Moving the cursor to an unread message leaves the ones after it. *)
Lemma unread_after d topic cursor l1 x l2 :
  pubsub_ok d -> unread d topic cursor = l1 ++ x :: l2 ->
  unread d topic (Some (tg_id x)) = l2.
Proof.
  intros Hok HU. pose proof (unread_NoDup d topic cursor Hok) as Hnd.
  assert (Hx : x ∈ unread d topic cursor) by (rewrite HU; apply elem_of_app; right; by left).
  unfold unread in Hx. rewrite order_by_elem_of, list_elem_of_filter, Is_true_true in Hx.
  destruct Hx as [[_ Hx]%andb_prop _].
  assert (Hf : unread d topic (Some (tg_id x))
    = filter (fun y => Is_true (String.ltb (tg_id x) (tg_id y))) (unread d topic cursor)).
  { unfold unread. rewrite <- order_by_filter; [|apply _|apply separates_key].
    - rewrite list_filter_filter. f_equal. apply list_filter_iff. intros y.
      rewrite !Is_true_true, !andb_true_iff. split; [|tauto].
      intros [Ht Hlt]. split_and!; [done|done|]. destruct cursor as [c|]; [|done].
      by eapply ltb_trans.
    - eapply sublist_NoDup; [|apply fmap_sublist, sublist_filter].
      apply scan_NoDup_key, (po_messages _ Hok). }
  rewrite Hf, HU. apply filter_past; rewrite <- HU; [apply order_by_sorted, _|done].
Qed.

Lemma sql_limit_take {A} n (l : list A) : 0 <= n -> sql_limit n l = take (Z.to_nat n) l.
Proof. intros Hn. unfold sql_limit. by destruct (Z.ltb_spec n 0); [lia|]. Qed.

(** Moving a cursor, or refusing to move it back. *)
Lemma ack_cursor_run topic name c w r w' :
  ack_topic_cursor topic name c w = (r, w') ->
  (exists sub, db_topic_subscriptions (db w) !! (topic, name) = Some sub /\ is_log_row sub = true
     /\ cursor_before c sub = true /\ r = Ok true
     /\ db w' = set_topic_subscriptions
          (<[(topic, name) := su_with_cursor (Some c) sub]> (db_topic_subscriptions (db w))) (db w))
  \/ (r <> Ok true /\ db w' = db w
      /\ (r = Ok false -> forall sub, db_topic_subscriptions (db w) !! (topic, name) = Some sub ->
            is_log_row sub && cursor_before c sub = false)).
Proof.
  unfold ack_topic_cursor. destruct (pool_ready (tick w)) eqn:Hp.
  2:{ rewrite (bind_err _ _ _ _ _ (conn_err _ Hp)). intros [= <- <-]. by right. }
  rewrite (bind_ok _ _ _ _ _ (conn_ok _ Hp)). unfold sql_update, mbind, M_bind. simpl.
  destruct (db_topic_subscriptions (db w) !! (topic, name)) as [sub|] eqn:Hs.
  2:{ intros [= <- <-]. right. by split_and!. }
  destruct (is_log_row sub && cursor_before c sub) eqn:Hc; intros [= <- <-].
  - left. exists sub. by apply andb_prop in Hc as [-> ->].
  - right. split_and!; [done|done|]. intros _ sub' [= <-]. done.
Qed.

(** reading a log by cursor neither skips nor repeats.  A subscription that reads a
    page, acks its last message and reads the next page has read exactly what one larger
    read would have returned, oldest first; and acking any message of the first page
    again does not move the cursor back. *)
Theorem cursor_pages topic name limit limit2 w ms w1 m b n1 w2 n2 ms2 w3 :
  pubsub_ok (db w) -> 0 < limit -> 0 < limit2 ->
  read_topic_messages topic name limit w = (Ok ms, w1) -> last ms = Some m ->
  ack_topic_cursor topic name (ms_id m) (mkWorld (db w1) n1) = (Ok b, w2) ->
  read_topic_messages topic name limit2 (mkWorld (db w2) n2) = (Ok ms2, w3) ->
  b = true /\ fst (read_topic_messages topic name (limit + limit2) w) = Ok (ms ++ ms2)
  /\ (forall m' n r w4, m' ∈ ms ->
       ack_topic_cursor topic name (ms_id m') (mkWorld (db w2) n) = (r, w4) ->
       r <> Ok true /\ db w4 = db w2).
Proof.
  intros Hok Hl1 Hl2 H1 Hlast Hack H2.
  rewrite (read_eq _ _ _ _ Hl1) in H1. destruct (pool_ready (tick w)) eqn:Hp; [|done].
  injection H1 as <- <-. rewrite (read_eq _ _ _ _ Hl2) in H2. simpl in *.
  destruct (pool_ready n2); [|done]. injection H2 as <- <-.
  rewrite read_eq, Hp by lia. cbn [fst].
  unfold page in Hlast. destruct (db_topic_subscriptions (db w) !! (topic, name)) as [sub|] eqn:Hsub; [|done].
  destruct (is_log_row sub) eqn:Hlog; [|done]. rewrite sql_limit_take in Hlast by lia.
  set (U := unread (db w) topic (su_cursor sub)) in *.
  rewrite fmap_last in Hlast. apply fmap_Some in Hlast as (row & Hrow & ->).
  apply last_Some in Hrow as [l1 Htake].
  assert (HU : U = l1 ++ row :: drop (Z.to_nat limit) U).
  { rewrite <- (take_drop (Z.to_nat limit) U) at 1. rewrite Htake, <- app_assoc. done. }
  assert (Hin : forall x, x ∈ U -> after_cursor (su_cursor sub) (tg_id x) = true).
  { intros x. unfold U, unread. rewrite order_by_elem_of, list_elem_of_filter, Is_true_true.
    by intros [[_ ?]%andb_prop _]. }
  assert (Hbefore : cursor_before (tg_id row) sub = true).
  { apply (Hin row). rewrite HU. apply elem_of_app. right. by left. }
  apply ack_cursor_run in Hack as [(sub' & Hs' & _ & _ & [= ->] & Hd2)|(Hb & _ & Hfalse)]; simpl in *.
  2:{ destruct b; [done|]. specialize (Hfalse eq_refl sub Hsub). by rewrite Hlog, Hbefore in Hfalse. }
  rewrite Hs' in Hsub. injection Hsub as ->.
  assert (Hsub2 : db_topic_subscriptions (db w2) !! (topic, name)
    = Some (su_with_cursor (Some (tg_id row)) sub)) by (rewrite Hd2; apply lookup_insert_eq).
  split; [done|]. split.
  - f_equal. unfold page. rewrite Hsub2, Hs'. change (is_log_row (su_with_cursor _ sub)) with (is_log_row sub).
    rewrite Hlog. cbn [su_with_cursor su_cursor].
    assert (unread (db w2) topic (Some (tg_id row)) = drop (Z.to_nat limit) U) as ->.
    { rewrite Hd2. by apply (unread_after (db w) topic (su_cursor sub) l1 row). }
    fold U. rewrite !sql_limit_take, <- fmap_app by lia. f_equal.
    rewrite Z2Nat.inj_add by lia. by rewrite take_take_drop.
  - intros m' n r w4 Hm' Hack'. unfold page in Hm'. rewrite Hs', Hlog, sql_limit_take in Hm' by lia.
    fold U in Hm'. rewrite Htake in Hm'.
    apply ack_cursor_run in Hack' as [(sub' & Hs2 & _ & Hbef & _)|(? & ? & _)]; [|done]. exfalso.
    simpl in Hs2. rewrite Hsub2 in Hs2. injection Hs2 as <-. unfold cursor_before in Hbef. simpl in Hbef.
    apply list_elem_of_fmap in Hm' as (row' & -> & Hrow'). simpl in Hbef.
    assert (Hle : String.leb (tg_id row') (tg_id row) = true); [|by rewrite (ltb_leb_neg _ _ Hle) in Hbef].
    apply elem_of_app in Hrow' as [Hrow'|Hrow'].
    + apply leb_cmp. pose proof (order_by_sorted (asc_str tg_id) (filter (fun m => Is_true (bool_decide
        (tg_topic m = topic) && after_cursor (su_cursor sub) (tg_id m))) (scan (db_topic_messages (db w))))) as Hs.
      fold (unread (db w) topic (su_cursor sub)) in Hs. fold U in Hs. rewrite HU in Hs.
      exact (StronglySorted_app_1_elem_of _ _ _ _ _ Hs Hrow' ltac:(by left)).
    + apply list_elem_of_singleton in Hrow' as ->. apply leb_refl.
Qed.
End cursors.

(** ** Publishing *)

(** *** Salted keys *)

Lemma salted_names key topic name topic' name' :
  salted_unique_key key topic name = salted_unique_key key topic' name' ->
  topic = topic' /\ name = name'.
Proof.
  unfold salted_unique_key. intros Heq%append_inv_head%append_inv_head.
  change (":" +:+ ?s)%string with (String (Ascii.ascii_of_nat 58) s) in Heq.
  apply delimited_split in Heq as [Ht Heq]; [|by apply lacks_pretty..].
  apply delimited_split in Heq as [_ Heq]; [|by apply lacks_pretty..].
  apply (inj pretty) in Ht. by apply append_split in Heq; [|congruence].
Qed.

(** under one idempotency key the deliveries of two subscriptions never share a unique
    key: the salted key determines the topic and the subscription it was made for,
    whatever characters, the separator included, the two names contain. *)
Theorem salted_unique_key_injective key topic name topic' name' :
  salted_unique_key key topic name = salted_unique_key key topic' name' ->
  topic = topic' /\ name = name'.
Proof. apply salted_names. Qed.

Lemma salted_unique_key_injective_witness :
  salted_unique_key "k" "a:" "b" = salted_unique_key "k" ("a" +:+ ":") "b"
  /\ "a:"%string = ("a" +:+ ":")%string.
Proof.
  split; [by vm_compute|].
  exact (proj1 (salted_unique_key_injective "k" "a:" "b" ("a" +:+ ":") "b" ltac:(by vm_compute))).
Defined.

(** Two different idempotency keys can meet: a key may itself end in a salt. *)
Lemma salted_unique_key_collides :
  salted_unique_key "k" "x::0:0:" "" = salted_unique_key "k::7:0:x" "" "".
Proof. by vm_compute. Qed.

Section publish.
Context {E : Env} {G : Engine} `{!UuidFresh E} `{!ScanComplete G}.

(** The active subscriptions of a topic, in registration order. *)
Definition active_subs (d : DB) (topic : string) : list Subscription :=
  subscription_of_row <$> order_by registration_order (filter (fun r =>
    Is_true (bool_decide (su_topic r = topic) && su_active r))
    (scan (db_topic_subscriptions d))).

Lemma list_subs_eq topic w :
  list_subscriptions_for_topic topic w =
    ((if pool_ready (tick w) then Ok (active_subs (db w) topic) else Err Pool), bump 1 w).
Proof.
  unfold list_subscriptions_for_topic. destruct (pool_ready (tick w)) eqn:Hp.
  - by rewrite (bind_ok _ _ _ _ _ (conn_ok _ Hp)).
  - by rewrite (bind_err _ _ _ _ _ (conn_err _ Hp)).
Qed.

Lemma get_topic_eq name w :
  get_topic name w =
    ((if pool_ready (tick w) then Ok (topic_of_row <$> db_topics (db w) !! name) else Err Pool), bump 1 w).
Proof.
  unfold get_topic. destruct (pool_ready (tick w)) eqn:Hp.
  - by rewrite (bind_ok _ _ _ _ _ (conn_ok _ Hp)).
  - by rewrite (bind_err _ _ _ _ _ (conn_err _ Hp)).
Qed.

(** A publish is logged if a log subscription is active or the topic is declared a log. *)
Definition logs (d : DB) (topic : string) : bool :=
  existsb (fun s => mode_is_log (sb_mode s)) (active_subs d topic)
  || from_option (fun r => mode_is_log (mode_from_wire (tp_mode r))) false (db_topics d !! topic).

Lemma log_expiry_run request w r w' :
  log_expiry request (active_subs (db w) (pr_topic request)) w = (r, w') ->
  (exists n, w' = bump n w) /\
  match r with
  | Ok le => bool_decide (is_Some le) = logs (db w) (pr_topic request)
  | Err e => e = Pool
  end.
Proof.
  unfold log_expiry, logs. destruct (existsb _ _); simpl.
  { intros [= <- <-]. split; [by exists 0%nat; destruct w|done]. }
  pose proof (get_topic_eq (pr_topic request) w) as Hg. destruct (pool_ready (tick w)).
  2:{ rewrite (bind_err _ _ _ _ _ Hg). intros [= <- <-]. split; [by exists 1%nat|done]. }
  rewrite (bind_ok _ _ _ _ _ Hg). destruct (db_topics (db w) !! _) as [t|]; simpl.
  2:{ intros [= <- <-]. split; [by exists 1%nat|done]. }
  unfold topic_is_log. simpl. destruct (mode_is_log _).
  2:{ intros [= <- <-]. split; [by exists 1%nat|done]. }
  destruct (pr_expires_at request) as [e|], (tp_retention_ms t) as [ms|].
  all: try (intros [= <- <-]; split; [by exists 1%nat|done]).
  intros [= <- <-]. split; [exists 2%nat; unfold bump; simpl; f_equal; lia|done].
Qed.

(** The message a publish logs. *)
Definition logged (request : PublishRequest) (expires_at : option Z) (d d' : DB) : Prop :=
  exists id created, db_topic_messages d !! id = None /\
    d' = set_topic_messages (<[id := mkTopicMessageRow id (pr_topic request) (pr_payload request)
      (pr_metadata request) (pr_notes request) created expires_at]> (db_topic_messages d)) d.

Lemma publish_message_run request expires_at w r w' :
  publish_message (pr_topic request) (pr_payload request) (pr_metadata request)
    (pr_notes request) expires_at w = (r, w') ->
  (tick w <= tick w')%nat /\
  match r with
  | Ok _ => logged request expires_at (db w) (db w')
  | Err _ => db w' = db w
  end.
Proof.
  unfold publish_message. destruct (pool_ready (tick w)) eqn:Hp.
  2:{ rewrite (bind_err _ _ _ _ _ (conn_err _ Hp)). intros [= <- <-]. split; [simpl; lia|done]. }
  rewrite (bind_ok _ _ _ _ _ (conn_ok _ Hp)). erewrite bind_ok by done. erewrite bind_ok by done.
  match goal with |- (sql_insert _ ?k ?row ≫= _) ?w0 = _ -> _ =>
    destruct (sql_insert_inv topic_messages k row w0) as [Hi|(Hk & _ & Hi)] end.
  - rewrite (bind_err _ _ _ _ _ Hi). intros [= <- <-]. split; [simpl; lia|done].
  - rewrite (bind_ok _ _ _ _ _ Hi). intros [= <- <-]. split; [simpl; lia|].
    do 2 eexists. split; [exact Hk|done].
Qed.

(** The active fan-out subscriptions. *)
Definition fanout (d : DB) (topic : string) : list Subscription :=
  filter (fun s => Is_true (negb (mode_is_log (sb_mode s)))) (active_subs d topic).

(** The job that answers for a subscription: the one submitted for it or, under an
    idempotency key, the live one that holds the subscription's slot. *)
Definition delivers (d : DB) (request : PublishRequest) (sub : Subscription) (job : Job) : Prop :=
  exists row, db_jobs d !! j_id job = Some row /\ job_of_row row = job /\
  match pr_idempotency_key request with
  | None => exists id now, job = into_job_at id now (delivery_job request sub)
  | Some key => unique_slot row = Some (pr_namespace request,
      salted_unique_key key (pr_topic request) (sb_subscription_name sub))
  end.

Lemma fanout_jobs_eq request d :
  fanout_jobs request (active_subs d (pr_topic request)) = delivery_job request <$> fanout d (pr_topic request).
Proof. done. Qed.

(** A coarser key that is as fine on the list has no duplicates either. *)
Lemma NoDup_refines {A K K'} (f : A -> K) (g : A -> K') (l : list A) :
  NoDup (f <$> l) -> (forall x y, x ∈ l -> y ∈ l -> g x = g y -> f x = f y) -> NoDup (g <$> l).
Proof.
  induction l as [|x l IH]; intros Hnd Hfg; [constructor|].
  rewrite fmap_cons in *. apply NoDup_cons in Hnd as [Hx Hnd]. constructor.
  - intros (y & Hy & Hyl)%list_elem_of_fmap. apply Hx. rewrite (Hfg x y); [|by left|by right|done].
    by apply list_elem_of_fmap_2.
  - apply IH; [done|]. intros a b Ha Hb. apply Hfg; by right.
Qed.

Lemma fanout_names d topic : pubsub_ok d -> NoDup (sb_subscription_name <$> fanout d topic).
Proof.
  intros Hok. unfold fanout. eapply sublist_NoDup; [|apply fmap_sublist, sublist_filter].
  unfold active_subs. rewrite <- list_fmap_compose, (fmap_Permutation _ _ _ (order_by_perm _ _)).
  eapply (NoDup_refines (fun r => (su_topic r, su_subscription_name r))).
  - eapply sublist_NoDup; [|apply fmap_sublist, sublist_filter]. apply scan_NoDup_key, (po_subs _ Hok).
  - intros x y [[Hx%bool_decide_eq_true _]%Is_true_true%andb_prop _]%list_elem_of_filter
      [[Hy%bool_decide_eq_true _]%Is_true_true%andb_prop _]%list_elem_of_filter Heq.
    simpl in Heq. congruence.
Qed.

(** The jobs a publish submits, stored one per subscription. *)
Lemma enqueue_deliveries request subs w js w' :
  wf w ->
  match pr_idempotency_key request with
  | None => enqueue_batch (delivery_job request <$> subs)
  | Some _ => enqueue_unique_batch (delivery_job request <$> subs)
  end w = (Ok js, w') ->
  wf w' /\ Forall2 (delivers (db w') request) subs js
  /\ (forall id row, db_jobs (db w) !! id = Some row -> db_jobs (db w') !! id = Some row)
  /\ (pr_idempotency_key request = None -> NoDup (j_id <$> js)).
Proof.
  intros Hwf. unfold delivers. destruct (pr_idempotency_key request) as [key|] eqn:Hkey.
  - unfold enqueue_unique_batch. intros (out & w1 & Hrun & [= <- <-])%bind_inv_ok.
    apply enqueue_unique_batch_cases in Hrun as (Hwf' & ps & Hans & Hps & Hold); [|done].
    split_and!; [done| |done|done]. apply Forall2_fmap_l in Hps. apply Forall2_fmap_r.
    assert (Hl : length subs = length out)
      by (rewrite (Forall2_length _ _ _ Hps); exact (Forall2_length _ _ _ Hans)).
    apply Forall2_same_length_lookup_2; [done|]. intros i sub [a dup] Hs Ha.
    destruct (Forall2_lookup_l _ _ _ _ _ Hps Hs) as ([j deps] & Hp & _ & id & now & Hj).
    simpl in Hj. subst j.
    destruct (Forall2_lookup_lr _ _ _ _ _ _ Hans Hp Ha) as (row & Hrow & Hj & Hslot & _). exists row.
    split_and!; [done|done|]. apply Hslot. simpl. by rewrite Hkey.
  - intros Hrun. apply enqueue_batch_cases in Hrun as (Hwf' & Hf & Hnd & Hst & _ & Hold); [|done].
    split_and!; [done| |done|done]. apply Forall2_fmap_l in Hf.
    rewrite Forall_forall in Hst. apply Forall2_same_length_lookup_2; [by eapply Forall2_length|].
    intros i sub job Hs Hj. 
    pose proof (Hst job ltac:(by eapply list_elem_of_lookup_2)) as Hst'.
    apply fmap_Some in Hst' as (row & Hrow & Heq). exists row. split_and!; [done|done|].
    by eapply Forall2_lookup_lr in Hf.
Qed.

(** The deliveries of distinct subscriptions are distinct jobs. *)
Lemma delivers_NoDup request d subs js key :
  pr_idempotency_key request = Some key ->
  NoDup (sb_subscription_name <$> subs) -> Forall2 (delivers d request) subs js ->
  NoDup (j_id <$> js).
Proof.
  intros Hkey Hnd Hf. induction Hf as [|sub job subs js Hd Hf IH]; [constructor|].
  rewrite fmap_cons in *. apply NoDup_cons in Hnd as [Hn Hnd]. constructor; [|by apply IH].
  intros (job' & Hid & [i Hi]%list_elem_of_lookup_1)%list_elem_of_fmap.
  destruct (Forall2_lookup_r _ _ _ _ _ Hf Hi) as (sub' & Hs' & Hd').
  destruct Hd as (row & Hrow & _ & Hs), Hd' as (row' & Hrow' & _ & Hsl). rewrite Hkey in *.
  rewrite <- Hid, Hrow in Hrow'. injection Hrow' as <-. rewrite Hs in Hsl.
  injection Hsl as Hsl. apply salted_names in Hsl as [_ Heq].
  apply Hn. rewrite Heq. eapply list_elem_of_fmap_2, list_elem_of_lookup_2, Hs'.
Qed.

(** What a publish does to the log. *)
Definition log_grows (request : PublishRequest) (d d' : DB) : Prop :=
  if logs d (pr_topic request) then exists expires_at d1, logged request expires_at d d1
    /\ db_topic_messages d' = db_topic_messages d1
  else db_topic_messages d' = db_topic_messages d.

(** The log as one value, which the enqueues leave. *)
Definition log_is (log : gmap string TopicMessageRow) (w : World) : Prop :=
  db_topic_messages (db w) = log.
#[local] Instance log_is_mono log : TickMono (log_is log).
Proof. by intros d n n'. Qed.
#[local] Instance log_is_jobs log : Aside (log_is log) jobs.
Proof. by intros m w. Qed.
#[local] Instance log_is_deps log : Aside (log_is log) job_dependencies.
Proof. by intros m w. Qed.

Lemma deliveries_keep_log request log njs :
  keeps (log_is log) match pr_idempotency_key request with
    | None => enqueue_batch njs
    | Some _ => enqueue_unique_batch njs
    end.
Proof.
  destruct (pr_idempotency_key request);
    [unfold enqueue_unique_batch, enqueue_unique_batch_reporting|unfold enqueue_batch]; solve_keeps.
Qed.

Lemma publish_run request w js w' :
  wf w -> publish_to_topic request w = (Ok js, w') ->
  wf w' /\ Forall2 (delivers (db w') request) (fanout (db w) (pr_topic request)) js
  /\ (forall id row, db_jobs (db w) !! id = Some row -> db_jobs (db w') !! id = Some row)
  /\ (pr_idempotency_key request = None -> NoDup (j_id <$> js))
  /\ log_grows request (db w) (db w').
Proof.
  intros Hwf. unfold publish_to_topic. unfold mbind at 1, M_bind at 1.
  rewrite list_subs_eq. destruct (pool_ready (tick w)); [|done].
  intros (le & w1 & Hle & Hrun)%bind_inv_ok.
  destruct (log_expiry_run request (bump 1 w) _ _ Hle) as [[n ->] Hlogs].
  apply bind_inv_ok in Hrun as ([] & w2 & Hlog & Hrun).
  assert (Hw2 : wf w2 /\ db_jobs (db w2) = db_jobs (db w) /\ log_grows request (db w) (db w2)).
  { unfold log_grows. change (db (bump 1 w)) with (db w) in Hlogs. rewrite <- Hlogs.
    destruct le as [ex|].
    - apply bind_inv_ok in Hlog as (msg & w3 & Hpub & [= ->]).
      apply publish_message_run in Hpub as (Ht & Hlg).
      destruct Hlg as (id & created & Hid & Hd). rewrite Hd. split_and!; [|done|].
      + destruct w2 as [d2 n2]. simpl in *. subst d2.
        eapply wf_mono; [exact Ht|]. apply (aside (t:=topic_messages) _ (bump n (bump 1 w))).
        by apply wf_bump, wf_bump.
      + rewrite bool_decide_eq_true_2 by done. do 2 eexists.
        split; [do 2 eexists; split; [exact Hid|reflexivity]|done].
    - injection Hlog as <-. split_and!; [by apply wf_bump, wf_bump|done|done]. }
  destruct Hw2 as (Hwf2 & Hj2 & Hg). clear Hlogs. rewrite fanout_jobs_eq in Hrun. rewrite <- Hj2.
  case_bool_decide as Hnil.
  { apply fmap_nil_inv in Hnil. rewrite Hnil. injection Hrun as <- <-.
    split_and!; [done|constructor|done|intros _; constructor|done]. }
  pose proof (deliveries_keep_log request _ (delivery_job request <$> fanout (db w) (pr_topic request))
    w2 eq_refl) as Hk. rewrite Hrun in Hk. cbn [snd] in Hk.
  destruct (enqueue_deliveries _ _ _ _ _ Hwf2 Hrun) as (? & ? & ? & ?). split_and!; try done.
  unfold log_grows, log_is in *. by rewrite Hk.
Qed.

(** C18: a publish reaches every subscriber once.  It returns one stored job per active
    fan-out subscription of the topic, in registration order, no two the same: the job
    submitted for it or, under an idempotency key, the live job that holds the
    subscription's slot; no stored job is lost, and one message is logged exactly if a
    log subscription is active or the topic is declared a log. *)
Theorem publish_delivers_once request w js w' :
  wf w -> pubsub_ok (db w) -> publish_to_topic request w = (Ok js, w') ->
  wf w' /\ Forall2 (delivers (db w') request) (fanout (db w) (pr_topic request)) js
  /\ NoDup (j_id <$> js)
  /\ (forall id row, db_jobs (db w) !! id = Some row -> db_jobs (db w') !! id = Some row)
  /\ log_grows request (db w) (db w').
Proof.
  intros Hwf Hok Hrun. destruct (publish_run _ _ _ _ Hwf Hrun) as (Hwf' & Hf & Hold & Hnd & Hg).
  split_and!; try done. destruct (pr_idempotency_key request) as [key|] eqn:Hkey; [|by apply Hnd].
  eapply delivers_NoDup; [exact Hkey| |exact Hf]. by apply fanout_names.
Qed.

(** publishing again under an idempotency key delivers nothing twice.  Whatever else
    happened to the database, as long as the subscriptions are the same and the
    first publish's jobs still hold their unique slots, a second publish of the topic
    under the key answers with exactly those jobs. *)
Theorem publish_idempotent request request2 key w js w1 w2 js2 w3 :
  wf w -> publish_to_topic request w = (Ok js, w1) ->
  pr_idempotency_key request = Some key ->
  pr_topic request2 = pr_topic request -> pr_idempotency_key request2 = Some key ->
  pr_namespace request2 = pr_namespace request ->
  wf w2 -> fanout (db w2) (pr_topic request) = fanout (db w) (pr_topic request) ->
  (forall id row, id ∈ j_id <$> js -> db_jobs (db w1) !! id = Some row ->
     exists row2, db_jobs (db w2) !! id = Some row2 /\ unique_slot row2 = unique_slot row) ->
  publish_to_topic request2 w2 = (Ok js2, w3) ->
  j_id <$> js2 = j_id <$> js.
Proof.
  intros Hwf H1 Hk1 Ht Hk2 Hns Hwf2 Hfan Hheld H2.
  destruct (publish_run _ _ _ _ Hwf H1) as (Hwf1 & Hf1 & _).
  destruct (publish_run _ _ _ _ Hwf2 H2) as (Hwf3 & Hf2 & Hold & _). rewrite Ht, Hfan in Hf2.
  assert (Hl : length js2 = length js)
    by (rewrite <- (Forall2_length _ _ _ Hf1); symmetry; exact (Forall2_length _ _ _ Hf2)).
  apply list_eq_same_length with (length js); rewrite ?length_fmap; [done..|].
  intros i id2 id1 _ (j2 & -> & Hj2)%list_lookup_fmap_Some (j1 & -> & Hj1)%list_lookup_fmap_Some.
  destruct (Forall2_lookup_r _ _ _ _ _ Hf1 Hj1) as (sub & Hsub & row1 & Hr1 & _ & Hs1).
  destruct (Forall2_lookup_lr _ _ _ _ _ _ Hf2 Hsub Hj2) as (row2 & Hr2 & _ & Hs2).
  rewrite Hk1 in Hs1. rewrite Hk2, Ht, Hns in Hs2.
  destruct (Hheld (j_id j1) row1) as (row1' & Hr1' & Hs1'); [|done|].
  { eapply list_elem_of_fmap_2, list_elem_of_lookup_2, Hj1. }
  apply Hold in Hr1'. refine (wf_unique _ _ _ _ _ Hwf3 _ _ _ _ _ Hr2 Hr1' Hs2 _). congruence.
Qed.
End publish.

(** ** Reachable logs *)

Section reachable.
Context {E : Env} {G : Engine} {H : Hasher} `{!ScanComplete G} `{!HashComplete H}.

(** The tables the invariant does not mention. *)
#[local] Instance pubsub_jobs : Aside pubsub_wf jobs.
Proof. by intros m w [? ? ?]. Qed.
#[local] Instance pubsub_deps : Aside pubsub_wf job_dependencies.
Proof. by intros m w [? ? ?]. Qed.
#[local] Instance pubsub_topics : Aside pubsub_wf topics.
Proof. by intros m w [? ? ?]. Qed.

Lemma keeps_subscription_update k p f :
  (forall r, su_topic (f r) = su_topic r /\ su_subscription_name (f r) = su_subscription_name r) ->
  keeps pubsub_wf (sql_update topic_subscriptions k p f).
Proof.
  intros Hf w [H1 H2 H3]. unfold sql_update. simpl.
  destruct (db_topic_subscriptions (db w) !! k) as [r|] eqn:Hr; [|done].
  destruct (p r); [|done]. split; [|done|done]. apply map_Forall_insert_2; [|done].
  destruct (Hf r) as [-> ->]. exact (H1 _ _ Hr).
Qed.

Lemma keeps_subscription_delete p : keeps pubsub_wf (sql_delete topic_subscriptions p).
Proof.
  intros w [H1 H2 H3]. split; [|done|done].
  intros k r [Hr _]%map_lookup_filter_Some. exact (H1 _ _ Hr).
Qed.

Lemma keeps_subscription_delete_pk k : keeps pubsub_wf (sql_delete_pk topic_subscriptions k).
Proof.
  intros w [H1 H2 H3]. split; [|done|done]. simpl. by apply map_Forall_delete.
Qed.

Lemma keeps_delivery_update k p f :
  (forall d, (td_topic (f d), td_subscription_name (f d), td_message_id (f d))
             = (td_topic d, td_subscription_name d, td_message_id d)) ->
  keeps pubsub_wf (sql_update topic_deliveries k p f).
Proof.
  intros Hf w [H1 H2 H3]. unfold sql_update. simpl.
  destruct (db_topic_deliveries (db w) !! k) as [r|] eqn:Hr; [|done].
  destruct (p r); [|done]. split; [done|done|]. apply map_Forall_insert_2; [|done].
  rewrite Hf. exact (H3 _ _ Hr).
Qed.

Lemma keeps_register s : keeps pubsub_wf (register_subscription s).
Proof.
  apply keeps_bind; [eauto with keeps|intros _]. intros w [H1 H2 H3]. split; [|done|done].
  simpl. apply map_Forall_insert_2; [|done].
  destruct (db_topic_subscriptions (db w) !! _) as [r|] eqn:Hr; [|done]. exact (H1 _ _ Hr).
Qed.

Lemma keeps_message_insert id topic payload metadata notes created ex :
  keeps pubsub_wf (sql_insert topic_messages id
    (mkTopicMessageRow id topic payload metadata notes created ex)).
Proof.
  intros w [H1 H2 H3]. unfold sql_insert. destruct (_ || _); [done|]. split; [done| |done].
  by apply map_Forall_insert_2.
Qed.

Hint Resolve keeps_subscription_delete keeps_subscription_delete_pk keeps_register
  keeps_message_insert : keeps.

Lemma keeps_publish request : keeps pubsub_wf (publish_to_topic request).
Proof.
  unfold publish_to_topic, list_subscriptions_for_topic, log_expiry, get_topic, publish_message,
    enqueue_batch, enqueue_unique_batch, enqueue_unique_batch_reporting. solve_keeps.
Qed.

Lemma keeps_lease topic name limit vis now :
  keeps pubsub_wf (lease_topic_messages topic name limit vis now).
Proof.
  unfold lease_topic_messages, find_log_subscription, available_messages. solve_keeps.
  intros w Hw. destruct (lease_row_run topic name (as_i64 (now + vis)) now x w)
    as (w' & -> & _ & _ & _ & _ & Hok). by apply Hok.
Qed.

Lemma keeps_purge now limit : keeps pubsub_wf (purge_topic_messages now limit).
Proof.
  intros w Hw. destruct (purge_topic_messages now limit w) as [r w'] eqn:Hrun.
  by destruct (purge_topic_messages_run now limit w r w' Hw Hrun).
Qed.

(** The calls of the topic API. *)
Inductive TopicCall :=
| CallDeclare (name : string) (mode : SubscriptionMode) (retention_ms : option Z)
| CallRegister (s : NewSubscription)
| CallUnsubscribe (topic name : string)
| CallSetActive (topic name : string) (active : bool)
| CallReap (live_worker_ids : list string)
| CallPublish (request : PublishRequest)
| CallRead (topic name : string) (limit : Z)
| CallAckCursor (topic name cursor : string)
| CallLease (topic name : string) (limit visibility_ms now : Z)
| CallAck (topic name message_id : string)
| CallNack (topic name message_id : string)
| CallPurge (now limit : Z)
| CallStats.

Definition topic_call (c : TopicCall) : DbM unit :=
  match c with
  | CallDeclare n m r => declare_topic n m r
  | CallRegister s => register_subscription s
  | CallUnsubscribe t n => unsubscribe t n ;; mret tt
  | CallSetActive t n a => set_subscription_active t n a ;; mret tt
  | CallReap ids => reap_ephemeral_subscriptions ids ;; mret tt
  | CallPublish r => publish_to_topic r ;; mret tt
  | CallRead t n l => read_topic_messages t n l ;; mret tt
  | CallAckCursor t n c => ack_topic_cursor t n c ;; mret tt
  | CallLease t n l v now => lease_topic_messages t n l v now ;; mret tt
  | CallAck t n i => ack_message t n i ;; mret tt
  | CallNack t n i => nack_message t n i ;; mret tt
  | CallPurge now l => purge_topic_messages now l ;; mret tt
  | CallStats => topic_log_stats ;; topic_backlog_stats ;; mret tt
  end.

Lemma keeps_topic_call c : keeps pubsub_wf (topic_call c).
Proof.
  destruct c; cbn [topic_call]; try apply keeps_register;
    (apply keeps_bind; [|intros ?; eauto with keeps]);
    try solve [apply keeps_publish|apply keeps_lease|apply keeps_purge].
  - unfold lift_result. solve_keeps.
  - solve_keeps.
  - unfold unsubscribe. solve_keeps.
  - unfold set_subscription_active. solve_keeps. by apply keeps_subscription_update.
  - unfold reap_ephemeral_subscriptions. solve_keeps.
  - unfold read_topic_messages, find_log_subscription. solve_keeps.
  - unfold ack_topic_cursor. solve_keeps. by apply keeps_subscription_update.
  - unfold ack_message. solve_keeps. by apply keeps_delivery_update.
  - unfold nack_message. solve_keeps. by apply keeps_delivery_update.
  - unfold topic_log_stats, log_stats_of. solve_keeps.
  - unfold topic_backlog_stats, merge_backlog_stats. solve_keeps.
Qed.

(** The databases the topic API reaches from an empty one, whatever fails in between. *)
Inductive topic_reachable : World -> Prop :=
| topic_start n : topic_reachable (mkWorld empty_db n)
| topic_next c w : topic_reachable w -> topic_reachable (snd (topic_call c w)).

(** every call of the topic API, failed or not, keeps the subscriptions, messages and
    deliveries under the keys their own columns name, so in every reachable database the
    lookups by key and the scans by column agree. *)
Theorem topic_tables_typed w : topic_reachable w -> pubsub_ok (db w).
Proof.
  induction 1 as [n|c w _ IH]; [by split; apply map_Forall_empty|]. by apply keeps_topic_call.
Qed.
End reachable.

(** *** Examples *)

Definition demo_hasher : Hasher := {| hash_iter K A _ _ m := map_to_list m |}.

Lemma demo_hash_complete : HashComplete demo_hasher.
Proof. by intros K A ?? m. Qed.

Section examples.
#[local] Existing Instances demo_env demo_engine demo_uuid_fresh demo_scan_complete
  demo_hasher demo_hash_complete.

Definition demo_subscription (name : string) (mode : SubscriptionMode) : NewSubscription :=
  mkNewSubscription "orders" name "notify" "default" true true None 10 None None None mode.

Definition demo_publish : PublishRequest :=
  mkPublishRequest "orders" [] (Some "k") None None None 0 None None None None None
    (mkDeliveryDefaults 0 3 1000).

Definition run_calls (cs : list TopicCall) (w : World) : World :=
  foldl (fun w c => snd (topic_call c w)) w cs.

(** A topic with two fan-out subscribers and a log subscriber. *)
Definition topic_world : World :=
  run_calls (CallRegister <$> [demo_subscription "mail" Fanout; demo_subscription "sms" Fanout;
    demo_subscription "audit" Log]) demo_world.

(** A log with two messages. *)
Definition logged_world : World :=
  run_calls [CallRegister (demo_subscription "audit" Log); CallPublish demo_publish;
    CallPublish demo_publish] demo_world.

(** Its subscriber has read past the first. *)
Definition read_world : World :=
  run_calls [CallAckCursor "orders" "audit" (uuid_v7 3)] logged_world.

Lemma calls_keep cs w : pubsub_ok (db w) -> pubsub_ok (db (run_calls cs w)).
Proof.
  revert w. induction cs as [|c cs IH]; intros w Hw; [done|]. apply IH, keeps_topic_call, Hw.
Qed.

Lemma demo_world_ok : pubsub_ok (db demo_world).
Proof. split; apply map_Forall_empty. Qed.

Lemma topic_world_ok : pubsub_ok (db topic_world).
Proof. apply calls_keep, demo_world_ok. Qed.
Lemma logged_world_ok : pubsub_ok (db logged_world).
Proof. apply calls_keep, demo_world_ok. Qed.
Lemma read_world_ok : pubsub_ok (db read_world).
Proof. apply calls_keep, logged_world_ok. Qed.

Lemma topic_world_wf : wf topic_world.
Proof.
  assert (Hk : forall s, keeps wf (register_subscription s))
    by (intros s; unfold register_subscription; solve_keeps).
  unfold topic_world. simpl. repeat (apply (Hk _ _)). apply wf_empty.
Qed.

Lemma topic_tables_typed_witness :
  topic_reachable read_world /\ pubsub_ok (db read_world)
  /\ size (db_topic_messages (db read_world)) = 2%nat.
Proof.
  assert (Hr : topic_reachable read_world) by repeat constructor.
  split; [exact Hr|]. split; [exact (topic_tables_typed read_world Hr)|by vm_compute].
Defined.

(** The answer of a call that succeeds. *)
Definition got {A} (x : Result QueueError (list A) * World) : list A :=
  match fst x with Ok l => l | Err _ => [] end.

Lemma got_run {A} (x : Result QueueError (list A) * World) :
  is_ok (fst x) = true -> x = (Ok (got x), snd x).
Proof. by destruct x as [[l|e] w]. Qed.

Lemma publish_delivers_once_witness :
  let x := publish_to_topic demo_publish topic_world in
  length (got x) = 2%nat /\ NoDup (j_id <$> got x).
Proof.
  intros x. split; [by vm_compute|].
  exact (proj1 (proj2 (proj2 (publish_delivers_once demo_publish topic_world (got x) (snd x)
    topic_world_wf topic_world_ok (got_run x ltac:(by vm_compute)))))).
Defined.

Lemma publish_idempotent_witness :
  let x := publish_to_topic demo_publish topic_world in
  let y := publish_to_topic demo_publish (snd x) in
  length (got x) = 2%nat /\ j_id <$> got y = j_id <$> got x.
Proof.
  intros x y. split; [by vm_compute|].
  assert (Hx : x = (Ok (got x), snd x)) by (apply got_run; by vm_compute).
  assert (Hy : y = (Ok (got y), snd y)) by (apply got_run; by vm_compute).
  refine (publish_idempotent demo_publish demo_publish "k" topic_world (got x) (snd x) (snd x)
    (got y) (snd y) topic_world_wf Hx eq_refl eq_refl eq_refl eq_refl _ _ _ Hy).
  - exact (proj1 (publish_run _ _ _ _ topic_world_wf Hx)).
  - by vm_compute.
  - intros id row _ Hrow. exists row. split; [exact Hrow|reflexivity].
Defined.

Lemma purge_keeps_unconsumed_witness :
  let x := purge_topic_messages 5000 10 read_world in
  fst x = Ok 1 /\ size (db_topic_messages (db (snd x))) = 1%nat
  /\ compacted 5000 10 1 (db read_world) (db (snd x)).
Proof.
  intros x. assert (Hx : fst x = Ok 1) by by vm_compute.
  split; [exact Hx|]. split; [by vm_compute|].
  refine (proj2 (proj2 (purge_keeps_unconsumed 5000 10 read_world (Ok 1) (snd x) read_world_ok _))).
  rewrite <- Hx. apply surjective_pairing.
Defined.


Lemma cursor_pages_witness :
  let x := read_topic_messages "orders" "audit" 1 logged_world in
  let a := ack_topic_cursor "orders" "audit" (uuid_v7 3) (mkWorld (db (snd x)) 0) in
  let y := read_topic_messages "orders" "audit" 1 (mkWorld (db (snd a)) 0) in
  length (got x) = 1%nat /\ length (got y) = 1%nat
  /\ fst (read_topic_messages "orders" "audit" (1 + 1) logged_world) = Ok (got x ++ got y).
Proof.
  intros x a y. split; [by vm_compute|]. split; [by vm_compute|].
  assert (Hx : x = (Ok (got x), snd x)) by (apply got_run; by vm_compute).
  assert (Hy : y = (Ok (got y), snd y)) by (apply got_run; by vm_compute).
  assert (Ha : a = (Ok true, snd a)).
  { rewrite (surjective_pairing a) at 1. by f_equal. }
  set (m := mkTopicMessage (uuid_v7 3) "orders" [] None None 1004 None).
  assert (Hm : last (got x) = Some m) by by vm_compute.
  exact (proj1 (proj2 (cursor_pages "orders" "audit" 1 1 logged_world (got x) (snd x) m true 0
    (snd a) 0 (got y) (snd y) logged_world_ok ltac:(lia) ltac:(lia) Hx Hm Ha Hy))).
Defined.
End examples.
