(* ===== verification/Purge.v ===== *)
(** * Sweeps over the jobs ([diesel_common/jobs.rs], [diesel_common/purge.rs])

    Retention purges of the archive in bounded batches, mass cancellation of pending
    jobs, the two reaper scans and the record of attempt errors.

    [drain_batches] runs at most 200 batches, as its constant says.  The loop of
    [archive_pending_in_batches] has no such cap; its bound here is one more than the
    number of live rows, and [archive_loop_run] shows the loop always ends within it,
    because every round that does not end it archives 500 rows. *)
From S2P Require Import Prelude Job Db Store Enqueue Dequeue Transitions Cascade.

Definition MAX_BATCHES_PER_SWEEP : nat := 200.

(** [events::reason::EXPIRED] *)
Definition EXPIRED : string := "expired".

Record StaleJob := mkStaleJob { sj_job : Job; sj_awaiting_settle : bool }.

(** [column < cutoff]: false on null. *)
Definition opt_lt (column : option Z) (cutoff : Z) : bool :=
  match column with
  | Some t => t <? cutoff
  | None => false
  end.

Section purge.
Context {E : Env} {G : Engine}.

(** [drain_batches]: the closure's captured state is threaded as [s]. *)
Fixpoint drain_loop {St} (fuel : nat) (delete_batch : St -> DbM (Z * St)) (s : St) (total : Z)
    : DbM Z :=
  match fuel with
  | O => mret total
  | S fuel =>
      '(removed, s) ← delete_batch s;
      let total := total + removed in
      if removed <? PURGE_BATCH then mret total
      else drain_loop fuel delete_batch s total
  end.

Definition drain_batches {St} (delete_batch : St -> DbM (Z * St)) (s : St) : DbM Z :=
  drain_loop MAX_BATCHES_PER_SWEEP delete_batch s 0.

(** A closure without captured state. *)
Definition stateless (m : DbM Z) : unit -> DbM (Z * unit) :=
  fun _ => removed ← m; mret (removed, tt).

(** [trim_oldest]: the captured state is [remaining]. *)
Definition trim_oldest (excess : Z) (delete_oldest : Z -> DbM Z) : DbM Z :=
  drain_batches (fun remaining =>
    if remaining =? 0 then mret (0, remaining)
    else
      removed ← delete_oldest (Z.min remaining PURGE_BATCH);
      mret (removed, sat_sub_i64 remaining removed)) (Z.max excess 0).

Definition purge_archived_id_batch (ids : list string) (cascade_diagnostics : bool) : DbM Z :=
  if bool_decide (ids = []) then mret 0
  else
    delete_job_relations ids ;;
    (if cascade_diagnostics then delete_job_diagnostics ids else mret tt) ;;
    sql_delete archived_jobs (fun r => mem (ar_id r) ids).

(** One batch: the transaction the three purges by predicate run. *)
Definition purge_archived_where (p : ArchivedJobRow -> bool) (cascade_diagnostics : bool) : DbM Z :=
  write_transaction (
    rows ← sql_select archived_jobs p;
    purge_archived_id_batch (ar_id <$> sql_limit PURGE_BATCH rows) cascade_diagnostics).

(** [status = Complete AND completed_at < older_than_ms] *)
Definition completed_before (older_than_ms : Z) (r : ArchivedJobRow) : bool :=
  (ar_status r =? as_int Complete) && opt_lt (ar_completed_at r) older_than_ms.

Definition purge_completed (older_than_ms : Z) : DbM Z :=
  drain_batches (stateless (purge_archived_where (completed_before older_than_ms) true)) tt.

(** [result_ttl_ms IS NULL AND completed_at < cutoff] *)
Definition past_global_cutoff (cutoff : Z) (r : ArchivedJobRow) : bool :=
  bool_decide (ar_result_ttl_ms r = None) && opt_lt (ar_completed_at r) cutoff.

(** [completed_at + result_ttl_ms < now], both present. *)
Definition past_own_ttl (now : Z) (r : ArchivedJobRow) : bool :=
  match ar_result_ttl_ms r, ar_completed_at r with
  | Some ttl, Some completed_at => completed_at + ttl <? now
  | _, _ => false
  end.

Definition purge_completed_with_ttl (global_cutoff_ms : option Z) : DbM Z :=
  now ← now_millis;
  global ← match global_cutoff_ms with
           | Some cutoff =>
               drain_batches
                 (stateless (purge_archived_where (past_global_cutoff cutoff) false)) tt
           | None => mret 0
           end;
  per_entry ← drain_batches (stateless (purge_archived_where (past_own_ttl now) false)) tt;
  mret (global + per_entry).

Definition trim_archived_over (namespace : option string) (keep : Z) : DbM Z :=
  total ← (conn ;; sql_count archived_jobs (fun r => same_namespace (ar_namespace r) namespace));
  trim_oldest (total - Z.max keep 0) (fun limit =>
    write_transaction (
      rows ← sql_select archived_jobs (fun r => same_namespace (ar_namespace r) namespace);
      let oldest := order_by (then_by (asc_opt_Z ar_completed_at) (asc_str ar_id)) rows in
      purge_archived_id_batch (ar_id <$> sql_limit limit oldest) false)).

(** *** Mass cancellation *)

Definition archive_pending_rows (rows : list JobRow) (now : Z) (error : string)
    : DbM (list JobRow) :=
  mapM (fun row =>
    let row := cancelled_row now (Some error) row in
    archive_job_row row ;; mret row) rows.

(** The loop; [None] when [fuel] rounds did not end it.  [on_batch] is the callback
    that receives each committed batch. *)
Fixpoint archive_loop (fuel : nat) (now : Z) (error : string) (p : JobRow -> bool)
    (on_batch : list JobRow -> DbM unit) (total : Z) : DbM (option Z) :=
  match fuel with
  | O => mret None
  | S fuel =>
      rows ← write_transaction (
        rows ← sql_select jobs p;
        archive_pending_rows (sql_limit MASS_ARCHIVE_BATCH rows) now error);
      let archived := count rows in
      let total := total + archived in
      (if bool_decide (length rows = 0%nat) then mret tt else on_batch rows) ;;
      if archived <? MASS_ARCHIVE_BATCH then mret (Some total)
      else archive_loop fuel now error p on_batch total
  end.

Definition archive_pending_in_batches (now : Z) (error : string) (p : JobRow -> bool)
    (on_batch : list JobRow -> DbM unit) : DbM Z :=
  fuel ← gets (fun w => S (size (db_jobs (db w))));
  total ← archive_loop fuel now error p on_batch 0;
  mret (default 0 total).

Definition expire_in_batches (now : Z) (on_batch : list JobRow -> DbM unit) : DbM Z :=
  archive_pending_in_batches now EXPIRED (fun r =>
    (jr_status r =? as_int Pending) && opt_lt (jr_expires_at r) now) on_batch.

Definition expire_pending_jobs (now : Z) : DbM Z := expire_in_batches now (fun _ => mret tt).

Definition expire_pending_jobs_reporting (now : Z) (on_batch : list Job -> DbM unit) : DbM Z :=
  expire_in_batches now (fun rows => on_batch (job_of_row <$> rows)).

Definition cancel_pending_by_queue (queue : string) : DbM Z :=
  now ← now_millis;
  archive_pending_in_batches now "purged" (fun r =>
    (jr_status r =? as_int Pending) && bool_decide (jr_queue r = queue)) (fun _ => mret tt).

Definition cancel_pending_by_task (task_name : string) : DbM Z :=
  now ← now_millis;
  archive_pending_in_batches now "revoked" (fun r =>
    (jr_status r =? as_int Pending) && bool_decide (jr_task_name r = task_name))
    (fun _ => mret tt).

(** *** Reaper scans and attempt errors *)

(** [started_at + timeout_ms < now], started. *)
Definition past_deadline (now : Z) (r : JobRow) : bool :=
  match jr_started_at r with
  | Some started_at => started_at + jr_timeout_ms r <? now
  | None => false
  end.

Definition reap_stale_jobs (now : Z) (namespace : option string) : DbM (list StaleJob) :=
  conn ;;
  rows ← sql_select jobs (fun r =>
    (jr_status r =? as_int Running) && past_deadline now r
    && job_in_namespace (jr_namespace r) namespace);
  let ids := jr_id <$> rows in
  if bool_decide (ids = []) then mret []
  else
    markers ← sql_select execution_claims (fun c =>
      mem (ec_job_id c) ids && bool_decide (is_Some (ec_settle_deadline_ms c)));
    let awaiting : gmap string Z :=
      list_to_map (omap (fun c => (fun d => (ec_job_id c, d)) <$> ec_settle_deadline_ms c)
        markers) in
    mret (omap (fun r =>
      match awaiting !! jr_id r with
      | Some deadline =>
          if now <? deadline then None
          else Some (mkStaleJob (from_narrow (narrow r) [] None) true)
      | None => Some (mkStaleJob (from_narrow (narrow r) [] None) false)
      end) rows).

Definition reap_orphaned_jobs (live_owner_ids : list string) (namespace : option string)
    : DbM (list (Job * string)) :=
  if bool_decide (live_owner_ids = []) then mret []
  else
    conn ;;
    orphan_claims ← sql_select execution_claims (fun c =>
      negb (mem (ec_worker_id c) live_owner_ids));
    let job_ids := ec_job_id <$> orphan_claims in
    if bool_decide (job_ids = []) then mret []
    else
      let owner_by_job : gmap string string :=
        list_to_map ((fun c => (ec_job_id c, ec_worker_id c)) <$> orphan_claims) in
      rows ← sql_select jobs (fun r =>
        mem (jr_id r) job_ids && (jr_status r =? as_int Running)
        && job_in_namespace (jr_namespace r) namespace);
      mret ((fun r => (from_narrow (narrow r) [] None,
                       default ""%string (owner_by_job !! jr_id r))) <$> rows).

(** [namespace.is_some() && self.get_job(job_id, namespace)?.is_none()] *)
Definition hidden_job (job_id : string) (namespace : option string) : DbM bool :=
  match namespace with
  | Some _ => j ← get_job job_id namespace; mret (bool_decide (j_id <$> j = None))
  | None => mret false
  end.

Definition record_error (job_id : string) (attempt : Z) (error : string)
    (namespace : option string) : DbM unit :=
  hidden ← hidden_job job_id namespace;
  if (hidden : bool) then mret tt
  else
    conn ;;
    id ← now_v7;
    now ← now_millis;
    sql_insert job_errors id (mkJobErrorRow id job_id attempt error now).

Definition get_job_errors (job_id : string) (namespace : option string)
    : DbM (list JobErrorRow) :=
  hidden ← hidden_job job_id namespace;
  if (hidden : bool) then mret []
  else
    conn ;;
    rows ← sql_select job_errors (fun e => bool_decide (je_job_id e = job_id));
    mret (order_by (asc_Z je_attempt) rows).

Definition purge_job_errors (older_than_ms : Z) : DbM Z :=
  drain_batches (stateless (write_transaction (
    rows ← sql_select job_errors (fun e => je_failed_at e <? older_than_ms);
    let ids := je_id <$> sql_limit PURGE_BATCH rows in
    sql_delete job_errors (fun e => mem (je_id e) ids)))) tt.

End purge.

(** ** Deleting by id *)

Definition relations_db (ids : list string) (d : DB) : DB :=
  set_replay_history (keep_where (fun h => mem (rh_original_job_id h) ids) (db_replay_history d))
    (set_job_dependencies
      (keep_where (fun e => mem (dep_job_id e) ids || mem (dep_depends_on_job_id e) ids)
        (db_job_dependencies d)) d).

Definition diagnostics_db (ids : list string) (d : DB) : DB :=
  set_task_metrics (keep_where (fun m => mem (tm_job_id m) ids) (db_task_metrics d))
    (set_task_logs (keep_where (fun l => mem (tl_job_id l) ids) (db_task_logs d))
      (set_job_errors (keep_where (fun e => mem (je_job_id e) ids) (db_job_errors d)) d)).

(** The database after a batch of archived ids is purged. *)
Definition purged_db (cascade_diagnostics : bool) (ids : list string) (d : DB) : DB :=
  let d1 := relations_db ids d in
  let d2 := if cascade_diagnostics then diagnostics_db ids d1 else d1 in
  set_archived_jobs (keep_where (fun r => mem (ar_id r) ids) (db_archived_jobs d2)) d2.

Section deletes.
Context {E : Env} {G : Engine}.

Lemma mem_app x l1 l2 : mem x (l1 ++ l2) = mem x l1 || mem x l2.
Proof.
  unfold mem. repeat case_bool_decide; rewrite ?elem_of_app in *; simpl; tauto.
Qed.

Lemma keep_where_nothing {K R} `{Countable K} (p : R -> bool) (m : gmap K R) :
  (forall k r, m !! k = Some r -> p r = false) -> keep_where p m = m.
Proof.
  intros Hp. apply map_eq. intros k. apply option_eq. intros r.
  rewrite keep_where_lookup. naive_solver.
Qed.

Lemma keep_where_twice {K R} `{Countable K} (p q r : R -> bool) (m : gmap K R) :
  (forall x, r x = p x || q x) -> keep_where q (keep_where p m) = keep_where r m.
Proof.
  intros Hr. apply map_eq. intros k. apply option_eq. intros x.
  rewrite !keep_where_lookup, Hr, orb_false_iff. tauto.
Qed.

Lemma relations_db_nil d : relations_db [] d = d.
Proof. unfold relations_db. rewrite !keep_where_nothing by done. by destruct d. Qed.

Lemma relations_db_app l1 l2 d : relations_db l2 (relations_db l1 d) = relations_db (l1 ++ l2) d.
Proof.
  destruct d; unfold relations_db; db_simpl. f_equal; apply keep_where_twice;
    intros x; rewrite ?mem_app; [|done].
  destruct (mem (dep_job_id x) l1), (mem (dep_job_id x) l2); by simpl; rewrite ?orb_true_r.
Qed.

Lemma diagnostics_db_nil d : diagnostics_db [] d = d.
Proof. unfold diagnostics_db. rewrite !keep_where_nothing by done. by destruct d. Qed.

Lemma diagnostics_db_app l1 l2 d :
  diagnostics_db l2 (diagnostics_db l1 d) = diagnostics_db (l1 ++ l2) d.
Proof.
  destruct d; unfold diagnostics_db; db_simpl. f_equal; apply keep_where_twice;
    intros x; by rewrite mem_app.
Qed.

(** A loop of deletions over chunks. *)
Lemma for_each_chunks (f : list string -> DbM unit) (g : list string -> DB -> DB) ids w :
  (forall d, g [] d = d) -> (forall l1 l2 d, g l2 (g l1 d) = g (l1 ++ l2) d) ->
  (forall l w, f l w = (Ok tt, mkWorld (g l (db w)) (tick w))) ->
  for_each f (chunks DELETE_ID_CHUNK ids) w = (Ok tt, mkWorld (g ids (db w)) (tick w)).
Proof.
  intros Hnil Happ Hf. rewrite <- (chunks_concat DELETE_ID_CHUNK ids) at 2
    by (unfold DELETE_ID_CHUNK; lia).
  generalize (chunks DELETE_ID_CHUNK ids) as ls. intros ls. revert w.
  induction ls as [|l ls IH]; intros w; cbn [for_each concat].
  - rewrite Hnil. by destruct w.
  - erewrite bind_ok by apply Hf. rewrite IH. simpl. by rewrite Happ.
Qed.

Lemma delete_job_relations_eq ids w :
  delete_job_relations ids w = (Ok tt, mkWorld (relations_db ids (db w)) (tick w)).
Proof.
  apply (for_each_chunks _ relations_db);
    [apply relations_db_nil|intros; apply relations_db_app|done].
Qed.

Lemma delete_job_diagnostics_eq ids w :
  delete_job_diagnostics ids w = (Ok tt, mkWorld (diagnostics_db ids (db w)) (tick w)).
Proof.
  apply (for_each_chunks _ diagnostics_db);
    [apply diagnostics_db_nil|intros; apply diagnostics_db_app|done].
Qed.

(** Deleting rows by distinct ids that are all present. *)
Lemma size_keep_where {R} (key : R -> string) (m : gmap string R) ids :
  map_Forall (fun k r => key r = k) m -> NoDup ids ->
  Forall (fun id => is_Some (m !! id)) ids ->
  (size (keep_where (fun r => mem (key r) ids) m) + length ids = size m)%nat.
Proof.
  revert m. induction ids as [|id ids IH]; intros m Hm Hnd Hids.
  { rewrite keep_where_nothing by done. simpl. lia. }
  apply NoDup_cons in Hnd as [Hn Hnd]. apply Forall_cons in Hids as [[x Hx] Hids].
  assert (Heq : keep_where (fun r => mem (key r) (id :: ids)) m
    = keep_where (fun r => mem (key r) ids) (delete id m)).
  { apply map_eq. intros k. apply option_eq. intros r.
    rewrite !keep_where_lookup, lookup_delete_Some. unfold mem. rewrite !bool_decide_eq_false.
    rewrite elem_of_cons. split.
    - intros [Hk Hin]. rewrite (Hm _ _ Hk) in Hin. rewrite (Hm _ _ Hk). naive_solver.
    - intros [[Hne Hk] Hin]. rewrite (Hm _ _ Hk) in Hin. rewrite (Hm _ _ Hk). naive_solver. }
  rewrite Heq.
  assert (Hsize : size m = S (size (delete id m))).
  { rewrite <- (insert_delete_id m id x Hx) at 1.
    rewrite map_size_insert_None; [done|]. apply lookup_delete_eq. }
  rewrite Hsize.
  simpl. rewrite Nat.add_succ_r. f_equal. apply IH; [|done|].
  - intros k r [_ Hk]%lookup_delete_Some. by apply Hm.
  - apply Forall_forall. intros id' Hin. rewrite Forall_forall in Hids.
    rewrite lookup_delete_ne; [by apply Hids|]. by intros ->.
Qed.
End deletes.

(** ** Purge sweeps *)

Section sweeps.
Context {E : Env} {G : Engine} `{!UuidFresh E} `{!ScanComplete G}.

Lemma purged_db_nil c d : purged_db c [] d = d.
Proof.
  unfold purged_db. rewrite relations_db_nil, diagnostics_db_nil.
  rewrite !keep_where_nothing by done. by destruct c, d.
Qed.

Lemma purged_db_app c l1 l2 d : purged_db c l2 (purged_db c l1 d) = purged_db c (l1 ++ l2) d.
Proof.
  destruct c, d; unfold purged_db, diagnostics_db, relations_db; db_simpl;
    f_equal; apply keep_where_twice; intros x; rewrite ?mem_app; try done;
    destruct (mem (dep_job_id x) l1), (mem (dep_job_id x) l2); by simpl; rewrite ?orb_true_r.
Qed.

Lemma purged_db_tables c ids d :
  db_jobs (purged_db c ids d) = db_jobs d
  /\ db_archived_jobs (purged_db c ids d)
     = keep_where (fun r => mem (ar_id r) ids) (db_archived_jobs d)
  /\ db_job_dependencies (purged_db c ids d)
     = keep_where (fun e => mem (dep_job_id e) ids || mem (dep_depends_on_job_id e) ids)
         (db_job_dependencies d)
  /\ db_job_steps (purged_db c ids d) = db_job_steps d.
Proof. by destruct c. Qed.

Lemma wf_purged_db c ids w : wf w -> wf (mkWorld (purged_db c ids (db w)) (tick w)).
Proof.
  intros Hwf. destruct (purged_db_tables c ids (db w)) as (HJ & HA & HD & HS).
  unfold wf. cbn [db tick]. rewrite HJ, HA, HD, HS.
  eapply wf_purge; [exact Hwf|apply keep_where_subset|apply keep_where_subset|].
  intros k e id [_ He]%keep_where_lookup Hgone [r Hr].
  assert (Hid : id ∈ ids).
  { destruct (mem id ids) eqn:Hm; [by apply mem_spec|].
    assert (Hk : keep_where (fun r => mem (ar_id r) ids) (db_archived_jobs (db w)) !! id = Some r).
    { apply keep_where_lookup. by rewrite (wf_arch_key _ _ _ _ _ Hwf _ _ Hr). }
    congruence. }
  apply orb_false_iff in He as [H1 H2]. unfold mem in *.
  apply bool_decide_eq_false in H1, H2. split; by intros <-.
Qed.

(** One batch. *)
Lemma purge_ids_eq c ids w :
  wf w -> NoDup ids -> Forall (fun id => is_Some (db_archived_jobs (db w) !! id)) ids ->
  purge_archived_id_batch ids c w
  = (Ok (count ids), mkWorld (purged_db c ids (db w)) (tick w)).
Proof.
  intros Hwf Hnd Hids. unfold purge_archived_id_batch. case_bool_decide as Hnil.
  { subst ids. rewrite purged_db_nil. by destruct w. }
  rewrite (bind_ok _ _ _ _ _ (delete_job_relations_eq ids w)).
  pose proof (size_keep_where ar_id (db_archived_jobs (db w)) ids
    (wf_arch_key _ _ _ _ _ Hwf) Hnd Hids) as Hsize. unfold count.
  destruct c.
  - rewrite (bind_ok _ _ _ _ _ (delete_job_diagnostics_eq ids _)).
    unfold sql_delete. cbn -[keep_where]. f_equal. f_equal. unfold keep_where in Hsize. lia.
  - erewrite bind_ok by done. unfold sql_delete. cbn -[keep_where]. f_equal. f_equal.
    unfold keep_where in Hsize. lia.
Qed.

(** The ids of one batch: distinct, matching, and all there are when it is short. *)
Lemma batch_ids (p : ArchivedJobRow -> bool) limit w :
  wf w -> 0 <= limit ->
  let rows := filter (fun r => Is_true (p r)) (scan (db_archived_jobs (db w))) in
  let ids := ar_id <$> sql_limit limit rows in
  NoDup ids
  /\ Forall (fun id => exists r, db_archived_jobs (db w) !! id = Some r /\ p r = true) ids
  /\ (count ids < limit -> forall k r, db_archived_jobs (db w) !! k = Some r -> p r = true ->
       k ∈ ids).
Proof.
  intros Hwf Hl rows ids. split_and!.
  - eapply sublist_NoDup; [apply (scan_NoDup_key ar_id), (wf_arch_key _ _ _ _ _ Hwf)|].
    apply fmap_sublist. etrans; [apply sql_limit_sublist|apply sublist_filter].
  - apply Forall_forall. intros id (r & -> & Hr%sql_limit_elem_of)%list_elem_of_fmap.
    apply list_elem_of_filter in Hr as [Hp%Is_true_true [k Hk]%elem_of_scan].
    exists r. by rewrite (wf_arch_key _ _ _ _ _ Hwf _ _ Hk).
  - intros Hshort k r Hk Hp. rewrite <- (wf_arch_key _ _ _ _ _ Hwf _ _ Hk).
    apply list_elem_of_fmap_2. unfold ids, count, sql_limit in *. rewrite length_fmap in Hshort.
    destruct (Z.ltb_spec limit 0); [lia|]. rewrite length_take in Hshort.
    rewrite take_ge by lia. apply list_elem_of_filter. rewrite Is_true_true.
    split; [done|]. apply elem_of_scan. by exists k.
Qed.

(** What a sweep over [p] with [cap] rows at most leaves. *)
Definition swept (p : ArchivedJobRow -> bool) (c : bool) (cap : Z) (ids : list string) (d d' : DB)
    : Prop :=
  d' = purged_db c ids d /\ NoDup ids
  /\ Forall (fun id => exists r, db_archived_jobs d !! id = Some r /\ p r = true) ids
  /\ (count ids < cap ->
      forall k r, db_archived_jobs d' !! k = Some r -> p r = false).

Lemma purge_where_eq (p : ArchivedJobRow -> bool) c w :
  wf w -> pool_ready (tick w) = true ->
  exists ids, purge_archived_where p c w
      = (Ok (count ids), mkWorld (purged_db c ids (db w)) (S (tick w)))
    /\ swept p c PURGE_BATCH ids (db w) (purged_db c ids (db w)) /\ count ids <= PURGE_BATCH.
Proof.
  intros Hwf Hp. destruct (batch_ids p PURGE_BATCH w Hwf ltac:(done)) as (Hnd & Hids & Hall).
  set (rows := filter _ _) in *. set (ids := ar_id <$> _) in *.
  assert (Hsome : Forall (fun id => is_Some (db_archived_jobs (db w) !! id)) ids).
  { eapply Forall_impl; [exact Hids|]. intros id (r & Hr & _). by eexists. }
  exists ids. split_and!.
  - apply write_transaction_ok; [done|]. erewrite bind_ok by done.
    apply (purge_ids_eq c ids (bump 1 w) (wf_bump 1 w Hwf) Hnd Hsome).
  - split_and!; [done..|]. intros Hshort k r Hr.
    rewrite (proj1 (proj2 (purged_db_tables c ids (db w)))) in Hr.
    apply keep_where_lookup in Hr as [Hr Hn]. apply not_true_iff_false. intros Ht.
    specialize (Hall Hshort k r Hr Ht). unfold mem in Hn.
    rewrite (wf_arch_key _ _ _ _ _ Hwf _ _ Hr) in Hn. by apply bool_decide_eq_false in Hn.
  - unfold ids, count. rewrite length_fmap. apply sql_limit_length. done.
Qed.

Lemma swept_second q c m ids1 ids2 w d' id :
  wf w -> swept q c m ids2 (purged_db c ids1 (db w)) d' -> id ∈ ids2 ->
  (id ∉ ids1) /\ exists r, db_archived_jobs (db w) !! id = Some r /\ q r = true.
Proof.
  intros Hwf (_ & _ & Hids & _) Hin. rewrite Forall_forall in Hids.
  destruct (Hids id Hin) as (r & Hr & Hq).
  rewrite (proj1 (proj2 (purged_db_tables c ids1 (db w)))) in Hr.
  apply keep_where_lookup in Hr as [Hr Hn].
  rewrite (wf_arch_key _ _ _ _ _ Hwf _ _ Hr) in Hn. apply bool_decide_eq_false in Hn. eauto.
Qed.

Lemma swept_NoDup q c m ids1 ids2 w d' :
  wf w -> NoDup ids1 -> swept q c m ids2 (purged_db c ids1 (db w)) d' -> NoDup (ids1 ++ ids2).
Proof.
  intros Hwf Hnd Hsw. pose proof Hsw as (_ & Hnd2 & _). apply NoDup_app.
  split_and!; [done| |done]. intros id H1 H2.
  by destruct (swept_second _ _ _ _ _ _ _ _ Hwf Hsw H2).
Qed.

(** Two batches of one sweep. *)
Lemma swept_app p c n m ids1 ids2 w d' :
  wf w -> swept p c n ids1 (db w) (purged_db c ids1 (db w)) ->
  swept p c m ids2 (purged_db c ids1 (db w)) d' ->
  swept p c (count ids1 + m) (ids1 ++ ids2) (db w) d'.
Proof.
  intros Hwf (_ & Hnd1 & Hids1 & _) Hsw2. pose proof Hsw2 as (-> & _ & _ & Hend). split_and!.
  - apply purged_db_app.
  - by eapply swept_NoDup.
  - apply Forall_app. split; [done|]. apply Forall_forall. intros id Hin.
    by eapply (swept_second _ _ _ _ _ _ _ _ Hwf Hsw2).
  - unfold count in *. rewrite length_app. intros Hc. apply Hend. lia.
Qed.

(** Two sweeps, one after the other. *)
Lemma swept_or p q c n ids1 ids2 w d' :
  wf w -> swept p c n ids1 (db w) (purged_db c ids1 (db w)) ->
  swept q c n ids2 (purged_db c ids1 (db w)) d' ->
  swept (fun r => p r || q r) c n (ids1 ++ ids2) (db w) d'.
Proof.
  intros Hwf (_ & Hnd1 & Hids1 & Hend1) Hsw2. pose proof Hsw2 as (-> & _ & _ & Hend2).
  split_and!.
  - apply purged_db_app.
  - by eapply swept_NoDup.
  - apply Forall_app. split.
    + eapply Forall_impl; [exact Hids1|]. intros id (r & Hr & Hp). exists r. by rewrite Hp.
    + apply Forall_forall. intros id Hin.
      destruct (swept_second _ _ _ _ _ _ _ _ Hwf Hsw2 Hin) as (_ & r & Hr & Hq).
      exists r. by rewrite Hq, orb_true_r.
  - unfold count in *. rewrite length_app. intros Hc k r Hr.
    rewrite (Hend2 ltac:(lia) k r Hr), orb_false_r. apply (Hend1 ltac:(lia) k r).
    rewrite (proj1 (proj2 (purged_db_tables c ids2 _))) in Hr.
    by apply keep_where_lookup in Hr as [Hr _].
Qed.

Lemma drain_purge (p : ArchivedJobRow -> bool) c fuel total w :
  wf w -> (forall n, pool_ready n = true) ->
  exists ids w',
    drain_loop fuel (stateless (purge_archived_where p c)) tt total w
      = (Ok (total + count ids), w')
    /\ wf w' /\ swept p c (Z.of_nat fuel * PURGE_BATCH) ids (db w) (db w').
Proof.
  intros Hwf Hp. revert total w Hwf. induction fuel as [|fuel IH]; intros total w Hwf.
  { exists [], w. unfold count. simpl. rewrite Z.add_0_r. split_and!; [done|done|].
    split_and!; [by rewrite purged_db_nil|constructor|constructor|]. unfold count. simpl. lia. }
  destruct (purge_where_eq p c w Hwf (Hp _)) as (ids & Heq & Hsw & Hle).
  cbn [drain_loop]. erewrite bind_ok by (unfold stateless; by erewrite bind_ok by exact Heq).
  pose proof (wf_bump 1 _ (wf_purged_db c ids w Hwf)) as Hwf1.
  cbn [fst snd]. destruct (Z.ltb_spec (count ids) PURGE_BATCH) as [Hlt|Hge].
  - exists ids, (mkWorld (purged_db c ids (db w)) (S (tick w))). split_and!; [done|done|].
    destruct Hsw as (? & ? & ? & Hend). split_and!; [done..|]. intros _. by apply Hend.
  - destruct (IH (total + count ids) _ Hwf1) as (ids2 & w' & Heq2 & Hwf' & Hsw2).
    exists (ids ++ ids2), w'. split_and!.
    + unfold bump in Heq2. simpl in Heq2. rewrite Heq2. do 2 f_equal. unfold count.
      rewrite length_app. lia.
    + done.
    + replace (Z.of_nat (S fuel) * PURGE_BATCH) with (count ids + Z.of_nat fuel * PURGE_BATCH)
        by (unfold PURGE_BATCH in *; lia).
      by apply (swept_app p c PURGE_BATCH _ ids ids2 w).
Qed.

Lemma purge_completed_with_ttl_run cutoff w :
  wf w -> (forall n, pool_ready n = true) ->
  let now := clock_at (tick w) in
  let due r := match cutoff with Some c => past_global_cutoff c r | None => false end
               || past_own_ttl now r in
  exists ids w',
    purge_completed_with_ttl cutoff w = (Ok (count ids), w')
    /\ wf w' /\ db w' = purged_db false ids (db w) /\ db_jobs (db w') = db_jobs (db w)
    /\ NoDup ids
    /\ Forall (fun id => exists r, db_archived_jobs (db w) !! id = Some r /\ due r = true) ids
    /\ (count ids < 100000 ->
        forall k r, db_archived_jobs (db w') !! k = Some r -> due r = false).
Proof.
  intros Hwf Hp now due. unfold purge_completed_with_ttl. erewrite bind_ok by done.
  fold (clock_at (tick w)) now. change (mkWorld (db w) (S (tick w))) with (bump 1 w).
  assert (Hglobal : exists ids1 w1,
    match cutoff with
    | Some c => drain_batches (stateless (purge_archived_where (past_global_cutoff c) false)) tt
    | None => mret 0
    end (bump 1 w) = (Ok (count ids1), w1) /\ wf w1
    /\ swept (fun r => match cutoff with Some c => past_global_cutoff c r | None => false end)
         false 100000 ids1 (db w) (db w1)).
  { destruct cutoff as [c|].
    - apply (drain_purge (past_global_cutoff c) false MAX_BATCHES_PER_SWEEP 0 (bump 1 w));
        [by apply wf_bump|done].
    - exists [], (bump 1 w). split_and!; [done|by apply wf_bump|].
      split_and!; [by rewrite purged_db_nil|constructor..|done]. }
  destruct Hglobal as (ids1 & w1 & Heq1 & Hwf1 & Hsw1). pose proof Hsw1 as (Hd1 & _).
  rewrite (bind_ok _ _ _ _ _ Heq1).
  destruct (drain_purge (past_own_ttl now) false MAX_BATCHES_PER_SWEEP 0 w1 Hwf1 Hp)
    as (ids2 & w2 & Heq2 & Hwf2 & Hsw2).
  unfold drain_batches. rewrite (bind_ok _ _ _ _ _ Heq2). rewrite Hd1 in Hsw1, Hsw2.
  destruct (swept_or _ _ false 100000 ids1 ids2 w (db w2) Hwf Hsw1 Hsw2)
    as (Hd & Hnd & Hids & Hend).
  exists (ids1 ++ ids2), w2. split_and!; try done.
  - unfold mret, M_ret. do 2 f_equal. unfold count. rewrite length_app. lia.
  - rewrite Hd. apply purged_db_tables.
Qed.


(** ** Mass cancellation *)

Lemma archive_effect_nil f d : archive_effect f [] d d.
Proof. split_and!; try done. by intros r ?%elem_of_nil. Qed.

Lemma archive_effect_app f l1 l2 d d1 d2 :
  (forall r, r ∈ l2 -> jr_id r ∉ jr_id <$> l1) ->
  archive_effect f l1 d d1 -> archive_effect f l2 d1 d2 -> archive_effect f (l1 ++ l2) d d2.
Proof.
  intros Hdisj (H1 & H1' & HD1 & HC1) (H2 & H2' & HD2 & HC2). split_and!; [| |congruence|].
  - intros r [Hr|Hr]%elem_of_app; [|by apply H2].
    assert (Hn : jr_id r ∉ jr_id <$> l2).
    { intros (r' & Heq & Hr')%list_elem_of_fmap. apply (Hdisj r' Hr'). rewrite <- Heq.
      by apply list_elem_of_fmap_2. }
    destruct (H2' _ Hn) as [-> ->]. by apply H1.
  - intros id Hn. rewrite fmap_app, not_elem_of_app in Hn. destruct Hn as [Hn1 Hn2].
    destruct (H2' _ Hn2) as [-> ->]. by apply H1'.
  - intros id. rewrite fmap_app, not_elem_of_app. intros [Hn1 Hn2]. by rewrite HC2, HC1.
Qed.

Lemma archive_effect_subset f rows d d' :
  archive_effect f rows d d' -> db_jobs d' ⊆ db_jobs d.
Proof.
  intros (H1 & H2 & _). apply map_subseteq_spec. intros id r Hr.
  destruct (decide (id ∈ jr_id <$> rows)) as [(r' & -> & Hin)%list_elem_of_fmap|Hn].
  - by rewrite (proj1 (H1 _ Hin)) in Hr.
  - by rewrite <- (proj1 (H2 _ Hn)).
Qed.

(** One batch of the loop. *)
Lemma mass_batch now error (p : JobRow -> bool) w :
  wf w -> pool_ready (tick w) = true ->
  let f := cancelled_row now (Some error) in
  exists rows w',
    write_transaction (
      rows ← sql_select jobs p;
      archive_pending_rows (sql_limit MASS_ARCHIVE_BATCH rows) now error) w
      = (Ok (f <$> rows), w')
    /\ wf w' /\ archive_effect f rows (db w) (db w')
    /\ NoDup (jr_id <$> rows)
    /\ (forall row, row ∈ rows -> db_jobs (db w) !! jr_id row = Some row /\ p row = true)
    /\ (count rows < MASS_ARCHIVE_BATCH -> forall row,
         db_jobs (db w) !! jr_id row = Some row -> p row = true -> row ∈ rows).
Proof.
  intros Hwf Hp f. destruct (selected_rows p (bump 1 w) (wf_bump 1 w Hwf)) as (Hnd & Hrows & Hin).
  set (all := filter _ _) in *.
  set (rows := sql_limit MASS_ARCHIVE_BATCH all).
  assert (Hsub : forall r, r ∈ rows -> r ∈ all) by apply sql_limit_elem_of.
  destruct (archive_rows_eq (fun r => r) f rows (bump 1 w)) as (w' & Heq & Hwf' & _ & Heff).
  - by apply wf_bump.
  - apply ends_cancelled.
  - eapply sublist_NoDup; [exact Hnd|]. apply fmap_sublist, sql_limit_sublist.
  - apply Forall_forall. intros r Hr. by apply Hin, Hsub.
  - exists rows, w'. split_and!; [|done|done| | |].
    + apply write_transaction_ok; [done|]. by erewrite bind_ok.
    + eapply sublist_NoDup; [exact Hnd|]. apply fmap_sublist, sql_limit_sublist.
    + intros r Hr. by apply Hin, Hsub.
    + intros Hshort r Hr Hpr. unfold rows, count, sql_limit in *.
      destruct (Z.ltb_spec MASS_ARCHIVE_BATCH 0); [done|]. rewrite length_take in Hshort.
      rewrite take_ge by (unfold MASS_ARCHIVE_BATCH in *; lia). by apply Hin.
Qed.

Lemma archive_loop_run fuel now error (p : JobRow -> bool) total w :
  wf w -> (forall n, pool_ready n = true) -> (size (db_jobs (db w)) < fuel)%nat ->
  let f := cancelled_row now (Some error) in
  exists rows w',
    archive_loop fuel now error p (fun _ => mret tt) total w
      = (Ok (Some (total + count rows)), w')
    /\ wf w' /\ archive_effect f rows (db w) (db w') /\ NoDup (jr_id <$> rows)
    /\ (forall row, row ∈ rows <-> db_jobs (db w) !! jr_id row = Some row /\ p row = true).
Proof.
  intros Hwf Hp Hfuel f. revert total w Hwf Hfuel.
  induction fuel as [|fuel IH]; intros total w Hwf Hfuel; [lia|].
  destruct (mass_batch now error p w Hwf (Hp _)) as (b & w1 & Heq & Hwf1 & Heff & Hnd & Hb & Hall).
  fold f in Heq, Heff. cbn [archive_loop]. rewrite (bind_ok _ _ _ _ _ Heq).
  assert (Hc : count (f <$> b) = count b) by (unfold count; by rewrite length_fmap).
  erewrite bind_ok; [|by destruct (bool_decide _)]. rewrite Hc.
  destruct (Z.ltb_spec (count b) MASS_ARCHIVE_BATCH) as [Hlt|Hge].
  { exists b, w1. split_and!; try done. intros row. split; [by apply Hb|].
    intros [Hk Hpr]. by apply Hall. }
  assert (Hgone : forall r, r ∈ b -> db_jobs (db w1) !! jr_id r = None) by apply Heff.
  assert (Hsize : (size (db_jobs (db w1)) < fuel)%nat).
  { assert (size (db_jobs (db w1)) < size (db_jobs (db w)))%nat; [|lia].
    destruct b as [|r b]; [done|]. apply map_subset_size. split;
      [by eapply archive_effect_subset|].
    intros Hsub. assert (Hr : db_jobs (db w1) !! jr_id r = Some r).
    { eapply lookup_weaken; [apply Hb; left|done]. }
    by rewrite Hgone in Hr by left. }
  destruct (IH (total + count b) w1 Hwf1 Hsize) as (b2 & w2 & Heq2 & Hwf2 & Heff2 & Hnd2 & Hb2).
  assert (Hdisj : forall r, r ∈ b2 -> jr_id r ∉ jr_id <$> b).
  { intros r [Hr _]%Hb2 (r' & Hid & Hr')%list_elem_of_fmap.
    by rewrite Hid, Hgone in Hr. }
  exists (b ++ b2), w2. split_and!.
  - rewrite Heq2. do 3 f_equal. unfold count. rewrite length_app. lia.
  - done.
  - by eapply archive_effect_app.
  - rewrite fmap_app. apply NoDup_app. split_and!; [done| |done].
    intros id H1 (r & -> & Hr)%list_elem_of_fmap. by apply (Hdisj r).
  - intros row. rewrite elem_of_app, Hb2. split.
    + intros [Hr|[Hr Hpr]]; [by apply Hb|]. split; [|done].
      eapply lookup_weaken; [exact Hr|by eapply archive_effect_subset].
    + intros [Hr Hpr]. destruct (decide (jr_id row ∈ jr_id <$> b)) as [Hid|Hn].
      * left. apply list_elem_of_fmap in Hid as (r' & Hid & Hr').
        destruct (Hb _ Hr') as [Hk _]. rewrite <- Hid in Hk. by replace row with r' by congruence.
      * right. destruct Heff as (_ & Hkeep & _). by rewrite (proj1 (Hkeep _ Hn)).
Qed.

(** Mass cancellation (expiry, and cancelling a queue's or a task's backlog)
    terminates and archives exactly the selected rows: every live job that matches
    ends in the archive as cancelled with the given reason, counted once however many
    batches it takes, and no other job moves. *)
Theorem archive_pending_in_batches_spec now error (p : JobRow -> bool) w :
  wf w -> (forall n, pool_ready n = true) ->
  exists rows w',
    archive_pending_in_batches now error p (fun _ => mret tt) w = (Ok (count rows), w')
    /\ wf w' /\ NoDup (jr_id <$> rows)
    /\ (forall row, row ∈ rows <-> db_jobs (db w) !! jr_id row = Some row /\ p row = true)
    /\ archive_effect (cancelled_row now (Some error)) rows (db w) (db w').
Proof.
  intros Hwf Hp. unfold archive_pending_in_batches. erewrite bind_ok by done.
  destruct (archive_loop_run (S (size (db_jobs (db w)))) now error p 0 w Hwf Hp ltac:(lia))
    as (rows & w' & Heq & Hwf' & Heff & Hnd & Hrows).
  exists rows, w'. rewrite (bind_ok _ _ _ _ _ Heq). by split_and!.
Qed.

(** *** Preservation of the invariant *)

Lemma keeps_drain {St} (I : World -> Prop) (f : St -> DbM (Z * St)) s :
  (forall s, keeps I (f s)) -> keeps I (drain_batches f s).
Proof.
  intros Hf. unfold drain_batches. generalize 0 as total. revert s.
  induction MAX_BATCHES_PER_SWEEP as [|n IH]; intros s total; cbn [drain_loop].
  - apply keeps_ret.
  - apply keeps_bind; [apply Hf|]. intros [removed s']. case_match; [apply keeps_ret|apply IH].
Qed.

Lemma keeps_purge_ids ids c : keeps wf (purge_archived_id_batch ids c).
Proof.
  intros w Hwf. unfold purge_archived_id_batch. case_bool_decide; [done|].
  rewrite (bind_ok _ _ _ _ _ (delete_job_relations_eq ids w)). destruct c.
  - rewrite (bind_ok _ _ _ _ _ (delete_job_diagnostics_eq ids _)).
    exact (wf_purged_db true ids w Hwf).
  - erewrite bind_ok by done. exact (wf_purged_db false ids w Hwf).
Qed.

#[local] Hint Resolve keeps_purge_ids : keeps.

Lemma keeps_purge_where p c : keeps wf (purge_archived_where p c).
Proof. unfold purge_archived_where. solve_keeps. Qed.

Lemma keeps_stateless (I : World -> Prop) m s : keeps I m -> keeps I (stateless m s).
Proof. intros Hm. unfold stateless. by solve_keeps. Qed.

#[local] Hint Resolve keeps_purge_where keeps_stateless : keeps.

Lemma keeps_purge_completed t : keeps wf (purge_completed t).
Proof. apply keeps_drain. eauto with keeps. Qed.

Lemma keeps_purge_completed_with_ttl c : keeps wf (purge_completed_with_ttl c).
Proof.
  apply keeps_bind; [apply keeps_now_millis, _|]. intros now. apply keeps_bind.
  - destruct c; [apply keeps_drain; eauto with keeps|apply keeps_ret].
  - intros g. apply keeps_bind; [apply keeps_drain; eauto with keeps|].
    intros p. apply keeps_ret.
Qed.

Lemma keeps_trim_archived_over ns keep : keeps wf (trim_archived_over ns keep).
Proof.
  unfold trim_archived_over, trim_oldest. apply keeps_bind; [solve_keeps|].
  intros total. apply keeps_drain. intros s. solve_keeps.
Qed.

Lemma keeps_archive_pending_rows now error (p : JobRow -> bool) n :
  keeps_ok wf (rows ← sql_select jobs p; archive_pending_rows (sql_limit n rows) now error).
Proof.
  intros w Hwf. apply wp_bind. unfold wp at 1. simpl.
  destruct (selected_rows p w Hwf) as (Hnd & _ & Hin).
  destruct (archive_rows_eq (fun r => r) (cancelled_row now (Some error))
    (sql_limit n (filter (fun r => Is_true (p r)) (scan (db_jobs (db w))))) w Hwf)
    as (w' & Heq & Hwf' & _).
  - apply ends_cancelled.
  - eapply sublist_NoDup; [exact Hnd|]. apply fmap_sublist, sql_limit_sublist.
  - apply Forall_forall. intros r Hr%sql_limit_elem_of. by apply Hin.
  - unfold wp, archive_pending_rows. by rewrite Heq.
Qed.

Lemma keeps_archive_pending now error p (on_batch : list JobRow -> DbM unit) :
  (forall l, keeps wf (on_batch l)) -> keeps wf (archive_pending_in_batches now error p on_batch).
Proof.
  intros Hb. apply keeps_bind; [apply keeps_gets|]. intros fuel.
  apply keeps_bind; [|intros; apply keeps_ret]. generalize 0 as total.
  induction fuel as [|fuel IH]; intros total; cbn [archive_loop]; [apply keeps_ret|].
  apply keeps_bind; [apply keeps_write_transaction; [apply _|apply keeps_archive_pending_rows]|].
  intros rows. apply keeps_bind; [case_match; [apply keeps_ret|apply Hb]|].
  intros _. case_match; [apply keeps_ret|apply IH].
Qed.

Lemma keeps_expire_pending_jobs now : keeps wf (expire_pending_jobs now).
Proof. apply keeps_archive_pending. intros; apply keeps_ret. Qed.

Lemma keeps_cancel_pending_by_queue q : keeps wf (cancel_pending_by_queue q).
Proof.
  apply keeps_bind; [apply keeps_now_millis, _|]. intros now.
  apply keeps_archive_pending. intros; apply keeps_ret.
Qed.

Lemma keeps_cancel_pending_by_task t : keeps wf (cancel_pending_by_task t).
Proof.
  apply keeps_bind; [apply keeps_now_millis, _|]. intros now.
  apply keeps_archive_pending. intros; apply keeps_ret.
Qed.

(** Statements on the error records do not touch the job tables. *)
Lemma keeps_insert_error id e : keeps wf (sql_insert job_errors id e).
Proof.
  intros w Hwf. destruct (sql_insert_inv job_errors id e w) as [->|(_ & _ & ->)]; done.
Qed.

Lemma keeps_get_job I `{!TickMono I} id ns : keeps I (get_job id ns).
Proof. unfold get_job. solve_keeps. Qed.

#[local] Hint Resolve keeps_insert_error keeps_get_job : keeps.

Lemma keeps_record_error id a e ns : keeps wf (record_error id a e ns).
Proof. unfold record_error, hidden_job. solve_keeps. Qed.

Lemma keeps_purge_job_errors t : keeps wf (purge_job_errors t).
Proof.
  apply keeps_drain. intros s. apply keeps_stateless. apply keeps_write_transaction; [apply _|].
  apply keeps_keeps_ok, keeps_bind; [apply keeps_gets|]. by intros rows w.
Qed.
End sweeps.

#[export] Hint Resolve keeps_purge_completed keeps_purge_completed_with_ttl
  keeps_trim_archived_over keeps_expire_pending_jobs keeps_cancel_pending_by_queue
  keeps_cancel_pending_by_task keeps_insert_error keeps_get_job keeps_record_error
  keeps_purge_job_errors : keeps.

(** ** Examples *)

Section examples.
#[local] Existing Instances demo_env demo_engine demo_uuid_fresh demo_scan_complete.


Lemma archive_pending_in_batches_spec_witness :
  exists rows w',
    archive_pending_in_batches 7000 "purged" (fun r => jr_status r =? as_int Pending)
      (fun _ => mret tt) one_world = (Ok (count rows), w')
    /\ wf w' /\ uuid_v7 1 ∈ jr_id <$> rows.
Proof.
  destruct (archive_pending_in_batches_spec 7000 "purged" (fun r => jr_status r =? as_int Pending)
    one_world wf_one_world (fun _ => eq_refl)) as (rows & w' & Heq & Hwf & Hnd & Hrows & _).
  exists rows, w'. split_and!; [exact Heq|exact Hwf|].
  set (r := row_of (into_job_at (uuid_v7 1) (clock_at 0) (demo_prio 3 []))).
  change (uuid_v7 1) with (jr_id r). apply list_elem_of_fmap_2, Hrows. split; by vm_compute.
Defined.

(** A job that expires at 2000, and a job that depends on it. *)
Definition expiring_job : NewJob :=
  mkNewJob "default" "mail.send" [x01] 0 0 3 30000 None None None [] (Some 2000) None
    (Some "acme") None None.
Definition expiring_world : World :=
  snd (enqueue (demo_prio 3 [uuid_v7 1]) (snd (enqueue expiring_job demo_world))).

End examples.
