(* ===== verification/Drain.v ===== *)
(** * Draining one table ([diesel_common/purge.rs])

    The retention sweeps of the logs, metrics, errors, dead letters and audit records share
    a shape: select the rows past a bound, up to a batch, and delete them by id, in
    batches until one comes up short. *)
From S2P Require Import Prelude Job Db Store Purge.

(** ** Tables *)

(** What a setter and its getter owe each other. *)
Class LawfulTable {K R} `{Countable K} (t : Table K R) : Prop := {
  table_get_set : forall m d, t_get t (t_set t m d) = m;
  table_set_set : forall m m' d, t_set t m (t_set t m' d) = t_set t m d;
  table_set_get : forall d, t_set t (t_get t d) d = d
}.

#[export] Instance lawful_task_logs : LawfulTable task_logs.
Proof. split; [done|done|by intros []]. Qed.
#[export] Instance lawful_task_metrics : LawfulTable task_metrics.
Proof. split; [done|done|by intros []]. Qed.
#[export] Instance lawful_job_errors : LawfulTable job_errors.
Proof. split; [done|done|by intros []]. Qed.
#[export] Instance lawful_dead_letter : LawfulTable dead_letter.
Proof. split; [done|done|by intros []]. Qed.
#[export] Instance lawful_audit_log : LawfulTable audit_log.
Proof. split; [done|done|by intros []]. Qed.

(** ** The sweep *)

Section drain.
Context {E : Env} {G : Engine} {R : Type} (t : Table string R) (id_of : R -> string).

(** One batch. *)
Definition delete_where (p : R -> bool) : DbM Z :=
  write_transaction (
    rows ← sql_select t p;
    let ids := id_of <$> sql_limit PURGE_BATCH rows in
    sql_delete t (fun r => mem (id_of r) ids)).

Definition drain_where (p : R -> bool) : DbM Z := drain_batches (stateless (delete_where p)) tt.
End drain.

Section laws.
Context {E : Env} {G : Engine} `{!ScanComplete G} {R : Type} (t : Table string R) (id_of : R -> string).
Context `{!LawfulTable t} (Hpool : forall n, pool_ready n = true).

(** Rows under their own ids. *)
Definition keyed (m : gmap string R) : Prop := map_Forall (fun k r => id_of r = k) m.

(** A part of a table is gone: each row of it satisfied [p]. *)
Definition part_gone (p : R -> bool) (m m' : gmap string R) : Prop :=
  m' ⊆ m /\ forall k r, m !! k = Some r -> m' !! k = None -> p r = true.

Lemma part_gone_trans p m1 m2 m3 : part_gone p m1 m2 -> part_gone p m2 m3 -> part_gone p m1 m3.
Proof.
  intros [H1 H2] [H3 H4]. split; [by etransitivity|]. intros k r Hk Hn.
  destruct (m2 !! k) as [r2|] eqn:Hk2; [|by eapply H2].
  rewrite (lookup_weaken _ _ _ _ Hk2 H1) in Hk. injection Hk as ->. by eapply H4.
Qed.

Lemma keyed_subset m m' : keyed m -> m' ⊆ m -> keyed m'.
Proof. intros Hk Hs k r Hr. eapply Hk, lookup_weaken; [exact Hr|done]. Qed.

(** A batch removes as many rows as it reports, and all that are due if it comes up short. *)
Lemma delete_where_run p w :
  keyed (t_get t (db w)) ->
  exists m', delete_where t id_of p w
      = (Ok (Z.of_nat (size (t_get t (db w))) - Z.of_nat (size m')),
         mkWorld (t_set t m' (db w)) (S (tick w)))
    /\ part_gone p (t_get t (db w)) m'
    /\ (Z.of_nat (size (t_get t (db w))) - Z.of_nat (size m') < PURGE_BATCH ->
        m' = keep_where p (t_get t (db w))).
Proof.
  set (m := t_get t (db w)). intros Hk. unfold delete_where.
  set (rows := filter (fun r => Is_true (p r)) (scan m)).
  set (ids := id_of <$> sql_limit PURGE_BATCH rows).
  set (m' := keep_where (fun r => mem (id_of r) ids) m). exists m'. split.
  { apply write_transaction_ok; [apply Hpool|]. erewrite bind_ok by done. simpl. fold m rows ids.
    unfold sql_delete. simpl. fold m. done. }
  assert (Hrows : forall r, r ∈ rows <-> p r = true /\ m !! id_of r = Some r).
  { intros r. unfold rows. rewrite list_elem_of_filter, Is_true_true, elem_of_scan. split.
    - intros [Hp [k Hr]]. by rewrite (Hk _ _ Hr).
    - intros [Hp Hr]. split; [done|by eexists]. }
  assert (Hnd : NoDup ids).
  { eapply sublist_NoDup; [|apply fmap_sublist, (sql_limit_sublist PURGE_BATCH rows)].
    eapply sublist_NoDup; [apply (scan_NoDup_key id_of m); exact Hk|]. apply fmap_sublist, sublist_filter. }
  assert (Hids : Forall (fun id => is_Some (m !! id)) ids).
  { apply Forall_forall. intros id (r & -> & Hr)%list_elem_of_fmap.
    apply sql_limit_elem_of, Hrows in Hr as [_ Hr]. by rewrite Hr. }
  pose proof (size_keep_where id_of m ids Hk Hnd Hids) as Hsize. fold m' in Hsize. split.
  - split; [apply keep_where_subset|]. intros k r Hr Hn.
    destruct (mem (id_of r) ids) eqn:Hm.
    2:{ assert (Hs : m' !! k = Some r) by (by apply keep_where_lookup). congruence. }
    apply bool_decide_eq_true, list_elem_of_fmap in Hm as (r' & Hid & Hr').
    apply sql_limit_elem_of, Hrows in Hr' as [Hp Hr']. rewrite <- Hid, (Hk _ _ Hr), Hr in Hr'. congruence.
  - intros Hlt. assert (Hall : sql_limit PURGE_BATCH rows = rows).
    { assert (Hlen : (length (sql_limit PURGE_BATCH rows) < 500)%nat).
      { unfold ids in Hsize. rewrite length_fmap in Hsize. unfold PURGE_BATCH in *. lia. }
      unfold sql_limit, PURGE_BATCH in *. simpl in *. rewrite length_take in Hlen.
      apply take_ge. lia. }
    apply map_eq. intros k. apply option_eq. intros r. unfold m'. rewrite !keep_where_lookup.
    assert (Hin : m !! k = Some r -> mem (id_of r) ids = p r).
    { intros Hr. pose proof (Hk _ _ Hr) as Hkr. unfold mem, ids. rewrite Hall.
      destruct (p r) eqn:Hp.
      - apply bool_decide_eq_true, list_elem_of_fmap_2, Hrows. by rewrite Hkr.
      - apply bool_decide_eq_false. intros (r' & Hid & [Hp' Hr']%Hrows)%list_elem_of_fmap.
        rewrite <- Hid, Hkr, Hr in Hr'. congruence. }
    split; intros [Hr Hx]; (split; [done|]); rewrite (Hin Hr) in *; done.
Qed.

(** What a sweep leaves: it reports how many rows it removed, each of them due, and unless it
    has used up its batches nothing due is left. *)
Lemma drain_loop_run p fuel total w :
  keyed (t_get t (db w)) ->
  exists m' n, drain_loop fuel (stateless (delete_where t id_of p)) tt total w
      = (Ok (total + (Z.of_nat (size (t_get t (db w))) - Z.of_nat (size m'))),
         mkWorld (t_set t m' (db w)) (n + tick w))
    /\ part_gone p (t_get t (db w)) m'
    /\ (Z.of_nat (size (t_get t (db w))) - Z.of_nat (size m') < Z.of_nat fuel * PURGE_BATCH ->
        m' = keep_where p (t_get t (db w))).
Proof.
  revert total w. induction fuel as [|fuel IH]; intros total w Hk.
  { exists (t_get t (db w)), 0%nat. rewrite table_set_get, Z.sub_diag, Z.add_0_r. split_and!.
    - by destruct w.
    - split; [done|]. intros k r Hr Hn. congruence.
    - lia. }
  cbn [drain_loop]. destruct (delete_where_run p w Hk) as (m1 & Heq & Hgone & Hshort).
  erewrite bind_ok by (unfold stateless; by erewrite bind_ok by exact Heq). cbn [fst snd].
  pose proof (map_subseteq_size _ _ (proj1 Hgone)) as Hle.
  destruct (Z.ltb_spec (Z.of_nat (size (t_get t (db w))) - Z.of_nat (size m1)) PURGE_BATCH) as [Hlt|Hge].
  { exists m1, 1%nat. split_and!; [done|done|]. intros _. by apply Hshort. }
  set (w1 := mkWorld (t_set t m1 (db w)) (S (tick w))) in *.
  assert (Hm1 : t_get t (db w1) = m1) by (unfold w1; simpl; apply table_get_set).
  destruct (IH (total + (Z.of_nat (size (t_get t (db w))) - Z.of_nat (size m1))) w1) as (m' & n & Heq' & Hgone' & Hend).
  { rewrite Hm1. eapply keyed_subset; [exact Hk|apply Hgone]. }
  rewrite Hm1 in *. exists m', (n + 1)%nat. split_and!.
  - rewrite Heq'. unfold w1. simpl. rewrite table_set_set. f_equal; [f_equal; lia|f_equal; lia].
  - by eapply part_gone_trans.
  - intros Hlt. rewrite Hend by (unfold PURGE_BATCH in *; lia).
    apply map_eq. intros k. apply option_eq. intros r. rewrite !keep_where_lookup. split.
    + intros [Hr Hp]. split; [|done]. eapply lookup_weaken; [exact Hr|apply Hgone].
    + intros [Hr Hp]. split; [|done]. destruct (m1 !! k) as [r1|] eqn:Hr1.
      * rewrite (lookup_weaken _ _ _ _ Hr1 (proj1 Hgone)) in Hr. done.
      * pose proof (proj2 Hgone _ _ Hr Hr1). congruence.
Qed.

Lemma drain_where_run p w :
  keyed (t_get t (db w)) ->
  exists m' n, drain_where t id_of p w
      = (Ok (Z.of_nat (size (t_get t (db w))) - Z.of_nat (size m')),
         mkWorld (t_set t m' (db w)) (n + tick w))
    /\ part_gone p (t_get t (db w)) m'
    /\ (Z.of_nat (size (t_get t (db w))) - Z.of_nat (size m') < 100000 ->
        m' = keep_where p (t_get t (db w))).
Proof.
  intros Hk. destruct (drain_loop_run p MAX_BATCHES_PER_SWEEP 0 w Hk) as (m' & n & Heq & Hgone & Hend).
  by exists m', n.
Qed.
End laws.

(** A sweep of a table that a predicate does not read. *)
Lemma keeps_drain_where {E : Env} {G : Engine} {R} (t : Table string R) (id_of : R -> string)
    (I : World -> Prop) `{!TickMono I} `{!Aside I t} p : keeps I (drain_where t id_of p).
Proof.
  unfold drain_where, drain_batches. generalize 0 as total, MAX_BATCHES_PER_SWEEP as fuel.
  intros total fuel. revert total. induction fuel as [|fuel IH]; intros total; [apply keeps_ret|].
  cbn [drain_loop]. apply keeps_bind.
  - unfold stateless, delete_where. solve_keeps.
  - intros [removed []]. case_match; [apply keeps_ret|apply IH].
Qed.
