(* ===== verification/Telemetry.v ===== *)
(** * Logs, metrics, replays, the audit trail and the archive
      ([diesel_common/{logs,metrics,audit,archival}.rs], [sqlite/archival.rs])

    What the queue writes down beside the jobs: the lines a task logs, the replays of a job,
    the calls the server answered; how each is read back and how it ages out. *)
From S2P Require Import Prelude Job Db Store Enqueue Dequeue Transitions Listing Purge Drain.

(** ** Logs *)

Section logs.
Context {E : Env} {G : Engine}.

Definition write_task_log (job_id task_name level message : string)
    (extra namespace : option string) : DbM unit :=
  conn ;;
  id ← now_v7;
  now ← now_millis;
  sql_insert task_logs id (mkTaskLogRow id job_id task_name level message extra now namespace).

(** The [WHERE] of the lines of one job. *)
Definition log_of (job_id : string) (namespace : option string) (r : TaskLogRow) : bool :=
  bool_decide (tl_job_id r = job_id)
  && opt_filter (fun ns => bool_decide (tl_namespace r = Some ns)) namespace.

Definition get_task_logs (job_id : string) (namespace : option string) : DbM (list TaskLogRow) :=
  conn ;;
  rows ← sql_select task_logs (log_of job_id namespace);
  mret (order_by (asc_Z tl_logged_at) rows).

Definition str_gt (s t : string) : bool := str_lt t s.

Definition get_task_logs_after (job_id : string) (after_id namespace : option string)
    : DbM (list TaskLogRow) :=
  conn ;;
  rows ← sql_select task_logs (fun r =>
    log_of job_id namespace r && opt_filter (fun cursor => str_gt (tl_id r) cursor) after_id);
  mret (order_by (asc_str tl_id) rows).

Definition query_task_logs (task_name level : option string) (since_ms limit : Z)
    (namespace : option string) : DbM (list TaskLogRow) :=
  conn ;;
  rows ← sql_select task_logs (fun r =>
    (since_ms <=? tl_logged_at r)
    && opt_filter (fun n => bool_decide (tl_task_name r = n)) task_name
    && opt_filter (fun l => bool_decide (tl_level r = l)) level
    && opt_filter (fun ns => bool_decide (tl_namespace r = Some ns)) namespace);
  mret (sql_limit limit (order_by (desc (asc_Z tl_logged_at)) rows)).

Definition logged_before (older_than_ms : Z) (r : TaskLogRow) : bool := tl_logged_at r <? older_than_ms.

Definition purge_task_logs (older_than_ms : Z) : DbM Z :=
  drain_where task_logs tl_id (logged_before older_than_ms).
End logs.

(** ** Metrics and replays *)

Section metrics.
Context {E : Env} {G : Engine}.

Definition get_metrics (name : option string) (since_ms : Z) (namespace : option string)
    : DbM (list TaskMetricRow) :=
  conn ;;
  rows ← sql_select task_metrics (fun r =>
    (since_ms <=? tm_recorded_at r)
    && opt_filter (fun n => bool_decide (tm_task_name r = n)) name
    && opt_filter (fun ns => bool_decide (tm_namespace r = Some ns)) namespace);
  mret (order_by (desc (asc_Z tm_recorded_at)) rows).

Definition recorded_before (older_than_ms : Z) (r : TaskMetricRow) : bool :=
  tm_recorded_at r <? older_than_ms.

Definition purge_metrics (older_than_ms : Z) : DbM Z :=
  drain_where task_metrics tm_id (recorded_before older_than_ms).

Definition record_replay (original_job_id replay_job_id : string)
    (original_result replay_result : option bytes) (original_error replay_error : option string)
    : DbM unit :=
  conn ;;
  id ← now_v7;
  now ← now_millis;
  sql_insert replay_history id (mkReplayHistoryRow id original_job_id replay_job_id now
    original_result replay_result original_error replay_error).

Definition get_replay_history (original_job_id : string) : DbM (list ReplayHistoryRow) :=
  conn ;;
  rows ← sql_select replay_history (fun r => bool_decide (rh_original_job_id r = original_job_id));
  mret (order_by (desc (asc_Z rh_replayed_at)) rows).
End metrics.

(** ** The audit trail *)

Definition AUDIT_ACCESS_WRITE : string := "write".
Definition AUDIT_ACCESS_READ : string := "read".

Record AuditRecord := mkAuditRecord {
  ad_id : string;
  ad_namespace : string;
  ad_at_ms : Z;
  ad_principal_kind : string;
  ad_token_id : string;
  ad_principal : string;
  ad_operation : string;
  ad_target_kind : option string;
  ad_target : option string;
  ad_outcome : string;
  ad_access : string
}.

Definition audit_row (r : AuditRecord) : AuditRow :=
  mkAuditRow (ad_id r) (ad_namespace r) (ad_at_ms r) (ad_token_id r) (ad_principal r)
    (ad_operation r) (ad_target_kind r) (ad_target r) (ad_outcome r) (ad_principal_kind r)
    (ad_access r).

Definition audit_record (r : AuditRow) : AuditRecord :=
  mkAuditRecord (au_id r) (au_namespace r) (au_at_ms r) (au_principal_kind r) (au_token_id r)
    (au_principal r) (au_operation r) (au_target_kind r) (au_target r) (au_outcome r)
    (au_access r).

Record AuditCutoffs := mkAuditCutoffs { writes_before_ms : Z; reads_before_ms : Z }.

Definition uniform_cutoffs (before_ms : Z) : AuditCutoffs := mkAuditCutoffs before_ms before_ms.

Record AuditFilter := mkAuditFilter {
  af_token_id : option string;
  af_principal_kind : option string;
  af_target_kind : option string;
  af_target : option string;
  af_since_ms : option Z;
  af_until_ms : option Z
}.

(** [AuditFilter::matches], the filter where the query language cannot express it. *)
Definition field (want : option string) (have : option string) : bool :=
  match want with
  | None => true
  | Some w => bool_decide (have = Some w)
  end.

Definition audit_matches (f : AuditFilter) (r : AuditRecord) : bool :=
  field (af_token_id f) (Some (ad_token_id r))
  && field (af_principal_kind f) (Some (ad_principal_kind r))
  && field (af_target_kind f) (ad_target_kind r)
  && field (af_target f) (ad_target r)
  && match af_since_ms f with None => true | Some since => since <=? ad_at_ms r end
  && match af_until_ms f with None => true | Some until => ad_at_ms r <? until end.

(** [column = value], where a null column equals nothing. *)
Definition col_eq (column : option string) (value : string) : bool :=
  match column with
  | Some c => bool_decide (c = value)
  | None => false
  end.

Section audit.
Context {E : Env} {G : Engine}.

Definition append_audit (records : list AuditRecord) : DbM unit :=
  if bool_decide (length records = 0%nat) then mret tt
  else
    let rows := audit_row <$> records in
    write_transaction (for_each (fun row => sql_insert_ignore audit_log (au_id row) row ;; mret tt) rows).

Definition list_audit_after (namespace : string) (f : AuditFilter) (limit : Z)
    (after : option (Z * string)) : DbM (list AuditRecord) :=
  if limit <=? 0 then mret []
  else
    conn ;;
    rows ← sql_select audit_log (fun r =>
      bool_decide (au_namespace r = namespace)
      && before_cursor after (au_at_ms r) (au_id r)
      && opt_filter (fun t => bool_decide (au_token_id r = t)) (af_token_id f)
      && opt_filter (fun k => bool_decide (au_principal_kind r = k)) (af_principal_kind f)
      && opt_filter (col_eq (au_target_kind r)) (af_target_kind f)
      && opt_filter (col_eq (au_target r)) (af_target f)
      && opt_filter (fun since => since <=? au_at_ms r) (af_since_ms f)
      && opt_filter (fun until => au_at_ms r <? until) (af_until_ms f));
    mret (audit_record <$> sql_limit limit
      (order_by (then_by (desc (asc_Z au_at_ms)) (desc (asc_str au_id))) rows)).

(** What one pass of the purge selects. *)
Definition audit_before (namespace : string) (before_ms : Z) (access : option string)
    (r : AuditRow) : bool :=
  bool_decide (au_namespace r = namespace) && (au_at_ms r <? before_ms)
  && opt_filter (fun a => bool_decide (au_access r = a)) access.

Definition purge_audit (namespace : string) (cutoffs : AuditCutoffs) : DbM Z :=
  let drain before_ms access := drain_where audit_log au_id (audit_before namespace before_ms access) in
  all ← drain (writes_before_ms cutoffs) None;
  reads ← drain (reads_before_ms cutoffs) (Some AUDIT_ACCESS_READ);
  mret (all + reads).
End audit.

(** ** The archive *)

(** [completed_at < c OR (completed_at = c AND id < i)], where a null column is neither. *)
Definition before_completed (after : option (Z * string)) (completed_at : option Z) (id : string) : bool :=
  opt_filter (fun '(c, i) =>
    match completed_at with
    | Some t => (t <? c) || ((t =? c) && str_lt id i)
    | None => false
    end) after.

(** [status IN (complete, dead, cancelled) AND completed_at < cutoff] *)
Definition archivable (cutoff_ms : Z) (r : JobRow) : bool :=
  ((jr_status r =? as_int Complete) || (jr_status r =? as_int Dead)
   || (jr_status r =? as_int Cancelled))
  && opt_lt (jr_completed_at r) cutoff_ms.

Section archive.
Context {E : Env} {G : Engine}.

Definition list_archived (limit offset : Z) (namespace : option string) : DbM (list Job) :=
  conn ;;
  rows ← sql_select archived_jobs (fun r =>
    opt_filter (fun ns => bool_decide (ar_namespace r = Some ns)) namespace);
  mret ((fun r => from_narrow_archived (narrow_archived r)) <$>
    sql_limit limit (sql_offset offset (order_by (desc (asc_opt_Z ar_completed_at)) rows))).

Definition list_archived_after (limit : Z) (after : option (Z * string)) (namespace : option string)
    : DbM (list Job) :=
  if limit <=? 0 then mret []
  else
    conn ;;
    rows ← sql_select archived_jobs (fun r =>
      opt_filter (fun ns => bool_decide (ar_namespace r = Some ns)) namespace
      && before_completed after (ar_completed_at r) (ar_id r));
    mret ((fun r => from_narrow_archived (narrow_archived r)) <$>
      sql_limit limit (order_by (then_by (desc (asc_opt_Z ar_completed_at)) (desc (asc_str ar_id))) rows)).

(** [INSERT OR IGNORE ... SELECT], then the [DELETE] of the same rows. *)
Definition archive_old_jobs (cutoff_ms : Z) : DbM Z :=
  conn ;;
  transaction (
    rows ← sql_select jobs (archivable cutoff_ms);
    affected ← foldM (fun n row =>
      inserted ← sql_insert_ignore archived_jobs (jr_id row) (archived_of row);
      mret (n + inserted)) 0 rows;
    sql_delete jobs (archivable cutoff_ms) ;;
    mret affected).
End archive.

(** ** Theorems *)

(** *** The audit trail *)

(** A record reads back as it was written. *)
Lemma audit_record_row r : audit_record (audit_row r) = r.
Proof. by destruct r. Qed.

Lemma field_opt_filter (want : option string) (c : string) :
  opt_filter (fun w => bool_decide (c = w)) want = field want (Some c).
Proof. destruct want as [w|]; [|done]. simpl. apply bool_decide_ext. split; congruence. Qed.

Lemma field_col_eq (want have : option string) : opt_filter (col_eq have) want = field want have.
Proof.
  destruct want as [w|]; [|done]. simpl. destruct have as [c|]; simpl; [|done].
  apply bool_decide_ext. split; congruence.
Qed.

(** The records of a namespace that a listing ranges over, in its order. *)
Definition audit_cmp : AuditRecord -> AuditRecord -> comparison :=
  then_by (desc (asc_Z ad_at_ms)) (desc (asc_str ad_id)).

Definition trail {G : Engine} (namespace : string) (f : AuditFilter) (d : DB) : list AuditRecord :=
  order_by audit_cmp
    (filter (fun r => Is_true (bool_decide (ad_namespace r = namespace) && audit_matches f r))
       (audit_record <$> scan (db_audit_log d))).

Section audit_laws.
Context {E : Env} {G : Engine} `{!ScanComplete G}.

#[global] Instance audit_cmp_total : TotalCmp audit_cmp.
Proof. unfold audit_cmp. apply _. Qed.

Lemma audit_cmp_id x y : audit_cmp x y = Eq -> ad_id x = ad_id y.
Proof.
  unfold audit_cmp, then_by, desc, asc_Z, asc_str. destruct (_ ?= _); try done.
  by intros ->%String.compare_eq_iff.
Qed.

(** The records appended: one whose id is taken is skipped, and the first of an id stands. *)
Definition appended (records : list AuditRecord) : gmap string AuditRow :=
  list_to_map ((fun r => (ad_id r, audit_row r)) <$> records).

Lemma insert_ignore_audit row w :
  exists n, sql_insert_ignore audit_log (au_id row) row w
  = (Ok n, mkWorld (set_audit_log (db_audit_log (db w) ∪ {[au_id row := row]}) (db w)) (tick w)).
Proof.
  unfold sql_insert_ignore. simpl.
  replace (existsb _ _) with false by (induction (map_to_list (db_audit_log (db w))); by simpl).
  rewrite orb_false_r. case_bool_decide as Hs; eexists.
  - f_equal. destruct w as [d n]. simpl in *. f_equal.
    replace (db_audit_log d ∪ _) with (db_audit_log d); [by destruct d|]. symmetry.
    apply map_eq. intros k. rewrite lookup_union. destruct (decide (k = au_id row)) as [->|Hne].
    + destruct Hs as [old ->]. rewrite lookup_singleton_eq. done.
    + rewrite lookup_singleton_ne by done. by destruct (_ !! k).
  - do 3 f_equal. rewrite insert_union_singleton_r; [done|]. by apply eq_None_not_Some.
Qed.

Lemma append_rows_run records w :
  for_each (fun row => sql_insert_ignore audit_log (au_id row) row ;; mret tt) (audit_row <$> records) w
  = (Ok tt, mkWorld (set_audit_log (db_audit_log (db w) ∪ appended records) (db w)) (tick w)).
Proof.
  revert w. induction records as [|r records IH]; intros w.
  { unfold appended. simpl. rewrite map_union_empty. by destruct w as [[] ?]. }
  rewrite fmap_cons. cbn [for_each]. destruct (insert_ignore_audit (audit_row r) w) as [n Hn].
  erewrite bind_ok by (erewrite bind_ok by exact Hn; done). rewrite IH. cbn [db tick].
  do 2 f_equal. unfold appended. rewrite fmap_cons, list_to_map_cons. simpl.
  by rewrite insert_union_singleton_l, <- map_union_assoc.
Qed.

(** Appending to the trail is all or nothing: with a connection every record whose id is new is
    stored as it is, one whose id is taken leaves the stored record as it stands and does not
    cost the rest of the batch; without a connection nothing changes. *)
Theorem append_audit_spec records w :
  (pool_ready (tick w) = false -> records <> [] -> append_audit records w = (Err Pool, bump 1 w))
  /\ (pool_ready (tick w) = true ->
      exists w', append_audit records w = (Ok tt, w')
        /\ db w' = set_audit_log (db_audit_log (db w) ∪ appended records) (db w)).
Proof.
  unfold append_audit. split; intros Hp.
  - intros Hne. rewrite bool_decide_eq_false_2 by (by destruct records). by apply write_transaction_no_pool.
  - case_bool_decide as Hlen.
    + destruct records; [|done]. exists w. split; [done|]. unfold appended. simpl.
      rewrite map_union_empty. by destruct w as [[] ?].
    + eexists. split; [apply write_transaction_ok; [done|apply append_rows_run]|done].
Qed.

Definition audit_below (after : option (Z * string)) (r : AuditRecord) : bool :=
  before_cursor after (ad_at_ms r) (ad_id r).

Lemma trail_separates w :
  keyed au_id (db_audit_log (db w)) -> separates audit_cmp (audit_record <$> scan (db_audit_log (db w))).
Proof.
  intros Hk x y [a [-> [k Ha]%elem_of_scan]]%list_elem_of_fmap [b [-> [k' Hb]%elem_of_scan]]%list_elem_of_fmap
    Heq%audit_cmp_id. simpl in Heq. rewrite (Hk _ _ Ha), (Hk _ _ Hb) in Heq. subst k'. congruence.
Qed.

(** A page of the trail is what the reference filter gives: the filters the query expresses
    select exactly the records [AuditFilter::matches] does, so a backend that applies that
    instead answers the same page, newest first, cut at the limit. *)
Theorem list_audit_after_spec namespace f limit after w :
  keyed au_id (db_audit_log (db w)) -> pool_ready (tick w) = true ->
  exists w', db w' = db w /\ list_audit_after namespace f limit after w
    = (Ok (take (Z.to_nat limit)
         (filter (fun r => Is_true (audit_below after r)) (trail namespace f (db w)))), w').
Proof.
  intros Hk Hp. unfold list_audit_after. destruct (Z.leb_spec limit 0) as [Hle|Hlt].
  { exists w. split; [done|]. by replace (Z.to_nat limit) with O by lia. }
  exists (bump 1 w). split; [done|]. rewrite (bind_ok _ _ _ _ _ (conn_ok w Hp)).
  erewrite bind_ok by done. unfold mret, M_ret. do 2 f_equal. pose proof (trail_separates w Hk) as Hsep.
  rewrite (table_page audit_record _ audit_cmp _
    (fun r => (bool_decide (ad_namespace r = namespace) && audit_matches f r) && audit_below after r));
    [|lia|done| |done].
  - f_equal. unfold trail. rewrite <- order_by_filter; [|apply _|].
    + f_equal. rewrite list_filter_filter. apply list_filter_iff. intros r. rewrite andb_True. tauto.
    + eapply separates_sub; [|done]. by intros x [_ ?]%list_elem_of_filter.
  - intros r _. rewrite !field_col_eq, !field_opt_filter. unfold audit_matches, audit_below. simpl.
    unfold opt_filter at 1 2. rewrite !andb_assoc. destruct (bool_decide _), (before_cursor _ _ _); simpl;
      rewrite ?andb_false_r, ?andb_true_r; done.
Qed.

(** What a purge of the trail may remove. *)
Definition audit_due (namespace : string) (c : AuditCutoffs) (r : AuditRow) : bool :=
  audit_before namespace (writes_before_ms c) None r
  || audit_before namespace (reads_before_ms c) (Some AUDIT_ACCESS_READ) r.

Lemma part_gone_weaken {R} (p q : R -> bool) (m m' : gmap string R) :
  (forall r, p r = true -> q r = true) -> part_gone p m m' -> part_gone q m m'.
Proof. intros Hpq [Hs Hg]. split; [done|]. intros k r Hr Hn. by eapply Hpq, Hg. Qed.

Lemma keep_where_or {R} (p q : R -> bool) (m : gmap string R) :
  keep_where q (keep_where p m) = keep_where (fun r => p r || q r) m.
Proof.
  apply map_eq. intros k. apply option_eq. intros r. rewrite !keep_where_lookup.
  destruct (p r), (q r); simpl; tauto.
Qed.

(** a purge of the audit trail reports how many records it removed; each of them belongs to
    the namespace it was asked about and is older than the cutoff of writes, or is a read
    older than the cutoff of reads; every other table is as it was, and unless the sweep used
    up its batches nothing of the namespace past its cutoff is left. *)
Theorem purge_audit_spec namespace cutoffs w :
  (forall n, pool_ready n = true) -> keyed au_id (db_audit_log (db w)) ->
  let m := db_audit_log (db w) in
  exists m' w', purge_audit namespace cutoffs w = (Ok (Z.of_nat (size m) - Z.of_nat (size m')), w')
    /\ db w' = set_audit_log m' (db w)
    /\ part_gone (audit_due namespace cutoffs) m m'
    /\ (Z.of_nat (size m) - Z.of_nat (size m') < 100000 ->
        m' = keep_where (audit_due namespace cutoffs) m).
Proof.
  intros Hpool Hk m. unfold purge_audit.
  destruct (drain_where_run audit_log au_id Hpool (audit_before namespace (writes_before_ms cutoffs) None) w Hk)
    as (m1 & n1 & Heq1 & Hgone1 & Hend1). rewrite (bind_ok _ _ _ _ _ Heq1).
  set (w1 := mkWorld _ _). change (t_get audit_log (db w)) with m in *.
  assert (Hm1 : t_get audit_log (db w1) = m1) by done.
  destruct (drain_where_run audit_log au_id Hpool
    (audit_before namespace (reads_before_ms cutoffs) (Some AUDIT_ACCESS_READ)) w1) as (m2 & n2 & Heq2 & Hgone2 & Hend2).
  { rewrite Hm1. eapply keyed_subset; [exact Hk|apply Hgone1]. }
  rewrite (bind_ok _ _ _ _ _ Heq2), Hm1 in *. exists m2. eexists. split_and!.
  - unfold mret, M_ret. do 2 f_equal. lia.
  - done.
  - eapply part_gone_trans; (eapply part_gone_weaken; [|eassumption]); intros r Hr; unfold audit_due;
      rewrite Hr, ?orb_true_r; done.
  - pose proof (map_subseteq_size _ _ (proj1 Hgone1)). pose proof (map_subseteq_size _ _ (proj1 Hgone2)).
    intros Hlt. rewrite Hend2, Hend1 by lia. by rewrite keep_where_or.
Qed.
End audit_laws.

(** *** Reading the log of a job *)

(** In a strictly sorted list, what compares greater than an element follows it. *)
Lemma greater_suffix {A} (c : A -> A -> comparison) `{!TotalCmp c} pre x post :
  StronglySorted (cmp_le c) (pre ++ x :: post) -> NoDup (pre ++ x :: post) ->
  separates c (pre ++ x :: post) ->
  filter (fun y => c x y = Lt) (pre ++ x :: post) = post.
Proof.
  intros Hs Hnd Hsep. rewrite filter_app, filter_cons, filter_none, decide_False.
  - apply filter_all. intros y Hy. apply StronglySorted_app_1_r, StronglySorted_cons in Hs as [Hle _].
    rewrite Forall_forall in Hle. specialize (Hle y Hy). unfold cmp_le in Hle.
    destruct (c x y) eqn:Hc; [|done|done]. apply NoDup_app in Hnd as (_ & _ & [Hnin _]%NoDup_cons).
    apply Hsep in Hc; [by subst|apply elem_of_app; right; left|].
    apply elem_of_app; right; by right.
  - by rewrite (cmp_refl c).
  - intros y Hy Hlt. assert (Hle : cmp_le c y x) by (eapply StronglySorted_app_1_elem_of; [exact Hs|done|left]).
    unfold cmp_le in Hle. rewrite (cmp_opp (c:=c) x y), Hlt in Hle. done.
Qed.

Section log_laws.
Context {E : Env} {G : Engine} `{!ScanComplete G}.

(** The lines of a job, oldest id first. *)
Definition log_lines (job_id : string) (namespace : option string) (d : DB) : list TaskLogRow :=
  order_by (asc_str tl_id) (filter (fun r => Is_true (log_of job_id namespace r)) (scan (db_task_logs d))).

(** Following a job's log neither skips nor repeats a line: a read with the id of a line
    returns exactly the lines that follow it, in the order the whole log is read. *)
Theorem get_task_logs_after_resumes job_id namespace w pre x post :
  keyed tl_id (db_task_logs (db w)) -> pool_ready (tick w) = true ->
  log_lines job_id namespace (db w) = pre ++ x :: post ->
  get_task_logs_after job_id None namespace w = (Ok (pre ++ x :: post), bump 1 w)
  /\ get_task_logs_after job_id (Some (tl_id x)) namespace w = (Ok post, bump 1 w).
Proof.
  intros Hk Hp Hl. unfold get_task_logs_after. rewrite !(bind_ok _ _ _ _ _ (conn_ok w Hp)).
  erewrite !bind_ok by done. unfold mret, M_ret. cbn [db bump].
  set (l := filter (fun r => Is_true (log_of job_id namespace r)) (scan (t_get task_logs (db w)))).
  assert (Hsep : separates (asc_str tl_id) l).
  { intros a b [_ [k Ha]%elem_of_scan]%list_elem_of_filter [_ [k' Hb]%elem_of_scan]%list_elem_of_filter.
    unfold asc_str. intros Heq%String.compare_eq_iff. rewrite (Hk _ _ Ha), (Hk _ _ Hb) in Heq. congruence. }
  assert (Hf : forall after,
    filter (fun r => Is_true (log_of job_id namespace r && opt_filter (fun c => str_gt (tl_id r) c) after))
      (scan (t_get task_logs (db w)))
    = filter (fun r => Is_true (opt_filter (fun c => str_gt (tl_id r) c) after)) l).
  { intros after. unfold l. rewrite list_filter_filter. apply list_filter_iff. intros r. rewrite andb_True. tauto. }
  rewrite !Hf, !order_by_filter by (apply _ || done). change (order_by (asc_str tl_id) l) with (log_lines job_id namespace (db w)).
  assert (Hs : StronglySorted (cmp_le (asc_str tl_id)) (pre ++ x :: post)).
  { rewrite <- Hl. apply order_by_sorted, _. }
  assert (Hsep' : separates (asc_str tl_id) (pre ++ x :: post)).
  { rewrite <- Hl. eapply separates_sub; [|exact Hsep]. intros r. unfold log_lines. by rewrite order_by_elem_of. }
  assert (Hnd : NoDup (pre ++ x :: post)).
  { rewrite <- Hl. unfold log_lines. rewrite order_by_perm. apply NoDup_filter, (NoDup_fmap_1 tl_id).
    by apply scan_NoDup_key. }
  rewrite Hl in *. split; [do 2 f_equal; by apply filter_all|]. do 2 f_equal. cbn [opt_filter].
  rewrite <- (greater_suffix (asc_str tl_id) pre x post) at 2 by done. apply list_filter_iff. intros r.
  unfold str_gt, str_lt, asc_str. by destruct (String.compare _ _).
Qed.
End log_laws.

(** *** The sweep of the live table *)

(** Every transition that ends a job moves it to the archive, so in a database the operations
    built there is nothing for [archive_old_jobs] to move: it reports none and changes nothing. *)
Theorem archive_old_jobs_idle {E : Env} {G : Engine} `{!ScanComplete G} cutoff_ms w :
  wf w -> pool_ready (tick w) = true -> archive_old_jobs cutoff_ms w = (Ok 0, bump 1 w).
Proof.
  intros Hwf Hp. assert (Hno : forall k r, db_jobs (db w) !! k = Some r -> archivable cutoff_ms r = false).
  { intros k r Hr. pose proof (wf_live_status _ _ _ _ _ Hwf _ _ Hr) as Hst. unfold archivable.
    unfold is_active in Hst. rewrite orb_true_iff, !Z.eqb_eq in Hst. by destruct Hst as [-> | ->]. }
  unfold archive_old_jobs. rewrite (bind_ok _ _ _ _ _ (conn_ok w Hp)). unfold transaction.
  erewrite bind_ok by done. cbn [db bump]. rewrite filter_none.
  2:{ intros r [k Hr]%elem_of_scan. rewrite (Hno _ _ Hr). simpl. tauto. }
  cbn [foldM]. erewrite bind_ok by done.
  pose proof (keep_where_nothing (archivable cutoff_ms) (db_jobs (db w)) Hno) as Hkeep. unfold keep_where in Hkeep.
  unfold mbind, M_bind, mret, M_ret, sql_delete, bump. simpl. rewrite Hkeep. do 2 f_equal. by destruct (db w).
Qed.

(** *** The store's invariant *)

Section keeps.
Context {E : Env} {G : Engine}.

Lemma keeps_write_task_log j t l m e ns : keeps wf (write_task_log j t l m e ns).
Proof. unfold write_task_log. solve_keeps. Qed.
Lemma keeps_purge_task_logs t : keeps wf (purge_task_logs t).
Proof. exact (keeps_drain_where task_logs tl_id wf _). Qed.
Lemma keeps_purge_metrics t : keeps wf (purge_metrics t).
Proof. exact (keeps_drain_where task_metrics tm_id wf _). Qed.
Lemma keeps_record_replay o r a b c d : keeps wf (record_replay o r a b c d).
Proof. unfold record_replay. solve_keeps. Qed.
Lemma keeps_append_audit rs : keeps wf (append_audit rs).
Proof. unfold append_audit. solve_keeps. Qed.
Lemma keeps_purge_audit ns c : keeps wf (purge_audit ns c).
Proof.
  unfold purge_audit. apply keeps_bind; [exact (keeps_drain_where audit_log au_id wf _)|]. intros all.
  apply keeps_bind; [exact (keeps_drain_where audit_log au_id wf _)|]. intros reads. apply keeps_ret.
Qed.
End keeps.

#[export] Hint Resolve keeps_write_task_log keeps_purge_task_logs keeps_purge_metrics keeps_record_replay
  keeps_append_audit keeps_purge_audit : keeps.

(** ** Examples *)

Section examples.
#[local] Existing Instances demo_env demo_engine demo_uuid_fresh demo_scan_complete.

Definition demo_record (id namespace : string) (at_ms : Z) (access : string) : AuditRecord :=
  mkAuditRecord id namespace at_ms "token" "t1" "ci" "Enqueue" (Some "job"%string) (Some "j1"%string) "OK" access.

Definition audited : World := snd (append_audit
  [demo_record "a" "x" 10 "write"; demo_record "b" "x" 20 "read"; demo_record "c" "x" 40 "write";
   demo_record "d" "y" 10 "write"; demo_record "a" "x" 99 "read"] demo_world).

Lemma keyed_audited : keyed au_id (db_audit_log (db audited)).
Proof. apply (bool_decide_eq_true_1 (map_Forall (fun k r => au_id r = k) _)). by vm_compute. Qed.

Lemma purge_audit_spec_witness :
  exists m' w', purge_audit "x" (mkAuditCutoffs 15 30) audited = (Ok 2, w')
    /\ db w' = set_audit_log m' (db audited)
    /\ (elements (dom m')) = ["c"%string; "d"%string].
Proof.
  destruct (purge_audit_spec (E:=demo_env) "x" (mkAuditCutoffs 15 30) audited (fun _ => eq_refl) keyed_audited)
    as (m' & w' & Heq & Hdb & _ & Hend).
  assert (Hn : fst (purge_audit "x" (mkAuditCutoffs 15 30) audited) = Ok 2) by by vm_compute.
  rewrite Heq in Hn. cbn [fst] in Hn. injection Hn as Hn. rewrite Hn in Heq.
  assert (Hm : m' = keep_where (audit_due "x" (mkAuditCutoffs 15 30)) (db_audit_log (db audited)))
    by (apply Hend; lia).
  exists m', w'. split; [exact Heq|]. split; [exact Hdb|]. rewrite Hm.
  by vm_compute.
Defined.
End examples.
