(* ===== verification/Resilience.v ===== *)
(** * Retries, circuit breakers and token buckets
    ([resilience/retry.rs], [resilience/circuit_breaker.rs], [resilience/rate_limiter.rs],
    [sqlite/circuit_breakers.rs], [sqlite/rate_limits.rs])

    When a failed job runs again, when a task that keeps failing is no longer started, and
    how fast a key may be used.  Floats are IEEE 754 doubles with their rounding written
    out ([SpecFloat] at 53 bits). *)
From S2P Require Import Prelude Job Db Store Enqueue Purge.

(** ** Doubles *)

Definition f64_of_Z (z : Z) : f64 := binary_normalize 53 1024 z 0 false.
Definition f64_add : f64 -> f64 -> f64 := SFadd 53 1024.
Definition f64_sub : f64 -> f64 -> f64 := SFsub 53 1024.
Definition f64_mul : f64 -> f64 -> f64 := SFmul 53 1024.
Definition f64_div : f64 -> f64 -> f64 := SFdiv 53 1024.
Definition f64_is_nan (x : f64) : bool := match x with S754_nan => true | _ => false end.

(** [f64::min]: a NaN yields the other operand. *)
Definition f64_min (x y : f64) : f64 :=
  if f64_is_nan x then y else if f64_is_nan y then x else if SFltb y x then y else x.

(** ** Retry delays *)

Record RetryPolicy := mkRetryPolicy {
  rp_max_retries : Z;
  rp_base_delay_ms : Z;
  rp_max_delay_ms : Z;
  rp_custom_delays_ms : option (list Z)
}.

Definition default_policy : RetryPolicy := mkRetryPolicy 3 1000 300000 None.

Section retry.
Context {E : Env}.

Definition full_jitter (cap_ms : Z) : DbM Z :=
  if cap_ms <=? 0 then mret 0
  else draw (fun n => as_i64 (as_u64 (random_u64 n) mod (cap_ms + 1))).

(** [base_ms / 2] rounds towards zero. *)
Definition desync_delay (base_ms : Z) : DbM Z :=
  jitter ← full_jitter (Z.quot base_ms 2);
  mret (sat_add_i64 base_ms jitter).

(** [delays.get(retry_count as usize)]: a negative count wraps past every length. *)
Definition custom_delay (p : RetryPolicy) (retry_count : Z) : option Z :=
  delays ← rp_custom_delays_ms p;
  if retry_count <? 0 then None else delays !! Z.to_nat retry_count.

(** [base * (1 << min(count, 30))], saturating and capped.  A shift amount is taken
    modulo 64. *)
Definition backoff_cap (p : RetryPolicy) (retry_count : Z) : Z :=
  Z.min (sat_mul_i64 (rp_base_delay_ms p) (as_i64 (Z.shiftl 1 (Z.min retry_count 30 mod 64))))
    (rp_max_delay_ms p).

Definition next_retry_at (p : RetryPolicy) (retry_count : Z) : DbM Z :=
  match custom_delay p retry_count with
  | Some custom => now ← now_millis; mret (as_i64 (now + custom))
  | None =>
      now ← now_millis;
      jitter ← full_jitter (backoff_cap p retry_count);
      mret (as_i64 (now + jitter))
  end.

Definition policy_should_retry (p : RetryPolicy) (retry_count : Z) : bool :=
  retry_count <? rp_max_retries p.
End retry.

(** ** Circuit breakers *)

Inductive CircuitState := Closed | Open | HalfOpen.

Definition circuit_int (s : CircuitState) : Z :=
  match s with Closed => 0 | Open => 1 | HalfOpen => 2 end.
Definition circuit_of_int (v : Z) : CircuitState :=
  if v =? 1 then Open else if v =? 2 then HalfOpen else Closed.

Record CircuitBreakerConfig := mkCircuitBreakerConfig {
  bc_threshold : Z;
  bc_window_ms : Z;
  bc_cooldown_ms : Z;
  bc_half_open_max_probes : Z;
  bc_half_open_success_rate : f64
}.

Definition sat_add_i32 (x y : Z) : Z := clamp i32_min i32_max (x + y).

(** [CbState { .., ..row }] *)
Definition cb_with (state : Z) (failures : Z) (last opened half : option Z)
    (probes successes failed : Z) (row : CircuitBreakerRow) : CircuitBreakerRow :=
  mkCircuitBreakerRow (cb_task_name row) state failures last opened half
    (cb_threshold row) (cb_window_ms row) (cb_cooldown_ms row) (cb_half_open_max_probes row)
    (cb_half_open_success_rate row) probes successes failed.

(** The decision of [allow] and the row it writes, if any. *)
Definition allow_row (now : Z) (row : CircuitBreakerRow) : bool * option CircuitBreakerRow :=
  match circuit_of_int (cb_state row) with
  | Closed => (true, None)
  | Open =>
      if cb_cooldown_ms row <=? sat_sub_i64 now (default 0 (cb_opened_at row)) then
        (true, Some (cb_with (circuit_int HalfOpen) (cb_failure_count row)
          (cb_last_failure_at row) (cb_opened_at row) (Some now) 0 0 0 row))
      else (false, None)
  | HalfOpen =>
      if cb_half_open_probe_count row <? cb_half_open_max_probes row then
        (true, Some (cb_with (cb_state row) (cb_failure_count row) (cb_last_failure_at row)
          (cb_opened_at row) (cb_half_open_at row) (cb_half_open_probe_count row + 1)
          (cb_half_open_success_count row) (cb_half_open_failure_count row) row))
      else if cb_cooldown_ms row <=? sat_sub_i64 now (default 0 (cb_half_open_at row)) then
        (false, Some (cb_with (circuit_int Open) (cb_failure_count row) (cb_last_failure_at row)
          (Some now) None 0 0 0 row))
      else (false, None)
  end.

(** The row [record_success] writes at the time [now], if any. *)
Definition success_row (now : Z) (row : CircuitBreakerRow) : option CircuitBreakerRow :=
  let healed := cb_with (circuit_int Closed) 0 (cb_last_failure_at row) None None 0 0 0 row in
  match circuit_of_int (cb_state row) with
  | Closed => if cb_failure_count row =? 0 then None else Some healed
  | Open => Some healed
  | HalfOpen =>
      let successes := cb_half_open_success_count row + 1 in
      let total := successes + cb_half_open_failure_count row in
      if cb_half_open_max_probes row <=? total then
        if SFleb (cb_half_open_success_rate row) (f64_div (f64_of_Z successes) (f64_of_Z total))
        then Some healed
        else Some (cb_with (circuit_int Open) (cb_failure_count row) (cb_last_failure_at row)
          (Some now) None 0 0 0 row)
      else Some (cb_with (cb_state row) (cb_failure_count row) (cb_last_failure_at row)
        (cb_opened_at row) (cb_half_open_at row) (cb_half_open_probe_count row) successes
        (cb_half_open_failure_count row) row)
  end.

Definition failure_row (now : Z) (row : CircuitBreakerRow) : CircuitBreakerRow :=
  match circuit_of_int (cb_state row) with
  | HalfOpen =>
      let failures := cb_half_open_failure_count row + 1 in
      let total := cb_half_open_success_count row + failures in
      let remaining := cb_half_open_max_probes row - total in
      let best_possible_rate :=
        if 0 <? cb_half_open_max_probes row then
          f64_div (f64_of_Z (cb_half_open_success_count row + remaining))
            (f64_of_Z (cb_half_open_max_probes row))
        else f64_of_Z 0 in
      if (cb_half_open_max_probes row <=? total)
         || SFltb best_possible_rate (cb_half_open_success_rate row)
      then cb_with (circuit_int Open) (sat_add_i32 (cb_failure_count row) 1) (Some now)
        (Some now) None 0 0 0 row
      else cb_with (cb_state row) (sat_add_i32 (cb_failure_count row) 1) (Some now)
        (cb_opened_at row) (cb_half_open_at row) (cb_half_open_probe_count row)
        (cb_half_open_success_count row) failures row
  | Closed =>
      let count :=
        match cb_last_failure_at row with
        | Some last =>
            if cb_window_ms row <? sat_sub_i64 now last then 1
            else sat_add_i32 (cb_failure_count row) 1
        | None => 1
        end in
      if cb_threshold row <=? count
      then cb_with (circuit_int Open) count (Some now) (Some now) None (cb_half_open_probe_count row)
        (cb_half_open_success_count row) (cb_half_open_failure_count row) row
      else cb_with (cb_state row) count (Some now) (cb_opened_at row)
        (cb_half_open_at row) (cb_half_open_probe_count row) (cb_half_open_success_count row)
        (cb_half_open_failure_count row) row
  | Open =>
      cb_with (cb_state row) (sat_add_i32 (cb_failure_count row) 1) (Some now) (cb_opened_at row)
        (cb_half_open_at row) (cb_half_open_probe_count row) (cb_half_open_success_count row)
        (cb_half_open_failure_count row) row
  end.

Definition new_breaker (task_name : string) (c : CircuitBreakerConfig) : CircuitBreakerRow :=
  mkCircuitBreakerRow task_name (circuit_int Closed) 0 None None None (bc_threshold c)
    (bc_window_ms c) (bc_cooldown_ms c) (bc_half_open_max_probes c)
    (bc_half_open_success_rate c) 0 0 0.

Section breaker.
Context {E : Env} {G : Engine}.

Definition get_circuit_breaker (task_name : string) : DbM (option CircuitBreakerRow) :=
  conn ;; sql_find circuit_breakers task_name.

Definition upsert_circuit_breaker (row : CircuitBreakerRow) : DbM unit :=
  conn ;; sql_replace circuit_breakers (cb_task_name row) row.

Definition list_circuit_breakers : DbM (list CircuitBreakerRow) :=
  conn ;; sql_select circuit_breakers (fun _ => true).

Definition allow (task_name : string) : DbM bool :=
  found ← get_circuit_breaker task_name;
  match found with
  | None => mret true
  | Some row =>
      now ← now_millis;
      let '(allowed, updated) := allow_row now row in
      match updated with
      | Some updated => upsert_circuit_breaker updated
      | None => mret tt
      end ;;
      mret allowed
  end.

(** The clock is read only on the branch that opens the breaker. *)
Definition record_success (task_name : string) : DbM unit :=
  found ← get_circuit_breaker task_name;
  match found with
  | None => mret tt
  | Some row =>
      let successes := cb_half_open_success_count row + 1 in
      let total := successes + cb_half_open_failure_count row in
      now ← (match circuit_of_int (cb_state row) with
             | HalfOpen =>
                 if (cb_half_open_max_probes row <=? total)
                    && negb (SFleb (cb_half_open_success_rate row)
                         (f64_div (f64_of_Z successes) (f64_of_Z total)))
                 then now_millis else mret 0
             | _ => mret 0
             end);
      match success_row now row with
      | Some updated => upsert_circuit_breaker updated
      | None => mret tt
      end
  end.

Definition record_failure (task_name : string) : DbM unit :=
  now ← now_millis;
  found ← get_circuit_breaker task_name;
  match found with
  | None => mret tt
  | Some row => upsert_circuit_breaker (failure_row now row)
  end.

Definition register (task_name : string) (config : CircuitBreakerConfig) : DbM unit :=
  found ← get_circuit_breaker task_name;
  match found with
  | Some _ => mret tt
  | None => upsert_circuit_breaker (new_breaker task_name config)
  end.
End breaker.

(** ** Token buckets *)

Record RateLimitConfig := mkRateLimitConfig { rc_max_tokens : f64; rc_refill_rate : f64 }.

(** The bucket after refilling at [now]. *)
Definition refill (now : Z) (max_tokens refill_rate : f64) (row : RateLimitRow) : RateLimitRow :=
  let elapsed_ms := f64_of_Z (Z.max (as_i64 (now - rl_last_refill row)) 0) in
  let elapsed_sec := f64_div elapsed_ms (f64_of_Z 1000) in
  let refilled := f64_add (rl_tokens row) (f64_mul elapsed_sec refill_rate) in
  mkRateLimitRow (rl_key row) (f64_min refilled max_tokens) (rl_max_tokens row)
    (rl_refill_rate row) now.

Section bucket.
Context {E : Env} {G : Engine}.

Definition get_rate_limit (key : string) : DbM (option RateLimitRow) :=
  conn ;; sql_find rate_limits key.

Definition upsert_rate_limit (row : RateLimitRow) : DbM unit :=
  conn ;; sql_replace rate_limits (rl_key row) row.

Definition try_acquire_tokens (key : string) (count : Z) (max_tokens refill_rate : f64)
    : DbM bool :=
  now ← now_millis;
  let count := f64_of_Z count in
  write_transaction (
    existing ← sql_find rate_limits key;
    let row := refill now max_tokens refill_rate
      (default (mkRateLimitRow key max_tokens max_tokens refill_rate now) existing) in
    let acquired := SFleb count (rl_tokens row) in
    let row :=
      if acquired
      then mkRateLimitRow (rl_key row) (f64_sub (rl_tokens row) count) (rl_max_tokens row)
             (rl_refill_rate row) (rl_last_refill row)
      else row in
    sql_replace rate_limits key row ;;
    mret acquired).

Definition try_acquire_token (key : string) (max_tokens refill_rate : f64) : DbM bool :=
  try_acquire_tokens key 1 max_tokens refill_rate.

(** [RateLimiter::try_acquire] *)
Definition try_acquire (key : string) (config : RateLimitConfig) : DbM bool :=
  try_acquire_token key (rc_max_tokens config) (rc_refill_rate config).
End bucket.

(** ** Backoff *)

Section backoff.
Context {E : Env}.

Lemma full_jitter_run cap w :
  cap <= i64_max ->
  exists j w', full_jitter cap w = (Ok j, w') /\ 0 <= j <= Z.max 0 cap /\ db w' = db w.
Proof.
  intros Hcap. unfold full_jitter. destruct (Z.leb_spec cap 0).
  { exists 0, w. split_and!; [done|lia|lia|done]. }
  eexists. eexists. split; [done|]. split; [|done].
  assert (0 <= as_u64 (random_u64 (tick w)) mod (cap + 1) < cap + 1) by (apply Z.mod_pos_bound; lia).
  unfold as_i64, i64_max in *. rewrite Z.mod_small; lia.
Qed.

Lemma backoff_cap_bounds p rc :
  0 <= rc -> 0 <= rp_base_delay_ms p ->
  backoff_cap p rc <= Z.min (rp_base_delay_ms p * 2 ^ Z.min rc 30) (rp_max_delay_ms p).
Proof.
  intros Hrc Hbase. unfold backoff_cap. rewrite (Z.mod_small (Z.min rc 30)) by lia.
  rewrite Z.shiftl_1_l. assert (0 < 2 ^ Z.min rc 30 <= 2 ^ 30).
  { split; [apply Z.pow_pos_nonneg; lia|apply Z.pow_le_mono_r; lia]. }
  assert (as_i64 (2 ^ Z.min rc 30) = 2 ^ Z.min rc 30) as ->.
  { unfold as_i64. rewrite Z.mod_small; lia. }
  apply Z.min_le_compat_r. unfold sat_mul_i64, sat_i64, clamp.
  destruct (Z.ltb_spec (rp_base_delay_ms p * 2 ^ Z.min rc 30) i64_min),
    (Z.ltb_spec i64_max (rp_base_delay_ms p * 2 ^ Z.min rc 30)); unfold i64_min in *; nia.
Qed.

Lemma next_retry_at_total p rc w : exists t w', next_retry_at p rc w = (Ok t, w').
Proof.
  unfold next_retry_at, full_jitter. destruct (custom_delay p rc); [by eexists _, _|].
  destruct (_ <=? _); by eexists _, _.
Qed.

(** when a failed job runs again.  A delay configured for the attempt is taken as it
    is; otherwise the job runs again no earlier than now and no later than the exponential
    backoff after now, [base * 2^count] with the exponent capped at 30 and the whole capped
    by the policy's maximum; no retry count makes the delay overflow. *)
Theorem next_retry_at_bounds p rc w :
  let now := Z.min (Z.max 0 (system_ms (tick w))) i64_max in
  0 <= rc -> 0 <= rp_base_delay_ms p -> 0 <= rp_max_delay_ms p ->
  now + rp_max_delay_ms p <= i64_max ->
  exists t w', next_retry_at p rc w = (Ok t, w') /\ db w' = db w /\
    match custom_delay p rc with
    | Some d => t = as_i64 (now + d)
    | None => now <= t <= now + Z.min (rp_base_delay_ms p * 2 ^ Z.min rc 30) (rp_max_delay_ms p)
    end.
Proof.
  intros now Hrc Hbase Hmax Hover. unfold next_retry_at.
  assert (0 <= now <= i64_max) by (unfold now, i64_max; lia). destruct (custom_delay p rc) as [d|].
  { eexists. eexists. split; [done|]. done. }
  erewrite bind_ok by done. fold now.
  pose proof (backoff_cap_bounds p rc Hrc Hbase) as Hcap.
  destruct (full_jitter_run (backoff_cap p rc) (mkWorld (db w) (S (tick w)))) as (j & w' & Hj & Hjb & Hd).
  { lia. }
  rewrite (bind_ok _ _ _ _ _ Hj). eexists. eexists. split; [done|]. split; [done|].
  assert (0 < 2 ^ Z.min rc 30) by (apply Z.pow_pos_nonneg; lia).
  assert (0 <= rp_base_delay_ms p * 2 ^ Z.min rc 30) by nia.
  assert (as_i64 (now + j) = now + j) as ->.
  { unfold as_i64, i64_max in *. rewrite Z.mod_small; lia. }
  lia.
Qed.
End backoff.

Section backoff_example.
#[local] Existing Instances demo_env.

Lemma next_retry_at_bounds_witness :
  exists t w', next_retry_at default_policy 2 (mkWorld empty_db 7) = (Ok t, w')
    /\ 1007 <= t <= 1007 + 4000.
Proof.
  destruct (next_retry_at_bounds default_policy 2 (mkWorld empty_db 7)) as (t & w' & Hrun & _ & Ht);
    [done..|]. by exists t, w'.
Defined.
End backoff_example.

(** ** Half-open breakers *)

(** How many of the calls of [allow], at these times and with no result in between, are
    admitted. *)
Fixpoint admitted (times : list Z) (row : CircuitBreakerRow) : nat :=
  match times with
  | [] => 0
  | now :: times =>
      let '(allowed, updated) := allow_row now row in
      ((if allowed then 1 else 0) + admitted times (default row updated))%nat
  end.

Lemma half_open_admits times row t0 :
  circuit_of_int (cb_state row) = HalfOpen -> cb_half_open_at row = Some t0 ->
  Forall (fun now => sat_sub_i64 now t0 < cb_cooldown_ms row) times ->
  admitted times row
  = Nat.min (length times)
      (Z.to_nat (cb_half_open_max_probes row - cb_half_open_probe_count row)).
Proof.
  revert row. induction times as [|now times IH]; intros row Hst Hat Hin; [done|].
  apply Forall_cons in Hin as [Hnow Hin]. cbn [admitted]. unfold allow_row. rewrite Hst.
  destruct (Z.ltb_spec (cb_half_open_probe_count row) (cb_half_open_max_probes row)).
  - cbn [from_option id]. rewrite IH; [cbn [id length cb_with cb_half_open_max_probes cb_half_open_probe_count]; lia|done..].
  - rewrite Hat. cbn [from_option id]. destruct (Z.leb_spec (cb_cooldown_ms row) (sat_sub_i64 now t0)); [lia|].
    cbn [from_option id]. rewrite (IH row); [cbn [length]; lia|done..].
Qed.

(** C28: how many executions a tripped breaker admits.  While the cooldown has not elapsed
    it admits none; the first call after it admits that call and starts probing, and as
    long as no result comes back within another cooldown, exactly the configured number
    of probes is admitted after it, so [half_open_max_probes + 1] in all. *)
Theorem tripped_breaker_admits row opened early first late :
  circuit_of_int (cb_state row) = Open -> cb_opened_at row = Some opened ->
  Forall (fun now => sat_sub_i64 now opened < cb_cooldown_ms row) early ->
  cb_cooldown_ms row <= sat_sub_i64 first opened ->
  Forall (fun now => sat_sub_i64 now first < cb_cooldown_ms row) late ->
  admitted early row = 0%nat
  /\ admitted (early ++ first :: late) row
     = S (Nat.min (length late) (Z.to_nat (cb_half_open_max_probes row))).
Proof.
  intros Hst Hop Hearly Hfirst Hlate.
  assert (Hwait : forall rest, admitted (early ++ rest) row = admitted rest row).
  { intros rest. induction Hearly as [|now early Hnow Hearly IH]; [done|]. cbn [app admitted].
    unfold allow_row. rewrite Hst, Hop. cbn [from_option id].
    destruct (Z.leb_spec (cb_cooldown_ms row) (sat_sub_i64 now opened)); [lia|]. done. }
  split.
  { specialize (Hwait []). by rewrite app_nil_r in Hwait. }
  rewrite Hwait. cbn [admitted]. unfold allow_row at 1. rewrite Hst, Hop. cbn [from_option id].
  destruct (Z.leb_spec (cb_cooldown_ms row) (sat_sub_i64 first opened)); [|lia].
  cbn [from_option id]. rewrite (half_open_admits late _ first); [|done..].
  simpl. by rewrite Z.sub_0_r.
Qed.

Lemma tripped_breaker_admits_witness :
  let row := mkCircuitBreakerRow "t" 1 3 (Some 100) (Some 100) None 3 60000 1000 5
    (f64_of_Z 1) 0 0 0 in
  admitted [200; 1099] row = 0%nat
  /\ admitted [200; 1099; 1100; 1101; 1102; 1103; 1104; 1105; 1106; 1107] row = 6%nat.
Proof.
  intros row.
  apply (tripped_breaker_admits row 100 [200; 1099] 1100 [1101; 1102; 1103; 1104; 1105; 1106; 1107]);
    try done; repeat constructor; done.
Defined.
