(* ===== verification/Rates.v ===== *)
(** * Rate strings ([resilience/rate_limiter.rs])

    [RateLimitConfig::parse] and the standard library it reads with: [str::split],
    [str::trim] and [f64::from_str].  A rate that parses always lets a job through. *)
From S2P Require Import Prelude Text Job Db Store Resilience.
From Stdlib Require Import Ascii.

(** ** Texts *)

(** [s.split(c).collect()] *)
Fixpoint split_on (c : ascii) (s : string) : list string :=
  match s with
  | EmptyString => [""%string]
  | String a s =>
      if bool_decide (a = c) then ""%string :: split_on c s
      else match split_on c s with
           | part :: parts => String a part :: parts
           | [] => [String a ""]
           end
  end.

Fixpoint string_rev_app (s acc : string) : string :=
  match s with
  | EmptyString => acc
  | String a s => string_rev_app s (String a acc)
  end.
Definition string_rev (s : string) : string := string_rev_app s "".

Definition of_bytes (l : list nat) : string :=
  foldr (fun n s => String (ascii_of_nat n) s) ""%string l.

(** The characters of [White_Space], in UTF-8. *)
Definition whitespace : list string :=
  of_bytes <$>
  [[9]; [10]; [11]; [12]; [13]; [32]; [194; 133]; [194; 160]; [225; 154; 128];
   [226; 128; 128]; [226; 128; 129]; [226; 128; 130]; [226; 128; 131]; [226; 128; 132];
   [226; 128; 133]; [226; 128; 134]; [226; 128; 135]; [226; 128; 136]; [226; 128; 137];
   [226; 128; 138]; [226; 128; 168]; [226; 128; 169]; [226; 128; 175]; [226; 129; 159];
   [227; 128; 128]]%nat.

(** The text without the first of the patterns it starts with. *)
Fixpoint strip_any (patterns : list string) (s : string) : option string :=
  match patterns with
  | [] => None
  | p :: patterns => match strip_prefix p s with Some s' => Some s' | None => strip_any patterns s end
  end.

Fixpoint strip_all (fuel : nat) (patterns : list string) (s : string) : string :=
  match fuel with
  | O => s
  | S fuel => match strip_any patterns s with Some s' => strip_all fuel patterns s' | None => s end
  end.

(** [s.trim()]: every pattern is a whole character, so a round takes at least a byte. *)
Definition trim (s : string) : string :=
  let s := strip_all (String.length s) whitespace s in
  string_rev (strip_all (String.length s) (string_rev <$> whitespace) (string_rev s)).

(** ** Floats *)

Definition is_char (c : ascii) (a : ascii) : bool := bool_decide (a = c).

Definition lower (a : ascii) : ascii :=
  let n := nat_of_ascii a in
  if (65 <=? Z.of_nat n) && (Z.of_nat n <=? 90) then ascii_of_nat (n + 32) else a.

Fixpoint lowercase (s : string) : string :=
  match s with EmptyString => ""%string | String a s => String (lower a) (lowercase s) end.

(** The leading digits: their value appended to [acc], how many, and what follows. *)
Fixpoint take_digits (acc n : Z) (s : string) : Z * Z * string :=
  match s with
  | EmptyString => (acc, n, s)
  | String a s' =>
      match digit a with
      | Some d => take_digits (acc * 10 + d) (n + 1) s'
      | None => (acc, n, s)
      end
  end.

(** An optional sign: whether it is a minus, and what follows. *)
Definition take_sign (s : string) : bool * string :=
  match s with
  | String a s' =>
      if is_char "-"%char a then (true, s') else if is_char "+"%char a then (false, s') else (false, s)
  | EmptyString => (false, s)
  end.

(** The exponent part, which ends the number. *)
Definition parse_exponent (s : string) : option Z :=
  match s with
  | EmptyString => Some 0
  | String a s =>
      if is_char "e"%char a || is_char "E"%char a then
        let '(neg, s) := take_sign s in
        let '(e, n, rest) := take_digits 0 0 s in
        match rest with
        | EmptyString => if 0 <? n then Some (if neg then - e else e) else None
        | _ => None
        end
      else None
  end.

(** The double nearest to [m * 10^e]. *)
Definition f64_of_decimal (neg : bool) (m e : Z) : f64 :=
  if m =? 0 then S754_zero neg
  else if 0 <=? e then
    binary_normalize 53 1024 (if neg then - (m * 10 ^ e) else m * 10 ^ e) 0 neg
  else
    let '(q, e', l) := SFdiv_core_binary 53 1024 m 0 (10 ^ (- e)) 0 in
    binary_round_aux 53 1024 neg q e' l.

(** [s.parse::<f64>().ok()] *)
Definition parse_f64 (s : string) : option f64 :=
  let '(neg, s) := take_sign s in
  let word := lowercase s in
  if bool_decide (word = "inf"%string) || bool_decide (word = "infinity"%string) then
    Some (S754_infinity neg)
  else if bool_decide (word = "nan"%string) then Some S754_nan
  else
    let '(m, n, s) := take_digits 0 0 s in
    let '(m, n, frac, s) :=
      match s with
      | String a s' =>
          if is_char "."%char a then
            let '(m, k, s) := take_digits m 0 s' in (m, n + k, k, s)
          else (m, n, 0, s)
      | EmptyString => (m, n, 0, s)
      end in
    if n <=? 0 then None
    else e ← parse_exponent s; Some (f64_of_decimal neg m (e - frac)).

Definition f64_is_finite (x : f64) : bool :=
  match x with S754_zero _ | S754_finite _ _ _ => true | _ => false end.

(** ** Rates *)

Definition f64_one : f64 := f64_of_Z 1.

Definition rate_unit (count : f64) (unit : string) : option f64 :=
  if bool_decide (unit ∈ ["s"; "sec"; "second"]%string) then Some count
  else if bool_decide (unit ∈ ["m"; "min"; "minute"]%string) then Some (f64_div count (f64_of_Z 60))
  else if bool_decide (unit ∈ ["h"; "hr"; "hour"]%string) then Some (f64_div count (f64_of_Z 3600))
  else None.

Definition rate_parse (s : string) : option RateLimitConfig :=
  match split_on "/"%char s with
  | [count; unit] =>
      count ← parse_f64 (trim count);
      if negb (f64_is_finite count) || SFltb count f64_one then None
      else refill_rate ← rate_unit count (trim unit); Some (mkRateLimitConfig count refill_rate)
  | _ => None
  end.

(** ** What a parsed rate admits *)

Lemma f64_at_least_one x :
  f64_is_finite x = true -> SFltb x f64_one = false -> SFleb f64_one x = true /\ exists m e, x = S754_finite false m e.
Proof.
  change f64_one with (S754_finite false 4503599627370496 (-52)).
  destruct x as [s|s| |s m e]; [by destruct s|done|done|]. intros _. destruct s; [done|].
  unfold SFltb, SFleb, SFcompare. rewrite (Z.compare_antisym e (-52)).
  destruct (e ?= -52); cbn [CompOpp]; [|done|by split; [|do 2 eexists]].
  assert (Pos.compare_cont Eq 4503599627370496 m = CompOpp (Pos.compare_cont Eq m 4503599627370496))
    as -> by (symmetry; apply (Pos.compare_cont_antisym m 4503599627370496 Eq)).
  destruct (Pos.compare_cont Eq m 4503599627370496); by split; [|do 2 eexists].
Qed.

Lemma rate_parse_inv s c :
  rate_parse s = Some c ->
  SFleb f64_one (rc_max_tokens c) = true /\ exists m e, rc_max_tokens c = S754_finite false m e.
Proof.
  unfold rate_parse. destruct (split_on _ s) as [|a [|b [|]]]; try done. intros Hp.
  apply bind_Some in Hp as (count & _ & Hp).
  destruct (negb (f64_is_finite count) || SFltb count f64_one) eqn:Hc; [done|].
  apply bind_Some in Hp as (rate & _ & [= <-]). apply orb_false_iff in Hc as [Hf%negb_false_iff Hl].
  by apply f64_at_least_one.
Qed.

(** A bucket that was just filled holds its capacity. *)
Lemma refill_full now key m e rate :
  let max := S754_finite false m e in
  rl_tokens (refill now max rate (mkRateLimitRow key max max rate now)) = max.
Proof.
  intros max. unfold refill. cbn [rl_last_refill rl_tokens]. rewrite Z.sub_diag.
  change (f64_div (f64_of_Z (Z.max (as_i64 0) 0)) (f64_of_Z 1000)) with (S754_zero false).
  unfold f64_mul. assert (SFmul 53 1024 (S754_zero false) rate = S754_nan
    \/ exists b, SFmul 53 1024 (S754_zero false) rate = S754_zero b) as [->|[b ->]].
  { destruct rate as [[]|[]| |[] ? ?]; simpl; eauto. }
  - by unfold f64_min.
  - unfold f64_add, max. cbn [SFadd]. unfold f64_min. cbn [f64_is_nan].
    by destruct (SFltb _ _).
Qed.

Section admission.
Context {E : Env}.

(** a rate that parses releases jobs: the count is finite and at least one, so the first
    acquisition under any key without a bucket yet is granted, and it takes one token of
    the full capacity. *)
Theorem parsed_rate_admits s c key w :
  rate_parse s = Some c -> db_rate_limits (db w) !! key = None ->
  pool_ready (S (tick w)) = true ->
  exists now w', try_acquire key c w = (Ok true, w')
    /\ db_rate_limits (db w') !! key = Some (mkRateLimitRow key
         (f64_sub (rc_max_tokens c) f64_one) (rc_max_tokens c) (rc_refill_rate c) now).
Proof.
  intros Hp Hk Hr. destruct (rate_parse_inv _ _ Hp) as [Hle (m & e & Hm)].
  unfold try_acquire, try_acquire_token, try_acquire_tokens. erewrite bind_ok by done.
  set (now := Z.min _ _). exists now. rewrite write_transaction_eq.
  change (tick (mkWorld _ _)) with (S (tick w)). rewrite Hr.
  match goal with |- context [bump 1 ?x] => set (w1 := bump 1 x) end.
  assert (Hfind : sql_find rate_limits key w1 = (Ok None, w1))
    by (unfold sql_find, gets; cbn; by rewrite Hk).
  rewrite (bind_ok _ _ _ _ _ Hfind). cbn [default from_option]. rewrite Hm in *. cbv zeta.
  rewrite refill_full. change (f64_of_Z 1) with f64_one. rewrite Hle. erewrite bind_ok by done.
  eexists. split; [done|]. apply lookup_insert_eq.
Qed.
End admission.

(** *** Example *)

Section examples.
#[local] Existing Instances demo_env demo_engine.

Lemma parsed_rate_admits_witness :
  exists c, rate_parse " 100/m " = Some c
    /\ fst (try_acquire "k" c demo_world) = Ok true.
Proof.
  destruct (rate_parse " 100/m ") as [c|] eqn:Hc; [|by vm_compute in Hc].
  exists c. split; [done|].
  destruct (parsed_rate_admits (E:=demo_env) " 100/m " c "k" demo_world Hc eq_refl eq_refl) as (now & w' & -> & _).
  done.
Defined.
End examples.
