(* ===== verification/Shed.v ===== *)
(** * Load shedding ([scheduler/shed.rs], [scheduler/codel.rs])

    The reasons a job is thrown away rather than run, and the controller that decides
    when a queue has been overloaded for long enough to do so. *)
From S2P Require Import Prelude Text Job Db Store Resilience.

(** ** Reasons *)

Definition CODEL_REASON_PREFIX : string := "codel:".
Definition RATE_LIMIT_REASON_PREFIX : string := "rate_limit:".
Definition QUOTA_REASON_PREFIX : string := "quota:".

(** A JSON object with the one text member [shed]. *)
Definition shed_metadata (kind : string) : string :=
  let q := String (Ascii.ascii_of_nat 34) "" in
  ("{" +:+ q +:+ "shed" +:+ q +:+ ":" +:+ q +:+ kind +:+ q +:+ "}")%string.
Definition RATE_LIMIT_SHED_METADATA : string := shed_metadata "rate_limit".
Definition QUOTA_SHED_METADATA : string := shed_metadata "quota".

Inductive OnExcess := Defer | Drop.

Definition on_excess_parse (spec : string) : option OnExcess :=
  if bool_decide (spec = "defer"%string) then Some Defer
  else if bool_decide (spec = "drop"%string) then Some Drop else None.

Definition on_excess_str (x : OnExcess) : string :=
  match x with Defer => "defer" | Drop => "drop" end.

Definition is_shed_reason (error : option string) : bool :=
  match error with
  | Some e => starts_with CODEL_REASON_PREFIX e || starts_with RATE_LIMIT_REASON_PREFIX e
              || starts_with QUOTA_REASON_PREFIX e
  | None => false
  end.

Definition rate_limit_shed_reason (scope : string) : string :=
  (RATE_LIMIT_REASON_PREFIX +:+ " " +:+ scope
    +:+ " is over its dispatch rate limit, and its on_excess is drop")%string.

(** ** The controller *)

(** [x as i64]: truncates towards zero and saturates; a NaN is zero. *)
Definition f64_to_i64 (x : f64) : Z :=
  match x with
  | S754_zero _ | S754_nan => 0
  | S754_infinity s => if s then i64_min else i64_max
  | S754_finite s m e =>
      let a := Z.shiftl (Zpos m) e in
      sat_i64 (if s then - a else a)
  end.

Record CodelConfig := mkCodelConfig { cd_target_ms : Z; cd_interval_ms : Z }.

Record CodelState := mkCodelState {
  cs_first_above_time : Z;
  cs_drop_next : Z;
  cs_count : Z;
  cs_dropping : bool
}.

Definition codel_default : CodelState := mkCodelState 0 0 0 false.

Definition control_law (count now : Z) (cfg : CodelConfig) : Z :=
  let spacing := f64_to_i64 (f64_div (f64_of_Z (cd_interval_ms cfg))
    (SFsqrt 53 1024 (f64_of_Z (Z.max count 1)))) in
  sat_add_i64 now (Z.max spacing 1).

Definition should_drop (sojourn_ms now : Z) (cfg : CodelConfig) (st : CodelState)
    : bool * CodelState :=
  if sojourn_ms <? cd_target_ms cfg then
    (false, mkCodelState 0 (cs_drop_next st) (cs_count st) false)
  else if cs_first_above_time st =? 0 then
    (false, mkCodelState (sat_add_i64 now (cd_interval_ms cfg)) (cs_drop_next st) (cs_count st)
              (cs_dropping st))
  else if now <? cs_first_above_time st then (false, st)
  else if negb (cs_dropping st) then
    let count :=
      if (2 <? cs_count st)
         && (sat_sub_i64 now (cs_drop_next st) <? as_i64 (8 * cd_interval_ms cfg))
      then cs_count st - 2 else 1 in
    (true, mkCodelState (cs_first_above_time st) (control_law count now cfg) count true)
  else if cs_drop_next st <=? now then
    let count := Z.min (cs_count st + 1) u32_max in
    (true, mkCodelState (cs_first_above_time st) (control_law count now cfg) count true)
  else (false, st).

(** The controller after a history of candidates, each a sojourn and the time it was
    looked at. *)
Definition codel_after (cfg : CodelConfig) (history : list (Z * Z)) : CodelState :=
  foldl (fun st '(sojourn, now) => snd (should_drop sojourn now cfg st)) codel_default history.

(** ** When the controller sheds *)

Section codel.
Context (cfg : CodelConfig).

Lemma codel_after_app history s now :
  codel_after cfg (history ++ [(s, now)]) = snd (should_drop s now cfg (codel_after cfg history)).
Proof. unfold codel_after. by rewrite foldl_app. Qed.

(** The candidates since one that armed the controller, all at or above target. *)
Definition above_since (history : list (Z * Z)) (first_above : Z) : Prop :=
  exists before first rest, history = before ++ first :: rest
    /\ Forall (fun x => cd_target_ms cfg <= fst x) (first :: rest)
    /\ first_above = sat_add_i64 (snd first) (cd_interval_ms cfg).

Lemma above_since_snoc history t s now :
  above_since history t -> cd_target_ms cfg <= s -> above_since (history ++ [(s, now)]) t.
Proof.
  intros (before & first & rest & -> & Hall & ->) Hs. exists before, first, (rest ++ [(s, now)]).
  rewrite <- app_assoc. split_and!; [done| |done].
  rewrite app_comm_cons. apply Forall_app. split; [done|by repeat constructor].
Qed.

(** A step that sheds, or stays above target. *)
Lemma should_drop_above s now st :
  cd_target_ms cfg <= s ->
  cs_first_above_time (snd (should_drop s now cfg st)) =
    (if cs_first_above_time st =? 0 then sat_add_i64 now (cd_interval_ms cfg)
     else cs_first_above_time st).
Proof.
  intros Hs. unfold should_drop. destruct (Z.ltb_spec s (cd_target_ms cfg)); [lia|].
  destruct (cs_first_above_time st =? 0); [done|]. by repeat case_match.
Qed.

Lemma codel_armed history :
  cs_first_above_time (codel_after cfg history) <> 0 ->
  above_since history (cs_first_above_time (codel_after cfg history)).
Proof.
  induction history as [|[s now] history IH] using rev_ind; [done|].
  rewrite codel_after_app. destruct (Z.ltb_spec s (cd_target_ms cfg)) as [Hs|Hs].
  { unfold should_drop. by destruct (Z.ltb_spec s (cd_target_ms cfg)); [|lia]. }
  rewrite should_drop_above by done.
  destruct (Z.eqb_spec (cs_first_above_time (codel_after cfg history)) 0) as [H0|H0]; intros _.
  - exists history, (s, now), []. split_and!; [done|by repeat constructor|done].
  - by apply above_since_snoc; [apply IH|].
Qed.

Lemma should_drop_true s now st st' :
  should_drop s now cfg st = (true, st') ->
  cd_target_ms cfg <= s /\ cs_first_above_time st <> 0 /\ cs_first_above_time st <= now
  /\ (cs_dropping st = true -> cs_drop_next st <= now)
  /\ cs_dropping st' = true /\ cs_first_above_time st' = cs_first_above_time st
  /\ cs_drop_next st' = control_law (cs_count st') now cfg.
Proof.
  unfold should_drop. destruct (Z.ltb_spec s (cd_target_ms cfg)); [done|].
  destruct (Z.eqb_spec (cs_first_above_time st) 0); [done|].
  destruct (Z.ltb_spec now (cs_first_above_time st)); [done|].
  destruct (cs_dropping st) eqn:Hd; simpl.
  - destruct (Z.leb_spec (cs_drop_next st) now); [|done]. by intros [= <-].
  - by intros [= <-].
Qed.

(** An episode holds its state between two drops. *)
Lemma should_drop_held s now st st' :
  cs_dropping st = true -> cs_first_above_time st <> 0 -> cd_target_ms cfg <= s ->
  should_drop s now cfg st = (false, st') -> st' = st.
Proof.
  intros Hd H0 Hs. unfold should_drop. destruct (Z.ltb_spec s (cd_target_ms cfg)); [lia|].
  destruct (Z.eqb_spec (cs_first_above_time st) 0); [done|].
  destruct (now <? _); [by intros [= <-]|]. rewrite Hd. simpl.
  destruct (_ <=? _); [done|]. by intros [= <-].
Qed.

Lemma episode_held mid st :
  cs_dropping st = true -> cs_first_above_time st <> 0 ->
  Forall (fun '(s, now) => cd_target_ms cfg <= s /\ fst (should_drop s now cfg st) = false) mid ->
  foldl (fun st '(s, now) => snd (should_drop s now cfg st)) st mid = st.
Proof.
  intros Hd H0 Hall. induction Hall as [|[s now] mid [Hs Hf] Hall IH]; [done|]. simpl.
  destruct (should_drop s now cfg st) as [b st'] eqn:Hst. simpl in *. subst b.
  rewrite (should_drop_held _ _ _ _ Hd H0 Hs Hst). exact IH.
Qed.

(** a job is shed only under sustained overload.  Whatever the history, a candidate is
    shed only if it and every candidate since some earlier one waited at least the
    target, and that earlier one was looked at a full interval ago; and within an episode
    the next drop comes no earlier than the control law's spacing after the last. *)
Theorem codel_sheds_sustained history s now st' :
  should_drop s now cfg (codel_after cfg history) = (true, st') ->
  (exists before first rest, history = before ++ first :: rest
    /\ Forall (fun x => cd_target_ms cfg <= fst x) ((first :: rest) ++ [(s, now)])
    /\ sat_add_i64 (snd first) (cd_interval_ms cfg) <= now)
  /\ forall mid s2 now2 st2,
      Forall (fun '(s, now) => cd_target_ms cfg <= s /\ fst (should_drop s now cfg st') = false) mid ->
      should_drop s2 now2 cfg (codel_after cfg (history ++ (s, now) :: mid)) = (true, st2) ->
      control_law (cs_count st') now cfg <= now2.
Proof.
  intros Hdrop. destruct (should_drop_true _ _ _ _ Hdrop) as (Hs & H0 & Hle & _ & Hd' & Hf' & Hn').
  split.
  - destruct (codel_armed history H0) as (before & first & rest & Hh & Hall & Hf).
    exists before, first, rest. split_and!; [done| |lia].
    apply Forall_app. split; [done|by repeat constructor].
  - intros mid s2 now2 st2 Hmid Hdrop2.
    assert (codel_after cfg (history ++ (s, now) :: mid) = st') as Hst.
    { unfold codel_after. rewrite foldl_app. fold (codel_after cfg history). simpl. rewrite Hdrop. simpl.
      apply episode_held; [done|congruence|done]. }
    rewrite Hst in Hdrop2. destruct (should_drop_true _ _ _ _ Hdrop2) as (_ & _ & _ & Hnext & _).
    rewrite <- Hn'. by apply Hnext.
Qed.
End codel.

(** *** Example *)

Lemma codel_sheds_sustained_witness :
  let cfg := mkCodelConfig 5 100 in
  let history := [(9, 1000); (9, 1050)] in
  let x := should_drop 9 1100 cfg (codel_after cfg history) in
  fst x = true /\ control_law (cs_count (snd x)) 1100 cfg = 1200
  /\ exists before first rest, history = before ++ first :: rest
     /\ Forall (fun y => 5 <= fst y) ((first :: rest) ++ [(9, 1100)])
     /\ sat_add_i64 (snd first) 100 <= 1100.
Proof.
  intros cfg history x. split; [by vm_compute|]. split; [by vm_compute|].
  exact (proj1 (codel_sheds_sustained cfg history 9 1100 (snd x) ltac:(by vm_compute))).
Defined.
