(* ===== verification/Claims.v ===== *)
(** * Locks, execution claims and the attempt fence
      ([diesel_common/locks.rs], [sqlite/locks.rs], [diesel_common/steps.rs], [lease.rs])

    Distributed locks with their leader election; execution claims, won by insert and
    transferred by a compare on the owner; the fence that decides whether a result still
    speaks for a job; and the settle marker of a dispatch accepted out of band. *)
From S2P Require Import Prelude Job Db Store Enqueue Dequeue Transitions Cascade Purge.

Inductive AttemptFence := Authorized | Superseded.
Inductive SettleGrant := Granted | Refused.
Inductive SettleClaimant :=
  | Lease (epoch : Z)
  | Expired (now : Z)
  | Abandoned.

(** [epochs_agree]: an absent epoch is no evidence of staleness. *)
Definition epochs_agree (claim result : option Z) : bool :=
  match claim, result with
  | Some claim, Some result => claim =? result
  | _, _ => true
  end.

(** [lease_authorizes]: an absent epoch proves nothing. *)
Definition lease_authorizes (claim presented : option Z) : bool :=
  match claim, presented with
  | Some claim, Some presented => claim =? presented
  | _, _ => false
  end.

Section claims.
Context {E : Env} {G : Engine}.

(** *** Locks *)

Definition acquire_lock (lock_name owner_id : string) (ttl_ms : Z) : DbM bool :=
  conn ;;
  now ← now_millis;
  transaction (
    existing ← sql_find distributed_locks lock_name;
    let held := match existing with Some lock => now <? lk_expires_at lock | None => false end in
    if held then mret false
    else
      sql_replace distributed_locks lock_name
        (mkLockRow lock_name owner_id now (now + ttl_ms)) ;;
      mret true).

Definition release_lock (lock_name owner_id : string) : DbM bool :=
  conn ;;
  affected ← sql_delete distributed_locks (fun l =>
    bool_decide (lk_lock_name l = lock_name) && bool_decide (lk_owner_id l = owner_id));
  mret (0 <? affected).

Definition extend_lock (lock_name owner_id : string) (ttl_ms : Z) : DbM bool :=
  conn ;;
  now ← now_millis;
  affected ← sql_update distributed_locks lock_name
    (fun l => bool_decide (lk_owner_id l = owner_id)) (lk_with_expires_at (now + ttl_ms));
  mret (0 <? affected).

Definition get_lock_info (lock_name : string) : DbM (option LockRow) :=
  conn ;; sql_find distributed_locks lock_name.

Definition reap_expired_locks (now : Z) : DbM Z :=
  conn ;; sql_delete distributed_locks (fun l => lk_expires_at l <=? now).

Definition try_lead (lock_name owner_id : string) (ttl_ms : Z) : DbM bool :=
  extended ← extend_lock lock_name owner_id ttl_ms;
  if (extended : bool) then mret true else acquire_lock lock_name owner_id ttl_ms.

(** *** Claims *)

(** [(rand::random::<u64>() >> 1) as i64] *)
Definition mint_claim_epoch : DbM Z :=
  draw (fun n => as_i64 (Z.shiftr (as_u64 (random_u64 n)) 1)).

Definition insert_claim (job_id worker_id : string) (now epoch : Z) : DbM (option Z) :=
  r ← attempt (sql_insert execution_claims job_id
        (mkExecutionClaimRow job_id worker_id now (Some epoch) None));
  match r with
  | Ok _ => mret (Some epoch)
  | Err (Storage UniqueViolation) => mret None
  | Err e => throw e
  end.

Definition claim_execution (job_id worker_id : string) : DbM (option Z) :=
  conn ;;
  now ← now_millis;
  epoch ← mint_claim_epoch;
  insert_claim job_id worker_id now epoch.

Definition claim_execution_batch (job_ids : list string) (worker_id : string)
    : DbM (list (option Z)) :=
  if bool_decide (job_ids = []) then mret []
  else
    now ← now_millis;
    write_transaction (foldM (fun claimed job_id =>
      epoch ← mint_claim_epoch;
      c ← insert_claim job_id worker_id now epoch;
      mret (claimed ++ [c])) [] job_ids).

Definition complete_execution (job_id : string) (namespace : option string) : DbM unit :=
  hidden ← hidden_job job_id namespace;
  if (hidden : bool) then mret tt
  else conn ;; sql_delete_pk execution_claims job_id ;; mret tt.

Definition reclaim_execution (job_id expected_owner new_owner : string) : DbM (option Z) :=
  conn ;;
  now ← now_millis;
  epoch ← mint_claim_epoch;
  affected ← sql_update execution_claims job_id
    (fun c => bool_decide (ec_worker_id c = expected_owner))
    (fun c => mkExecutionClaimRow (ec_job_id c) new_owner now (Some epoch)
                (ec_settle_deadline_ms c));
  mret (if 0 <? affected then Some epoch else None).

Definition purge_execution_claims (older_than_ms : Z) : DbM Z :=
  conn ;;
  now ← now_millis;
  sql_delete execution_claims (fun c =>
    (ec_claimed_at c <? older_than_ms)
    && match ec_settle_deadline_ms c with None => true | Some d => d <? now end).

(** *** The fence *)

Definition resolve_attempt_fence (job_id owner : string) (attempt_no : Z) (epoch : option Z)
    (namespace : option string) (reassert : bool) : DbM (option string) :=
  job ← sql_find jobs job_id;
  match job with
  | None => throw (ClaimLost job_id)
  | Some row =>
      if negb (job_in_namespace (jr_namespace row) namespace)
         || negb (jr_status row =? as_int Running) || negb (jr_retry_count row =? attempt_no)
      then throw (ClaimLost job_id)
      else
        claim ← sql_find execution_claims job_id;
        match claim with
        | Some c =>
            if bool_decide (ec_worker_id c = owner) then
              if epochs_agree (ec_epoch c) epoch then mret (jr_namespace row)
              else throw (ClaimLost job_id)
            else throw (ClaimLost job_id)
        | None =>
            (if reassert then
               now ← now_millis;
               sql_insert execution_claims job_id (mkExecutionClaimRow job_id owner now epoch None)
             else mret tt) ;;
            mret (jr_namespace row)
        end
  end.

Definition authorize_attempt (job_id owner : string) (attempt_no : Z) (epoch : option Z)
    (namespace : option string) : DbM AttemptFence :=
  conn ;;
  r ← attempt (resolve_attempt_fence job_id owner attempt_no epoch namespace false);
  match r with
  | Ok _ => mret Authorized
  | Err (ClaimLost _) => mret Superseded
  | Err other => throw other
  end.

(** *** The settle marker *)

Definition await_settle (job_id owner : string) (attempt_no : Z) (epoch : option Z)
    (deadline_ms : Z) (namespace : option string) : DbM (option Z) :=
  write_transaction (
    r ← attempt (resolve_attempt_fence job_id owner attempt_no epoch namespace true);
    match r with
    | Err (ClaimLost _) => mret None
    | Err other => throw other
    | Ok _ =>
        held ← sql_find execution_claims job_id;
        let deadline :=
          match held ≫= ec_settle_deadline_ms with
          | Some held => Z.max held deadline_ms
          | None => deadline_ms
          end in
        sql_update execution_claims job_id (fun _ => true)
          (ec_with_settle_deadline_ms (Some deadline)) ;;
        mret (Some deadline)
    end).

(** The filter each claimant adds to [settle_deadline_ms IS NOT NULL]. *)
Definition may_settle (claimant : SettleClaimant) (c : ExecutionClaimRow) : bool :=
  match ec_settle_deadline_ms c with
  | None => false
  | Some deadline =>
      match claimant with
      | Lease epoch => lease_authorizes (ec_epoch c) (Some epoch)
      | Expired now => deadline <=? now
      | Abandoned => true
      end
  end.

Definition claim_settle (job_id : string) (claimant : SettleClaimant)
    (namespace : option string) : DbM SettleGrant :=
  write_transaction (
    job ← sql_find jobs job_id;
    let visible := match namespace with
                   | None => true
                   | Some scope => bool_decide ((job ≫= jr_namespace) = Some scope)
                   end in
    if negb visible then mret Refused
    else
      affected ← sql_update execution_claims job_id (may_settle claimant)
        (ec_with_settle_deadline_ms None);
      mret (if 0 <? affected then Granted else Refused)).

End claims.

(** ** Properties *)

Section properties.
Context {E : Env} {G : Engine} `{!UuidFresh E} `{!ScanComplete G}.

(** *** Locks *)

Definition lock_db (l : LockRow) (name : string) (d : DB) : DB :=
  set_distributed_locks (<[name := l]> (db_distributed_locks d)) d.

Lemma extend_lock_eq name owner ttl w :
  extend_lock name owner ttl w =
    if pool_ready (tick w) then
      match db_distributed_locks (db w) !! name with
      | Some l =>
          if bool_decide (lk_owner_id l = owner)
          then (Ok true, mkWorld (lock_db (lk_with_expires_at (clock_at (S (tick w)) + ttl) l)
                  name (db w)) (2 + tick w))
          else (Ok false, bump 2 w)
      | None => (Ok false, bump 2 w)
      end
    else (Err Pool, bump 1 w).
Proof.
  unfold extend_lock. destruct (pool_ready (tick w)) eqn:Hp.
  - rewrite (bind_ok _ _ _ _ _ (conn_ok w Hp)). erewrite bind_ok by done.
    unfold mbind, M_bind, sql_update. simpl.
    destruct (db_distributed_locks (db w) !! name) as [l|]; [|done]. by case_bool_decide.
  - by rewrite (bind_err _ _ _ _ _ (conn_err w Hp)).
Qed.

Lemma acquire_lock_eq name owner ttl w :
  let now := clock_at (S (tick w)) in
  acquire_lock name owner ttl w =
    if pool_ready (tick w) then
      if match db_distributed_locks (db w) !! name with
         | Some l => now <? lk_expires_at l
         | None => false
         end
      then (Ok false, bump 2 w)
      else (Ok true, mkWorld (lock_db (mkLockRow name owner now (now + ttl)) name (db w))
                       (2 + tick w))
    else (Err Pool, bump 1 w).
Proof.
  intros now. unfold acquire_lock. destruct (pool_ready (tick w)) eqn:Hp.
  - rewrite (bind_ok _ _ _ _ _ (conn_ok w Hp)). erewrite bind_ok by done.
    unfold transaction, mbind, M_bind. simpl. fold (clock_at (S (tick w))) now.
    destruct (db_distributed_locks (db w) !! name) as [l|]; [|done].
    by destruct (now <? lk_expires_at l).
  - by rewrite (bind_err _ _ _ _ _ (conn_err w Hp)).
Qed.

(** While another owner's lease is unexpired an attempt to lead changes nothing. *)
Lemma try_lead_held name d l b ttl n :
  db_distributed_locks d !! name = Some l -> b <> lk_owner_id l -> clock_at (3 + n) < lk_expires_at l ->
  let x := try_lead name b ttl (mkWorld d n) in fst x <> Ok true /\ db (snd x) = d.
Proof.
  intros Hl Hb Ht x. unfold x, try_lead, mbind, M_bind.
  rewrite extend_lock_eq. cbn [db tick]. destruct (pool_ready n); [|done].
  rewrite Hl, bool_decide_eq_false_2 by congruence. rewrite acquire_lock_eq. cbn [db tick bump].
  destruct (pool_ready (2 + n)); [|done]. rewrite Hl, (proj2 (Z.ltb_lt _ _)); [done|exact Ht].
Qed.

(** Leader election excludes.  A caller told it leads owns the lock, until a full
    lease after the time it read; and while that lease is unexpired no other caller is
    told that it leads, and its attempt leaves the lock as it is. *)
Theorem try_lead_exclusive name a ttl w w' :
  try_lead name a ttl w = (Ok true, w') ->
  exists l i, db_distributed_locks (db w') !! name = Some l /\ lk_owner_id l = a
    /\ lk_expires_at l = clock_at i + ttl /\ (tick w <= i < tick w')%nat
    /\ forall b ttl' n, b <> a -> clock_at (3 + n) < lk_expires_at l ->
         let x := try_lead name b ttl' (mkWorld (db w') n) in
         fst x <> Ok true /\ db (snd x) = db w'.
Proof.
  unfold try_lead, mbind at 1, M_bind at 1. rewrite extend_lock_eq.
  destruct (pool_ready (tick w)); [|done].
  assert (Hacq : acquire_lock name a ttl (bump 2 w) = (Ok true, w') ->
    exists l i, db_distributed_locks (db w') !! name = Some l /\ lk_owner_id l = a
      /\ lk_expires_at l = clock_at i + ttl /\ (tick w <= i < tick w')%nat).
  { rewrite acquire_lock_eq. destruct (pool_ready _); [|done].
    destruct (match _ with Some l => _ | None => _ end); [done|]. intros [= <-].
    eexists _, (3 + tick w)%nat. split; [apply lookup_insert_eq|]. simpl. split_and!; [done|done|lia..]. }
  intros Hrun. assert (Hl : exists l i, db_distributed_locks (db w') !! name = Some l
    /\ lk_owner_id l = a /\ lk_expires_at l = clock_at i + ttl /\ (tick w <= i < tick w')%nat).
  { destruct (db_distributed_locks (db w) !! name) as [l|] eqn:Hl; [|by apply Hacq].
    case_bool_decide as Ho; [|by apply Hacq]. injection Hrun as <-.
    eexists _, (S (tick w)). split; [apply lookup_insert_eq|]. simpl. split_and!; [done|done|lia..]. }
  destruct Hl as (l & i & Hl & Ho & Hx & Hi). exists l, i. split_and!; [done|done|done|lia|lia|].
  intros b ttl' n Hb Ht. apply (try_lead_held _ _ l); [done|congruence|done].
Qed.

(** *** Claims *)

Definition claim_db (c : ExecutionClaimRow) (id : string) (d : DB) : DB :=
  set_execution_claims (<[id := c]> (db_execution_claims d)) d.

Definition epoch_at (n : nat) : Z := as_i64 (Z.shiftr (as_u64 (random_u64 n)) 1).

Lemma insert_claim_eq id worker now epoch w :
  insert_claim id worker now epoch w =
    match db_execution_claims (db w) !! id with
    | Some _ => (Ok None, w)
    | None => (Ok (Some epoch), mkWorld
        (claim_db (mkExecutionClaimRow id worker now (Some epoch) None) id (db w)) (tick w))
    end.
Proof.
  unfold insert_claim. destruct (db_execution_claims (db w) !! id) as [c|] eqn:Hc.
  - erewrite bind_attempt; [|unfold sql_insert; simpl; by rewrite Hc].
    done.
  - by erewrite bind_attempt by (apply sql_insert_fresh; done).
Qed.

Lemma claim_execution_eq id worker w :
  claim_execution id worker w =
    if pool_ready (tick w) then
      match db_execution_claims (db w) !! id with
      | Some _ => (Ok None, bump 3 w)
      | None =>
          let epoch := epoch_at (2 + tick w) in
          (Ok (Some epoch), mkWorld (claim_db
             (mkExecutionClaimRow id worker (clock_at (S (tick w))) (Some epoch) None) id (db w))
             (3 + tick w))
      end
    else (Err Pool, bump 1 w).
Proof.
  unfold claim_execution. destruct (pool_ready (tick w)) eqn:Hp.
  - rewrite (bind_ok _ _ _ _ _ (conn_ok w Hp)). erewrite bind_ok by done.
    erewrite bind_ok by done. rewrite insert_claim_eq. simpl.
    by destruct (db_execution_claims (db w) !! id).
  - by rewrite (bind_err _ _ _ _ _ (conn_err w Hp)).
Qed.

Lemma reclaim_execution_eq id expected owner w :
  reclaim_execution id expected owner w =
    if pool_ready (tick w) then
      match db_execution_claims (db w) !! id with
      | Some c =>
          if bool_decide (ec_worker_id c = expected) then
            let epoch := epoch_at (2 + tick w) in
            (Ok (Some epoch), mkWorld (claim_db
               (mkExecutionClaimRow (ec_job_id c) owner (clock_at (S (tick w))) (Some epoch)
                  (ec_settle_deadline_ms c)) id (db w)) (3 + tick w))
          else (Ok None, bump 3 w)
      | None => (Ok None, bump 3 w)
      end
    else (Err Pool, bump 1 w).
Proof.
  unfold reclaim_execution. destruct (pool_ready (tick w)) eqn:Hp.
  - rewrite (bind_ok _ _ _ _ _ (conn_ok w Hp)). erewrite bind_ok by done.
    erewrite bind_ok by done. unfold mbind, M_bind, sql_update. simpl.
    destruct (db_execution_claims (db w) !! id) as [c|]; [|done]. by case_bool_decide.
  - by rewrite (bind_err _ _ _ _ _ (conn_err w Hp)).
Qed.

(** C11: A claim has one winner.  The worker whose claim succeeds is the recorded owner,
    under the epoch it was given, and until the claim is removed every other claim of
    the job is told it lost and changes nothing.  Likewise, of the rescuers that try to
    take a claim over from the same dead owner, one succeeds, and the others are told so
    and change nothing. *)
Theorem claim_single_winner id worker expected w epoch w' :
  (claim_execution id worker w = (Ok (Some epoch), w') ->
     (exists c, db_execution_claims (db w') !! id = Some c /\ ec_worker_id c = worker
        /\ ec_epoch c = Some epoch)
     /\ forall other n, let x := claim_execution id other (mkWorld (db w') n) in
          (fst x = Ok None \/ fst x = Err Pool) /\ db (snd x) = db w')
  /\ (reclaim_execution id expected worker w = (Ok (Some epoch), w') -> worker <> expected ->
     (exists c, db_execution_claims (db w') !! id = Some c /\ ec_worker_id c = worker
        /\ ec_epoch c = Some epoch)
     /\ forall other n, let x := reclaim_execution id expected other (mkWorld (db w') n) in
          (fst x = Ok None \/ fst x = Err Pool) /\ db (snd x) = db w').
Proof.
  split.
  - rewrite claim_execution_eq. destruct (pool_ready (tick w)); [|done].
    destruct (db_execution_claims (db w) !! id); [done|]. intros [= <- <-]. split.
    + eexists. split; [apply lookup_insert_eq|done].
    + intros other n x. unfold x. rewrite claim_execution_eq.
      cbn -[pool_ready epoch_at clock_at]. destruct (pool_ready n); [|by split; [right|]].
      rewrite lookup_insert_eq. by split; [left|].
  - rewrite reclaim_execution_eq. destruct (pool_ready (tick w)); [|done].
    destruct (db_execution_claims (db w) !! id) as [c|]; [|done].
    case_bool_decide; [|done]. intros [= <- <-] Hne. split.
    + eexists. split; [apply lookup_insert_eq|done].
    + intros other n x. unfold x. rewrite reclaim_execution_eq.
      cbn -[pool_ready epoch_at clock_at]. destruct (pool_ready n); [|by split; [right|]].
      rewrite lookup_insert_eq, bool_decide_eq_false_2 by done. by split; [left|].
Qed.

(** *** The fence *)

(** What the fence asks of the job and of its claim. *)
Definition attempt_current (d : DB) (id : string) (attempt_no : Z) (ns : option string)
    : option JobRow :=
  r ← db_jobs d !! id;
  if job_in_namespace (jr_namespace r) ns && (jr_status r =? as_int Running)
     && (jr_retry_count r =? attempt_no)
  then Some r else None.

Definition claim_allows (d : DB) (id owner : string) (epoch : option Z) : bool :=
  match db_execution_claims d !! id with
  | Some c => bool_decide (ec_worker_id c = owner) && epochs_agree (ec_epoch c) epoch
  | None => true
  end.

Lemma fence_eq id owner attempt_no epoch ns reassert w :
  resolve_attempt_fence id owner attempt_no epoch ns reassert w =
    match attempt_current (db w) id attempt_no ns with
    | None => (Err (ClaimLost id), w)
    | Some r =>
        if claim_allows (db w) id owner epoch then
          match db_execution_claims (db w) !! id with
          | None =>
              if reassert then
                (Ok (jr_namespace r), mkWorld (claim_db (mkExecutionClaimRow id owner
                   (clock_at (tick w)) epoch None) id (db w)) (S (tick w)))
              else (Ok (jr_namespace r), w)
          | Some _ => (Ok (jr_namespace r), w)
          end
        else (Err (ClaimLost id), w)
    end.
Proof.
  unfold resolve_attempt_fence, attempt_current, claim_allows. erewrite bind_ok by done. simpl.
  destruct (db_jobs (db w) !! id) as [r|]; [|done]. simpl.
  destruct (job_in_namespace (jr_namespace r) ns), (jr_status r =? as_int Running),
    (jr_retry_count r =? attempt_no); try done. simpl. erewrite bind_ok by done. simpl.
  destruct (db_execution_claims (db w) !! id) as [c|] eqn:Hc.
  - case_bool_decide; simpl; [|done]. by destruct (epochs_agree (ec_epoch c) epoch).
  - destruct reassert; [|done]. unfold mbind, M_bind, now_millis, draw.
    by rewrite sql_insert_fresh.
Qed.

Lemma authorize_attempt_eq id owner attempt_no epoch ns w :
  pool_ready (tick w) = true ->
  let ok := bool_decide (is_Some (attempt_current (db w) id attempt_no ns))
            && claim_allows (db w) id owner epoch in
  authorize_attempt id owner attempt_no epoch ns w
    = (Ok (if ok then Authorized else Superseded), bump 1 w)
  /\ (forall w', resolve_attempt_fence id owner attempt_no epoch ns true w = (Err (ClaimLost id), w')
        <-> ok = false /\ w' = w)
  /\ (ok = true -> exists ns' w',
        resolve_attempt_fence id owner attempt_no epoch ns true w = (Ok ns', w')
        /\ claim_allows (db w') id owner epoch = true
        /\ is_Some (db_execution_claims (db w') !! id) /\ db_jobs (db w') = db_jobs (db w)).
Proof.
  intros Hp ok. unfold ok. split_and!.
  - unfold authorize_attempt. rewrite (bind_ok _ _ _ _ _ (conn_ok w Hp)).
    unfold mbind, M_bind, attempt. rewrite fence_eq. change (db (bump 1 w)) with (db w).
    destruct (attempt_current (db w) id attempt_no ns); [|done].
    rewrite bool_decide_eq_true_2 by done. destruct (claim_allows (db w) id owner epoch); [|done].
    by destruct (db_execution_claims (db w) !! id).
  - intros w'. rewrite fence_eq. destruct (attempt_current (db w) id attempt_no ns) as [r|].
    + rewrite bool_decide_eq_true_2 by done.
      destruct (claim_allows (db w) id owner epoch), (db_execution_claims (db w) !! id);
        simpl; split; try (by intros [=]); try (by intros [[=] _]); try (by intros [= <-]);
        by intros [_ ->].
    + rewrite bool_decide_eq_false_2 by (by intros []). simpl.
      split; [by intros [= <-]|]. by intros [_ ->].
  - rewrite fence_eq. destruct (attempt_current (db w) id attempt_no ns) as [r|]; [|done].
    rewrite bool_decide_eq_true_2 by done. intros Hok. simpl in Hok. rewrite Hok.
    destruct (db_execution_claims (db w) !! id) as [c|] eqn:Hc.
    + exists (jr_namespace r), w. by rewrite Hc.
    + eexists _, _. split; [done|]. unfold claim_allows. cbn. rewrite !lookup_insert_eq. simpl.
      rewrite bool_decide_eq_true_2 by done. split_and!; [|done|done].
      destruct epoch; simpl; [apply Z.eqb_refl|done].
Qed.

(** The fence.  With a connection, a result is authorized exactly when the job is
    running in the caller's namespace at the attempt it reports and the claim, if there
    is one, names its owner under an epoch that does not disagree; otherwise it is
    superseded.  The check writes nothing; the write form of the fence accepts exactly
    the same attempts, and leaves the attempt's claim in place when none was there. *)
Theorem authorize_attempt_spec id owner attempt_no epoch ns w :
  pool_ready (tick w) = true ->
  let ok := bool_decide (is_Some (attempt_current (db w) id attempt_no ns))
            && claim_allows (db w) id owner epoch in
  authorize_attempt id owner attempt_no epoch ns w
    = (Ok (if ok then Authorized else Superseded), bump 1 w)
  /\ (forall w', resolve_attempt_fence id owner attempt_no epoch ns true w = (Err (ClaimLost id), w')
        <-> ok = false /\ w' = w)
  /\ (ok = true -> exists ns' w',
        resolve_attempt_fence id owner attempt_no epoch ns true w = (Ok ns', w')
        /\ claim_allows (db w') id owner epoch = true
        /\ is_Some (db_execution_claims (db w') !! id) /\ db_jobs (db w') = db_jobs (db w)).
Proof. apply authorize_attempt_eq. Qed.

(** *** Settling *)

Lemma claim_settle_eq id claimant ns w :
  claim_settle id claimant ns w =
    if pool_ready (tick w) then
      if match ns with
         | None => true
         | Some scope => bool_decide ((db_jobs (db w) !! id ≫= jr_namespace) = Some scope)
         end
      then match db_execution_claims (db w) !! id with
           | Some c =>
               if may_settle claimant c
               then (Ok Granted, mkWorld (claim_db (ec_with_settle_deadline_ms None c) id (db w))
                       (S (tick w)))
               else (Ok Refused, bump 1 w)
           | None => (Ok Refused, bump 1 w)
           end
      else (Ok Refused, bump 1 w)
    else (Err Pool, bump 1 w).
Proof.
  unfold claim_settle. rewrite write_transaction_eq. destruct (pool_ready (tick w)); [|done].
  erewrite bind_ok by done. simpl.
  destruct (match ns with Some _ => _ | None => _ end); [|done]. simpl.
  unfold mbind, M_bind, sql_update. simpl.
  destruct (db_execution_claims (db w) !! id) as [c|]; [|done]. by destruct (may_settle claimant c).
Qed.

(** C12: A dispatch accepted out of band is settled at most once.  A grant is given only
    to a claimant with a right to it (a lease whose epoch equals the claim's, or a
    scheduler whose clock has reached the stored deadline, or one giving the dispatch
    up); it consumes the marker, keeping the claim with its owner and epoch, and after
    it every claimant is refused. *)
Theorem claim_settle_once id claimant ns w w' :
  claim_settle id claimant ns w = (Ok Granted, w') ->
  exists c, db_execution_claims (db w) !! id = Some c /\ is_Some (ec_settle_deadline_ms c)
    /\ match claimant with
       | Lease epoch => ec_epoch c = Some epoch
       | Expired now => exists d, ec_settle_deadline_ms c = Some d /\ d <= now
       | Abandoned => True
       end
    /\ db_execution_claims (db w') !! id = Some (ec_with_settle_deadline_ms None c)
    /\ forall claimant' ns' n, let x := claim_settle id claimant' ns' (mkWorld (db w') n) in
         fst x <> Ok Granted /\ db (snd x) = db w'.
Proof.
  rewrite claim_settle_eq. destruct (pool_ready (tick w)); [|done].
  destruct (match ns with Some _ => _ | None => _ end); [|done].
  destruct (db_execution_claims (db w) !! id) as [c|]; [|done].
  destruct (may_settle claimant c) eqn:Hmay; [|done]. intros [= <-].
  unfold may_settle in Hmay. destruct (ec_settle_deadline_ms c) as [d|] eqn:Hd; [|done].
  exists c. split_and!; [done|by eexists| |apply lookup_insert_eq|].
  - destruct claimant as [epoch|now|]; [|exists d; split; [done|by apply Z.leb_le]|done].
    unfold lease_authorizes in Hmay. destruct (ec_epoch c); [|done].
    apply Z.eqb_eq in Hmay. congruence.
  - intros claimant' ns' n x. unfold x. rewrite claim_settle_eq. cbn -[bool_decide may_settle].
    destruct (pool_ready n); [|done].
    destruct (match ns' with Some _ => _ | None => _ end); [|done].
    by rewrite lookup_insert_eq.
Qed.

Lemma await_settle_cases id owner attempt_no epoch deadline ns w :
  pool_ready (tick w) = true ->
  let old := db_execution_claims (db w) !! id ≫= ec_settle_deadline_ms in
  let d := match old with Some held => Z.max held deadline | None => deadline end in
  exists w', await_settle id owner attempt_no epoch deadline ns w
      = (Ok (if bool_decide (is_Some (attempt_current (db w) id attempt_no ns))
                && claim_allows (db w) id owner epoch then Some d else None), w')
    /\ db_jobs (db w') = db_jobs (db w)
    /\ (bool_decide (is_Some (attempt_current (db w) id attempt_no ns))
          && claim_allows (db w) id owner epoch = true ->
         (db_execution_claims (db w') !! id ≫= ec_settle_deadline_ms) = Some d).
Proof.
  intros Hp old d. unfold await_settle. rewrite write_transaction_eq, Hp.
  unfold attempt, mbind, M_bind. rewrite fence_eq. change (db (bump 1 w)) with (db w).
  destruct (attempt_current (db w) id attempt_no ns) as [r|].
  2:{ rewrite bool_decide_eq_false_2 by (by intros []). by eexists. }
  rewrite bool_decide_eq_true_2 by done.
  destruct (claim_allows (db w) id owner epoch); [|by eexists]. unfold d, old.
  destruct (db_execution_claims (db w) !! id) as [c|] eqn:Hc.
  - cbn -[bool_decide]. rewrite Hc. unfold sql_update. cbn. rewrite Hc.
    eexists. split; [done|]. split; [done|]. intros _. cbn. by rewrite lookup_insert_eq.
  - cbn -[bool_decide]. rewrite lookup_insert_eq. unfold sql_update. cbn.
    rewrite lookup_insert_eq. eexists. split; [done|]. split; [done|]. intros _. cbn.
    by rewrite lookup_insert_eq.
Qed.

(** *** Preservation of the invariant *)

Lemma keeps_mint I `{!TickMono I} : keeps I mint_claim_epoch.
Proof. unfold mint_claim_epoch. eauto with keeps. Qed.

Lemma keeps_acquire_lock n o t : keeps wf (acquire_lock n o t).
Proof. unfold acquire_lock. solve_keeps. Qed.
Lemma keeps_release_lock n o : keeps wf (release_lock n o).
Proof. unfold release_lock. solve_keeps. Qed.
Lemma keeps_extend_lock n o t : keeps wf (extend_lock n o t).
Proof. unfold extend_lock. solve_keeps. Qed.
Lemma keeps_reap_expired_locks t : keeps wf (reap_expired_locks t).
Proof. unfold reap_expired_locks. solve_keeps. Qed.

#[local] Hint Resolve keeps_mint keeps_acquire_lock keeps_extend_lock : keeps.

Lemma keeps_try_lead n o t : keeps wf (try_lead n o t).
Proof. unfold try_lead. solve_keeps. Qed.

Lemma keeps_insert_claim id o now e : keeps wf (insert_claim id o now e).
Proof. unfold insert_claim. solve_keeps. Qed.

#[local] Hint Resolve keeps_insert_claim : keeps.

Lemma keeps_claim_execution id o : keeps wf (claim_execution id o).
Proof. unfold claim_execution. solve_keeps. Qed.
Lemma keeps_claim_execution_batch ids o : keeps wf (claim_execution_batch ids o).
Proof. unfold claim_execution_batch. solve_keeps. Qed.
Lemma keeps_complete_execution id ns : keeps wf (complete_execution id ns).
Proof. unfold complete_execution, hidden_job. solve_keeps. Qed.
Lemma keeps_reclaim_execution id o o' : keeps wf (reclaim_execution id o o').
Proof. unfold reclaim_execution. solve_keeps. Qed.
Lemma keeps_purge_execution_claims t : keeps wf (purge_execution_claims t).
Proof. unfold purge_execution_claims. solve_keeps. Qed.

Lemma keeps_fence id o a e ns b : keeps wf (resolve_attempt_fence id o a e ns b).
Proof. unfold resolve_attempt_fence. solve_keeps. Qed.

#[local] Hint Resolve keeps_fence : keeps.

Lemma keeps_authorize_attempt id o a e ns : keeps wf (authorize_attempt id o a e ns).
Proof. unfold authorize_attempt. solve_keeps. Qed.
Lemma keeps_await_settle id o a e t ns : keeps wf (await_settle id o a e t ns).
Proof. unfold await_settle. solve_keeps. Qed.
Lemma keeps_claim_settle id c ns : keeps wf (claim_settle id c ns).
Proof. unfold claim_settle. solve_keeps. Qed.
End properties.

#[export] Hint Resolve keeps_mint keeps_acquire_lock keeps_release_lock keeps_extend_lock
  keeps_reap_expired_locks keeps_try_lead keeps_insert_claim keeps_claim_execution
  keeps_claim_execution_batch keeps_complete_execution keeps_reclaim_execution
  keeps_purge_execution_claims keeps_fence keeps_authorize_attempt keeps_await_settle
  keeps_claim_settle : keeps.

(** ** Examples *)

Section examples.
#[local] Existing Instances demo_env demo_engine demo_uuid_fresh demo_scan_complete.

Lemma try_lead_exclusive_witness :
  let w := snd (try_lead "flexiq:retention" "a" 1000 demo_world) in
  fst (try_lead "flexiq:retention" "b" 1000 w) <> Ok true
  /\ db (snd (try_lead "flexiq:retention" "b" 1000 w)) = db w.
Proof.
  intros w. assert (Hx : try_lead "flexiq:retention" "a" 1000 demo_world = (Ok true, w))
    by by vm_compute.
  destruct (try_lead_exclusive _ _ _ _ _ Hx) as (l & i & Hl & _ & _ & _ & Hb).
  assert (Hw : mkWorld (db w) (tick w) = w) by by destruct w.
  rewrite <- Hw at 1 2. apply Hb; [done|].
  assert (Hexp : (lk_expires_at <$> db_distributed_locks (db w) !! "flexiq:retention"%string)
    = Some 2003) by by vm_compute.
  rewrite Hl in Hexp. injection Hexp as ->. by vm_compute.
Defined.

Definition claimed_world : World := snd (claim_execution (uuid_v7 1) "a" running_world).

Lemma claim_single_winner_witness :
  fst (claim_execution (uuid_v7 1) "b" claimed_world) = Ok None
  /\ db (snd (claim_execution (uuid_v7 1) "b" claimed_world)) = db claimed_world.
Proof.
  assert (Hx : claim_execution (uuid_v7 1) "a" running_world
    = (Ok (Some (epoch_at 6)), claimed_world)) by by vm_compute.
  destruct (proj1 (claim_single_winner _ _ "none" _ _ _) Hx) as [_ Hother].
  destruct (Hother "b"%string (tick claimed_world)) as [_ Hd].
  assert (Hw : mkWorld (db claimed_world) (tick claimed_world) = claimed_world) by done.
  rewrite Hw in Hd. split; [by vm_compute|exact Hd].
Defined.

Lemma authorize_attempt_spec_witness :
  fst (authorize_attempt (uuid_v7 1) "a" 0 (Some (epoch_at 6)) (Some "acme") claimed_world)
    = Ok Authorized
  /\ fst (authorize_attempt (uuid_v7 1) "b" 0 None (Some "acme") claimed_world) = Ok Superseded.
Proof.
  destruct (authorize_attempt_spec (E:=demo_env) (uuid_v7 1) "a" 0 (Some (epoch_at 6)) (Some "acme")
    claimed_world eq_refl) as [-> _].
  destruct (authorize_attempt_spec (E:=demo_env) (uuid_v7 1) "b" 0 None (Some "acme") claimed_world eq_refl)
    as [-> _].
  split; by vm_compute.
Defined.

Lemma claim_settle_once_witness :
  let w := snd (await_settle (uuid_v7 1) "a" 0 (Some (epoch_at 6)) 9000 None claimed_world) in
  let w' := snd (claim_settle (uuid_v7 1) (Lease (epoch_at 6)) None w) in
  fst (claim_settle (uuid_v7 1) Abandoned None (mkWorld (db w') 50)) <> Ok Granted.
Proof.
  intros w w'.
  assert (Hx : claim_settle (uuid_v7 1) (Lease (epoch_at 6)) None w = (Ok Granted, w'))
    by by vm_compute.
  destruct (claim_settle_once _ _ _ _ _ Hx) as (c & _ & _ & _ & _ & Hn).
  exact (proj1 (Hn Abandoned None 50%nat)).
Defined.
End examples.
