(* ===== verification/Workers.v ===== *)
(** * The worker registry ([diesel_common/workers.rs], [sqlite/workers.rs], [storage/mod.rs])

    A worker registers itself, sends heartbeats and reads back whether it was asked to
    drain.  An elected reaper removes the workers that have fallen silent, and the
    subscriptions of workers that are gone. *)
From S2P Require Import Prelude Job Db Store Claims PubSub.

Definition DEAD_WORKER_THRESHOLD_MS : Z := 30000.
Definition REAPER_LOCK : string := "flexiq:reaper".
Definition REAPER_LOCK_TTL_MS : Z := 15000.

Definition dead_worker_cutoff (now : Z) : Z := sat_sub_i64 now DEAD_WORKER_THRESHOLD_MS.

Inductive WorkerStatus := Active | Draining.

Definition worker_status_str (s : WorkerStatus) : string :=
  match s with Active => "active" | Draining => "draining" end.

Definition worker_status_from_wire (wire : string) : WorkerStatus :=
  if bool_decide (wire = "draining"%string) then Draining else Active.

Definition worker_status_parse (wire : string) : option WorkerStatus :=
  if bool_decide (wire = "active"%string) then Some Active
  else if bool_decide (wire = "draining"%string) then Some Draining else None.

Record WorkerRegistration := mkWorkerRegistration {
  wr_worker_id : string;
  wr_queues : string;
  wr_tags : option string;
  wr_resources : option string;
  wr_resource_health : option string;
  wr_threads : Z;
  wr_hostname : option string;
  wr_pid : option Z;
  wr_pool_type : option string;
  wr_sdk : option string;
  wr_sdk_version : option string;
  wr_registry_fingerprint : option string;
  wr_namespace : option string
}.

(** [NewWorkerRow::joining] *)
Definition joining (r : WorkerRegistration) (now : Z) : WorkerRow :=
  mkWorkerRow (wr_worker_id r) now (wr_queues r) "active" (wr_tags r) (wr_resources r)
    (wr_resource_health r) (wr_threads r) (Some now) (wr_hostname r) (wr_pid r) (wr_pool_type r)
    (wr_sdk r) (wr_sdk_version r) (wr_registry_fingerprint r) (wr_namespace r).

Definition with_heartbeat (now : Z) (health : option string) (r : WorkerRow) : WorkerRow :=
  mkWorkerRow (wk_worker_id r) now (wk_queues r) (wk_status r) (wk_tags r) (wk_resources r) health
    (wk_threads r) (wk_started_at r) (wk_hostname r) (wk_pid r) (wk_pool_type r) (wk_sdk r)
    (wk_sdk_version r) (wk_registry_fingerprint r) (wk_namespace r).

Definition with_worker_status (status : string) (r : WorkerRow) : WorkerRow :=
  mkWorkerRow (wk_worker_id r) (wk_last_heartbeat r) (wk_queues r) status (wk_tags r)
    (wk_resources r) (wk_resource_health r) (wk_threads r) (wk_started_at r) (wk_hostname r)
    (wk_pid r) (wk_pool_type r) (wk_sdk r) (wk_sdk_version r) (wk_registry_fingerprint r)
    (wk_namespace r).

Section workers.
Context {E : Env} {G : Engine}.

Definition register_worker (registration : WorkerRegistration) : DbM unit :=
  conn ;;
  now ← now_millis;
  sql_replace workers (wr_worker_id registration) (joining registration now).

Definition heartbeat (worker_id : string) (resource_health : option string)
    : DbM (option WorkerStatus) :=
  conn ;;
  now ← now_millis;
  sql_update workers worker_id (fun _ => true) (with_heartbeat now resource_health) ;;
  row ← sql_find workers worker_id;
  mret ((fun r => worker_status_from_wire (wk_status r)) <$> row).

Definition request_worker_drain (worker_id : string) (namespace : option string) : DbM bool :=
  conn ;;
  updated ← sql_update workers worker_id (fun r => bool_decide (wk_namespace r = namespace))
    (with_worker_status (worker_status_str Draining));
  mret (0 <? updated).

Definition update_worker_status (worker_id : string) (status : WorkerStatus) : DbM unit :=
  conn ;;
  sql_update workers worker_id (fun _ => true) (with_worker_status (worker_status_str status)) ;;
  mret tt.

Definition list_workers (namespace : option string) : DbM (list WorkerRow) :=
  conn ;; sql_select workers (fun r => bool_decide (wk_namespace r = namespace)).

Definition list_live_worker_ids (cutoff_ms : Z) : DbM (list string) :=
  conn ;;
  rows ← sql_select workers (fun r => cutoff_ms <=? wk_last_heartbeat r);
  mret (wk_worker_id <$> rows).

Definition reap_dead_workers : DbM (list string) :=
  conn ;;
  now ← now_millis;
  let cutoff := dead_worker_cutoff now in
  dead ← sql_select workers (fun r => wk_last_heartbeat r <? cutoff);
  let dead_ids := wk_worker_id <$> dead in
  (if bool_decide (dead_ids = []) then mret tt
   else sql_delete workers (fun r => mem (wk_worker_id r) dead_ids && (wk_last_heartbeat r <? cutoff)) ;;
        mret tt) ;;
  mret dead_ids.

Definition unregister_worker (worker_id : string) : DbM unit :=
  conn ;; sql_delete_pk workers worker_id ;; mret tt.

Definition list_claims_by_worker (worker_id : string) : DbM (list string) :=
  conn ;;
  rows ← sql_select execution_claims (fun c => bool_decide (ec_worker_id c = worker_id));
  mret (ec_job_id <$> rows).

(** ** Elected sweeps *)

Definition reap_dead_workers_if_leader (owner_id : string) : DbM (list string) :=
  r ← attempt (try_lead REAPER_LOCK owner_id REAPER_LOCK_TTL_MS);
  let leading := match r with Ok b => b | Err _ => false end in
  if negb leading then mret []
  else
    ids ← attempt reap_dead_workers;
    mret match ids with Ok ids => ids | Err _ => [] end.

Definition sweep_ephemeral_subscriptions (elected_owner : option string) : DbM Z :=
  leading ← match elected_owner with
    | Some owner => try_lead REAPER_LOCK owner REAPER_LOCK_TTL_MS
    | None => mret true
    end;
  if negb leading then mret 0
  else
    now ← now_millis;
    live ← list_live_worker_ids (dead_worker_cutoff now);
    reap_ephemeral_subscriptions live.

(** ** The calls a cluster makes on the registry *)

Inductive WorkerOp :=
  | WRegister (registration : WorkerRegistration)
  | WHeartbeat (worker_id : string) (resource_health : option string)
  | WDrain (worker_id : string) (namespace : option string)
  | WSetStatus (worker_id : string) (status : WorkerStatus)
  | WReap
  | WReapElected (owner_id : string)
  | WUnregister (worker_id : string).

Definition run_worker_op (op : WorkerOp) : DbM unit :=
  match op with
  | WRegister r => attempt (register_worker r) ;; mret tt
  | WHeartbeat id h => attempt (heartbeat id h) ;; mret tt
  | WDrain id ns => attempt (request_worker_drain id ns) ;; mret tt
  | WSetStatus id s => attempt (update_worker_status id s) ;; mret tt
  | WReap => attempt reap_dead_workers ;; mret tt
  | WReapElected owner => attempt (reap_dead_workers_if_leader owner) ;; mret tt
  | WUnregister id => attempt (unregister_worker id) ;; mret tt
  end.
End workers.

(** ** Laws *)

Section proofs.
Context {E : Env} {G : Engine} `{!ScanComplete G}.

(** Workers are stored under their ids. *)
Definition workers_keyed (d : DB) : Prop := map_Forall (fun k r => wk_worker_id r = k) (db_workers d).

(** A reap removes and reports exactly the workers whose last heartbeat is further back than
    the threshold, at the time it read. *)
Theorem reap_dead_workers_spec w r w' :
  workers_keyed (db w) -> reap_dead_workers w = (r, w') ->
  let silent := fun row => wk_last_heartbeat row <? dead_worker_cutoff (clock_at (S (tick w))) in
  match r with
  | Ok ids =>
      (forall id, id ∈ ids <-> exists row, db_workers (db w) !! id = Some row /\ silent row = true)
      /\ db w' = set_workers (keep_where silent (db_workers (db w))) (db w)
  | Err e => e = Pool /\ db w' = db w
  end.
Proof.
  intros Hkey Hrun silent. unfold reap_dead_workers in Hrun.
  destruct (pool_ready (tick w)) eqn:Hp.
  2:{ rewrite (bind_err _ _ _ _ _ (conn_err _ Hp)) in Hrun. by injection Hrun as <- <-. }
  rewrite (bind_ok _ _ _ _ _ (conn_ok _ Hp)) in Hrun. erewrite bind_ok in Hrun by done.
  change (Z.min _ _) with (clock_at (S (tick w))) in Hrun. erewrite bind_ok in Hrun by done.
  set (dead := filter _ _) in Hrun.
  assert (Hdead : forall id, id ∈ wk_worker_id <$> dead <->
    exists row, db_workers (db w) !! id = Some row /\ silent row = true).
  { intros id. unfold dead. rewrite list_elem_of_fmap. split.
    - intros (row & -> & [Hs [k Hk]%elem_of_scan]%list_elem_of_filter). exists row.
      rewrite (Hkey _ _ Hk). split; [done|]. by apply Is_true_true.
    - intros (row & Hk & Hs). exists row. split; [by rewrite (Hkey _ _ Hk)|].
      apply list_elem_of_filter. split; [by apply Is_true_true|]. apply elem_of_scan. by exists id. }
  assert (Hkeep : keep_where (fun row => mem (wk_worker_id row) (wk_worker_id <$> dead) && silent row)
    (db_workers (db w)) = keep_where silent (db_workers (db w))).
  { apply map_eq. intros k. apply option_eq. intros row. rewrite !keep_where_lookup.
    split; intros [Hk Hs]; (split; [done|]); destruct (silent row) eqn:Hsil; try done.
    - unfold mem in Hs. rewrite bool_decide_eq_true_2 in Hs; [done|].
      apply Hdead. exists row. by rewrite (Hkey _ _ Hk).
    - by rewrite andb_false_r. }
  case_bool_decide as Hnil; erewrite bind_ok in Hrun by done; injection Hrun as <- <-; (split; [done|]).
  - assert (Hall : keep_where silent (db_workers (db w)) = db_workers (db w)).
    { apply map_eq. intros k. apply option_eq. intros row. rewrite keep_where_lookup.
      split; [by intros [? _]|]. intros Hk. split; [done|]. destruct (silent row) eqn:Hsil; [|done].
      assert (Hin : wk_worker_id row ∈ wk_worker_id <$> dead) by (apply Hdead; exists row; by rewrite (Hkey _ _ Hk)).
      rewrite Hnil in Hin. by apply elem_of_nil in Hin. }
    rewrite Hall. by destruct w as [[] ?].
  - simpl. by rewrite <- Hkeep.
Qed.

(** *** Between two heartbeats *)

Section window.
Context (t : Z) (id : string) (P : string -> Prop) (stop : nat).

(** Until [stop], the worker is registered with a heartbeat no older than [t] and a status
    that satisfies [P]. *)
Definition present (w : World) : Prop :=
  (tick w <= stop)%nat -> exists row, db_workers (db w) !! id = Some row
    /\ t <= wk_last_heartbeat row /\ P (wk_status row).

#[local] Instance present_mono : TickMono present.
Proof. intros d n n' Hn Hp Hs. apply Hp. simpl in *. lia. Qed.
#[local] Instance present_locks : Aside present distributed_locks. Proof. by intros m w. Qed.

Context (start : nat) (Hclock : forall n, (start <= n < stop)%nat -> t <= clock_at n <= t + DEAD_WORKER_THRESHOLD_MS).

Definition allowed (op : WorkerOp) : Prop :=
  match op with
  | WRegister r => wr_worker_id r = id -> P "active"
  | WDrain k _ => k = id -> P "draining"
  | WSetStatus k s => k = id -> P (worker_status_str s)
  | WUnregister k => k <> id
  | _ => True
  end.

Definition from_start (w : World) : Prop := (start <= tick w)%nat /\ present w.

Lemma keeps_update_worker k p f w r w' :
  from_start w -> sql_update workers k p f w = (r, w') ->
  (forall row, k = id -> t <= wk_last_heartbeat row -> P (wk_status row) ->
     (tick w <= stop)%nat -> t <= wk_last_heartbeat (f row) /\ P (wk_status (f row))) ->
  from_start w'.
Proof.
  intros [Hs Hp] Hrun Hf. unfold sql_update in Hrun. simpl in Hrun.
  destruct (db_workers (db w) !! k) as [row|] eqn:Hk; [|by injection Hrun as <- <-].
  destruct (p row); injection Hrun as <- <-; [|done]. split; [done|]. intros Hle. simpl in *.
  destruct (Hp Hle) as (row' & Hrow' & Hl & HP). destruct (decide (k = id)) as [->|Hne].
  - rewrite lookup_insert_eq. eexists. split; [done|]. rewrite Hk in Hrow'. injection Hrow' as <-. by apply Hf.
  - rewrite lookup_insert_ne by done. by exists row'.
Qed.

Lemma cutoff_window n : (start <= n < stop)%nat -> dead_worker_cutoff (clock_at n) <= t.
Proof.
  intros Hn. specialize (Hclock n Hn). unfold dead_worker_cutoff, sat_sub_i64, sat_i64.
  assert (Hb : 0 <= clock_at n <= i64_max) by (unfold clock_at, i64_max; lia).
  rewrite clamp_id; unfold DEAD_WORKER_THRESHOLD_MS, i64_min, i64_max in *; lia.
Qed.

Lemma from_start_bump n w : from_start w -> from_start (bump n w).
Proof.
  destruct w as [d m]. intros [Hs Hp]. simpl in *. split; [simpl; lia|].
  apply (present_mono d m); [simpl; lia|done].
Qed.

Lemma keeps_reap : keeps from_start reap_dead_workers.
Proof.
  intros w Hw. unfold reap_dead_workers. destruct (pool_ready (tick w)) eqn:Hp.
  2:{ rewrite (bind_err _ _ _ _ _ (conn_err _ Hp)). by apply (from_start_bump 1). }
  rewrite (bind_ok _ _ _ _ _ (conn_ok _ Hp)). erewrite bind_ok by done. erewrite bind_ok by done.
  change (Z.min _ _) with (clock_at (S (tick w))). pose proof (from_start_bump 2 _ Hw) as Hw2.
  unfold mbind, M_bind. case_bool_decide; simpl; [exact Hw2|]. destruct Hw as [Hs Hpr].
  split; [simpl; lia|]. intros Hle. simpl in *. destruct Hpr as (row & Hrow & Hl & HP); [lia|].
  exists row. split_and!; [|done|done]. apply map_lookup_filter_Some. split; [done|]. simpl.
  assert (Hcut : dead_worker_cutoff (clock_at (S (tick w))) <= t) by (apply cutoff_window; lia).
  rewrite (proj2 (Z.ltb_ge _ _)) by lia. by rewrite andb_false_r.
Qed.

Lemma from_start_try_lead name owner ttl : keeps from_start (try_lead name owner ttl).
Proof.
  assert (Hmono : TickMono from_start).
  { intros d n n' Hn [Hs Hp]. split; [simpl in *; lia|]. by eapply present_mono. }
  assert (Has : Aside from_start distributed_locks) by by intros m w.
  unfold try_lead, extend_lock, acquire_lock. solve_keeps.
Qed.

Lemma keeps_worker_op op : allowed op -> keeps from_start (run_worker_op op).
Proof.
  intros Hop. destruct op as [reg|k h|k ns|k s| |owner|k]; simpl in *;
    (apply keeps_bind; [apply keeps_attempt|intros _; apply keeps_ret]).
  - intros w Hw. unfold register_worker. destruct (pool_ready (tick w)) eqn:Hp.
    2:{ rewrite (bind_err _ _ _ _ _ (conn_err _ Hp)). by apply (from_start_bump 1). }
    rewrite (bind_ok _ _ _ _ _ (conn_ok _ Hp)). erewrite bind_ok by done.
    change (Z.min _ _) with (clock_at (S (tick w))). destruct Hw as [Hs Hpr].
    split; [simpl; lia|]. intros Hle. simpl in *. destruct (decide (wr_worker_id reg = id)) as [<-|Hne].
    + rewrite lookup_insert_eq. eexists. split; [done|]. simpl. split; [apply Hclock; lia|by apply Hop].
    + rewrite lookup_insert_ne by done. apply Hpr. lia.
  - intros w Hw. unfold heartbeat. destruct (pool_ready (tick w)) eqn:Hp.
    2:{ rewrite (bind_err _ _ _ _ _ (conn_err _ Hp)). by apply (from_start_bump 1). }
    rewrite (bind_ok _ _ _ _ _ (conn_ok _ Hp)). erewrite bind_ok by done.
    change (Z.min _ _) with (clock_at (S (tick w))).
    destruct (sql_update workers k (fun _ => true) (with_heartbeat (clock_at (S (tick w))) h)
      (mkWorld (db (bump 1 w)) (S (tick (bump 1 w))))) as [u w2] eqn:Hu.
    assert (Hw2 : from_start w2).
    { eapply keeps_update_worker; [exact (from_start_bump 2 _ Hw)|exact Hu|]. intros row _ _ HP Hle.
      simpl in *. split; [|done]. destruct Hw as [Hs _]. apply Hclock. simpl in *. lia. }
    destruct u as [u|e]; [|by rewrite (bind_err _ _ _ _ _ Hu)].
    rewrite (bind_ok _ _ _ _ _ Hu). by erewrite bind_ok by done.
  - intros w Hw. unfold request_worker_drain. destruct (pool_ready (tick w)) eqn:Hp.
    2:{ rewrite (bind_err _ _ _ _ _ (conn_err _ Hp)). by apply (from_start_bump 1). }
    rewrite (bind_ok _ _ _ _ _ (conn_ok _ Hp)).
    match goal with |- context [sql_update ?t ?k ?p ?f] => destruct (sql_update t k p f (bump 1 w)) as [u w2] eqn:Hu end.
    assert (Hw2 : from_start w2).
    { eapply keeps_update_worker; [exact (from_start_bump 1 _ Hw)|exact Hu|]. intros row Hk Hl _ _. simpl. auto. }
    destruct u as [u|e]; [by rewrite (bind_ok _ _ _ _ _ Hu)|by rewrite (bind_err _ _ _ _ _ Hu)].
  - intros w Hw. unfold update_worker_status. destruct (pool_ready (tick w)) eqn:Hp.
    2:{ rewrite (bind_err _ _ _ _ _ (conn_err _ Hp)). by apply (from_start_bump 1). }
    rewrite (bind_ok _ _ _ _ _ (conn_ok _ Hp)).
    match goal with |- context [sql_update ?t ?k ?p ?f] => destruct (sql_update t k p f (bump 1 w)) as [u w2] eqn:Hu end.
    assert (Hw2 : from_start w2).
    { eapply keeps_update_worker; [exact (from_start_bump 1 _ Hw)|exact Hu|]. intros row Hk Hl _ _. simpl. auto. }
    destruct u as [u|e]; [by rewrite (bind_ok _ _ _ _ _ Hu)|by rewrite (bind_err _ _ _ _ _ Hu)].
  - apply keeps_reap.
  - unfold reap_dead_workers_if_leader. apply keeps_bind; [apply keeps_attempt, from_start_try_lead|].
    intros r. destruct (negb _); [apply keeps_ret|]. apply keeps_bind; [apply keeps_attempt, keeps_reap|].
    intros ids. apply keeps_ret.
  - intros w Hw. unfold unregister_worker. destruct (pool_ready (tick w)) eqn:Hp.
    2:{ rewrite (bind_err _ _ _ _ _ (conn_err _ Hp)). by apply (from_start_bump 1). }
    rewrite (bind_ok _ _ _ _ _ (conn_ok _ Hp)). erewrite bind_ok by done. destruct Hw as [Hs Hpr].
    split; [simpl; lia|]. intros Hle. simpl in *. rewrite lookup_delete_ne by done. apply Hpr. lia.
Qed.
End window.

Definition run_worker_ops (ops : list WorkerOp) : DbM unit := for_each run_worker_op ops.

(** a worker that keeps its heartbeat stays registered, and a drain request reaches it.
    Let a worker's last heartbeat be at [t], and let the cluster make any calls on the
    registry, reaps included, while the clock reads no more than the threshold past [t] and
    nobody unregisters it.  Then the worker is still registered with a heartbeat no older
    than [t] and counted among the live ones; and if it was asked to drain and neither
    registers anew nor has its status set, its next heartbeat tells it so. *)
Theorem live_worker_kept ops w id row :
  db_workers (db w) !! id = Some row ->
  let w' := snd (run_worker_ops ops w) in
  (forall n, (tick w <= n < tick w')%nat ->
     wk_last_heartbeat row <= clock_at n <= wk_last_heartbeat row + DEAD_WORKER_THRESHOLD_MS) ->
  Forall (fun op => op <> WUnregister id) ops ->
  (exists row', db_workers (db w') !! id = Some row'
     /\ forall now, now <= wk_last_heartbeat row + DEAD_WORKER_THRESHOLD_MS -> i64_min <= now - DEAD_WORKER_THRESHOLD_MS ->
          dead_worker_cutoff now <= wk_last_heartbeat row')
  /\ (wk_status row = worker_status_str Draining ->
      Forall (fun op => match op with
        | WRegister r => wr_worker_id r <> id | WSetStatus k _ => k <> id | _ => True end) ops ->
      forall health, pool_ready (tick w') = true ->
        fst (heartbeat id health w') = Ok (Some Draining)).
Proof.
  intros Hrow w' Hclock Hops.
  assert (Hkeep : forall P : string -> Prop, P (wk_status row) -> (forall op, op ∈ ops -> allowed id P op) ->
    from_start (wk_last_heartbeat row) id P (tick w') (tick w) w').
  { intros P HP Hal.
    assert (Hk : keeps (from_start (wk_last_heartbeat row) id P (tick w') (tick w)) (run_worker_ops ops)).
    { apply keeps_for_each. intros op Hop. apply keeps_worker_op; [exact Hclock|by apply Hal]. }
    apply Hk. split; [done|]. intros _. by exists row. }
  split.
  - destruct (Hkeep (fun _ => True)) as [_ Hp]; [done| |].
    { intros [] Hop; simpl; try done. intros ->. rewrite Forall_forall in Hops. by apply (Hops _ Hop). }
    destruct Hp as (row' & Hrow' & Hl & _); [done|]. exists row'. split; [done|]. intros now Hn Hlo.
    unfold dead_worker_cutoff, sat_sub_i64, sat_i64, clamp. repeat case_match; lia.
  - intros Hdr Hops' health Hp.
    destruct (Hkeep (fun s => s = "draining"%string)) as [_ Hpr]; [done| |].
    { rewrite Forall_forall in Hops, Hops'. intros [] Hop; simpl; try done.
      - intros Hid. by destruct (Hops' _ Hop).
      - intros Hid. by destruct (Hops' _ Hop).
      - intros ->. by apply (Hops _ Hop). }
    destruct Hpr as (row' & Hrow' & _ & Hst); [done|].
    unfold heartbeat. rewrite (bind_ok _ _ _ _ _ (conn_ok _ Hp)). erewrite bind_ok by done.
    unfold sql_update, mbind, M_bind. simpl. rewrite Hrow'. simpl. rewrite lookup_insert_eq. simpl.
    by rewrite Hst.
Qed.
End proofs.

(** ** Examples *)

Section examples.
#[local] Existing Instances demo_env demo_engine demo_scan_complete.

Definition demo_registration (id : string) : WorkerRegistration :=
  mkWorkerRegistration id "default" None None None 4 None None None None None None None.

Definition registry_world : World := snd (register_worker (demo_registration "a") demo_world).

(** A drain request, then reaps around a heartbeat. *)
Definition demo_calls : list WorkerOp :=
  [WDrain "a" None; WReap; WHeartbeat "a" None; WReapElected "b"; WUnregister "c"].

Lemma live_worker_kept_witness :
  let w' := snd (run_worker_ops demo_calls registry_world) in
  is_Some (db_workers (db w') !! "a"%string)
  /\ fst (heartbeat "a" None w') = Ok (Some Draining).
Proof.
  set (drained := snd (run_worker_op (WDrain "a" None) registry_world)).
  assert (Hrow : exists row, db_workers (db drained) !! "a"%string = Some row
    /\ wk_last_heartbeat row = 1001 /\ wk_status row = "draining"%string) by (eexists; split_and!; by vm_compute).
  destruct Hrow as (row & Hrow & Hl & Hst).
  assert (Hend : run_worker_ops demo_calls registry_world = run_worker_ops (tail demo_calls) drained)
    by by vm_compute.
  assert (Htick : tick drained = 3%nat /\ tick (snd (run_worker_ops (tail demo_calls) drained)) = 14%nat)
    by (split; by vm_compute).
  destruct Htick as [Ht Ht'].
  destruct (live_worker_kept (tail demo_calls) drained "a" row Hrow) as [(row' & Hrow' & _) Hdrain].
  - intros n Hn. rewrite Ht, Ht' in Hn. rewrite Hl. unfold clock_at, DEAD_WORKER_THRESHOLD_MS, i64_max. simpl. lia.
  - by repeat constructor.
  - intros w'. unfold w'. rewrite Hend. split; [by rewrite Hrow'|].
    apply Hdrain; [done|by repeat constructor|done].
Defined.

Lemma reap_dead_workers_spec_witness :
  let late := mkWorld (db registry_world) 40000 in
  fst (reap_dead_workers late) = Ok ["a"%string] /\ db_workers (db (snd (reap_dead_workers late))) = ∅.
Proof.
  intros late.
  assert (Hr : fst (reap_dead_workers late) = Ok ["a"%string]) by by vm_compute.
  assert (Hkey : workers_keyed (db late)).
  { assert (Hw : db_workers (db late) = {["a"%string := joining (demo_registration "a") 1001]}) by by vm_compute.
    intros k r Hk. rewrite Hw in Hk. by apply lookup_singleton_Some in Hk as [<- <-]. }
  destruct (reap_dead_workers late) as [r w'] eqn:Hx. simpl in Hr. subst r.
  destruct (reap_dead_workers_spec late _ w' Hkey Hx) as [_ Hdb]. split; [done|]. simpl. rewrite Hdb. by vm_compute.
Defined.
End examples.
