(* ===== verification/InFlight.v ===== *)
(** * What a scheduler has dispatched ([scheduler/mod.rs], [lease.rs])

    Each dispatch leaves a record, the token its result is checked against; a finished
    dispatch is retired, not forgotten, so that a straggler can still be told from the
    attempt that replaced it.  The counts per task follow the records, the memory of
    retired dispatches is bounded, and its order follows its contents. *)
From S2P Require Import Prelude Job Db Claims.

(** ** Leases *)

(** The [base64] crate's URL-safe alphabet without padding. *)
Class Base64 := {
  b64_encode : bytes -> string;
  b64_decode : string -> option bytes
}.

(** RFC 4648: decoding undoes encoding. *)
Class Base64Law (B : Base64) : Prop :=
  b64_decode_encode : forall b, b64_decode (b64_encode b) = Some b.

Definition byte_of_Z (z : Z) : Byte.byte := default x00 (Byte.of_N (Z.to_N (z mod 256))).
Definition Z_of_byte (b : Byte.byte) : Z := Z.of_N (Byte.to_N b).

(** [i64::to_be_bytes] and [i64::from_be_bytes] *)
Fixpoint be_bytes (n : nat) (z : Z) : bytes :=
  match n with
  | O => []
  | S n => byte_of_Z (Z.shiftr z (8 * Z.of_nat n)) :: be_bytes n z
  end.
Definition of_be_bytes (l : bytes) : Z := foldl (fun acc b => acc * 256 + Z_of_byte b) 0 l.

Definition Lease : Type := string.

Section lease.
Context {B : Base64}.

Definition from_epoch (epoch : Z) : Lease := b64_encode (be_bytes 8 (as_u64 epoch)).

Definition lease_epoch (lease : Lease) : option Z :=
  bytes ← b64_decode lease;
  if bool_decide (length bytes = 8%nat) then Some (as_i64 (of_be_bytes bytes)) else None.
End lease.

(** [LeaseBook] *)
Definition LeaseBook : Type := gmap string Lease.
Definition issue (job_id : string) (lease : Lease) (book : LeaseBook) : LeaseBook :=
  <[job_id := lease]> book.
Definition is_current (job_id : string) (lease : Lease) (book : LeaseBook) : bool :=
  bool_decide (book !! job_id = Some lease).
Definition lease_retire (job_id : string) (lease : Lease) (book : LeaseBook) : LeaseBook :=
  if bool_decide (book !! job_id = Some lease) then delete job_id book else book.
Definition lease_forget (job_id : string) (book : LeaseBook) : LeaseBook := delete job_id book.

(** ** Dispatch records *)

Definition RETIRED_DISPATCHES : nat := 1024.

Record DispatchRecord := mkDispatchRecord {
  dr_task_name : string;
  dr_queue : string;
  dr_owner : string;
  dr_attempt : Z;
  dr_epoch : option Z
}.

Record InFlight := mkInFlight {
  if_by_job : gmap string DispatchRecord;
  if_count_by_task : gmap string nat;
  if_retired : gmap string DispatchRecord;
  if_retired_order : list string
}.

Definition no_dispatch : InFlight := mkInFlight ∅ ∅ ∅ [].

Definition if_len (f : InFlight) : nat := size (if_by_job f).
Definition count_for (task_name : string) (f : InFlight) : nat :=
  default 0%nat (if_count_by_task f !! task_name).

Definition drop_retired (job_id : string) (f : InFlight) : InFlight :=
  match if_retired f !! job_id with
  | Some _ =>
      mkInFlight (if_by_job f) (if_count_by_task f) (delete job_id (if_retired f))
        (filter (fun id => id <> job_id) (if_retired_order f))
  | None => f
  end.

Definition if_insert (job_id : string) (record : DispatchRecord) (f : InFlight) : InFlight :=
  let f := drop_retired job_id f in
  let counts :=
    match if_by_job f !! job_id with
    | None => <[dr_task_name record := S (count_for (dr_task_name record) f)]> (if_count_by_task f)
    | Some _ => if_count_by_task f
    end in
  mkInFlight (<[job_id := record]> (if_by_job f)) counts (if_retired f) (if_retired_order f).

Definition if_take (job_id : string) (f : InFlight) : option DispatchRecord * InFlight :=
  match if_by_job f !! job_id with
  | None => (None, f)
  | Some record =>
      let counts :=
        match if_count_by_task f !! dr_task_name record with
        | Some count =>
            if bool_decide (count - 1 = 0)%nat then delete (dr_task_name record) (if_count_by_task f)
            else <[dr_task_name record := (count - 1)%nat]> (if_count_by_task f)
        | None => if_count_by_task f
        end in
      (Some record,
       mkInFlight (delete job_id (if_by_job f)) counts (if_retired f) (if_retired_order f))
  end.

(** The oldest retired records, popped until the bound holds. *)
Fixpoint trim_retired (order : list string) (retired : gmap string DispatchRecord)
    : list string * gmap string DispatchRecord :=
  if bool_decide (RETIRED_DISPATCHES < length order)%nat then
    match order with
    | oldest :: order => trim_retired order (delete oldest retired)
    | [] => ([], retired)
    end
  else (order, retired).

Definition retire (job_id : string) (record : DispatchRecord) (f : InFlight) : InFlight :=
  let order :=
    match if_retired f !! job_id with
    | None => if_retired_order f ++ [job_id]
    | Some _ => if_retired_order f
    end in
  let '(order, retired) := trim_retired order (<[job_id := record]> (if_retired f)) in
  mkInFlight (if_by_job f) (if_count_by_task f) retired order.

Definition if_remove (job_id : string) (f : InFlight) : option DispatchRecord * InFlight :=
  let '(taken, f) := if_take job_id f in
  match taken with
  | None => (None, f)
  | Some record => (Some record, retire job_id record f)
  end.

Definition last_dispatch (job_id : string) (f : InFlight) : option DispatchRecord :=
  match if_by_job f !! job_id with
  | Some record => Some record
  | None => if_retired f !! job_id
  end.

Definition if_forget (job_id : string) (f : InFlight) : InFlight :=
  drop_retired job_id (snd (if_take job_id f)).

(** ** The invariant *)

(** How many of the records name a task. *)
Definition task_live (task_name : string) (m : gmap string DispatchRecord) : nat :=
  size (filter (fun kr => dr_task_name (snd kr) = task_name) m).

Record in_flight_ok (f : InFlight) : Prop := {
  ifo_counts : forall task, count_for task f = task_live task (if_by_job f);
  ifo_positive : forall task n, if_count_by_task f !! task = Some n -> (0 < n)%nat;
  ifo_order : NoDup (if_retired_order f);
  ifo_retired : forall id, id ∈ if_retired_order f <-> is_Some (if_retired f !! id);
  ifo_bound : (length (if_retired_order f) <= RETIRED_DISPATCHES)%nat;
  ifo_apart : forall id, is_Some (if_by_job f !! id) -> if_retired f !! id = None
}.

Lemma no_dispatch_ok : in_flight_ok no_dispatch.
Proof.
  split; simpl; try done.
  - constructor.
  - intros id. split; [intros ?%not_elem_of_nil; done|intros [? ?]; done].
  - unfold RETIRED_DISPATCHES. lia.
Qed.

Lemma drop_retired_ok id f : in_flight_ok f -> in_flight_ok (drop_retired id f).
Proof.
  intros Hf. unfold drop_retired. destruct (if_retired f !! id) eqn:Hr; [|done].
  split; simpl; try apply Hf.
  - by apply NoDup_filter, Hf.
  - intros i. rewrite list_elem_of_filter, (ifo_retired f Hf).
    destruct (decide (i = id)) as [->|Hne].
    + rewrite lookup_delete_eq. split; [by intros []|by intros []].
    + rewrite lookup_delete_ne by done. tauto.
  - etrans; [apply length_filter|apply Hf].
  - intros i Hi. destruct (decide (i = id)) as [->|Hne]; [apply lookup_delete_eq|].
    rewrite lookup_delete_ne by done. by apply Hf.
Qed.

Lemma drop_retired_fields id f :
  if_by_job (drop_retired id f) = if_by_job f
  /\ if_count_by_task (drop_retired id f) = if_count_by_task f
  /\ if_retired (drop_retired id f) !! id = None.
Proof.
  unfold drop_retired. destruct (if_retired f !! id) eqn:Hr; simpl; [|done].
  by rewrite lookup_delete_eq.
Qed.

Lemma task_live_insert id r m task :
  m !! id = None ->
  task_live task (<[id := r]> m)
  = (task_live task m + if decide (dr_task_name r = task) then 1 else 0)%nat.
Proof.
  intros Hid. unfold task_live. case_decide as Ht.
  - rewrite map_filter_insert_True by done. rewrite map_size_insert_None; [lia|].
    apply map_lookup_filter_None. by left.
  - rewrite map_filter_insert_not'; [lia|done|]. intros y Hy. congruence.
Qed.

Lemma task_live_delete id r m task :
  m !! id = Some r ->
  task_live task m
  = (task_live task (delete id m) + if decide (dr_task_name r = task) then 1 else 0)%nat.
Proof.
  intros Hid. rewrite <- (insert_delete_id m id r) at 1 by done.
  apply task_live_insert, lookup_delete_eq.
Qed.

(** A new dispatch, of a job that is dispatched under the same task if at all. *)
Lemma if_insert_ok id r f :
  in_flight_ok f ->
  (forall r0, if_by_job f !! id = Some r0 -> dr_task_name r0 = dr_task_name r) ->
  in_flight_ok (if_insert id r f).
Proof.
  intros Hf0 Hsame. unfold if_insert. pose proof (drop_retired_ok id f Hf0) as Hf.
  destruct (drop_retired_fields id f) as (Hby & _ & Hnone). rewrite <- Hby in Hsame. clear Hby.
  generalize dependent (drop_retired id f). clear f Hf0. intros f Hsame Hf Hnone.
  destruct (if_by_job f !! id) as [r0|] eqn:Hid; split; simpl; try apply Hf.
  - intros task. etrans; [exact (ifo_counts f Hf task)|].
    rewrite (task_live_delete id r0) by done. rewrite <- (insert_delete_eq (if_by_job f) id r).
    rewrite task_live_insert by apply lookup_delete_eq. by rewrite (Hsame r0 eq_refl).
  - intros i. destruct (decide (i = id)) as [->|Hne]; [done|].
    rewrite lookup_insert_ne by done. apply Hf.
  - intros task. rewrite task_live_insert by done. unfold count_for at 1. simpl.
    destruct (decide (dr_task_name r = task)) as [<-|Hne].
    + rewrite lookup_insert_eq. simpl. rewrite (ifo_counts f Hf). lia.
    + rewrite lookup_insert_ne by done. rewrite <- (ifo_counts f Hf). unfold count_for. lia.
  - intros task n. destruct (decide (dr_task_name r = task)) as [<-|Hne].
    + rewrite lookup_insert_eq. intros [= <-]. lia.
    + rewrite lookup_insert_ne by done. apply Hf.
  - intros i. destruct (decide (i = id)) as [->|Hne]; [done|].
    rewrite lookup_insert_ne by done. apply Hf.
Qed.

Lemma if_take_ok id f : in_flight_ok f -> in_flight_ok (snd (if_take id f)).
Proof.
  intros Hf. unfold if_take. destruct (if_by_job f !! id) as [r|] eqn:Hid; [|done].
  assert (Hlive : forall task, count_for task f = (task_live task (delete id (if_by_job f))
    + if decide (dr_task_name r = task) then 1 else 0)%nat).
  { intros task. rewrite (ifo_counts f Hf). by apply task_live_delete. }
  unfold count_for in Hlive.
  assert (Hn : exists n, if_count_by_task f !! dr_task_name r = Some n).
  { specialize (Hlive (dr_task_name r)). rewrite decide_True in Hlive by done.
    destruct (if_count_by_task f !! dr_task_name r) as [n|]; [by exists n|simpl in Hlive; lia]. }
  destruct Hn as [n Hn]. rewrite Hn.
  split; simpl; try apply Hf.
  - intros task. specialize (Hlive task). unfold count_for. simpl.
    destruct (decide (dr_task_name r = task)) as [<-|Hne].
    + rewrite Hn in Hlive. simpl in Hlive. case_bool_decide.
      * rewrite lookup_delete_eq. simpl. lia.
      * rewrite lookup_insert_eq. simpl. lia.
    + case_bool_decide; rewrite ?lookup_delete_ne, ?lookup_insert_ne by done; lia.
  - intros task m. destruct (decide (dr_task_name r = task)) as [<-|Hne].
    + case_bool_decide; [by rewrite lookup_delete_eq|]. rewrite lookup_insert_eq. intros [= <-]. lia.
    + case_bool_decide; rewrite ?lookup_delete_ne, ?lookup_insert_ne by done; apply Hf.
  - intros i [r' Hr']. apply lookup_delete_Some in Hr' as [_ Hr']. apply (ifo_apart f Hf). by eexists.
Qed.

Lemma trim_retired_spec order retired :
  NoDup order -> (forall id, id ∈ order <-> is_Some (retired !! id)) ->
  let '(order', retired') := trim_retired order retired in
  NoDup order' /\ (forall id, id ∈ order' <-> is_Some (retired' !! id))
  /\ (length order' <= RETIRED_DISPATCHES)%nat
  /\ (forall id r, retired' !! id = Some r -> retired !! id = Some r).
Proof.
  revert retired. induction order as [|oldest order IH]; intros retired Hnd Hdom; cbn [trim_retired].
  { case_bool_decide; simpl in *; split_and!; try done; lia. }
  case_bool_decide as Hlt.
  - apply NoDup_cons in Hnd as [Hout Hnd]. specialize (IH (delete oldest retired) Hnd).
    destruct (trim_retired order (delete oldest retired)) as [order' retired'].
    destruct IH as (? & ? & ? & Hsub).
    { intros id. destruct (decide (id = oldest)) as [->|Hne].
      - rewrite lookup_delete_eq. split; [done|]. by intros [].
      - rewrite lookup_delete_ne by done. rewrite <- Hdom, elem_of_cons. naive_solver. }
    split_and!; try done. intros id r Hr%Hsub. by apply lookup_delete_Some in Hr as [_ ?].
  - split_and!; try done. simpl in *. lia.
Qed.

Lemma retire_ok id r f :
  in_flight_ok f -> if_by_job f !! id = None -> in_flight_ok (retire id r f).
Proof.
  intros Hf Hid. unfold retire.
  set (order := match if_retired f !! id with None => _ | Some _ => _ end).
  pose proof (trim_retired_spec order (<[id := r]> (if_retired f))) as Ht.
  destruct (trim_retired order (<[id := r]> (if_retired f))) as [order' retired'].
  assert (Hdom : forall i, i ∈ order <-> is_Some (<[id := r]> (if_retired f) !! i)).
  { intros i. rewrite lookup_insert_is_Some. unfold order.
    destruct (if_retired f !! id) as [r0|] eqn:Hr.
    - rewrite (ifo_retired f Hf). split; [|intros [->|[_ ?]]; [by eexists|done]].
      intros Hi. destruct (decide (id = i)); auto.
    - rewrite elem_of_app, list_elem_of_singleton, (ifo_retired f Hf).
      destruct (decide (id = i)) as [->|Hne]; [tauto|]. naive_solver. }
  destruct Ht as (Hnd & Hdom' & Hlen & Hsub).
  - unfold order. destruct (if_retired f !! id) as [r0|] eqn:Hr; [apply Hf|].
    apply NoDup_app. split_and!; [apply Hf| |apply NoDup_singleton].
    intros i Hi ->%list_elem_of_singleton. apply (ifo_retired f Hf) in Hi as [? ?]. congruence.
  - done.
  - split; simpl; try done; try apply Hf. intros i Hi. destruct (retired' !! i) as [r'|] eqn:Hr'; [|done].
    apply Hsub, lookup_insert_Some in Hr' as [[<- _]|[_ Hr']].
    + rewrite Hid in Hi. by destruct Hi.
    + rewrite (ifo_apart f Hf i Hi) in Hr'. done.
Qed.

Lemma if_take_by_job id f :
  fst (if_take id f) = if_by_job f !! id
  /\ if_by_job (snd (if_take id f)) = delete id (if_by_job f)
  /\ if_retired (snd (if_take id f)) = if_retired f
  /\ if_retired_order (snd (if_take id f)) = if_retired_order f.
Proof.
  unfold if_take. destruct (if_by_job f !! id) eqn:Hid; simpl; [done|].
  split_and!; try done. by rewrite delete_id.
Qed.

Lemma if_remove_ok id f : in_flight_ok f -> in_flight_ok (snd (if_remove id f)).
Proof.
  intros Hf. unfold if_remove. pose proof (if_take_ok id f Hf) as Ht.
  destruct (if_take_by_job id f) as (_ & Hby & _). destruct (if_take id f) as [[r|] f']; [|done].
  simpl in *. apply retire_ok; [done|]. by rewrite Hby, lookup_delete_eq.
Qed.

Lemma if_forget_ok id f : in_flight_ok f -> in_flight_ok (if_forget id f).
Proof. intros Hf. by apply drop_retired_ok, if_take_ok. Qed.

(** ** A settled dispatch is remembered *)

(** What happens to the book: a dispatch, a result, a dispatch that was rolled back. *)
Inductive BookEvent :=
  | Tracked (job_id : string) (record : DispatchRecord)
  | Released (job_id : string)
  | Untracked (job_id : string).

Definition book_step (e : BookEvent) (f : InFlight) : InFlight :=
  match e with
  | Tracked id r => if_insert id r f
  | Released id => snd (if_remove id f)
  | Untracked id => if_forget id f
  end.

Definition book_run (es : list BookEvent) (f : InFlight) : InFlight := foldl (fun f e => book_step e f) f es.

Definition event_job (e : BookEvent) : string :=
  match e with Tracked id _ | Released id | Untracked id => id end.
Definition is_release (e : BookEvent) : bool := match e with Released _ => true | _ => false end.
Definition releases (es : list BookEvent) : nat :=
  length (filter (fun e => Is_true (is_release e)) es).

Lemma trim_keeps l1 id l2 retired :
  NoDup (l1 ++ id :: l2) -> (length l2 < RETIRED_DISPATCHES)%nat ->
  exists l1' retired', trim_retired (l1 ++ id :: l2) retired = (l1' ++ id :: l2, retired')
    /\ retired' !! id = retired !! id.
Proof.
  revert retired. induction l1 as [|x l1 IH]; intros retired Hnd Hlen; cbn [app trim_retired].
  - case_bool_decide as Hlt; [cbn [length] in Hlt; lia|]. by exists [], retired.
  - case_bool_decide as Hlt; [|by exists (x :: l1), retired].
    apply NoDup_cons in Hnd as [Hx Hnd].
    destruct (IH (delete x retired) Hnd Hlen) as (l1' & retired' & -> & Hr).
    exists l1', retired'. split; [done|]. rewrite Hr, lookup_delete_ne; [done|]. set_solver.
Qed.

(** [id] is retired, with at most [k] dispatches retired after it. *)
Definition remembered (id : string) (r : DispatchRecord) (k : nat) (f : InFlight) : Prop :=
  if_by_job f !! id = None /\ if_retired f !! id = Some r
  /\ exists l1 l2, if_retired_order f = l1 ++ id :: l2 /\ (length l2 <= k)%nat.

Lemma drop_retired_remembered x id r k f :
  x <> id -> remembered id r k f -> remembered id r k (drop_retired x f).
Proof.
  intros Hx (Hby & Hret & l1 & l2 & Hord & Hlen). unfold drop_retired.
  destruct (if_retired f !! x); [|by split_and!; try done; exists l1, l2].
  split_and!; simpl; [done|by rewrite lookup_delete_ne|].
  exists (filter (fun i => i <> x) l1), (filter (fun i => i <> x) l2).
  rewrite Hord, filter_app, filter_cons_True by done. split; [done|].
  etrans; [apply length_filter|done].
Qed.

Lemma retire_remembered x rx id r k f :
  in_flight_ok f -> x <> id -> (k < RETIRED_DISPATCHES - 1)%nat -> if_by_job f !! x = None ->
  remembered id r k f -> remembered id r (S k) (retire x rx f).
Proof.
  intros Hf Hx Hk Hxby (Hby & Hret & l1 & l2 & Hord & Hlen). unfold retire.
  set (order := match if_retired f !! x with None => _ | Some _ => _ end).
  assert (Hshape : exists l2', order = l1 ++ id :: l2' /\ (length l2' <= S k)%nat /\ NoDup order).
  { unfold order. destruct (if_retired f !! x) eqn:Hr.
    - exists l2. split_and!; [done|lia|apply Hf].
    - exists (l2 ++ [x]). rewrite Hord, length_app, <- app_assoc. simpl. split_and!; [done|lia|].
      rewrite app_comm_cons, app_assoc, <- Hord. apply NoDup_app.
      split_and!; [apply Hf| |apply NoDup_singleton].
      intros i Hi ->%list_elem_of_singleton. apply (ifo_retired f Hf) in Hi as [? ?]. congruence. }
  destruct Hshape as (l2' & Ho & Hlen' & Hnd). rewrite Ho in Hnd |- *. clear order Ho.
  destruct (trim_keeps l1 id l2' (<[x := rx]> (if_retired f)) Hnd ltac:(lia))
    as (l1' & retired' & -> & Hr'). split_and!; simpl; [done| |by exists l1', l2'].
  by rewrite Hr', lookup_insert_ne.
Qed.

Lemma remove_remembered id r f :
  in_flight_ok f -> if_by_job f !! id = Some r -> remembered id r 0 (snd (if_remove id f)).
Proof.
  intros Hf Hid. unfold if_remove. destruct (if_take_by_job id f) as (Htake & Hby & Hret & Hord).
  destruct (if_take id f) as [[r'|] f']; simpl in *; [|congruence].
  rewrite Hid in Htake. injection Htake as ->. unfold retire.
  rewrite Hret, Hord, (ifo_apart f Hf id) by by eexists.
  destruct (trim_keeps (if_retired_order f) id [] (<[id := r]> (if_retired f)))
    as (l1 & retired' & -> & Hr').
  - apply NoDup_app. split_and!; [apply Hf| |apply NoDup_singleton].
    intros i Hi ->%list_elem_of_singleton. apply (ifo_retired f Hf) in Hi as [? ?].
    rewrite (ifo_apart f Hf id) in *; [done|by eexists].
  - unfold RETIRED_DISPATCHES. simpl. lia.
  - split_and!; simpl; [by rewrite Hby, lookup_delete_eq|by rewrite Hr', lookup_insert_eq|].
    by exists l1, [].
Qed.

Lemma book_step_remembered e id r k f :
  in_flight_ok f -> event_job e <> id ->
  ((if is_release e then S k else k) < RETIRED_DISPATCHES)%nat ->
  remembered id r k f ->
  remembered id r (if is_release e then S k else k) (book_step e f).
Proof.
  intros Hf He Hk Hrem. destruct e as [x rx|x|x]; simpl in *.
  - destruct (drop_retired_remembered x id r k f He Hrem) as (? & ? & l1 & l2 & ? & ?).
    split_and!; simpl; [by rewrite lookup_insert_ne|done|by exists l1, l2].
  - unfold if_remove. pose proof (if_take_ok x f Hf) as Hok.
    destruct (if_take_by_job x f) as (Htake & Hby & Hret & Hord). destruct (if_take x f) as [[rx|] f'];
      simpl in *.
    + apply retire_remembered; try done; [lia|by rewrite Hby, lookup_delete_eq|].
      destruct Hrem as (? & ? & l1 & l2 & ? & ?). rewrite <- Hret, <- Hord in *.
      split_and!; [by rewrite Hby, lookup_delete_ne|done|by exists l1, l2].
    + destruct Hrem as (? & ? & l1 & l2 & ? & ?). rewrite <- Hret, <- Hord in *.
      split_and!; [by rewrite Hby, lookup_delete_ne|done|]. exists l1, l2. split; [done|lia].
  - unfold if_forget. apply drop_retired_remembered; [done|].
    destruct (if_take_by_job x f) as (_ & Hby & Hret & Hord).
    destruct Hrem as (? & ? & l1 & l2 & ? & ?). unfold remembered. rewrite Hby, Hret, Hord.
    split_and!; [by rewrite lookup_delete_ne|done|by exists l1, l2].
Qed.

(** Every dispatch of a job names the job's task. *)
Definition names_tasks (named : string -> string) (e : BookEvent) : Prop :=
  match e with Tracked id r => dr_task_name r = named id | _ => True end.

Definition book_named (named : string -> string) (f : InFlight) : Prop :=
  forall id r, if_by_job f !! id = Some r -> dr_task_name r = named id.

Lemma retire_by_job id r f : if_by_job (retire id r f) = if_by_job f.
Proof. unfold retire. by destruct (trim_retired _ _). Qed.

Lemma book_step_by_job e f i r :
  if_by_job (book_step e f) !! i = Some r ->
  if_by_job f !! i = Some r \/ e = Tracked i r.
Proof.
  destruct e as [x rx|x|x]; simpl.
  - destruct (drop_retired_fields x f) as (Hby & _). rewrite Hby.
    intros [[<- <-]|[_ ?]]%lookup_insert_Some; auto.
  - unfold if_remove. destruct (if_take_by_job x f) as (_ & Hby & _).
    destruct (if_take x f) as [[rx|] f']; simpl in *; rewrite ?retire_by_job, Hby;
      intros [_ ?]%lookup_delete_Some; auto.
  - unfold if_forget. destruct (drop_retired_fields x (snd (if_take x f))) as (-> & _).
    destruct (if_take_by_job x f) as (_ & -> & _). intros [_ ?]%lookup_delete_Some. auto.
Qed.

Lemma book_step_ok named e f :
  names_tasks named e -> in_flight_ok f -> book_named named f ->
  in_flight_ok (book_step e f) /\ book_named named (book_step e f).
Proof.
  intros He Hf Hn. split.
  - destruct e as [x rx|x|x]; simpl in *; [|by apply if_remove_ok|by apply if_forget_ok].
    apply if_insert_ok; [done|]. intros r0 Hr0. rewrite (Hn _ _ Hr0). done.
  - intros i r [Hi| ->]%book_step_by_job; [by apply Hn|done].
Qed.

Lemma book_run_ok named es f :
  Forall (names_tasks named) es -> in_flight_ok f -> book_named named f ->
  in_flight_ok (book_run es f) /\ book_named named (book_run es f).
Proof.
  intros Hes. revert f. induction Hes as [|e es He Hes IH]; intros f Hf Hn; [done|].
  unfold book_run. cbn [foldl]. destruct (book_step_ok named e f He Hf Hn). by apply IH.
Qed.

Lemma book_run_remembered named es id r k f :
  Forall (names_tasks named) es -> Forall (fun e => event_job e <> id) es ->
  in_flight_ok f -> book_named named f -> (k + releases es < RETIRED_DISPATCHES)%nat ->
  remembered id r k f -> last_dispatch id (book_run es f) = Some r.
Proof.
  intros Hes. revert k f. induction Hes as [|e es He Hes IH]; intros k f Hapart Hf Hn Hk Hrem.
  { destruct Hrem as (Hby & Hret & _). unfold last_dispatch, book_run. simpl. by rewrite Hby. }
  apply Forall_cons in Hapart as [Hid Hapart]. unfold book_run. cbn [foldl].
  destruct (book_step_ok named e f He Hf Hn) as [Hf' Hn'].
  unfold releases in *. rewrite filter_cons in Hk.
  apply (IH (if is_release e then S k else k)); try done.
  - destruct e; simpl in *; try destruct (decide True); simpl in *; try done; lia.
  - apply book_step_remembered; try done.
    destruct e; simpl in *; try destruct (decide True); simpl in *; try done; lia.
Qed.

(** the scheduler's book.  Through any history of dispatches, results and rollbacks the
    count of each task is the number of its dispatches that are in flight, the retired
    dispatches number at most 1024 and are listed once each, oldest first.  A dispatch
    whose result arrived is remembered until 1024 more have been retired or the job is
    dispatched again: a straggler that reports before that is checked against the attempt
    it ran as. *)
Theorem dispatch_book_sound named es :
  Forall (names_tasks named) es ->
  let f := book_run es no_dispatch in
  (forall task, count_for task f = task_live task (if_by_job f))
  /\ (length (if_retired_order f) <= 1024)%nat /\ NoDup (if_retired_order f)
  /\ (forall id, id ∈ if_retired_order f <-> is_Some (if_retired f !! id))
  /\ forall id r later, if_by_job f !! id = Some r ->
       Forall (names_tasks named) later -> Forall (fun e => event_job e <> id) later ->
       (releases later < 1024)%nat ->
       last_dispatch id (book_run later (snd (if_remove id f))) = Some r.
Proof.
  intros Hes f. destruct (book_run_ok named es no_dispatch Hes no_dispatch_ok) as [Hf Hn].
  { intros id r Hr. done. }
  fold f in Hf, Hn. split_and!; try apply Hf.
  intros id r later Hid Hlater Hapart Hrel.
  destruct (book_step_ok named (Released id) f I Hf Hn) as [Hf' Hn'].
  apply (book_run_remembered named later id r 0); try done. by apply remove_remembered.
Qed.

Lemma dispatch_book_sound_witness :
  let r := mkDispatchRecord "mail" "default" "w1" 0 (Some 7) in
  let f := book_run [Tracked "a" r; Tracked "b" r] no_dispatch in
  count_for "mail" f = 2%nat
  /\ last_dispatch "a" (book_run [Released "b"; Tracked "c" r] (snd (if_remove "a" f))) = Some r.
Proof.
  intros r f.
  destruct (dispatch_book_sound (fun _ => "mail"%string) [Tracked "a" r; Tracked "b" r])
    as (Hc & _ & _ & _ & Hrem); [by repeat constructor|]. split; [by rewrite Hc|].
  apply Hrem; [done|by repeat constructor|by repeat constructor|vm_compute; lia].
Defined.

(** ** Leases on the wire *)

Lemma Z_of_byte_of_Z z : Z_of_byte (byte_of_Z z) = z mod 256.
Proof.
  unfold Z_of_byte, byte_of_Z. assert (0 <= z mod 256 < 256) by (apply Z.mod_pos_bound; lia).
  destruct (Byte.of_N (Z.to_N (z mod 256))) as [b|] eqn:Hb.
  - simpl. apply Byte.to_of_N in Hb. rewrite Hb. lia.
  - apply Byte.of_N_None_iff in Hb. lia.
Qed.

Lemma foldl_be_bytes n z acc :
  foldl (fun acc b => acc * 256 + Z_of_byte b) acc (be_bytes n z)
  = acc * 256 ^ Z.of_nat n + z mod 256 ^ Z.of_nat n.
Proof.
  revert acc. induction n as [|n IH]; intros acc; cbn [be_bytes foldl].
  { rewrite Z.mod_1_r. simpl. lia. }
  rewrite IH, Z_of_byte_of_Z, Z.shiftr_div_pow2 by lia.
  replace (2 ^ (8 * Z.of_nat n)) with (256 ^ Z.of_nat n)
    by (change 256 with (2 ^ 8); rewrite <- Z.pow_mul_r; lia).
  rewrite Nat2Z.inj_succ, Z.pow_succ_r by lia. set (p := 256 ^ Z.of_nat n).
  assert (0 < p) by (apply Z.pow_pos_nonneg; lia).
  rewrite (Z.mul_comm 256 p), Z.rem_mul_r by lia. lia.
Qed.

(** The lease of a claim names its epoch. *)
Lemma lease_round_trip `{!Base64Law B} epoch :
  i64_min <= epoch <= i64_max -> lease_epoch (from_epoch epoch) = Some epoch.
Proof.
  intros He. unfold lease_epoch, from_epoch. rewrite b64_decode_encode. cbn [mbind option_bind].
  rewrite bool_decide_eq_true_2 by done. unfold of_be_bytes. rewrite foldl_be_bytes.
  f_equal. change (256 ^ Z.of_nat 8) with (2 ^ 64). unfold as_u64, as_i64, i64_min, i64_max in *.
  rewrite Z.mul_0_l, Z.add_0_l, Z.mod_mod by lia.
  destruct (Z.leb_spec 0 epoch).
  - rewrite (Z.mod_small epoch) by lia. rewrite Z.mod_small; lia.
  - replace (epoch mod 2 ^ 64) with (epoch + 2 ^ 64).
    + replace (epoch + 2 ^ 64 + 2 ^ 63) with (epoch + 2 ^ 63 + 1 * 2 ^ 64) by lia.
      rewrite Z.mod_add, Z.mod_small; lia.
    + apply (Z.mod_unique_pos _ _ (-1)); lia.
Qed.

(** For the examples: a text holds the bytes themselves. *)
Definition demo_base64 : Base64 := {|
  b64_encode b := String.string_of_list_byte b;
  b64_decode s := Some (String.list_byte_of_string s)
|}.

Lemma demo_base64_law : Base64Law demo_base64.
Proof. intros b. simpl. by rewrite String.list_byte_of_string_of_list_byte. Qed.
