(* ===== verification/Sched.v ===== *)
(** * The scheduler: settings and memory ([scheduler/mod.rs])

    How a scheduler is configured, per task, per queue and as a whole, and what it holds
    between two calls: the dispatches in flight with the leases it issued for them. *)
From S2P Require Import Prelude Job Db Store Dequeue Resilience Shed Claims InFlight.

(** ** Settings *)

Record TaskConfig := mkTaskConfig {
  tc_retry_policy : RetryPolicy;
  tc_rate_limit : option RateLimitConfig;
  tc_on_excess : OnExcess;
  tc_circuit_breaker : option CircuitBreakerConfig;
  tc_retry_budget : option RateLimitConfig;
  tc_max_concurrent : option Z;
  tc_max_in_flight_per_task : option nat
}.

Definition default_task_config : TaskConfig :=
  mkTaskConfig default_policy None Defer None None None None.

Record QueueConfig := mkQueueConfig {
  qc_rate_limit : option RateLimitConfig;
  qc_max_concurrent : option Z
}.

(** The fields of [Scheduler] and of its [SchedulerConfig] that are set before it runs. *)
Record SchedulerSettings := mkSchedulerSettings {
  sc_task_configs : gmap string TaskConfig;
  sc_queue_configs : gmap string QueueConfig;
  sc_codel_configs : gmap string CodelConfig;
  sc_dispatch_orders : gmap string DispatchOrder;
  sc_queues : list string;
  sc_namespace : option string;
  sc_claim_owner : string;
  sc_batch_size : option nat;
  sc_max_in_flight : option nat
}.

Definition register_queue_config (queue_name : string) (config : QueueConfig)
    (s : SchedulerSettings) : SchedulerSettings :=
  mkSchedulerSettings (sc_task_configs s) (<[queue_name := config]> (sc_queue_configs s))
    (sc_codel_configs s) (sc_dispatch_orders s) (sc_queues s) (sc_namespace s) (sc_claim_owner s)
    (sc_batch_size s) (sc_max_in_flight s).

Definition register_queue_codel (queue_name : string) (config : CodelConfig)
    (s : SchedulerSettings) : SchedulerSettings :=
  mkSchedulerSettings (sc_task_configs s) (sc_queue_configs s)
    (<[queue_name := config]> (sc_codel_configs s)) (sc_dispatch_orders s) (sc_queues s)
    (sc_namespace s) (sc_claim_owner s) (sc_batch_size s) (sc_max_in_flight s).

Definition register_queue_dispatch_order (queue_name : string) (order : DispatchOrder)
    (s : SchedulerSettings) : SchedulerSettings :=
  mkSchedulerSettings (sc_task_configs s) (sc_queue_configs s) (sc_codel_configs s)
    (<[queue_name := order]> (sc_dispatch_orders s)) (sc_queues s) (sc_namespace s)
    (sc_claim_owner s) (sc_batch_size s) (sc_max_in_flight s).

(** A breaker that cannot be registered is logged. *)
Definition register_task {E : Env} (task_name : string) (config : TaskConfig)
    (s : SchedulerSettings) : DbM SchedulerSettings :=
  (match tc_circuit_breaker config with
   | Some cb_config => attempt (register task_name cb_config) ;; mret tt
   | None => mret tt
   end) ;;
  mret (mkSchedulerSettings (<[task_name := config]> (sc_task_configs s)) (sc_queue_configs s)
    (sc_codel_configs s) (sc_dispatch_orders s) (sc_queues s) (sc_namespace s) (sc_claim_owner s)
    (sc_batch_size s) (sc_max_in_flight s)).

(** Over SQLite an unset batch size is one. *)
Definition batch_size (s : SchedulerSettings) : nat :=
  match sc_batch_size s with Some n => Nat.max n 1 | None => 1%nat end.

(** ** Memory *)

Record Scheduler := mkScheduler { sd_in_flight : InFlight; sd_leases : LeaseBook }.

Section memory.
Context {B : Base64} (cfg : SchedulerSettings).

Definition in_flight_remaining (s : Scheduler) : option nat :=
  (fun max => (max - if_len (sd_in_flight s))%nat) <$> sc_max_in_flight cfg.

Definition task_in_flight (task_name : string) (s : Scheduler) : nat :=
  count_for task_name (sd_in_flight s).

Definition in_flight_dispatches (s : Scheduler) : list (string * option Z) :=
  (fun '(id, r) => (id, dr_epoch r)) <$> map_to_list (if_by_job (sd_in_flight s)).

Definition in_flight_settled (s : Scheduler) : bool :=
  bool_decide (is_Some (sc_max_in_flight cfg)) && (if_len (sd_in_flight s) =? 0)%nat.

Definition track_in_flight (job_id task_name queue : string) (attempt_no : Z) (epoch : option Z)
    (s : Scheduler) : Scheduler :=
  mkScheduler
    (if_insert job_id (mkDispatchRecord task_name queue (sc_claim_owner cfg) attempt_no epoch)
      (sd_in_flight s))
    match epoch with
    | Some epoch => issue job_id (from_epoch epoch) (sd_leases s)
    | None => lease_forget job_id (sd_leases s)
    end.

Definition untrack_in_flight (job_id : string) (s : Scheduler) : Scheduler :=
  mkScheduler (if_forget job_id (sd_in_flight s)) (lease_forget job_id (sd_leases s)).
End memory.
