(* ===== verification/Steps.v ===== *)
(** * Durable steps ([diesel_common/steps.rs], [step/limits.rs])

    A running job commits its steps one by one, each behind the attempt fence; a sleep
    commits a deadline and puts the job back to pending.  The theorems: commits are
    within the caps and gapless, a retransmission changes nothing, the first commit of a
    sleep fixes its deadline. *)
From S2P Require Import Prelude Job Db Store Enqueue Dequeue Transitions Cascade Purge Claims.

Inductive StepKind := Run | Sleep.

(** [StepKind::as_str] and [StepKind::from_wire] *)
Definition kind_str (k : StepKind) : string :=
  match k with Run => "run" | Sleep => "sleep" end.
Definition from_wire (value : string) : StepKind :=
  if bool_decide (value = "sleep"%string) then Sleep else Run.

Record NewJobStep := mkNewJobStep {
  sp_job_id : string;
  sp_seq : Z;
  sp_step_key : string;
  sp_kind : StepKind;
  sp_result : option bytes
}.

Inductive StepCommit := Committed | AlreadyCommitted.
Inductive SleepOutcome :=
  | Slept (wake_at : Z)
  | AlreadySleeping (wake_at : Z).

(** [SleepOutcome::wake_at] *)
Definition outcome_wake_at (o : SleepOutcome) : Z :=
  match o with Slept wake_at | AlreadySleeping wake_at => wake_at end.

Record StepLimits := mkStepLimits {
  max_step_bytes : Z;
  max_total_bytes : Z;
  max_steps : Z
}.

(** [StepLimits::default] and the ceilings *)
Definition default_limits : StepLimits := mkStepLimits (256 * 1024) (4 * 1024 * 1024) 1000.
Definition MAX_STEP_BYTES_CEILING : Z := 1024 * 1024.
Definition MAX_TOTAL_BYTES_CEILING : Z := 64 * 1024 * 1024.
Definition MAX_STEPS_CEILING : Z := 100000.

Definition clamped (l : StepLimits) : StepLimits :=
  mkStepLimits (Z.min (max_step_bytes l) MAX_STEP_BYTES_CEILING)
    (Z.min (max_total_bytes l) MAX_TOTAL_BYTES_CEILING) (Z.min (max_steps l) MAX_STEPS_CEILING).

#[export] Instance byte_dec : EqDecision Byte.byte := Byte.byte_eq_dec.

(** [step.result.unwrap_or(&[])] *)
Definition step_payload (result : option bytes) : bytes := default [] result.

Section steps.
Context {E : Env} {G : Engine}.

Definition step_totals (job_id : string) : DbM (Z * Z) :=
  rows ← sql_select job_steps (fun s => bool_decide (js_job_id s = job_id));
  mret (count rows, foldr Z.add 0 (js_result_len <$> rows)).

Definition check_step_position (job_id : string) (seq : Z) (step_key : string) (committed : Z)
    : DbM unit :=
  taken ← sql_select job_steps (fun s =>
    bool_decide (js_job_id s = job_id) && bool_decide (js_step_key s = step_key));
  match head taken with
  | Some s => throw (StepDiverged job_id seq "an unused step key"
      ("'" +:+ step_key +:+ "', already committed at position " +:+ pretty (js_seq s)))
  | None =>
      if negb (seq =? committed) then
        throw (StepDiverged job_id seq ("position " +:+ pretty committed)
          ("position " +:+ pretty seq))
      else mret tt
  end.

Definition check_step_count (committed : Z) (step_key : string) (limits : StepLimits) : DbM unit :=
  if max_steps limits <? committed + 1 then
    throw (StepLimitExceeded step_key "step count" (committed + 1) (max_steps limits))
  else mret tt.

Definition insert_step_row (step : NewJobStep) (job_namespace : option string)
    (wake_at : option Z) : DbM unit :=
  id ← now_v7;
  now ← now_millis;
  sql_insert job_steps id
    (mkJobStepRow id (sp_job_id step) job_namespace (sp_step_key step) (sp_seq step)
       (kind_str (sp_kind step)) (sp_result step)
       (Z.of_nat (length (step_payload (sp_result step)))) wake_at now).

Definition get_job_steps (job_id : string) (namespace : option string) : DbM (list JobStepRow) :=
  conn ;;
  rows ← sql_select job_steps (fun s =>
    bool_decide (js_job_id s = job_id) && job_in_namespace (js_namespace s) namespace);
  mret (order_by (asc_Z js_seq) rows).

(** The row at a position of the sequence. *)
Definition stored_step (job_id : string) (seq : Z) : DbM (option JobStepRow) :=
  rows ← sql_select job_steps (fun s =>
    bool_decide (js_job_id s = job_id) && (js_seq s =? seq));
  mret (head rows).

Definition record_step_txn (step : NewJobStep) (owner : string) (attempt_no : Z)
    (epoch : option Z) (limits : StepLimits) (namespace : option string) : DbM StepCommit :=
  let payload := step_payload (sp_result step) in
  job_namespace ← resolve_attempt_fence (sp_job_id step) owner attempt_no epoch namespace true;
  stored ← stored_step (sp_job_id step) (sp_seq step);
  match stored with
  | Some s =>
      if negb (bool_decide (js_step_key s = sp_step_key step))
         || negb (bool_decide (js_kind s = kind_str (sp_kind step)))
      then throw (StepDiverged (sp_job_id step) (sp_seq step)
        ("a " +:+ js_kind s +:+ " step '" +:+ js_step_key s +:+ "'")
        ("a " +:+ kind_str (sp_kind step) +:+ " step '" +:+ sp_step_key step +:+ "'"))
      else if bool_decide (step_payload (js_result s) = payload) then mret AlreadyCommitted
      else throw (StepDiverged (sp_job_id step) (sp_seq step)
        ("the stored result of '" +:+ js_step_key s +:+ "'")
        "a different result for the same step")
  | None =>
      '(committed, stored_bytes) ← step_totals (sp_job_id step);
      check_step_position (sp_job_id step) (sp_seq step) (sp_step_key step) committed ;;
      check_step_count committed (sp_step_key step) limits ;;
      let total := stored_bytes + Z.of_nat (length payload) in
      if max_total_bytes limits <? total then
        throw (StepLimitExceeded (sp_step_key step) "total bytes" total (max_total_bytes limits))
      else
        insert_step_row step job_namespace None ;;
        mret Committed
  end.

Definition record_step_result (step : NewJobStep) (owner : string) (attempt_no : Z)
    (epoch : option Z) (limits : StepLimits) (namespace : option string) : DbM StepCommit :=
  let limits := clamped limits in
  let len := Z.of_nat (length (step_payload (sp_result step))) in
  if max_step_bytes limits <? len then
    throw (StepLimitExceeded (sp_step_key step) "step bytes" len (max_step_bytes limits))
  else write_transaction (record_step_txn step owner attempt_no epoch limits namespace).

(** The outcome of a sleep: the stored deadline, or a new row with [wake_at]. *)
Definition sleep_outcome (step : NewJobStep) (job_namespace : option string) (wake_at : Z)
    (limits : StepLimits) : DbM SleepOutcome :=
  stored ← stored_step (sp_job_id step) (sp_seq step);
  match stored with
  | Some s =>
      if negb (bool_decide (js_step_key s = sp_step_key step))
         || negb (bool_decide (js_kind s = kind_str Sleep))
      then throw (StepDiverged (sp_job_id step) (sp_seq step)
        ("a " +:+ js_kind s +:+ " step '" +:+ js_step_key s +:+ "'")
        ("a sleep step '" +:+ sp_step_key step +:+ "'"))
      else match js_wake_at s with
           | Some deadline => mret (AlreadySleeping deadline)
           | None => throw (StepDiverged (sp_job_id step) (sp_seq step)
               "a sleep step with a deadline" ("'" +:+ js_step_key s +:+ "' with none"))
           end
  | None =>
      '(committed, _) ← step_totals (sp_job_id step);
      check_step_position (sp_job_id step) (sp_seq step) (sp_step_key step) committed ;;
      check_step_count committed (sp_step_key step) limits ;;
      insert_step_row step job_namespace (Some wake_at) ;;
      mret (Slept wake_at)
  end.

Definition sleep_txn (step : NewJobStep) (owner : string) (attempt_no : Z) (epoch : option Z)
    (wake_at : Z) (limits : StepLimits) (namespace : option string) : DbM SleepOutcome :=
  job_namespace ← resolve_attempt_fence (sp_job_id step) owner attempt_no epoch namespace true;
  outcome ← sleep_outcome step job_namespace wake_at limits;
  sql_delete_pk execution_claims (sp_job_id step) ;;
  affected ← sql_update jobs (sp_job_id step) (fun r => jr_status r =? as_int Running)
    (pending_row (outcome_wake_at outcome));
  if affected =? 0 then throw (ClaimLost (sp_job_id step)) else mret outcome.

Definition sleep_job (step : NewJobStep) (owner : string) (attempt_no : Z) (epoch : option Z)
    (wake_at : Z) (limits : StepLimits) (namespace : option string) : DbM SleepOutcome :=
  write_transaction (sleep_txn step owner attempt_no epoch wake_at (clamped limits) namespace).

Definition delete_job_steps (job_id : string) (namespace : option string) : DbM Z :=
  conn ;;
  sql_delete job_steps (fun s =>
    bool_decide (js_job_id s = job_id) && job_in_namespace (js_namespace s) namespace).

End steps.

(** ** Reading the sequence *)

Section reading.
Context {E : Env} {G : Engine} `{!UuidFresh E} `{!ScanComplete G}.

Lemma length_filter_scan {K R} `{Countable K} (P : R -> Prop) `{!forall r, Decision (P r)}
    (m : gmap K R) :
  length (filter P (scan m)) = size (filter (fun kr => P (snd kr)) m).
Proof.
  rewrite (scan_perm K R m). induction m as [|k r m Hk IH] using map_ind.
  - by rewrite map_to_list_empty, map_filter_empty, map_size_empty.
  - rewrite map_to_list_insert by done. rewrite fmap_cons, filter_cons. simpl.
    destruct (decide (P r)) as [Hr|Hr].
    + rewrite map_filter_insert_True by done. rewrite map_size_insert_None.
      * simpl. by rewrite IH.
      * apply map_lookup_filter_None. by left.
    + rewrite map_filter_insert_not'; [done|done|]. intros y Hy. congruence.
Qed.

Lemma count_steps id (S : gmap string JobStepRow) :
  count (filter (fun s => Is_true (bool_decide (js_job_id s = id))) (scan S))
  = Z.of_nat (steps_count S id).
Proof.
  unfold count, steps_count. f_equal. rewrite length_filter_scan. f_equal.
  apply map_filter_ext. intros k s _. simpl. by rewrite bool_decide_spec.
Qed.

Lemma head_scan {R} (p : R -> bool) (m : gmap string R) :
  match head (filter (fun r => Is_true (p r)) (scan m)) with
  | Some r => exists k, m !! k = Some r /\ p r = true
  | None => forall k r, m !! k = Some r -> p r = false
  end.
Proof.
  destruct (filter _ (scan m)) as [|r l] eqn:Hf; simpl.
  - intros k r Hk. apply not_true_iff_false. intros Hp%Is_true_true.
    eapply (filter_nil_not_elem_of (fun r => Is_true (p r))); [exact Hf|exact Hp|].
    apply elem_of_scan. by exists k.
  - assert (r ∈ filter (fun r => Is_true (p r)) (scan m)) as Hr by (rewrite Hf; left).
    apply list_elem_of_filter in Hr as [Hp%Is_true_true [k Hk]%elem_of_scan]. by exists k.
Qed.

(** The step stored at a position of a job. *)
Definition step_at (S : gmap string JobStepRow) (id : string) (seq : Z) (s : JobStepRow) : Prop :=
  exists k, S !! k = Some s /\ js_job_id s = id /\ js_seq s = seq.

Lemma stored_step_cases id seq w :
  exists o, stored_step id seq w = (Ok o, w) /\
  match o with
  | Some s => step_at (db_job_steps (db w)) id seq s
  | None => forall s, ~ step_at (db_job_steps (db w)) id seq s
  end.
Proof.
  pose proof (head_scan (fun s => bool_decide (js_job_id s = id) && (js_seq s =? seq))
    (db_job_steps (db w))) as Hh.
  eexists. split; [done|]. simpl. destruct (head _) as [s|].
  - destruct Hh as (k & Hk & [Hid%bool_decide_eq_true Hs%Z.eqb_eq]%andb_true_iff). by exists k.
  - intros s (k & Hk & Hid & Hs). specialize (Hh k s Hk).
    by rewrite bool_decide_eq_true_2, Hs, Z.eqb_refl in Hh.
Qed.

(** The row a commit inserts. *)
Definition step_row (id : string) (now : Z) (step : NewJobStep) (ns : option string)
    (wake_at : option Z) : JobStepRow :=
  mkJobStepRow id (sp_job_id step) ns (sp_step_key step) (sp_seq step)
    (kind_str (sp_kind step)) (sp_result step)
    (Z.of_nat (length (step_payload (sp_result step)))) wake_at now.

Definition total_bytes (S : gmap string JobStepRow) (id : string) : Z :=
  foldr Z.add 0
    (js_result_len <$> filter (fun s => Is_true (bool_decide (js_job_id s = id))) (scan S)).

(** A position check that passes. *)
Definition free_position (S : gmap string JobStepRow) (step : NewJobStep) : Prop :=
  sp_seq step = Z.of_nat (steps_count S (sp_job_id step))
  /\ forall k s, S !! k = Some s -> js_job_id s = sp_job_id step ->
       js_step_key s <> sp_step_key step.

Lemma check_step_position_cases step committed w :
  committed = Z.of_nat (steps_count (db_job_steps (db w)) (sp_job_id step)) ->
  (exists e, check_step_position (sp_job_id step) (sp_seq step) (sp_step_key step) committed w
     = (Err e, w))
  \/ (check_step_position (sp_job_id step) (sp_seq step) (sp_step_key step) committed w
        = (Ok tt, w) /\ free_position (db_job_steps (db w)) step).
Proof.
  intros Hc. unfold check_step_position. erewrite bind_ok by done. simpl.
  pose proof (head_scan (fun s => bool_decide (js_job_id s = sp_job_id step)
    && bool_decide (js_step_key s = sp_step_key step)) (db_job_steps (db w))) as Hh.
  destruct (head _) as [s|]; [left; by eexists|].
  destruct (Z.eqb_spec (sp_seq step) committed) as [He|He]; simpl; [right|left; by eexists].
  split; [done|]. split; [congruence|]. intros k s Hk Hid Hkey. specialize (Hh k s Hk).
  by rewrite !bool_decide_eq_true_2 in Hh.
Qed.

Lemma insert_step_eq step ns wake w r :
  wf w -> db_jobs (db w) !! sp_job_id step = Some r -> ns = jr_namespace r ->
  free_position (db_job_steps (db w)) step ->
  let id := uuid_v7 (tick w) in
  let s := step_row id (clock_at (S (tick w))) step ns wake in
  let w' := mkWorld (set_job_steps (<[id := s]> (db_job_steps (db w))) (db w)) (2 + tick w) in
  insert_step_row step ns wake w = (Ok tt, w') /\ wf w'.
Proof.
  intros Hwf Hr -> [Hseq Hkey] id s w'.
  assert (Hfresh : db_job_steps (db w) !! id = None).
  { apply minted_not_fresh, (wf_minted_steps _ _ _ _ _ Hwf). }
  assert (Hconf : forall k' s', db_job_steps (db w) !! k' = Some s' -> step_conflict s s' = false).
  { intros k' s' Hs'. unfold step_conflict. simpl. case_bool_decide as Hid; [|done]. simpl.
    rewrite bool_decide_eq_false_2 by (apply not_eq_sym; eauto). rewrite orb_false_r.
    apply Z.eqb_neq. pose proof (wf_step_bound _ _ _ _ _ Hwf _ _ Hs') as Hb.
    rewrite <- Hid in Hb. lia. }
  split.
  - unfold insert_step_row. erewrite bind_ok by done. erewrite bind_ok by done.
    by rewrite sql_insert_fresh.
  - unfold wf. simpl. eapply wf_insert_step; [|lia|done|done|exact Hr|done|done|done].
    eapply wf_tick; [|exact Hwf]. lia.
Qed.
End reading.

(** ** Committing *)

(** Two databases that differ at most in the claims. *)
Definition same_but_claims (d d' : DB) : Prop :=
  d' = set_execution_claims (db_execution_claims d') d.

(** The attempt's claim is recorded. *)
Definition holds_claim (d : DB) (id owner : string) (epoch : option Z) : Prop :=
  is_Some (db_execution_claims d !! id) /\ claim_allows d id owner epoch = true.

Section committing.
Context {E : Env} {G : Engine} `{!UuidFresh E} `{!ScanComplete G}.

Lemma same_but_claims_refl d : same_but_claims d d.
Proof. by destruct d. Qed.

Lemma fence_ok id owner a epoch ns w jns w1 :
  wf w -> resolve_attempt_fence id owner a epoch ns true w = (Ok jns, w1) ->
  wf w1 /\ same_but_claims (db w) (db w1) /\ holds_claim (db w1) id owner epoch
  /\ exists r, attempt_current (db w) id a ns = Some r /\ jns = jr_namespace r
      /\ claim_allows (db w) id owner epoch = true.
Proof.
  intros Hwf Hrun. split.
  { pose proof (keeps_fence id owner a epoch ns true w Hwf) as H. by rewrite Hrun in H. }
  rewrite fence_eq in Hrun. destruct (attempt_current (db w) id a ns) as [r|]; [|done].
  destruct (claim_allows (db w) id owner epoch) eqn:Ha; [|done].
  destruct (db_execution_claims (db w) !! id) as [c|] eqn:Hc; injection Hrun as <- <-;
    (split; [|split; [|by exists r]]).
  - apply same_but_claims_refl.
  - split; [by eexists|done].
  - done.
  - unfold holds_claim, claim_allows. simpl. rewrite lookup_insert_eq. split; [by eexists|].
    simpl. rewrite bool_decide_eq_true_2 by done. destruct epoch; [apply Z.eqb_refl|done].
Qed.

Lemma attempt_current_Some d id a ns r :
  attempt_current d id a ns = Some r ->
  db_jobs d !! id = Some r /\ jr_status r = as_int Running /\ jr_retry_count r = a
  /\ job_in_namespace (jr_namespace r) ns = true.
Proof.
  unfold attempt_current. destruct (db_jobs d !! id) as [r'|]; [|done]. simpl.
  destruct (job_in_namespace (jr_namespace r') ns) eqn:?, (Z.eqb_spec (jr_status r') (as_int Running)),
    (Z.eqb_spec (jr_retry_count r') a); simpl; try done. by intros [= <-].
Qed.

(** What a successful commit found and left. *)
Definition committed_step (step : NewJobStep) (owner : string) (a : Z) (epoch : option Z)
    (limits : StepLimits) (ns : option string) (d d' : DB) : Prop :=
  exists r id now,
    attempt_current d (sp_job_id step) a ns = Some r
    /\ claim_allows d (sp_job_id step) owner epoch = true
    /\ free_position (db_job_steps d) step
    /\ sp_seq step + 1 <= max_steps limits
    /\ total_bytes (db_job_steps d) (sp_job_id step)
       + Z.of_nat (length (step_payload (sp_result step))) <= max_total_bytes limits
    /\ db_job_steps d !! id = None
    /\ db_job_steps d'
       = <[id := step_row id now step (jr_namespace r) None]> (db_job_steps d).

Lemma record_step_txn_cases step owner a epoch limits ns w :
  wf w ->
  wp (record_step_txn step owner a epoch limits ns)
    (fun c w' => wf w' /\ db_jobs (db w') = db_jobs (db w)
       /\ holds_claim (db w') (sp_job_id step) owner epoch
       /\ match c with
          | Committed => committed_step step owner a epoch limits ns (db w) (db w')
          | AlreadyCommitted =>
              db_job_steps (db w') = db_job_steps (db w)
              /\ exists s, step_at (db_job_steps (db w)) (sp_job_id step) (sp_seq step) s
                 /\ js_step_key s = sp_step_key step /\ js_kind s = kind_str (sp_kind step)
                 /\ step_payload (js_result s) = step_payload (sp_result step)
          end)
    (fun _ _ => True) w.
Proof.
  intros Hwf. unfold record_step_txn. apply wp_bind.
  destruct (resolve_attempt_fence (sp_job_id step) owner a epoch ns true w) as [[jns|e] w1] eqn:Hf;
    unfold wp at 1; rewrite Hf; [|done].
  destruct (fence_ok _ _ _ _ _ _ _ _ Hwf Hf) as (Hwf1 & Hsame & Hholds & r & Hcur & -> & Hallow).
  assert (HJ : db_jobs (db w1) = db_jobs (db w)) by by rewrite Hsame.
  assert (HS : db_job_steps (db w1) = db_job_steps (db w)) by by rewrite Hsame.
  pose proof (attempt_current_Some _ _ _ _ _ Hcur) as (Hr & _).
  destruct (stored_step_cases (sp_job_id step) (sp_seq step) w1) as (o & Ho & Hstored).
  apply wp_bind. unfold wp at 1. rewrite Ho. destruct o as [s|].
  - case_bool_decide as Hkey; [|done]. simpl. case_bool_decide as Hkind; [|done]. simpl.
    case_bool_decide as Hres; [|done]. split_and!; [done|done|apply Hholds..|done|]. rewrite <- HS.
    exists s. by split_and!.
  - apply wp_bind. unfold wp at 1, step_totals, mbind at 1, M_bind at 1. simpl.
    rewrite count_steps.
    destruct (check_step_position_cases step _ w1 eq_refl) as [[e He]|[He Hpos]];
      apply wp_bind; unfold wp at 1; rewrite He; [done|].
    apply wp_bind. unfold wp at 1, check_step_count.
    destruct (Z.ltb_spec (max_steps limits)
      (Z.of_nat (steps_count (db_job_steps (db w1)) (sp_job_id step)) + 1)) as [|Hcount]; [done|].
    simpl. case_match eqn:Hbytes; [done|]. apply Z.ltb_ge in Hbytes.
    destruct (insert_step_eq step (jr_namespace r) None w1 r Hwf1) as [Hins Hwf2];
      [by rewrite HJ|done|done|].
    apply wp_bind. unfold wp at 1. rewrite Hins. split_and!; [done|done|apply Hholds..|].
    exists r, (uuid_v7 (tick w1)), (clock_at (S (tick w1))).
    rewrite <- HS. destruct Hpos as [Hseq Hkey]. split_and!; try done; [lia|].
    apply minted_not_fresh, (wf_minted_steps _ _ _ _ _ Hwf1).
Qed.

Lemma record_step_result_cases step owner a epoch limits ns w r w' :
  wf w -> record_step_result step owner a epoch limits ns w = (r, w') ->
  let l := clamped limits in
  wf w' /\ db_jobs (db w') = db_jobs (db w) /\
  match r with
  | Err _ => db w' = db w
  | Ok Committed =>
      Z.of_nat (length (step_payload (sp_result step))) <= max_step_bytes l
      /\ committed_step step owner a epoch l ns (db w) (db w')
  | Ok AlreadyCommitted =>
      db_job_steps (db w') = db_job_steps (db w)
      /\ exists s, step_at (db_job_steps (db w)) (sp_job_id step) (sp_seq step) s
         /\ js_step_key s = sp_step_key step /\ js_kind s = kind_str (sp_kind step)
         /\ step_payload (js_result s) = step_payload (sp_result step)
  end.
Proof.
  intros Hwf Hrun l. unfold record_step_result in Hrun. fold l in Hrun.
  destruct (Z.ltb_spec (max_step_bytes l) (Z.of_nat (length (step_payload (sp_result step)))))
    as [|Hlen].
  { injection Hrun as <- <-. done. }
  rewrite write_transaction_eq in Hrun. destruct (pool_ready (tick w)).
  2:{ injection Hrun as <- <-. split; [by apply (wf_bump 1)|done]. }
  pose proof (record_step_txn_cases step owner a epoch l ns (bump 1 w) (wf_bump 1 w Hwf)) as Hwp.
  unfold wp in Hwp. destruct (record_step_txn _ _ _ _ _ _ (bump 1 w)) as [[c|e] w1];
    injection Hrun as <- <-.
  - destruct Hwp as (Hwf' & HJ & _ & Hc). split_and!; [done|done|]. by destruct c.
  - split_and!; [|done..]. eapply (wf_mono (db w) (tick w)); [simpl; lia|]. by destruct w.
Qed.

(** C13: Committing a step, on every branch.  A commit succeeds only for the attempt that
    holds the job, at exactly the next free position, under a key the job has not used,
    and within the caps on size, total size and number of steps (none above its hard
    ceiling); it adds that one row.  A commit already stored with the same key, kind and
    result is reported as such.  Any error leaves the database as it was, and the job
    itself is never changed. *)
Theorem record_step_result_spec step owner a epoch limits ns w r w' :
  wf w -> record_step_result step owner a epoch limits ns w = (r, w') ->
  let l := clamped limits in
  wf w' /\ db_jobs (db w') = db_jobs (db w) /\
  match r with
  | Err _ => db w' = db w
  | Ok Committed =>
      Z.of_nat (length (step_payload (sp_result step))) <= max_step_bytes l
      /\ committed_step step owner a epoch l ns (db w) (db w')
  | Ok AlreadyCommitted =>
      db_job_steps (db w') = db_job_steps (db w)
      /\ exists s, step_at (db_job_steps (db w)) (sp_job_id step) (sp_seq step) s
         /\ js_step_key s = sp_step_key step /\ js_kind s = kind_str (sp_kind step)
         /\ step_payload (js_result s) = step_payload (sp_result step)
  end.
Proof. apply record_step_result_cases. Qed.

(** Sending a stored commit again. *)
Lemma record_step_replay step owner a epoch limits ns w r s :
  wf w -> pool_ready (tick w) = true ->
  attempt_current (db w) (sp_job_id step) a ns = Some r ->
  holds_claim (db w) (sp_job_id step) owner epoch ->
  Z.of_nat (length (step_payload (sp_result step))) <= max_step_bytes (clamped limits) ->
  step_at (db_job_steps (db w)) (sp_job_id step) (sp_seq step) s ->
  js_step_key s = sp_step_key step -> js_kind s = kind_str (sp_kind step) ->
  step_payload (js_result s) = step_payload (sp_result step) ->
  record_step_result step owner a epoch limits ns w = (Ok AlreadyCommitted, bump 1 w).
Proof.
  intros Hwf Hp Hcur [[c Hc] Ha] Hlen (k & Hk & Hid & Hseq) Hkey Hkind Hres.
  unfold record_step_result. destruct (Z.ltb_spec (max_step_bytes (clamped limits))
    (Z.of_nat (length (step_payload (sp_result step))))); [lia|].
  apply write_transaction_ok; [done|]. unfold record_step_txn.
  erewrite bind_ok by (rewrite fence_eq; simpl; by rewrite Hcur, Ha, Hc).
  destruct (stored_step_cases (sp_job_id step) (sp_seq step) (bump 1 w)) as (o & Ho & Hst).
  rewrite (bind_ok _ _ _ _ _ Ho). destruct o as [s'|].
  2:{ destruct (Hst s). by exists k. }
  destruct Hst as (k' & Hk' & Hid' & Hseq').
  assert (s' = s) as ->.
  { assert (k' = k) as ->; [|simpl in Hk'; congruence].
    eapply (wf_step_unique _ _ _ _ _ Hwf); [exact Hk'|exact Hk|]. unfold step_conflict.
    rewrite bool_decide_eq_true_2 by congruence. by rewrite Hseq, Hseq', Z.eqb_refl. }
  by rewrite !bool_decide_eq_true_2 by done.
Qed.

(** Commits are exactly once.  After a commit has been acknowledged, sending the
    same commit again, at any later time while the attempt still holds the job, is
    acknowledged as already committed and changes nothing. *)
Theorem record_step_result_once step owner a epoch limits ns w c w' n :
  wf w -> record_step_result step owner a epoch limits ns w = (Ok c, w') ->
  (tick w' <= n)%nat -> pool_ready n = true ->
  record_step_result step owner a epoch limits ns (mkWorld (db w') n)
    = (Ok AlreadyCommitted, mkWorld (db w') (S n)).
Proof.
  intros Hwf Hrun Hn Hp. unfold record_step_result in Hrun.
  destruct (Z.ltb_spec (max_step_bytes (clamped limits))
    (Z.of_nat (length (step_payload (sp_result step))))) as [|Hlen]; [done|].
  rewrite write_transaction_eq in Hrun. destruct (pool_ready (tick w)); [|done].
  pose proof (record_step_txn_cases step owner a epoch (clamped limits) ns (bump 1 w)
    (wf_bump 1 w Hwf)) as Hwp.
  unfold wp in Hwp. destruct (record_step_txn _ _ _ _ _ _ (bump 1 w)) as [[c'|e] w1] eqn:Htxn;
    [|done].
  injection Hrun as <- <-. destruct Hwp as (Hwf1 & HJ & Hholds & Hc).
  assert (Hwf2 : wf (mkWorld (db w1) n)).
  { eapply (wf_mono (db w1) (tick w1)); [done|by destruct w1]. }
  assert (Hcur : exists r, attempt_current (db w1) (sp_job_id step) a ns = Some r).
  { unfold record_step_txn in Htxn. apply bind_inv in Htxn as [(jns & w2 & Hf & _)|(e & _ & ?)];
      [|done].
    destruct (fence_ok _ _ _ _ _ _ _ _ (wf_bump 1 w Hwf) Hf) as (_ & _ & _ & r & Hcur & _).
    exists r. unfold attempt_current in *. by rewrite HJ. }
  destruct Hcur as [r Hcur].
  assert (Hs : exists s, step_at (db_job_steps (db w1)) (sp_job_id step) (sp_seq step) s
    /\ js_step_key s = sp_step_key step /\ js_kind s = kind_str (sp_kind step)
    /\ step_payload (js_result s) = step_payload (sp_result step)).
  { destruct c'.
    - destruct Hc as (r' & id & now & _ & _ & _ & _ & _ & _ & HS).
      exists (step_row id now step (jr_namespace r') None). split_and!; try done.
      exists id. by rewrite HS, lookup_insert_eq.
    - destruct Hc as [HS Hs]. by rewrite HS. }
  destruct Hs as (s & Hat & Hkey & Hkind & Hres).
  by apply (record_step_replay step owner a epoch limits ns (mkWorld (db w1) n) r s).
Qed.

(** *** Sleeping *)

Definition slept_step (step : NewJobStep) (ns : option string) (wake : Z) (o : SleepOutcome)
    (S S' : gmap string JobStepRow) : Prop :=
  match o with
  | Slept t => t = wake /\ (forall s, ~ step_at S (sp_job_id step) (sp_seq step) s)
      /\ exists k now, S !! k = None /\ S' = <[k := step_row k now step ns (Some wake)]> S
  | AlreadySleeping t => S' = S /\ exists s, step_at S (sp_job_id step) (sp_seq step) s
      /\ js_step_key s = sp_step_key step /\ js_kind s = "sleep"%string /\ js_wake_at s = Some t
  end.

Lemma sleep_outcome_cases step wake limits w r :
  wf w -> db_jobs (db w) !! sp_job_id step = Some r ->
  wp (sleep_outcome step (jr_namespace r) wake limits)
    (fun o w' => wf w' /\ db w' = set_job_steps (db_job_steps (db w')) (db w)
       /\ slept_step step (jr_namespace r) wake o (db_job_steps (db w)) (db_job_steps (db w')))
    (fun _ _ => True) w.
Proof.
  intros Hwf Hr. unfold sleep_outcome.
  destruct (stored_step_cases (sp_job_id step) (sp_seq step) w) as (o & Ho & Hstored).
  apply wp_bind. unfold wp at 1. rewrite Ho. destruct o as [s|].
  - case_bool_decide as Hkey; [|done]. simpl. case_bool_decide as Hkind; [|done]. simpl.
    destruct (js_wake_at s) as [t|] eqn:Ht; [|done].
    split_and!; [done|by destruct w as [[]]|]. split; [done|]. exists s. by split_and!.
  - apply wp_bind. unfold wp at 1, step_totals, mbind at 1, M_bind at 1. simpl.
    rewrite count_steps.
    destruct (check_step_position_cases step _ w eq_refl) as [[e He]|[He Hpos]];
      apply wp_bind; unfold wp at 1; rewrite He; [done|].
    apply wp_bind. unfold wp at 1, check_step_count. destruct (max_steps limits <? _); [done|].
    destruct (insert_step_eq step (jr_namespace r) (Some wake) w r Hwf Hr eq_refl Hpos)
      as [Hins Hwf2].
    apply wp_bind. unfold wp at 1. simpl. rewrite Hins. split_and!; [done|done|].
    split_and!; [done|done|]. exists (uuid_v7 (tick w)), (clock_at (S (tick w))). split; [|done].
    apply minted_not_fresh, (wf_minted_steps _ _ _ _ _ Hwf).
Qed.

(** What a successful sleep found and left. *)
Definition slept_job (step : NewJobStep) (owner : string) (a : Z) (epoch : option Z) (wake : Z)
    (ns : option string) (o : SleepOutcome) (d d' : DB) : Prop :=
  exists row,
    attempt_current d (sp_job_id step) a ns = Some row
    /\ claim_allows d (sp_job_id step) owner epoch = true
    /\ db_jobs d' = <[sp_job_id step := pending_row (outcome_wake_at o) row]> (db_jobs d)
    /\ db_execution_claims d' !! sp_job_id step = None
    /\ slept_step step (jr_namespace row) wake o (db_job_steps d) (db_job_steps d').

Lemma sleep_txn_cases step owner a epoch wake limits ns w :
  wf w ->
  wp (sleep_txn step owner a epoch wake limits ns)
    (fun o w' => wf w' /\ slept_job step owner a epoch wake ns o (db w) (db w'))
    (fun _ _ => True) w.
Proof.
  intros Hwf. unfold sleep_txn. apply wp_bind.
  destruct (resolve_attempt_fence (sp_job_id step) owner a epoch ns true w)
    as [[jns|e] w1] eqn:Hf; unfold wp at 1; rewrite Hf; [|done].
  destruct (fence_ok _ _ _ _ _ _ _ _ Hwf Hf) as (Hwf1 & Hsame & _ & row & Hcur & -> & Hallow).
  pose proof (attempt_current_Some _ _ _ _ _ Hcur) as (Hr & Hst & _).
  assert (HJ : db_jobs (db w1) = db_jobs (db w)) by by rewrite Hsame.
  assert (HS : db_job_steps (db w1) = db_job_steps (db w)) by by rewrite Hsame.
  apply wp_bind. eapply wp_mono; [apply sleep_outcome_cases; [exact Hwf1|by rewrite HJ]| |done].
  intros o w2 (Hwf2 & Hd2 & Hslept). rewrite HS in Hslept.
  assert (HJ2 : db_jobs (db w2) = db_jobs (db w)) by (rewrite Hd2; exact HJ).
  unfold wp, mbind, M_bind, sql_delete_pk, sql_update. simpl.
  rewrite HJ2, Hr, Hst, Z.eqb_refl. simpl. split.
  - pose proof (wf_live_edit (pending_row (outcome_wake_at o)) (sp_job_id step) row w2 Hwf2
      (live_edit_pending _) ltac:(by rewrite HJ2)) as H.
    unfold wf, update_db in *. simpl in *. by rewrite HJ2 in H.
  - exists row. split_and!; try done. apply lookup_delete_eq.
Qed.

(** A sleep, on every branch.  It ends the attempt that holds the job: the claim is
    released and the job is pending again, due at the deadline.  The first sleep at a
    position stores the deadline it was asked for; whenever a sleep is already stored
    there, its deadline stands, whatever the replay asks for.  Any error leaves the
    database as it was. *)
Theorem sleep_job_spec step owner a epoch wake limits ns w r w' :
  wf w -> sleep_job step owner a epoch wake limits ns w = (r, w') ->
  wf w' /\
  match r with
  | Ok o => slept_job step owner a epoch wake ns o (db w) (db w')
  | Err _ => db w' = db w
  end.
Proof.
  intros Hwf Hrun. unfold sleep_job in Hrun. rewrite write_transaction_eq in Hrun.
  destruct (pool_ready (tick w)).
  2:{ injection Hrun as <- <-. split; [by apply (wf_bump 1)|done]. }
  pose proof (sleep_txn_cases step owner a epoch wake (clamped limits) ns (bump 1 w)
    (wf_bump 1 w Hwf)) as Hwp.
  unfold wp in Hwp. destruct (sleep_txn _ _ _ _ _ _ _ (bump 1 w)) as [[o|e] w1];
    injection Hrun as <- <-; [done|].
  split; [|done]. eapply (wf_mono (db w) (tick w)); [simpl; lia|]. by destruct w.
Qed.

(** *** The sequence is gapless *)

Lemma seqZ_sorted m n : StronglySorted Z.le (seqZ m n).
Proof.
  unfold seqZ. generalize (Z.to_nat n) as k. intros k.
  assert (Hs : StronglySorted Nat.le (seq 0 k)).
  { generalize 0%nat. induction k as [|k IH]; intros i; simpl; [constructor|].
    constructor; [apply IH|]. apply Forall_forall. intros j Hj%elem_of_seq. lia. }
  induction Hs as [|i l Hs IH Hi]; simpl; constructor; [done|].
  apply Forall_fmap. eapply Forall_impl; [exact Hi|]. intros j. simpl. lia.
Qed.

(** Distinct numbers below their own count, in order, are [0], [1], [2], ... *)
Lemma sorted_gapless (l : list Z) :
  StronglySorted Z.le l -> NoDup l -> Forall (fun x => 0 <= x < Z.of_nat (length l)) l ->
  l = seqZ 0 (Z.of_nat (length l)).
Proof.
  intros Hs Hnd Hb. eapply (StronglySorted_unique Z.le); [done|apply seqZ_sorted|].
  apply submseteq_length_Permutation.
  - apply NoDup_submseteq; [done|]. intros x Hx. apply elem_of_seqZ.
    rewrite Forall_forall in Hb. specialize (Hb x Hx). lia.
  - rewrite length_seqZ. lia.
Qed.

Lemma steps_NoDup w : wf w -> NoDup (scan (db_job_steps (db w))).
Proof.
  intros Hwf. rewrite (scan_perm string JobStepRow).
  apply NoDup_fmap_2_strong; [|apply NoDup_map_to_list].
  intros [k s] [k' s'] Hk%elem_of_map_to_list Hk'%elem_of_map_to_list Heq. simpl in Heq. subst s'.
  f_equal. eapply (wf_step_unique _ _ _ _ _ Hwf); [exact Hk|exact Hk'|]. unfold step_conflict.
  by rewrite bool_decide_eq_true_2, Z.eqb_refl.
Qed.

Lemma asc_Z_sorted {A} (f : A -> Z) (l : list A) :
  StronglySorted (cmp_le (asc_Z f)) l -> StronglySorted Z.le (f <$> l).
Proof.
  induction 1 as [|x l Hs IH Hx]; simpl; constructor; [done|]. apply Forall_fmap.
  eapply Forall_impl; [exact Hx|]. intros y. unfold cmp_le, asc_Z. simpl.
  by rewrite Z.compare_le_iff.
Qed.

(** The committed steps of a job are gapless: read in order they stand at positions
    0, 1, 2, ... up to their number.  A caller scoped to a namespace sees all of them or
    none. *)
Theorem get_job_steps_gapless id ns w :
  wf w -> pool_ready (tick w) = true ->
  exists rows, get_job_steps id ns w = (Ok rows, bump 1 w)
    /\ (js_seq <$> rows) = seqZ 0 (count rows)
    /\ (rows = [] \/ length rows = steps_count (db_job_steps (db w)) id).
Proof.
  intros Hwf Hp. unfold get_job_steps. rewrite (bind_ok _ _ _ _ _ (conn_ok w Hp)).
  erewrite bind_ok by done. eexists. split; [done|]. simpl.
  set (p := fun s => Is_true (bool_decide (js_job_id s = id)
    && job_in_namespace (js_namespace s) ns)).
  set (rows := order_by (asc_Z js_seq) (filter p (scan (db_job_steps (db w))))).
  assert (Hmem : forall s, s ∈ rows -> exists k, db_job_steps (db w) !! k = Some s
    /\ js_job_id s = id /\ job_in_namespace (js_namespace s) ns = true).
  { intros s. unfold rows. rewrite order_by_elem_of, list_elem_of_filter. unfold p.
    rewrite andb_True, bool_decide_spec, Is_true_true. intros [[? ?] [k ?]%elem_of_scan].
    by exists k. }
  assert (Hall : rows = [] \/ length rows = steps_count (db_job_steps (db w)) id).
  { destruct rows as [|s l] eqn:Hrows; [by left|right]. rewrite <- Hrows. unfold rows.
    rewrite order_by_perm, length_filter_scan. unfold steps_count. f_equal.
    apply map_filter_ext. intros k s' Hk'. unfold p. simpl.
    rewrite andb_True, bool_decide_spec. split; [tauto|]. intros Hid. split; [done|].
    destruct (Hmem s ltac:(left)) as (k0 & Hk0 & Hid0 & Hns).
    destruct (wf_step_live _ _ _ _ _ Hwf _ _ Hk0) as (r & Hr & Hn).
    destruct (wf_step_live _ _ _ _ _ Hwf _ _ Hk') as (r' & Hr' & Hn').
    rewrite Hid0 in Hr. rewrite Hid in Hr'. apply Is_true_true. congruence. }
  split; [|done]. unfold count. rewrite <- (length_fmap js_seq rows). apply sorted_gapless.
  - apply asc_Z_sorted, order_by_sorted, _.
  - apply NoDup_fmap_2_strong.
    + intros s s' (k & Hk & Hid & _)%Hmem (k' & Hk' & Hid' & _)%Hmem Hseq.
      assert (k = k') as ->; [|congruence].
      eapply (wf_step_unique _ _ _ _ _ Hwf); [exact Hk|exact Hk'|]. unfold step_conflict.
      rewrite bool_decide_eq_true_2 by congruence. by rewrite Hseq, Z.eqb_refl.
    + unfold rows. rewrite order_by_perm. by apply NoDup_filter, steps_NoDup.
  - rewrite length_fmap. apply Forall_fmap, Forall_forall. intros s Hin. simpl.
    destruct Hall as [Hnil|Hlen]; [rewrite Hnil in Hin; by apply elem_of_nil in Hin|].
    destruct (Hmem s Hin) as (k & Hk & Hid & _). rewrite Hlen, <- Hid.
    by eapply (wf_step_bound _ _ _ _ _ Hwf).
Qed.

(** *** Preservation of the invariant *)

Lemma keeps_record_step_result step owner a epoch limits ns :
  keeps wf (record_step_result step owner a epoch limits ns).
Proof.
  unfold record_step_result. case_match; [apply keeps_throw|].
  apply keeps_write_transaction; [apply _|]. intros w Hwf.
  eapply wp_mono; [by apply record_step_txn_cases|by intros c w' [? _]|done].
Qed.

Lemma keeps_sleep_job step owner a epoch wake limits ns :
  keeps wf (sleep_job step owner a epoch wake limits ns).
Proof.
  apply keeps_write_transaction; [apply _|]. intros w Hwf.
  eapply wp_mono; [by apply sleep_txn_cases|by intros c w' [? _]|done].
Qed.

Lemma keeps_delete_job_steps id ns : keeps wf (delete_job_steps id ns).
Proof.
  apply keeps_bind; [apply keeps_conn, _|]. intros _ w Hwf.
  unfold wf, sql_delete. simpl.
  assert (Hcase : keep_where (fun s => bool_decide (js_job_id s = id)
      && job_in_namespace (js_namespace s) ns) (db_job_steps (db w)) = db_job_steps (db w)
    \/ keep_where (fun s => bool_decide (js_job_id s = id)
      && job_in_namespace (js_namespace s) ns) (db_job_steps (db w))
       = drop_steps id (db_job_steps (db w))).
  { destruct (db_jobs (db w) !! id) as [r|] eqn:Hr.
    - destruct (job_in_namespace (jr_namespace r) ns) eqn:Hns; [right|left].
      + apply map_eq. intros k. apply option_eq. intros s.
        rewrite drop_steps_lookup, keep_where_lookup. split; intros [Hk Hc]; (split; [done|]).
        * intros Hid. destruct (wf_step_live _ _ _ _ _ Hwf _ _ Hk) as (r' & Hr' & Hn).
          rewrite Hid in Hr'. replace r' with r in Hn by congruence.
          by rewrite bool_decide_eq_true_2, Hn, Hns in Hc.
        * by rewrite bool_decide_eq_false_2.
      + apply keep_where_nothing. intros k s Hk. case_bool_decide as Hid; [|done]. simpl.
        destruct (wf_step_live _ _ _ _ _ Hwf _ _ Hk) as (r' & Hr' & Hn).
        rewrite Hid in Hr'. replace r' with r in Hn by congruence. by rewrite Hn.
    - left. apply keep_where_nothing. intros k s Hk. case_bool_decide as Hid; [|done].
      destruct (wf_step_live _ _ _ _ _ Hwf _ _ Hk) as (r' & Hr' & _). congruence. }
  unfold keep_where in Hcase. destruct Hcase as [->| ->]; [done|]. by apply wf_drop_steps.
Qed.
End committing.

#[export] Hint Resolve keeps_record_step_result keeps_sleep_job keeps_delete_job_steps : keeps.

(** ** Examples *)

Section examples.
#[local] Existing Instances demo_env demo_engine demo_uuid_fresh demo_scan_complete.

Definition demo_step : NewJobStep := mkNewJobStep (uuid_v7 1) 0 "charge" Run (Some [x2a]).
Definition demo_sleep : NewJobStep := mkNewJobStep (uuid_v7 1) 1 "wait" Sleep None.

Lemma wf_claimed_world : wf claimed_world.
Proof. apply keeps_claim_execution, wf_running_world. Qed.

(** The job after its first commit. *)
Definition stepped_world : World :=
  snd (record_step_result demo_step "a" 0 (Some (epoch_at 6)) default_limits None claimed_world).

Lemma record_step_result_spec_witness :
  committed_step demo_step "a" 0 (Some (epoch_at 6)) (clamped default_limits) None
    (db claimed_world) (db stepped_world) /\ wf stepped_world.
Proof.
  assert (Hx : record_step_result demo_step "a" 0 (Some (epoch_at 6)) default_limits None
    claimed_world = (Ok Committed, stepped_world)) by by vm_compute.
  destruct (record_step_result_spec _ _ _ _ _ _ _ _ _ wf_claimed_world Hx) as (Hwf & _ & _ & Hc).
  split; [exact Hc|exact Hwf].
Defined.

Lemma record_step_result_once_witness :
  fst (record_step_result demo_step "a" 0 (Some (epoch_at 6)) default_limits None
    (mkWorld (db stepped_world) 90)) = Ok AlreadyCommitted.
Proof.
  assert (Hx : record_step_result demo_step "a" 0 (Some (epoch_at 6)) default_limits None
    claimed_world = (Ok Committed, stepped_world)) by by vm_compute.
  assert (Hn : (tick stepped_world <= 90)%nat) by (vm_compute; lia).
  rewrite (record_step_result_once _ _ _ _ _ _ _ _ _ 90 wf_claimed_world Hx Hn eq_refl).
  reflexivity.
Defined.

Lemma sleep_job_spec_witness :
  slept_job demo_sleep "a" 0 (Some (epoch_at 6)) 60000 None (Slept 60000) (db stepped_world)
    (db (snd (sleep_job demo_sleep "a" 0 (Some (epoch_at 6)) 60000 default_limits None
      stepped_world))).
Proof.
  destruct (sleep_job demo_sleep "a" 0 (Some (epoch_at 6)) 60000 default_limits None
    stepped_world) as [r w'] eqn:Hx.
  assert (Hr : r = Ok (Slept 60000)).
  { change r with (fst (r, w')). rewrite <- Hx. by vm_compute. }
  subst r. refine (proj2 (sleep_job_spec _ _ _ _ _ _ _ _ _ _ _ Hx)).
  apply keeps_record_step_result, wf_claimed_world.
Defined.

Lemma get_job_steps_gapless_witness :
  exists rows, get_job_steps (uuid_v7 1) (Some "acme") stepped_world = (Ok rows, bump 1 stepped_world)
    /\ (js_seq <$> rows) = seqZ 0 (count rows).
Proof.
  assert (Hwf : wf stepped_world) by apply keeps_record_step_result, wf_claimed_world.
  destruct (get_job_steps_gapless (uuid_v7 1) (Some "acme") stepped_world Hwf eq_refl)
    as (rows & Heq & Hseq & _).
  exists rows. split; [exact Heq|exact Hseq].
Defined.
End examples.
