(* ===== verification/StepSeq.v ===== *)
(** * One attempt's walk through a job's steps ([step/key.rs], [step/sequence.rs])

    A task body asks for its steps one by one.  The sequence holds the rows committed by
    earlier attempts and decides for each request whether its value is already known,
    whether it is new, or whether the code has changed underneath the record.  The main
    theorem, [replay_is_transparent], compares an attempt that is interrupted anywhere and
    started again with one that was never interrupted: the second attempt runs nothing
    again, gets the same values, and goes on exactly as the first would have. *)
From S2P Require Import Prelude Job Db Store Enqueue Dequeue Transitions Cascade Purge.
From S2P Require Import Claims Steps.

(** ** Step identity *)

Definition MAX_NAME_BYTES : nat := 128.
Definition MAX_KEY_BYTES : nat := 256.

(** A byte that begins a character of UTF-8. *)
Definition starts_char (a : Ascii.ascii) : bool :=
  let n := Ascii.nat_of_ascii a in negb ((128 <=? n)%nat && (n <? 192)%nat).

(** The prefix before the [k]th character, and whether there is such a character. *)
Fixpoint chars_before (k : nat) (s : string) : string * bool :=
  match s with
  | EmptyString => (""%string, false)
  | String a s' =>
      if starts_char a then
        match k with
        | O => (""%string, true)
        | S k' => let '(p, cut) := chars_before k' s' in (String a p, cut)
        end
      else let '(p, cut) := chars_before k s' in (String a p, cut)
  end.

Definition abbreviate (value : string) : string :=
  match chars_before 48 value with
  | (prefix, true) => (prefix +:+ "…")%string
  | (_, false) => value
  end.

(** [name.contains(c)] *)
Fixpoint contains_char (c : Ascii.ascii) (s : string) : bool :=
  match s with
  | EmptyString => false
  | String a s => bool_decide (a = c) || contains_char c s
  end.

Definition hash_char : Ascii.ascii := Ascii.ascii_of_nat 35.
Definition colon_char : Ascii.ascii := Ascii.ascii_of_nat 58.

Definition validate_name (name : string) : Result QueueError unit :=
  if bool_decide (name = ""%string) then Err (Config "a step name must not be empty")
  else if (MAX_NAME_BYTES <? String.length name)%nat then
    Err (Config ("step name '" +:+ abbreviate name +:+ "' is "
      +:+ pretty (String.length name) +:+ " bytes, over the 128 byte limit"))
  else
    match List.find (fun c => contains_char c name) [hash_char; colon_char] with
    | Some separator =>
        Err (Config ("step name '" +:+ abbreviate name +:+ "' contains '"
          +:+ String separator "" +:+ "', which separates a name from its key"))
    | None => Ok tt
    end.

Definition validate_key (name key : string) : Result QueueError unit :=
  if bool_decide (key = ""%string) then
    Err (Config ("step '" +:+ abbreviate name
      +:+ "' was given an empty key; omit the key to number it by occurrence"))
  else if (MAX_KEY_BYTES <? String.length key)%nat then
    Err (Config ("key '" +:+ abbreviate key +:+ "' of step '" +:+ abbreviate name +:+ "' is "
      +:+ pretty (String.length key) +:+ " bytes, over the 256 byte limit"))
  else Ok tt.

Definition derive (name : string) (occurrence : Z) : Result QueueError string :=
  match validate_name name with
  | Ok _ => Ok (name +:+ "#" +:+ pretty occurrence)%string
  | Err e => Err e
  end.

Definition explicit (name key : string) : Result QueueError string :=
  match validate_name name with
  | Ok _ =>
      match validate_key name key with
      | Ok _ => Ok (name +:+ ":" +:+ key)%string
      | Err e => Err e
      end
  | Err e => Err e
  end.

(** *** The identity is unambiguous *)

Definition is_separator (c : Ascii.ascii) : bool := bool_decide (c = hash_char \/ c = colon_char).

Fixpoint plain (s : string) : bool :=
  match s with
  | EmptyString => true
  | String a s => negb (is_separator a) && plain s
  end.

Lemma plain_contains s :
  contains_char hash_char s = false -> contains_char colon_char s = false -> plain s = true.
Proof.
  induction s as [|a s IH]; [done|]. cbn [contains_char plain]. unfold is_separator.
  intros [H1 ?]%orb_false_iff [H2 ?]%orb_false_iff. rewrite IH by done.
  apply bool_decide_eq_false in H1, H2. rewrite bool_decide_eq_false_2; [done|]. naive_solver.
Qed.

Lemma validate_name_plain name : validate_name name = Ok tt -> plain name = true.
Proof.
  unfold validate_name. case_bool_decide; [done|]. destruct (_ <? _)%nat; [done|]. simpl.
  destruct (contains_char hash_char name) eqn:H1; [done|].
  destruct (contains_char colon_char name) eqn:H2; [done|]. intros _. by apply plain_contains.
Qed.

Lemma separated_inj n n' c c' r r' :
  plain n = true -> plain n' = true -> is_separator c = true -> is_separator c' = true ->
  (n +:+ String c r = n' +:+ String c' r')%string -> n = n' /\ c = c' /\ r = r'.
Proof.
  revert n'. induction n as [|a n IH]; intros n' Hn Hn' Hc Hc'; destruct n' as [|a' n'];
    cbn [String.append plain] in *.
  - intros [= -> ->]. done.
  - intros [= <- _]. by rewrite Hc in Hn'.
  - intros [= -> _]. by rewrite Hc' in Hn.
  - apply andb_true_iff in Hn as [_ Hn], Hn' as [_ Hn']. intros [= -> Heq].
    by destruct (IH n' Hn Hn' Hc Hc' Heq) as (-> & -> & ->).
Qed.

(** What a step is asked for by: its name, and an occurrence number or a key. *)
Definition step_id (name : string) (id : Z + string) : Result QueueError string :=
  match id with inl occurrence => derive name occurrence | inr key => explicit name key end.

Lemma step_id_shape name id k :
  step_id name id = Ok k ->
  plain name = true /\ exists c r, is_separator c = true /\ k = (name +:+ String c r)%string
    /\ match id with
       | inl occurrence => c = hash_char /\ r = pretty occurrence
       | inr key => c = colon_char /\ r = key
       end.
Proof.
  unfold step_id, derive, explicit. destruct (validate_name name) as [[]|] eqn:Hv; [|by destruct id].
  apply validate_name_plain in Hv. destruct id as [occ|key].
  - intros [= <-]. split; [done|]. by exists hash_char, (pretty occ).
  - destruct (validate_key name key); [|done]. intros [= <-]. split; [done|].
    by exists colon_char, key.
Qed.

(** two requests that name different steps never share a stored key: from the key the
    name and the occurrence number or explicit key are recovered, and a numbered step is
    never confused with a keyed one. *)
Theorem step_key_unambiguous name name' id id' k :
  step_id name id = Ok k -> step_id name' id' = Ok k -> name = name' /\ id = id'.
Proof.
  intros (Hp & c & r & Hc & -> & Hid)%step_id_shape (Hp' & c' & r' & Hc' & Heq & Hid')%step_id_shape.
  destruct (separated_inj _ _ _ _ _ _ Hp Hp' Hc Hc' Heq) as (-> & -> & ->). split; [done|].
  destruct id as [o|key], id' as [o'|key']; destruct Hid as [Hs Hr], Hid' as [Hs' Hr'];
    try (rewrite Hs in Hs'; done); f_equal; [|congruence].
  apply (inj pretty). congruence.
Qed.

Lemma step_key_unambiguous_witness :
  step_id "charge" (inr "3"%string) = Ok "charge:3"%string
  /\ ("charge"%string = "charge"%string /\ @inr Z string "3" = inr "3"%string).
Proof. split; [done|]. by apply (step_key_unambiguous _ _ _ _ "charge:3"). Defined.

(** ** The sequence *)

Record JobStep := mkJobStep {
  st_job_id : string;
  st_seq : Z;
  st_step_key : string;
  st_kind : StepKind;
  st_result : option bytes;
  st_wake_at : option Z;
  st_created_at : Z
}.

(** [From<JobStepRow> for JobStep] *)
Definition step_of_row (row : JobStepRow) : JobStep :=
  mkJobStep (js_job_id row) (js_seq row) (js_step_key row) (from_wire (js_kind row))
    (js_result row) (js_wake_at row) (js_created_at row).

#[export] Instance JobStep_inhabited : Inhabited JobStep :=
  populate (mkJobStep "" 0 "" Run None None 0).

Record PendingStep := mkPendingStep { ps_seq : Z; ps_step_key : string; ps_kind : StepKind }.

#[export] Instance StepKind_eq_dec : EqDecision StepKind.
Proof. solve_decision. Defined.
#[export] Instance PendingStep_eq_dec : EqDecision PendingStep.
Proof. solve_decision. Defined.

Inductive StepDecision :=
  | Memoized (step_key : string) (result : bytes)
  | RunStep (pending : PendingStep).

Inductive SleepDecision :=
  | Elapsed (step_key : string) (wake_at : Z)
  | SleepStep (pending : PendingStep)
  | ResumeSleep (pending : PendingStep).

Definition DEFAULT_SLEEP_NAME : string := "sleep".

Record StepSequence := mkStepSequence {
  sq_job_id : string;
  sq_recorded : list JobStep;
  sq_claimed : list bool;
  sq_by_key : gmap string nat;
  sq_issued : list string;
  sq_issued_keys : gset string;
  sq_occurrences : gmap string Z;
  sq_cursor : nat;
  sq_pending : option PendingStep;
  sq_stored_count : Z;
  sq_stored_bytes : Z
}.

Inductive StepMatch :=
  | Recorded (index : nat)
  | NewStep (pending : PendingStep).

Definition result_len (step : JobStep) : Z :=
  match st_result step with Some r => Z.of_nat (length r) | None => 0 end.

(** Later rows of one key replace earlier ones, as in [collect]. *)
Fixpoint index_keys (index : nat) (recorded : list JobStep) (m : gmap string nat)
    : gmap string nat :=
  match recorded with
  | [] => m
  | step :: rest => index_keys (S index) rest (<[st_step_key step := index]> m)
  end.

(** The first position whose [seq] is not its index. *)
Fixpoint find_hole (index : nat) (recorded : list JobStep) : option (nat * Z) :=
  match recorded with
  | [] => None
  | step :: rest =>
      if st_seq step =? as_i32 (Z.of_nat index) then find_hole (S index) rest
      else Some (index, st_seq step)
  end.

Definition fresh_sequence (job_id : string) (recorded : list JobStep) : StepSequence :=
  mkStepSequence job_id recorded (replicate (length recorded) false)
    (index_keys 0 recorded ∅) [] ∅ ∅ 0 None (Z.of_nat (length recorded))
    (foldr Z.add 0 (result_len <$> recorded)).

(** [StepSequence::new] *)
Definition new_sequence (job_id : string) (recorded : list JobStep)
    : Result QueueError StepSequence :=
  match find_hole 0 recorded with
  | Some (index, seq) =>
      Err (Config ("job " +:+ job_id +:+ " has a hole in its step sequence: position "
        +:+ pretty index +:+ " holds seq " +:+ pretty seq))
  | None => Ok (fresh_sequence job_id recorded)
  end.

(** *** Rendering a divergence *)

Definition recorded_keys (s : StepSequence) : list string := st_step_key <$> sq_recorded s.

Definition render_sequence (keys : list string) (position : nat) : string :=
  match keys with
  | [] => "(none)"
  | _ =>
      let fin := Nat.min (position + 6) (length keys) in
      let start := Nat.min (position - 5) fin in
      ((if (0 <? start)%nat then "…(" +:+ pretty start +:+ " earlier), " else "")
       +:+ String.concat ", " (abbreviate <$> take (fin - start) (drop start keys))
       +:+ (if (fin <? length keys)%nat
            then ", …(" +:+ pretty (length keys - fin)%nat +:+ " more)" else ""))%string
  end.

Definition divergence (s : StepSequence) (position : nat) (step_key : string) (kind : StepKind)
    : QueueError :=
  let recorded := sq_recorded s !!! position in
  let '(expected, found) :=
    if bool_decide (st_step_key recorded = step_key) then
      (("'" +:+ st_step_key recorded +:+ "' as a " +:+ kind_str (st_kind recorded) +:+ " step")%string,
       ("'" +:+ step_key +:+ "' as a " +:+ kind_str kind +:+ " step")%string)
    else
      (("'" +:+ abbreviate (st_step_key recorded) +:+ "'")%string,
       ("'" +:+ abbreviate step_key +:+ "'")%string) in
  StepSequenceDiverged (mkStepDivergence (sq_job_id s) (Z.of_nat position)
    (render_sequence (recorded_keys s) position)
    (render_sequence (sq_issued s) (length (sq_issued s) - 1)) expected found).

(** *** Field updates *)

Definition sq_with_claimed v (s : StepSequence) : StepSequence :=
  mkStepSequence (sq_job_id s) (sq_recorded s) v (sq_by_key s) (sq_issued s) (sq_issued_keys s)
    (sq_occurrences s) (sq_cursor s) (sq_pending s) (sq_stored_count s) (sq_stored_bytes s).
Definition sq_with_issued l k (s : StepSequence) : StepSequence :=
  mkStepSequence (sq_job_id s) (sq_recorded s) (sq_claimed s) (sq_by_key s) l k
    (sq_occurrences s) (sq_cursor s) (sq_pending s) (sq_stored_count s) (sq_stored_bytes s).
Definition sq_with_occurrences v (s : StepSequence) : StepSequence :=
  mkStepSequence (sq_job_id s) (sq_recorded s) (sq_claimed s) (sq_by_key s) (sq_issued s)
    (sq_issued_keys s) v (sq_cursor s) (sq_pending s) (sq_stored_count s) (sq_stored_bytes s).
Definition sq_with_cursor v (s : StepSequence) : StepSequence :=
  mkStepSequence (sq_job_id s) (sq_recorded s) (sq_claimed s) (sq_by_key s) (sq_issued s)
    (sq_issued_keys s) (sq_occurrences s) v (sq_pending s) (sq_stored_count s) (sq_stored_bytes s).
Definition sq_with_pending v (s : StepSequence) : StepSequence :=
  mkStepSequence (sq_job_id s) (sq_recorded s) (sq_claimed s) (sq_by_key s) (sq_issued s)
    (sq_issued_keys s) (sq_occurrences s) (sq_cursor s) v (sq_stored_count s) (sq_stored_bytes s).
Definition sq_with_stored c b (s : StepSequence) : StepSequence :=
  mkStepSequence (sq_job_id s) (sq_recorded s) (sq_claimed s) (sq_by_key s) (sq_issued s)
    (sq_issued_keys s) (sq_occurrences s) (sq_cursor s) (sq_pending s) c b.

Notation SeqM := (M StepSequence QueueError).

Definition from_seq_result {A} (r : Result QueueError A) : SeqM A := fun s => (r, s).

Definition check_issuable (step_key : string) : SeqM unit :=
  s ← get_st;
  match sq_pending s with
  | Some outstanding =>
      throw (Config ("step '" +:+ abbreviate step_key +:+ "' of job " +:+ sq_job_id s
        +:+ " started while step '" +:+ abbreviate (ps_step_key outstanding)
        +:+ "' is still uncommitted"))
  | None =>
      if bool_decide (step_key ∈ sq_issued_keys s) then
        throw (Config ("step key '" +:+ abbreviate step_key
          +:+ "' was used twice in one attempt of job " +:+ sq_job_id s
          +:+ "; give each keyed step a key of its own"))
      else
        modify (fun s => sq_with_issued (sq_issued s ++ [step_key])
          ({[step_key]} ∪ sq_issued_keys s) s)
  end.

(** How many rows from the front are spoken for. *)
Fixpoint lead_claimed (claimed : list bool) : nat :=
  match claimed with
  | true :: rest => S (lead_claimed rest)
  | _ => 0
  end.

Definition recorded_match (step_key : string) (keyed : bool) : SeqM (option nat) :=
  s ← get_st;
  if (keyed : bool) then mret (sq_by_key s !! step_key)
  else
    let cursor := (sq_cursor s + lead_claimed (drop (sq_cursor s) (sq_claimed s)))%nat in
    modify (sq_with_cursor cursor) ;;
    mret (match sq_recorded s !! cursor with
          | Some recorded =>
              if bool_decide (st_step_key recorded = step_key) then Some cursor else None
          | None => None
          end).

Definition new_ground (step_key : string) (kind : StepKind) : SeqM PendingStep :=
  s ← get_st;
  if i32_max <? sq_stored_count s then
    throw (Config ("job " +:+ sq_job_id s +:+ " asked for more steps than a sequence can hold"))
  else
    let pending := mkPendingStep (sq_stored_count s) step_key kind in
    modify (sq_with_pending (Some pending)) ;;
    mret pending.

Definition landed (step_key : string) (kind : StepKind) (keyed : bool) : SeqM StepMatch :=
  found ← recorded_match step_key keyed;
  s ← get_st;
  match found with
  | Some index =>
      if bool_decide (st_kind (sq_recorded s !!! index) = kind) then mret (Recorded index)
      else throw (divergence s index step_key kind)
  | None =>
      if keyed || (length (sq_recorded s) <=? sq_cursor s)%nat then
        pending ← new_ground step_key kind; mret (NewStep pending)
      else throw (divergence s (sq_cursor s) step_key kind)
  end.

Definition resolve (name : string) (key : option string) (kind : StepKind) : SeqM StepMatch :=
  s ← get_st;
  step_key ← from_seq_result
    match key with
    | Some key => explicit name key
    | None => derive name (default 0 (sq_occurrences s !! name))
    end;
  check_issuable step_key ;;
  found ← landed step_key kind (bool_decide (is_Some key));
  match key with
  | Some _ => mret tt
  | None =>
      modify (fun s => sq_with_occurrences
        (<[name := as_u32 (default 0 (sq_occurrences s !! name) + 1)]> (sq_occurrences s)) s)
  end ;;
  mret found.

Definition memoize (index : nat) : SeqM StepDecision :=
  s ← get_st;
  modify (fun s => sq_with_claimed (<[index := true]> (sq_claimed s)) s) ;;
  let recorded := sq_recorded s !!! index in
  mret (Memoized (st_step_key recorded) (default [] (st_result recorded))).

Definition begin_run (name : string) (key : option string) : SeqM StepDecision :=
  found ← resolve name key Run;
  match found with
  | Recorded index => memoize index
  | NewStep pending => mret (RunStep pending)
  end.

Definition begin_sleep (name key : option string) (now : Z) : SeqM SleepDecision :=
  let name := default DEFAULT_SLEEP_NAME name in
  found ← resolve name key Sleep;
  match found with
  | NewStep pending => mret (SleepStep pending)
  | Recorded index =>
      s ← get_st;
      let recorded := sq_recorded s !!! index in
      match st_wake_at recorded with
      | None =>
          throw (StepDiverged (sq_job_id s) (st_seq recorded) "a sleep step with a deadline"
            ("'" +:+ abbreviate (st_step_key recorded) +:+ "' with none"))
      | Some wake_at =>
          modify (fun s => sq_with_claimed (<[index := true]> (sq_claimed s)) s) ;;
          if wake_at <=? now then mret (Elapsed (st_step_key recorded) wake_at)
          else
            let pending := mkPendingStep (st_seq recorded) (st_step_key recorded) Sleep in
            modify (sq_with_pending (Some pending)) ;;
            mret (ResumeSleep pending)
      end
  end.

Definition take_pending (pending : PendingStep) : SeqM unit :=
  s ← get_st;
  if bool_decide (sq_pending s = Some pending) then modify (sq_with_pending None)
  else
    throw (Config ("step '" +:+ abbreviate (ps_step_key pending) +:+ "' of job "
      +:+ sq_job_id s +:+ " was committed out of turn")).

Definition commit (pending : PendingStep) (encoded_len : Z) : SeqM unit :=
  take_pending pending ;;
  modify (fun s => sq_with_stored (sq_stored_count s + 1) (sq_stored_bytes s + encoded_len) s).

Definition commit_sleep (pending : PendingStep) (outcome : SleepOutcome) : SeqM unit :=
  take_pending pending ;;
  match outcome with
  | Slept _ => modify (fun s => sq_with_stored (sq_stored_count s + 1) (sq_stored_bytes s) s)
  | AlreadySleeping _ => mret tt
  end.

(** [orphaned_tail] *)
Definition orphaned_tail (s : StepSequence) : list string :=
  omap (fun '(step, claimed) => if (claimed : bool) then None else Some (st_step_key step))
    (zip (sq_recorded s) (sq_claimed s)).

(** ** Attempts

    What a task body asks for, and the attempt that answers it: a memo is returned, a
    closure's result or a deadline is committed, and a sleep is waited out.  The rows an
    attempt commits come back in order. *)
Inductive Request :=
  | RunReq (name : string) (key : option string) (body : bytes)
  | SleepReq (name key : option string) (wake_at : Z).

Inductive Value :=
  | Bytes (result : bytes)
  | Woke (at_ms : Z).

Definition row_of_pending (job_id : string) (p : PendingStep) (result : option bytes)
    (wake_at : option Z) (now : Z) : JobStep :=
  mkJobStep job_id (ps_seq p) (ps_step_key p) (ps_kind p) result wake_at now.

Definition perform (now : Z) (req : Request) : SeqM (Value * list JobStep) :=
  match req with
  | RunReq name key body =>
      decision ← begin_run name key;
      match decision with
      | Memoized _ result => mret (Bytes result, [])
      | RunStep pending =>
          commit pending (Z.of_nat (length body)) ;;
          s ← get_st;
          mret (Bytes body, [row_of_pending (sq_job_id s) pending (Some body) None now])
      end
  | SleepReq name key wake_at =>
      decision ← begin_sleep name key now;
      match decision with
      | Elapsed _ wake_at => mret (Woke wake_at, [])
      | SleepStep pending =>
          commit_sleep pending (Slept wake_at) ;;
          s ← get_st;
          mret (Woke wake_at, [row_of_pending (sq_job_id s) pending None (Some wake_at) now])
      | ResumeSleep pending =>
          s ← get_st;
          let recorded := sq_recorded s !!! Z.to_nat (ps_seq pending) in
          let wake_at := default 0 (st_wake_at recorded) in
          commit_sleep pending (AlreadySleeping wake_at) ;;
          mret (Woke wake_at, [])
      end
  end.

(** Requests, each with the time it is made at. *)
Fixpoint perform_all (reqs : list (Z * Request)) : SeqM (list Value * list JobStep) :=
  match reqs with
  | [] => mret ([], [])
  | (now, req) :: reqs =>
      '(v, rows) ← perform now req;
      '(vs, rows') ← perform_all reqs;
      mret (v :: vs, rows ++ rows')
  end.

(** The same question, whatever its closure would return or its deadline would be. *)
Definition same_question (r r' : Request) : Prop :=
  match r, r' with
  | RunReq name key _, RunReq name' key' _ => name = name' /\ key = key'
  | SleepReq name key _, SleepReq name' key' _ => name = name' /\ key = key'
  | _, _ => False
  end.

(** ** Closed forms *)

Definition req_name (r : Request) : string :=
  match r with RunReq name _ _ => name | SleepReq name _ _ => default DEFAULT_SLEEP_NAME name end.
Definition req_key (r : Request) : option string :=
  match r with RunReq _ key _ | SleepReq _ key _ => key end.
Definition req_kind (r : Request) : StepKind :=
  match r with RunReq _ _ _ => Run | SleepReq _ _ _ => Sleep end.
Definition keyed (r : Request) : bool := bool_decide (is_Some (req_key r)).

Definition request_key (s : StepSequence) (r : Request) : Result QueueError string :=
  match req_key r with
  | Some key => explicit (req_name r) key
  | None => derive (req_name r) (default 0 (sq_occurrences s !! req_name r))
  end.

(** Where a request lands, when nothing has been skipped that is not claimed. *)
Definition locate (s : StepSequence) (r : Request) (k : string) : option nat :=
  if keyed r then sq_by_key s !! k
  else
    let c := lead_claimed (sq_claimed s) in
    match sq_recorded s !! c with
    | Some recorded => if bool_decide (st_step_key recorded = k) then Some c else None
    | None => None
    end.

(** The state once a request is accepted. *)
Definition accepted (s : StepSequence) (r : Request) (k : string) : StepSequence :=
  let s1 := sq_with_issued (sq_issued s ++ [k]) ({[k]} ∪ sq_issued_keys s) s in
  if keyed r then s1
  else
    sq_with_occurrences
      (<[req_name r := as_u32 (default 0 (sq_occurrences s !! req_name r) + 1)]> (sq_occurrences s))
      (sq_with_cursor (lead_claimed (sq_claimed s)) s1).

Definition new_row (now : Z) (s : StepSequence) (r : Request) (k : string) : JobStep :=
  match r with
  | RunReq _ _ body => mkJobStep (sq_job_id s) (sq_stored_count s) k Run (Some body) None now
  | SleepReq _ _ wake => mkJobStep (sq_job_id s) (sq_stored_count s) k Sleep None (Some wake) now
  end.

(** The value a recorded row answers with. *)
Definition row_value (row : JobStep) : option Value :=
  match st_kind row with
  | Run => Some (Bytes (default [] (st_result row)))
  | Sleep => Woke <$> st_wake_at row
  end.

Definition claim (i : nat) (s : StepSequence) : StepSequence :=
  sq_with_claimed (<[i := true]> (sq_claimed s)) s.

(** A sequence between two requests. *)
Record tidy (s : StepSequence) : Prop := {
  tidy_pending : sq_pending s = None;
  tidy_claimed : length (sq_claimed s) = length (sq_recorded s);
  tidy_cursor : forall i, (i < sq_cursor s)%nat -> sq_claimed s !! i = Some true;
  tidy_seq : forall i row, sq_recorded s !! i = Some row -> st_seq row = Z.of_nat i;
  tidy_keys : NoDup (st_step_key <$> sq_recorded s);
  tidy_index : sq_by_key s = index_keys 0 (sq_recorded s) ∅;
  tidy_issued : forall i row, sq_recorded s !! i = Some row ->
    sq_claimed s !! i = Some true -> st_step_key row ∈ sq_issued_keys s
}.

(** What [perform] comes to on a tidy sequence: an accepted answer and state, or an
    error. *)
Definition answer (now : Z) (s : StepSequence) (r : Request)
    : option (Value * list JobStep * StepSequence) :=
  match request_key s r with
  | Err _ => None
  | Ok k =>
      if bool_decide (k ∈ sq_issued_keys s) then None
      else
        match locate s r k with
        | Some i =>
            let row := sq_recorded s !!! i in
            if bool_decide (st_kind row = req_kind r) then
              v ← row_value row; Some (v, [], claim i (accepted s r k))
            else None
        | None =>
            if (keyed r || (length (sq_recorded s) <=? lead_claimed (sq_claimed s))%nat)
               && (sq_stored_count s <=? i32_max) then
              let row := new_row now s r k in
              v ← row_value row;
              Some (v, [row], sq_with_stored (sq_stored_count s + 1)
                (sq_stored_bytes s + result_len row) (accepted s r k))
            else None
        end
  end.

Lemma lead_claimed_drop n l :
  (forall i, (i < n)%nat -> l !! i = Some true) ->
  (n + lead_claimed (drop n l) = lead_claimed l)%nat.
Proof.
  revert l. induction n as [|n IH]; intros l Hl; [done|].
  destruct l as [|b l]; [by specialize (Hl 0%nat ltac:(lia))|].
  assert (b = true) as -> by (specialize (Hl 0%nat ltac:(lia)); by injection Hl).
  simpl. rewrite IH; [done|]. intros i Hi. apply (Hl (S i)). lia.
Qed.

Lemma lead_claimed_true l i : (i < lead_claimed l)%nat -> l !! i = Some true.
Proof.
  revert i. induction l as [|[] l IH]; intros i Hi; simpl in *; try lia.
  destruct i; [done|]. apply IH. lia.
Qed.

Lemma lead_claimed_le l : (lead_claimed l <= length l)%nat.
Proof. induction l as [|[] l IH]; simpl; lia. Qed.

Lemma lead_claimed_next l : l !! lead_claimed l <> Some true.
Proof. by induction l as [|[] l IH]. Qed.

Lemma index_keys_spec l n m k i :
  NoDup (st_step_key <$> l) ->
  (index_keys n l m !! k = Some i <->
   (exists j row, i = (n + j)%nat /\ l !! j = Some row /\ st_step_key row = k)
   \/ (k ∉ (st_step_key <$> l)) /\ m !! k = Some i).
Proof.
  revert n m. induction l as [|row l IH]; intros n m Hnd; cbn [index_keys].
  { split; [intros Hm; right; split; [apply not_elem_of_nil|done]|].
    by intros [(j & ? & _ & Hj & _)|[_ ?]]. }
  rewrite fmap_cons in Hnd. apply NoDup_cons in Hnd as [Hr Hnd]. rewrite IH by done. split.
  - intros [(j & row' & -> & Hj & Hk)|[Hk Hm]].
    + left. exists (S j), row'. split_and!; [lia|done|done].
    + destruct (decide (st_step_key row = k)) as [<-|Hne].
      * rewrite lookup_insert_eq in Hm. injection Hm as <-. left. exists 0%nat, row.
        split_and!; [lia|done|done].
      * rewrite lookup_insert_ne in Hm by done. right. rewrite fmap_cons, not_elem_of_cons. done.
  - rewrite fmap_cons, not_elem_of_cons. intros [(j & row' & -> & Hj & Hk)|[[Hne Hk] Hm]].
    + destruct j as [|j].
      * injection Hj as ->. right. split; [by rewrite <- Hk|].
        rewrite <- Hk, lookup_insert_eq. f_equal. lia.
      * left. exists j, row'. split_and!; [lia|done|done].
    + right. by rewrite lookup_insert_ne.
Qed.

Lemma by_key_spec l k i :
  NoDup (st_step_key <$> l) ->
  index_keys 0 l ∅ !! k = Some i <-> exists row, l !! i = Some row /\ st_step_key row = k.
Proof.
  intros Hnd. rewrite index_keys_spec by done. split.
  - intros [(j & row & -> & ?)|[_ H]]; [by exists row|]. by rewrite lookup_empty in H.
  - intros (row & ? & ?). left. by exists i, row.
Qed.

Lemma by_key_None l k :
  NoDup (st_step_key <$> l) -> index_keys 0 l ∅ !! k = None <-> k ∉ (st_step_key <$> l).
Proof.
  intros Hnd. rewrite eq_None_not_Some. split; intros Hk.
  - intros (row & -> & [i Hi]%list_elem_of_lookup)%list_elem_of_fmap. apply Hk. exists i.
    apply by_key_spec; [done|]. by exists row.
  - intros [i (row & Hi & <-)%by_key_spec]; [|done]. apply Hk, list_elem_of_fmap_2.
    by eapply list_elem_of_lookup_2.
Qed.

(** A row that [locate] finds is the one with the key asked for. *)
Lemma locate_Some s r k i :
  tidy s -> locate s r k = Some i ->
  exists row, sq_recorded s !! i = Some row /\ st_step_key row = k.
Proof.
  intros Ht. unfold locate. destruct (keyed r).
  - rewrite (tidy_index s Ht), by_key_spec by apply (tidy_keys s Ht). done.
  - destruct (sq_recorded s !! _) as [row|] eqn:Hrow; [|done]. case_bool_decide; [|done].
    intros [= <-]. by exists row.
Qed.

Section closed_form.
Context (now : Z) (s : StepSequence) (Ht : tidy s).

Lemma recorded_match_eq r k :
  let s1 := sq_with_issued (sq_issued s ++ [k]) ({[k]} ∪ sq_issued_keys s) s in
  recorded_match k (keyed r) s1
  = (Ok (locate s r k),
     if keyed r then s1 else sq_with_cursor (lead_claimed (sq_claimed s)) s1).
Proof.
  intros s1. unfold recorded_match, locate. cbn [mbind M_bind get_st].
  unfold mbind, M_bind, get_st. destruct (keyed r); [done|]. simpl.
  by rewrite (lead_claimed_drop _ _ (tidy_cursor s Ht)).
Qed.

Lemma check_issuable_eq k :
  check_issuable k s =
    if bool_decide (k ∈ sq_issued_keys s) then
      (Err (Config ("step key '" +:+ abbreviate k +:+ "' was used twice in one attempt of job "
        +:+ sq_job_id s +:+ "; give each keyed step a key of its own")), s)
    else (Ok tt, sq_with_issued (sq_issued s ++ [k]) ({[k]} ∪ sq_issued_keys s) s).
Proof.
  unfold check_issuable, mbind, M_bind, get_st. rewrite (tidy_pending s Ht).
  by case_bool_decide.
Qed.

(** The state after the match, before the occurrence is spent. *)
Definition walked_to (r : Request) (k : string) : StepSequence :=
  let s1 := sq_with_issued (sq_issued s ++ [k]) ({[k]} ∪ sq_issued_keys s) s in
  if keyed r then s1 else sq_with_cursor (lead_claimed (sq_claimed s)) s1.

Lemma walked_to_fields r k :
  sq_recorded (walked_to r k) = sq_recorded s
  /\ sq_stored_count (walked_to r k) = sq_stored_count s
  /\ (keyed r = false -> sq_cursor (walked_to r k) = lead_claimed (sq_claimed s)).
Proof. unfold walked_to. by destruct (keyed r). Qed.

Lemma landed_cases r k :
  let s1 := sq_with_issued (sq_issued s ++ [k]) ({[k]} ∪ sq_issued_keys s) s in
  match locate s r k with
  | Some i =>
      if bool_decide (st_kind (sq_recorded s !!! i) = req_kind r) then
        landed k (req_kind r) (keyed r) s1 = (Ok (Recorded i), walked_to r k)
      else exists e, landed k (req_kind r) (keyed r) s1 = (Err e, walked_to r k)
  | None =>
      if (keyed r || (length (sq_recorded s) <=? lead_claimed (sq_claimed s))%nat)
         && (sq_stored_count s <=? i32_max) then
        let p := mkPendingStep (sq_stored_count s) k (req_kind r) in
        landed k (req_kind r) (keyed r) s1
        = (Ok (NewStep p), sq_with_pending (Some p) (walked_to r k))
      else exists e, landed k (req_kind r) (keyed r) s1 = (Err e, walked_to r k)
  end.
Proof.
  intros s1. unfold landed. pose proof (recorded_match_eq r k) as Hm. cbn zeta in Hm.
  fold s1 in Hm. change (if keyed r then s1 else _) with (walked_to r k) in Hm.
  destruct (walked_to_fields r k) as (Hrec & Hcount & Hcur).
  destruct (locate s r k) as [i|] eqn:Hl; rewrite (bind_ok _ _ _ _ _ Hm);
    unfold mbind, M_bind, get_st; rewrite Hrec.
  - case_bool_decide; [done|by eexists].
  - assert (Hb : keyed r || (length (sq_recorded s) <=? sq_cursor (walked_to r k))%nat
      = keyed r || (length (sq_recorded s) <=? lead_claimed (sq_claimed s))%nat).
    { destruct (keyed r); [done|]. by rewrite Hcur. }
    rewrite Hb. clear Hb Hcur Hm.
    destruct (keyed r || (length (sq_recorded s) <=? lead_claimed (sq_claimed s))%nat);
      [|cbn [andb]; by eexists].
    generalize dependent (walked_to r k). intros s2 Hrec Hcount. simpl.
    unfold new_ground, mbind, M_bind, get_st. rewrite Hcount.
    destruct (Z.ltb_spec i32_max (sq_stored_count s)), (Z.leb_spec (sq_stored_count s) i32_max);
      try lia; [by eexists|done].
Qed.

Definition spend (r : Request) : SeqM unit :=
  match req_key r with
  | Some _ => mret tt
  | None =>
      modify (fun s => sq_with_occurrences
        (<[req_name r := as_u32 (default 0 (sq_occurrences s !! req_name r) + 1)]>
           (sq_occurrences s)) s)
  end.

Lemma spend_eq r k : spend r (walked_to r k) = (Ok tt, accepted s r k).
Proof. unfold spend, walked_to, accepted, keyed. by destruct (req_key r). Qed.

Lemma spend_pending_eq r k p :
  spend r (sq_with_pending p (walked_to r k)) = (Ok tt, sq_with_pending p (accepted s r k)).
Proof. unfold spend, walked_to, accepted, keyed. by destruct (req_key r). Qed.

(** What [resolve] returns on each branch. *)
Lemma resolve_cases r :
  let m := resolve (req_name r) (req_key r) (req_kind r) s in
  match request_key s r with
  | Err _ => is_ok (fst m) = false
  | Ok k =>
      if bool_decide (k ∈ sq_issued_keys s) then is_ok (fst m) = false
      else
        match locate s r k with
        | Some i =>
            if bool_decide (st_kind (sq_recorded s !!! i) = req_kind r)
            then m = (Ok (Recorded i), accepted s r k) else is_ok (fst m) = false
        | None =>
            if (keyed r || (length (sq_recorded s) <=? lead_claimed (sq_claimed s))%nat)
               && (sq_stored_count s <=? i32_max) then
              let p := mkPendingStep (sq_stored_count s) k (req_kind r) in
              m = (Ok (NewStep p), sq_with_pending (Some p) (accepted s r k))
            else is_ok (fst m) = false
        end
  end.
Proof.
  intros m. unfold m, resolve. erewrite bind_ok by done. unfold request_key.
  destruct (match req_key r with Some _ => _ | None => _ end) as [k|e]; [|done].
  erewrite bind_ok by done. pose proof (check_issuable_eq k) as Hc.
  destruct (bool_decide (k ∈ sq_issued_keys s)).
  { by rewrite (bind_err _ _ _ _ _ Hc). }
  rewrite (bind_ok _ _ _ _ _ Hc). clear Hc. fold (keyed r). fold (spend r).
  pose proof (landed_cases r k) as Hl. cbn zeta in Hl.
  destruct (locate s r k) as [i|].
  - destruct (bool_decide _).
    + rewrite (bind_ok _ _ _ _ _ Hl). by rewrite (bind_ok _ _ _ _ _ (spend_eq r k)).
    + destruct Hl as [e He]. by rewrite (bind_err _ _ _ _ _ He).
  - destruct (_ && _).
    + rewrite (bind_ok _ _ _ _ _ Hl).
      by rewrite (bind_ok _ _ _ _ _ (spend_pending_eq r k _)).
    + destruct Hl as [e He]. by rewrite (bind_err _ _ _ _ _ He).
Qed.
End closed_form.

Lemma tidy_row s r k i :
  tidy s -> locate s r k = Some i ->
  exists row, sq_recorded s !! i = Some row /\ sq_recorded s !!! i = row
    /\ st_step_key row = k /\ st_seq row = Z.of_nat i.
Proof.
  intros Ht Hl. destruct (locate_Some s r k i Ht Hl) as (row & Hrow & Hk). exists row.
  split_and!; [done|by apply list_lookup_total_correct|done|by eapply tidy_seq].
Qed.

Lemma accepted_fields s r k :
  sq_job_id (accepted s r k) = sq_job_id s /\ sq_recorded (accepted s r k) = sq_recorded s
  /\ sq_claimed (accepted s r k) = sq_claimed s /\ sq_by_key (accepted s r k) = sq_by_key s
  /\ sq_issued_keys (accepted s r k) = {[k]} ∪ sq_issued_keys s
  /\ sq_pending (accepted s r k) = sq_pending s
  /\ sq_stored_count (accepted s r k) = sq_stored_count s
  /\ sq_stored_bytes (accepted s r k) = sq_stored_bytes s.
Proof. unfold accepted. by destruct (keyed r). Qed.

Lemma accepted_cursor s r k i :
  (forall i, (i < sq_cursor s)%nat -> sq_claimed s !! i = Some true) ->
  (i < sq_cursor (accepted s r k))%nat -> sq_claimed s !! i = Some true.
Proof.
  intros Hc. unfold accepted. destruct (keyed r); simpl; [auto|apply lead_claimed_true].
Qed.

(** Setting and clearing the pending step leaves the rest. *)
Lemma take_pending_eq p s :
  sq_pending s = None ->
  take_pending p (sq_with_pending (Some p) s) = (Ok tt, s).
Proof.
  intros Hp. unfold take_pending, mbind, M_bind, get_st. simpl.
  rewrite bool_decide_eq_true_2 by done. destruct s. simpl in *. by subst.
Qed.

Lemma perform_run_recorded now name key body s i s1 :
  resolve name key Run s = (Ok (Recorded i), s1) ->
  perform now (RunReq name key body) s
  = (Ok (Bytes (default [] (st_result (sq_recorded s1 !!! i))), []), claim i s1).
Proof. intros Hr. unfold perform, begin_run, mbind, M_bind. by rewrite Hr. Qed.

Lemma perform_run_new now name key body s p s1 :
  resolve name key Run s = (Ok (NewStep p), sq_with_pending (Some p) s1) -> sq_pending s1 = None ->
  perform now (RunReq name key body) s
  = (Ok (Bytes body, [row_of_pending (sq_job_id s1) p (Some body) None now]),
     sq_with_stored (sq_stored_count s1 + 1) (sq_stored_bytes s1 + Z.of_nat (length body)) s1).
Proof.
  intros Hr Hp. unfold perform, begin_run, commit, mbind, M_bind. rewrite Hr. simpl.
  by rewrite take_pending_eq.
Qed.

Lemma perform_sleep_recorded now name key wake s i s1 w :
  resolve (default DEFAULT_SLEEP_NAME name) key Sleep s = (Ok (Recorded i), s1) ->
  sq_pending s1 = None -> st_seq (sq_recorded s1 !!! i) = Z.of_nat i ->
  st_wake_at (sq_recorded s1 !!! i) = Some w ->
  perform now (SleepReq name key wake) s = (Ok (Woke w, []), claim i s1).
Proof.
  intros Hr Hp Hseq Hw. unfold perform, begin_sleep, mbind, M_bind. rewrite Hr. simpl.
  rewrite Hw, Hseq. unfold modify. fold (claim i s1). destruct (w <=? now); simpl; [done|].
  rewrite Nat2Z.id, Hw. unfold commit_sleep, mbind, M_bind. simpl.
  by rewrite (take_pending_eq _ (claim i s1)).
Qed.

Lemma perform_sleep_blank now name key wake s i s1 :
  resolve (default DEFAULT_SLEEP_NAME name) key Sleep s = (Ok (Recorded i), s1) ->
  st_wake_at (sq_recorded s1 !!! i) = None ->
  is_ok (fst (perform now (SleepReq name key wake) s)) = false.
Proof.
  intros Hr Hw. unfold perform, begin_sleep, mbind, M_bind. rewrite Hr. simpl. by rewrite Hw.
Qed.

Lemma perform_sleep_new now name key wake s p s1 :
  resolve (default DEFAULT_SLEEP_NAME name) key Sleep s
    = (Ok (NewStep p), sq_with_pending (Some p) s1) -> sq_pending s1 = None ->
  perform now (SleepReq name key wake) s
  = (Ok (Woke wake, [row_of_pending (sq_job_id s1) p None (Some wake) now]),
     sq_with_stored (sq_stored_count s1 + 1) (sq_stored_bytes s1) s1).
Proof.
  intros Hr Hp. unfold perform, begin_sleep, commit_sleep, mbind, M_bind. rewrite Hr. simpl.
  by rewrite take_pending_eq.
Qed.

Lemma perform_answer now s r :
  tidy s ->
  match answer now s r with
  | Some (v, rows, s') => perform now r s = (Ok (v, rows), s')
  | None => is_ok (fst (perform now r s)) = false
  end.
Proof.
  intros Ht. pose proof (resolve_cases s Ht r) as Hr. cbn zeta in Hr. unfold answer.
  assert (Hfail : is_ok (fst (resolve (req_name r) (req_key r) (req_kind r) s)) = false ->
    is_ok (fst (perform now r s)) = false).
  { unfold perform, begin_run, begin_sleep. intros Hf.
    destruct r as [name key body|name key wake]; simpl in *; unfold mbind, M_bind;
      destruct (resolve _ key _ s) as [[x|e] s']; done. }
  destruct (request_key s r) as [k|e]; [|by apply Hfail].
  destruct (bool_decide (k ∈ sq_issued_keys s)); [by apply Hfail|].
  destruct (accepted_fields s r k) as (Hj & Hrec & Hcl & _ & _ & Hpend & Hcount & Hbytes).
  rewrite (tidy_pending s Ht) in Hpend.
  destruct (locate s r k) as [i|] eqn:Hl.
  - destruct (tidy_row s r k i Ht Hl) as (row & Hrow & Htot & Hk & Hseq).
    rewrite Htot in *. destruct (bool_decide_reflect (st_kind row = req_kind r)) as [Hkind|];
      [|by apply Hfail].
    unfold row_value. rewrite Hkind.
    destruct r as [name key body|name key wake]; simpl in Hr; cbn [req_kind mbind option_bind].
    + rewrite (perform_run_recorded now name key body _ _ _ Hr). by rewrite Hrec, Htot.
    + destruct (st_wake_at row) as [w|] eqn:Hw; simpl.
      * apply (perform_sleep_recorded now name key wake _ _ _ w Hr Hpend); by rewrite Hrec, Htot.
      * apply (perform_sleep_blank now name key wake _ _ _ Hr). by rewrite Hrec, Htot.
  - destruct (_ && _); [|by apply Hfail].
    destruct r as [name key body|name key wake]; simpl in Hr.
    + refine (eq_trans (perform_run_new now name key body _ _ _ Hr Hpend) _).
      by rewrite Hj, Hcount, Hbytes.
    + refine (eq_trans (perform_sleep_new now name key wake _ _ _ Hr Hpend) _).
      by rewrite Hj, Hcount, Hbytes, Z.add_0_r.
Qed.

(** ** Replay *)

Lemma lead_claimed_app l1 l2 :
  lead_claimed (l1 ++ l2) =
    if (lead_claimed l1 <? length l1)%nat then lead_claimed l1
    else (length l1 + lead_claimed l2)%nat.
Proof.
  induction l1 as [|[] l1 IH]; simpl; [done| |done]. rewrite IH.
  destruct (Nat.ltb_spec (lead_claimed l1) (length l1)),
    (Nat.ltb_spec (S (lead_claimed l1)) (S (length l1))); lia.
Qed.

Lemma lead_claimed_split n t :
  lead_claimed (replicate n true ++ replicate t false) = n.
Proof. induction n as [|n IH]; simpl; [by destruct t|by rewrite IH]. Qed.

Lemma accepted_tidy s r k : tidy s -> tidy (accepted s r k).
Proof.
  intros Ht. destruct (accepted_fields s r k) as (_ & Hrec & Hcl & Hby & Hiss & Hp & _).
  split; rewrite ?Hrec, ?Hcl, ?Hby, ?Hiss, ?Hp; try apply Ht.
  - intros i. apply accepted_cursor, Ht.
  - intros i row Hrow Hi. apply elem_of_union_r. by eapply tidy_issued.
Qed.

Lemma claim_tidy s i row :
  tidy s -> sq_recorded s !! i = Some row -> st_step_key row ∈ sq_issued_keys s ->
  tidy (claim i s).
Proof.
  intros Ht Hrow Hk. split; simpl; try apply Ht.
  - rewrite length_insert. apply Ht.
  - intros j Hj. destruct (decide (i = j)) as [<-|Hne].
    + rewrite list_lookup_insert_eq; [done|]. rewrite (tidy_claimed s Ht).
      by eapply lookup_lt_Some.
    + rewrite list_lookup_insert_ne by done. by apply (tidy_cursor s Ht).
  - intros j row' Hrow' Hj. destruct (decide (i = j)) as [<-|Hne]; [by simplify_eq|].
    rewrite list_lookup_insert_ne in Hj by done. by eapply (tidy_issued s Ht).
Qed.

Lemma stored_tidy s c b : tidy s -> tidy (sq_with_stored c b s).
Proof. intros []. by split. Qed.

Lemma answer_tidy now s r v rows s' : tidy s -> answer now s r = Some (v, rows, s') -> tidy s'.
Proof.
  intros Ht. unfold answer. destruct (request_key s r) as [k|]; [|done].
  case_bool_decide as Hk; [done|]. destruct (locate s r k) as [i|] eqn:Hl.
  - destruct (tidy_row s r k i Ht Hl) as (row & Hrow & Htot & Hkey & _). rewrite Htot.
    case_bool_decide; [|done]. destruct (row_value row); [|done]. intros [= <- <- <-].
    destruct (accepted_fields s r k) as (_ & Hrec & _ & _ & Hiss & _).
    eapply claim_tidy; [by apply accepted_tidy|by rewrite Hrec|].
    rewrite Hiss, Hkey. set_solver.
  - destruct (_ && _); [|done]. destruct (row_value _); [|done]. intros [= <- <- <-].
    by apply stored_tidy, accepted_tidy.
Qed.

Lemma answer_job now s r v rows s' :
  answer now s r = Some (v, rows, s') -> sq_job_id s' = sq_job_id s.
Proof.
  unfold answer. destruct (request_key s r) as [k|]; [|done]. case_bool_decide; [done|].
  destruct (accepted_fields s r k) as [Hj _]. destruct (locate s r k).
  - case_bool_decide; [|done]. destruct (row_value _); [|done]. by intros [= <- <- <-].
  - destruct (_ && _); [|done]. destruct (row_value _); [|done]. by intros [= <- <- <-].
Qed.

(** [s1] has walked over [base] and committed [new]; [s2] has the same requests behind it
    over a record that holds [new] already, and [todo] after it. *)
Record sim (base new todo : list JobStep) (s1 s2 : StepSequence) : Prop := {
  sim_tidy1 : tidy s1;
  sim_tidy2 : tidy s2;
  sim_job : sq_job_id s2 = sq_job_id s1;
  sim_rec1 : sq_recorded s1 = base;
  sim_rec2 : sq_recorded s2 = base ++ new ++ todo;
  sim_claimed : sq_claimed s2
    = sq_claimed s1 ++ replicate (length new) true ++ replicate (length todo) false;
  sim_keys : sq_issued_keys s2 = sq_issued_keys s1;
  sim_occ : sq_occurrences s2 = sq_occurrences s1;
  sim_new : forall row, row ∈ new -> st_step_key row ∈ sq_issued_keys s1;
  sim_count : sq_stored_count s2 = sq_stored_count s1 + Z.of_nat (length todo);
  sim_bytes : sq_stored_bytes s2
    = sq_stored_bytes s1 + foldr Z.add 0 (result_len <$> todo)
}.

Section simulation.
Context (base new todo : list JobStep) (s1 s2 : StepSequence) (Hs : sim base new todo s1 s2).

Lemma sim_lead :
  lead_claimed (sq_claimed s2) =
    if (lead_claimed (sq_claimed s1) <? length base)%nat then lead_claimed (sq_claimed s1)
    else (length base + length new)%nat.
Proof.
  rewrite (sim_claimed _ _ _ _ _ Hs), lead_claimed_app, lead_claimed_split.
  by rewrite (tidy_claimed _ (sim_tidy1 _ _ _ _ _ Hs)), (sim_rec1 _ _ _ _ _ Hs).
Qed.

Lemma sim_row i row : base !! i = Some row -> sq_recorded s2 !! i = Some row.
Proof. intros Hi. rewrite (sim_rec2 _ _ _ _ _ Hs). by apply lookup_app_l_Some. Qed.

Lemma sim_locate_Some r k i : locate s1 r k = Some i -> locate s2 r k = Some i.
Proof.
  intros Hl. pose proof (sim_tidy1 _ _ _ _ _ Hs) as Ht1. pose proof (sim_tidy2 _ _ _ _ _ Hs) as Ht2.
  destruct (locate_Some s1 r k i Ht1 Hl) as (row & Hrow & Hk).
  rewrite (sim_rec1 _ _ _ _ _ Hs) in Hrow. unfold locate in *. destruct (keyed r).
  - rewrite (tidy_index s2 Ht2), by_key_spec by apply (tidy_keys s2 Ht2).
    exists row. split; [by apply sim_row|done].
  - rewrite (sim_rec1 _ _ _ _ _ Hs) in Hl.
    destruct (base !! lead_claimed (sq_claimed s1)) as [row'|] eqn:Hb; [|done].
    case_bool_decide; [|done]. injection Hl as Hl. rewrite Hl in Hb.
    rewrite sim_lead, Hl. apply lookup_lt_Some in Hb as Hlt.
    destruct (Nat.ltb_spec i (length base)); [|lia]. rewrite (sim_row i row' Hb).
    by rewrite bool_decide_eq_true_2.
Qed.

Lemma sim_next_row row rest :
  todo = row :: rest -> sq_recorded s2 !! (length base + length new)%nat = Some row.
Proof.
  intros Htodo. rewrite (sim_rec2 _ _ _ _ _ Hs), Htodo, app_assoc, lookup_app_r;
    rewrite length_app; [|lia]. by rewrite Nat.sub_diag.
Qed.

(** A step that is new to [s1] is new to [s2], or is the next of [todo]. *)
Lemma sim_locate_None r k :
  k ∉ sq_issued_keys s1 -> locate s1 r k = None ->
  (keyed r || (length (sq_recorded s1) <=? lead_claimed (sq_claimed s1))%nat) = true ->
  match todo with
  | [] => locate s2 r k = None
      /\ (keyed r || (length (sq_recorded s2) <=? lead_claimed (sq_claimed s2))%nat) = true
  | row :: _ => st_step_key row = k -> locate s2 r k = Some (length base + length new)%nat
  end.
Proof.
  intros Hk Hl Hb. pose proof (sim_tidy1 _ _ _ _ _ Hs) as Ht1.
  pose proof (sim_tidy2 _ _ _ _ _ Hs) as Ht2. unfold locate in *.
  pose proof sim_next_row as Hnext. destruct (keyed r); simpl in *.
  - rewrite (tidy_index s1 Ht1), by_key_None in Hl by apply (tidy_keys s1 Ht1).
    rewrite (sim_rec1 _ _ _ _ _ Hs) in Hl. destruct todo as [|row rest] eqn:Htodo.
    + split; [|done]. rewrite (tidy_index s2 Ht2), by_key_None by apply (tidy_keys s2 Ht2).
      rewrite (sim_rec2 _ _ _ _ _ Hs), !fmap_app, !not_elem_of_app. split_and!; [done| |].
      * intros (row & -> & Hin)%list_elem_of_fmap. by apply Hk, (sim_new _ _ _ _ _ Hs).
      * apply not_elem_of_nil.
    + intros Hkey. rewrite (tidy_index s2 Ht2), by_key_spec by apply (tidy_keys s2 Ht2).
      exists row. by split; [eapply Hnext|].
  - apply Nat.leb_le in Hb. rewrite (sim_rec1 _ _ _ _ _ Hs) in Hb. rewrite sim_lead.
    destruct (Nat.ltb_spec (lead_claimed (sq_claimed s1)) (length base)); [lia|].
    destruct todo as [|row rest] eqn:Htodo.
    + rewrite (sim_rec2 _ _ _ _ _ Hs), app_nil_r, lookup_ge_None_2; rewrite length_app; [|lia].
      split; [done|]. by apply Nat.leb_le.
    + intros Hkey. rewrite (Hnext row rest eq_refl). by rewrite bool_decide_eq_true_2.
Qed.

(** A step that diverges in [s1] diverges in [s2]. *)
Lemma sim_diverges r k :
  locate s1 r k = None ->
  (keyed r || (length (sq_recorded s1) <=? lead_claimed (sq_claimed s1))%nat) = false ->
  locate s2 r k = None
  /\ (keyed r || (length (sq_recorded s2) <=? lead_claimed (sq_claimed s2))%nat) = false.
Proof.
  unfold locate. destruct (keyed r); [done|]. simpl. intros Hl Hb. apply Nat.leb_gt in Hb.
  rewrite (sim_rec1 _ _ _ _ _ Hs) in Hl, Hb. rewrite sim_lead.
  destruct (Nat.ltb_spec (lead_claimed (sq_claimed s1)) (length base)); [|lia].
  destruct (base !! lead_claimed (sq_claimed s1)) as [row|] eqn:Hrow.
  - rewrite (sim_row _ _ Hrow). split; [done|]. apply Nat.leb_gt.
    rewrite (sim_rec2 _ _ _ _ _ Hs), length_app. lia.
  - apply lookup_ge_None in Hrow. lia.
Qed.
End simulation.

Lemma sim_next base new row todo s1 s2 :
  sim base new (row :: todo) s1 s2 ->
  sq_recorded s2 !! (length base + length new)%nat = Some row.
Proof. intros Hs. by eapply sim_next_row. Qed.

Lemma sim_request_key base new todo s1 s2 r :
  sim base new todo s1 s2 -> request_key s2 r = request_key s1 r.
Proof. intros Hs. unfold request_key. by rewrite (sim_occ _ _ _ _ _ Hs). Qed.

(** Accepting the same request on both sides. *)
Lemma sim_accepted base new todo s1 s2 r k :
  sim base new todo s1 s2 -> sim base new todo (accepted s1 r k) (accepted s2 r k).
Proof.
  intros Hs. destruct (accepted_fields s1 r k) as (Hj1 & Hr1 & Hc1 & _ & Hi1 & _ & Hn1 & Hb1).
  destruct (accepted_fields s2 r k) as (Hj2 & Hr2 & Hc2 & _ & Hi2 & _ & Hn2 & Hb2).
  split; rewrite ?Hj1, ?Hr1, ?Hc1, ?Hi1, ?Hn1, ?Hb1, ?Hj2, ?Hr2, ?Hc2, ?Hi2, ?Hn2, ?Hb2;
    try apply Hs; try (apply accepted_tidy; apply Hs).
  - by rewrite (sim_keys _ _ _ _ _ Hs).
  - unfold accepted. rewrite (sim_occ _ _ _ _ _ Hs).
    destruct (keyed r); simpl; [apply Hs|done].
  - intros row Hin. apply elem_of_union_r. by apply (sim_new _ _ _ _ _ Hs).
Qed.

Lemma sim_claim base new todo s1 s2 i row :
  sim base new todo s1 s2 -> base !! i = Some row -> st_step_key row ∈ sq_issued_keys s1 ->
  sim base new todo (claim i s1) (claim i s2).
Proof.
  intros Hs Hi Hk. split; simpl; try apply Hs.
  - eapply claim_tidy; [apply Hs|by rewrite (sim_rec1 _ _ _ _ _ Hs)|done].
  - eapply claim_tidy; [apply Hs|by eapply sim_row|by rewrite (sim_keys _ _ _ _ _ Hs)].
  - rewrite (sim_claimed _ _ _ _ _ Hs), insert_app_l; [done|].
    rewrite (tidy_claimed _ (sim_tidy1 _ _ _ _ _ Hs)), (sim_rec1 _ _ _ _ _ Hs).
    by eapply lookup_lt_Some.
Qed.

Lemma sim_lookup_total base new todo s1 s2 i row :
  sim base new todo s1 s2 -> base !! i = Some row ->
  sq_recorded s1 !!! i = row /\ sq_recorded s2 !!! i = row.
Proof.
  intros Hs Hi. split; apply list_lookup_total_correct;
    [by rewrite (sim_rec1 _ _ _ _ _ Hs)|by eapply sim_row].
Qed.

(** A row [s1] commits is one [s2] has next. *)
Lemma sim_stored base new row todo s1 s2 :
  sim base new (row :: todo) s1 s2 -> st_step_key row ∈ sq_issued_keys s1 ->
  sim base (new ++ [row]) todo
    (sq_with_stored (sq_stored_count s1 + 1) (sq_stored_bytes s1 + result_len row) s1)
    (claim (length base + length new) s2).
Proof.
  intros Hs Hk. assert (Hlen : length (sq_claimed s1) = length base)
    by by rewrite (tidy_claimed _ (sim_tidy1 _ _ _ _ _ Hs)), (sim_rec1 _ _ _ _ _ Hs).
  split; simpl; try apply Hs.
  - by apply stored_tidy, Hs.
  - eapply claim_tidy; [apply Hs|by eapply sim_next|by rewrite (sim_keys _ _ _ _ _ Hs)].
  - rewrite (sim_rec2 _ _ _ _ _ Hs). by rewrite <- app_assoc.
  - rewrite (sim_claimed _ _ _ _ _ Hs), app_assoc, insert_app_r_alt;
      rewrite length_app, length_replicate, Hlen; [|done]. rewrite Nat.sub_diag. simpl.
    by rewrite length_app, replicate_add, <- !app_assoc.
  - intros row' [Hin|Hin%list_elem_of_singleton]%elem_of_app; [|by rewrite Hin].
    by apply (sim_new _ _ _ _ _ Hs).
  - rewrite (sim_count _ _ _ _ _ Hs). simpl. lia.
  - rewrite (sim_bytes _ _ _ _ _ Hs), fmap_cons. cbn [foldr]. lia.
Qed.

Lemma sim_with_stored base new s1 s2 c b :
  sim base new [] s1 s2 -> sim base new [] (sq_with_stored c b s1) (sq_with_stored c b s2).
Proof.
  intros Hs. split; simpl; try apply Hs; try (apply stored_tidy, Hs); lia.
Qed.

Lemma same_question_fields r r' :
  same_question r r' ->
  req_kind r' = req_kind r
  /\ forall s, request_key s r' = request_key s r
  /\ forall k, locate s r' k = locate s r k /\ accepted s r' k = accepted s r k.
Proof. destruct r, r'; try done; by intros [-> ->]. Qed.

(** One request, already answered in [s1], is answered from the record in [s2]. *)
Lemma replay_step base new rows todo s1 s2 now now' q q' v s1' :
  sim base new (rows ++ todo) s1 s2 -> same_question q q' ->
  answer now s1 q = Some (v, rows, s1') ->
  exists s2', answer now' s2 q' = Some (v, [], s2') /\ sim base (new ++ rows) todo s1' s2'.
Proof.
  intros Hs (Hkind & Hsame)%same_question_fields. destruct (Hsame s2) as [Hkey Hlands].
  unfold answer. rewrite Hkey, Hkind, (sim_request_key _ _ _ _ _ _ Hs).
  destruct (request_key s1 q) as [k|]; [|done]. destruct (Hlands k) as [-> ->].
  rewrite (sim_keys _ _ _ _ _ Hs).
  case_bool_decide as Hk; [done|]. apply (sim_accepted _ _ _ _ _ q k) in Hs as Hsa.
  destruct (accepted_fields s1 q k) as (_ & _ & _ & _ & Hi1 & _ & Hn1 & Hb1).
  destruct (locate s1 q k) as [i|] eqn:Hl.
  - rewrite (sim_locate_Some _ _ _ _ _ Hs _ _ _ Hl).
    destruct (tidy_row s1 q k i (sim_tidy1 _ _ _ _ _ Hs) Hl) as (row & Hrow & _ & Hrk & _).
    rewrite (sim_rec1 _ _ _ _ _ Hs) in Hrow.
    destruct (sim_lookup_total _ _ _ _ _ i row Hs Hrow) as [-> ->].
    case_bool_decide; [|done]. destruct (row_value row) as [v'|]; [|done].
    intros [= <- <- <-]. eexists. split; [done|]. rewrite app_nil_r.
    eapply sim_claim; [exact Hsa|done|]. rewrite Hi1, Hrk. set_solver.
  - destruct (keyed q || _) eqn:Hb; [|done]. simpl. destruct (Z.leb _ _); [|done].
    destruct (row_value (new_row now s1 q k)) as [v'|] eqn:Hv; [|done].
    intros [= <- <- <-]. set (row := new_row now s1 q k) in *.
    assert (Hrow : st_step_key row = k /\ st_kind row = req_kind q) by by destruct q.
    destruct Hrow as [Hrk Hrkind].
    rewrite (sim_locate_None _ _ _ _ _ Hs q k Hk Hl Hb Hrk).
    rewrite (list_lookup_total_correct _ _ _ (sim_next _ _ _ _ _ _ Hs)), Hrkind,
      bool_decide_eq_true_2 by done.
    rewrite Hv. eexists. split; [done|]. rewrite <- Hn1, <- Hb1. apply sim_stored; [done|].
    rewrite Hi1, Hrk. set_solver.
Qed.

(** Past the end of the record the two sides answer alike. *)
Lemma resume_step base new s1 s2 now q :
  sim base new [] s1 s2 ->
  match answer now s1 q with
  | Some (v, rows, s1') =>
      exists s2', answer now s2 q = Some (v, rows, s2') /\ sim base new [] s1' s2'
  | None => answer now s2 q = None
  end.
Proof.
  intros Hs. destruct (answer now s1 q) as [[[v rows] s1']|] eqn:Ha.
  - destruct rows as [|row rows].
    { destruct (replay_step base new [] [] s1 s2 now now q q v s1' Hs) as (s2' & ? & Hs');
        [by destruct q|done|]. rewrite app_nil_r in Hs'. by exists s2'. }
    revert Ha. unfold answer. rewrite (sim_request_key _ _ _ _ _ _ Hs).
    destruct (request_key s1 q) as [k|]; [|done]. rewrite (sim_keys _ _ _ _ _ Hs).
    case_bool_decide as Hk; [done|]. apply (sim_accepted _ _ _ _ _ q k) in Hs as Hsa.
    assert (Hrow : new_row now s2 q k = new_row now s1 q k).
    { destruct q; simpl; by rewrite (sim_job _ _ _ _ _ Hs), (sim_count _ _ _ _ _ Hs), Z.add_0_r. }
    destruct (locate s1 q k) as [i|] eqn:Hl.
    { case_bool_decide; [|done]. by destruct (row_value _). }
    destruct (keyed q || _) eqn:Hb; [|done].
    destruct (sim_locate_None _ _ _ _ _ Hs q k Hk Hl Hb) as [-> ->]. cbn [andb].
    rewrite (sim_count _ _ _ _ _ Hs), (sim_bytes _ _ _ _ _ Hs), Hrow. cbn [length fmap list_fmap foldr].
    rewrite !Z.add_0_r. destruct (Z.leb _ _); [|done]. destruct (row_value _); [|done].
    simpl. intros [= <- <- <- <-]. eexists. split; [done|]. by apply sim_with_stored.
  - revert Ha. unfold answer. rewrite (sim_request_key _ _ _ _ _ _ Hs).
    destruct (request_key s1 q) as [k|]; [|done]. rewrite (sim_keys _ _ _ _ _ Hs).
    case_bool_decide as Hk; [done|]. destruct (locate s1 q k) as [i|] eqn:Hl.
    + rewrite (sim_locate_Some _ _ _ _ _ Hs _ _ _ Hl).
      destruct (tidy_row s1 q k i (sim_tidy1 _ _ _ _ _ Hs) Hl) as (row & Hrow & _).
      rewrite (sim_rec1 _ _ _ _ _ Hs) in Hrow.
      destruct (sim_lookup_total _ _ _ _ _ i row Hs Hrow) as [-> ->].
      case_bool_decide; [|done]. by destruct (row_value row).
    + destruct (keyed q || _) eqn:Hb.
      * destruct (sim_locate_None _ _ _ _ _ Hs q k Hk Hl Hb) as [-> ->]. cbn [andb].
        rewrite (sim_count _ _ _ _ _ Hs), Z.add_0_r. destruct (Z.leb _ _); [|done].
        destruct q; by cbn.
      * by destruct (sim_diverges _ _ _ _ _ Hs q k Hl Hb) as [-> ->].
Qed.

(** A job's rows as storage holds them: numbered from zero without a hole, one row per
    key. *)
Record sound_record (l : list JobStep) : Prop := {
  sound_len : Z.of_nat (length l) <= i32_max + 1;
  sound_seq : forall i row, l !! i = Some row -> st_seq row = Z.of_nat i;
  sound_keys : NoDup (st_step_key <$> l)
}.

Lemma find_hole_None l n :
  Z.of_nat (n + length l) <= i32_max + 1 ->
  (forall i row, l !! i = Some row -> st_seq row = Z.of_nat (n + i)) -> find_hole n l = None.
Proof.
  revert n. induction l as [|row l IH]; intros n Hlen Hseq; [done|]. cbn [find_hole length] in *.
  rewrite (Hseq 0%nat row eq_refl), Nat.add_0_r, as_i32_id by (unfold i32_min in *; lia).
  rewrite Z.eqb_refl. apply IH; [lia|]. intros i row' Hi. rewrite (Hseq (S i) row' Hi).
  f_equal. lia.
Qed.

Lemma find_hole_seq l n i row :
  find_hole n l = None -> l !! i = Some row -> st_seq row = as_i32 (Z.of_nat (n + i)).
Proof.
  revert n i. induction l as [|row' l IH]; intros n i; [done|]. cbn [find_hole].
  destruct (Z.eqb_spec (st_seq row') (as_i32 (Z.of_nat n))) as [Heq|]; [|done].
  intros Hl. destruct i as [|i]; [intros [= <-]; by rewrite Nat.add_0_r|].
  intros Hi. rewrite (IH _ _ Hl Hi). do 2 f_equal. lia.
Qed.

(** Positions are compared at 32 bits, so a record that passes is within them. *)
Lemma find_hole_bound l :
  find_hole 0 l = None -> (forall i row, l !! i = Some row -> st_seq row = Z.of_nat i) ->
  Z.of_nat (length l) <= i32_max + 1.
Proof.
  intros Hl Hseq. destruct (Z.le_gt_cases (Z.of_nat (length l)) (i32_max + 1)) as [|Hgt]; [done|].
  destruct (Z_of_nat_complete (i32_max + 1)) as [n Hn]; [unfold i32_max; lia|].
  destruct (lookup_lt_is_Some_2 l n ltac:(lia)) as [row Hrow].
  pose proof (find_hole_seq l 0 n row Hl Hrow) as H1. rewrite (Hseq n row Hrow) in H1.
  rewrite Nat.add_0_l, <- Hn in H1. discriminate H1.
Qed.

Lemma new_sequence_sound job_id l :
  sound_record l -> new_sequence job_id l = Ok (fresh_sequence job_id l).
Proof.
  intros Hl. unfold new_sequence. rewrite find_hole_None; [done|apply Hl|].
  intros i row Hi. by apply (sound_seq l Hl).
Qed.

Lemma fresh_tidy job_id l : sound_record l -> tidy (fresh_sequence job_id l).
Proof.
  intros Hl. split; simpl; try done; try apply Hl.
  - apply length_replicate.
  - intros i Hi. lia.
  - intros i row _ [? _]%lookup_replicate. done.
Qed.

Lemma fresh_sim job_id base rows :
  sound_record base -> sound_record (base ++ rows) ->
  sim base [] rows (fresh_sequence job_id base) (fresh_sequence job_id (base ++ rows)).
Proof.
  intros Hb Hr. split; simpl; try done; try by apply fresh_tidy.
  - by rewrite length_app, replicate_add.
  - intros row ?%not_elem_of_nil. done.
  - rewrite length_app. lia.
  - rewrite fmap_app, foldr_app. induction (result_len <$> base); simpl; lia.
Qed.

Lemma sound_snoc l row :
  sound_record l -> Z.of_nat (length l) <= i32_max -> st_seq row = Z.of_nat (length l) ->
  st_step_key row ∉ (st_step_key <$> l) -> sound_record (l ++ [row]).
Proof.
  intros Hl Hlen Hseq Hk. split.
  - rewrite length_app. simpl. lia.
  - intros i row' [Hi|[Hi [Hz Hrow]%list_lookup_singleton_Some]]%lookup_app_Some.
    + by apply (sound_seq l Hl).
    + rewrite <- Hrow, Hseq. lia.
  - rewrite fmap_app. apply NoDup_app. split_and!; [apply Hl| |apply NoDup_singleton].
    intros k Hin ->%list_elem_of_singleton. done.
Qed.

(** A key that is new ground is the key of no row. *)
Lemma new_key_fresh base rows s r k :
  tidy s -> sq_recorded s = base ->
  (forall row, row ∈ rows -> st_step_key row ∈ sq_issued_keys s) ->
  k ∉ sq_issued_keys s -> locate s r k = None ->
  (keyed r || (length (sq_recorded s) <=? lead_claimed (sq_claimed s))%nat) = true ->
  k ∉ (st_step_key <$> base ++ rows).
Proof.
  intros Ht <- Hrows Hk Hl Hb. rewrite fmap_app, not_elem_of_app. split.
  - unfold locate in Hl. destruct (keyed r); simpl in Hb.
    { rewrite (tidy_index s Ht) in Hl. by apply by_key_None in Hl; [|apply (tidy_keys s Ht)]. }
    intros (row & -> & [i Hi]%list_elem_of_lookup)%list_elem_of_fmap. apply Hk.
    apply (tidy_issued s Ht i row Hi), lead_claimed_true. apply Nat.leb_le in Hb.
    apply lookup_lt_Some in Hi. lia.
  - intros (row & -> & Hin)%list_elem_of_fmap. by apply Hk, Hrows.
Qed.

(** What an attempt has added to the record so far. *)
Record grown (base rows : list JobStep) (s : StepSequence) : Prop := {
  grown_tidy : tidy s;
  grown_base : sq_recorded s = base;
  grown_sound : sound_record (base ++ rows);
  grown_issued : forall row, row ∈ rows -> st_step_key row ∈ sq_issued_keys s;
  grown_count : sq_stored_count s = Z.of_nat (length (base ++ rows))
}.

Lemma answer_grown now base done s q v rows s' :
  grown base done s -> answer now s q = Some (v, rows, s') -> grown base (done ++ rows) s'.
Proof.
  intros Hg Ha. assert (Ht : tidy s') by (eapply answer_tidy; [apply Hg|done]). revert Ha.
  unfold answer. destruct (request_key s q) as [k|]; [|done]. case_bool_decide as Hk; [done|].
  destruct (accepted_fields s q k) as (_ & Hrec & _ & _ & Hiss & _ & Hcount & _).
  destruct (locate s q k) as [i|] eqn:Hl.
  - case_bool_decide; [|done]. destruct (row_value _); [|done]. intros [= <- <- <-].
    rewrite app_nil_r. split; simpl; rewrite ?Hrec, ?Hiss, ?Hcount; try apply Hg; try done.
    intros row Hin. apply elem_of_union_r. by apply (grown_issued _ _ _ Hg).
  - destruct (keyed q || _) eqn:Hb; [|done]. simpl. destruct (Z.leb_spec (sq_stored_count s) i32_max);
      [|done]. destruct (row_value _); [|done]. intros [= <- <- <-].
    rewrite (grown_count _ _ _ Hg) in *. set (row := new_row now s q k) in *.
    assert (Hrow : st_step_key row = k /\ st_seq row = Z.of_nat (length (base ++ done))).
    { unfold row. rewrite <- (grown_count _ _ _ Hg). by destruct q. }
    destruct Hrow as [Hkey Hseq].
    split; simpl; rewrite ?Hrec, ?Hiss, ?app_assoc; try apply Hg; try done.
    + apply sound_snoc; [apply Hg|lia|done|]. rewrite Hkey.
      eapply new_key_fresh; [apply Hg|apply Hg|apply Hg|done..].
    + intros row' [Hin|Hin%list_elem_of_singleton]%elem_of_app;
        [|rewrite Hin, Hkey; set_solver].
      apply elem_of_union_r. by apply (grown_issued _ _ _ Hg).
    + rewrite (length_app (base ++ done)). simpl. lia.
Qed.

Lemma perform_all_grown reqs base done s vs rows s' :
  grown base done s -> perform_all reqs s = (Ok (vs, rows), s') ->
  grown base (done ++ rows) s'.
Proof.
  revert done s vs rows. induction reqs as [|[now q] reqs IH]; intros done s vs rows Hg; simpl.
  { intros [= <- <- <-]. by rewrite app_nil_r. }
  pose proof (perform_answer now s q (grown_tidy _ _ _ Hg)) as Hp.
  destruct (answer now s q) as [[[v rows1] s1]|] eqn:Ha.
  - rewrite (bind_ok _ _ _ _ _ Hp). eapply answer_grown in Ha as Hg1; [|done].
    unfold mbind at 1, M_bind at 1. destruct (perform_all reqs s1) as [[[vs2 rows2]|] s2] eqn:Hr;
      [|done]. intros [= <- <- <-]. rewrite app_assoc. by eapply IH.
  - unfold mbind at 1, M_bind at 1. by destruct (perform now q s) as [[]].
Qed.

Lemma fresh_grown job_id l : sound_record l -> grown l [] (fresh_sequence job_id l).
Proof.
  intros Hl. split; rewrite ?app_nil_r; try done; [by apply fresh_tidy|].
  intros row ?%not_elem_of_nil. done.
Qed.

Definition same_questions : list (Z * Request) -> list (Z * Request) -> Prop :=
  Forall2 (fun q q' => same_question (snd q) (snd q')).

Lemma replay_all reqs reqs' base new todo s1 s2 vs rows s1' :
  same_questions reqs reqs' -> sim base new (rows ++ todo) s1 s2 ->
  perform_all reqs s1 = (Ok (vs, rows), s1') ->
  exists s2', perform_all reqs' s2 = (Ok (vs, []), s2') /\ sim base (new ++ rows) todo s1' s2'.
Proof.
  intros Hq. revert new s1 s2 vs rows. induction Hq as [|[now q] [now' q'] reqs reqs' Hqq Hq IH];
    intros new s1 s2 vs rows Hs; simpl in *.
  { intros [= <- <- <-]. exists s2. by rewrite app_nil_r. }
  pose proof (perform_answer now s1 q (sim_tidy1 _ _ _ _ _ Hs)) as Hp.
  destruct (answer now s1 q) as [[[v rows1] s1a]|] eqn:Ha.
  - rewrite (bind_ok _ _ _ _ _ Hp). unfold mbind at 1, M_bind at 1.
    destruct (perform_all reqs s1a) as [[[vs2 rows2]|] s1b] eqn:Hr; [|done].
    intros [= <- <- <-]. rewrite <- app_assoc in Hs.
    destruct (replay_step _ _ _ _ _ _ _ now' _ _ _ _ Hs Hqq Ha) as (s2a & Ha2 & Hsa).
    destruct (IH _ _ _ _ _ Hsa Hr) as (s2b & Hb2 & Hsb). exists s2b.
    rewrite app_assoc. split; [|done].
    pose proof (perform_answer now' s2 q' (sim_tidy2 _ _ _ _ _ Hs)) as Hp2. rewrite Ha2 in Hp2.
    by rewrite (bind_ok _ _ _ _ _ Hp2), (bind_ok _ _ _ _ _ Hb2).
  - unfold mbind at 1, M_bind at 1. by destruct (perform now q s1) as [[]].
Qed.

(** Two results that are the same value, or both refusals. *)
Definition agree {A} (r1 r2 : Result QueueError A) : Prop :=
  match r1, r2 with Ok a, Ok b => a = b | Err _, Err _ => True | _, _ => False end.

Lemma resume_all reqs base new s1 s2 :
  sim base new [] s1 s2 -> agree (fst (perform_all reqs s1)) (fst (perform_all reqs s2)).
Proof.
  revert s1 s2. induction reqs as [|[now q] reqs IH]; intros s1 s2 Hs; [done|]. cbn [perform_all].
  pose proof (perform_answer now s1 q (sim_tidy1 _ _ _ _ _ Hs)) as Hp1.
  pose proof (perform_answer now s2 q (sim_tidy2 _ _ _ _ _ Hs)) as Hp2.
  pose proof (resume_step _ _ _ _ now q Hs) as Hstep.
  destruct (answer now s1 q) as [[[v rows] s1']|].
  - destruct Hstep as (s2' & Ha2 & Hs'). rewrite Ha2 in Hp2.
    rewrite (bind_ok _ _ _ _ _ Hp1), (bind_ok _ _ _ _ _ Hp2). specialize (IH s1' s2' Hs').
    unfold mbind, M_bind.
    destruct (perform_all reqs s1') as [[[vs1 rows1]|] ?],
      (perform_all reqs s2') as [[[vs2 rows2]|] ?]; simpl in *; try done.
    by injection IH as -> ->.
  - rewrite Hstep in Hp2. unfold mbind, M_bind.
    by destruct (perform now q s1) as [[] ?], (perform now q s2) as [[] ?].
Qed.

(** C14: an attempt that is interrupted and started again is indistinguishable from one that
    was not.  If an attempt over a job's rows answered [reqs] with [vs] and committed
    [rows], the next attempt opens on the rows it left, answers the same questions with
    the same values without committing anything, whatever the closures would now return
    or the deadlines would now be, and from there on answers any further requests exactly
    as the first attempt would have. *)
Theorem replay_is_transparent job_id recorded reqs vs rows s1 :
  sound_record recorded ->
  perform_all reqs (fresh_sequence job_id recorded) = (Ok (vs, rows), s1) ->
  sound_record (recorded ++ rows)
  /\ forall reqs', same_questions reqs reqs' ->
     exists start s2, new_sequence job_id (recorded ++ rows) = Ok start
       /\ perform_all reqs' start = (Ok (vs, []), s2)
       /\ forall more, agree (fst (perform_all more s1)) (fst (perform_all more s2)).
Proof.
  intros Hrec Hrun. assert (Hsound : sound_record (recorded ++ rows)).
  { apply (grown_sound recorded rows s1). eapply (perform_all_grown reqs recorded []); [|done].
    by apply fresh_grown. }
  split; [done|]. intros reqs' Hq. exists (fresh_sequence job_id (recorded ++ rows)).
  pose proof (fresh_sim job_id recorded rows Hrec Hsound) as Hs.
  rewrite <- (app_nil_r rows) in Hs at 1.
  destruct (replay_all reqs reqs' _ _ _ _ _ vs rows s1 Hq Hs Hrun) as (s2 & H2 & Hs2).
  exists s2. split_and!; [by apply new_sequence_sound|done|].
  intros more. by eapply resume_all.
Qed.

(** A first attempt that replays a charge, makes a keyed call and a nap, and a second one
    whose closures would return something else. *)
Definition charged : JobStep := mkJobStep "j1" 0 "charge#0" Run (Some [x01; x02]) None 5.
Definition first_asks : list (Z * Request) :=
  [(10, RunReq "mail" (Some "a"%string) [x03]); (11, RunReq "charge" None [x09]);
   (12, SleepReq None None 70)].
Definition second_asks : list (Z * Request) :=
  [(20, RunReq "mail" (Some "a"%string) [x04; x04]); (21, RunReq "charge" None []);
   (22, SleepReq None None 900)].

Lemma charged_sound : sound_record [charged].
Proof.
  split; [done| |apply NoDup_singleton].
  intros i row [-> <-]%list_lookup_singleton_Some. done.
Qed.

Lemma replay_is_transparent_witness :
  exists rows s1 start s2,
    perform_all first_asks (fresh_sequence "j1" [charged])
      = (Ok ([Bytes [x03]; Bytes [x01; x02]; Woke 70], rows), s1)
    /\ length rows = 2%nat
    /\ new_sequence "j1" (charged :: rows) = Ok start
    /\ perform_all second_asks start = (Ok ([Bytes [x03]; Bytes [x01; x02]; Woke 70], []), s2).
Proof.
  destruct (perform_all first_asks (fresh_sequence "j1" [charged])) as [[[vs rows]|e] s1] eqn:Hr;
    [|vm_compute in Hr; done].
  assert (Hv : vs = [Bytes [x03]; Bytes [x01; x02]; Woke 70] /\ length rows = 2%nat)
    by (vm_compute in Hr; by injection Hr as <- <- _).
  destruct Hv as [-> Hlen].
  destruct (replay_is_transparent "j1" [charged] first_asks _ rows s1 charged_sound Hr)
    as [_ Hnext].
  destruct (Hnext second_asks) as (start & s2 & Hnew & Hrun & _).
  { repeat constructor. }
  exists rows, s1, start, s2. by split_and!.
Defined.
