(* ===== verification/DeadLetter.v ===== *)
(** * The dead-letter queue ([diesel_common/dead_letter.rs], [step/idempotency.rs])

    Moving a job that will not run again to the [dead_letter] table, listing, purging
    and trimming that table, and the operator's retry, which enqueues a new job.  A
    retried job has a new id, so the id its run began under travels in its metadata;
    the keys its steps hand to other services are derived from that id. *)
From S2P Require Import Prelude Job Db Store Enqueue Dequeue Transitions Cascade Listing Purge.

Definition ORIGIN_JOB_ID_KEY : string := "__origin_job_id".
Definition DLQ_RETRY_COUNT_KEY : string := "__dlq_retry_count".

Record DeadJob := mkDeadJob {
  dj_id : string;
  dj_original_job_id : string;
  dj_queue : string;
  dj_task_name : string;
  dj_payload : bytes;
  dj_error : option string;
  dj_retry_count : Z;
  dj_failed_at : Z;
  dj_metadata : option string;
  dj_notes : option string;
  dj_priority : Z;
  dj_max_retries : Z;
  dj_timeout_ms : Z;
  dj_result_ttl_ms : option Z;
  dj_namespace : option string;
  dj_dlq_retry_count : Z;
  dj_origin_job_id : option string
}.

(** [From<DeadLetterRow> for DeadJob], with the payload as an argument: the listings
    project it away. *)
Definition dead_job_with (payload : bytes) (row : DeadLetterRow) : DeadJob :=
  mkDeadJob (dl_id row) (dl_original_job_id row) (dl_queue row) (dl_task_name row) payload
    (dl_error row) (dl_retry_count row) (dl_failed_at row) (dl_metadata row) (dl_notes row)
    (dl_priority row) (dl_max_retries row) (dl_timeout_ms row) (dl_result_ttl_ms row)
    (dl_namespace row) (dl_dlq_retry_count row) (dl_origin_job_id row).

Definition dead_of_row (row : DeadLetterRow) : DeadJob := dead_job_with (dl_payload row) row.

(** [DeadJob::from_narrow] of the row's narrow projection. *)
Definition dead_from_narrow (row : DeadLetterRow) : DeadJob := dead_job_with [] row.

(** [Value::as_i64] *)
Definition json_as_i64 (v : JsonValue) : option Z :=
  match v with
  | JInt n => if (i64_min <=? n) && (n <=? i64_max) then Some n else None
  | _ => None
  end.

(** [Value::as_str] followed by the test for a blank string. *)
Definition json_nonblank (v : JsonValue) : option string :=
  match v with
  | JString s => if bool_decide (s = ""%string) then None else Some s
  | _ => None
  end.

Definition nonblank (s : string) : option string :=
  if bool_decide (s = ""%string) then None else Some s.

Section idempotency.
Context {E : Env}.

Definition origin_job_id (metadata : option string) : option string :=
  raw ← metadata;
  obj ← json_object raw;
  v ← obj !! ORIGIN_JOB_ID_KEY;
  json_nonblank v.

Definition run_key (job : Job) : string :=
  default (j_id job) (origin_job_id (j_metadata job)).

Definition idempotency_key (run_key step_key : string) : string :=
  (run_key ++ ":" ++ step_key)%string.

Definition stamp_origin_job_id (metadata : gmap string JsonValue)
    (origin_column : option string) (original_job_id : string) : gmap string JsonValue :=
  let carried := v ← metadata !! ORIGIN_JOB_ID_KEY; json_nonblank v in
  let origin :=
    match (o ← origin_column; nonblank o), carried with
    | Some o, _ => o
    | None, Some c => c
    | None, None => original_job_id
    end in
  <[ORIGIN_JOB_ID_KEY := JString origin]> metadata.

End idempotency.

Section dead_letter_ops.
Context {E : Env} {G : Engine}.

Definition dlq_retry_count_of (metadata : option string) : Z :=
  as_i32 (default 0 (
    raw ← metadata;
    obj ← json_object raw;
    v ← obj !! DLQ_RETRY_COUNT_KEY;
    json_as_i64 v)).

(** The row [dead_letter_in] writes. *)
Definition new_dead_letter_row (dlq_id : string) (job : Job) (error : string)
    (metadata : option string) (shed : bool) (now : Z) : DeadLetterRow :=
  let a := attribution_of job in
  mkDeadLetterRow dlq_id (j_id job) (j_queue job) (j_task_name job) (j_payload job)
    (Some error) (j_retry_count job) now
    (match metadata with Some m => Some m | None => j_metadata job end)
    (j_notes job) (j_priority job) (j_max_retries job) (j_timeout_ms job)
    (j_result_ttl_ms job) (j_namespace job) (dlq_retry_count_of (j_metadata job))
    (ja_topic a) (ja_subscription_name a) shed (Some (run_key job))
    (match metadata with Some _ => j_metadata job | None => None end)
    (j_enqueued_by job).

Definition dead_row (now : Z) (error : string) (row : JobRow) : JobRow :=
  jr_with_completed_at (Some now)
    (jr_with_error (Some error) (jr_with_status (as_int Dead) row)).

Definition dead_letter_in (job : Job) (error : string) (metadata : option string)
    (shed : bool) (now : Z) : DbM unit :=
  dlq_id ← now_v7;
  sql_insert dead_letter dlq_id (new_dead_letter_row dlq_id job error metadata shed now) ;;
  row ← sql_find jobs (j_id job);
  match row with
  | Some row => archive_job_row (dead_row now error row)
  | None => mret tt
  end.

(** [dead_letter], the body shared by the four entry points. *)
Definition dead_letter_reporting (job : Job) (error : string) (metadata : option string)
    (shed : bool) : DbM (list Job) :=
  now ← now_millis;
  write_transaction (dead_letter_in job error metadata shed now) ;;
  cascade_cancel_reporting (j_id job) DEPENDENCY_FAILED (j_namespace job).

Definition move_to_dlq (job : Job) (error : string) (metadata : option string) : DbM unit :=
  dead_letter_reporting job error metadata false ;; mret tt.

Definition move_to_dlq_reporting (job : Job) (error : string) (metadata : option string)
    : DbM (list Job) := dead_letter_reporting job error metadata false.

Definition shed_to_dlq (job : Job) (error : string) (metadata : option string) : DbM unit :=
  dead_letter_reporting job error metadata true ;; mret tt.

Definition shed_to_dlq_reporting (job : Job) (error : string) (metadata : option string)
    : DbM (list Job) := dead_letter_reporting job error metadata true.

Definition shed_reasons (jobs : list Job) : DbM (list string) :=
  mapM (fun job =>
    match j_error job with
    | Some e => mret e
    | None => throw (Other ("shed job " ++ j_id job ++ " carries no dead-letter reason"))
    end) jobs.

(** The job as it is inserted: it never held its keys. *)
Definition unkeyed (job : Job) : Job :=
  {| j_id := j_id job; j_queue := j_queue job; j_task_name := j_task_name job; j_payload :=
     j_payload job; j_status := j_status job; j_priority := j_priority job; j_created_at :=
     j_created_at job; j_scheduled_at := j_scheduled_at job; j_started_at := j_started_at job;
     j_completed_at := j_completed_at job; j_retry_count := j_retry_count job; j_max_retries :=
     j_max_retries job; j_result := j_result job; j_error := j_error job; j_timeout_ms :=
     j_timeout_ms job; j_unique_key := None; j_progress := j_progress job; j_metadata :=
     j_metadata job; j_notes := j_notes job; j_cancel_requested := j_cancel_requested job;
     j_expires_at := j_expires_at job; j_result_ttl_ms := j_result_ttl_ms job; j_namespace :=
     j_namespace job; j_has_deps := j_has_deps job; j_debounce_key := None; j_enqueued_by :=
     j_enqueued_by job |}.

Definition shed_new_jobs (shed : list Job) (metadata : option string) : DbM unit :=
  reasons ← shed_reasons shed;
  now ← now_millis;
  write_transaction (
    for_each (fun '(job, error) =>
      let job := unkeyed job in
      let row := new_job_row job (attribution_of job) in
      sql_insert jobs (njr_id row) (inserted_row row) ;;
      dead_letter_in job error metadata true now) (zip shed reasons)).

(** *** Reading and deleting entries *)

Definition list_dead (limit offset : Z) (namespace : option string) : DbM (list DeadJob) :=
  conn ;;
  rows ← sql_select dead_letter (fun r => job_in_namespace (dl_namespace r) namespace);
  mret (dead_from_narrow <$>
    sql_limit limit (sql_offset offset (order_by (desc (asc_Z dl_failed_at)) rows))).

(** [failed_at < t OR (failed_at = t AND id < id')] *)
Definition dead_before_cursor (after : option (Z * string)) (r : DeadLetterRow) : bool :=
  before_cursor after (dl_failed_at r) (dl_id r).

Definition list_dead_filtered_after (queue_name task_name : option string) (limit : Z)
    (after : option (Z * string)) (namespace : option string) : DbM (list DeadJob) :=
  if limit <=? 0 then mret []
  else
    conn ;;
    rows ← sql_select dead_letter (fun r =>
      dead_before_cursor after r
      && job_in_namespace (dl_namespace r) namespace
      && opt_filter (fun q => bool_decide (dl_queue r = q)) queue_name
      && opt_filter (fun t => bool_decide (dl_task_name r = t)) task_name);
    mret (dead_from_narrow <$>
      sql_limit limit
        (order_by (then_by (desc (asc_Z dl_failed_at)) (desc (asc_str dl_id))) rows)).

Definition list_dead_after (limit : Z) (after : option (Z * string))
    (namespace : option string) : DbM (list DeadJob) :=
  list_dead_filtered_after None None limit after namespace.

Definition list_dead_by_task (task_name : string) (limit offset : Z)
    (namespace : option string) : DbM (list DeadJob) :=
  if limit <=? 0 then mret []
  else
    let offset := Z.max offset 0 in
    conn ;;
    rows ← sql_select dead_letter (fun r =>
      bool_decide (dl_task_name r = task_name)
      && job_in_namespace (dl_namespace r) namespace);
    mret (dead_from_narrow <$>
      sql_limit limit (sql_offset offset (order_by (desc (asc_Z dl_failed_at)) rows))).

Definition purge_dead_by_task (task_name : string) (namespace : option string) : DbM Z :=
  conn ;;
  sql_delete dead_letter (fun r =>
    bool_decide (dl_task_name r = task_name) && job_in_namespace (dl_namespace r) namespace).

Definition get_dead (dead_id : string) (namespace : option string) : DbM (option DeadJob) :=
  conn ;;
  row ← sql_find dead_letter dead_id;
  mret (match row with
        | Some r =>
            if job_in_namespace (dl_namespace r) namespace then Some (dead_of_row r) else None
        | None => None
        end).

(** The metadata object of a retried job. *)
Definition retry_metadata (dead : DeadLetterRow) : gmap string JsonValue :=
  let next_count := as_i32 (dl_dlq_retry_count dead + 1) in
  let own := match dl_job_metadata dead with
             | Some m => Some m
             | None => dl_metadata dead
             end in
  let obj := default ∅ (raw ← own; json_object raw) in
  stamp_origin_job_id (<[DLQ_RETRY_COUNT_KEY := JInt next_count]> obj)
    (dl_origin_job_id dead) (dl_original_job_id dead).

Definition retry_new_job (dead : DeadLetterRow) (scheduled_at : Z) : NewJob :=
  {| nj_queue := dl_queue dead; nj_task_name := dl_task_name dead;
     nj_payload := dl_payload dead; nj_priority := dl_priority dead;
     nj_scheduled_at := scheduled_at; nj_max_retries := dl_max_retries dead;
     nj_timeout_ms := dl_timeout_ms dead; nj_unique_key := None;
     nj_metadata := Some (json_to_string (retry_metadata dead));
     nj_notes := dl_notes dead; nj_depends_on := []; nj_expires_at := None;
     nj_result_ttl_ms := dl_result_ttl_ms dead; nj_namespace := dl_namespace dead;
     nj_debounce_key := None; nj_enqueued_by := dl_enqueued_by dead |}.

Definition retry_dead (dead_id : string) (namespace : option string) : DbM string :=
  conn ;;
  found ← sql_find dead_letter dead_id;
  match found with
  | None => throw (JobNotFound dead_id)
  | Some dead =>
      if negb (job_in_namespace (dl_namespace dead) namespace)
      then throw (JobNotFound dead_id)
      else
        scheduled_at ← now_millis;
        job ← into_job (retry_new_job dead scheduled_at);
        let row := new_job_row job (attribution_of job) in
        result ← attempt (transaction (
          sql_insert jobs (njr_id row) (inserted_row row) ;;
          deleted ← sql_delete_pk dead_letter dead_id;
          if deleted =? 0 then throw (Storage NotFound) else mret tt));
        match result with
        | Ok _ => mret (j_id job)
        | Err (Storage NotFound) => throw (JobNotFound dead_id)
        | Err err => throw err
        end
  end.

(** One batch of a sweep over the entries. *)
Definition purge_dead_where (p : DeadLetterRow -> bool) : DbM Z :=
  write_transaction (
    rows ← sql_select dead_letter p;
    let ids := dl_id <$> sql_limit PURGE_BATCH rows in
    sql_delete dead_letter (fun r => mem (dl_id r) ids)).

Definition purge_dead (older_than_ms : Z) (namespace : option string) : DbM Z :=
  drain_batches (stateless (purge_dead_where (fun r =>
    (dl_failed_at r <? older_than_ms) && job_in_namespace (dl_namespace r) namespace))) tt.

Definition trim_dead_over (namespace : option string) (keep : Z) : DbM Z :=
  total ← (conn ;; sql_count dead_letter (fun r => same_namespace (dl_namespace r) namespace));
  trim_oldest (total - Z.max keep 0) (fun limit =>
    write_transaction (
      rows ← sql_select dead_letter (fun r => same_namespace (dl_namespace r) namespace);
      let oldest := order_by (then_by (asc_Z dl_failed_at) (asc_str dl_id)) rows in
      let ids := dl_id <$> sql_limit limit oldest in
      sql_delete dead_letter (fun r => mem (dl_id r) ids))).

Definition delete_dead (dead_id : string) (namespace : option string) : DbM bool :=
  conn ;;
  deleted ← sql_delete dead_letter (fun r =>
    bool_decide (dl_id r = dead_id) && job_in_namespace (dl_namespace r) namespace);
  mret (0 <? deleted).

Definition purge_dead_with_ttl (global_cutoff_ms : option Z) : DbM Z :=
  now ← now_millis;
  global ← match global_cutoff_ms with
           | Some cutoff =>
               drain_batches (stateless (purge_dead_where (fun r =>
                 bool_decide (dl_result_ttl_ms r = None) && (dl_failed_at r <? cutoff)))) tt
           | None => mret 0
           end;
  per_entry ← drain_batches (stateless (purge_dead_where (fun r =>
    match dl_result_ttl_ms r with
    | Some ttl => dl_failed_at r + ttl <? now
    | None => false
    end))) tt;
  mret (global + per_entry).

(** The filter of [list_dead_for_retry]. *)
Definition retry_eligible (cutoff_ms max_retries : Z) (namespace : option string)
    (queues : list string) (r : DeadLetterRow) : bool :=
  (dl_failed_at r <=? cutoff_ms) && (dl_dlq_retry_count r <? max_retries)
  && mem (dl_queue r) queues && negb (dl_shed r)
  && same_namespace (dl_namespace r) namespace.

Definition list_dead_for_retry (cutoff_ms max_retries : Z) (namespace : option string)
    (queues : list string) (limit : Z) : DbM (list DeadJob) :=
  conn ;;
  rows ← sql_select dead_letter (retry_eligible cutoff_ms max_retries namespace queues);
  mret (dead_from_narrow <$> sql_limit limit (order_by (asc_Z dl_failed_at) rows)).

End dead_letter_ops.

(** ** What serialising metadata keeps

    Members that are strings or integers of 64 bits come back from [serde_json] as they
    were, for the objects the code serialises: a parsed one, or the empty one, with such
    members inserted. *)
Definition json_scalar (v : JsonValue) : Prop :=
  match v with
  | JString _ => True
  | JInt n => i64_min <= n <= i64_max
  | _ => False
  end.

Inductive JsonBuilt {E : Env} : gmap string JsonValue -> Prop :=
  | built_empty : JsonBuilt ∅
  | built_parsed raw m : json_object raw = Some m -> JsonBuilt m
  | built_insert k v m : json_scalar v -> JsonBuilt m -> JsonBuilt (<[k := v]> m).

Class JsonKeeps (E : Env) : Prop :=
  json_keeps : forall m, JsonBuilt m -> exists m', json_object (json_to_string m) = Some m'
    /\ forall k v, json_scalar v -> m !! k = Some v -> m' !! k = Some v.

(** ** Properties *)

(** The database after the transaction of [dead_letter]. *)
Definition dead_lettered {E : Env} (dlq_id : string) (job : Job) (error : string)
    (metadata : option string) (shed : bool) (now : Z) (d : DB) : DB :=
  let d1 := set_dead_letter
    (<[dlq_id := new_dead_letter_row dlq_id job error metadata shed now]> (db_dead_letter d)) d in
  match db_jobs d !! j_id job with
  | Some row => archive_db (dead_row now error row) d1
  | None => d1
  end.

Section properties.
Context {E : Env} {G : Engine} `{!UuidFresh E} `{!ScanComplete G}.

Lemma dead_letter_in_eq job error metadata shed now w :
  wf w -> minted (tick w) (db_dead_letter (db w)) ->
  dead_letter_in job error metadata shed now w
  = (Ok tt, mkWorld (dead_lettered (uuid_v7 (tick w)) job error metadata shed now (db w))
              (S (tick w)))
  /\ wf (mkWorld (dead_lettered (uuid_v7 (tick w)) job error metadata shed now (db w))
              (S (tick w))).
Proof.
  intros Hwf Hm. unfold dead_letter_in. erewrite bind_ok by done. simpl.
  erewrite bind_ok.
  2:{ apply sql_insert_fresh; [|done]. by apply minted_not_fresh. }
  erewrite bind_ok by done. simpl. unfold dead_lettered.
  assert (Hwf1 : wf (mkWorld (set_dead_letter
    (<[uuid_v7 (tick w) := new_dead_letter_row (uuid_v7 (tick w)) job error metadata shed now]>
       (db_dead_letter (db w))) (db w)) (S (tick w)))).
  { apply (aside (I:=wf) (t:=dead_letter) _ (bump 1 w)), wf_bump, Hwf. }
  destruct (db_jobs (db w) !! j_id job) as [row|] eqn:Hr; [|done].
  destruct (archive_live _ row (dead_row now error row) Hwf1) as [Ha Hwf2]; try done.
  simpl. by rewrite (wf_live_key _ _ _ _ _ Hwf _ _ Hr).
Qed.

Lemma dead_lettered_facts dlq_id job error metadata shed now w :
  wf w ->
  let d := db w in
  let d' := dead_lettered dlq_id job error metadata shed now d in
  db_jobs d' = delete (j_id job) (db_jobs d)
  /\ db_archived_jobs d' !! j_id job
     = match db_jobs d !! j_id job with
       | Some row => Some (archived_of (dead_row now error row))
       | None => db_archived_jobs d !! j_id job
       end
  /\ db_dead_letter d'
     = <[dlq_id := new_dead_letter_row dlq_id job error metadata shed now]> (db_dead_letter d)
  /\ db_job_dependencies d' = db_job_dependencies d.
Proof.
  intros Hwf d d'. unfold d', dead_lettered.
  destruct (db_jobs d !! j_id job) as [row|] eqn:Hr.
  - assert (Hid : jr_id row = j_id job) by exact (wf_live_key _ _ _ _ _ Hwf _ _ Hr).
    simpl. rewrite Hid. split_and!; try done. by rewrite lookup_insert_eq.
  - split_and!; try done. simpl. by rewrite delete_id.
Qed.

(** *** The operator's retry *)

Definition retried_db (dead_id : string) (job : Job) (d : DB) : DB :=
  set_dead_letter (delete dead_id (db_dead_letter d))
    (set_jobs (<[j_id job := row_of job]> (db_jobs d)) d).

(** The job [retry_dead] enqueues from a row, reading the outside from [n] on. *)
Definition retried_job (dead : DeadLetterRow) (n : nat) : Job :=
  into_job_at (uuid_v7 (3 + n)) (clock_at (2 + n)) (retry_new_job dead (clock_at (1 + n))).

Lemma retry_insert dead dead_id w :
  wf w -> db_dead_letter (db w) !! dead_id = Some dead ->
  let job := retried_job dead (tick w) in
  let w' := mkWorld (retried_db dead_id job (db w)) (4 + tick w) in
  transaction (
    sql_insert jobs (j_id job) (row_of job) ;;
    deleted ← sql_delete_pk dead_letter dead_id;
    if deleted =? 0 then throw (Storage NotFound) else mret tt) (bump 4 w) = (Ok tt, w')
  /\ wf w'.
Proof.
  intros Hwf Hd job w'.
  assert (Hfresh : fresh_job job (bump 4 w)).
  { apply (into_job_fresh _ _ (bump 2 w)), wf_bump, Hwf. }
  destruct Hfresh as (_ & i & Hi & Hid & HJ & HA).
  split.
  - unfold transaction. erewrite bind_ok.
    2:{ apply sql_insert_fresh; [done|]. by intros k r. }
    unfold mbind, M_bind, sql_delete_pk. simpl. rewrite Hd. done.
  - unfold w', retried_db.
    apply (aside (I:=wf) (t:=dead_letter) _ (mkWorld (set_jobs _ (db w)) (4 + tick w))).
    apply (wf_insert_live _ _ _ _ _ i (row_of job)); try done.
    by apply (wf_bump 4).
Qed.

Lemma retry_dead_eq dead_id ns w :
  wf w ->
  retry_dead dead_id ns w =
    (if negb (pool_ready (tick w)) then (Err Pool, bump 1 w)
     else match db_dead_letter (db w) !! dead_id with
          | Some dead =>
              if job_in_namespace (dl_namespace dead) ns then
                let job := retried_job dead (tick w) in
                (Ok (j_id job), mkWorld (retried_db dead_id job (db w)) (4 + tick w))
              else (Err (JobNotFound dead_id), bump 1 w)
          | None => (Err (JobNotFound dead_id), bump 1 w)
          end)
  /\ wf (snd (retry_dead dead_id ns w)).
Proof.
  intros Hwf.
  assert (Heq : forall r w', wf w' -> retry_dead dead_id ns w = (r, w') ->
    forall x, x = (r, w') -> retry_dead dead_id ns w = x /\ wf (snd (retry_dead dead_id ns w))).
  { intros r w' Hw' Hx x ->. by rewrite Hx. }
  unfold retry_dead at 1 in Heq. destruct (pool_ready (tick w)) eqn:Hp; simpl.
  2:{ rewrite (bind_err _ _ _ _ _ (conn_err w Hp)) in Heq.
      eapply Heq; [by apply (wf_bump 1)|done|done]. }
  rewrite (bind_ok _ _ _ _ _ (conn_ok w Hp)) in Heq. erewrite bind_ok in Heq by done.
  simpl in Heq. destruct (db_dead_letter (db w) !! dead_id) as [dead|] eqn:Hd.
  2:{ eapply Heq; [by apply (wf_bump 1)|done|done]. }
  destruct (job_in_namespace (dl_namespace dead) ns); simpl in Heq.
  2:{ eapply Heq; [by apply (wf_bump 1)|done|done]. }
  destruct (retry_insert dead dead_id w Hwf Hd) as [Htxn Hwf'].
  erewrite bind_ok in Heq by done. erewrite bind_ok in Heq by apply into_job_eq.
  erewrite bind_attempt in Heq by exact Htxn.
  eapply Heq; [exact Hwf'|done|done].
Qed.

(** *** The entries survive the cascade *)

Definition dead_entries (X : gmap string DeadLetterRow) : World -> Prop :=
  on_db (fun d => db_dead_letter d = X).

#[local] Instance dead_aside_jobs X : Aside (dead_entries X) jobs.
Proof. by intros m w Hw. Qed.
#[local] Instance dead_aside_archived X : Aside (dead_entries X) archived_jobs.
Proof. by intros m w Hw. Qed.
#[local] Instance dead_aside_steps X : Aside (dead_entries X) job_steps.
Proof. by intros m w Hw. Qed.
#[local] Instance dead_aside_claims X : Aside (dead_entries X) execution_claims.
Proof. by intros m w Hw. Qed.
#[local] Instance dead_entries_mono X : TickMono (dead_entries X).
Proof. by intros d n n'. Qed.

Lemma keeps_bfs I fuel idx queue : keeps I (bfs fuel idx queue).
Proof.
  revert idx queue. induction fuel as [|fuel IH]; intros idx queue; simpl.
  - destruct (queue !! idx); apply keeps_ret.
  - destruct (queue !! idx); [|apply keeps_ret]. apply keeps_bind; [apply keeps_gets|]. eauto.
Qed.

Lemma cascade_keeps_entries X root reason ns :
  keeps (dead_entries X) (cascade_cancel_reporting root reason ns).
Proof.
  unfold cascade_cancel_reporting, archive_job_row.
  repeat (apply keeps_bind; [first [apply keeps_bfs|solve_keeps]|intros ?]).
  case_match; solve_keeps.
Qed.

(** The metadata a retried job carries. *)
Lemma retry_metadata_built dead : JsonBuilt (retry_metadata dead).
Proof.
  unfold retry_metadata, stamp_origin_job_id. apply built_insert; [done|]. apply built_insert.
  - unfold json_scalar, as_i32, i64_min, i64_max.
    pose proof (Z.mod_pos_bound (dl_dlq_retry_count dead + 1 + 2 ^ 31) (2 ^ 32) ltac:(done)). lia.
  - destruct (match dl_job_metadata dead with Some m => Some m | None => dl_metadata dead end)
      as [raw|]; simpl; [|apply built_empty].
    destruct (json_object raw) as [m|] eqn:Hm; simpl; [by eapply built_parsed|apply built_empty].
Qed.

Lemma as_i32_idem z : as_i32 (as_i32 z) = as_i32 z.
Proof.
  unfold as_i32. rewrite Z.sub_add, Z.mod_mod by done. done.
Qed.

Lemma nonblank_Some s : s <> ""%string -> nonblank s = Some s.
Proof. intros Hs. unfold nonblank. by rewrite bool_decide_eq_false_2. Qed.

Lemma run_key_nonblank job : j_id job <> ""%string -> run_key job <> ""%string.
Proof.
  intros Hid. unfold run_key, origin_job_id.
  destruct (j_metadata job) as [raw|]; simpl; [|done].
  destruct (json_object raw) as [m|]; simpl; [|done].
  destruct (m !! ORIGIN_JOB_ID_KEY) as [v|]; simpl; [|done].
  destruct v; simpl; try done. by case_bool_decide.
Qed.

Lemma retried_run `{!JsonKeeps E} dlq_id job error md shed now n :
  j_id job <> ""%string ->
  let dead := new_dead_letter_row dlq_id job error md shed now in
  run_key (retried_job dead n) = run_key job
  /\ dlq_retry_count_of (j_metadata (retried_job dead n))
     = as_i32 (dlq_retry_count_of (j_metadata job) + 1).
Proof.
  intros Hid dead. destruct (json_keeps _ (retry_metadata_built dead)) as (m & Hm & Hkeep).
  split.
  - unfold run_key at 1, origin_job_id. simpl. rewrite Hm. simpl.
    rewrite (Hkeep _ (JString (run_key job))); [|done|].
    + simpl. by rewrite bool_decide_eq_false_2 by by apply run_key_nonblank.
    + unfold retry_metadata, stamp_origin_job_id. simpl.
      rewrite nonblank_Some by by apply run_key_nonblank. apply lookup_insert_eq.
  - unfold dlq_retry_count_of at 1. simpl. rewrite Hm. simpl.
    set (n' := as_i32 (dlq_retry_count_of (j_metadata job) + 1)).
    assert (Hr : i64_min <= n' <= i64_max).
    { unfold n', as_i32, i64_min, i64_max.
      pose proof (Z.mod_pos_bound (dlq_retry_count_of (j_metadata job) + 1 + 2 ^ 31) (2 ^ 32)
        ltac:(done)). lia. }
    rewrite (Hkeep _ (JInt n')); [|done|].
    + simpl. destruct (Z.leb_spec i64_min n'), (Z.leb_spec n' i64_max); try lia. simpl.
      apply as_i32_idem.
    + unfold retry_metadata, stamp_origin_job_id.
      rewrite lookup_insert_ne by done. apply lookup_insert_eq.
Qed.

Lemma dead_lettered_target dlq_id job error md shed now w ns row :
  wf w ->
  cascade_target (dead_lettered dlq_id job error md shed now (db w)) (j_id job) ns row
  <-> cascade_target (db w) (j_id job) ns row.
Proof.
  intros Hwf. destruct (dead_lettered_facts dlq_id job error md shed now w Hwf)
    as (HJ & _ & _ & HD).
  assert (Hdep : forall a b, depends (dead_lettered dlq_id job error md shed now (db w)) a b
    <-> depends (db w) a b) by (intros a b; unfold depends; by rewrite HD).
  assert (Hrtc : forall b, rtc (depends (dead_lettered dlq_id job error md shed now (db w)))
    (j_id job) b <-> rtc (depends (db w)) (j_id job) b).
  { intros b. split; apply rtc_subrel; intros x y; apply Hdep. }
  unfold cascade_target. rewrite HJ, Hrtc, lookup_delete_Some. naive_solver.
Qed.

Lemma dead_letter_cases job error md shed w r w' :
  wf w -> minted (tick w) (db_dead_letter (db w)) ->
  dead_letter_reporting job error md shed w = (r, w') ->
  let now := clock_at (tick w) in
  let dlq_id := uuid_v7 (2 + tick w) in
  let moved := dead_lettered dlq_id job error md shed now (db w) in
  wf w' /\
  if negb (pool_ready (S (tick w))) then r = Err Pool /\ db w' = db w
  else
    db_dead_letter (db w')
      = <[dlq_id := new_dead_letter_row dlq_id job error md shed now]> (db_dead_letter (db w))
    /\ db_dead_letter (db w) !! dlq_id = None
    /\ db_jobs (db w') !! j_id job = None
    /\ (forall row, db_jobs (db w) !! j_id job = Some row ->
         db_archived_jobs (db w') !! j_id job = Some (archived_of (dead_row now error row)))
    /\ match r with
       | Ok cancelled => exists rows now',
           (forall row, row ∈ rows <-> cascade_target (db w) (j_id job) (j_namespace job) row)
           /\ (let f := cancelled_row now' (Some (DEPENDENCY_FAILED +:+ ": " +:+ j_id job)%string) in
               cancelled = (fun r => job_of_row (f r)) <$> rows
               /\ archive_effect f rows moved (db w'))
       | Err e => e = Pool /\ db w' = moved
       end.
Proof.
  intros Hwf Hm. unfold dead_letter_reporting. erewrite bind_ok by done.
  change (mkWorld (db w) (S (tick w))) with (bump 1 w).
  destruct (pool_ready (S (tick w))) eqn:Hp.
  2:{ erewrite bind_err by by apply write_transaction_no_pool.
      intros [= <- <-]. simpl. split; [by apply (wf_bump 2)|done]. }
  destruct (dead_letter_in_eq job error md shed (clock_at (tick w)) (bump 2 w)
    (wf_bump 2 w Hwf)) as [Hin Hwf1]; [eapply minted_mono; [|done]; simpl; lia|].
  rewrite (bind_ok _ _ _ _ _ (write_transaction_ok _ (bump 1 w) _ _ Hp Hin)).
  intros Hc. set (now := clock_at (tick w)). set (dlq_id := uuid_v7 (2 + tick w)).
  set (moved := dead_lettered dlq_id job error md shed now (db w)).
  pose proof (cascade_keeps_entries (db_dead_letter moved) (j_id job) DEPENDENCY_FAILED
    (j_namespace job) (mkWorld moved (3 + tick w)) eq_refl) as Hent.
  change (mkWorld _ _) with (mkWorld moved (3 + tick w)) in Hc, Hwf1. rewrite Hc in Hent.
  destruct (cascade_cases _ _ _ _ _ _ Hwf1 Hc) as [Hwf' Hcases].
  destruct (dead_lettered_facts dlq_id job error md shed now w Hwf) as (HJ & HA & HD & _).
  split; [done|]. simpl. simpl in Hcases. fold moved in HJ, HA, HD, Hcases.
  assert (Hroot : db_jobs (db w') !! j_id job = db_jobs moved !! j_id job
    /\ db_archived_jobs (db w') !! j_id job = db_archived_jobs moved !! j_id job).
  { destruct r as [cs|e]; [|by destruct Hcases as [_ ->]].
    destruct Hcases as (rows & now' & _ & Hrows & _ & _ & Hrest & _). apply Hrest.
    intros (row & Hid & Hin')%list_elem_of_fmap. apply Hrows in Hin' as (_ & _ & _ & Hne & _).
    by rewrite Hid in Hne. }
  destruct Hroot as [-> ->]. rewrite HJ, HA, lookup_delete_eq.
  split_and!; [by rewrite <- HD| |done|by intros row ->|].
  - apply minted_not_fresh. eapply minted_mono; [|done]. lia.
  - destruct r as [cs|e]; [|done]. destruct Hcases as (rows & now' & _ & Hrows & Heff).
    exists rows, now'. split; [|done]. intros row. rewrite Hrows. unfold moved.
    by apply dead_lettered_target.
Qed.

(** C16: Dead-lettering a job on every outcome.  Without a connection nothing changes.
    Otherwise the entry with the job's fields is written under a fresh id, beside the
    entries that were there; a live job leaves the live table and is archived as dead
    with the error; and either exactly its pending dependents are archived as cancelled,
    or the cascade found no connection, is reported as failed, and has changed nothing
    after the committed move. *)
Theorem dead_letter_spec job error md shed w r w' :
  wf w -> minted (tick w) (db_dead_letter (db w)) ->
  dead_letter_reporting job error md shed w = (r, w') ->
  let now := clock_at (tick w) in
  let dlq_id := uuid_v7 (2 + tick w) in
  let moved := dead_lettered dlq_id job error md shed now (db w) in
  wf w' /\
  if negb (pool_ready (S (tick w))) then r = Err Pool /\ db w' = db w
  else
    db_dead_letter (db w')
      = <[dlq_id := new_dead_letter_row dlq_id job error md shed now]> (db_dead_letter (db w))
    /\ db_dead_letter (db w) !! dlq_id = None
    /\ db_jobs (db w') !! j_id job = None
    /\ (forall row, db_jobs (db w) !! j_id job = Some row ->
         db_archived_jobs (db w') !! j_id job = Some (archived_of (dead_row now error row)))
    /\ match r with
       | Ok cancelled => exists rows now',
           (forall row, row ∈ rows <-> cascade_target (db w) (j_id job) (j_namespace job) row)
           /\ (let f := cancelled_row now' (Some (DEPENDENCY_FAILED +:+ ": " +:+ j_id job)%string) in
               cancelled = (fun r => job_of_row (f r)) <$> rows
               /\ archive_effect f rows moved (db w'))
       | Err e => e = Pool /\ db w' = moved
       end.
Proof. apply dead_letter_cases. Qed.

(** [retry_dead] on every branch.  An entry of the namespace becomes a pending job
    under a fresh id, and is gone, in one step; an unknown id and an entry of another
    namespace both report [JobNotFound] and change nothing. *)
Theorem retry_dead_spec dead_id ns w :
  wf w ->
  retry_dead dead_id ns w =
    (if negb (pool_ready (tick w)) then (Err Pool, bump 1 w)
     else match db_dead_letter (db w) !! dead_id with
          | Some dead =>
              if job_in_namespace (dl_namespace dead) ns then
                let job := retried_job dead (tick w) in
                (Ok (j_id job), mkWorld (retried_db dead_id job (db w)) (4 + tick w))
              else (Err (JobNotFound dead_id), bump 1 w)
          | None => (Err (JobNotFound dead_id), bump 1 w)
          end)
  /\ wf (snd (retry_dead dead_id ns w)).
Proof. apply retry_dead_eq. Qed.

(** C17: A run keeps its identity through the dead-letter queue.  Whatever metadata the
    move was given, retrying the entry it wrote enqueues a job with the run key of the
    job that died, so its steps hand out the same idempotency keys; payload, task, queue,
    namespace and limits are the job's own, and the retry count of the entry has gone up
    by one at 32 bits. *)
Theorem dlq_retry_keeps_run `{!JsonKeeps E} dead_id job error md shed now ns w id w' :
  wf w -> j_id job <> ""%string ->
  db_dead_letter (db w) !! dead_id = Some (new_dead_letter_row dead_id job error md shed now) ->
  retry_dead dead_id ns w = (Ok id, w') ->
  exists row, db_jobs (db w') !! id = Some row /\ db_dead_letter (db w') !! dead_id = None
    /\ let job' := job_of_row row in
       (forall step_key, idempotency_key (run_key job') step_key
                         = idempotency_key (run_key job) step_key)
       /\ dlq_retry_count_of (j_metadata job')
          = as_i32 (dlq_retry_count_of (j_metadata job) + 1)
       /\ j_status job' = Pending /\ j_payload job' = j_payload job
       /\ j_task_name job' = j_task_name job /\ j_queue job' = j_queue job
       /\ j_namespace job' = j_namespace job /\ j_max_retries job' = j_max_retries job
       /\ j_timeout_ms job' = j_timeout_ms job /\ j_retry_count job' = 0.
Proof.
  intros Hwf Hid Hd Hrun. destruct (retry_dead_eq dead_id ns w Hwf) as [Heq _].
  rewrite Heq in Hrun. clear Heq. destruct (pool_ready (tick w)); [|done]. simpl in Hrun.
  rewrite Hd in Hrun. set (dead := new_dead_letter_row _ _ _ _ _ _) in *.
  destruct (job_in_namespace (dl_namespace dead) ns); [|done]. injection Hrun as <- <-.
  exists (row_of (retried_job dead (tick w))). split; [apply lookup_insert_eq|].
  split; [apply lookup_delete_eq|].
  destruct (retried_run dead_id job error md shed now (tick w) Hid) as [Hkey Hcount].
  split_and!; try done. intros step_key. by rewrite <- Hkey.
Qed.

(** *** Preservation of the invariant *)

Lemma keeps_retry_dead dead_id ns : keeps wf (retry_dead dead_id ns).
Proof. intros w Hwf. apply (retry_dead_eq dead_id ns w Hwf). Qed.

Lemma keeps_dead_letter_in job error md shed now : keeps wf (dead_letter_in job error md shed now).
Proof.
  unfold dead_letter_in. apply keeps_bind; [apply keeps_now_v7, _|]. intros id.
  apply keeps_bind; [eauto with keeps|]. intros _.
  intros w Hwf. pose proof (keeps_archive_found (j_id job) (fun _ => true)
    (dead_row now error) ltac:(by intros r; split_and!; [..|eexists]) w Hwf) as H.
  unfold mbind, M_bind in *. simpl in *. by destruct (db_jobs (db w) !! j_id job).
Qed.
#[local] Hint Resolve keeps_dead_letter_in keeps_cascade_cancel_reporting : keeps.

Lemma keeps_dead_letter job error md shed : keeps wf (dead_letter_reporting job error md shed).
Proof. unfold dead_letter_reporting. solve_keeps. Qed.

Lemma keeps_purge_dead_where p : keeps wf (purge_dead_where p).
Proof. unfold purge_dead_where. solve_keeps. Qed.
#[local] Hint Resolve keeps_purge_dead_where keeps_stateless keeps_drain : keeps.

Lemma keeps_purge_dead older ns : keeps wf (purge_dead older ns).
Proof. apply keeps_drain. intros s. eauto with keeps. Qed.

Lemma keeps_purge_dead_by_task task ns : keeps wf (purge_dead_by_task task ns).
Proof. unfold purge_dead_by_task. solve_keeps. Qed.

Lemma keeps_delete_dead id ns : keeps wf (delete_dead id ns).
Proof. unfold delete_dead. solve_keeps. Qed.

Lemma keeps_purge_dead_with_ttl cutoff : keeps wf (purge_dead_with_ttl cutoff).
Proof.
  unfold purge_dead_with_ttl. apply keeps_bind; [apply keeps_now_millis, _|]. intros now.
  apply keeps_bind.
  - destruct cutoff; [|apply keeps_ret]. apply keeps_drain. eauto with keeps.
  - intros global. apply keeps_bind; [|intros; apply keeps_ret]. apply keeps_drain.
    eauto with keeps.
Qed.

Lemma keeps_trim_dead_over ns keep : keeps wf (trim_dead_over ns keep).
Proof.
  unfold trim_dead_over, trim_oldest. apply keeps_bind; [solve_keeps|]. intros total.
  apply keeps_drain. intros s. solve_keeps.
Qed.
End properties.

#[export] Hint Resolve keeps_retry_dead keeps_dead_letter keeps_purge_dead
  keeps_purge_dead_by_task keeps_delete_dead keeps_purge_dead_with_ttl
  keeps_trim_dead_over : keeps.

(** ** Examples

    An environment whose objects hold only strings and integers, written as the digits of
    their encoding as a number. *)

Fixpoint digits (p : positive) : string :=
  match p with
  | xH => ""
  | xO p => String Ascii.zero (digits p)
  | xI p => String Ascii.one (digits p)
  end.

Fixpoint of_digits (s : string) : positive :=
  match s with
  | EmptyString => xH
  | String c s => if Ascii.ascii_dec c Ascii.zero then xO (of_digits s) else xI (of_digits s)
  end.

Definition flat_member (v : JsonValue) : option (string + Z) :=
  match v with
  | JString s => Some (inl s)
  | JInt n => Some (inr n)
  | _ => None
  end.

Definition member_value (v : string + Z) : JsonValue :=
  match v with inl s => JString s | inr n => JInt n end.

Definition flat_env : Env := {|
  uuid_v7 n := pretty n;
  system_ms n := 1000 + Z.of_nat n;
  random_u64 n := Z.of_nat n;
  pool_ready _ := true;
  json_object raw :=
    match decode (A:=gmap string (string + Z)) (of_digits raw) with
    | Some m => Some (member_value <$> m)
    | None => None
    end;
  json_to_string m := digits (encode (omap flat_member m : gmap string (string + Z)))
|}.

Lemma of_digits_digits p : of_digits (digits p) = p.
Proof. by induction p as [p IH|p IH|]; simpl; rewrite ?IH. Qed.

Lemma flat_keeps : JsonKeeps flat_env.
Proof.
  intros m _. exists (member_value <$> (omap flat_member m : gmap string (string + Z))). split.
  - simpl. by rewrite of_digits_digits, decode_encode.
  - intros k v Hv Hk. rewrite lookup_fmap, lookup_omap, Hk. by destruct v.
Qed.

Lemma flat_uuid_fresh : UuidFresh flat_env.
Proof. intros m n Hmn. by apply (inj pretty) in Hmn. Qed.

Definition demo_dead_job : Job := into_job_at "1" 1000 (demo_new_job None None []).

Section demo_witness.
#[local] Existing Instances demo_env demo_engine demo_uuid_fresh demo_scan_complete.

Lemma dead_letter_spec_witness :
  exists r w', dead_letter_reporting demo_dead_job "boom" None false running_world = (r, w')
    /\ wf w' /\ db_jobs (db w') !! "1"%string = None /\ is_ok r = true.
Proof.
  destruct (dead_letter_reporting demo_dead_job "boom" None false running_world)
    as [r w'] eqn:Hx.
  assert (Hok : is_ok r = true).
  { change r with (fst (r, w')). rewrite <- Hx. by vm_compute. }
  destruct (dead_letter_spec demo_dead_job "boom" None false running_world r w'
    wf_running_world) as (Hwf & _ & _ & Hnone & _); [|exact Hx|by exists r, w'].
  by intros k [? Hk].
Defined.

End demo_witness.

Section flat_witness.
#[local] Existing Instances flat_env demo_engine flat_uuid_fresh demo_scan_complete flat_keeps.

(** The entry of that move, alone in the store. *)
Definition dead_world : World :=
  mkWorld (set_dead_letter
    {[ "5"%string := new_dead_letter_row "5" demo_dead_job "boom"
         (Some "retry budget exhausted"%string) false 1000 ]} empty_db) 6.

Lemma wf_dead_world : wf dead_world.
Proof. apply (aside (I:=wf) (t:=dead_letter) _ (mkWorld empty_db 6)), wf_empty. Qed.

Lemma retry_dead_spec_witness :
  fst (retry_dead "5" (Some "acme"%string) dead_world) = Ok "9"%string
  /\ fst (retry_dead "5" (Some "other"%string) dead_world)
     = Err (JobNotFound "5").
Proof.
  destruct (retry_dead_spec "5" (Some "acme"%string) dead_world wf_dead_world)
    as [-> _].
  destruct (retry_dead_spec "5" (Some "other"%string) dead_world wf_dead_world)
    as [-> _].
  by vm_compute.
Defined.

Lemma dlq_retry_keeps_run_witness :
  exists w' row, retry_dead "5" None dead_world = (Ok "9"%string, w')
    /\ db_jobs (db w') !! "9"%string = Some row
    /\ idempotency_key (run_key (job_of_row row)) "charge#0" = "1:charge#0"%string.
Proof.
  destruct (retry_dead "5" None dead_world) as [r w'] eqn:Hx.
  assert (Hr : r = Ok "9"%string).
  { change r with (fst (r, w')). rewrite <- Hx. by vm_compute. }
  subst r.
  destruct (dlq_retry_keeps_run "5" demo_dead_job "boom"
    (Some "retry budget exhausted"%string) false 1000 None dead_world "9" w'
    wf_dead_world ltac:(done) eq_refl Hx) as (row & Hrow & _ & Hkey & _).
  exists w', row. split; [done|]. split; [done|]. rewrite Hkey. by vm_compute.
Defined.
End flat_witness.
