(* ===== verification/Retention.v ===== *)
(** * Retention windows ([scheduler/retention.rs], [scheduler/retention_override.rs],
      [diesel_common/retention.rs], [scheduler/maintenance.rs])

    How long each history table keeps a row: the windows a worker is configured with, the ones
    a dashboard puts in their place, what the leader publishes, the preview of a sweep and the
    sweep itself.  The preview counts what the sweep then removes, table by table. *)
From S2P Require Import Prelude Job Db Store Settings Purge Drain Telemetry DeadLetter.

Definition DAY_MS : Z := 86400000.
Definition DEFAULT_NAMESPACE : string := "default".
Definition RETENTION_SETTING_PREFIX : string := "retention:effective:".
Definition DEFAULT_ARCHIVED_JOBS_TTL_MS : Z := 7 * DAY_MS.
Definition DEFAULT_DEAD_LETTER_TTL_MS : Z := 30 * DAY_MS.
Definition DEFAULT_TASK_LOGS_TTL_MS : Z := 3 * DAY_MS.
Definition DEFAULT_TASK_METRICS_TTL_MS : Z := 7 * DAY_MS.
Definition DEFAULT_JOB_ERRORS_TTL_MS : Z := 7 * DAY_MS.

(** ** Windows *)

Record RetentionConfig := mkRetentionConfig {
  archived_jobs_ttl_ms : option Z;
  dead_letter_ttl_ms : option Z;
  task_logs_ttl_ms : option Z;
  task_metrics_ttl_ms : option Z;
  job_errors_ttl_ms : option Z
}.

#[export] Instance RetentionConfig_eq_dec : EqDecision RetentionConfig.
Proof. solve_decision. Defined.

Record RetentionCutoffs := mkRetentionCutoffs {
  co_archived_jobs : option Z;
  co_dead_letter : option Z;
  co_task_logs : option Z;
  co_task_metrics : option Z;
  co_job_errors : option Z
}.

Record RetentionCounts := mkRetentionCounts {
  rn_archived_jobs : Z;
  rn_dead_letter : Z;
  rn_task_logs : Z;
  rn_task_metrics : Z;
  rn_job_errors : Z
}.

Definition counts_total (c : RetentionCounts) : Z :=
  rn_archived_jobs c + rn_dead_letter c + rn_task_logs c + rn_task_metrics c + rn_job_errors c.

(** [RetentionConfig::default] *)
Definition no_windows : RetentionConfig := mkRetentionConfig None None None None None.

Definition uniform (ttl_ms : Z) : RetentionConfig :=
  mkRetentionConfig (Some ttl_ms) (Some ttl_ms) (Some ttl_ms) (Some ttl_ms) (Some ttl_ms).

Definition recommended : RetentionConfig :=
  mkRetentionConfig (Some DEFAULT_ARCHIVED_JOBS_TTL_MS) (Some DEFAULT_DEAD_LETTER_TTL_MS)
    (Some DEFAULT_TASK_LOGS_TTL_MS) (Some DEFAULT_TASK_METRICS_TTL_MS)
    (Some DEFAULT_JOB_ERRORS_TTL_MS).

Definition windows_is_empty (c : RetentionConfig) : bool := bool_decide (c = no_windows).

(** [ttl.filter(|t| *t >= 0)] *)
Definition keep_window (ttl : option Z) : option Z :=
  match ttl with
  | Some t => if 0 <=? t then Some t else None
  | None => None
  end.

Definition sanitized (c : RetentionConfig) : RetentionConfig :=
  mkRetentionConfig (keep_window (archived_jobs_ttl_ms c)) (keep_window (dead_letter_ttl_ms c))
    (keep_window (task_logs_ttl_ms c)) (keep_window (task_metrics_ttl_ms c))
    (keep_window (job_errors_ttl_ms c)).

Definition cutoff_at (now : Z) (ttl : option Z) : option Z := (fun t => sat_sub_i64 now t) <$> ttl.

Definition cutoffs (c : RetentionConfig) (now : Z) : RetentionCutoffs :=
  let s := sanitized c in
  mkRetentionCutoffs (cutoff_at now (archived_jobs_ttl_ms s)) (cutoff_at now (dead_letter_ttl_ms s))
    (cutoff_at now (task_logs_ttl_ms s)) (cutoff_at now (task_metrics_ttl_ms s))
    (cutoff_at now (job_errors_ttl_ms s)).

Definition resolve_effective_retention (retention : option RetentionConfig)
    (result_ttl_ms : option Z) : RetentionConfig :=
  match retention with
  | Some retention => sanitized retention
  | None =>
      match result_ttl_ms with
      | Some ttl => if 0 <=? ttl then uniform ttl else no_windows
      | None => recommended
      end
  end.

Definition is_retention_defaulted (retention : option RetentionConfig) (result_ttl_ms : option Z)
    : bool :=
  bool_decide (retention = None) && bool_decide (result_ttl_ms = None).

(** ** Documents *)

Inductive RetentionSource := Code | Dashboard.

#[export] Instance RetentionSource_eq_dec : EqDecision RetentionSource.
Proof. solve_decision. Defined.

Record EffectiveRetention := mkEffectiveRetention {
  er_enabled : bool;
  er_defaulted : bool;
  er_namespace : string;
  er_reported_at : Z;
  er_windows : RetentionConfig;
  er_source : RetentionSource;
  er_code_windows : option RetentionConfig
}.

Record RetentionOverride := mkRetentionOverride {
  ro_source : RetentionSource;
  ro_windows : RetentionConfig;
  ro_updated_at : option Z
}.

(** [serde_json] on the documents, answering with the parser's message when a text is not one.
    [request_of_json] is the strict form of a [PUT] body: its source and windows. *)
Class RetentionJson := {
  effective_json : EffectiveRetention -> string;
  effective_of_json : string -> Result string EffectiveRetention;
  override_json : RetentionOverride -> string;
  override_of_json : string -> Result string RetentionOverride;
  request_of_json : string -> Result string (RetentionSource * RetentionConfig)
}.

(** What is written reads back. *)
Class RetentionJsonLaw (J : RetentionJson) : Prop := {
  effective_of_json_of : forall e, effective_of_json (effective_json e) = Ok e;
  override_of_json_of : forall o, override_of_json (override_json o) = Ok o
}.

Definition retention_setting_key (namespace : option string) : string :=
  (RETENTION_SETTING_PREFIX +:+ default DEFAULT_NAMESPACE namespace)%string.

Definition RETENTION_OVERRIDE_PREFIX : string := "retention:override:".
Definition MIN_OVERRIDE_WINDOW_MS : Z := 3600000.

Definition retention_override_key (namespace : option string) : string :=
  (RETENTION_OVERRIDE_PREFIX +:+ default DEFAULT_NAMESPACE namespace)%string.

Definition active_windows (o : RetentionOverride) : option RetentionConfig :=
  if bool_decide (ro_source o = Dashboard) then Some (sanitized (ro_windows o)) else None.

Definition windows_by_field (c : RetentionConfig) : list (string * option Z) :=
  [("archived_jobs_ttl_ms"%string, archived_jobs_ttl_ms c);
   ("dead_letter_ttl_ms"%string, dead_letter_ttl_ms c);
   ("task_logs_ttl_ms"%string, task_logs_ttl_ms c);
   ("task_metrics_ttl_ms"%string, task_metrics_ttl_ms c);
   ("job_errors_ttl_ms"%string, job_errors_ttl_ms c)].

(** The first field whose window is too short. *)
Fixpoint too_short (fields : list (string * option Z)) : option string :=
  match fields with
  | [] => None
  | (field, Some ms) :: fields => if ms <? MIN_OVERRIDE_WINDOW_MS then Some field else too_short fields
  | (_, None) :: fields => too_short fields
  end.

Section documents.
Context {E : Env} {J : RetentionJson}.

Definition from_request_json (body : string) (now : Z) : Result string RetentionOverride :=
  match request_of_json body with
  | Err error => Err ("invalid body: " +:+ error)%string
  | Ok (source, windows) =>
      match too_short (windows_by_field windows) with
      | Some field =>
          Err (field +:+ " must be at least " +:+ pretty MIN_OVERRIDE_WINDOW_MS
               +:+ " ms (one hour), or null to keep the table forever")%string
      | None => Ok (mkRetentionOverride source windows (Some now))
      end
  end.

Definition publish_effective_retention (namespace : option string) (snapshot : EffectiveRetention)
    : DbM unit :=
  set_setting (retention_setting_key namespace) (effective_json snapshot).

(** A document that does not parse reads as none. *)
Definition read_effective_retention (namespace : option string) : DbM (option EffectiveRetention) :=
  raw ← get_setting (retention_setting_key namespace);
  match raw with
  | None => mret None
  | Some raw => mret match effective_of_json raw with Ok e => Some e | Err _ => None end
  end.

(** A document that does not parse is an error. *)
Definition read_retention_override (namespace : option string) : DbM (option RetentionOverride) :=
  raw ← get_setting (retention_override_key namespace);
  match raw with
  | None => mret None
  | Some raw =>
      match override_of_json raw with
      | Ok o => mret (Some o)
      | Err msg => throw (Json msg)
      end
  end.

Definition write_retention_override (namespace : option string) (document : RetentionOverride)
    : DbM unit :=
  set_setting (retention_override_key namespace) (override_json document).

Definition clear_retention_override (namespace : option string) : DbM bool :=
  delete_setting (retention_override_key namespace).
End documents.

(** ** The preview *)

Record RetentionPreview := mkRetentionPreview {
  rp_enabled : bool;
  rp_defaulted : bool;
  rp_namespace : string;
  rp_reference_time : Z;
  rp_windows : RetentionConfig;
  rp_counts : RetentionCounts;
  rp_total : Z
}.

(** [failed_at < cutoff], and what a dead letter's own lifetime says. *)
Definition dead_past_cutoff (cutoff : Z) (r : DeadLetterRow) : bool :=
  bool_decide (dl_result_ttl_ms r = None) && (dl_failed_at r <? cutoff).
Definition dead_past_own_ttl (now : Z) (r : DeadLetterRow) : bool :=
  match dl_result_ttl_ms r with
  | Some ttl => dl_failed_at r + ttl <? now
  | None => false
  end.
Definition failed_before (cutoff : Z) (e : JobErrorRow) : bool := je_failed_at e <? cutoff.

Section preview.
Context {E : Env} {G : Engine} {J : RetentionJson}.

(** [match cutoff { Some(cutoff) => count, None => 0 }] *)
Definition count_past {R} (t : Table string R) (p : Z -> R -> bool) (cutoff : option Z) : DbM Z :=
  match cutoff with
  | Some cutoff => sql_count t (p cutoff)
  | None => mret 0
  end.

Definition count_expired_rows (c : RetentionCutoffs) (now : Z) : DbM RetentionCounts :=
  conn ;;
  archived_global ← count_past archived_jobs past_global_cutoff (co_archived_jobs c);
  archived_per_entry ← sql_count archived_jobs (past_own_ttl now);
  dead_global ← count_past dead_letter dead_past_cutoff (co_dead_letter c);
  dead_per_entry ← sql_count dead_letter (dead_past_own_ttl now);
  logs ← count_past task_logs logged_before (co_task_logs c);
  metrics ← count_past task_metrics recorded_before (co_task_metrics c);
  errors ← count_past job_errors failed_before (co_job_errors c);
  mret (mkRetentionCounts (archived_global + archived_per_entry) (dead_global + dead_per_entry)
          logs metrics errors).

(** The preview over windows already resolved. *)
Definition preview (windows : RetentionConfig) (defaulted : bool) (namespace : option string)
    (now : Z) : DbM RetentionPreview :=
  counts ← count_expired_rows (cutoffs windows now) now;
  mret (mkRetentionPreview (negb (windows_is_empty windows)) defaulted
    (default DEFAULT_NAMESPACE namespace) now windows counts (counts_total counts)).

Definition dry_run (retention : option RetentionConfig) (result_ttl_ms : option Z)
    (namespace : option string) (now : Z) : DbM RetentionPreview :=
  preview (resolve_effective_retention retention result_ttl_ms)
    (is_retention_defaulted retention result_ttl_ms) namespace now.

Definition dry_run_applied (retention : option RetentionConfig) (result_ttl_ms : option Z)
    (namespace : option string) (now : Z) : DbM RetentionPreview :=
  document ← read_retention_override namespace;
  match document ≫= active_windows with
  | Some windows => dry_run (Some windows) None namespace now
  | None => dry_run retention result_ttl_ms namespace now
  end.

Definition dry_run_reported (namespace : option string) (now : Z) : DbM RetentionPreview :=
  document ← read_retention_override namespace;
  match document ≫= active_windows with
  | Some windows => dry_run (Some windows) None namespace now
  | None =>
      published ← read_effective_retention namespace;
      match published with
      | None => dry_run None None namespace now
      | Some published => preview (sanitized (er_windows published)) (er_defaulted published) namespace now
      end
  end.
End preview.

(** ** The sweep *)

Section sweep.
Context {E : Env} {G : Engine}.

(** A purge that fails is logged and counts for nothing. *)
Definition sweep (purge : DbM Z) : DbM Z :=
  r ← attempt purge;
  mret match r with Ok n => n | Err _ => 0 end.

Definition sweep_past (purge : Z -> DbM Z) (cutoff : option Z) : DbM Z :=
  match cutoff with
  | Some c => sweep (purge c)
  | None => mret 0
  end.

(** The five purges by window, in the order of the cleanup. *)
Definition purge_windows (windows : RetentionConfig) (now : Z) : DbM RetentionCounts :=
  completed ← sweep (purge_completed_with_ttl (cutoff_at now (archived_jobs_ttl_ms windows)));
  dead ← sweep (purge_dead_with_ttl (cutoff_at now (dead_letter_ttl_ms windows)));
  errors ← sweep_past purge_job_errors (cutoff_at now (job_errors_ttl_ms windows));
  metrics ← sweep_past purge_metrics (cutoff_at now (task_metrics_ttl_ms windows));
  logs ← sweep_past purge_task_logs (cutoff_at now (task_logs_ttl_ms windows));
  mret (mkRetentionCounts completed dead logs metrics errors).
End sweep.

(** ** Theorems *)

Section counting.
Context {G : Engine} `{!ScanComplete G} {R : Type}.
Implicit Types (p : R -> bool) (m : gmap string R).

(** A count over a scan is what the deletion of the same rows removes. *)
Lemma count_scan p m :
  count (filter (fun r => Is_true (p r)) (scan m)) = Z.of_nat (size m) - Z.of_nat (size (keep_where p m)).
Proof.
  assert (Hp : forall l l' : list R, l ≡ₚ l' ->
    count (filter (fun r => Is_true (p r)) l) = count (filter (fun r => Is_true (p r)) l')) by (by intros l l' ->).
  rewrite (Hp _ _ (scan_perm _ _ m)). clear Hp. unfold keep_where, count.
  rewrite map_filter_alt, <- !length_map_to_list.
  rewrite (Permutation_length (map_to_list_to_map _ (sublist_NoDup _ _ (NoDup_fst_map_to_list m)
    (fmap_sublist fst _ _ (sublist_filter _ _))))).
  induction (map_to_list m) as [|[k r] l IH]; [done|]. rewrite fmap_cons, !filter_cons. cbn [snd].
  destruct (p r); simpl in *; lia.
Qed.

(** Two passes over disjoint parts count what one pass over both does. *)
Lemma count_scan_or p q m :
  (forall r, p r = true -> q r = false) ->
  count (filter (fun r => Is_true (p r)) (scan m)) + count (filter (fun r => Is_true (q r)) (scan m))
  = count (filter (fun r => Is_true (p r || q r)) (scan m)).
Proof.
  intros Hd. unfold count. induction (scan m) as [|r l IH]; [done|]. rewrite !filter_cons.
  pose proof (Hd r) as Hr. destruct (p r), (q r); simpl in *; lia || by specialize (Hr eq_refl).
Qed.
End counting.

Section sweeps.
Context {E : Env} {G : Engine} `{!UuidFresh E} `{!ScanComplete G}.
Context (Hpool : forall n, pool_ready n = true).

(** What a purge of one table by one predicate leaves, when fewer than its cap are due. *)
Lemma drain_all {R} (t : Table string R) (id_of : R -> string) `{!LawfulTable t} p w :
  keyed id_of (t_get t (db w)) ->
  count (filter (fun r => Is_true (p r)) (scan (t_get t (db w)))) < 100000 ->
  exists n, drain_where t id_of p w
    = (Ok (count (filter (fun r => Is_true (p r)) (scan (t_get t (db w))))),
       mkWorld (t_set t (keep_where p (t_get t (db w))) (db w)) (n + tick w)).
Proof.
  intros Hk Hlt. destruct (drain_where_run t id_of Hpool p w Hk) as (m' & n & Heq & [Hs Hgone] & Hend).
  assert (Hsup : keep_where p (t_get t (db w)) ⊆ m').
  { apply map_subseteq_spec. intros k r [Hr Hp]%keep_where_lookup. destruct (m' !! k) as [r'|] eqn:Hr'.
    - rewrite (lookup_weaken _ _ _ _ Hr' Hs) in Hr. done.
    - by rewrite (Hgone _ _ Hr Hr') in Hp. }
  apply map_subseteq_size in Hsup. rewrite count_scan in *. exists n.
  by rewrite Heq, Hend by lia.
Qed.
End sweeps.

(** What the sweep of the archive selects. *)
Definition archived_due (cutoff : option Z) (now : Z) (r : ArchivedJobRow) : bool :=
  match cutoff with Some c => past_global_cutoff c r | None => false end || past_own_ttl now r.

Definition dead_due (cutoff : option Z) (now : Z) (r : DeadLetterRow) : bool :=
  match cutoff with Some c => dead_past_cutoff c r | None => false end || dead_past_own_ttl now r.

Definition past {R} (p : Z -> R -> bool) (cutoff : option Z) (r : R) : bool :=
  match cutoff with Some c => p c r | None => false end.

(** How many rows of a table satisfy a predicate. *)
Definition rows_due {G : Engine} {R} (p : R -> bool) (m : gmap string R) : Z :=
  count (filter (fun r => Is_true (p r)) (scan m)).

Section tables.
Context {E : Env} {G : Engine} `{!UuidFresh E} `{!ScanComplete G}.
Context (Hpool : forall n, pool_ready n = true).

Lemma purge_completed_all cutoff w :
  wf w -> rows_due (archived_due cutoff (clock_at (tick w))) (db_archived_jobs (db w)) < 100000 ->
  exists w', purge_completed_with_ttl cutoff w
      = (Ok (rows_due (archived_due cutoff (clock_at (tick w))) (db_archived_jobs (db w))), w')
    /\ wf w' /\ db_dead_letter (db w') = db_dead_letter (db w) /\ db_job_errors (db w') = db_job_errors (db w)
    /\ db_task_metrics (db w') = db_task_metrics (db w) /\ db_task_logs (db w') = db_task_logs (db w).
Proof.
  intros Hwf Hlt. destruct (purge_completed_with_ttl_run cutoff w Hwf Hpool)
    as (ids & w' & Heq & Hwf' & Hdb & _ & Hnd & Hids & Hend).
  fold (archived_due cutoff (clock_at (tick w))) in *. set (due := archived_due _ _) in *.
  set (rows := filter (fun r => Is_true (due r)) (scan (db_archived_jobs (db w)))).
  assert (Hrows : forall r, r ∈ rows <-> due r = true /\ db_archived_jobs (db w) !! ar_id r = Some r).
  { intros r. unfold rows. rewrite list_elem_of_filter, Is_true_true, elem_of_scan. split.
    - intros [Hp [k Hr]]. by rewrite (wf_arch_key _ _ _ _ _ Hwf _ _ Hr).
    - intros [Hp Hr]. split; [done|by eexists]. }
  assert (Hsub : forall id, id ∈ ids -> id ∈ ar_id <$> rows).
  { intros id Hid. rewrite Forall_forall in Hids. destruct (Hids id Hid) as (r & Hr & Hd).
    pose proof (wf_arch_key _ _ _ _ _ Hwf _ _ Hr) as Hk. rewrite <- Hk. apply list_elem_of_fmap_2, Hrows. by rewrite Hk. }
  assert (Hle : (length ids <= length rows)%nat).
  { rewrite <- (length_fmap ar_id rows). by apply submseteq_length, NoDup_submseteq. }
  assert (Hnd' : NoDup (ar_id <$> rows)).
  { eapply sublist_NoDup; [exact (scan_NoDup_key ar_id _ (wf_arch_key _ _ _ _ _ Hwf))|]. apply fmap_sublist, sublist_filter. }
  assert (Hlen : count ids = count rows).
  { unfold count. f_equal. rewrite <- (length_fmap ar_id rows). apply Permutation_length.
    apply NoDup_Permutation; [done|done|]. intros id. split; [apply Hsub|].
    intros (r & -> & [Hd Hr]%Hrows)%list_elem_of_fmap. destruct (decide (ar_id r ∈ ids)) as [|Hnin]; [done|].
    unfold rows_due in Hlt. fold rows in Hlt. unfold count in *.
    assert (Hno : due r = false); [|congruence]. apply (Hend ltac:(lia) (ar_id r) r). rewrite Hdb, (proj1 (proj2 (purged_db_tables false ids (db w)))).
    apply keep_where_lookup. split; [done|]. by apply bool_decide_eq_false. }
  exists w'. rewrite Heq, Hlen, Hdb. done.
Qed.

(** A window that is not set selects nothing. *)
Lemma sweep_past_run {R} (t : Table string R) (id_of : R -> string) `{!LawfulTable t} (p : Z -> R -> bool) cutoff w :
  keyed id_of (t_get t (db w)) -> rows_due (past p cutoff) (t_get t (db w)) < 100000 ->
  exists n, match cutoff with Some c => drain_where t id_of (p c) | None => mret 0 end w
    = (Ok (rows_due (past p cutoff) (t_get t (db w))),
       mkWorld (t_set t (keep_where (past p cutoff) (t_get t (db w))) (db w)) (n + tick w)).
Proof.
  intros Hk Hlt. destruct cutoff as [c|]; [by apply drain_all|]. exists 0%nat.
  unfold rows_due, past. rewrite filter_none, keep_where_nothing, table_set_get by (intros; simpl; tauto || done).
  by destruct w.
Qed.

Lemma purge_dead_all cutoff w :
  keyed dl_id (db_dead_letter (db w)) ->
  rows_due (dead_due cutoff (clock_at (tick w))) (db_dead_letter (db w)) < 100000 ->
  exists n, purge_dead_with_ttl cutoff w
    = (Ok (rows_due (dead_due cutoff (clock_at (tick w))) (db_dead_letter (db w))),
       mkWorld (set_dead_letter (keep_where (dead_due cutoff (clock_at (tick w))) (db_dead_letter (db w))) (db w)) n).
Proof.
  intros Hk Hlt. unfold purge_dead_with_ttl. erewrite bind_ok by done.
  fold (clock_at (tick w)). set (now := clock_at (tick w)) in *. change (mkWorld (db w) (S (tick w))) with (bump 1 w).
  assert (Hor : rows_due (past dead_past_cutoff cutoff) (db_dead_letter (db w))
    + rows_due (dead_past_own_ttl now) (db_dead_letter (db w)) = rows_due (dead_due cutoff now) (db_dead_letter (db w))).
  { apply count_scan_or. intros r. unfold past, dead_past_cutoff, dead_past_own_ttl.
    destruct cutoff, (dl_result_ttl_ms r); try done. }
  assert (Hnn : forall (p : DeadLetterRow -> bool) m, 0 <= rows_due p m) by (intros; apply count_nonneg).
  pose proof (Hnn (past dead_past_cutoff cutoff) (db_dead_letter (db w))). pose proof (Hnn (dead_past_own_ttl now) (db_dead_letter (db w))).
  destruct (sweep_past_run dead_letter dl_id dead_past_cutoff cutoff (bump 1 w) Hk ltac:(simpl; lia)) as [n1 Heq1].
  rewrite (bind_ok _ _ _ _ _ Heq1). cbn [db bump dead_letter t_get t_set].
  set (m1 := keep_where (past dead_past_cutoff cutoff) (db_dead_letter (db w))).
  set (w1 := mkWorld _ _).
  assert (Hboth : keep_where (dead_past_own_ttl now) m1 = keep_where (dead_due cutoff now) (db_dead_letter (db w)))
    by apply keep_where_or.
  assert (Hrest : rows_due (dead_past_own_ttl now) m1 = rows_due (dead_past_own_ttl now) (db_dead_letter (db w))).
  { revert Hor. unfold rows_due. rewrite !count_scan, Hboth. fold m1. lia. }
  destruct (drain_all Hpool dead_letter dl_id (dead_past_own_ttl now) w1) as [n2 Heq2].
  { eapply keyed_subset; [exact Hk|apply keep_where_subset]. }
  { unfold w1. simpl. fold (rows_due (dead_past_own_ttl now) m1). lia. }
  rewrite (bind_ok _ _ _ _ _ Heq2). eexists. unfold mret, M_ret. f_equal.
  - f_equal. rewrite <- Hor, <- Hrest. done.
  - unfold w1. cbn [db dead_letter t_get t_set]. change (db_dead_letter (set_dead_letter m1 (db w))) with m1.
    by rewrite Hboth.
Qed.
End tables.

(** *** The preview and the sweep *)

Lemma sanitized_idem c : sanitized (sanitized c) = sanitized c.
Proof.
  assert (H : forall t, keep_window (keep_window t) = keep_window t).
  { intros [t|]; [|done]. simpl. destruct (0 <=? t) eqn:Ht; simpl; by rewrite ?Ht. }
  unfold sanitized. simpl. by rewrite !H.
Qed.

Lemma resolve_sanitized r t : sanitized (resolve_effective_retention r t) = resolve_effective_retention r t.
Proof.
  unfold resolve_effective_retention. destruct r as [r|]; [apply sanitized_idem|].
  destruct t as [t|]; [|done]. destruct (0 <=? t) eqn:Ht; [|done].
  unfold sanitized, uniform. simpl. by rewrite Ht.
Qed.

(** The history tables hold their rows under the ids the rows carry. *)
Definition history_keyed (d : DB) : Prop :=
  keyed dl_id (db_dead_letter d) /\ keyed je_id (db_job_errors d)
  /\ keyed tm_id (db_task_metrics d) /\ keyed tl_id (db_task_logs d).

(** No table has more rows due than one sweep removes. *)
Definition within_cap (c : RetentionCounts) : Prop :=
  rn_archived_jobs c < 100000 /\ rn_dead_letter c < 100000 /\ rn_task_logs c < 100000
  /\ rn_task_metrics c < 100000 /\ rn_job_errors c < 100000.

Section preview_laws.
Context {E : Env} {G : Engine} `{!UuidFresh E} `{!ScanComplete G}.
Context (Hpool : forall n, pool_ready n = true).

(** What a preview counts at [now]. *)
Definition counted (windows : RetentionConfig) (now : Z) (d : DB) : RetentionCounts :=
  mkRetentionCounts
    (rows_due (archived_due (cutoff_at now (archived_jobs_ttl_ms windows)) now) (db_archived_jobs d))
    (rows_due (dead_due (cutoff_at now (dead_letter_ttl_ms windows)) now) (db_dead_letter d))
    (rows_due (past logged_before (cutoff_at now (task_logs_ttl_ms windows))) (db_task_logs d))
    (rows_due (past recorded_before (cutoff_at now (task_metrics_ttl_ms windows))) (db_task_metrics d))
    (rows_due (past failed_before (cutoff_at now (job_errors_ttl_ms windows))) (db_job_errors d)).

Lemma count_past_run {R} (t : Table string R) (p : Z -> R -> bool) cutoff w :
  count_past t p cutoff w = (Ok (rows_due (past p cutoff) (t_get t (db w))), w).
Proof.
  destruct cutoff as [c|]; [done|]. unfold count_past, rows_due, past. rewrite filter_none; [done|].
  intros; simpl; tauto.
Qed.

Lemma count_expired_run windows now w :
  sanitized windows = windows ->
  count_expired_rows (cutoffs windows now) now w = (Ok (counted windows now (db w)), bump 1 w).
Proof.
  intros Hs. unfold count_expired_rows, cutoffs. rewrite Hs. rewrite (bind_ok _ _ _ _ _ (conn_ok w (Hpool _))).
  cbn [co_archived_jobs co_dead_letter co_task_logs co_task_metrics co_job_errors].
  rewrite (bind_ok _ _ _ _ _ (count_past_run archived_jobs _ _ _)).
  erewrite (bind_ok (sql_count archived_jobs _)) by done.
  rewrite (bind_ok _ _ _ _ _ (count_past_run dead_letter _ _ _)).
  erewrite (bind_ok (sql_count dead_letter _)) by done.
  rewrite (bind_ok _ _ _ _ _ (count_past_run task_logs _ _ _)).
  rewrite (bind_ok _ _ _ _ _ (count_past_run task_metrics _ _ _)).
  rewrite (bind_ok _ _ _ _ _ (count_past_run job_errors _ _ _)).
  unfold mret, M_ret. do 2 f_equal. unfold counted. cbn [db bump archived_jobs dead_letter task_logs task_metrics job_errors t_get].
  f_equal.
  - apply count_scan_or. intros r. unfold past, past_global_cutoff, past_own_ttl.
    by destruct (cutoff_at _ _), (ar_result_ttl_ms r).
  - apply count_scan_or. intros r. unfold past, dead_past_cutoff, dead_past_own_ttl.
    by destruct (cutoff_at _ _), (dl_result_ttl_ms r).
Qed.

Lemma sweep_ok (purge : DbM Z) w n w' : purge w = (Ok n, w') -> sweep purge w = (Ok n, w').
Proof. intros Heq. unfold sweep. by rewrite (bind_attempt _ _ _ _ _ Heq). Qed.

Lemma sweep_past_drain {R} (t : Table string R) (id_of : R -> string) `{!LawfulTable t}
    (p : Z -> R -> bool) (purge : Z -> DbM Z) cutoff w :
  (forall c, purge c = drain_where t id_of (p c)) ->
  keyed id_of (t_get t (db w)) -> rows_due (past p cutoff) (t_get t (db w)) < 100000 ->
  exists n, sweep_past purge cutoff w
    = (Ok (rows_due (past p cutoff) (t_get t (db w))),
       mkWorld (t_set t (keep_where (past p cutoff) (t_get t (db w))) (db w)) n).
Proof.
  intros Hpurge Hk Hlt. destruct (sweep_past_run Hpool t id_of p cutoff w Hk Hlt) as [n Heq].
  exists (n + tick w)%nat. destruct cutoff as [c|]; [|exact Heq]. cbn [sweep_past].
  rewrite Hpurge. by apply sweep_ok.
Qed.

Lemma purge_windows_run windows now w :
  (forall n, clock_at n = now) -> wf w -> history_keyed (db w) -> within_cap (counted windows now (db w)) ->
  exists w', purge_windows windows now w = (Ok (counted windows now (db w)), w').
Proof.
  intros Hclock Hwf (Hdl & Hje & Htm & Htl) (Ca & Cd & Cl & Cm & Ce).
  cbn [counted rn_archived_jobs rn_dead_letter rn_task_logs rn_task_metrics rn_job_errors] in *.
  unfold purge_windows.
  destruct (purge_completed_all Hpool (cutoff_at now (archived_jobs_ttl_ms windows)) w Hwf)
    as (w1 & Heq1 & _ & H1d & H1e & H1m & H1l); [by rewrite Hclock|]. rewrite Hclock in Heq1.
  rewrite (bind_ok _ _ _ _ _ (sweep_ok _ _ _ _ Heq1)).
  destruct (purge_dead_all Hpool (cutoff_at now (dead_letter_ttl_ms windows)) w1) as (n2 & Heq2);
    [by rewrite H1d|by rewrite H1d, Hclock|]. rewrite Hclock, H1d in Heq2.
  rewrite (bind_ok _ _ _ _ _ (sweep_ok _ _ _ _ Heq2)). set (w2 := mkWorld _ n2).
  destruct (sweep_past_drain job_errors je_id failed_before purge_job_errors
    (cutoff_at now (job_errors_ttl_ms windows)) w2) as (n3 & Heq3); [done|by cbn; rewrite H1e..|].
  rewrite (bind_ok _ _ _ _ _ Heq3). set (w3 := mkWorld _ n3).
  destruct (sweep_past_drain task_metrics tm_id recorded_before purge_metrics
    (cutoff_at now (task_metrics_ttl_ms windows)) w3) as (n4 & Heq4); [done|by cbn; rewrite H1m..|].
  rewrite (bind_ok _ _ _ _ _ Heq4). set (w4 := mkWorld _ n4).
  destruct (sweep_past_drain task_logs tl_id logged_before purge_task_logs
    (cutoff_at now (task_logs_ttl_ms windows)) w4) as (n5 & Heq5); [done|by cbn; rewrite H1l..|].
  rewrite (bind_ok _ _ _ _ _ Heq5). eexists. unfold mret, M_ret. do 2 f_equal. cbn. by rewrite H1e, H1m, H1l.
Qed.

(** C30: a preview counts what the sweep removes.  At one time, over the same windows, the
    counts of a dry run are exactly what the five purges of the cleanup then report, table by
    table, as long as no table has more due than one sweep removes; and taking the preview
    changes nothing. *)
Theorem dry_run_matches_sweep retention result_ttl_ms namespace now w :
  (forall n, clock_at n = now) -> wf w -> history_keyed (db w) ->
  exists p w1, dry_run retention result_ttl_ms namespace now w = (Ok p, w1) /\ db w1 = db w
    /\ rp_windows p = resolve_effective_retention retention result_ttl_ms
    /\ rp_total p = counts_total (rp_counts p)
    /\ (within_cap (rp_counts p) ->
        exists w2, purge_windows (rp_windows p) now w1 = (Ok (rp_counts p), w2)).
Proof.
  intros Hclock Hwf Hk. unfold dry_run, preview. set (windows := resolve_effective_retention _ _).
  rewrite (bind_ok _ _ _ _ _ (count_expired_run windows now w (resolve_sanitized _ _))).
  eexists _, (bump 1 w). split_and!; [done..|]. cbn [rp_counts rp_windows]. intros Hcap.
  by apply (purge_windows_run windows now (bump 1 w) Hclock (wf_bump 1 w Hwf)).
Qed.
End preview_laws.

(** *** The dashboard's windows *)

(** Each window of a configuration satisfies [P]. *)
Definition each_window (P : Z -> Prop) (c : RetentionConfig) : Prop :=
  Forall (fun f => forall ms, f.2 = Some ms -> P ms) (windows_by_field c).

Lemma too_short_none fields :
  too_short fields = None -> Forall (fun f => forall ms, f.2 = Some ms -> MIN_OVERRIDE_WINDOW_MS <= ms) fields.
Proof.
  induction fields as [|[field [ms|]] fields IH]; simpl; [constructor| |].
  - destruct (Z.ltb_spec ms MIN_OVERRIDE_WINDOW_MS); [done|]. intros H'. constructor; [|by apply IH].
    by intros ms' [= <-].
  - intros H'. constructor; [done|by apply IH].
Qed.

Lemma sanitized_valid c : each_window (fun ms => 0 <= ms) c -> sanitized c = c.
Proof.
  assert (Hw : forall t, (forall ms, t = Some ms -> 0 <= ms) -> keep_window t = t).
  { intros [t|] Ht; [|done]. simpl. by rewrite (proj2 (Z.leb_le _ _)) by (by apply Ht). }
  intros H. unfold each_window, windows_by_field in H. rewrite !Forall_cons in H.
  destruct H as (H1 & H2 & H3 & H4 & H5 & _). destruct c; simpl in *. unfold sanitized. simpl.
  by rewrite !Hw.
Qed.

Section override_laws.
Context {E : Env} {J : RetentionJson} `{!RetentionJsonLaw J}.

Lemma from_request_floor body now o :
  from_request_json body now = Ok o ->
  each_window (fun ms => MIN_OVERRIDE_WINDOW_MS <= ms) (ro_windows o) /\ ro_updated_at o = Some now.
Proof.
  unfold from_request_json. destruct (request_of_json body) as [[source windows]|]; [|done].
  destruct (too_short (windows_by_field windows)) eqn:Hs; [done|]. intros [= <-].
  split; [by apply too_short_none|done].
Qed.

(** The document stored for a namespace. *)
Definition stored_override (d : DB) (namespace : option string) : Result QueueError (option RetentionOverride) :=
  match settings_map d !! retention_override_key namespace with
  | None => Ok None
  | Some raw => match override_of_json raw with Ok o => Ok (Some o) | Err msg => Err (Json msg) end
  end.

Lemma read_retention_override_run namespace w :
  pool_ready (tick w) = true ->
  read_retention_override namespace w = (stored_override (db w) namespace, bump 1 w).
Proof.
  intros Hp. unfold read_retention_override, stored_override.
  pose proof (get_setting_run (retention_override_key namespace) w) as Hg. rewrite Hp in Hg.
  rewrite (bind_ok _ _ _ _ _ Hg). destruct (settings_map (db w) !! _) as [raw|]; [|done].
  by destruct (override_of_json raw).
Qed.

Lemma write_retention_override_run namespace o w :
  settings_keyed (db w) -> pool_ready (tick w) = true ->
  exists w', write_retention_override namespace o w = (Ok tt, w') /\ settings_keyed (db w')
    /\ stored_override (db w') namespace = Ok (Some o)
    /\ forall k, k <> retention_override_key namespace -> settings_map (db w') !! k = settings_map (db w) !! k.
Proof.
  intros Hk Hp. unfold write_retention_override.
  destruct (set_setting_run (retention_override_key namespace) (override_json o) w Hk)
    as (w' & Heq & _ & Hk' & Hm). rewrite Hp in *. exists w'. split_and!; [done|done| |].
  - unfold stored_override. by rewrite Hm, lookup_insert_eq, override_of_json_of.
  - intros k Hne. by rewrite Hm, lookup_insert_ne.
Qed.
End override_laws.

(** ** Examples *)

Section examples.
#[local] Existing Instances demo_engine demo_scan_complete.

(** A clock that stands. *)
Definition still_env (now : Z) : Env := {|
  uuid_v7 := @uuid_v7 demo_env; system_ms _ := now; random_u64 := @random_u64 demo_env;
  pool_ready _ := true; json_object := @json_object demo_env; json_to_string := @json_to_string demo_env
|}.

(** Two log lines of a day ago and one of today. *)
Definition aged_world : World :=
  snd ((write_task_log (E:=still_env 1000) "j" "t" "info" "a" None None ;;
        write_task_log (E:=still_env 1000) "j" "t" "info" "b" None None ;;
        write_task_log (E:=still_env DAY_MS) "j" "t" "info" "c" None None) demo_world).

Lemma aged_world_wf now : wf (E:=still_env now) aged_world.
Proof.
  assert (Hk : keeps (wf (E:=still_env now)) (write_task_log (E:=still_env 1000) "j" "t" "info" "a" None None ;;
        write_task_log (E:=still_env 1000) "j" "t" "info" "b" None None ;;
        write_task_log (E:=still_env DAY_MS) "j" "t" "info" "c" None None)).
  { unfold write_task_log. solve_keeps. }
  unfold aged_world. apply Hk. apply (wf_empty (E:=still_env now) 0).
Qed.

Lemma dry_run_matches_sweep_witness :
  let now := DAY_MS + 2000 in
  exists p w1 w2, dry_run (E:=still_env now) (Some (uniform DAY_MS)) None None now aged_world = (Ok p, w1)
    /\ rp_counts p = mkRetentionCounts 0 0 2 0 0
    /\ purge_windows (E:=still_env now) (rp_windows p) now w1 = (Ok (rp_counts p), w2).
Proof.
  intros now. assert (Hkeyed : history_keyed (db aged_world)).
  { split_and!; apply (bool_decide_eq_true_1 (map_Forall (fun k r => _ r = k) _)); by vm_compute. }
  assert (Hc : match fst (dry_run (E:=still_env now) (Some (uniform DAY_MS)) None None now aged_world) with
    | Ok p => Some (rp_counts p) | Err _ => None end = Some (mkRetentionCounts 0 0 2 0 0)) by by vm_compute.
  destruct (dry_run_matches_sweep (E:=still_env now) (fun _ => eq_refl)
    (Some (uniform DAY_MS)) None None now aged_world (fun _ => eq_refl) (aged_world_wf now) Hkeyed)
    as (p & w1 & Heq & _ & _ & _ & Hsweep).
  rewrite Heq in Hc. cbn [fst] in Hc. injection Hc as Hc.
  destruct Hsweep as [w2 Hw2]; [rewrite Hc; unfold within_cap; cbn; lia|]. by exists p, w1, w2.
Defined.
End examples.
