(* ===== verification/Quota.v ===== *)
(** * Namespace quotas ([quota/], [storage/quota_gate.rs], the enqueue forwarders of
      [storage/mod.rs])

    A namespace's quota is a JSON document among the settings, read through a cache that
    trusts an entry for two seconds.  Every enqueue passes the quotas of the namespaces
    it touches first: over the limit it is refused, or its jobs are dead-lettered as
    shed, and what is left goes to the store. *)
From S2P Require Import Prelude Text Job Db Store Enqueue Listing Stats Resilience Rates Shed.
From S2P Require Import Settings Transitions DeadLetter.

(** ** Keys *)

Definition QUOTA_SETTING_PREFIX : string := "quota:".
Definition DEFAULT_KEY : string := "quota:default".
Definition NAMESPACED_PREFIX : string := "quota:ns:".
Definition DEFAULT_NAMESPACE : string := "default".

Definition quota_key (namespace : option string) : string :=
  match namespace with
  | None => DEFAULT_KEY
  | Some ns => (NAMESPACED_PREFIX +:+ pretty (String.length ns) +:+ ":" +:+ ns)%string
  end.

Definition colon : Ascii.ascii := Ascii.ascii_of_nat 58.

Definition namespace_of_quota_key (key : string) : option (option string) :=
  if bool_decide (key = DEFAULT_KEY) then Some None
  else
    rest ← strip_prefix NAMESPACED_PREFIX key;
    '(len, ns) ← split_once colon rest;
    len ← parse_usize len;
    if Z.of_nat (String.length ns) =? len then Some (Some ns) else None.

Definition enqueue_rate_key (namespace : option string) : string :=
  match namespace with
  | None => "quota::-::enqueue"
  | Some ns => ("quota::" +:+ pretty (String.length ns) +:+ ":" +:+ ns +:+ "::enqueue")%string
  end.

(** ** The document *)

Inductive QuotaOverflow := OverReject | OverDrop.

Definition overflow_parse (s : string) : option QuotaOverflow :=
  if bool_decide (s = "reject"%string) then Some OverReject
  else if bool_decide (s = "drop"%string) then Some OverDrop else None.

Definition overflow_str (o : QuotaOverflow) : string :=
  match o with OverReject => "reject" | OverDrop => "drop" end.

Record NamespaceQuota := mkNamespaceQuota {
  nq_max_pending : option Z;
  nq_on_excess : QuotaOverflow;
  nq_enqueue_rate : option string;
  nq_max_running : option Z;
  nq_max_archived_rows : option Z;
  nq_max_dead_rows : option Z
}.

(** [serde_json] on the document; [quota_of_json] answers with the parser's message when
    the text is not such a document. *)
Class QuotaJson := {
  quota_of_json : string -> Result string NamespaceQuota;
  quota_json : NamespaceQuota -> string
}.

(** What is written reads back. *)
Class QuotaJsonLaw (J : QuotaJson) : Prop :=
  quota_of_json_of : forall q, quota_of_json (quota_json q) = Ok q.

Section document.
Context {X : Texts} {J : QuotaJson}.

Definition negative (v : option Z) : bool := from_option (fun v => v <? 0) false v.

(** The first field that is negative. *)
Fixpoint first_negative (fields : list (string * option Z)) : option string :=
  match fields with
  | [] => None
  | (field, v) :: fields => if negative v then Some field else first_negative fields
  end.

Definition quota_validate (q : NamespaceQuota) : Result QueueError unit :=
  match first_negative [("max_pending"%string, nq_max_pending q);
    ("max_running"%string, nq_max_running q); ("max_archived_rows"%string, nq_max_archived_rows q);
    ("max_dead_rows"%string, nq_max_dead_rows q)] with
  | Some field => Err (Config ("namespace quota " +:+ field +:+ " must not be negative"))
  | None =>
      match nq_enqueue_rate q with
      | Some rate =>
          match rate_parse rate with
          | Some _ => Ok tt
          | None => Err (Config ("namespace quota enqueue_rate " +:+ str_debug rate
              +:+ " is not a rate like " +:+ String (Ascii.ascii_of_nat 34) ("100/s"
              +:+ String (Ascii.ascii_of_nat 34) "")))
          end
      | None => Ok tt
      end
  end.

Definition quota_from_json (raw : string) : Result QueueError NamespaceQuota :=
  match quota_of_json raw with
  | Err e => Err (Config ("invalid namespace quota: " +:+ e))
  | Ok q => match quota_validate q with Ok _ => Ok q | Err e => Err e end
  end.

Definition quota_to_json (q : NamespaceQuota) : Result QueueError string :=
  match quota_validate q with Ok _ => Ok (quota_json q) | Err e => Err e end.

Definition enqueue_rate_config (q : NamespaceQuota) : option RateLimitConfig :=
  nq_enqueue_rate q ≫= rate_parse.

Definition is_unlimited (q : NamespaceQuota) : bool :=
  bool_decide (nq_max_pending q = None) && bool_decide (nq_enqueue_rate q = None)
  && bool_decide (nq_max_running q = None) && bool_decide (nq_max_archived_rows q = None)
  && bool_decide (nq_max_dead_rows q = None).
End document.

(** ** The cache *)

(** [Instant::now], in nanoseconds. *)
Class Monotonic := { instant_ns : nat -> Z }.

(** The clock of instants never goes back. *)
Class MonotonicLaw (T : Monotonic) : Prop :=
  instant_mono : forall n n', (n <= n')%nat -> instant_ns n <= instant_ns n'.

Definition QUOTA_CACHE_TTL : Z := 2000000000.

Definition QuotaCache : Type := gmap (option string) (Z * option NamespaceQuota).

Notation GateM := (M (QuotaCache * World) QueueError).

(** A call of the store below the cache. *)
Definition in_store {A} (m : DbM A) : GateM A := fun '(c, w) =>
  let '(r, w') := m w in (r, (c, w')).

Section cache.
Context {E : Env} {G : Engine} {X : Texts} {J : QuotaJson} {T : Monotonic}.

Definition read_quota (namespace : option string) : DbM (option NamespaceQuota) :=
  raw ← get_setting (quota_key namespace);
  match raw with
  | None => mret None
  | Some raw =>
      match quota_from_json raw with
      | Ok q => mret (Some q)
      | Err e => throw (Config ("quota for namespace " +:+ default DEFAULT_NAMESPACE namespace
          +:+ " is unreadable, refusing rather than running unlimited: " +:+ error_text e))
      end
  end.

Definition cache_insert (namespace : option string) (q : option NamespaceQuota) : GateM unit :=
  now ← in_store (draw instant_ns);
  modify (fun '(c, w) => (<[namespace := (now, q)]> c, w)).

(** A hit: an entry read less than the trusted time ago. *)
Definition cache_hit (namespace : option string) : GateM (option (option NamespaceQuota)) :=
  entry ← gets (fun '(c, _) => (c : QuotaCache) !! namespace);
  match entry with
  | Some (read_at, quota) =>
      now ← in_store (draw instant_ns);
      mret (if Z.max 0 (now - read_at) <? QUOTA_CACHE_TTL then Some quota else None)
  | None => mret None
  end.

Definition cache_get (namespace : option string) : GateM (option NamespaceQuota) :=
  hit ← cache_hit namespace;
  match hit with
  | Some quota => mret quota
  | None =>
      quota ← in_store (read_quota namespace);
      cache_insert namespace quota ;;
      mret quota
  end.

Definition invalidate (namespace : option string) : GateM unit :=
  modify (fun '(c, w) => (delete namespace c, w)).

(** ** Setting quotas *)

Definition namespace_quota (namespace : option string) : GateM (option NamespaceQuota) :=
  in_store (read_quota namespace).

Definition set_namespace_quota (namespace : option string) (q : NamespaceQuota) : GateM unit :=
  match quota_to_json q with
  | Err e => throw e
  | Ok json =>
      in_store (set_setting (quota_key namespace) json) ;;
      invalidate namespace
  end.

Definition clear_namespace_quota (namespace : option string) : GateM bool :=
  removed ← in_store (delete_setting (quota_key namespace));
  invalidate namespace ;;
  mret removed.

(** ** Admission *)

Inductive Excess :=
  | ExcessDepth (queue : string) (pending cap : Z)
  | ExcessRate (rate : string).

Definition excess_error (x : Excess) (namespace : option string) : QueueError :=
  match x with
  | ExcessDepth queue pending cap => QueueFull queue pending cap
  | ExcessRate rate => RateLimitExceeded ("namespace '" +:+ default DEFAULT_NAMESPACE namespace
      +:+ "' enqueue_rate " +:+ rate)
  end.

Definition shed_reason (x : Excess) (namespace : option string) : string :=
  let namespace := default DEFAULT_NAMESPACE namespace in
  match x with
  | ExcessDepth _ pending cap => (QUOTA_REASON_PREFIX +:+ " namespace '" +:+ namespace
      +:+ "' is at max_pending " +:+ pretty cap +:+ " (" +:+ pretty pending
      +:+ " pending), and its on_excess is drop")%string
  | ExcessRate rate => (QUOTA_REASON_PREFIX +:+ " namespace '" +:+ namespace
      +:+ "' is over enqueue_rate " +:+ rate +:+ ", and its on_excess is drop")%string
  end.

(** The limits of one namespace on the jobs of a call at [positions], which is not
    empty: [queue] is the queue of the first. *)
Definition excess (q : NamespaceQuota) (namespace : option string) (queue : string)
    (positions : list nat) : DbM (option Excess) :=
  let incoming := count positions in
  over ← match nq_max_pending q with
    | Some cap =>
        pending ← count_by_namespace namespace Pending;
        mret (if cap <? sat_add_i64 pending incoming then Some (ExcessDepth queue pending cap)
              else None)
    | None => mret None
    end;
  match over with
  | Some x => mret (Some x)
  | None =>
      match nq_enqueue_rate q, enqueue_rate_config q with
      | Some rate, Some config =>
          admitted ← try_acquire_tokens (enqueue_rate_key namespace) (Z.min incoming u32_max)
            (rc_max_tokens config) (rc_refill_rate config);
          mret (if (admitted : bool) then None else Some (ExcessRate rate))
      | _, _ => mret None
      end
  end.

(** [BTreeMap<Option<&str>, Vec<usize>>]: the default namespace first. *)
Definition namespace_cmp (a b : option string) : comparison :=
  match a, b with
  | None, None => Eq
  | None, Some _ => Lt
  | Some _, None => Gt
  | Some a, Some b => String.compare a b
  end.

(** The places of the jobs of a namespace. *)
Definition positions_of (new_jobs : list NewJob) (namespace : option string) : list nat :=
  fst <$> filter (fun x => nj_namespace (snd x) = namespace) (imap pair new_jobs).

(** In key order, each namespace once with the places pushed for it. *)
Definition by_namespace (new_jobs : list NewJob) : list (option string * list nat) :=
  (fun ns => (ns, positions_of new_jobs ns)) <$>
    order_by namespace_cmp (remove_dups (nj_namespace <$> new_jobs)).

(** One namespace of the call. *)
Definition admit_namespace (new_jobs : list NewJob) (verdicts : list (option string))
    (group : option string * list nat) : GateM (list (option string)) :=
  let '(namespace, positions) := group in
  quota ← cache_get namespace;
  match quota with
  | None => mret verdicts
  | Some quota =>
      let queue := from_option nj_queue ""%string (head positions ≫= (new_jobs !!.)) in
      over ← in_store (excess quota namespace queue positions);
      match over with
      | None => mret verdicts
      | Some x =>
          match nq_on_excess quota with
          | OverReject => throw (excess_error x namespace)
          | OverDrop =>
              mret (foldl (fun v i => <[i := Some (shed_reason x namespace)]> v) verdicts positions)
          end
      end
  end.

Definition quota_admit (new_jobs : list NewJob) : GateM (list (option string)) :=
  foldM (admit_namespace new_jobs) (replicate (length new_jobs) None) (by_namespace new_jobs).

(** ** The gate *)

Definition shed_copy (new_job : NewJob) (reason : string) : DbM Job :=
  job ← into_job new_job;
  now ← now_millis;
  mret (unkeyed (j_with_completed_at (Some now) (j_with_error (Some reason) (j_with_status Dead job)))).

(** The jobs that go on, with their places, and the copies of those that do not. *)
Fixpoint split_verdicts (i : nat) (jobs : list (NewJob * option string))
    : DbM (list (nat * NewJob) * list (nat * Job)) :=
  match jobs with
  | [] => mret ([], [])
  | (new_job, None) :: jobs =>
      '(admitted, dead) ← split_verdicts (S i) jobs;
      mret ((i, new_job) :: admitted, dead)
  | (new_job, Some reason) :: jobs =>
      job ← shed_copy new_job reason;
      '(admitted, dead) ← split_verdicts (S i) jobs;
      mret (admitted, (i, job) :: dead)
  end.

Definition fill_slots {R} (slots : list (option R)) (answers : list (nat * R)) : list (option R) :=
  foldl (fun slots '(i, r) => <[i := Some r]> slots) slots answers.

(** The part of a call that sheds: some jobs go through the door, the others are
    dead-lettered.  A failure to record those is reported only if nothing went through. *)
Definition shed_rest {R} (enqueue : list NewJob -> DbM (list R)) (shed : Job -> R)
    (new_jobs : list NewJob) (verdicts : list (option string)) : GateM (list R) :=
  '(admitted, dead) ← in_store (split_verdicts 0 (zip new_jobs verdicts));
  let results : list (option R) := replicate (length new_jobs) None in
  let committed := negb (bool_decide (admitted.*1 = [])) in
  results ← in_store (if committed then
      answers ← enqueue (admitted.*2);
      mret (fill_slots results (zip (admitted.*1) answers))
    else mret results);
  recorded ← attempt (in_store (shed_new_jobs (dead.*2) (Some QUOTA_SHED_METADATA)));
  match recorded with
  | Err e => if committed then mret tt else throw e
  | Ok _ => mret tt
  end ;;
  mret (omap id (fill_slots results (prod_map id shed <$> dead))).

Definition with_quota {R} (new_jobs : list NewJob) (enqueue : list NewJob -> DbM (list R))
    (shed : Job -> R) : GateM (list R) :=
  verdicts ← quota_admit new_jobs;
  if forallb (fun v => bool_decide (v = None)) verdicts then in_store (enqueue new_jobs)
  else shed_rest enqueue shed new_jobs verdicts.

Definition single {R} (results : list R) : GateM R :=
  match last results with
  | Some r => mret r
  | None => throw (Other "enqueue returned no job")
  end.

(** ** The enqueue doors *)

(** [admitted.remove(0)]: the gate hands on the one job it was given, or does not call. *)
Definition first_admitted {R} (f : NewJob -> DbM R) (admitted : list NewJob) : DbM (list R) :=
  match admitted with
  | nj :: _ => r ← f nj; mret [r]
  | [] => throw (Other "removal index (is 0) should be < len (is 0)")
  end.

Definition gated_enqueue (new_job : NewJob) : GateM Job :=
  jobs ← with_quota [new_job] (first_admitted enqueue) id;
  single jobs.

Definition gated_enqueue_batch (new_jobs : list NewJob) : GateM (list Job) :=
  with_quota new_jobs enqueue_batch id.

Definition gated_enqueue_unique_reporting (new_job : NewJob) : GateM (Job * bool) :=
  jobs ← with_quota [new_job] (first_admitted enqueue_unique_reporting) (fun shed => (shed, false));
  single jobs.

Definition gated_enqueue_unique (new_job : NewJob) : GateM Job :=
  r ← gated_enqueue_unique_reporting new_job; mret (fst r).

Definition gated_enqueue_debounced (new_job : NewJob) (options : DebounceOptions) : GateM Job :=
  jobs ← with_quota [new_job] (first_admitted (fun nj => enqueue_debounced nj options)) id;
  single jobs.

Definition gated_enqueue_unique_batch_reporting (new_jobs : list NewJob)
    : GateM (list (Job * bool)) :=
  with_quota new_jobs enqueue_unique_batch_reporting (fun shed => (shed, false)).

Definition gated_enqueue_unique_batch (new_jobs : list NewJob) : GateM (list Job) :=
  l ← gated_enqueue_unique_batch_reporting new_jobs; mret (fst <$> l).
End cache.

(** ** Pending jobs of a namespace *)

Definition row_pending (ns : option string) (r : JobRow) : bool :=
  (jr_status r =? as_int Pending) && same_namespace (jr_namespace r) ns.

Definition pending_rows (ns : option string) (m : gmap string JobRow) : Z :=
  count (filter (fun r => Is_true (row_pending ns r)) (map_to_list m).*2).

Definition pending_in (ns : option string) (d : DB) : Z := pending_rows ns (db_jobs d).

Definition one_if (b : bool) : Z := if b then 1 else 0.

Lemma pending_fresh ns k r m :
  m !! k = None -> pending_rows ns (<[k := r]> m) = one_if (row_pending ns r) + pending_rows ns m.
Proof.
  intros Hk. unfold pending_rows. rewrite (map_to_list_insert _ _ _ Hk). rewrite fmap_cons, filter_cons.
  simpl. unfold count, one_if. destruct (row_pending ns r); simpl; lia.
Qed.

Lemma pending_delete ns k m : pending_rows ns (delete k m) <= pending_rows ns m.
Proof.
  destruct (m !! k) as [r|] eqn:Hk; [|by rewrite delete_id].
  rewrite <- (insert_delete_id m k r Hk) at 2. rewrite pending_fresh by apply lookup_delete_eq.
  unfold one_if. destruct (row_pending ns r); lia.
Qed.

Lemma pending_insert ns k r m :
  pending_rows ns (<[k := r]> m) <= pending_rows ns m + one_if (row_pending ns r).
Proof.
  rewrite <- insert_delete_eq, pending_fresh by apply lookup_delete_eq. pose proof (pending_delete ns k m). lia.
Qed.

(** Replacing a row by one that is pending only if it was. *)
Lemma pending_replace ns k r r' m :
  m !! k = Some r -> (row_pending ns r' = true -> row_pending ns r = true) ->
  pending_rows ns (<[k := r']> m) <= pending_rows ns m.
Proof.
  intros Hk Hr. rewrite <- (insert_delete_id m k r Hk) at 2. rewrite <- insert_delete_eq.
  rewrite !pending_fresh by apply lookup_delete_eq. unfold one_if.
  destruct (row_pending ns r'); [rewrite Hr by done|destruct (row_pending ns r)]; lia.
Qed.

(** *** Growth *)

Section growth.
Context {E : Env} {G : Engine} (ns : option string).

(** At most [k] more pending jobs when the call succeeds. *)
Definition grows_ok {A} (k : Z) (m : DbM A) : Prop :=
  forall w a w', m w = (Ok a, w') -> pending_in ns (db w') <= pending_in ns (db w) + k.

(** And none when it fails. *)
Definition grows {A} (k : Z) (m : DbM A) : Prop :=
  grows_ok k m /\ forall w e w', m w = (Err e, w') -> pending_in ns (db w') <= pending_in ns (db w).

Definition at_most (B : Z) (w : World) : Prop := pending_in ns (db w) <= B.

#[global] Instance at_most_mono B : TickMono (at_most B).
Proof. by intros d n n'. Qed.

Lemma grows_keeps {A} (m : DbM A) : (forall B, keeps (at_most B) m) -> grows 0 m.
Proof.
  intros Hm. split; intros w x w' Hrun; specialize (Hm _ w (Z.le_refl _)); rewrite Hrun in Hm;
    unfold at_most in Hm; simpl in Hm; lia.
Qed.

Lemma grows_weaken {A} k k' (m : DbM A) : k <= k' -> grows_ok k m -> grows_ok k' m.
Proof. intros Hk Hm w a w' Hrun. specialize (Hm w a w' Hrun). lia. Qed.

Lemma grows_ok_bind {A B} k k' (m : DbM A) (f : A -> DbM B) :
  grows_ok k m -> (forall a, grows_ok k' (f a)) -> grows_ok (k + k') (m ≫= f).
Proof.
  intros Hm Hf w b w' (a & w1 & H1 & H2)%bind_inv_ok. specialize (Hm _ _ _ H1). specialize (Hf _ _ _ _ H2). lia.
Qed.

Lemma grows_ok_then {A B} k (m : DbM A) (f : A -> DbM B) :
  grows_ok 0 m -> (forall a, grows_ok k (f a)) -> grows_ok k (m ≫= f).
Proof. intros Hm Hf. rewrite <- (Z.add_0_l k). by apply grows_ok_bind. Qed.

Lemma grows_bind {A B} k (m : DbM A) (f : A -> DbM B) :
  grows 0 m -> (forall a, grows k (f a)) -> grows k (m ≫= f).
Proof.
  intros [Hm Hme] Hf. split.
  - apply grows_ok_then; [done|]. intros a. apply Hf.
  - intros w e w' [(a & w1 & H1 & H2)|(e' & H1 & _)]%bind_inv; [|by eapply Hme].
    specialize (Hm _ _ _ H1). destruct (Hf a) as [_ Hfe]. specialize (Hfe _ _ _ H2). lia.
Qed.

Lemma grows_ok_for_each {A} (c : A -> Z) (f : A -> DbM unit) l :
  (forall x, x ∈ l -> grows_ok (c x) (f x)) -> grows_ok (foldr (fun x s => c x + s) 0 l) (for_each f l).
Proof.
  induction l as [|x l IH]; intros Hf.
  { intros w a w' [= <- <-]. simpl. lia. }
  simpl. apply grows_ok_bind; [apply Hf; by left|]. intros _. apply IH. intros y Hy. apply Hf. by right.
Qed.

Lemma grows_ok_for_each_0 {A} (f : A -> DbM unit) l :
  (forall x, x ∈ l -> grows_ok 0 (f x)) -> grows_ok 0 (for_each f l).
Proof.
  intros Hf. eapply grows_weaken; [|exact (grows_ok_for_each (fun _ => 0) f l Hf)].
  clear. induction l; simpl; lia.
Qed.

Lemma grows_ok_mapM {A B} (c : A -> Z) (f : A -> DbM B) l :
  (forall x, x ∈ l -> grows_ok (c x) (f x)) -> grows_ok (foldr (fun x s => c x + s) 0 l) (mapM f l).
Proof.
  induction l as [|x l IH]; intros Hf.
  { intros w a w' [= <- <-]. simpl. lia. }
  simpl. apply grows_ok_bind; [apply Hf; by left|]. intros y.
  rewrite <- (Z.add_0_r (foldr _ _ _)). apply grows_ok_bind.
  - apply IH. intros z Hz. apply Hf. by right.
  - intros ys w b w' [= <- <-]. lia.
Qed.

Lemma grows_transaction {A} k (m : DbM A) : grows_ok k m -> grows k (transaction m).
Proof.
  intros Hm. split; intros w x w'; unfold transaction.
  - destruct (m w) as [[a|e] w1] eqn:Hrun; [|done]. intros [= <- <-]. by eapply Hm.
  - destruct (m w) as [[a|e] w1]; [done|]. intros [= <- <-]. simpl. lia.
Qed.

Lemma grows_write_transaction {A} k (m : DbM A) : grows_ok k m -> grows k (write_transaction m).
Proof.
  intros Hm. apply grows_bind; [|intros _; by apply grows_transaction].
  apply grows_keeps. intros B. eauto with keeps.
Qed.

Lemma grows_map_err {A} k f (m : DbM A) : grows k m -> grows k (map_err f m).
Proof.
  intros [Hm He]. split; intros w x w'; unfold map_err; destruct (m w) as [[a|e] w1] eqn:Hrun;
    intros [= <- <-]; [by eapply Hm|by eapply He].
Qed.

Lemma grows_insert_row k r : grows_ok (one_if (row_pending ns r)) (sql_insert jobs k r).
Proof.
  intros w a w' Hrun. destruct (sql_insert_inv jobs k r w) as [Hi|(_ & _ & Hi)];
    rewrite Hi in Hrun; [done|]. injection Hrun as _ <-. apply pending_insert.
Qed.

Lemma grows_insert_job k r :
  grows_ok (one_if (same_namespace (jr_namespace r) ns)) (sql_insert jobs k r).
Proof.
  eapply grows_weaken; [|apply grows_insert_row]. unfold row_pending, one_if.
  destruct (_ =? _), (same_namespace _ _); simpl; lia.
Qed.


(** Every other table is beside the count. *)
#[global] Instance at_most_deps B : Aside (at_most B) job_dependencies. Proof. by intros m w. Qed.
#[global] Instance at_most_archived B : Aside (at_most B) archived_jobs. Proof. by intros m w. Qed.
#[global] Instance at_most_rates B : Aside (at_most B) rate_limits. Proof. by intros m w. Qed.
#[global] Instance at_most_dead B : Aside (at_most B) dead_letter. Proof. by intros m w. Qed.
#[global] Instance at_most_claims B : Aside (at_most B) execution_claims. Proof. by intros m w. Qed.
#[global] Instance at_most_steps B : Aside (at_most B) job_steps. Proof. by intros m w. Qed.
#[global] Instance at_most_settings B : Aside (at_most B) dashboard_settings. Proof. by intros m w. Qed.
End growth.

(** *** Enqueue doors *)

Definition total {A} (c : A -> Z) (l : list A) : Z := foldr (fun x s => c x + s) 0 l.

Lemma total_Forall2 {A B} (c : A -> Z) (c' : B -> Z) l l' :
  Forall2 (fun x y => c' y = c x) l l' -> total c' l' = total c l.
Proof. induction 1 as [|x y l l' Hxy Hl IH]; [done|]. simpl. by rewrite Hxy, IH. Qed.

(** The jobs of a call that are of a namespace. *)
Definition count_in (ns : option string) (njs : list NewJob) : Z :=
  total (fun nj => one_if (same_namespace (nj_namespace nj) ns)) njs.

Lemma count_in_nonneg ns njs : 0 <= count_in ns njs.
Proof. induction njs as [|nj njs IH]; simpl; [done|]. unfold one_if. destruct (same_namespace _ _); lia. Qed.

(** The settings as one value. *)
Definition settings_are (s : gmap string DashboardSettingRow) (w : World) : Prop :=
  db_dashboard_settings (db w) = s.

(** The sources of the outside have been read [n] times. *)
Definition ticked (n : nat) (w : World) : Prop := (n <= tick w)%nat.

(** What the gate relies on from the enqueue behind it: it keeps the store's invariant and
    the settings, adds no more pending jobs to a namespace than it was given, none if it
    fails, and answers each job of a call of a size it is meant for. *)
Class Door {E : Env} {R} (fits : nat -> Prop) (speaks : NewJob -> R -> Prop)
    (enq : list NewJob -> DbM (list R)) : Prop := {
  door_wf : forall njs, keeps wf (enq njs);
  door_settings : forall s njs, keeps (settings_are s) (enq njs);
  door_tick : forall n njs, keeps (ticked n) (enq njs);
  door_grows : forall ns njs w r w', wf w -> enq njs w = (r, w') ->
    pending_in ns (db w')
    <= pending_in ns (db w) + (if is_ok r then count_in ns njs else 0);
  door_answers : forall njs w l w', wf w -> fits (length njs) -> enq njs w = (Ok l, w') ->
    Forall2 speaks njs l
}.

Section doors.
Context {E : Env} {G : Engine} `{!UuidFresh E} `{!ScanComplete G}.

#[local] Instance ticked_mono n : TickMono (ticked n).
Proof. intros d m m' Hm Hn. unfold ticked in *. simpl in *. lia. Qed.
#[local] Instance ticked_jobs n : Aside (ticked n) jobs. Proof. by intros m w. Qed.
#[local] Instance ticked_deps n : Aside (ticked n) job_dependencies. Proof. by intros m w. Qed.
#[local] Instance settings_are_mono s : TickMono (settings_are s). Proof. by intros d n n'. Qed.
#[local] Instance settings_are_jobs s : Aside (settings_are s) jobs. Proof. by intros m w. Qed.
#[local] Instance settings_are_deps s : Aside (settings_are s) job_dependencies. Proof. by intros m w. Qed.

Definition job_cost (ns : option string) (job : Job) : Z := one_if (same_namespace (j_namespace job) ns).

Lemma grows_insert_with_deps ns job deps : grows_ok ns (job_cost ns job) (insert_job_with_deps job deps).
Proof.
  unfold insert_job_with_deps. rewrite <- (Z.add_0_r (job_cost ns job)). apply grows_ok_bind.
  - apply (grows_insert_job ns _ (inserted_row (new_job_row job (attribution_of job)))).
  - intros _. apply grows_keeps. intros B. unfold insert_job_dependencies. solve_keeps.
Qed.

Lemma grows_validate_insert ns job deps :
  grows_ok ns (job_cost ns job)
    (validate_dependencies deps (j_namespace job) ;; insert_job_with_deps job deps).
Proof.
  apply grows_ok_then; [|intros _; apply grows_insert_with_deps].
  apply grows_keeps. intros B. unfold validate_dependencies, validate_dependency. solve_keeps.
Qed.

Lemma job_cost_nonneg ns job : 0 <= job_cost ns job.
Proof. unfold job_cost, one_if. destruct (same_namespace _ _); lia. Qed.

Lemma grows_unique_step ns job deps : grows_ok ns (job_cost ns job) (enqueue_unique_step job deps).
Proof.
  unfold enqueue_unique_step. apply grows_ok_then.
  { destruct (j_unique_key job); apply grows_keeps; intros B; unfold find_active_by_unique_key; solve_keeps. }
  intros [row|].
  - intros w a w' [= <- <-]. pose proof (job_cost_nonneg ns job). lia.
  - intros w a w' Hrun. apply (grows_validate_insert ns job deps w tt w').
    apply bind_inv_ok in Hrun as ([] & w1 & H1 & Hrun). apply bind_inv_ok in Hrun as ([] & w2 & H2 & [= _ <-]).
    by rewrite (bind_ok _ _ _ _ _ H1).
Qed.

Lemma grows_batch_txn ns js dls : grows_ok ns (total (job_cost ns) js) (enqueue_batch_txn js dls).
Proof.
  unfold enqueue_batch_txn. apply grows_ok_then.
  { apply grows_keeps. intros B. unfold validate_dependency. solve_keeps. }
  intros _. rewrite <- (Z.add_0_r (total _ _)). apply grows_ok_bind.
  - intros w a w'. rewrite for_each_concat, chunks_concat by (unfold BATCH_INSERT_CHUNK; lia).
    rewrite for_each_fmap. apply (grows_ok_for_each ns (job_cost ns)). intros job _.
    apply (grows_insert_job ns _ (inserted_row (new_job_row job (attribution_of job)))).
  - intros _. apply grows_ok_then.
    + apply grows_keeps. intros B. unfold insert_job_dependencies. solve_keeps.
    + intros _ w a w' [= _ <-]. lia.
Qed.

Lemma prepared_cost ns njs js :
  Forall2 (fun nj j => exists id now, j = into_job_at id now nj) njs js ->
  total (job_cost ns) js = count_in ns njs.
Proof.
  intros Hf. apply total_Forall2. eapply Forall2_impl; [exact Hf|]. by intros nj j (id & now & ->).
Qed.

(** The bound a computation with the growth gives the caller. *)
Lemma grows_bound {A} ns k (m : DbM A) w r w' :
  grows ns k m -> m w = (r, w') ->
  pending_in ns (db w') <= pending_in ns (db w) + (if is_ok r then k else 0).
Proof.
  intros [Ho He] Hrun. destruct r as [a|e]; simpl; [by eapply Ho|]. specialize (He _ _ _ Hrun). lia.
Qed.

#[export] Instance enqueue_batch_door :
  Door (fun _ => True) (fun nj j => exists id now, j = into_job_at id now nj) enqueue_batch.
Proof.
  split.
  - apply keeps_enqueue_batch.
  - intros s njs. unfold enqueue_batch. solve_keeps.
  - intros n njs. unfold enqueue_batch. solve_keeps.
  - intros ns njs w r w' Hwf. destruct (mapM_into_job_cases njs w Hwf) as (js & Heq & _ & _ & Hf2).
    unfold enqueue_batch. rewrite (bind_ok _ _ _ _ _ Heq), <- (prepared_cost ns njs js Hf2).
    intros Hrun. refine (grows_bound ns _ _ (bump (2 * length njs) w) r w' _ Hrun).
    apply grows_map_err, grows_write_transaction, grows_batch_txn.
  - intros njs w l w' Hwf _ Hrun. by destruct (enqueue_batch_cases _ _ _ _ Hwf Hrun) as (_ & Hf & _).
Qed.

Lemma grows_unique_batch_attempts ns n ps :
  grows ns (total (fun p => job_cost ns (fst p)) ps) (enqueue_unique_batch_attempts n ps).
Proof.
  induction n as [|n [IH IHe]].
  { split; intros w a w'; [done|]. intros [= _ <-]. lia. }
  assert (Htx : grows ns (total (fun p => job_cost ns (fst p)) ps)
    (write_transaction (mapM (fun '(job, deps) => enqueue_unique_step job deps) ps))).
  { apply grows_write_transaction, (grows_ok_mapM ns (fun p => job_cost ns (fst p))).
    intros [job deps] _. apply grows_unique_step. }
  destruct Htx as [Ho He]. cbn [enqueue_unique_batch_attempts].
  split; intros w x w'; unfold attempt, mbind at 1, M_bind at 1;
    destruct (write_transaction _ w) as [[v|e] w1] eqn:Hrun.
  - intros [= _ <-]. by eapply Ho.
  - specialize (He _ _ _ Hrun). intros Hx.
    assert (enqueue_unique_batch_attempts n ps w1 = (Ok x, w')) as Hrec by by repeat case_match.
    specialize (IH _ _ _ Hrec). lia.
  - done.
  - specialize (He _ _ _ Hrun). intros Hx.
    assert (w' = w1 \/ enqueue_unique_batch_attempts n ps w1 = (Err x, w')) as [->|Hrec]; [|done|].
    { unfold throw in Hx. repeat case_match; first [by right|left; congruence]. }
    specialize (IHe _ _ _ Hrec). lia.
Qed.

#[export] Instance enqueue_unique_batch_door :
  Door (fun _ => True) (fun nj a => snd a = false -> exists id now, fst a = into_job_at id now nj)
    enqueue_unique_batch_reporting.
Proof.
  split.
  - apply keeps_enqueue_unique_batch_reporting.
  - intros s njs. unfold enqueue_unique_batch_reporting. solve_keeps.
  - intros n njs. unfold enqueue_unique_batch_reporting. solve_keeps.
  - intros ns njs w r w' Hwf. destruct (prepare_cases njs w Hwf) as (ps & Heq & _ & _ & Hf2).
    unfold enqueue_unique_batch_reporting. rewrite (bind_ok _ _ _ _ _ Heq). intros Hrun.
    replace (count_in ns njs) with (total (fun p => job_cost ns (fst p)) ps).
    + refine (grows_bound ns _ _ (bump (2 * length njs) w) r w' _ Hrun). apply grows_unique_batch_attempts.
    + apply total_Forall2. eapply Forall2_impl; [exact Hf2|]. by intros nj [j deps] (_ & id & now & Hj); simpl in *; subst.
  - intros njs w l w' Hwf _ Hrun.
    destruct (enqueue_unique_batch_cases _ _ _ _ Hwf Hrun) as (_ & ps & Hans & Hps & _).
    apply Forall2_same_length_lookup_2.
    { by rewrite (Forall2_length _ _ _ Hps), (Forall2_length _ _ _ Hans). }
    intros i nj a Hnj Ha Hdup. destruct (Forall2_lookup_l _ _ _ _ _ Hps Hnj) as (p & Hp & _ & id & now & Hj).
    destruct (Forall2_lookup_lr _ _ _ _ _ _ Hans Hp Ha) as (row & _ & _ & _ & Heq).
    exists id, now. rewrite <- Hj. by apply Heq.
Qed.
End doors.

(** *** Doors for one job *)

Section single_doors.
Context {E : Env} {G : Engine} `{!UuidFresh E} `{!ScanComplete G}.

#[local] Existing Instances ticked_mono ticked_jobs ticked_deps.
#[local] Instance settings_mono s : TickMono (settings_are s). Proof. by intros d n n'. Qed.
#[local] Instance settings_jobs s : Aside (settings_are s) jobs. Proof. by intros m w. Qed.
#[local] Instance settings_deps s : Aside (settings_are s) job_dependencies. Proof. by intros m w. Qed.

(** The growth of a single enqueue in terms of the job it was given. *)
Definition grows_one {R} (f : NewJob -> DbM R) : Prop :=
  forall ns nj w r w', wf w -> f nj w = (r, w') ->
    pending_in ns (db w') <= pending_in ns (db w)
      + (if is_ok r then one_if (same_namespace (nj_namespace nj) ns) else 0).

Lemma first_admitted_door {R} (speaks : NewJob -> R -> Prop) (f : NewJob -> DbM R) :
  (forall nj, keeps wf (f nj)) -> (forall s nj, keeps (settings_are s) (f nj)) ->
  (forall n nj, keeps (ticked n) (f nj)) -> grows_one f ->
  (forall nj w r w', wf w -> f nj w = (Ok r, w') -> speaks nj r) ->
  Door (fun n => n = 1%nat) speaks (first_admitted f).
Proof.
  intros Hwf Hs Ht Hg Ha. split.
  - intros [|nj njs]; [apply keeps_throw|]. apply keeps_bind; [done|intros r; apply keeps_ret].
  - intros s [|nj njs]; [apply keeps_throw|]. apply keeps_bind; [done|intros r; apply keeps_ret].
  - intros n [|nj njs]; [apply keeps_throw|]. apply keeps_bind; [done|intros r; apply keeps_ret].
  - intros ns [|nj njs] w r w' Hw Hrun.
    { injection Hrun as <- <-. simpl. lia. }
    pose proof (count_in_nonneg ns njs) as Hn. simpl.
    apply bind_inv in Hrun as [(x & w1 & H1 & [= <- <-])|(e & H1 & ->)].
    + specialize (Hg ns _ _ _ _ Hw H1). simpl in *. lia.
    + specialize (Hg ns _ _ _ _ Hw H1). simpl in *. lia.
  - intros [|nj [|nj' njs]] w l w' Hw Hl Hrun; [done| |done].
    apply bind_inv_ok in Hrun as (x & w1 & H1 & [= <- <-]). constructor; [by eapply Ha|constructor].
Qed.

Lemma grows_ret {A} ns (a : A) : grows ns 0 (mret a : DbM A).
Proof. apply grows_keeps. intros B. apply keeps_ret. Qed.

(** A computation that only returns once it is done. *)
Lemma grows_then_ret {A B} ns k (m : DbM A) (b : B) : grows ns k m -> grows ns k (m ;; mret b).
Proof.
  intros [Hm He]. split.
  - intros w x w' (a & w1 & H1 & [= _ <-])%bind_inv_ok. by eapply Hm.
  - intros w e w' [(a & w1 & _ & [=])|(e' & H1 & _)]%bind_inv. by eapply He.
Qed.

Lemma grows_into_job {R} (k : NewJob -> Job -> DbM R) :
  (forall ns nj job, grows ns (job_cost ns job) (k nj job)) ->
  grows_one (fun nj => job ← into_job nj; k nj job).
Proof.
  intros Hk ns nj w r w' Hwf. rewrite (bind_ok _ _ _ _ _ (into_job_eq nj w)). intros Hrun.
  exact (grows_bound ns _ _ (bump 2 w) r w' (Hk ns nj _) Hrun).
Qed.

Lemma grows_unique_attempts ns n job deps :
  grows ns (job_cost ns job) (enqueue_unique_attempts n job deps).
Proof.
  induction n as [|n IH].
  { split; intros w a w'; [done|]. intros [= _ <-]. lia. }
  destruct (grows_write_transaction ns _ _ (grows_unique_step ns job deps)) as [Ho He].
  cbn [enqueue_unique_attempts].
  assert (Hrest : grows ns (job_cost ns job) match j_unique_key job with
    | Some uk => conn ;; existing ← find_active_by_unique_key uk (j_namespace job);
        match existing with
        | Some row => mret (job_of_row row, true)
        | None => enqueue_unique_attempts n job deps
        end
    | None => enqueue_unique_attempts n job deps
    end).
  { destruct (j_unique_key job) as [uk|]; [|done].
    apply grows_bind; [apply grows_keeps; intros B; solve_keeps|intros _].
    apply grows_bind; [apply grows_keeps; intros B; unfold find_active_by_unique_key; solve_keeps|].
    intros [row|]; [|done]. destruct (grows_ret ns (job_of_row row, true)) as [Hr Hre]. split; [|done].
    eapply grows_weaken; [apply job_cost_nonneg|done]. }
  destruct Hrest as [Hro Hre].
  split; intros w x w'; unfold attempt, mbind at 1, M_bind at 1;
    destruct (write_transaction _ w) as [[v|e] w1] eqn:Hrun.
  - intros [= _ <-]. by eapply Ho.
  - specialize (He _ _ _ Hrun). intros Hx. unfold throw in Hx.
    destruct e as [[]| | | | | | | | | | | | | | | | | | | | | |]; try done.
    specialize (Hro _ _ _ Hx). lia.
  - done.
  - specialize (He _ _ _ Hrun). intros Hx. unfold throw in Hx.
    destruct e as [[]| | | | | | | | | | | | | | | | | | | | | |];
      try (injection Hx as _ <-; lia). specialize (Hre _ _ _ Hx). lia.
Qed.

Lemma grows_slide ns job opts c k p :
  grows ns 0 (sql_update jobs k p (debounce_slide job opts c)).
Proof.
  apply grows_keeps. intros B w Hw. unfold sql_update. simpl.
  destruct (db_jobs (db w) !! k) as [r|] eqn:Hr; [|done]. destruct (p r); [|done].
  unfold at_most, pending_in in *. simpl. etrans; [|exact Hw].
  eapply pending_replace; [exact Hr|]. unfold row_pending, debounce_slide.
  by destruct (do_replace_payload opts).
Qed.

Lemma grows_debounced_txn ns job deps opts key :
  grows_ok ns (job_cost ns job) (enqueue_debounced_txn job deps opts key).
Proof.
  pose proof (job_cost_nonneg ns job) as Hc. unfold enqueue_debounced_txn. apply grows_ok_then.
  { apply grows_keeps. intros B. unfold find_debounce_target, lock_debounce_candidates. solve_keeps. }
  intros [pending|].
  - eapply grows_weaken; [exact Hc|]. apply grows_ok_then; [apply grows_slide|]. intros _.
    apply grows_keeps. intros B. solve_keeps.
  - apply grows_ok_then.
    { apply grows_keeps. intros B. unfold validate_dependencies, validate_dependency. solve_keeps. }
    intros _. apply grows_ok_then; [apply grows_keeps; intros B; solve_keeps|]. intros _.
    intros w a w' (x & w1 & H1 & [= _ <-])%bind_inv_ok. by eapply grows_insert_with_deps.
Qed.

#[export] Instance enqueue_door :
  Door (fun n => n = 1%nat) (fun nj j => exists id now, j = into_job_at id now nj) (first_admitted enqueue).
Proof.
  apply first_admitted_door.
  - apply keeps_enqueue.
  - intros s nj. unfold enqueue. solve_keeps.
  - intros n nj. unfold enqueue. solve_keeps.
  - apply (grows_into_job (fun nj job => map_err dependency_not_found (write_transaction (
      validate_dependencies (nj_depends_on nj) (j_namespace job) ;;
      insert_job_with_deps job (nj_depends_on nj))) ;; mret job)).
    intros ns nj job. apply grows_then_ret, grows_map_err, grows_write_transaction, grows_validate_insert.
  - intros nj w r w' Hwf Hrun. rewrite (enqueue_eq nj w Hwf) in Hrun.
    repeat (case_match; [done|]). injection Hrun as <- _. by do 2 eexists.
Qed.

#[export] Instance enqueue_unique_door :
  Door (fun n => n = 1%nat) (fun nj a => snd a = false -> exists id now, fst a = into_job_at id now nj)
    (first_admitted enqueue_unique_reporting).
Proof.
  apply first_admitted_door.
  - apply keeps_enqueue_unique_reporting.
  - intros s nj. unfold enqueue_unique_reporting. solve_keeps.
  - intros n nj. unfold enqueue_unique_reporting. solve_keeps.
  - apply (grows_into_job (fun nj job => enqueue_unique_attempts MAX_ENQUEUE_ATTEMPTS job (nj_depends_on nj))).
    intros ns nj job. apply grows_unique_attempts.
  - intros nj w [j dup] w' Hwf Hrun Hdup. apply enqueue_unique_cases in Hrun as [_ Hrun]; [|done].
    simpl in Hdup. subst dup. destruct Hrun as [-> _]. by do 2 eexists.
Qed.

Lemma keeps_debounced I nj opts :
  TickMono I -> Aside I jobs -> Aside I job_dependencies -> keeps I (enqueue_debounced nj opts).
Proof.
  intros ? ? ?. unfold enqueue_debounced. apply keeps_bind; [by intros w Hw|]. intros key.
  apply keeps_bind; [apply keeps_into_job, _|intros job0].
  apply keeps_bind; [apply keeps_now_millis, _|intros now].
  apply keeps_map_err, keeps_write_transaction; [apply _|].
  unfold enqueue_debounced_txn, find_debounce_target, lock_debounce_candidates. solve_keeps.
Qed.

#[export] Instance enqueue_debounced_door opts :
  Door (fun n => n = 1%nat) (fun _ _ => True) (first_admitted (fun nj => enqueue_debounced nj opts)).
Proof.
  apply first_admitted_door; [| | | |done].
  - intros nj. apply keeps_enqueue_debounced.
  - intros s nj. apply keeps_debounced; apply _.
  - intros n nj. apply keeps_debounced; apply _.
  - intros ns nj w r w' Hwf. unfold enqueue_debounced, from_result, mbind at 1, M_bind at 1.
    destruct (validated_debounce_key nj opts) as [key|e].
    2:{ intros [= <- <-]. simpl. lia. }
    rewrite (bind_ok _ _ _ _ _ (into_job_eq nj w)). erewrite bind_ok by done. intros Hrun.
    exact (grows_bound ns _ _ (bump 3 w) r w' (grows_map_err ns _ _ _ (grows_write_transaction ns _ _
      (grows_debounced_txn ns _ _ opts key))) Hrun).
Qed.
End single_doors.

(** ** What the gate reads *)

Section gate.
Context {E : Env} {G : Engine} {X : Texts} {J : QuotaJson} {T : Monotonic}.
Context `{!UuidFresh E} `{!ScanComplete G}.

(** The quota the settings hold for a namespace. *)
Definition stored_quota (d : DB) (ns : option string) : Result QueueError (option NamespaceQuota) :=
  match settings_map d !! quota_key ns with
  | None => Ok None
  | Some raw =>
      match quota_from_json raw with
      | Ok q => Ok (Some q)
      | Err e => Err (Config ("quota for namespace " +:+ default DEFAULT_NAMESPACE ns
          +:+ " is unreadable, refusing rather than running unlimited: " +:+ error_text e))
      end
  end.

Lemma read_quota_run ns w :
  read_quota ns w = ((if pool_ready (tick w) then stored_quota (db w) ns else Err Pool), bump 1 w).
Proof.
  unfold read_quota, stored_quota. pose proof (get_setting_run (quota_key ns) w) as Hg.
  destruct (pool_ready (tick w)); [|by rewrite (bind_err _ _ _ _ _ Hg)].
  rewrite (bind_ok _ _ _ _ _ Hg). destruct (settings_map (db w) !! _) as [raw|]; [|done].
  by destruct (quota_from_json raw).
Qed.

(** Every cached entry is what the settings hold. *)
Definition coherent (c : QuotaCache) (d : DB) : Prop :=
  forall ns t q, c !! ns = Some (t, q) -> stored_quota d ns = Ok q.

Lemma stored_quota_settings d d' ns :
  db_dashboard_settings d' = db_dashboard_settings d -> stored_quota d' ns = stored_quota d ns.
Proof. intros Hd. unfold stored_quota, settings_map. by rewrite Hd. Qed.

Lemma coherent_settings c d d' :
  db_dashboard_settings d' = db_dashboard_settings d -> coherent c d -> coherent c d'.
Proof. intros Hd Hc ns t q Hq. rewrite (stored_quota_settings d d') by done. by eapply Hc. Qed.

Lemma coherent_insert c d ns t q :
  coherent c d -> stored_quota d ns = Ok q -> coherent (<[ns := (t, q)]> c) d.
Proof. intros Hc Hq ns' t' q' [[<- [= <- <-]]|[_ Hl]]%lookup_insert_Some; [done|by eapply Hc]. Qed.

Lemma coherent_delete c d ns : coherent c d -> coherent (delete ns c) d.
Proof. intros Hc ns' t q [_ Hl]%lookup_delete_Some. by eapply Hc. Qed.

Lemma cache_hit_run ns c w :
  exists o n, cache_hit ns (c, w) = (Ok o, (c, bump n w))
    /\ (forall q, o = Some q -> exists t, c !! ns = Some (t, q)).
Proof.
  unfold cache_hit. destruct (c !! ns) as [[t q]|] eqn:Hc.
  - erewrite bind_ok by done. rewrite Hc. erewrite bind_ok by done.
    eexists. exists 1%nat. split; [done|]. intros q'. case_match; [|done]. intros [= <-]. by exists t.
  - erewrite bind_ok by done. rewrite Hc. exists None, 0%nat. split; [by destruct w|done].
Qed.

Lemma cache_get_run ns c w r c' w' :
  coherent c (db w) -> cache_get ns (c, w) = (r, (c', w')) ->
  coherent c' (db w') /\ (exists n, w' = bump n w)
  /\ (forall q, r = Ok q -> stored_quota (db w) ns = Ok q).
Proof.
  intros Hc. unfold cache_get. destruct (cache_hit_run ns c w) as (o & n & Hhit & Ho).
  rewrite (bind_ok _ _ _ _ _ Hhit). destruct o as [q|].
  { intros [= <- <- <-]. split_and!; [done|by eexists|]. intros q' [= <-].
    destruct (Ho q eq_refl) as [t Ht]. by eapply Hc. }
  assert (Hin : in_store (read_quota ns) (c, bump n w) =
    ((if pool_ready (tick (bump n w)) then stored_quota (db w) ns else Err Pool), (c, bump 1 (bump n w)))).
  { unfold in_store. by rewrite read_quota_run. }
  assert (Hb : forall k, bump k (bump n w) = bump (k + n) w) by (intros k; unfold bump; simpl; f_equal; lia).
  destruct (pool_ready _), (stored_quota (db w) ns) as [q|e] eqn:Hs;
    (rewrite (bind_ok _ _ _ _ _ Hin) || rewrite (bind_err _ _ _ _ _ Hin)).
  - unfold cache_insert. erewrite bind_ok by (erewrite bind_ok by done; done). intros [= <- <- <-].
    split_and!; [by apply coherent_insert|exists (2 + n)%nat; unfold bump; simpl; f_equal; lia|].
    by intros q' [= <-].
  - intros [= <- <- <-]. split_and!; [done|rewrite Hb; by eexists|done].
  - intros [= <- <- <-]. split_and!; [done|rewrite Hb; by eexists|done].
  - intros [= <- <- <-]. split_and!; [done|rewrite Hb; by eexists|done].
Qed.

(** *** One namespace *)

(** The jobs and the settings as one value each. *)
Definition jobs_are (j : gmap string JobRow) (w : World) : Prop := db_jobs (db w) = j.

Lemma excess_pending q ns queue ps w x w' cap :
  excess q ns queue ps w = (Ok x, w') -> x = None ->
  nq_max_pending q = Some cap -> cap < i64_max -> pending_in ns (db w) + count ps <= cap.
Proof.
  intros Hrun -> Hcap Hlt. unfold excess in Hrun. rewrite Hcap in Hrun.
  apply bind_inv_ok in Hrun as (over & w1 & Hover & Hrun).
  unfold count_by_namespace in Hover. apply bind_inv_ok in Hover as (pending & w2 & Hp & [= <- _]).
  apply bind_inv_ok in Hp as ([] & w3 & Hconn & Hp). unfold sql_count in Hp.
  apply bind_inv_ok in Hp as (l & w4 & [= <- _] & [= <- _]).
  assert (db w3 = db w) as Hd.
  { destruct (pool_ready (tick w)) eqn:Hpr; [rewrite (conn_ok _ Hpr) in Hconn|by rewrite (conn_err _ Hpr) in Hconn].
    by injection Hconn as <-. }
  destruct (Z.ltb_spec cap (sat_add_i64 (count (filter (fun r => Is_true ((jr_status r =? as_int Pending)
    && same_namespace (jr_namespace r) ns)) (scan (db_jobs (db w3))))) (count ps))) as [|Hle]; [done|].
  rewrite Hd in Hle. unfold pending_in, pending_rows, row_pending.
  rewrite (scan_perm _ _ (db_jobs (db w))) in Hle.
  unfold sat_add_i64, sat_i64, clamp in Hle. pose proof (count_nonneg ps).
  match type of Hle with context [count ?l] => pose proof (count_nonneg l) end.
  unfold i64_min, i64_max in *. repeat case_match; lia.
Qed.

#[local] Instance jobs_are_mono j : TickMono (jobs_are j). Proof. by intros d n n'. Qed.
#[local] Instance jobs_are_rates j : Aside (jobs_are j) rate_limits. Proof. by intros m w. Qed.
#[local] Instance sets_are_mono s : TickMono (settings_are s). Proof. by intros d n n'. Qed.
#[local] Instance sets_are_rates s : Aside (settings_are s) rate_limits. Proof. by intros m w. Qed.

Lemma excess_keeps I q ns queue ps : TickMono I -> Aside I rate_limits -> keeps I (excess q ns queue ps).
Proof.
  intros ? ?. unfold excess, count_by_namespace, try_acquire_tokens. cbv zeta. apply keeps_bind.
  - solve_keeps.
  - intros [x|]; [apply keeps_ret|]. destruct (nq_enqueue_rate q), (enqueue_rate_config q); try apply keeps_ret.
    apply keeps_bind; [|intros b; apply keeps_ret]. apply keeps_bind; [apply keeps_now_millis, _|intros now].
    apply keeps_write_transaction; [apply _|]. solve_keeps.
Qed.

(** The state of the gate while it decides: the jobs and the settings stand. *)
Definition deciding (j : gmap string JobRow) (s : gmap string DashboardSettingRow)
    (cw : QuotaCache * World) : Prop :=
  wf (snd cw) /\ db_jobs (db (snd cw)) = j /\ db_dashboard_settings (db (snd cw)) = s
  /\ coherent (fst cw) (db (snd cw)).

(** A limit the settings hold leaves room for [k] more. *)
Definition room (d : DB) (ns : option string) (k : Z) : Prop :=
  forall q cap, stored_quota d ns = Ok (Some q) -> nq_max_pending q = Some cap -> cap < i64_max ->
    pending_in ns d + k <= cap.

Lemma deciding_room j s cw d ns k :
  deciding j s cw -> db_jobs d = j -> db_dashboard_settings d = s ->
  room (db (snd cw)) ns k -> room d ns k.
Proof.
  intros (_ & Hj & Hs & _) Hj' Hs' Hr q cap Hq Hcap Hlt. unfold pending_in. rewrite Hj', <- Hj.
  apply (Hr q cap); [|done|done]. by rewrite (stored_quota_settings d) by congruence.
Qed.

(** What became of one namespace's jobs in the verdicts. *)
Definition decided (d : DB) (ns : option string) (ps : list nat) (v : list (option string)) : Prop :=
  ((forall i, i ∈ ps -> v !! i = Some None) /\ room d ns (count ps))
  \/ (exists reason, is_shed_reason (Some reason) = true
        /\ forall i, i ∈ ps -> v !! i = Some (Some reason)).

Definition mark (reason : string) (ps : list nat) (v : list (option string)) : list (option string) :=
  foldl (fun v i => <[i := Some reason]> v) v ps.

Lemma mark_length reason ps v : length (mark reason ps v) = length v.
Proof. revert v. induction ps as [|i ps IH]; intros v; [done|]. simpl. rewrite IH. apply length_insert. Qed.

Lemma mark_out reason ps v i : i ∉ ps -> mark reason ps v !! i = v !! i.
Proof.
  revert v. induction ps as [|j ps IH]; intros v Hi; [done|]. apply not_elem_of_cons in Hi as [Hne Hi].
  simpl. rewrite IH by done. by apply list_lookup_insert_ne.
Qed.

Lemma mark_in reason ps v i :
  i ∈ ps -> (i < length v)%nat -> mark reason ps v !! i = Some (Some reason).
Proof.
  revert v. induction ps as [|j ps IH]; intros v Hi Hl; [by apply not_elem_of_nil in Hi|]. simpl.
  destruct (decide (i ∈ ps)) as [Hin|Hout]; [apply IH; [done|by rewrite length_insert]|].
  assert (i = j) as -> by (apply elem_of_cons in Hi as [?|?]; done).
  rewrite (mark_out reason ps) by done. by apply list_lookup_insert_eq.
Qed.

Lemma quota_reason x ns : is_shed_reason (Some (shed_reason x ns)) = true.
Proof.
  unfold is_shed_reason. apply orb_true_iff. right. destruct x; apply starts_with_app.
Qed.

Lemma admit_namespace_run j s njs v ns ps cw r cw' :
  deciding j s cw -> admit_namespace njs v (ns, ps) cw = (r, cw') ->
  deciding j s cw' /\ forall v', r = Ok v' ->
    (v' = v /\ room (db (snd cw)) ns (count ps))
    \/ (exists reason, is_shed_reason (Some reason) = true /\ v' = mark reason ps v).
Proof.
  destruct cw as [c w]. intros (Hwf & Hj & Hs & Hc). unfold admit_namespace.
  destruct (cache_get ns (c, w)) as [rq [c1 w1]] eqn:Hget.
  destruct (cache_get_run ns c w rq c1 w1 Hc Hget) as (Hc1 & [n ->] & Hq).
  assert (Hd1 : deciding j s (c1, bump n w)) by (split_and!; [by apply wf_bump|done..]).
  destruct rq as [q|e]; [|rewrite (bind_err _ _ _ _ _ Hget); intros [= <- <-]; by split].
  rewrite (bind_ok _ _ _ _ _ Hget). specialize (Hq q eq_refl). destruct q as [q|].
  2:{ intros [= <- <-]. split; [done|]. intros v' [= <-]. left. split; [done|].
      intros q cap Hq'. simpl in Hq'. congruence. }
  match goal with |- (in_store ?m ≫= _) _ = _ -> _ => destruct (m (bump n w)) as [rx w2] eqn:Hex end.
  assert (Hin : in_store (excess q ns (from_option nj_queue "" (head ps ≫= (njs !!.))) ps) (c1, bump n w)
    = (rx, (c1, w2))) by (unfold in_store; by rewrite Hex).
  assert (Hd2 : deciding j s (c1, w2)).
  { pose proof (excess_keeps wf q ns (from_option nj_queue "" (head ps ≫= (njs !!.))) ps _ _
      (bump n w) (wf_bump n _ Hwf)) as Hk1.
    pose proof (excess_keeps (jobs_are j) q ns (from_option nj_queue "" (head ps ≫= (njs !!.))) ps _ _
      (bump n w) Hj) as Hk2.
    pose proof (excess_keeps (settings_are s) q ns (from_option nj_queue "" (head ps ≫= (njs !!.))) ps _ _
      (bump n w) Hs) as Hk3.
    rewrite Hex in Hk1, Hk2, Hk3. split_and!; [done..|]. simpl in *. unfold settings_are in Hk3.
    eapply coherent_settings; [|exact Hc1]. simpl. congruence. }
  destruct rx as [x|e]; [|rewrite (bind_err _ _ _ _ _ Hin); intros [= <- <-]; by split].
  rewrite (bind_ok _ _ _ _ _ Hin). destruct x as [x|].
  - destruct (nq_on_excess q); intros [= <- <-]; (split; [done|]); intros v' [= <-].
    right. eexists. split; [apply (quota_reason x ns)|done].
  - intros [= <- <-]. split; [done|]. intros v' [= <-]. left. split; [done|].
    intros q' cap Hq' Hcap Hlt. simpl in Hq'. assert (q' = q) as -> by congruence.
    exact (excess_pending _ _ _ _ _ _ _ _ Hex eq_refl Hcap Hlt).
Qed.

(** *** The whole call *)

Lemma elem_of_positions njs ns i :
  i ∈ positions_of njs ns <-> exists nj, njs !! i = Some nj /\ nj_namespace nj = ns.
Proof.
  unfold positions_of. rewrite list_elem_of_fmap. split.
  - intros ([k nj] & -> & [Hns Hk]%list_elem_of_filter). apply list_elem_of_lookup in Hk as [m Hm].
    rewrite list_lookup_imap in Hm. apply fmap_Some in Hm as (nj' & Hnj & [= -> ->]). by exists nj'.
  - intros (nj & Hi & Hns). exists (i, nj). split; [done|]. apply list_elem_of_filter. split; [done|].
    apply list_elem_of_lookup. exists i. by rewrite list_lookup_imap, Hi.
Qed.

Lemma positions_disjoint njs ns ns' i :
  i ∈ positions_of njs ns -> i ∈ positions_of njs ns' -> ns = ns'.
Proof. rewrite !elem_of_positions. intros (nj & Hi & <-) (nj' & Hi' & <-). congruence. Qed.

Lemma positions_total njs ns : count (positions_of njs ns) = count_in ns njs.
Proof.
  unfold positions_of. rewrite count_fmap. unfold count_in, count.
  assert (H : forall off, Z.of_nat (length (filter (fun x => nj_namespace (snd x) = ns)
    (imap (fun i nj => ((off + i)%nat, nj)) njs))) = total (fun nj => one_if (same_namespace (nj_namespace nj) ns)) njs).
  { induction njs as [|nj njs IH]; intros off; [done|]. rewrite imap_cons, filter_cons. simpl.
    rewrite (imap_ext _ (fun i nj => ((S off + i)%nat, nj))) by (intros; simpl; f_equal; lia).
    specialize (IH (S off)). unfold same_namespace at 1, one_if at 1. case_decide as Hd.
    - rewrite bool_decide_eq_true_2 by done. cbn [length]. lia.
    - rewrite bool_decide_eq_false_2 by done. lia. }
  exact (H 0%nat).
Qed.

Lemma admit_fold j s njs d l v cw r cw' :
  deciding j s cw -> db_jobs d = j -> db_dashboard_settings d = s ->
  NoDup l -> length v = length njs -> (forall ns i, ns ∈ l -> i ∈ positions_of njs ns -> v !! i = Some None) ->
  foldM (admit_namespace njs) v ((fun ns => (ns, positions_of njs ns)) <$> l) cw = (r, cw') ->
  deciding j s cw' /\ forall v', r = Ok v' ->
    length v' = length njs /\ (forall ns, ns ∈ l -> decided d ns (positions_of njs ns) v')
    /\ (forall i, (forall ns, ns ∈ l -> i ∉ positions_of njs ns) -> v' !! i = v !! i).
Proof.
  intros Hd Hj Hs. revert v cw Hd. induction l as [|ns l IH]; intros v cw Hd Hnd Hlen Hv.
  { intros [= <- <-]. split; [done|]. intros v' [= <-]. split_and!; [done| |done].
    by intros ns ?%not_elem_of_nil. }
  apply NoDup_cons in Hnd as [Hns Hnd]. cbn [foldM fmap list_fmap].
  destruct (admit_namespace njs v (ns, positions_of njs ns) cw) as [r1 cw1] eqn:H1.
  destruct (admit_namespace_run j s njs v ns _ cw r1 cw1 Hd H1) as [Hd1 Hr1].
  destruct r1 as [v1|e]; [|rewrite (bind_err _ _ _ _ _ H1); intros [= <- <-]; by split].
  rewrite (bind_ok _ _ _ _ _ H1). specialize (Hr1 v1 eq_refl).
  assert (Hout : forall i, i ∉ positions_of njs ns -> v1 !! i = v !! i).
  { intros i Hi. destruct Hr1 as [[-> _]|(reason & _ & ->)]; [done|]. by apply mark_out. }
  assert (Hlen1 : length v1 = length njs).
  { destruct Hr1 as [[-> _]|(reason & _ & ->)]; [done|]. by rewrite mark_length. }
  intros Hrun. destruct (IH v1 cw1 Hd1 Hnd Hlen1) as [Hd' Hr'].
  { intros ns' i Hns' Hi. rewrite Hout; [eapply Hv; [by right|done]|].
    intros Hi'. by rewrite (positions_disjoint _ _ _ _ Hi Hi') in Hns'. }
  { exact Hrun. }
  split; [done|]. intros v' ->. destruct (Hr' v' eq_refl) as (Hlen' & Hdec & Hrest).
  assert (Hsame : forall i, i ∈ positions_of njs ns -> v' !! i = v1 !! i).
  { intros i Hi. apply Hrest. intros ns' Hns' Hi'. by rewrite (positions_disjoint _ _ _ _ Hi Hi') in Hns. }
  split_and!; [done| |].
  - intros ns' [->|Hns']%elem_of_cons; [|by apply Hdec]. destruct Hr1 as [[-> Hroom]|(reason & Hsr & ->)].
    + left. split; [|exact (deciding_room j s cw d ns _ Hd Hj Hs Hroom)]. intros i Hi. rewrite Hsame by done. eapply Hv; [by left|done].
    + right. exists reason. split; [done|]. intros i Hi. rewrite Hsame by done. apply mark_in; [done|].
      apply elem_of_positions in Hi as (nj & Hi & _). rewrite Hlen. by eapply lookup_lt_Some.
  - intros i Hi. rewrite Hrest by (intros ns' Hns'; apply Hi; by right). apply Hout, Hi. by left.
Qed.

Lemma admit_run njs c w r cw' :
  wf w -> coherent c (db w) -> quota_admit njs (c, w) = (r, cw') ->
  deciding (db_jobs (db w)) (db_dashboard_settings (db w)) cw' /\ forall v, r = Ok v ->
    length v = length njs /\ forall ns, decided (db w) ns (positions_of njs ns) v \/ positions_of njs ns = [].
Proof.
  intros Hwf Hc Hrun. unfold quota_admit, by_namespace in Hrun.
  eapply (admit_fold _ _ njs (db w)) in Hrun as [Hd Hr]; [|by split_and!|done|done| | |].
  - split; [done|]. intros v ->. destruct (Hr v eq_refl) as (Hlen & Hdec & _). split; [done|].
    intros ns. destruct (decide (positions_of njs ns = [])) as [|Hne]; [by right|left]. apply Hdec.
    apply order_by_elem_of, elem_of_remove_dups. destruct (positions_of njs ns) as [|i ps] eqn:Hp; [done|].
    assert (Hi : i ∈ positions_of njs ns) by (rewrite Hp; by left).
    apply elem_of_positions in Hi as (nj & Hi & <-). by eapply list_elem_of_fmap_2, list_elem_of_lookup_2.
  - rewrite order_by_perm. apply NoDup_remove_dups.
  - apply length_replicate.
  - intros ns i _ Hi. apply elem_of_positions in Hi as (nj & Hi & _).
    apply lookup_replicate_2. by eapply lookup_lt_Some.
Qed.

(** *** Shedding *)

(** One shed job is inserted and archived at once: the net effect is a new archived row. *)
Lemma shed_one_wf job error md now w w' :
  wf w -> (exists i, (i < tick w)%nat /\ j_id job = uuid_v7 i) -> j_unique_key job = None ->
  (sql_insert jobs (j_id job) (row_of job) ;; dead_letter_in job error md true now) w = (Ok tt, w') ->
  wf w' /\ (tick w <= tick w')%nat.
Proof.
  intros Hwf (i & Hi & Hid) Huk Hrun. apply bind_inv_ok in Hrun as ([] & w1 & Hins & Hdl).
  destruct (sql_insert_inv jobs (j_id job) (row_of job) w) as [He|(Hfree & _ & Ho)]; [by rewrite He in Hins|].
  rewrite Ho in Hins. injection Hins as <-. simpl in Hfree.
  unfold dead_letter_in in Hdl. apply bind_inv_ok in Hdl as (dlq & w2 & Hdraw & Hdl). injection Hdraw as <- <-.
  apply bind_inv_ok in Hdl as ([] & w3 & Hins & Hdl).
  match type of Hins with sql_insert dead_letter ?k ?r ?w0 = _ =>
    destruct (sql_insert_inv dead_letter k r w0) as [He|(_ & _ & Ho3)]; [by rewrite He in Hins|] end.
  rewrite Ho3 in Hins. injection Hins as <-. clear Ho Ho3.
  apply bind_inv_ok in Hdl as (row & w4 & Hfind & Hdl). injection Hfind as <- <-.
  cbn [db t_get t_set jobs dead_letter set_jobs db_jobs set_dead_letter] in Hdl. rewrite lookup_insert_eq in Hdl.
  match type of Hdl with archive_job_row ?r ?w0 = _ => set (row := r) in Hdl; set (w3 := w0) in Hdl end.
  assert (Harch : db_archived_jobs (db w3) !! jr_id row = None).
  { unfold archive_job_row in Hdl. apply bind_inv_ok in Hdl as ([] & w5 & Hins & _).
    destruct (sql_insert_inv archived_jobs (jr_id row) (archived_of row) w3) as [He|(Harch & _)]; [|exact Harch].
    by rewrite He in Hins. }
  rewrite (archive_job_row_ok row w3 Harch) in Hdl. injection Hdl as <-.
  split; [|simpl; lia].
  (* the same row inserted as pending, then archived *)
  set (jobp := j_with_status Pending job).
  assert (Hf : fresh_job jobp w) by (split; [done|]; exists i; by split_and!).
  assert (Hwfp : wf (inserted jobp [] w)).
  { apply wf_inserted; [done|done|done|done|]. apply slot_taken_false. intros k r Hk.
    unfold slot_conflict. rewrite unique_slot_row_of by done. simpl. by rewrite Huk. }
  destruct (archive_live (bump 1 (inserted jobp [] w)) (row_of jobp) (dead_row now error (row_of jobp)))
    as [_ Hfin]; [by apply wf_bump|apply lookup_insert_eq|done|done|by eexists|].
  assert (Hj : db_jobs (archive_db row (db w3))
    = db_jobs (archive_db (dead_row now error (row_of jobp)) (db (bump 1 (inserted jobp [] w))))).
  { change (delete (j_id job) (<[j_id job := row_of job]> (db_jobs (db w)))
      = delete (j_id job) (<[j_id job := row_of jobp]> (db_jobs (db w)))). by rewrite !delete_insert_eq. }
  change (wf_tables (tick w3) (db_jobs (archive_db row (db w3))) (db_archived_jobs (archive_db row (db w3)))
    (db_job_dependencies (archive_db row (db w3))) (db_job_steps (archive_db row (db w3)))).
  rewrite Hj. exact Hfin.
Qed.

(** A job the gate made to be dead-lettered. *)
Definition shed_of (n : nat) (nj : NewJob) (reason : string) (job : Job) : Prop :=
  exists i now now', (i < n)%nat /\ job = unkeyed (j_with_completed_at (Some now')
    (j_with_error (Some reason) (j_with_status Dead (into_job_at (uuid_v7 i) now nj)))).

Lemma shed_of_mono n n' nj reason job : (n <= n')%nat -> shed_of n nj reason job -> shed_of n' nj reason job.
Proof. intros Hn (i & now & now' & Hi & ->). exists i, now, now'. split; [lia|done]. Qed.

Definition made (n : nat) (job : Job) : Prop := exists nj reason, shed_of n nj reason job.

(** One step of [shed_new_jobs]. *)
Definition shed_step (md : option string) (now : Z) : Job * string -> DbM unit :=
  fun '(job, error) =>
    sql_insert jobs (j_id (unkeyed job)) (row_of (unkeyed job)) ;;
    dead_letter_in (unkeyed job) error md true now.

Lemma shed_steps_wf md now l w w' :
  wf w -> Forall (fun x => made (tick w) (fst x)) l -> for_each (shed_step md now) l w = (Ok tt, w') ->
  wf w' /\ (tick w <= tick w')%nat.
Proof.
  revert w. induction l as [|[job e] l IH]; intros w Hwf Hm Hrun.
  { injection Hrun as <-. split; [done|lia]. }
  apply Forall_cons in Hm as [(nj & reason & i & now1 & now2 & Hi & Hjob) Hm].
  apply bind_inv_ok in Hrun as ([] & w1 & H1 & Hrun).
  destruct (shed_one_wf (unkeyed job) e md now w w1) as [Hwf1 Ht]; [done| |done|exact H1|].
  { exists i. split; [done|]. simpl in Hjob. by subst job. }
  destruct (IH w1) as [Hwf' Ht']; [done| |done|split; [done|lia]].
  eapply Forall_impl; [exact Hm|]. intros [j e'] (nj' & r' & Hs). exists nj', r'. by eapply shed_of_mono.
Qed.

Lemma shed_steps_grow ns md now l :
  Forall (fun x => j_status (fst x) = Dead) l -> grows_ok ns 0 (for_each (shed_step md now) l).
Proof.
  intros Hl. apply grows_ok_for_each_0. intros [job e] Hin.
  rewrite Forall_forall in Hl. specialize (Hl _ Hin). simpl in Hl. unfold shed_step.
  rewrite <- (Z.add_0_l 0). apply grows_ok_bind.
  - eapply grows_weaken; [|apply grows_insert_row]. unfold row_pending, row_of. simpl. by rewrite Hl.
  - intros _. apply grows_keeps. intros B. unfold dead_letter_in.
    apply keeps_bind; [apply keeps_now_v7, _|intros dlq]. apply keeps_bind; [eauto with keeps|intros _].
    apply keeps_bind; [apply keeps_gets|intros [row|]; [|apply keeps_ret]]. unfold archive_job_row.
    apply keeps_bind; [eauto with keeps|intros _]. apply keeps_bind; [|intros _; solve_keeps].
    intros w1 Hw1. unfold at_most, pending_in in *. etrans; [apply pending_delete|exact Hw1].
Qed.

#[local] Instance ticked_mono' n : TickMono (ticked n).
Proof. intros d m m' Hm Hn. unfold ticked in *. simpl in *. lia. Qed.
#[local] Instance sets_are_jobs s : Aside (settings_are s) jobs. Proof. by intros m w. Qed.
#[local] Instance sets_are_dead s : Aside (settings_are s) dead_letter. Proof. by intros m w. Qed.
#[local] Instance sets_are_arch s : Aside (settings_are s) archived_jobs. Proof. by intros m w. Qed.
#[local] Instance sets_are_steps s : Aside (settings_are s) job_steps. Proof. by intros m w. Qed.
#[local] Instance sets_are_claims s : Aside (settings_are s) execution_claims. Proof. by intros m w. Qed.

Lemma shed_reasons_run dead w r w' :
  shed_reasons dead w = (r, w') -> w' = w /\ forall rs, r = Ok rs -> length rs = length dead.
Proof.
  unfold shed_reasons. revert r. induction dead as [|job dead IH]; intros r Hrun.
  { injection Hrun as <- <-. split; [done|]. by intros rs [= <-]. }
  simpl in Hrun. destruct (j_error job) as [e|].
  2:{ injection Hrun as <- <-. by split. }
  erewrite bind_ok in Hrun by done.
  apply bind_inv in Hrun as [(rs & w1 & H1 & [= <- <-])|(e' & H1 & ->)];
    destruct (IH _ H1) as [-> Hl]; (split; [done|]); [|done].
  intros rs' [= <-]. simpl. by rewrite (Hl rs eq_refl).
Qed.

Lemma shed_new_jobs_run dead md w r w' :
  wf w -> Forall (made (tick w)) dead -> shed_new_jobs dead md w = (r, w') ->
  wf w' /\ db_dashboard_settings (db w') = db_dashboard_settings (db w)
  /\ forall ns, pending_in ns (db w') <= pending_in ns (db w).
Proof.
  intros Hwf Hm Hrun.
  assert (Hset : keeps (settings_are (db_dashboard_settings (db w))) (shed_new_jobs dead md)).
  { unfold shed_new_jobs, shed_reasons, dead_letter_in, archive_job_row. solve_keeps. }
  specialize (Hset w eq_refl). rewrite Hrun in Hset.
  unfold shed_new_jobs in Hrun. apply bind_inv in Hrun as [(rs & w1 & H1 & Hrun)|(e & H1 & ->)].
  2:{ apply shed_reasons_run in H1 as [-> _]. split_and!; [done|done|]. intros ns. lia. }
  apply shed_reasons_run in H1 as [-> Hl]. specialize (Hl rs eq_refl).
  erewrite bind_ok in Hrun by done. set (now := Z.min _ _) in Hrun.
  change (write_transaction (for_each (shed_step md now) (zip dead rs)) (bump 1 w) = (r, w')) in Hrun.
  rewrite write_transaction_eq in Hrun. destruct (pool_ready (tick (bump 1 w))).
  2:{ injection Hrun as <- <-. split_and!; [by apply (wf_bump 2)|done|]. intros ns. simpl. lia. }
  assert (Hm2 : Forall (fun x => made (tick (bump 2 w)) (fst x)) (zip dead rs)).
  { apply Forall_forall. intros [job e] Hin%elem_of_zip_l. rewrite Forall_forall in Hm.
    destruct (Hm _ Hin) as (nj & reason & Hs). exists nj, reason. eapply shed_of_mono; [|exact Hs]. simpl. lia. }
  assert (Hdead : Forall (fun x => j_status (fst x) = Dead) (zip dead rs)).
  { eapply Forall_impl; [exact Hm2|]. by intros [job e] (nj & reason & i & t1 & t2 & _ & ->). }
  change (bump 1 (bump 1 w)) with (bump 2 w) in Hrun.
  destruct (for_each (shed_step md now) (zip dead rs) (bump 2 w)) as [[[]|e] w3] eqn:Hfe;
    injection Hrun as <- <-.
  - destruct (shed_steps_wf md now (zip dead rs) (bump 2 w) w3 (wf_bump 2 _ Hwf) Hm2 Hfe) as [Hwf3 _].
    split_and!; [done|done|]. intros ns.
    pose proof (shed_steps_grow ns md now _ Hdead _ _ _ Hfe) as Hg. simpl in Hg. lia.
  - split_and!; [|done|intros ns; simpl; lia]. destruct w as [d n]. eapply wf_mono; [|exact Hwf]. simpl. lia.
Qed.

(** *** Putting the answers back in place *)

Fixpoint admitted_from (i : nat) (l : list (NewJob * option string)) : list (nat * NewJob) :=
  match l with
  | [] => []
  | (nj, None) :: l => (i, nj) :: admitted_from (S i) l
  | (_, Some _) :: l => admitted_from (S i) l
  end.

Fixpoint shed_from (i : nat) (l : list (NewJob * option string)) : list (nat * (NewJob * string)) :=
  match l with
  | [] => []
  | (_, None) :: l => shed_from (S i) l
  | (nj, Some reason) :: l => (i, (nj, reason)) :: shed_from (S i) l
  end.

(** The copies made for the places that are shed. *)
Definition copies (n : nat) : list (nat * (NewJob * string)) -> list (nat * Job) -> Prop :=
  Forall2 (fun x y => fst y = fst x /\ shed_of n (fst (snd x)) (snd (snd x)) (snd y)).

Lemma copies_mono n n' l l' : (n <= n')%nat -> copies n l l' -> copies n' l l'.
Proof.
  intros Hn Hc. eapply Forall2_impl; [exact Hc|]. intros x y [Hf Hs]. split; [done|by eapply shed_of_mono].
Qed.

Lemma split_verdicts_run i l w :
  exists dead n, split_verdicts i l w = (Ok (admitted_from i l, dead), bump n w)
    /\ copies (n + tick w) (shed_from i l) dead.
Proof.
  revert i w. induction l as [|[nj [reason|]] l IH]; intros i w.
  - exists [], 0%nat. split; [by destruct w|constructor].
  - cbn [split_verdicts admitted_from shed_from].
    assert (Hc : exists job, shed_copy nj reason w = (Ok job, bump 3 w) /\ shed_of (3 + tick w) nj reason job).
    { unfold shed_copy. rewrite (bind_ok _ _ _ _ _ (into_job_eq nj w)). erewrite bind_ok by done.
      eexists. split; [done|]. exists (S (tick w)), (clock_at (tick w)). eexists. split; [lia|done]. }
    destruct Hc as (job & Hj & Hs). rewrite (bind_ok _ _ _ _ _ Hj).
    destruct (IH (S i) (bump 3 w)) as (dead & n & Hrun & Hcp). rewrite (bind_ok _ _ _ _ _ Hrun).
    exists ((i, job) :: dead), (n + 3)%nat. split; [unfold bump; simpl; do 2 f_equal; lia|].
    constructor.
    + split; [done|]. eapply shed_of_mono; [|exact Hs]. lia.
    + eapply copies_mono; [|exact Hcp]. simpl. lia.
  - cbn [split_verdicts admitted_from shed_from]. destruct (IH (S i) w) as (dead & n & Hrun & Hcp).
    rewrite (bind_ok _ _ _ _ _ Hrun). by exists dead, n.
Qed.

Section answers.
Context {R : Type} (speaks : NewJob -> R -> Prop) (shed : Job -> R).

(** The answers of the admitted jobs in their places. *)
Fixpoint place (l : list (NewJob * option string)) (answers : list R) : list (option R) :=
  match l with
  | [] => []
  | (_, None) :: l =>
      match answers with
      | a :: answers => Some a :: place l answers
      | [] => None :: place l []
      end
  | (_, Some _) :: l => None :: place l answers
  end.

Lemma insert_middle {A} (pre : list A) x y l : <[length pre := y]> (pre ++ x :: l) = (pre ++ [y]) ++ l.
Proof. rewrite insert_app_r_alt by lia. rewrite Nat.sub_diag. simpl. by rewrite <- app_assoc. Qed.

Lemma fill_answers l pre (answers : list R) :
  length answers = length (admitted_from (length pre) l) ->
  fill_slots (pre ++ replicate (length l) None) (zip (admitted_from (length pre) l).*1 answers)
  = pre ++ place l answers.
Proof.
  revert pre answers. induction l as [|[nj [reason|]] l IH]; intros pre answers Hl.
  - destruct answers; [done|done].
  - cbn [admitted_from place length replicate] in *.
    specialize (IH (pre ++ [None]) answers). rewrite length_app, Nat.add_1_r, <- !app_assoc in IH. by apply IH.
  - cbn [admitted_from place length replicate fmap list_fmap] in *. destruct answers as [|a answers]; [done|].
    injection Hl as Hl. specialize (IH (pre ++ [Some a]) answers).
    rewrite length_app, Nat.add_1_r in IH. unfold fill_slots in *. simpl.
    rewrite insert_middle, IH by done. by rewrite <- app_assoc.
Qed.

(** An answer for its job: the store's, or the copy that was shed. *)
Definition answered (n : nat) (x : NewJob * option string) (r : R) : Prop :=
  match snd x with
  | None => speaks (fst x) r
  | Some reason => exists job, shed_of n (fst x) reason job /\ r = shed job
  end.

Lemma fill_dead n l pre (answers : list R) dead :
  Forall2 speaks (admitted_from (length pre) l).*2 answers -> copies n (shed_from (length pre) l) dead ->
  exists rs, fill_slots (pre ++ place l answers) (prod_map id shed <$> dead) = pre ++ (Some <$> rs)
    /\ Forall2 (answered n) l rs.
Proof.
  revert pre answers dead. induction l as [|[nj [reason|]] l IH]; intros pre answers dead Ha Hc.
  - inversion Hc. subst. exists []. by split.
  - cbn [admitted_from shed_from place] in *. inversion Hc as [|x [k job] l1 dead' [Hk Hs] Hc']. subst.
    simpl in Hk, Hs. subst k. unfold fill_slots. simpl. rewrite insert_middle. specialize (IH (pre ++ [Some (shed job)]) answers dead').
    rewrite length_app, Nat.add_1_r in IH. destruct (IH Ha Hc') as (rs & Hrs & Hf).
    exists (shed job :: rs). split; [etrans; [exact Hrs|by rewrite <- app_assoc]|].
    constructor; [by exists job|done].
  - cbn [admitted_from shed_from place fmap list_fmap] in *. inversion Ha as [|x a l1 answers' Hx Ha']. subst.
    specialize (IH (pre ++ [Some a]) answers' dead). rewrite length_app, Nat.add_1_r, <- app_assoc in IH.
    destruct (IH Ha' Hc) as (rs & Hrs & Hf). exists (a :: rs). cbn [app] in Hrs. rewrite Hrs, <- app_assoc.
    split; [done|]. by constructor.
Qed.
End answers.

(** *** The bound *)

Lemma count_in_cons ns nj njs :
  count_in ns (nj :: njs) = one_if (same_namespace (nj_namespace nj) ns) + count_in ns njs.
Proof. done. Qed.

Lemma count_in_admitted ns i njs v : count_in ns (admitted_from i (zip njs v)).*2 <= count_in ns njs.
Proof.
  revert i v. induction njs as [|nj njs IH]; intros i v; [done|].
  destruct v as [|[reason|] v]; cbn [zip_with admitted_from]; [apply count_in_nonneg| |].
  - specialize (IH (S i) v). rewrite count_in_cons. unfold one_if. destruct (same_namespace _ _); lia.
  - specialize (IH (S i) v). rewrite fmap_cons, !count_in_cons. simpl. lia.
Qed.

Lemma admitted_elem i njs v k nj :
  (k, nj) ∈ admitted_from i (zip njs v) ->
  exists j, k = (i + j)%nat /\ njs !! j = Some nj /\ v !! j = Some None.
Proof.
  revert i v. induction njs as [|nj' njs IH]; intros i v Hin; [by apply not_elem_of_nil in Hin|].
  destruct v as [|[reason|] v]; cbn [zip zip_with admitted_from] in Hin.
  - by apply not_elem_of_nil in Hin.
  - destruct (IH (S i) v Hin) as (j & -> & Hj & Hv). exists (S j). split_and!; [lia|done|done].
  - apply elem_of_cons in Hin as [[= -> ->]|Hin].
    + exists 0%nat. split_and!; [lia|done|done].
    + destruct (IH (S i) v Hin) as (j & -> & Hj & Hv). exists (S j). split_and!; [lia|done|done].
Qed.

Lemma count_in_none ns njs : (forall nj, nj ∈ njs -> nj_namespace nj <> ns) -> count_in ns njs = 0.
Proof.
  induction njs as [|nj njs IH]; intros Hn; [done|]. simpl. unfold same_namespace, one_if.
  rewrite bool_decide_eq_false_2 by (apply Hn; by left). apply IH. intros x Hx. apply Hn. by right.
Qed.

(** The limit a namespace must not pass. *)
Definition capped (d d' : DB) : Prop :=
  forall ns q cap, stored_quota d ns = Ok (Some q) -> nq_max_pending q = Some cap -> cap < i64_max ->
    pending_in ns d' <= Z.max cap (pending_in ns d).

Lemma decided_capped d d' njs v :
  (forall ns, decided d ns (positions_of njs ns) v \/ positions_of njs ns = []) ->
  (forall ns, pending_in ns d' <= pending_in ns d + count_in ns (admitted_from 0 (zip njs v)).*2) ->
  capped d d'.
Proof.
  intros Hdec Hp ns q cap Hq Hcap Hlt. specialize (Hp ns).
  pose proof (count_in_admitted ns 0 njs v) as Hle. rewrite <- (positions_total njs ns) in Hle.
  destruct (Hdec ns) as [[[_ Hroom]|(reason & _ & Hall)]|Hnil].
  - specialize (Hroom q cap Hq Hcap Hlt). lia.
  - rewrite count_in_none in Hp; [lia|]. intros nj ([k nj'] & -> & Hin)%list_elem_of_fmap Hns.
    apply admitted_elem in Hin as (j & _ & Hj & Hv). simpl in Hns.
    rewrite (Hall j) in Hv; [done|]. apply elem_of_positions. by exists nj'.
  - rewrite Hnil in Hle. change (count []) with 0 in Hle. lia.
Qed.

Lemma admitted_all i njs v :
  length v = length njs -> forallb (fun x => bool_decide (x = None)) v = true ->
  (admitted_from i (zip njs v)).*2 = njs.
Proof.
  revert i v. induction njs as [|nj njs IH]; intros i [|x v] Hl Hall; try done.
  simpl in Hall. apply andb_prop in Hall as [->%bool_decide_eq_true Hall]. simpl. f_equal.
  apply IH; [by injection Hl|done].
Qed.

Section door.
Context {R : Type} (fits : nat -> Prop) (speaks : NewJob -> R -> Prop)
  (enq : list NewJob -> DbM (list R)) `{!Door fits speaks enq} (shed : Job -> R).

Lemma admitted_length i l : (length (admitted_from i l) <= length l)%nat.
Proof. revert i. induction l as [|[nj [x|]] l IH]; intros i; simpl; [done| |]; specialize (IH (S i)); lia. Qed.

Lemma in_store_inv {A} (m : DbM A) c w r cw' :
  in_store m (c, w) = (r, cw') -> exists w', m w = (r, w') /\ cw' = (c, w').
Proof. unfold in_store. destruct (m w) as [r' w']. intros [= <- <-]. by exists w'. Qed.

Lemma answered_all n njs v rs :
  length v = length njs -> forallb (fun x => bool_decide (x = None)) v = true ->
  Forall2 speaks njs rs -> Forall2 (answered speaks shed n) (zip njs v) rs.
Proof.
  intros Hl Hall Hf. revert v Hl Hall. induction Hf as [|nj r njs rs Hr Hf IH]; intros v Hl Hall.
  - destruct v; [|done]. constructor.
  - destruct v as [|x v]; [done|]. simpl in Hall.
    apply andb_prop in Hall as [->%bool_decide_eq_true Hall]. simpl. constructor; [done|].
    apply IH; [by injection Hl|done].
Qed.

(** The admitted part of a call through the door. *)
Lemma door_run njs w r w' :
  wf w -> enq njs w = (r, w') ->
  wf w' /\ (tick w <= tick w')%nat /\ db_dashboard_settings (db w') = db_dashboard_settings (db w)
  /\ forall ns, pending_in ns (db w') <= pending_in ns (db w) + (if is_ok r then count_in ns njs else 0).
Proof.
  intros Hwf Hrun. pose proof (door_wf njs w Hwf) as H1. pose proof (door_tick (tick w) njs w (le_n _)) as H2.
  pose proof (door_settings (db_dashboard_settings (db w)) njs w eq_refl) as H3. rewrite Hrun in H1, H2, H3.
  split_and!; [done|done|done|]. intros ns. by eapply door_grows.
Qed.

Lemma omap_some (rs : list R) : omap id (Some <$> rs) = rs.
Proof. induction rs as [|r rs IH]; [done|]. rewrite fmap_cons. cbn [omap list_omap id]. by f_equal. Qed.

(** What the gate leaves when it returns. *)
Definition gate_answer (njs : list NewJob) (d : DB) (r : Result QueueError (list R)) (w' : World) : Prop :=
  match r with
  | Ok rs => exists v n, length v = length njs
      /\ Forall (fun x => forall reason, x = Some reason -> is_shed_reason (Some reason) = true) v
      /\ Forall2 (answered speaks shed n) (zip njs v) rs
  | Err _ => forall ns, pending_in ns (db w') <= pending_in ns d
  end.

Lemma verdicts_shed njs v d :
  length v = length njs ->
  (forall ns, decided d ns (positions_of njs ns) v \/ positions_of njs ns = []) ->
  Forall (fun x => forall reason, x = Some reason -> is_shed_reason (Some reason) = true) v.
Proof.
  intros Hl Hdec. apply Forall_lookup. intros i x Hx reason ->.
  destruct (lookup_lt_is_Some_2 njs i) as [nj Hnj]; [rewrite <- Hl; by eapply lookup_lt_Some|].
  assert (Hi : i ∈ positions_of njs (nj_namespace nj)) by (apply elem_of_positions; by exists nj).
  destruct (Hdec (nj_namespace nj)) as [[[Hall _]|(reason' & Hs & Hall)]|Hnil].
  - rewrite (Hall _ Hi) in Hx. done.
  - rewrite (Hall _ Hi) in Hx. by injection Hx as ->.
  - rewrite Hnil in Hi. by apply not_elem_of_nil in Hi.
Qed.

(** The jobs that were let through, and their answers. *)
Lemma admitted_run njs v w r w' :
  wf w -> (let n := length (admitted_from 0 (zip njs v)) in n <> 0%nat -> fits n) ->
  let adm := admitted_from 0 (zip njs v) in
  (if negb (bool_decide (adm.*1 = [])) then
     answers ← enq (adm.*2);
     mret (fill_slots (replicate (length (zip njs v)) None) (zip (adm.*1) answers))
   else mret (replicate (length (zip njs v)) None)) w = (r, w') ->
  wf w' /\ (tick w <= tick w')%nat /\ db_dashboard_settings (db w') = db_dashboard_settings (db w)
  /\ (forall ns, pending_in ns (db w')
       <= pending_in ns (db w) + (if is_ok r then count_in ns (adm.*2) else 0))
  /\ forall slots, r = Ok slots -> exists answers, slots = place (zip njs v) answers
       /\ Forall2 speaks (adm.*2) answers.
Proof.
  intros Hwf Hfits adm. case_bool_decide as Hnil; simpl.
  - intros [= <- <-]. apply fmap_nil_inv in Hnil. split_and!; [done|done|done| |].
    + intros ns. rewrite Hnil. simpl. lia.
    + intros slots [= <-]. exists []. rewrite Hnil. split; [|constructor].
      pose proof (fill_answers (R:=R) (zip njs v) [] []) as Hf. simpl in Hf. fold adm in Hf. rewrite Hnil in Hf.
      by apply Hf.
  - assert (Hn : adm <> []) by (intros ->; done).
    intros [(answers & w1 & H1 & [= <- <-])|(e & H1 & ->)]%bind_inv;
      destruct (door_run (adm.*2) w _ _ Hwf H1) as (? & ? & ? & ?); split_and!; try done.
    intros slots [= <-].
    assert (Ha : Forall2 speaks adm.*2 answers).
    { eapply door_answers; [exact Hwf| |exact H1]. rewrite length_fmap. apply Hfits. intros Hz. by apply Hn, nil_length_inv. }
    exists answers. split; [|done]. apply (fill_answers (zip njs v) [] answers). simpl. fold adm.
    by rewrite <- (Forall2_length _ _ _ Ha), length_fmap.
Qed.

Lemma shed_rest_run njs v c w r c' w' :
  wf w -> length v = length njs ->
  (let n := length (admitted_from 0 (zip njs v)) in n <> 0%nat -> fits n) ->
  shed_rest enq shed njs v (c, w) = (r, (c', w')) ->
  wf w' /\ c' = c /\ db_dashboard_settings (db w') = db_dashboard_settings (db w)
  /\ (forall ns, pending_in ns (db w') <= pending_in ns (db w)
       + (if is_ok r then count_in ns (admitted_from 0 (zip njs v)).*2 else 0))
  /\ forall rs, r = Ok rs -> exists n, Forall2 (answered speaks shed n) (zip njs v) rs.
Proof.
  intros Hwf Hlen Hk Hrun. unfold shed_rest in Hrun.
  destruct (split_verdicts_run 0 (zip njs v) w) as (dead & n & Hsplit & Hcp).
  assert (Hin : in_store (split_verdicts 0 (zip njs v)) (c, w)
    = (Ok (admitted_from 0 (zip njs v), dead), (c, bump n w))) by (unfold in_store; by rewrite Hsplit).
  rewrite (bind_ok _ _ _ _ _ Hin) in Hrun. clear Hin Hsplit.
  assert (Hz : length njs = length (zip njs v)) by (rewrite length_zip; lia). rewrite Hz in Hrun.
  set (adm := admitted_from 0 (zip njs v)) in *.
  apply bind_inv in Hrun as [(slots & cw2 & H2 & Hrun)|(e & H2 & ->)].
  2:{ apply in_store_inv in H2 as (w2 & H2 & [= -> ->]).
      by destruct (admitted_run njs v (bump n w) _ w2 (wf_bump n _ Hwf) Hk H2) as (? & _ & ? & ? & _). }
  apply in_store_inv in H2 as (w2 & H2 & ->).
  destruct (admitted_run njs v (bump n w) _ w2 (wf_bump n _ Hwf) Hk H2) as (Hwf2 & Ht2 & Hs2 & Hg2 & Hslots).
  fold adm in Hg2, Hslots. destruct (Hslots slots eq_refl) as (answers & -> & Ha). clear Hslots.
  destruct (shed_new_jobs dead.*2 (Some QUOTA_SHED_METADATA) w2) as [rd w3] eqn:H3.
  assert (Hmade : Forall (made (tick w2)) dead.*2).
  { apply Forall_fmap, Forall_forall. intros y Hy. apply list_elem_of_lookup in Hy as [k Hy].
    destruct (Forall2_lookup_r _ _ _ _ _ Hcp Hy) as (x & _ & _ & Hs). do 2 eexists.
    eapply shed_of_mono; [|exact Hs]. simpl in Ht2. lia. }
  destruct (shed_new_jobs_run _ _ _ _ _ Hwf2 Hmade H3) as (Hwf3 & Hs3 & Hg3).
  assert (Hatt : attempt (in_store (shed_new_jobs dead.*2 (Some QUOTA_SHED_METADATA))) (c, w2)
    = (Ok rd, (c, w3))) by (unfold attempt, in_store; by rewrite H3).
  rewrite (bind_ok _ _ _ _ _ Hatt) in Hrun. cbn [is_ok] in Hg2.
  destruct (fill_dead speaks shed (n + tick w) (zip njs v) [] answers dead Ha Hcp) as (rs & Hrs & Hf).
  assert (Hdone : (r, (c', w')) = (Ok rs, (c, w3)) \/ exists e, adm = [] /\ (r, (c', w')) = (Err e, (c, w3))).
  { rewrite <- Hrun, <- (omap_some rs). cbn [app] in Hrs. rewrite <- Hrs. destruct rd as [u|e]; [by left|].
    case_bool_decide as Hnil; [right|by left]. exists e. by apply fmap_nil_inv in Hnil. }
  clear Hrun. destruct Hdone as [[= -> -> ->]|(e & Hnil & [= -> -> ->])];
    (split_and!; [done|done|by rewrite Hs3| |]).
  - intros ns. specialize (Hg2 ns). specialize (Hg3 ns). simpl in *. lia.
  - intros rs' [= <-]. by exists (n + tick w)%nat.
  - intros ns. specialize (Hg2 ns). specialize (Hg3 ns). rewrite Hnil in Hg2. simpl in *. lia.
  - done.
Qed.

End door.
End gate.

(** ** Keys and documents *)

Lemma quota_key_parse ns :
  from_option (fun s => Z.of_nat (String.length s) <= u64_max) True ns ->
  namespace_of_quota_key (quota_key ns) = Some ns.
Proof.
  destruct ns as [ns|]; simpl; intros Hl; [|by vm_compute]. unfold namespace_of_quota_key.
  rewrite bool_decide_eq_false_2; [|by unfold NAMESPACED_PREFIX, DEFAULT_KEY; rewrite !append_cons].
  rewrite strip_prefix_app. cbn [mbind option_bind].
  change (":" +:+ ns)%string with (String colon ns).
  rewrite split_once_app by by apply lacks_pretty. cbn [mbind option_bind].
  rewrite parse_pretty by done. cbn [mbind option_bind]. by rewrite Z.eqb_refl.
Qed.

(** a quota's setting key names its namespace.  The key reads back as exactly the
    namespace it was made for, the default one included, whatever characters the name
    contains, and it is reserved, so no tenant writes it through the settings API. *)
Theorem quota_key_roundtrip ns :
  from_option (fun s => Z.of_nat (String.length s) <= u64_max) True ns ->
  namespace_of_quota_key (quota_key ns) = Some ns /\ is_reserved_setting_key (quota_key ns) = true.
Proof.
  intros Hl. split; [by apply quota_key_parse|]. unfold is_reserved_setting_key. simpl.
  assert (starts_with "quota:" (quota_key ns) = true) as ->; [|by rewrite !orb_true_r].
  destruct ns as [ns|]; [|by vm_compute].
  apply (starts_with_app "quota:" ("ns:" +:+ pretty (String.length ns) +:+ ":" +:+ ns)).
Qed.

Lemma quota_key_roundtrip_witness :
  namespace_of_quota_key (quota_key (Some "ns:1:a"%string)) = Some (Some "ns:1:a"%string).
Proof. exact (proj1 (quota_key_roundtrip (Some "ns:1:a"%string) ltac:(by vm_compute))). Defined.

Lemma quota_key_inj ns ns' : quota_key ns = quota_key ns' -> ns = ns'.
Proof.
  destruct ns as [ns|], ns' as [ns'|]; simpl; [|done..|done].
  intros Heq%append_inv_head. change (":" +:+ ?s)%string with (String colon s) in Heq.
  apply delimited_split in Heq as [_ ->]; [done|by apply lacks_pretty..].
Qed.

Section setting.
Context {E : Env} {G : Engine} {X : Texts} {J : QuotaJson} {T : Monotonic} `{!QuotaJsonLaw J}.

Lemma cache_hit_none ns c w : c !! ns = None -> cache_hit ns (c, w) = (Ok None, (c, w)).
Proof. intros Hc. unfold cache_hit, gets, mbind, M_bind. by rewrite Hc. Qed.

(** setting a quota takes effect at once.  After a successful set, the settings hold
    exactly that quota for the namespace and the same as before for every other, the
    cache still agrees with the settings, and the next read through the cache, however
    recent the entry it replaces, returns the new quota. *)
Theorem set_quota_takes_effect ns q c w c' w' :
  settings_keyed (db w) -> coherent c (db w) ->
  set_namespace_quota ns q (c, w) = (Ok tt, (c', w')) ->
  settings_keyed (db w') /\ coherent c' (db w') /\ stored_quota (db w') ns = Ok (Some q)
  /\ (forall ns', ns' <> ns -> stored_quota (db w') ns' = stored_quota (db w) ns')
  /\ (forall n, pool_ready n = true -> fst (cache_get ns (c', mkWorld (db w') n)) = Ok (Some q)).
Proof.
  intros Hk Hc. unfold set_namespace_quota, quota_to_json. destruct (quota_validate q) as [[]|e] eqn:Hval; [|done].
  intros ([] & [c1 w1] & H1 & [= <- <-])%bind_inv_ok.
  unfold in_store in H1. destruct (set_setting_run (quota_key ns) (quota_json q) w Hk) as (w2 & Hset & _ & Hk2 & Hm).
  rewrite Hset in H1. destruct (pool_ready (tick w)); [|done]. injection H1 as <- <-.
  assert (Hq : stored_quota (db w2) ns = Ok (Some q)).
  { unfold stored_quota. rewrite Hm, lookup_insert_eq. unfold quota_from_json. by rewrite quota_of_json_of, Hval. }
  assert (Ho : forall ns', ns' <> ns -> stored_quota (db w2) ns' = stored_quota (db w) ns').
  { intros ns' Hne. unfold stored_quota. rewrite Hm, lookup_insert_ne; [done|].
    intros Heq. by apply Hne, quota_key_inj. }
  split_and!; [done| |done|done|].
  - intros ns' t q' [Hne Hl]%lookup_delete_Some. rewrite Ho by done. by eapply Hc.
  - intros n Hn. unfold cache_get.
    rewrite (bind_ok _ _ _ _ _ (cache_hit_none ns _ _ (lookup_delete_eq c ns))).
    erewrite bind_ok by (unfold in_store; rewrite read_quota_run; cbn [tick db]; rewrite Hn, Hq; done).
    done.
Qed.
End setting.

(** *** Examples *)

Definition quota_tuple (q : NamespaceQuota)
    : option Z * bool * option string * option Z * option Z * option Z :=
  (nq_max_pending q, bool_decide (overflow_str (nq_on_excess q) = "drop"%string), nq_enqueue_rate q,
   nq_max_running q, nq_max_archived_rows q, nq_max_dead_rows q).

Definition tuple_quota (t : option Z * bool * option string * option Z * option Z * option Z)
    : NamespaceQuota :=
  let '(p, d, r, m, a, x) := t in mkNamespaceQuota p (if (d : bool) then OverDrop else OverReject) r m a x.

Lemma tuple_quota_tuple q : tuple_quota (quota_tuple q) = q.
Proof. by destruct q as [p [] r m a x]. Qed.

Definition demo_quota_json : QuotaJson := {|
  quota_of_json raw :=
    match decode (A:=option Z * bool * option string * option Z * option Z * option Z) (of_digits raw) with
    | Some t => Ok (tuple_quota t)
    | None => Err "expected value"%string
    end;
  quota_json q := digits (encode (quota_tuple q))
|}.

Lemma demo_quota_json_law : QuotaJsonLaw demo_quota_json.
Proof. intros q. simpl. by rewrite of_digits_digits, decode_encode, tuple_quota_tuple. Qed.

Definition demo_texts : Texts := {|
  diesel_text _ := "diesel"%string; pool_text := "pool"%string; str_debug s := s
|}.

Definition demo_instants : Monotonic := {| instant_ns n := 1000000 * Z.of_nat n |}.

Section examples.
#[local] Existing Instances demo_env demo_engine demo_uuid_fresh demo_scan_complete
  demo_quota_json demo_quota_json_law demo_texts demo_instants.

(** One pending job at most; what is over is dropped. *)
Definition demo_quota : NamespaceQuota := mkNamespaceQuota (Some 1) OverDrop None None None None.

Definition limited_world : QuotaCache * World := snd (set_namespace_quota (Some "acme"%string) demo_quota (∅, demo_world)).

Lemma set_quota_takes_effect_witness :
  stored_quota (db (snd limited_world)) (Some "acme"%string) = Ok (Some demo_quota)
  /\ coherent (fst limited_world) (db (snd limited_world)).
Proof.
  assert (H0 : coherent ∅ (db demo_world)) by (intros ns t q Hl; by destruct (lookup_empty_Some ns (t, q) Hl)).
  destruct (set_quota_takes_effect (Some "acme"%string) demo_quota ∅ demo_world (fst limited_world) (snd limited_world)
    (map_Forall_empty _) H0) as (_ & Hc & Hq & _).
  - rewrite <- surjective_pairing. unfold limited_world.
    rewrite (surjective_pairing (set_namespace_quota (Some "acme"%string) demo_quota (∅, demo_world))) at 1.
    f_equal; by vm_compute.
  - split; [exact Hq|exact Hc].
Defined.

(** Two jobs of the limited namespace, one more than it may have, and one of another. *)
Definition limited_batch : list NewJob :=
  [demo_new_job None None [];
   mkNewJob "default" "mail.send" [] 5 0 3 30000 None None None [] None None None None None;
   demo_new_job None None []].

Definition limited_run := with_quota limited_batch enqueue_batch id limited_world.

Lemma limited_world_ok : wf (snd limited_world) /\ coherent (fst limited_world) (db (snd limited_world)).
Proof.
  split.
  - assert (Hw : wf (mkWorld empty_db (tick (snd limited_world)))) by exact (wf_empty _). exact Hw.
  - intros ns t q Hl. assert (He : fst limited_world = ∅) by by vm_compute.
    rewrite He in Hl. by destruct (lookup_empty_Some ns (t, q) Hl).
Qed.

End examples.
