(* ===== verification/Periodic.v ===== *)
(** * Periodic tasks ([periodic.rs], [diesel_common/periodic.rs], [scheduler/maintenance.rs])

    A schedule is a row named by its namespace and its name, with a cron expression and the
    time it is next due.  A worker declares its schedules when it starts, an operator pauses
    them, and the scheduler enqueues a job for every schedule that is due and advances it. *)
From S2P Require Import Prelude Text Job Db Store Enqueue Settings Resilience Quota.

Definition PERIODIC_DEFAULT_MAX_RETRIES : Z := 3.
Definition PERIODIC_DEFAULT_TIMEOUT_MS : Z := 300000.

(** What a registration writes; [last_run] is not part of it. *)
Record NewPeriodicTask := mkNewPeriodicTask {
  np_name : string;
  np_task_name : string;
  np_cron_expr : string;
  np_args : option bytes;
  np_kwargs : option bytes;
  np_queue : string;
  np_enabled : bool;
  np_next_run : Z;
  np_timezone : option string;
  np_namespace : option string
}.

(** The [cron] and [chrono] crates: parsing an expression and a timezone, the instants a
    timestamp can be converted to, and the first time of a schedule after an instant. *)
Class Cron := {
  CronSchedule : Type;
  Timezone : Type;
  schedule_from_str : string -> Result string CronSchedule;
  tz_from_str : string -> option Timezone;
  timestamp_in_range : Z -> bool;
  schedule_after : CronSchedule -> option Timezone -> Z -> option Z
}.

(** [Schedule::after] yields only times after the instant. *)
Class CronLaw (C : Cron) : Prop :=
  schedule_after_gt : forall s tz t next, schedule_after s tz t = Some next -> t < next.

Definition periodic_job (task : PeriodicTaskRow) (now : Z) (unique_key : option string) : NewJob :=
  mkNewJob (pt_queue task) (pt_task_name task) (default [] (pt_args task)) 0 now
    PERIODIC_DEFAULT_MAX_RETRIES PERIODIC_DEFAULT_TIMEOUT_MS unique_key None None [] None None
    (pt_namespace task) None None.

Definition ensure_kwargs_unset (task : NewPeriodicTask) : Result QueueError unit :=
  match np_kwargs task with
  | None => Ok tt
  | Some _ => Err (Config ("periodic task '" +:+ np_name task
      +:+ "': kwargs is reserved; fold keyword arguments into args"))
  end.

Definition periodic_unique_key (task : PeriodicTaskRow) (now : Z) : string :=
  ("periodic:" +:+ pt_name task +:+ ":" +:+ pretty now)%string.

Section periodic.
Context {E : Env} {G : Engine} {X : Texts} {J : QuotaJson} {T : Monotonic} {C : Cron}.

(** ** Next runs *)

Definition no_next_run (cron_expr : string) : QueueError :=
  Config ("no next run time for '" +:+ cron_expr +:+ "'").

Definition parse_schedule (cron_expr : string) : Result QueueError CronSchedule :=
  match schedule_from_str cron_expr with
  | Ok s => Ok s
  | Err e => Err (Config ("invalid cron expression '" +:+ cron_expr +:+ "': " +:+ e))
  end.

(** An instant outside the calendar is read as now. *)
Definition datetime_of (after_ms : Z) : DbM Z :=
  if timestamp_in_range after_ms then mret after_ms else draw system_ms.

Definition next_cron_time (cron_expr : string) (after_ms : Z) : DbM Z :=
  schedule ← from_result (parse_schedule cron_expr);
  after_dt ← datetime_of after_ms;
  match schedule_after schedule None after_dt with
  | Some next => mret next
  | None => throw (no_next_run cron_expr)
  end.

Definition next_cron_time_tz (cron_expr : string) (after_ms : Z) (timezone : string) : DbM Z :=
  match tz_from_str timezone with
  | None => throw (Config ("invalid timezone '" +:+ timezone +:+ "'"))
  | Some tz =>
      schedule ← from_result (parse_schedule cron_expr);
      after_utc ← datetime_of after_ms;
      match schedule_after schedule (Some tz) after_utc with
      | Some next => mret next
      | None => throw (no_next_run cron_expr)
      end
  end.

Definition next_run (cron_expr : string) (timezone : option string) (after_ms : Z) : DbM Z :=
  match timezone with
  | Some tz => next_cron_time_tz cron_expr after_ms tz
  | None => next_cron_time cron_expr after_ms
  end.

(** ** The registry *)

Definition new_row (task : NewPeriodicTask) (last_run : option Z) : PeriodicTaskRow :=
  mkPeriodicTaskRow (np_name task) (np_task_name task) (np_cron_expr task) (np_args task)
    (np_kwargs task) (np_queue task) (np_enabled task) last_run (np_next_run task)
    (np_timezone task) (np_namespace task).

Definition with_registration_retry (attempt_ : DbM unit) : DbM unit :=
  r ← attempt attempt_;
  match r with
  | Err (Storage UniqueViolation) => attempt_
  | Ok _ => mret tt
  | Err e => throw e
  end.

Definition register_periodic_once (task : NewPeriodicTask) : DbM unit :=
  let key := (np_namespace task, np_name task) in
  write_transaction (
    updated ← sql_update periodic_tasks key (fun _ => true)
      (fun r => new_row task (pt_last_run r));
    if updated =? 0 then sql_insert periodic_tasks key (new_row task None) else mret tt).

Definition register_periodic (task : NewPeriodicTask) : DbM unit :=
  from_result (ensure_kwargs_unset task) ;;
  with_registration_retry (register_periodic_once task).

(** [timezone <> 'tz'] is not true of a null column, so each case is spelled out. *)
Definition periodic_schedule_changed (task : NewPeriodicTask) (r : PeriodicTaskRow) : bool :=
  let cron_changed := negb (bool_decide (pt_cron_expr r = np_cron_expr task)) in
  match np_timezone task with
  | Some tz =>
      cron_changed || bool_decide (pt_timezone r = None)
      || from_option (fun tz' => negb (bool_decide (tz' = tz))) false (pt_timezone r)
  | None => cron_changed || bool_decide (is_Some (pt_timezone r))
  end.

(** Every expression of the [SET] list reads the row as it was. *)
Definition declared (task : NewPeriodicTask) (r : PeriodicTaskRow) : PeriodicTaskRow :=
  mkPeriodicTaskRow (pt_name r) (np_task_name task) (np_cron_expr task) (np_args task)
    (np_kwargs task) (np_queue task) (pt_enabled r) (pt_last_run r)
    (if periodic_schedule_changed task r then np_next_run task else pt_next_run r)
    (np_timezone task) (pt_namespace r).

Definition declare_periodic_once (task : NewPeriodicTask) : DbM unit :=
  let key := (np_namespace task, np_name task) in
  write_transaction (
    updated ← sql_update periodic_tasks key (fun _ => true) (declared task);
    if updated =? 0 then sql_insert periodic_tasks key (new_row task None) else mret tt).

Definition declare_periodic (task : NewPeriodicTask) : DbM unit :=
  from_result (ensure_kwargs_unset task) ;;
  with_registration_retry (declare_periodic_once task).

Definition due (now : Z) (namespace : option string) (r : PeriodicTaskRow) : bool :=
  pt_enabled r && (pt_next_run r <=? now)
  && match namespace with Some ns => bool_decide (pt_namespace r = Some ns) | None => true end.

Definition get_due_periodic (now : Z) (namespace : option string) : DbM (list PeriodicTaskRow) :=
  conn ;; sql_select periodic_tasks (due now namespace).

Definition advanced (last_run next_run : Z) (r : PeriodicTaskRow) : PeriodicTaskRow :=
  mkPeriodicTaskRow (pt_name r) (pt_task_name r) (pt_cron_expr r) (pt_args r) (pt_kwargs r)
    (pt_queue r) (pt_enabled r) (Some last_run) next_run (pt_timezone r) (pt_namespace r).

Definition update_periodic_schedule (name : string) (last_run next_run : Z)
    (namespace : option string) : DbM unit :=
  conn ;;
  sql_update periodic_tasks (namespace, name) (fun _ => true) (advanced last_run next_run) ;;
  mret tt.

Definition list_periodic (namespace : option string) : DbM (list PeriodicTaskRow) :=
  conn ;; sql_select periodic_tasks (fun r => bool_decide (pt_namespace r = namespace)).

Definition delete_periodic (name : string) (namespace : option string) : DbM bool :=
  conn ;;
  affected ← sql_delete_pk periodic_tasks (namespace, name);
  mret (0 <? affected).

Definition set_periodic_enabled (name : string) (enabled : bool) (namespace : option string)
    : DbM bool :=
  conn ;;
  affected ← sql_update periodic_tasks (namespace, name) (fun _ => true)
    (fun r => mkPeriodicTaskRow (pt_name r) (pt_task_name r) (pt_cron_expr r) (pt_args r)
       (pt_kwargs r) (pt_queue r) enabled (pt_last_run r) (pt_next_run r) (pt_timezone r)
       (pt_namespace r));
  mret (0 <? affected).

(** ** Firing *)

(** [fire_periodic], without the event it emits. *)
Definition fire_periodic (task : PeriodicTaskRow) (now : Z) : GateM unit :=
  gated_enqueue_unique_reporting
    (periodic_job task now (Some (periodic_unique_key task now))) ;;
  mret tt.

(** A schedule that cannot be fired, or has no next run, is logged and left as it is. *)
Definition check_one (now : Z) (task : PeriodicTaskRow) : GateM unit :=
  fired ← attempt (fire_periodic task now);
  match fired with
  | Err _ => mret tt
  | Ok _ =>
      next ← attempt (in_store (next_run (pt_cron_expr task) (pt_timezone task) now));
      match next with
      | Err _ => mret tt
      | Ok next =>
          attempt (in_store (update_periodic_schedule (pt_name task) now next
                               (pt_namespace task))) ;;
          mret tt
      end
  end.

Definition check_periodic (namespace : option string) : GateM unit :=
  now ← in_store now_millis;
  due_tasks ← in_store (get_due_periodic now namespace);
  for_each (check_one now) due_tasks.
End periodic.

(** ** Registration *)

Section registry.
Context {E : Env} {G : Engine}.

(** Schedules are stored under the names they carry. *)
Definition periodic_keyed (d : DB) : Prop :=
  map_Forall (fun k r => (pt_namespace r, pt_name r) = k) (db_periodic_tasks d).

(** An update, or an insert when there was no row: the first attempt decides. *)
Lemma upsert_once key new f w :
  write_transaction (
    updated ← sql_update periodic_tasks key (fun _ => true) f;
    if updated =? 0 then sql_insert periodic_tasks key new else mret tt) w
  = if pool_ready (tick w)
    then (Ok tt, mkWorld (set_periodic_tasks (<[key := from_option f new (db_periodic_tasks (db w) !! key)]>
                   (db_periodic_tasks (db w))) (db w)) (S (tick w)))
    else (Err Pool, bump 1 w).
Proof.
  destruct (pool_ready (tick w)) eqn:Hp; [|by rewrite write_transaction_no_pool].
  apply write_transaction_ok; [done|]. unfold sql_update, mbind, M_bind. simpl.
  destruct (db_periodic_tasks (db w) !! key) as [r|] eqn:Hk; simpl; [done|].
  rewrite sql_insert_fresh; [done|done|done].
Qed.

Lemma with_registration_retry_run (m : DbM unit) w :
  (forall w, fst (m w) <> Err (Storage UniqueViolation)) -> with_registration_retry m w = m w.
Proof.
  intros Hm. unfold with_registration_retry, attempt, mbind, M_bind. specialize (Hm w).
  destruct (m w) as [[[]|e] w']; [done|]. simpl in Hm. destruct e as [[]| | | | | | | | | | | | | | | | | | | | | |]; done.
Qed.

(** What a registration leaves in the registry. *)
Definition registered (task : NewPeriodicTask) (f : PeriodicTaskRow -> PeriodicTaskRow) (w : World)
    (r : Result QueueError unit) (w' : World) : Prop :=
  let key := (np_namespace task, np_name task) in
  match r with
  | Ok _ =>
      np_kwargs task = None
      /\ w' = mkWorld (set_periodic_tasks
           (<[key := from_option f (new_row task None) (db_periodic_tasks (db w) !! key)]>
              (db_periodic_tasks (db w))) (db w)) (S (tick w))
  | Err Pool => db w' = db w
  | Err (Config _) => np_kwargs task <> None /\ db w' = db w
  | Err _ => False
  end.

Lemma registered_run task f w r w' :
  (from_result (ensure_kwargs_unset task) ;;
   with_registration_retry (write_transaction (
     updated ← sql_update periodic_tasks (np_namespace task, np_name task) (fun _ => true) f;
     if updated =? 0
     then sql_insert periodic_tasks (np_namespace task, np_name task) (new_row task None)
     else mret tt))) w = (r, w') ->
  registered task f w r w'.
Proof.
  unfold registered, ensure_kwargs_unset. destruct (np_kwargs task) as [kw|] eqn:Hkw.
  { unfold from_result, mbind, M_bind. by intros [= <- <-]. }
  unfold from_result at 1. erewrite bind_ok by done. rewrite with_registration_retry_run.
  - rewrite upsert_once. destruct (pool_ready (tick w)); by intros [= <- <-].
  - intros w0. rewrite upsert_once. by destruct (pool_ready (tick w0)).
Qed.

Lemma register_periodic_run task w r w' :
  register_periodic task w = (r, w') ->
  registered task (fun row => new_row task (pt_last_run row)) w r w'.
Proof. apply registered_run. Qed.

Lemma declare_periodic_run task w r w' :
  declare_periodic task w = (r, w') -> registered task (declared task) w r w'.
Proof. apply registered_run. Qed.

(** Declaring a schedule again, as every worker does when it starts, keeps what the operator
    and the scheduler own: whether the schedule is paused, when it last ran, and, unless its
    expression or timezone changed, when it runs next.  Everything the declaration says is
    written, a declaration with keyword arguments is refused, and no other schedule and no
    other table is touched. *)
Theorem declare_periodic_spec task w r w' :
  declare_periodic task w = (r, w') ->
  let key := (np_namespace task, np_name task) in
  match r with
  | Ok _ =>
      np_kwargs task = None
      /\ (forall key', key' <> key ->
            db_periodic_tasks (db w') !! key' = db_periodic_tasks (db w) !! key')
      /\ set_periodic_tasks (db_periodic_tasks (db w)) (db w') = db w
      /\ exists row, db_periodic_tasks (db w') !! key = Some row
         /\ pt_task_name row = np_task_name task /\ pt_cron_expr row = np_cron_expr task
         /\ pt_args row = np_args task /\ pt_queue row = np_queue task
         /\ pt_timezone row = np_timezone task
         /\ match db_periodic_tasks (db w) !! key with
            | None => pt_enabled row = np_enabled task /\ pt_last_run row = None
                      /\ pt_next_run row = np_next_run task
            | Some old =>
                pt_enabled row = pt_enabled old /\ pt_last_run row = pt_last_run old
                /\ pt_next_run row =
                     if bool_decide (pt_cron_expr old = np_cron_expr task
                                     /\ pt_timezone old = np_timezone task)
                     then pt_next_run old else np_next_run task
            end
  | Err Pool => db w' = db w
  | Err (Config _) => np_kwargs task <> None /\ db w' = db w
  | Err _ => False
  end.
Proof.
  intros Hrun%declare_periodic_run key. unfold registered in Hrun. fold key in Hrun.
  destruct r as [_|[]]; try done. destruct Hrun as [Hk ->]. split; [done|]. simpl.
  split_and!; [intros key' Hne; by rewrite lookup_insert_ne by done|by destruct (db w)|].
  eexists. rewrite lookup_insert_eq. split; [done|].
  destruct (db_periodic_tasks (db w) !! key) as [old|]; simpl; split_and!; try done.
  unfold periodic_schedule_changed.
  destruct (pt_timezone old), (np_timezone task); simpl; repeat case_bool_decide; simpl; try done;
    destruct_and?; try congruence; naive_solver.
Qed.

(** The registry is beside any predicate that does not read it. *)
Section frame.
Context (I : World -> Prop) `{!TickMono I} `{!Aside I periodic_tasks}.

Lemma keeps_declare_periodic task : keeps I (declare_periodic task).
Proof.
  unfold declare_periodic, with_registration_retry, declare_periodic_once.
  apply keeps_bind; [by intros w|intros _]. solve_keeps.
Qed.

Lemma keeps_register_periodic task : keeps I (register_periodic task).
Proof.
  unfold register_periodic, with_registration_retry, register_periodic_once.
  apply keeps_bind; [by intros w|intros _]. solve_keeps.
Qed.

Lemma keeps_set_periodic_enabled name on ns : keeps I (set_periodic_enabled name on ns).
Proof. unfold set_periodic_enabled. solve_keeps. Qed.

Lemma keeps_delete_periodic name ns : keeps I (delete_periodic name ns).
Proof. unfold delete_periodic. solve_keeps. Qed.
End frame.
End registry.

(** ** Firing *)

(** A pool that always has a connection. *)
Class Connected (E : Env) : Prop := always_ready : forall n, pool_ready n = true.

Section gate_open.
Context {E : Env} {G : Engine} {X : Texts} {J : QuotaJson} {T : Monotonic}.
Context `{!UuidFresh E} `{!ScanComplete G} `{!Connected E}.

(** Without a quota the gate is the enqueue behind it. *)
Lemma gate_open {R} (enq : list NewJob -> DbM (list R)) shed nj c w :
  coherent c (db w) -> stored_quota (db w) (nj_namespace nj) = Ok None ->
  exists c' n, coherent c' (db w)
    /\ with_quota [nj] enq shed (c, w) = in_store (enq [nj]) (c', bump n w).
Proof.
  intros Hc Hq. unfold with_quota, quota_admit.
  assert (Hby : exists ps, by_namespace [nj] = [(nj_namespace nj, ps)]) by by eexists.
  destruct Hby as [ps ->]. cbn [foldM admit_namespace].
  destruct (cache_get (nj_namespace nj) (c, w)) as [r [c' w']] eqn:Hg.
  destruct (cache_get_run _ _ _ _ _ _ Hc Hg) as (Hc' & [n ->] & Hr). exists c', n. split; [done|].
  assert (Hrq : r = Ok None).
  { destruct r as [q|e]; [pose proof (Hr q eq_refl); congruence|]. exfalso. clear Hr.
    unfold cache_get in Hg. destruct (cache_hit_run (nj_namespace nj) c w) as (o & k & Hhit & _).
    rewrite (bind_ok _ _ _ _ _ Hhit) in Hg. destruct o; [done|].
    assert (Hin : in_store (read_quota (nj_namespace nj)) (c, bump k w) = (Ok None, (c, bump 1 (bump k w)))).
    { unfold in_store. rewrite read_quota_run, always_ready. simpl. by rewrite Hq. }
    rewrite (bind_ok _ _ _ _ _ Hin) in Hg. done. }
  subst r. erewrite bind_ok; [|erewrite bind_ok; [|erewrite bind_ok by exact Hg; done]; done]. done.
Qed.

Lemma gated_unique_open nj c w r c' w' :
  coherent c (db w) -> stored_quota (db w) (nj_namespace nj) = Ok None ->
  gated_enqueue_unique_reporting nj (c, w) = (r, (c', w')) ->
  exists n, coherent c' (db w) /\ enqueue_unique_reporting nj (bump n w) = (r, w').
Proof.
  intros Hc Hq Hrun. unfold gated_enqueue_unique_reporting in Hrun.
  destruct (gate_open (first_admitted enqueue_unique_reporting) (fun s => (s, false)) nj c w Hc Hq)
    as (c1 & n & Hc1 & Heq). exists n.
  destruct (enqueue_unique_reporting nj (bump n w)) as [[[job b]|e] w1] eqn:Henq.
  - assert (Hin : in_store (first_admitted enqueue_unique_reporting [nj]) (c1, bump n w)
      = (Ok [(job, b)], (c1, w1))).
    { unfold in_store, first_admitted. by rewrite (bind_ok _ _ _ _ _ Henq). }
    rewrite Hin in Heq. rewrite (bind_ok _ _ _ _ _ Heq) in Hrun. by injection Hrun as <- <- <-.
  - assert (Hin : in_store (first_admitted enqueue_unique_reporting [nj]) (c1, bump n w)
      = (Err e, (c1, w1))).
    { unfold in_store, first_admitted. by rewrite (bind_err _ _ _ _ _ Henq). }
    rewrite Hin in Heq. rewrite (bind_err _ _ _ _ _ Heq) in Hrun. by injection Hrun as <- <- <-.
Qed.
End gate_open.

Section firing.
Context {E : Env} {G : Engine} {X : Texts} {J : QuotaJson} {T : Monotonic} {C : Cron}.
Context `{!UuidFresh E} `{!ScanComplete G} `{!Connected E}.

(** A live job holds the unique slot of the firing. *)
Definition fired (now : Z) (task : PeriodicTaskRow) (d : DB) : Prop :=
  exists k row, db_jobs d !! k = Some row
    /\ unique_slot row = Some (pt_namespace task, periodic_unique_key task now).

Lemma fired_mono now task d d' : db_jobs d ⊆ db_jobs d' -> fired now task d -> fired now task d'.
Proof. intros Hsub (k & row & Hk & Hs). exists k, row. split; [by eapply lookup_weaken|done]. Qed.

(** A firing adds at most its job. *)
Lemma fire_run task now c w r c' w' :
  wf w -> coherent c (db w) -> stored_quota (db w) (pt_namespace task) = Ok None ->
  fire_periodic task now (c, w) = (r, (c', w')) ->
  r = Ok tt /\ wf w' /\ coherent c' (db w')
  /\ db_dashboard_settings (db w') = db_dashboard_settings (db w)
  /\ db_periodic_tasks (db w') = db_periodic_tasks (db w)
  /\ db_jobs (db w) ⊆ db_jobs (db w') /\ fired now task (db w')
  /\ (~ fired now task (db w) -> exists k i,
        k = uuid_v7 i /\ db_jobs (db w) !! k = None
        /\ db_jobs (db w') = <[k := row_of (into_job_at k (clock_at (pred i))
              (periodic_job task now (Some (periodic_unique_key task now))))]> (db_jobs (db w))).
Proof.
  intros Hwf Hc Hq Hrun. unfold fire_periodic in Hrun.
  set (nj := periodic_job task now _) in *.
  destruct (gated_enqueue_unique_reporting nj (c, w)) as [r1 [c1 w1]] eqn:Hg.
  destruct (gated_unique_open nj c w r1 c1 w1 Hc Hq Hg) as (n & Hc1 & Henq).
  destruct (enqueue_unique_cases nj (bump n w) r1 w1 (wf_bump n _ Hwf) Henq) as [Hwf1 Hr1].
  assert (Hready : r1 <> Err Pool).
  { intros ->. destruct (enqueue_unique_reporting_cases nj (bump n w) (wf_bump n _ Hwf))
      as [[Hp _]|[(uk & k & row & _ & _ & _ & Heq)|[(_ & Hv & _)|(_ & _ & Heq & _)]]].
    - by rewrite always_ready in Hp.
    - by rewrite Heq in Henq.
    - done.
    - by rewrite Heq in Henq. }
  destruct r1 as [[job []]|[]]; try done.
  - rewrite (bind_ok _ _ _ _ _ Hg) in Hrun. injection Hrun as <- <- <-.
    destruct Hr1 as (Hdb & uk & row & Huk & Hk & _ & Hs). simpl in *. injection Huk as <-.
    assert (Hf : fired now task (db w1)) by (rewrite Hdb; by exists (j_id job), row).
    rewrite Hdb in *. split_and!; try done. 
  - rewrite (bind_ok _ _ _ _ _ Hg) in Hrun. injection Hrun as <- <- <-.
    destruct Hr1 as (Hjob & -> & Hfree). simpl in *.
    assert (Hnone : db_jobs (db w) !! j_id job = None).
    { assert (Hf : fresh_job job (bump 2 (bump n w))) by (subst job; by apply into_job_fresh, wf_bump).
      destruct Hf as (_ & i & _ & _ & Hn & _). exact Hn. }
    split_and!; try done.
    + by apply insert_subseteq.
    + exists (j_id job), (row_of job). simpl. rewrite lookup_insert_eq. split; [done|].
      rewrite unique_slot_row_of; [|by subst job]. by subst job.
    + intros _. exists (j_id job), (S (n + tick w)). rewrite Hjob. split_and!; [done| |done].
      by rewrite <- Hjob.
  - by destruct Hr1 as [_ Hv].
Qed.

(** The time a schedule runs next, when there is one. *)
Definition next_after (task : PeriodicTaskRow) (now : Z) : option Z :=
  match schedule_from_str (pt_cron_expr task) with
  | Ok s =>
      match pt_timezone task with
      | None => schedule_after s None now
      | Some tz => match tz_from_str tz with Some tz => schedule_after s (Some tz) now | None => None end
      end
  | Err _ => None
  end.

Lemma next_run_run task now w :
  timestamp_in_range now = true ->
  exists r, next_run (pt_cron_expr task) (pt_timezone task) now w = (r, w)
    /\ match next_after task now with Some n => r = Ok n | None => is_ok r = false end.
Proof.
  intros Hin. unfold next_run, next_after, next_cron_time_tz, next_cron_time, parse_schedule, datetime_of.
  destruct (pt_timezone task) as [tz|].
  - destruct (tz_from_str tz) as [z|].
    + destruct (schedule_from_str _); unfold from_result, mbind, M_bind; simpl; [|by eexists].
      rewrite Hin. simpl. destruct (schedule_after _ _ _); by eexists.
    + destruct (schedule_from_str _); by eexists.
  - destruct (schedule_from_str _); unfold from_result, mbind, M_bind; simpl; [|by eexists].
    rewrite Hin. simpl. destruct (schedule_after _ _ _); by eexists.
Qed.

(** The row a firing leaves. *)
Definition fired_row (now : Z) (task : PeriodicTaskRow) : PeriodicTaskRow :=
  from_option (fun next => advanced now next task) task (next_after task now).

Lemma check_one_run task now c w r c' w' :
  wf w -> coherent c (db w) -> stored_quota (db w) (pt_namespace task) = Ok None ->
  timestamp_in_range now = true ->
  db_periodic_tasks (db w) !! (pt_namespace task, pt_name task) = Some task ->
  check_one now task (c, w) = (r, (c', w')) ->
  r = Ok tt /\ wf w' /\ coherent c' (db w')
  /\ db_dashboard_settings (db w') = db_dashboard_settings (db w)
  /\ db_jobs (db w) ⊆ db_jobs (db w') /\ fired now task (db w')
  /\ db_periodic_tasks (db w')
     = <[(pt_namespace task, pt_name task) := fired_row now task]> (db_periodic_tasks (db w)).
Proof.
  intros Hwf Hc Hq Hin Hrow Hrun. unfold check_one in Hrun.
  destruct (fire_periodic task now (c, w)) as [r1 [c1 w1]] eqn:Hf.
  destruct (fire_run task now c w r1 c1 w1 Hwf Hc Hq Hf) as (-> & Hwf1 & Hc1 & Hs1 & Hp1 & Hj1 & Hfd & _).
  rewrite (bind_attempt _ _ _ _ _ Hf) in Hrun. cbv iota beta in Hrun.
  destruct (next_run_run task now w1 Hin) as (nr & Hnr & Hval).
  assert (Hnr' : in_store (next_run (pt_cron_expr task) (pt_timezone task) now) (c1, w1) = (nr, (c1, w1)))
    by (unfold in_store; by rewrite Hnr).
  rewrite (bind_attempt _ _ _ _ _ Hnr') in Hrun. unfold fired_row.
  destruct (next_after task now) as [next|]; simpl in Hval.
  - subst nr. cbv iota beta in Hrun.
    assert (Hup : in_store (update_periodic_schedule (pt_name task) now next (pt_namespace task)) (c1, w1)
      = (Ok tt, (c1, mkWorld (set_periodic_tasks (<[(pt_namespace task, pt_name task) :=
          advanced now next task]> (db_periodic_tasks (db w1))) (db w1)) (S (tick w1))))).
    { unfold in_store, update_periodic_schedule. rewrite (bind_ok _ _ _ _ _ (conn_ok _ (always_ready _))).
      unfold sql_update, mbind, M_bind. simpl. rewrite Hp1, Hrow. done. }
    rewrite (bind_attempt _ _ _ _ _ Hup) in Hrun. injection Hrun as <- <- <-. simpl. rewrite Hp1.
    split_and!; try done. exact (wf_bump 1 _ Hwf1).
  - destruct nr as [|e]; [done|]. injection Hrun as <- <- <-. simpl. rewrite Hp1.
    split_and!; try done. by rewrite insert_id.
Qed.

Definition periodic_key (r : PeriodicTaskRow) : option string * string := (pt_namespace r, pt_name r).

(** The registry once the schedules of [past] have fired. *)
Definition all_fired (now : Z) (past : list PeriodicTaskRow) (P : gmap (option string * string) PeriodicTaskRow)
    : gmap (option string * string) PeriodicTaskRow :=
  foldr (fun t m => <[periodic_key t := fired_row now t]> m) P past.

Lemma all_fired_other now past P key :
  key ∉ periodic_key <$> past -> all_fired now past P !! key = P !! key.
Proof.
  induction past as [|t past IH]; [done|]. rewrite fmap_cons, not_elem_of_cons. intros [Hne Hk].
  simpl. rewrite lookup_insert_ne by done. by apply IH.
Qed.

Lemma all_fired_in now past P t :
  NoDup (periodic_key <$> past) -> t ∈ past -> all_fired now past P !! periodic_key t = Some (fired_row now t).
Proof.
  induction past as [|u past IH]; [by intros _ ?%elem_of_nil|].
  rewrite fmap_cons, NoDup_cons, elem_of_cons. intros [Hu Hnd] [->|Ht]; simpl.
  - apply lookup_insert_eq.
  - rewrite lookup_insert_ne; [by apply IH|]. intros Heq. apply Hu. rewrite Heq. by apply list_elem_of_fmap_2.
Qed.

Lemma check_loop now w0 P rest past c w r c' w' :
  wf w -> coherent c (db w) -> (forall ns, stored_quota (db w) ns = Ok None) ->
  timestamp_in_range now = true -> NoDup (periodic_key <$> (rest ++ past)) ->
  (forall t, t ∈ rest -> P !! periodic_key t = Some t) ->
  db_periodic_tasks (db w) = all_fired now past P ->
  db_jobs (db w0) ⊆ db_jobs (db w) -> Forall (fun t => fired now t (db w)) past ->
  for_each (check_one now) rest (c, w) = (r, (c', w')) ->
  r = Ok tt /\ wf w' /\ coherent c' (db w') /\ db_jobs (db w0) ⊆ db_jobs (db w')
  /\ db_periodic_tasks (db w') = all_fired now (reverse rest ++ past) P
  /\ Forall (fun t => fired now t (db w')) (rest ++ past).
Proof.
  intros Hwf Hc Hq Hin. revert past c w Hwf Hc Hq.
  induction rest as [|t rest IH]; intros past c w Hwf Hc Hq Hnd HP Hper Hsub Hall Hrun; simpl in Hrun.
  { by injection Hrun as <- <- <-. }
  destruct (check_one now t (c, w)) as [r1 [c1 w1]] eqn:Hone.
  rewrite <- app_comm_cons, fmap_cons, NoDup_cons in Hnd. destruct Hnd as [Ht Hnd].
  rewrite fmap_app, not_elem_of_app in Ht. destruct Ht as [Htr Htd].
  destruct (check_one_run t now c w r1 c1 w1 Hwf Hc (Hq _) Hin) as (-> & Hwf1 & Hc1 & Hs1 & Hj1 & Hf1 & Hp1).
  { rewrite Hper. pose proof (all_fired_other now past P (periodic_key t) Htd) as Ho.
    unfold periodic_key in Ho at 1. rewrite Ho. apply HP. by left. }
  { exact Hone. }
  rewrite (bind_ok _ _ _ _ _ Hone) in Hrun.
  destruct (IH (t :: past) c1 w1) as (-> & Hwf' & Hc' & Hsub' & Hper' & Hall'); try done.
  - intros ns. by rewrite (stored_quota_settings (db w)).
  - rewrite fmap_app, fmap_cons. apply NoDup_app. rewrite fmap_app in Hnd.
    apply NoDup_app in Hnd as (Hr & Hd & Hdd). split_and!; [done| |].
    + intros x Hx. rewrite not_elem_of_cons. split; [|by apply Hd]. intros ->. done.
    + apply NoDup_cons. done.
  - intros u Hu. apply HP. by right.
  - rewrite Hp1, Hper. done.
  - by etransitivity.
  - apply Forall_cons. split; [done|]. eapply Forall_impl; [exact Hall|]. intros u. by apply fired_mono.
  - split_and!; try done.
    + rewrite Hper'. rewrite reverse_cons, <- app_assoc. done.
    + rewrite Forall_app in Hall' |- *. destruct Hall' as [Hr Hd]. apply Forall_cons in Hd as [Ht Hd].
      split; [by apply Forall_cons|done].
Qed.

Lemma check_periodic_run ns c w r c' w' :
  wf w -> coherent c (db w) -> (forall ns, stored_quota (db w) ns = Ok None) ->
  periodic_keyed (db w) -> timestamp_in_range (clock_at (tick w)) = true ->
  check_periodic ns (c, w) = (r, (c', w')) ->
  let now := clock_at (tick w) in
  r = Ok tt /\ wf w' /\ coherent c' (db w') /\ db_jobs (db w) ⊆ db_jobs (db w')
  /\ forall key, match db_periodic_tasks (db w) !! key with
     | None => db_periodic_tasks (db w') !! key = None
     | Some row =>
         if due now ns row
         then fired now row (db w') /\ db_periodic_tasks (db w') !! key = Some (fired_row now row)
         else db_periodic_tasks (db w') !! key = Some row
     end.
Proof.
  intros Hwf Hc Hq Hkey Hin Hrun now. unfold check_periodic in Hrun.
  assert (Hnow : in_store now_millis (c, w) = (Ok now, (c, bump 1 w))) by done.
  rewrite (bind_ok _ _ _ _ _ Hnow) in Hrun.
  set (l := filter (fun r => Is_true (due now ns r)) (scan (db_periodic_tasks (db w)))).
  assert (Hdue : in_store (get_due_periodic now ns) (c, bump 1 w) = (Ok l, (c, bump 1 (bump 1 w)))).
  { unfold in_store, get_due_periodic. by rewrite (bind_ok _ _ _ _ _ (conn_ok _ (always_ready _))). }
  rewrite (bind_ok _ _ _ _ _ Hdue) in Hrun.
  assert (Hl : forall t, t ∈ l <-> due now ns t = true /\ db_periodic_tasks (db w) !! periodic_key t = Some t).
  { intros t. unfold l. rewrite list_elem_of_filter, Is_true_true, elem_of_scan. split.
    - intros [Hd [k Hk]]. split; [done|]. rewrite <- (Hkey _ _ Hk) in Hk. done.
    - intros [Hd Hk]. split; [done|]. by eexists. }
  assert (Hnd : NoDup (periodic_key <$> l)).
  { eapply sublist_NoDup; [apply (scan_NoDup_key periodic_key); exact Hkey|].
    apply fmap_sublist, sublist_filter. }
  assert (Hr : l ++ [] = l) by apply app_nil_r.
  destruct (check_loop now w (db_periodic_tasks (db w)) l [] c (bump 1 (bump 1 w)) r c' w')
    as (-> & Hwf' & Hc' & Hsub & Hper & Hall); try done.
  { by do 2 apply wf_bump. }
  { by rewrite Hr. }
  { intros t [_ Ht]%Hl. done. }
  split_and!; try done. rewrite Hr in Hall. rewrite app_nil_r in Hper. intros key.
  assert (Hrev : NoDup (periodic_key <$> reverse l)).
  { by rewrite fmap_reverse, (reverse_Permutation (periodic_key <$> l)). }
  destruct (db_periodic_tasks (db w) !! key) as [row|] eqn:Hrow.
  - pose proof (Hkey _ _ Hrow) as Hk. destruct (due now ns row) eqn:Hd.
    + assert (Hin' : row ∈ l) by (apply Hl; split; [done|]; unfold periodic_key; by rewrite Hk).
      split; [by eapply (proj1 (Forall_forall _ _) Hall)|]. rewrite Hper.
      replace key with (periodic_key row) by done. apply all_fired_in; [done|]. by rewrite elem_of_reverse.
    + rewrite Hper, all_fired_other; [done|]. rewrite fmap_reverse, elem_of_reverse.
      intros (t & Ht & Htl)%list_elem_of_fmap. apply Hl in Htl as [Hd' Ht']. rewrite <- Ht in Ht'. congruence.
  - rewrite Hper, all_fired_other; [done|]. rewrite fmap_reverse, elem_of_reverse.
    intros (t & -> & Htl)%list_elem_of_fmap. apply Hl in Htl as [_ Ht']. congruence.
Qed.


(** C32: the key of a firing carries the scheduler's clock, so it does not identify the slot.
    Two schedulers that both find a schedule due, at two readings of the clock, both fire it:
    the second firing enqueues a second job next to the first. *)
Theorem periodic_fires_twice task now1 now2 c w c1 w1 r2 c2 w2 :
  wf w -> coherent c (db w) -> (forall ns, stored_quota (db w) ns = Ok None) ->
  now1 <> now2 ->
  ~ fired now1 task (db w) -> ~ fired now2 task (db w) ->
  fire_periodic task now1 (c, w) = (Ok tt, (c1, w1)) ->
  fire_periodic task now2 (c1, w1) = (r2, (c2, w2)) ->
  r2 = Ok tt /\ exists k1 k2 row1 row2, k1 <> k2
    /\ db_jobs (db w) !! k1 = None /\ db_jobs (db w) !! k2 = None
    /\ db_jobs (db w2) !! k1 = Some row1 /\ db_jobs (db w2) !! k2 = Some row2
    /\ jr_task_name row1 = pt_task_name task /\ jr_task_name row2 = pt_task_name task
    /\ jr_status row1 = as_int Pending /\ jr_status row2 = as_int Pending.
Proof.
  intros Hwf Hc Hq Hne Hn1 Hn2 Hf1 Hf2.
  destruct (fire_run task now1 c w _ c1 w1 Hwf Hc (Hq _) Hf1) as (_ & Hwf1 & Hc1 & Hs1 & _ & Hj1 & _ & Hnew1).
  assert (Hq1 : stored_quota (db w1) (pt_namespace task) = Ok None) by by rewrite (stored_quota_settings (db w)).
  destruct (fire_run task now2 c1 w1 _ c2 w2 Hwf1 Hc1 Hq1 Hf2) as (-> & _ & _ & _ & _ & Hj2 & _ & Hnew2).
  split; [done|]. destruct (Hnew1 Hn1) as (k1 & i1 & Hk1 & Hf & Hjobs1).
  assert (Hn2' : ~ fired now2 task (db w1)).
  { intros (k & row & Hk & Hs). rewrite Hjobs1 in Hk.
    apply lookup_insert_Some in Hk as [[<- <-]|[_ Hk]]; [|by apply Hn2; exists k, row].
    rewrite unique_slot_row_of in Hs by done. simpl in Hs. injection Hs as Heq.
    unfold periodic_unique_key in Heq. apply (inj (String.append _)) in Heq.
    apply (inj (String.append _)) in Heq. apply (inj (String.append _)) in Heq.
    by apply (inj pretty) in Heq. }
  destruct (Hnew2 Hn2') as (k2 & i2 & Hk2 & Hfree2 & Hjobs2).
  assert (Hk12 : k1 <> k2) by (intros ->; rewrite Hjobs1, lookup_insert_eq in Hfree2; done).
  exists k1, k2. do 2 eexists. split_and!; [done|done| | | | | | |].
  - rewrite Hjobs1, lookup_insert_ne in Hfree2; done.
  - rewrite Hjobs2, lookup_insert_ne by done. rewrite Hjobs1. apply lookup_insert_eq.
  - rewrite Hjobs2. apply lookup_insert_eq.
  - done.
  - done.
  - done.
  - done.
Qed.
End firing.

(** ** Examples *)

(** A cron crate with one expression, due every minute. *)
Definition demo_cron : Cron := {|
  CronSchedule := unit; Timezone := unit;
  schedule_from_str s := if bool_decide (s = "0 * * * * *"%string) then Ok tt else Err "expected a schedule"%string;
  tz_from_str s := if bool_decide (s = "UTC"%string) then Some tt else None;
  timestamp_in_range t := bool_decide (0 <= t < 8210266876800000);
  schedule_after _ _ t := Some ((t / 60000 + 1) * 60000)
|}.

Lemma demo_cron_law : CronLaw demo_cron.
Proof. intros s tz t next. simpl. intros [= <-]. pose proof (Z.mul_succ_div_gt t 60000). lia. Qed.

Lemma demo_connected : Connected demo_env.
Proof. by intros n. Qed.

Section examples.
#[local] Existing Instances demo_env demo_engine demo_uuid_fresh demo_scan_complete demo_quota_json
  demo_quota_json_law demo_texts demo_instants demo_cron demo_cron_law demo_connected.

(** Two schedules, one of them paused by the operator and declared again. *)
Definition demo_schedule (name : string) : NewPeriodicTask :=
  mkNewPeriodicTask name "report" "0 * * * * *" (Some [x01]) None "default" true 500 None (Some "acme"%string).

Definition scheduling : DbM unit :=
  declare_periodic (demo_schedule "nightly") ;;
  declare_periodic (demo_schedule "paused") ;;
  set_periodic_enabled "paused" false (Some "acme"%string) ;;
  declare_periodic (demo_schedule "paused").

Definition scheduled_world : World := snd (scheduling demo_world).

Definition demo_key (name : string) : option string * string := (Some "acme"%string, name).

Lemma declare_periodic_spec_witness :
  let x := declare_periodic (demo_schedule "paused") scheduled_world in
  fst x = Ok tt /\ (pt_enabled <$> db_periodic_tasks (db (snd x)) !! demo_key "paused") = Some false.
Proof.
  intros x. split; [by vm_compute|].
  destruct (declare_periodic (demo_schedule "paused") scheduled_world) as [r w'] eqn:Hx.
  pose proof (declare_periodic_spec _ _ _ _ Hx) as Hs. cbv zeta in Hs.
  assert (Hr : r = Ok tt) by (change r with (fst (r, w')); rewrite <- Hx; by vm_compute).
  subst r. destruct Hs as (_ & _ & _ & row & Hrow & _ & _ & _ & _ & _ & Hold). unfold x. simpl in *.
  unfold demo_key. rewrite Hrow. simpl. f_equal.
  assert (He : (pt_enabled <$> db_periodic_tasks (db scheduled_world) !! demo_key "paused") = Some false)
    by by vm_compute.
  unfold demo_key in He. destruct (db_periodic_tasks (db scheduled_world) !! _) as [old|]; [|done].
  destruct Hold as [-> _]. by injection He.
Defined.

Lemma scheduled_ok :
  wf scheduled_world /\ coherent ∅ (db scheduled_world)
  /\ (forall ns, stored_quota (db scheduled_world) ns = Ok None).
Proof.
  split_and!.
  - refine ((_ : keeps wf scheduling) _ (wf_empty 0)). unfold scheduling.
    repeat (apply keeps_bind; [apply keeps_declare_periodic || apply keeps_set_periodic_enabled; apply _|intros _]).
    apply keeps_declare_periodic; apply _.
  - intros ns t q Hl. by destruct (lookup_empty_Some ns (t, q) Hl).
  - intros ns. assert (Hs : db_dashboard_settings (db scheduled_world) = ∅) by by vm_compute.
    unfold stored_quota, settings_map. by rewrite Hs, fmap_empty, lookup_empty.
Qed.

Definition check_round := check_periodic None (∅, scheduled_world).


Definition demo_task : PeriodicTaskRow :=
  mkPeriodicTaskRow "nightly" "report" "0 * * * * *" (Some [x01]) None "default" true None 500 None
    (Some "acme"%string).

Lemma periodic_fires_twice_witness :
  let x1 := fire_periodic demo_task 1000 (∅, scheduled_world) in
  let x2 := fire_periodic demo_task 1001 (snd x1) in
  fst x2 = Ok tt /\ size (db_jobs (db (snd (snd x2)))) = 2%nat.
Proof.
  intros x1 x2. destruct scheduled_ok as (Hwf & Hc & Hq).
  assert (Hnone : forall now, ~ fired now demo_task (db scheduled_world)).
  { intros now (k & row & Hk & _). assert (Hj : db_jobs (db scheduled_world) = ∅) by by vm_compute.
    rewrite Hj in Hk. exact (lookup_empty_Some k row Hk). }
  assert (H1 : fst x1 = Ok tt) by by vm_compute.
  assert (Hsize : size (db_jobs (db (snd (snd x2)))) = 2%nat) by by vm_compute.
  unfold x2 in *. clear x2. destruct x1 as [r1 [c1 w1]] eqn:Hx1. simpl in H1. subst r1. cbn [snd] in *.
  destruct (fire_periodic demo_task 1001 (c1, w1)) as [r2 [c2 w2]] eqn:Hx2.
  destruct (periodic_fires_twice demo_task 1000 1001 ∅ scheduled_world c1 w1 r2 c2 w2 Hwf Hc Hq ltac:(lia)
    (Hnone _) (Hnone _) Hx1 Hx2) as [-> _].
  split; [done|exact Hsize].
Defined.
End examples.
