(* ===== verification/Poller.v ===== *)
(** * Dispatching ([scheduler/poller.rs])

    One round of the scheduler: take ready jobs of the queues that are not paused, shed
    what CoDel gives up on, pass the soft gates (rate limits and breakers), claim, pass
    the hard gates (concurrency caps), and hand the job to the worker pool.  A job that
    is turned away after it was taken goes back on the queue or to the dead letters. *)
From S2P Require Import Prelude Text Job Db Store Enqueue Dequeue Transitions Cascade Stats Purge.
From S2P Require Import Resilience Shed Claims InFlight DeadLetter Settings Quota Queues Sched.

Definition CIRCUIT_BREAKER_RETRY_DELAY_MS : Z := 5000.
Definition RATE_LIMIT_RETRY_DELAY_MS : Z := 1000.
Definition CONCURRENCY_RETRY_DELAY_MS : Z := 500.
Definition CHANNEL_BACKPRESSURE_RETRY_DELAY_MS : Z := 100.
Definition CLAIM_ERROR_RETRY_DELAY_MS : Z := 250.

Inductive ClaimOutcome :=
  | Claimed (epoch : option Z)
  | AlreadyClaimed
  | Errored.

Inductive GateDecision :=
  | Proceed
  | Deferred (delay_ms : Z)
  | Shedded (reason : string).

Definition rate_limited (on_excess : OnExcess) (scope : string) : GateDecision :=
  match on_excess with
  | Defer => Deferred RATE_LIMIT_RETRY_DELAY_MS
  | Drop => Shedded (rate_limit_shed_reason scope)
  end.

(** ** Running counts, read once a round *)

Record GateCounts := mkGateCounts {
  gc_task_running : gmap string Z;
  gc_queue_running : gmap string Z;
  gc_namespace_running : gmap (option string) Z
}.

Definition no_counts : GateCounts := mkGateCounts ∅ ∅ ∅.

Definition counts_release (job : Job) (c : GateCounts) : GateCounts :=
  mkGateCounts (alter (fun n => n - 1) (j_task_name job) (gc_task_running c))
    (alter (fun n => n - 1) (j_queue job) (gc_queue_running c))
    (alter (fun n => n - 1) (j_namespace job) (gc_namespace_running c)).

(** ** State *)

(** The worker pool's end of the channel: how many jobs it would take, and what it answers
    to one that is offered. *)
Inductive SendOutcome := Sent | ChannelFull | ChannelClosed.

Class WorkerChannel := {
  channel_capacity : nat -> nat;
  channel_answer : nat -> SendOutcome
}.

Record Poll := mkPoll {
  po_scheduler : Scheduler;
  po_quotas : QuotaCache;
  po_codel_states : gmap string CodelState;
  po_paused : gset string * Z;
  po_sent : list Job
}.

Definition with_scheduler (s : Scheduler) (p : Poll) : Poll :=
  mkPoll s (po_quotas p) (po_codel_states p) (po_paused p) (po_sent p).
Definition with_quotas (c : QuotaCache) (p : Poll) : Poll :=
  mkPoll (po_scheduler p) c (po_codel_states p) (po_paused p) (po_sent p).
Definition with_codel_states (c : gmap string CodelState) (p : Poll) : Poll :=
  mkPoll (po_scheduler p) (po_quotas p) c (po_paused p) (po_sent p).
Definition with_paused (x : gset string * Z) (p : Poll) : Poll :=
  mkPoll (po_scheduler p) (po_quotas p) (po_codel_states p) x (po_sent p).
Definition with_sent (l : list Job) (p : Poll) : Poll :=
  mkPoll (po_scheduler p) (po_quotas p) (po_codel_states p) (po_paused p) l.

Notation PollM := (M (Poll * World) QueueError).

Definition stored {A} (m : DbM A) : PollM A := fun '(p, w) =>
  let '(r, w') := m w in (r, (p, w')).

Definition quoted {A} (m : GateM A) : PollM A := fun '(p, w) =>
  let '(r, (c, w')) := m (po_quotas p, w) in (r, (with_quotas c p, w')).

Definition scheduling (f : Scheduler -> Scheduler) : PollM unit :=
  modify (fun '(p, w) => (with_scheduler (f (po_scheduler p)) p, w)).

Section poller.
Context {E : Env} {G : Engine} {X : Texts} {J : QuotaJson} {T : Monotonic} {B : Base64}.
Context {W : WorkerChannel} (cfg : SchedulerSettings).

(** ** Putting a job back *)

Definition reschedule_deferred (job_id : string) (next_at : Z) : PollM unit :=
  stored (reschedule job_id next_at (sc_namespace cfg)).

(** The claim goes first, and a failure to remove it stops there. *)
Definition rollback_claim_and_reschedule (job_id : string) (next_at : Z) : PollM unit :=
  stored (complete_execution job_id (sc_namespace cfg)) ;;
  reschedule_deferred job_id next_at.

Definition later (now delay_ms : Z) : PollM Z :=
  d ← stored (desync_delay delay_ms);
  mret (as_i64 (now + d)).

(** ** Gates *)

Definition check_pre_claim_gates (job : Job) : PollM GateDecision :=
  let task_config := sc_task_configs cfg !! j_task_name job in
  let on_excess := from_option tc_on_excess Defer task_config in
  queue_ok ← match c ← sc_queue_configs cfg !! j_queue job; qc_rate_limit c with
    | Some rl_config => stored (try_acquire ("queue:" +:+ j_queue job)%string rl_config)
    | None => mret true
    end;
  if negb queue_ok then
    mret (rate_limited on_excess ("queue '" +:+ j_queue job +:+ "'")%string)
  else
    match task_config with
    | None => mret Proceed
    | Some config =>
        closed ← match tc_circuit_breaker config with
          | Some _ => stored (allow (j_task_name job))
          | None => mret true
          end;
        if negb closed then mret (Deferred CIRCUIT_BREAKER_RETRY_DELAY_MS)
        else
          task_ok ← match tc_rate_limit config with
            | Some rl_config => stored (try_acquire (j_task_name job) rl_config)
            | None => mret true
            end;
          if negb task_ok then
            mret (rate_limited on_excess ("task '" +:+ j_task_name job +:+ "'")%string)
          else mret Proceed
    end.

Definition cached_task_running (counts : GateCounts) (task_name : string)
    : PollM (Z * GateCounts) :=
  match gc_task_running counts !! task_name with
  | Some n => mret (n, counts)
  | None =>
      n ← stored (count_running_by_task task_name (sc_namespace cfg));
      mret (n, mkGateCounts (<[task_name := n]> (gc_task_running counts))
                 (gc_queue_running counts) (gc_namespace_running counts))
  end.

Definition cached_namespace_running (counts : GateCounts) (namespace : option string)
    : PollM (Z * GateCounts) :=
  match gc_namespace_running counts !! namespace with
  | Some n => mret (n, counts)
  | None =>
      n ← stored (count_by_namespace namespace Running);
      mret (n, mkGateCounts (gc_task_running counts) (gc_queue_running counts)
                 (<[namespace := n]> (gc_namespace_running counts)))
  end.

Definition cached_queue_running (counts : GateCounts) (queue : string) : PollM (Z * GateCounts) :=
  match gc_queue_running counts !! queue with
  | Some n => mret (n, counts)
  | None =>
      stats ← stored (stats_by_queue queue (sc_namespace cfg));
      let n := st_running stats in
      mret (n, mkGateCounts (gc_task_running counts) (<[queue := n]> (gc_queue_running counts))
                 (gc_namespace_running counts))
  end.

(** A cap on a count that includes the job itself. *)
Definition under_cap (cap : option Z) (counts : GateCounts)
    (read : GateCounts -> PollM (Z * GateCounts)) : PollM (bool * GateCounts) :=
  match cap with
  | None => mret (true, counts)
  | Some cap => '(n, counts) ← read counts; mret (n <=? cap, counts)
  end.

(** The counts read before an error are kept, as the cache is shared by the batch. *)
Definition check_post_claim_concurrency (job : Job) (counts : GateCounts)
    : PollM (Result QueueError bool * GateCounts) :=
  q ← attempt (quoted (cache_get (j_namespace job)));
  match q with
  | Err e => mret (Err e, counts)
  | Ok quota =>
      r ← attempt (under_cap (quota ≫= nq_max_running) counts
        (fun c => cached_namespace_running c (j_namespace job)));
      match r with
      | Err e => mret (Err e, counts)
      | Ok (false, counts) => mret (Ok false, counts)
      | Ok (true, counts) =>
          r ← attempt (under_cap (sc_queue_configs cfg !! j_queue job ≫= qc_max_concurrent) counts
            (fun c => cached_queue_running c (j_queue job)));
          match r with
          | Err e => mret (Err e, counts)
          | Ok (false, counts) => mret (Ok false, counts)
          | Ok (true, counts) =>
              let config := sc_task_configs cfg !! j_task_name job in
              r ← attempt (under_cap (config ≫= tc_max_concurrent) counts
                (fun c => cached_task_running c (j_task_name job)));
              match r with
              | Err e => mret (Err e, counts)
              | Ok (false, counts) => mret (Ok false, counts)
              | Ok (true, counts) =>
                  busy ← gets (fun '(p, _) => task_in_flight (j_task_name job) (po_scheduler p));
                  mret (Ok match config ≫= tc_max_in_flight_per_task with
                           | Some max => negb (max <=? busy)%nat
                           | None => true
                           end, counts)
              end
          end
      end
  end.

Definition shed_rate_limited (job : Job) (reason : string) (claimed : bool) : PollM unit :=
  (if claimed then attempt (stored (complete_execution (j_id job) (sc_namespace cfg))) ;; mret tt
   else mret tt) ;;
  stored (shed_to_dlq_reporting job reason (Some RATE_LIMIT_SHED_METADATA)) ;;
  mret tt.

Definition claim_for_dispatch (job : Job) : PollM ClaimOutcome :=
  r ← attempt (stored (claim_execution (j_id job) (sc_claim_owner cfg)));
  mret match r with
       | Ok (Some epoch) => Claimed (Some epoch)
       | Ok None => AlreadyClaimed
       | Err _ => Errored
       end.

(** ** The tail of a dispatch *)

Definition try_send (job : Job) : PollM SendOutcome := fun '(p, w) =>
  match channel_answer (tick w) with
  | Sent => (Ok Sent, (with_sent (po_sent p ++ [job]) p, bump 1 w))
  | answer => (Ok answer, (p, bump 1 w))
  end.

(** The job goes back with its claim removed, and the call answers with [answer]. *)
Definition hand_back (job : Job) (now delay_ms : Z) (answer : Result QueueError bool)
    (counts : GateCounts) : PollM (Result QueueError bool * GateCounts) :=
  r ← attempt (at_ ← later now delay_ms; rollback_claim_and_reschedule (j_id job) at_);
  mret (match r with Ok _ => answer | Err e => Err e end, counts_release job counts).

(** The answer comes with the counts for the rest of the batch. *)
Definition finish_dispatch (job : Job) (now : Z) (epoch : option Z) (counts : GateCounts)
    : PollM (Result QueueError bool * GateCounts) :=
  '(admitted, counts) ← check_post_claim_concurrency job counts;
  match admitted with
  | Err error => hand_back job now CONCURRENCY_RETRY_DELAY_MS (Err error) counts
  | Ok false => hand_back job now CONCURRENCY_RETRY_DELAY_MS (Ok false) counts
  | Ok true =>
      scheduling (track_in_flight cfg (j_id job) (j_task_name job) (j_queue job)
        (j_retry_count job) epoch) ;;
      answer ← try_send job;
      match answer with
      | Sent => mret (Ok true, counts)
      | _ =>
          scheduling (untrack_in_flight (j_id job)) ;;
          hand_back job now CHANNEL_BACKPRESSURE_RETRY_DELAY_MS (Ok false) counts
      end
  end.

Definition gate_and_dispatch (job : Job) (now : Z) (counts : GateCounts)
    : PollM (Result QueueError bool * GateCounts) :=
  gates ← attempt (check_pre_claim_gates job);
  match gates with
  | Err e => mret (Err e, counts)
  | Ok (Deferred delay_ms) =>
      r ← attempt (at_ ← later now delay_ms; reschedule_deferred (j_id job) at_);
      mret match r with
           | Err e => (Err e, counts)
           | Ok _ => (Ok false, counts_release job counts)
           end
  | Ok (Shedded reason) =>
      r ← attempt (shed_rate_limited job reason false);
      mret match r with
           | Err e => (Err e, counts)
           | Ok _ => (Ok true, counts_release job counts)
           end
  | Ok Proceed =>
      claim ← claim_for_dispatch job;
      match claim with
      | Claimed epoch => finish_dispatch job now epoch counts
      | AlreadyClaimed => mret (Ok false, counts)
      | Errored => hand_back job now CLAIM_ERROR_RETRY_DELAY_MS (Ok false) counts
      end
  end.

Definition dispatch_claimed (job : Job) (now : Z) (epoch : option Z) (counts : GateCounts)
    : PollM (Result QueueError bool * GateCounts) :=
  gates ← attempt (check_pre_claim_gates job);
  match gates with
  | Err e => mret (Err e, counts)
  | Ok (Deferred delay_ms) => hand_back job now delay_ms (Ok false) counts
  | Ok (Shedded reason) =>
      r ← attempt (shed_rate_limited job reason true);
      mret (match r with Ok _ => Ok true | Err e => Err e end, counts_release job counts)
  | Ok Proceed => finish_dispatch job now epoch counts
  end.

(** ** Rounds *)

(** The list of paused queues is read at most once a second; a failed read counts as an
    empty list. *)
Definition active_queues : PollM (list string) :=
  stale ← stored (draw instant_ns) ≫= fun t =>
    gets (fun '(p, _) => bool_decide (1000000000 < t - snd (po_paused p)));
  (if (stale : bool) then
     r ← attempt (stored (list_paused_queues (sc_namespace cfg)));
     t ← stored (draw instant_ns);
     modify (fun '(p, w) =>
       (with_paused (list_to_set match r with Ok l => l | Err _ => [] end, t) p, w))
   else mret tt) ;;
  paused ← gets (fun '(p, _) => fst (po_paused p));
  mret (filter (fun q => q ∉ paused) (sc_queues cfg)).

Definition codel_reason (sojourn target_ms : Z) : string :=
  (CODEL_REASON_PREFIX +:+ " sojourn " +:+ pretty sojourn +:+ "ms exceeded target "
   +:+ pretty target_ms +:+ "ms under sustained overload")%string.

Definition CODEL_SHED_METADATA : string :=
  let q := String (Ascii.ascii_of_nat 34) "" in ("{" +:+ q +:+ "codel" +:+ q +:+ ":true}")%string.

Definition codel_one (now : Z) (kept : list Job) (job : Job) : PollM (list Job) :=
  match sc_codel_configs cfg !! j_queue job with
  | None => mret (kept ++ [job])
  | Some c =>
      let sojourn := Z.max (sat_sub_i64 now (j_scheduled_at job)) 0 in
      st ← gets (fun '(p, _) => default codel_default (po_codel_states p !! j_queue job));
      let '(drop, st) := should_drop sojourn now c st in
      modify (fun '(p, w) => (with_codel_states (<[j_queue job := st]> (po_codel_states p)) p, w)) ;;
      if (drop : bool) then
        stored (shed_to_dlq_reporting job (codel_reason sojourn (cd_target_ms c))
          (Some CODEL_SHED_METADATA)) ;;
        mret kept
      else mret (kept ++ [job])
  end.

Definition codel_admit (jobs : list Job) (now : Z) : PollM (list Job) :=
  if bool_decide (sc_codel_configs cfg = ∅) then mret jobs
  else foldM (codel_one now) [] jobs.

Definition free_slots : PollM nat := stored (draw channel_capacity).

Definition lower {A} (m : PollM (Result QueueError A * GateCounts)) : PollM A :=
  '(r, _) ← m; match r with Ok a => mret a | Err e => throw e end.

Definition try_dispatch : PollM bool :=
  now ← stored now_millis;
  active ← active_queues;
  if bool_decide (active = []) then mret false else
  remaining ← gets (fun '(p, _) => in_flight_remaining cfg (po_scheduler p));
  if bool_decide (remaining = Some 0%nat) then mret false else
  capacity ← free_slots;
  if (capacity =? 0)%nat then mret false else
  dequeued ← stored (dequeue_from_reporting active now (sc_namespace cfg) (sc_dispatch_orders cfg));
  match dq_claimed dequeued with
  | None => mret false
  | Some job =>
      kept ← codel_admit [job] now;
      match last kept with
      | None => mret false
      | Some job => lower (gate_and_dispatch job now no_counts)
      end
  end.

(** A job that fails is logged, and the batch goes on. *)
Definition each_of {A} (f : A -> GateCounts -> PollM (Result QueueError bool * GateCounts))
    (l : list A) : PollM bool :=
  '(any, _) ← foldM (fun '(any, counts) x =>
      '(r, counts) ← f x counts;
      mret (any || match r with Ok b => b | Err _ => false end, counts)) (false, no_counts) l;
  mret any.

Definition dispatch_won (now : Z) (x : Job * option Z) (counts : GateCounts)
    : PollM (Result QueueError bool * GateCounts) :=
  match snd x with
  | None => mret (Ok false, counts)
  | Some epoch => dispatch_claimed (fst x) now (Some epoch) counts
  end.

Definition try_dispatch_batch : PollM bool :=
  now ← stored now_millis;
  active ← active_queues;
  if bool_decide (active = []) then mret false else
  capacity ← free_slots;
  if (capacity =? 0)%nat then mret false else
  remaining ← gets (fun '(p, _) => in_flight_remaining cfg (po_scheduler p));
  if bool_decide (remaining = Some 0%nat) then mret false else
  let budget := from_option (Nat.min (Nat.min (batch_size cfg) capacity))
                  (Nat.min (batch_size cfg) capacity) remaining in
  dequeued ← stored (dequeue_batch_from_reporting active now (sc_namespace cfg) budget
                       (sc_dispatch_orders cfg));
  if bool_decide (dq_claimed dequeued = []) then mret false else
  jobs ← codel_admit (dq_claimed dequeued) now;
  if bool_decide (jobs = []) then mret false else
  claimed ← attempt (stored (claim_execution_batch (j_id <$> jobs) (sc_claim_owner cfg)));
  match claimed with
  | Err _ => each_of (fun job => gate_and_dispatch job now) jobs
  | Ok flags => each_of (dispatch_won now) (zip jobs flags)
  end.

(** [tick_dispatch]: an error is logged and counts as no progress. *)
Definition tick_dispatch : PollM bool :=
  r ← attempt (if (1 <? batch_size cfg)%nat then try_dispatch_batch else try_dispatch);
  mret match r with Ok d => d | Err _ => false end.
End poller.

(** ** What is running *)

(** A running job with the claim on it. *)
Definition running_at (d : DB) (id : string) : option (JobRow * option ExecutionClaimRow) :=
  r ← db_jobs d !! id;
  if jr_status r =? as_int Running then Some (r, db_execution_claims d !! id) else None.

(** Running, and no scheduler holds a claim on it. *)
Definition stranded (d : DB) (id : string) : Prop := exists r, running_at d id = Some (r, None).

Definition running_are (V : string -> option (JobRow * option ExecutionClaimRow)) (w : World)
    : Prop := forall id, running_at (db w) id = V id.

(** The same but for one job. *)
Definition same_but (id : string) (d d' : DB) : Prop :=
  forall id', id' <> id -> running_at d' id' = running_at d id'.

#[export] Instance running_are_mono V : TickMono (running_are V). Proof. by intros d n n'. Qed.
#[export] Instance running_are_rates V : Aside (running_are V) rate_limits. Proof. by intros m w. Qed.
#[export] Instance running_are_breakers V : Aside (running_are V) circuit_breakers.
Proof. by intros m w. Qed.

Lemma running_at_jobs d d' id :
  db_jobs d' !! id = db_jobs d !! id ->
  db_execution_claims d' !! id = db_execution_claims d !! id -> running_at d' id = running_at d id.
Proof. intros Hj Hc. unfold running_at. by rewrite Hj, Hc. Qed.

Lemma same_but_refl id d : same_but id d d.
Proof. by intros id'. Qed.

Lemma same_but_trans id d d1 d2 : same_but id d d1 -> same_but id d1 d2 -> same_but id d d2.
Proof. intros H1 H2 id' Hne. by rewrite H2, H1. Qed.

Lemma same_same_but id d d' : (forall id', running_at d' id' = running_at d id') -> same_but id d d'.
Proof. intros H id' _. apply H. Qed.

Lemma running_row d id r c : running_at d id = Some (r, c) ->
  db_jobs d !! id = Some r /\ jr_status r = as_int Running /\ c = db_execution_claims d !! id.
Proof.
  unfold running_at. destruct (db_jobs d !! id) as [r'|]; [|done]. simpl.
  destruct (Z.eqb_spec (jr_status r') (as_int Running)); [|done]. by intros [= <- <-].
Qed.

Lemma running_at_row d id r :
  db_jobs d !! id = Some r -> jr_status r = as_int Running ->
  running_at d id = Some (r, db_execution_claims d !! id).
Proof. intros Hr Hs. unfold running_at. rewrite Hr. simpl. by rewrite Hs. Qed.

Lemma not_running d id r :
  db_jobs d !! id = Some r -> jr_status r = as_int Pending -> running_at d id = None.
Proof. intros Hr Hs. unfold running_at. rewrite Hr. simpl. by rewrite Hs. Qed.

Lemma stranded_eq d d' id : running_at d' id = running_at d id -> stranded d' id -> stranded d id.
Proof. intros Heq [r Hr]. exists r. congruence. Qed.

(** *** The store's operations on one job *)

Section one_job.
Context {E : Env} {G : Engine} `{!UuidFresh E} `{!ScanComplete G}.

Lemma claim_running id owner w r w' :
  wf w -> claim_execution id owner w = (r, w') ->
  wf w' /\ same_but id (db w) (db w')
  /\ match r with
     | Ok (Some epoch) =>
         db_jobs (db w') = db_jobs (db w)
         /\ exists c, db_execution_claims (db w') !! id = Some c /\ ec_worker_id c = owner
              /\ ec_epoch c = Some epoch
     | Ok None => db w' = db w /\ is_Some (db_execution_claims (db w) !! id)
     | Err _ => db w' = db w
     end.
Proof.
  intros Hwf Hrun. pose proof (keeps_claim_execution id owner w Hwf) as Hwf'.
  rewrite Hrun in Hwf'. split; [exact Hwf'|]. clear Hwf'.
  rewrite claim_execution_eq in Hrun. destruct (pool_ready (tick w)).
  2:{ injection Hrun as <- <-. by split; [apply same_but_refl|]. }
  destruct (db_execution_claims (db w) !! id) as [c|] eqn:Hc; injection Hrun as <- <-.
  { split_and!; [apply same_but_refl|done|by eexists]. }
  split.
  - intros id' Hne. apply running_at_jobs; [done|]. simpl. by rewrite lookup_insert_ne.
  - split; [done|]. eexists. simpl. by rewrite lookup_insert_eq.
Qed.

Lemma complete_running id ns w r w' :
  wf w -> complete_execution id ns w = (r, w') ->
  wf w' /\ same_but id (db w) (db w') /\ db_jobs (db w') = db_jobs (db w).
Proof.
  intros Hwf Hrun. pose proof (keeps_complete_execution id ns w Hwf) as Hwf'.
  rewrite Hrun in Hwf'. split; [exact Hwf'|]. clear Hwf'.
  assert (Hdb : keeps (on_db (fun d => db_jobs d = db_jobs (db w)
    /\ forall id', id' <> id -> db_execution_claims d !! id' = db_execution_claims (db w) !! id'))
    (complete_execution id ns)).
  { unfold complete_execution, hidden_job, get_job. solve_keeps; try apply _.
    - intros w0 [Hj Hc]. simpl. split; [done|]. intros id' Hne. simpl. rewrite lookup_delete_ne by done.
      by apply Hc. }
  destruct (Hdb w) as [Hj Hc]; [done|]. rewrite Hrun in Hj, Hc. simpl in Hj, Hc. split; [|done].
  intros id' Hne. apply running_at_jobs; [by rewrite Hj|by apply Hc].
Qed.

Lemma reschedule_running id t ns w r w' :
  wf w -> reschedule id t ns w = (r, w') ->
  wf w' /\ same_but id (db w) (db w')
  /\ match r with Ok _ => running_at (db w') id = None | Err _ => db w' = db w end.
Proof.
  intros Hwf Hrun. pose proof (keeps_reschedule id t ns w Hwf) as Hwf'.
  rewrite Hrun in Hwf'. split; [exact Hwf'|]. clear Hwf'. unfold reschedule in Hrun.
  destruct (pool_ready (tick w)) eqn:Hp.
  2:{ rewrite (bind_err _ _ _ _ _ (conn_err w Hp)) in Hrun. injection Hrun as <- <-.
      by split; [apply same_but_refl|]. }
  rewrite (bind_ok _ _ _ _ _ (conn_ok w Hp)) in Hrun. unfold mbind, M_bind in Hrun.
  rewrite sql_update_jobs_eq in Hrun. simpl in Hrun.
  destruct (db_jobs (db w) !! id) as [row|] eqn:Hrow.
  2:{ injection Hrun as <- <-. by split; [apply same_but_refl|]. }
  destruct (job_in_namespace _ ns); injection Hrun as <- <-.
  2:{ by split; [apply same_but_refl|]. }
  split.
  - intros id' Hne. apply running_at_jobs; [|done]. simpl. by rewrite lookup_insert_ne.
  - eapply not_running; simpl; [by rewrite lookup_insert_eq|done].
Qed.

Lemma dead_letter_in_running job error md shed now w w' :
  wf w -> dead_letter_in job error md shed now w = (Ok tt, w') ->
  db_jobs (db w') = delete (j_id job) (db_jobs (db w))
  /\ forall id, id <> j_id job -> db_execution_claims (db w') !! id = db_execution_claims (db w) !! id.
Proof.
  intros Hwf. unfold dead_letter_in. erewrite bind_ok by done.
  set (w1 := mkWorld _ _). set (row1 := new_dead_letter_row _ _ _ _ _ _).
  destruct (sql_insert_inv dead_letter (uuid_v7 (tick w)) row1 w1) as [Hi|(_ & _ & Hi)].
  { by rewrite (bind_err _ _ _ _ _ Hi). }
  rewrite (bind_ok _ _ _ _ _ Hi). erewrite bind_ok by done. simpl.
  destruct (db_jobs (db w) !! j_id job) as [row|] eqn:Hrow.
  2:{ intros [= <-]. simpl. by rewrite delete_id. }
  pose proof (wf_live_key _ _ _ _ _ Hwf _ _ Hrow) as Hid.
  rewrite archive_job_row_ok.
  2:{ apply (wf_disjoint _ _ _ _ _ Hwf). simpl. by rewrite Hid, Hrow. }
  intros [= <-]. simpl. rewrite Hid. split; [done|]. intros id Hne. by rewrite lookup_delete_ne.
Qed.

Lemma shed_running job error md shed w r w' :
  wf w -> dead_letter_reporting job error md shed w = (r, w') ->
  wf w' /\ same_but (j_id job) (db w) (db w')
  /\ (is_ok r = true -> running_at (db w') (j_id job) = None).
Proof.
  intros Hwf Hrun. pose proof (keeps_dead_letter job error md shed w Hwf) as Hwf'.
  rewrite Hrun in Hwf'. split; [exact Hwf'|]. clear Hwf'. unfold dead_letter_reporting in Hrun.
  erewrite bind_ok in Hrun by done. set (now := Z.min _ _) in Hrun. set (w1 := mkWorld _ _) in Hrun.
  assert (Hwf1 : wf w1) by exact (wf_bump 1 _ Hwf).
  destruct (write_transaction (dead_letter_in job error md shed now) w1) as [[[]|e] w2] eqn:Ht.
  2:{ rewrite (bind_err _ _ _ _ _ Ht) in Hrun. injection Hrun as <- <-.
      apply write_transaction_err in Ht. rewrite Ht. split; [apply same_but_refl|done]. }
  rewrite (bind_ok _ _ _ _ _ Ht) in Hrun.
  assert (Hwf2 : wf w2).
  { change w2 with (snd (Ok (E:=QueueError) tt, w2)). rewrite <- Ht.
    apply keeps_write_transaction; [apply _|apply keeps_keeps_ok, keeps_dead_letter_in|done]. }
  rewrite write_transaction_eq in Ht. destruct (pool_ready (tick w1)); [|done].
  destruct (dead_letter_in job error md shed now (bump 1 w1)) as [[[]|e] w3] eqn:Hin; [|done].
  injection Ht as <-.
  destruct (dead_letter_in_running _ _ _ _ _ _ _ (wf_bump 1 _ Hwf1) Hin) as [Hj Hc]. simpl in Hj, Hc.
  assert (Hgone : running_at (db w3) (j_id job) = None)
    by (unfold running_at; by rewrite Hj, lookup_delete_eq).
  assert (Hbut : same_but (j_id job) (db w) (db w3)).
  { intros id Hne. apply running_at_jobs; [by rewrite Hj, lookup_delete_ne|by apply Hc]. }
  assert (Hcas : forall id, running_at (db w') id = running_at (db w3) id).
  2:{ split; [|by rewrite Hcas]. by eapply same_but_trans, same_same_but. }
  apply cascade_cases in Hrun as [_ Hr]; [|done].
  destruct r as [cancelled|e]; [|by destruct Hr as [_ ->]].
  destruct Hr as (rows & t & _ & Hrows & _ & He1 & He2 & _ & He4). intros id.
  destruct (decide (id ∈ jr_id <$> rows)) as [(row & -> & Hrow)%list_elem_of_fmap|Hn].
  - destruct (proj1 (Hrows row) Hrow) as (Hl & Hs & _). rewrite (not_running _ _ _ Hl Hs).
    unfold running_at. by rewrite (proj1 (He1 _ Hrow)).
  - apply running_at_jobs; [apply (He2 _ Hn)|by apply He4].
Qed.

(** *** Taking jobs off the queue *)

Lemma dequeue_running q now ns cs xs d d' :
  Forall (claimable q now ns d) cs -> Forall (expirable q now ns d) xs ->
  dequeue_effect now cs xs d d' ->
  (forall id, id ∉ (jr_id <$> cs) -> running_at d' id = running_at d id)
  /\ (forall r, r ∈ cs -> running_at d (jr_id r) = None
       /\ running_at d' (jr_id r) = Some (run_row now r, db_execution_claims d !! jr_id r)).
Proof.
  intros Hcs Hxs (He1 & He2 & He3 & _ & He5). rewrite Forall_forall in Hcs, Hxs.
  assert (Hpend : forall r, r ∈ cs \/ r ∈ xs -> running_at d (jr_id r) = None).
  { intros r [Hr|Hr]; [destruct (Hcs _ Hr) as (Hl & Hc & _)|destruct (Hxs _ Hr) as (Hl & Hc & _)];
      eapply not_running; eauto using is_candidate_pending. }
  split.
  - intros id Hn. destruct (decide (id ∈ jr_id <$> xs)) as [(r & -> & Hr)%list_elem_of_fmap|Hx].
    + rewrite Hpend by by right. unfold running_at. by rewrite (proj1 (He2 _ Hr)).
    + apply running_at_jobs; [|by apply He5]. apply He3. by rewrite fmap_app, not_elem_of_app.
  - intros r Hr. split; [apply Hpend; by left|]. rewrite <- He5; [by apply running_at_row; [apply He1|]|].
    intros (r' & Heq & Hr')%list_elem_of_fmap. destruct (He2 _ Hr') as [Hnone _].
    rewrite <- Heq, He1 in Hnone by done. done.
Qed.

(** The jobs of a round: running since it began, the rest as it was. *)
Record taken (js : list Job) (w0 w : World) : Prop := {
  tk_wf : wf w;
  tk_nodup : NoDup (j_id <$> js);
  tk_jobs : Forall (fun j => running_at (db w0) (j_id j) = None
    /\ exists r c, running_at (db w) (j_id j) = Some (r, c) /\ job_of_row r = j) js;
  tk_rest : forall id, id ∉ (j_id <$> js) -> running_at (db w) id = running_at (db w0) id
}.

Lemma taken_nil w : wf w -> taken [] w w.
Proof. intros Hwf. split; [done|apply NoDup_nil_2|by apply Forall_nil|done]. Qed.

Lemma taken_quiet js w0 w w' :
  wf w' -> (forall id, running_at (db w') id = running_at (db w) id) -> taken js w0 w -> taken js w0 w'.
Proof.
  intros Hwf' Heq [Hwf Hnd Hjs Hrest]. split; [done..| |].
  - eapply Forall_impl; [exact Hjs|]. intros j. by rewrite Heq.
  - intros id Hn. by rewrite Heq, Hrest.
Qed.

Lemma taken_more q now ns cs xs js w0 w w' :
  taken js w0 w -> wf w' -> NoDup (jr_id <$> cs) ->
  Forall (claimable q now ns (db w)) cs -> Forall (expirable q now ns (db w)) xs ->
  dequeue_effect now cs xs (db w) (db w') ->
  taken (js ++ ((fun r => job_of_row (run_row now r)) <$> cs)) w0 w'.
Proof.
  intros [Hwf Hnd Hjs Hrest] Hwf' Hnd' Hcs Hxs Heff.
  destruct (dequeue_running _ _ _ _ _ _ _ Hcs Hxs Heff) as [Hsame Hnew].
  assert (Hids : j_id <$> js ++ ((fun r => job_of_row (run_row now r)) <$> cs)
    = (j_id <$> js) ++ (jr_id <$> cs)) by by rewrite fmap_app, <- list_fmap_compose.
  assert (Hout : forall r, r ∈ cs -> jr_id r ∉ j_id <$> js).
  { intros r Hr (j & Heq & Hj)%list_elem_of_fmap. rewrite Forall_forall in Hjs.
    destruct (Hjs _ Hj) as (_ & r' & c & Hr' & _). destruct (Hnew _ Hr) as [Hnone _].
    by rewrite Heq, Hr' in Hnone. }
  split; [done| | |]; rewrite ?Hids.
  - apply NoDup_app. split_and!; [done| |done]. intros id Hin (r & -> & Hr)%list_elem_of_fmap.
    by eapply Hout.
  - apply Forall_app. split.
    + apply Forall_forall. intros j Hj. rewrite Forall_forall in Hjs.
      destruct (Hjs _ Hj) as (Hnone & r & c & Hr & Heq). split; [done|]. exists r, c. split; [|done].
      rewrite Hsame; [done|]. intros (r' & Hid & Hr')%list_elem_of_fmap. apply (Hout _ Hr').
      rewrite <- Hid. by apply list_elem_of_fmap_2.
    + apply Forall_fmap, Forall_forall. intros r Hr. destruct (Hnew _ Hr) as [Hnone Hrun]. simpl. split.
      * rewrite <- Hrest by by apply Hout. exact Hnone.
      * by eexists _, _.
  - intros id [H1 H2]%not_elem_of_app. by rewrite Hsame, Hrest.
Qed.

Lemma taken_dequeue_from queues now ns orders ex w0 w r w' :
  taken [] w0 w -> dequeue_from_loop queues now ns orders ex w = (r, w') ->
  match r with
  | Ok out => taken (option_list (dq_claimed out)) w0 w'
  | Err _ => taken [] w0 w'
  end.
Proof.
  revert ex w. induction queues as [|q queues IH]; intros ex w Ht; simpl; [by intros [= <- <-]|].
  pose proof (tk_wf _ _ _ Ht) as Hwf.
  destruct (dequeue_ordered_reporting q now ns (order_for orders q) w) as [[res|e] w1] eqn:Hq.
  2:{ rewrite (bind_err _ _ _ _ _ Hq). intros [= <- <-]. destruct (pool_ready (tick w)) eqn:Hp.
      - destruct (dequeue_run q now ns (order_for orders q) w Hwf Hp) as (? & ? & ? & _ & Heq & _).
        by rewrite Heq in Hq.
      - rewrite dequeue_no_pool in Hq by done. injection Hq as <- <-.
        eapply taken_quiet; [by apply (wf_bump 1)| |exact Ht]. done. }
  rewrite (bind_ok _ _ _ _ _ Hq).
  destruct (dequeue_cases _ _ _ _ _ _ _ Hwf Hq) as (Hwf1 & cs & xs & Hlen & Hcl & _ & Hcs & Hxs & Heff).
  assert (Hnd : NoDup (jr_id <$> cs)).
  { destruct cs as [|r1 [|r2 cs]]; simpl in *; [apply NoDup_nil_2|apply NoDup_singleton|lia]. }
  pose proof (taken_more _ _ _ _ _ _ _ _ _ Ht Hwf1 Hnd Hcs Hxs Heff) as Ht1.
  destruct cs as [|r1 [|r2 cs]]; simpl in Hcl, Hlen; [|intros Hx|lia]; rewrite Hcl in *.
  - by apply IH.
  - by injection Hx as <- <-.
Qed.

Lemma taken_dequeue_batch queues now ns max orders out w0 w r w' :
  taken (dq_claimed out) w0 w -> (length (dq_claimed out) <= max)%nat ->
  dequeue_batch_from_loop queues now ns max orders out w = (r, w') ->
  match r with
  | Ok out' => taken (dq_claimed out') w0 w' /\ (length (dq_claimed out') <= max)%nat
  | Err _ => exists js, taken js w0 w'
  end.
Proof.
  revert out w. induction queues as [|q queues IH]; intros out w Ht Hlen; simpl.
  { by intros [= <- <-]. }
  case_bool_decide as Hfull; [by intros [= <- <-]|].
  set (rem := (max - length (dq_claimed out))%nat). assert (Hrem : (0 < rem)%nat) by lia.
  pose proof (tk_wf _ _ _ Ht) as Hwf.
  destruct (dequeue_batch_ordered_reporting q now ns rem (order_for orders q) w)
    as [[res|e] w1] eqn:Hq.
  - rewrite (bind_ok _ _ _ _ _ Hq).
    destruct (dequeue_batch_cases _ _ _ _ _ _ _ _ Hwf Hrem Hq)
      as (Hwf1 & cs & xs & Hcl & _ & Hl & Hnd & _ & Hcs & Hxs & Heff & _).
    pose proof (taken_more _ _ _ _ _ _ _ _ _ Ht Hwf1 Hnd Hcs Hxs Heff) as Ht1.
    rewrite <- Hcl in Ht1. apply IH; [done|]. simpl. rewrite length_app, Hcl, length_fmap. lia.
  - rewrite (bind_err _ _ _ _ _ Hq). intros [= <- <-]. exists (dq_claimed out).
    destruct (pool_ready (tick w)) eqn:Hp.
    + destruct (dequeue_batch_run q now ns rem (order_for orders q) w Hwf Hp Hrem)
        as (? & ? & ? & _ & Heq & _). by rewrite Heq in Hq.
    + rewrite dequeue_batch_no_pool in Hq by done. injection Hq as <- <-.
      eapply taken_quiet; [by apply (wf_bump 1)| |exact Ht]. done.
Qed.

(** Letting go of one of them. *)
Lemma taken_drop js1 j js2 w0 w w' :
  taken (js1 ++ j :: js2) w0 w -> wf w' -> same_but (j_id j) (db w) (db w') ->
  running_at (db w') (j_id j) = None -> taken (js1 ++ js2) w0 w'.
Proof.
  intros [Hwf Hnd Hjs Hrest] Hwf' Hbut Hnone. rewrite fmap_app, fmap_cons in Hnd, Hrest.
  assert (Hj : j_id j ∉ (j_id <$> js1) ++ (j_id <$> js2)).
  { rewrite <- Permutation_middle in Hnd. by apply NoDup_cons in Hnd as [Hn _]. }
  apply Forall_app in Hjs as [Hjs1 [[Hj0 _] Hjs2]%Forall_cons].
  split; [done| | |]; rewrite ?fmap_app.
  - rewrite <- Permutation_middle in Hnd. by apply NoDup_cons in Hnd as [_ Hnd].
  - assert (Hall : Forall (fun j => running_at (db w0) (j_id j) = None
      /\ exists r c, running_at (db w) (j_id j) = Some (r, c) /\ job_of_row r = j) (js1 ++ js2))
      by by apply Forall_app. rewrite Forall_forall in Hall. apply Forall_forall. intros j' Hin.
    destruct (Hall _ Hin) as (? & r & c & Hr & ?). split; [done|]. exists r, c. split; [|done].
    rewrite Hbut; [done|]. intros Heq. apply Hj. rewrite <- Heq, <- fmap_app. by apply list_elem_of_fmap_2.
  - intros id Hn. destruct (decide (id = j_id j)) as [->|Hne]; [by rewrite Hnone, Hj0|].
    rewrite Hbut by done. apply Hrest. rewrite not_elem_of_app in *. by rewrite not_elem_of_cons; naive_solver.
Qed.

(** *** Claiming a batch *)

Lemma claim_batch_loop ids owner now out w r w' :
  foldM (fun claimed job_id =>
      epoch ← mint_claim_epoch;
      c ← insert_claim job_id owner now epoch;
      mret (claimed ++ [c])) out ids w = (r, w') ->
  NoDup ids ->
  exists flags, r = Ok (out ++ flags) /\ db_jobs (db w') = db_jobs (db w)
    /\ (forall id, id ∉ ids -> db_execution_claims (db w') !! id = db_execution_claims (db w) !! id)
    /\ Forall2 (fun id flag => match flag with
         | Some epoch => exists c, db_execution_claims (db w') !! id = Some c
             /\ ec_worker_id c = owner /\ ec_epoch c = Some epoch
         | None => is_Some (db_execution_claims (db w') !! id)
         end) ids flags.
Proof.
  revert out w. induction ids as [|id ids IH]; intros out w; simpl.
  { intros [= <- <-] _. exists []. rewrite app_nil_r. by split_and!. }
  intros Hrun [Hid Hnd]%NoDup_cons. set (epoch := epoch_at (tick w)).
  set (w1 := mkWorld (db w) (S (tick w))).
  assert (Hmint : mint_claim_epoch w = (Ok epoch, w1)) by done.
  destruct (db_execution_claims (db w) !! id) as [c|] eqn:Hc.
  - assert (Hi : insert_claim id owner now epoch w1 = (Ok None, w1))
      by (rewrite insert_claim_eq; simpl; by rewrite Hc).
    erewrite bind_ok in Hrun by (erewrite bind_ok by exact Hmint; by erewrite bind_ok by exact Hi).
    destruct (IH _ _ Hrun Hnd) as (flags & -> & Hj & Hrest & Hf). exists (None :: flags).
    rewrite <- app_assoc. split_and!; [done|done| |].
    + intros id' [_ Hn]%not_elem_of_cons. by rewrite Hrest.
    + constructor; [|done]. rewrite Hrest by done. simpl. by rewrite Hc.
  - set (cl := mkExecutionClaimRow id owner now (Some epoch) None).
    assert (Hi : insert_claim id owner now epoch w1
      = (Ok (Some epoch), mkWorld (claim_db cl id (db w)) (S (tick w))))
      by (rewrite insert_claim_eq; simpl; by rewrite Hc).
    erewrite bind_ok in Hrun by (erewrite bind_ok by exact Hmint; by erewrite bind_ok by exact Hi).
    destruct (IH _ _ Hrun Hnd) as (flags & -> & Hj & Hrest & Hf). exists (Some epoch :: flags).
    rewrite <- app_assoc. split_and!; [done|done| |].
    + intros id' [Hne Hn]%not_elem_of_cons. rewrite Hrest by done. simpl. by rewrite lookup_insert_ne.
    + constructor; [|done]. rewrite Hrest by done. simpl. exists cl. by rewrite lookup_insert_eq.
Qed.
End one_job.

(** ** The poller's own state *)

(** The bookkeeping of the other dispatches. *)
Definition book_but (id : string) (s s' : Scheduler) : Prop :=
  forall id', id' <> id ->
    if_by_job (sd_in_flight s') !! id' = if_by_job (sd_in_flight s) !! id'
    /\ sd_leases s' !! id' = sd_leases s !! id'.

Lemma book_but_refl id s : book_but id s s.
Proof. by intros id'. Qed.

Lemma track_facts {B : Base64} cfg id task queue att epoch s :
  let s' := track_in_flight cfg id task queue att (Some epoch) s in
  if_by_job (sd_in_flight s') !! id
    = Some (mkDispatchRecord task queue (sc_claim_owner cfg) att (Some epoch))
  /\ sd_leases s' !! id = Some (from_epoch epoch) /\ book_but id s s'
  /\ (if_len (sd_in_flight s') <= S (if_len (sd_in_flight s)))%nat.
Proof.
  simpl. unfold book_but, if_len. simpl. destruct (drop_retired_fields id (sd_in_flight s)) as (-> & _).
  unfold issue. split_and!; [apply lookup_insert_eq..| |].
  - intros id' Hne. split; by apply lookup_insert_ne.
  - rewrite map_size_insert. case_match; simpl; lia.
Qed.

Lemma untrack_by_job id s :
  if_by_job (sd_in_flight (untrack_in_flight id s)) = delete id (if_by_job (sd_in_flight s)).
Proof.
  unfold untrack_in_flight, if_forget. simpl. rewrite (proj1 (drop_retired_fields _ _)).
  apply (if_take_by_job id (sd_in_flight s)).
Qed.

Lemma untrack_track_facts {B : Base64} cfg id task queue att epoch s :
  let s' := untrack_in_flight id (track_in_flight cfg id task queue att (Some epoch) s) in
  book_but id s s' /\ (if_len (sd_in_flight s') <= if_len (sd_in_flight s))%nat.
Proof.
  cbv zeta. destruct (track_facts cfg id task queue att epoch s) as (_ & _ & Hbut & _). split.
  - intros id' Hne. rewrite untrack_by_job. destruct (Hbut id' Hne) as [<- <-].
    split; by apply lookup_delete_ne.
  - unfold if_len. rewrite untrack_by_job. simpl. rewrite (proj1 (drop_retired_fields _ _)).
    rewrite delete_insert_eq, map_size_delete. case_match; simpl; lia.
Qed.

Section poll_proofs.
Context {E : Env} {G : Engine} {X : Texts} {J : QuotaJson} {T : Monotonic} {B : Base64}.
Context {W : WorkerChannel} `{!UuidFresh E} `{!ScanComplete G} (cfg : SchedulerSettings).

(** A world a step leaves alone, with what the scheduler holds and has sent. *)
Definition idle (I : World -> Prop) (s : Scheduler) (sent : list Job) (pw : Poll * World) : Prop :=
  wf (snd pw) /\ I (snd pw) /\ po_scheduler (fst pw) = s /\ po_sent (fst pw) = sent.

Lemma stored_inv {A} (m : DbM A) p w r pw' :
  stored m (p, w) = (r, pw') -> exists w', m w = (r, w') /\ pw' = (p, w').
Proof. unfold stored. destruct (m w) as [r' w']. intros [= <- <-]. by exists w'. Qed.

Lemma keeps_stored {A} I s sent (m : DbM A) :
  keeps wf m -> keeps I m -> keeps (idle I s sent) (stored m).
Proof.
  intros Hw HI [p w] (Hwf & Hi & Hs & Hl). specialize (Hw w Hwf). specialize (HI w Hi).
  unfold stored. by destruct (m w).
Qed.

Lemma keeps_stored_read {A} I s sent (m : DbM A) :
  (forall I', TickMono I' -> keeps I' m) -> TickMono I -> keeps (idle I s sent) (stored m).
Proof. intros Hm HI. apply keeps_stored; apply Hm; [apply _|done]. Qed.

Lemma keeps_quoted I `{!TickMono I} s sent ns : keeps (idle I s sent) (quoted (cache_get ns)).
Proof.
  assert (Hk : keeps (fun cw : QuotaCache * World => wf (snd cw) /\ I (snd cw)) (cache_get ns)).
  { assert (Hin : forall A (m : DbM A), (forall I', TickMono I' -> keeps I' m) ->
      keeps (fun cw : QuotaCache * World => wf (snd cw) /\ I (snd cw)) (in_store m)).
    { intros A m Hm [c w] [Hwf Hi]. pose proof (Hm wf _ w Hwf). pose proof (Hm I _ w Hi).
      unfold in_store. by destruct (m w). }
    unfold cache_get, cache_hit, cache_insert.
    apply keeps_bind; [apply keeps_bind; [apply keeps_gets|]|].
    - intros [[]|]; [|apply keeps_ret]. apply keeps_bind; [|intros ?; apply keeps_ret].
      apply Hin. intros I' ?. apply keeps_draw, _.
    - intros [q|]; [apply keeps_ret|]. apply keeps_bind.
      + apply Hin. intros I' ?. unfold read_quota, get_setting. solve_keeps.
      + intros q. apply keeps_bind; [|intros []; apply keeps_ret]. apply keeps_bind.
        * apply Hin. intros I' ?. apply keeps_draw, _.
        * by intros t [c w]. }
  intros [p w] (Hwf & Hi & Hs & Hl). specialize (Hk (po_quotas p, w) (conj Hwf Hi)).
  unfold quoted. destruct (cache_get ns (po_quotas p, w)) as [r [c w']]. simpl in Hk.
  destruct Hk. by split_and!.
Qed.

(** The settings, with a cache of quotas that agrees with them. *)
Definition cached (st : gmap string DashboardSettingRow) (pw : Poll * World) : Prop :=
  settings_are st (snd pw) /\ coherent (po_quotas (fst pw)) (db (snd pw)).

Lemma keeps_cached_stored {A} st (m : DbM A) :
  keeps (settings_are st) m -> keeps (cached st) (stored m).
Proof.
  intros Hm [p w] [Hs Hc]. specialize (Hm w Hs). unfold stored. destruct (m w) as [r w']. simpl in *.
  split; [done|]. eapply coherent_settings; [|exact Hc]. unfold settings_are in *. simpl in *. congruence.
Qed.

#[local] Instance settings_tick st : TickMono (settings_are st). Proof. by intros d n n'. Qed.

Lemma keeps_cached_quoted st ns : keeps (cached st) (quoted (cache_get ns)).
Proof.
  intros [p w] [Hs Hc]. unfold quoted.
  destruct (cache_get ns (po_quotas p, w)) as [r [c' w']] eqn:Hg.
  destruct (cache_get_run _ _ _ _ _ _ Hc Hg) as (Hc' & [n ->] & _). by split.
Qed.

(** What the poller's own reads keep. *)
Class Quiet (K : Poll * World -> Prop) : Prop := {
  quiet_read : forall A (m : DbM A), (forall I, TickMono I -> keeps I m) -> keeps K (stored m);
  quiet_quota : forall ns, keeps K (quoted (cache_get ns))
}.

#[local] Instance idle_quiet I `{!TickMono I} s sent : Quiet (idle I s sent).
Proof. split; [intros A m Hm; by apply keeps_stored_read|intros ns; by apply keeps_quoted]. Qed.

#[local] Instance cached_quiet st : Quiet (cached st).
Proof.
  split; [|apply keeps_cached_quoted]. intros A m Hm. apply keeps_cached_stored, Hm, _.
Qed.

Section quiet.
Context (K : Poll * World -> Prop) `{!Quiet K}.

Lemma keeps_later now d : keeps K (later now d).
Proof.
  apply keeps_bind; [|intros t; apply keeps_ret]. apply quiet_read.
  intros I' ?. unfold desync_delay, full_jitter. solve_keeps.
Qed.

Lemma keeps_under_cap cap counts read :
  (forall c, keeps K (read c)) -> keeps K (under_cap cap counts read).
Proof.
  intros Hr. unfold under_cap. destruct cap; [|apply keeps_ret].
  apply keeps_bind; [apply Hr|]. intros [n c]. apply keeps_ret.
Qed.

Lemma keeps_namespace_running c ns : keeps K (cached_namespace_running c ns).
Proof.
  unfold cached_namespace_running. case_match; [apply keeps_ret|].
  apply keeps_bind; [|intros ?; apply keeps_ret]. apply quiet_read.
  intros I' ?. unfold count_by_namespace. solve_keeps.
Qed.

Lemma keeps_queue_running c q : keeps K (cached_queue_running cfg c q).
Proof.
  unfold cached_queue_running. case_match; [apply keeps_ret|].
  apply keeps_bind; [|intros ?; apply keeps_ret]. apply quiet_read.
  intros I' ?. unfold stats_by_queue. solve_keeps.
Qed.

Lemma keeps_task_running c t : keeps K (cached_task_running cfg c t).
Proof.
  unfold cached_task_running. case_match; [apply keeps_ret|].
  apply keeps_bind; [|intros ?; apply keeps_ret]. apply quiet_read.
  intros I' ?. unfold count_running_by_task. solve_keeps.
Qed.

Lemma keeps_post_claim job counts : keeps K (check_post_claim_concurrency cfg job counts).
Proof.
  pose proof keeps_namespace_running as Hn. pose proof keeps_queue_running as Hq.
  pose proof keeps_task_running as Ht. unfold check_post_claim_concurrency.
  apply keeps_bind; [apply keeps_attempt, quiet_quota|]. intros [q|e]; [|apply keeps_ret].
  apply keeps_bind; [by apply keeps_attempt, keeps_under_cap|]. intros [[[] c1]|e]; try apply keeps_ret.
  apply keeps_bind; [by apply keeps_attempt, keeps_under_cap|]. intros [[[] c2]|e]; try apply keeps_ret.
  apply keeps_bind; [by apply keeps_attempt, keeps_under_cap|]. intros [[[] c3]|e]; try apply keeps_ret.
  apply keeps_bind; [apply keeps_gets|]. intros n. apply keeps_ret.
Qed.

Lemma keeps_pre_claim job :
  (forall k c, keeps K (stored (try_acquire k c))) -> (forall t, keeps K (stored (allow t))) ->
  keeps K (check_pre_claim_gates cfg job).
Proof.
  intros Ha Hb. unfold check_pre_claim_gates. apply keeps_bind; [case_match; [apply Ha|apply keeps_ret]|].
  intros ok. case_match; [apply keeps_ret|]. case_match; [|apply keeps_ret].
  apply keeps_bind; [case_match; [apply Hb|apply keeps_ret]|].
  intros ok'. case_match; [apply keeps_ret|].
  apply keeps_bind; [case_match; [apply Ha|apply keeps_ret]|].
  intros ok''. case_match; apply keeps_ret.
Qed.
End quiet.

Lemma keeps_gates_idle V s sent job : keeps (idle (running_are V) s sent) (check_pre_claim_gates cfg job).
Proof.
  apply keeps_pre_claim; intros; apply keeps_stored;
    unfold allow, try_acquire, try_acquire_token, try_acquire_tokens; solve_keeps.
Qed.

#[local] Instance settings_rates st : Aside (settings_are st) rate_limits. Proof. by intros m w. Qed.
#[local] Instance settings_breakers st : Aside (settings_are st) circuit_breakers. Proof. by intros m w. Qed.
#[local] Instance settings_jobs st : Aside (settings_are st) jobs. Proof. by intros m w. Qed.
#[local] Instance settings_dead st : Aside (settings_are st) dead_letter. Proof. by intros m w. Qed.
#[local] Instance settings_archived st : Aside (settings_are st) archived_jobs. Proof. by intros m w. Qed.
#[local] Instance settings_steps st : Aside (settings_are st) job_steps. Proof. by intros m w. Qed.
#[local] Instance settings_claims st : Aside (settings_are st) execution_claims. Proof. by intros m w. Qed.

Lemma keeps_gates_cached st job : keeps (cached st) (check_pre_claim_gates cfg job).
Proof.
  apply keeps_pre_claim; intros; apply keeps_cached_stored;
    unfold allow, try_acquire, try_acquire_token, try_acquire_tokens; solve_keeps.
Qed.

Lemma keeps_shed_cached st job reason md : keeps (cached st) (stored (shed_to_dlq_reporting job reason md)).
Proof.
  apply keeps_cached_stored. unfold shed_to_dlq_reporting, dead_letter_reporting, dead_letter_in,
    cascade_cancel_reporting, archive_job_row.
  repeat (apply keeps_bind; [first [apply keeps_bfs|solve_keeps]|intros ?]). case_match; solve_keeps.
Qed.

Lemma keeps_claim_cached st id owner : keeps (cached st) (stored (claim_execution id owner)).
Proof. apply keeps_cached_stored. unfold claim_execution, insert_claim, mint_claim_epoch. solve_keeps. Qed.

Lemma keeps_dequeue_cached st queues now ns orders :
  keeps (cached st) (stored (dequeue_from_reporting queues now ns orders)).
Proof.
  apply keeps_cached_stored. unfold dequeue_from_reporting. generalize (@nil Job).
  induction queues as [|q queues IH]; intros ex; simpl; [apply keeps_ret|].
  apply keeps_bind; [|intros step; case_match; [apply keeps_ret|apply IH]].
  unfold dequeue_ordered_reporting. apply keeps_write_transaction; [apply _|]. apply keeps_keeps_ok.
  apply keeps_bind; [unfold scan_dequeue_candidates; solve_keeps|]. intros cs.
  generalize (@nil Job). induction cs as [|c cs IHc]; intros l; simpl; [apply keeps_ret|].
  apply keeps_bind; [|intros [[|] [|]]; try apply keeps_ret; apply IHc].
  unfold try_candidate, archive_expired_candidate, claim_row, deps_satisfied, archive_job_row. solve_keeps.
Qed.

(** *** Putting a job back *)

Lemma later_run now d p w r pw' :
  wf w -> later now d (p, w) = (r, pw') ->
  exists t w', r = Ok t /\ pw' = (p, w') /\ wf w' /\ db w' = db w.
Proof.
  intros Hwf Hrun.
  assert (Hd : exists t w', desync_delay d w = (Ok t, w') /\ wf w' /\ db w' = db w).
  { unfold desync_delay, full_jitter. case_match.
    - by eexists _, w.
    - eexists _, _. split; [done|]. split; [exact (wf_bump 1 _ Hwf)|done]. }
  destruct Hd as (t & w' & Hd & Hwf' & Hdb). unfold later in Hrun.
  erewrite bind_ok in Hrun by (unfold stored; by rewrite Hd). injection Hrun as <- <-.
  by eexists _, w'.
Qed.

Lemma back_run id now d p w r pw' :
  wf w -> (at_ ← later now d; rollback_claim_and_reschedule cfg id at_) (p, w) = (r, pw') ->
  exists w', pw' = (p, w') /\ wf w' /\ same_but id (db w) (db w')
    /\ (is_ok r = true -> running_at (db w') id = None).
Proof.
  intros Hwf [(t & pw1 & H1 & H2)|(e & H1 & ->)]%bind_inv;
    destruct (later_run _ _ _ _ _ _ Hwf H1) as (t' & w1 & Ht & -> & Hwf1 & Hdb1); [|done].
  unfold rollback_claim_and_reschedule, reschedule_deferred in H2.
  apply bind_inv in H2 as [([] & pw2 & H2 & H3)|(e & H2 & ->)];
    apply stored_inv in H2 as (w2 & H2 & ->);
    destruct (complete_running _ _ _ _ _ Hwf1 H2) as (Hwf2 & Hbut2 & _); rewrite Hdb1 in Hbut2.
  2:{ exists w2. by split_and!. }
  apply stored_inv in H3 as (w3 & H3 & ->).
  destruct (reschedule_running _ _ _ _ _ _ Hwf2 H3) as (Hwf3 & Hbut3 & Hr).
  exists w3. split_and!; [done|done|by eapply same_but_trans|]. by destruct r.
Qed.

Lemma defer_run id now d p w r pw' :
  wf w -> (at_ ← later now d; reschedule_deferred cfg id at_) (p, w) = (r, pw') ->
  exists w', pw' = (p, w') /\ wf w' /\ same_but id (db w) (db w')
    /\ (is_ok r = true -> running_at (db w') id = None).
Proof.
  intros Hwf [(t & pw1 & H1 & H2)|(e & H1 & ->)]%bind_inv;
    destruct (later_run _ _ _ _ _ _ Hwf H1) as (t' & w1 & Ht & -> & Hwf1 & Hdb1); [|done].
  apply stored_inv in H2 as (w3 & H3 & ->).
  destruct (reschedule_running _ _ _ _ _ _ Hwf1 H3) as (Hwf3 & Hbut3 & Hr). rewrite Hdb1 in Hbut3.
  exists w3. split_and!; [done..|]. by destruct r.
Qed.

Lemma shed_limited_run job reason claimed p w r pw' :
  wf w -> shed_rate_limited cfg job reason claimed (p, w) = (r, pw') ->
  exists w', pw' = (p, w') /\ wf w' /\ same_but (j_id job) (db w) (db w')
    /\ (is_ok r = true -> running_at (db w') (j_id job) = None).
Proof.
  intros Hwf Hrun. unfold shed_rate_limited in Hrun.
  assert (H1 : exists w1, (if claimed
      then attempt (stored (complete_execution (j_id job) (sc_namespace cfg))) ;; mret tt
      else mret tt) (p, w) = (Ok (E:=QueueError) tt, (p, w1))
    /\ wf w1 /\ same_but (j_id job) (db w) (db w1)).
  { destruct claimed; [|exists w; split_and!; [done..|apply same_but_refl]].
    unfold mbind, M_bind, attempt, stored.
    destruct (complete_execution (j_id job) (sc_namespace cfg) w) as [r1 w1] eqn:Hc.
    destruct (complete_running _ _ _ _ _ Hwf Hc) as (? & ? & _). by exists w1. }
  destruct H1 as (w1 & H1 & Hwf1 & Hbut1). rewrite (bind_ok _ _ _ _ _ H1) in Hrun.
  apply bind_inv in Hrun as [(l & pw2 & H2 & H3)|(e & H2 & ->)];
    apply stored_inv in H2 as (w2 & H2 & ->);
    destruct (shed_running _ _ _ _ _ _ _ Hwf1 H2) as (Hwf2 & Hbut2 & Hr);
    [injection H3 as <- <-|]; exists w2; (split_and!; [done..|by eapply same_but_trans|done]).
Qed.

(** *** One job of a round *)

(** Handed to the worker pool: running under this scheduler's claim, and on the books with
    the token its result will be checked against. *)
Definition in_hand (job : Job) (p : Poll) (w : World) : Prop :=
  exists row c epoch, running_at (db w) (j_id job) = Some (row, Some c) /\ job_of_row row = job
    /\ ec_worker_id c = sc_claim_owner cfg /\ ec_epoch c = Some epoch
    /\ if_by_job (sd_in_flight (po_scheduler p)) !! j_id job
       = Some (mkDispatchRecord (j_task_name job) (j_queue job) (sc_claim_owner cfg)
                 (j_retry_count job) (Some epoch))
    /\ sd_leases (po_scheduler p) !! j_id job = Some (from_epoch epoch).

(** The caps on what may run at once, in a world: those of the namespace's quota, of the
    queue and of the task, and the task's share of this scheduler's slots. *)
Definition running_rows (P : JobRow -> bool) (d : DB) : Z :=
  count (filter (fun r => jr_status r = as_int Running /\ Is_true (P r)) (map_to_list (db_jobs d)).*2).

Definition within_caps (job : Job) (p : Poll) (w : World) : Prop :=
  (forall q max, stored_quota (db w) (j_namespace job) = Ok (Some q) -> nq_max_running q = Some max ->
     running_rows (fun r => same_namespace (jr_namespace r) (j_namespace job)) (db w) <= max)
  /\ (forall max, sc_queue_configs cfg !! j_queue job ≫= qc_max_concurrent = Some max ->
     running_rows (fun r => bool_decide (jr_queue r = j_queue job)
       && ns_filter (sc_namespace cfg) (jr_namespace r)) (db w) <= max)
  /\ (forall max, sc_task_configs cfg !! j_task_name job ≫= tc_max_concurrent = Some max ->
     running_rows (fun r => bool_decide (jr_task_name r = j_task_name job)
       && ns_filter (sc_namespace cfg) (jr_namespace r)) (db w) <= max)
  /\ (forall max, sc_task_configs cfg !! j_task_name job ≫= tc_max_in_flight_per_task = Some max ->
     (task_in_flight (j_task_name job) (po_scheduler p) <= max)%nat).

(** What became of a job: nothing else that runs has changed, and either it was sent, within the caps if they were counted for it alone, or
    it was not and, when no error is reported, it is not left running without a claim. *)
Definition handled (job : Job) (counts : GateCounts) (res : Result QueueError bool) (p : Poll)
    (w : World) (p' : Poll) (w' : World) : Prop :=
  wf w' /\ same_but (j_id job) (db w) (db w')
  /\ book_but (j_id job) (po_scheduler p) (po_scheduler p')
  /\ (po_sent p' = po_sent p ++ [job] /\ res = Ok true /\ in_hand job p' w'
        /\ (counts = no_counts -> coherent (po_quotas p) (db w) -> within_caps job p' w')
        /\ (if_len (sd_in_flight (po_scheduler p'))
            <= S (if_len (sd_in_flight (po_scheduler p))))%nat
      \/ po_sent p' = po_sent p
        /\ (if_len (sd_in_flight (po_scheduler p')) <= if_len (sd_in_flight (po_scheduler p)))%nat
        /\ (is_ok res = true -> ~ stranded (db w') (j_id job))).

Lemma not_stranded d id : running_at d id = None -> ~ stranded d id.
Proof. intros Hn [r Hr]. congruence. Qed.

(** Any quiet step before changes nothing. *)
Lemma handled_after job counts res p w p1 w1 p' w' :
  (forall id, running_at (db w1) id = running_at (db w) id) ->
  (coherent (po_quotas p) (db w) -> coherent (po_quotas p1) (db w1)) ->
  po_scheduler p1 = po_scheduler p -> po_sent p1 = po_sent p ->
  handled job counts res p1 w1 p' w' -> handled job counts res p w p' w'.
Proof.
  intros Hr Hco Hs Hl (Hwf & Hbut & Hbook & Hres). unfold handled. rewrite <- Hs, <- Hl.
  split_and!; [done| |done|].
  - intros id Hne. by rewrite Hbut, Hr.
  - destruct Hres as [(? & ? & ? & ? & ?)|?]; [left; split_and!; auto|by right].
Qed.

Lemma handled_back job counts res p w w' :
  wf w' -> same_but (j_id job) (db w) (db w') ->
  (is_ok res = true -> running_at (db w') (j_id job) = None) ->
  handled job counts res p w p w'.
Proof.
  intros Hwf Hbut Hr. split_and!; [done|done|apply book_but_refl|]. right.
  split_and!; [done|done|]. intros Hok. apply not_stranded; auto.
Qed.

Lemma attempt_total {S' A} (m : M S' QueueError A) s :
  exists r s', m s = (r, s') /\ attempt m s = (Ok r, s').
Proof. unfold attempt. destruct (m s) as [r s']. by exists r, s'. Qed.

Lemma hand_back_run job now delay answer counts p w :
  wf w ->
  exists res counts' w',
    hand_back cfg job now delay answer counts (p, w) = (Ok (res, counts'), (p, w'))
    /\ wf w' /\ same_but (j_id job) (db w) (db w')
    /\ (is_ok res = true -> running_at (db w') (j_id job) = None).
Proof.
  intros Hwf. unfold hand_back.
  destruct (attempt_total (at_ ← later now delay; rollback_claim_and_reschedule cfg (j_id job) at_)
    (p, w)) as (r & pw' & Hb & Ha). rewrite (bind_ok _ _ _ _ _ Ha).
  destruct (back_run _ _ _ _ _ _ _ Hwf Hb) as (w' & -> & Hwf' & Hbut & Hr).
  eexists _, _, w'. split_and!; [done..|]. destruct r; [intros _; by apply Hr|done].
Qed.

Lemma running_rows_scan P d :
  count (filter (fun r => jr_status r = as_int Running /\ Is_true (P r)) (scan (db_jobs d)))
  = running_rows P d.
Proof. unfold running_rows. by rewrite (scan_perm _ _ (db_jobs d)). Qed.

(** The counts the caps are compared with. *)
Lemma namespace_running_run ns w n w' :
  count_by_namespace ns Running w = (Ok n, w') ->
  n = running_rows (fun r => same_namespace (jr_namespace r) ns) (db w).
Proof.
  unfold count_by_namespace. destruct (pool_ready (tick w)) eqn:Hp.
  2:{ by rewrite (bind_err _ _ _ _ _ (conn_err _ Hp)). }
  rewrite (bind_ok _ _ _ _ _ (conn_ok _ Hp)). intros [= <- _]. rewrite <- running_rows_scan.
  unfold count. do 2 f_equal. apply list_filter_iff. intros r. by rewrite !Is_true_true, andb_true_iff, Z.eqb_eq.
Qed.

Lemma task_running_run task ns w n w' :
  count_running_by_task task ns w = (Ok n, w') ->
  n = running_rows (fun r => bool_decide (jr_task_name r = task) && ns_filter ns (jr_namespace r)) (db w).
Proof.
  unfold count_running_by_task. destruct (pool_ready (tick w)) eqn:Hp.
  2:{ by rewrite (bind_err _ _ _ _ _ (conn_err _ Hp)). }
  rewrite (bind_ok _ _ _ _ _ (conn_ok _ Hp)). intros [= <- _]. rewrite <- running_rows_scan.
  unfold count. do 2 f_equal. apply list_filter_iff. intros r.
  rewrite !Is_true_true, !andb_true_iff, Z.eqb_eq. tauto.
Qed.

Lemma queue_running_run queue ns w st w' :
  wf w -> stats_by_queue queue ns w = (Ok st, w') ->
  st_running st = running_rows (fun r => bool_decide (jr_queue r = queue)
    && ns_filter ns (jr_namespace r)) (db w).
Proof.
  intros Hwf Hrun. destruct (pool_ready (tick w)) eqn:Hp.
  2:{ unfold stats_by_queue in Hrun. by rewrite (bind_err _ _ _ _ _ (conn_err _ Hp)) in Hrun. }
  destruct (stats_spec queue ns w Hwf Hp) as (st0 & st_q & _ & Hq & Hst).
  rewrite Hq in Hrun. injection Hrun as <- _. destruct (Hst Running) as [_ Hr]. simpl in Hr. rewrite Hr.
  destruct (tally_split w (fun r => bool_decide (jr_queue r = queue) && ns_filter ns (jr_namespace r))
    (fun r => bool_decide (ar_queue r = queue) && ns_filter ns (ar_namespace r))
    (in_queue (Some queue) ns) Running Hwf) as [-> _]; [done..|].
  rewrite <- running_rows_scan, list_filter_filter.
  rewrite (count_none ar_status); [lia|].
  intros (r & Heq & [_ [k Hk]%elem_of_scan]%list_elem_of_filter)%list_elem_of_fmap.
  pose proof (wf_arch_status _ _ _ _ _ Hwf _ _ Hk) as Ht. simpl in Ht. by rewrite <- Heq in Ht.
Qed.

Lemma attempt_inv {S' A} (m : M S' QueueError A) s r s' : attempt m s = (Ok r, s') -> m s = (r, s').
Proof. unfold attempt. destruct (m s). by intros [= <- <-]. Qed.

Lemma post_claim_total job counts pw :
  exists ac pw', check_post_claim_concurrency cfg job counts pw = (Ok ac, pw').
Proof.
  unfold check_post_claim_concurrency.
  destruct (attempt_total (quoted (cache_get (j_namespace job))) pw) as ([q|e] & s1 & _ & H1);
    rewrite (bind_ok _ _ _ _ _ H1); [|by eexists _, _].
  do 3 (match goal with |- context [attempt (under_cap ?x ?y ?z)] =>
    match goal with |- context [(_ ≫= _) ?s] =>
      destruct (attempt_total (under_cap x y z) s) as ([[[] ?]|?] & ? & _ & H2);
      rewrite (bind_ok _ _ _ _ _ H2); clear H2; try (by eexists _, _) end end).
Qed.

Lemma coherent_cached p w : coherent (po_quotas p) (db w) <-> cached (db_dashboard_settings (db w)) (p, w).
Proof. split; [by split|by intros [_ ?]]. Qed.

Lemma post_claim_run job counts p w :
  wf w ->
  exists a counts' p' w',
    check_post_claim_concurrency cfg job counts (p, w) = (Ok (a, counts'), (p', w'))
    /\ wf w' /\ db w' = db w /\ po_scheduler p' = po_scheduler p /\ po_sent p' = po_sent p
    /\ (coherent (po_quotas p) (db w) -> coherent (po_quotas p') (db w')).
Proof.
  intros Hwf. destruct (post_claim_total job counts (p, w)) as ([a c'] & [p' w'] & Heq).
  assert (Hk := keeps_post_claim (idle (on_db (fun d => d = db w)) (po_scheduler p) (po_sent p)) job counts
    (p, w) (conj Hwf (conj eq_refl (conj eq_refl eq_refl)))).
  pose proof (fun Hc => keeps_post_claim (cached _) job counts _ (proj1 (coherent_cached p w) Hc)) as Hc.
  rewrite Heq in Hk, Hc. exists a, c', p', w'. destruct Hk as (? & ? & ? & ?).
  split_and!; [done..|]. intros Hco. apply (Hc Hco).
Qed.

Lemma track_count id task queue att epoch s :
  (task_in_flight task (track_in_flight cfg id task queue att epoch s) <= S (task_in_flight task s))%nat.
Proof.
  unfold task_in_flight, count_for. simpl.
  destruct (drop_retired_fields id (sd_in_flight s)) as (_ & Hc & _). rewrite Hc.
  case_match; [lia|]. rewrite lookup_insert_eq. simpl. unfold count_for. by rewrite Hc.
Qed.

(** A cap that was not exceeded. *)
Lemma under_cap_inv cap counts read s c' s' max :
  attempt (under_cap cap counts read) s = (Ok (Ok (true, c')), s') -> cap = Some max ->
  exists n, read counts s = (Ok (n, c'), s') /\ n <= max.
Proof.
  intros Ha%attempt_inv ->. simpl in Ha.
  apply bind_inv_ok in Ha as ([n c1] & s1 & Hr & [= Hle <- <-]). exists n. split; [done|]. lia.
Qed.

Lemma under_namespace_counts cap counts ns s c' s' :
  attempt (under_cap cap counts (fun c => cached_namespace_running c ns)) s = (Ok (Ok (true, c')), s') ->
  gc_queue_running c' = gc_queue_running counts /\ gc_task_running c' = gc_task_running counts.
Proof.
  intros Ha%attempt_inv. destruct cap as [cap|]; simpl in Ha; [|by injection Ha as <- _].
  apply bind_inv_ok in Ha as ([n c1] & s1 & Hr & [= _ <- _]). unfold cached_namespace_running in Hr.
  case_match; [by injection Hr as _ <- _|]. by apply bind_inv_ok in Hr as (n' & s2 & _ & [= _ <- _]).
Qed.

Lemma under_queue_counts cap counts q s c' s' :
  attempt (under_cap cap counts (fun c => cached_queue_running cfg c q)) s = (Ok (Ok (true, c')), s') ->
  gc_task_running c' = gc_task_running counts.
Proof.
  intros Ha%attempt_inv. destruct cap as [cap|]; simpl in Ha; [|by injection Ha as <- _].
  apply bind_inv_ok in Ha as ([n c1] & s1 & Hr & [= _ <- _]). unfold cached_queue_running in Hr.
  case_match; [by injection Hr as _ <- _|]. by apply bind_inv_ok in Hr as (n' & s2 & _ & [= _ <- _]).
Qed.

Lemma post_claim_caps job p w c' p' w' :
  wf w -> coherent (po_quotas p) (db w) ->
  check_post_claim_concurrency cfg job no_counts (p, w) = (Ok (Ok true, c'), (p', w')) ->
  (forall q max, stored_quota (db w) (j_namespace job) = Ok (Some q) -> nq_max_running q = Some max ->
     running_rows (fun r => same_namespace (jr_namespace r) (j_namespace job)) (db w) <= max)
  /\ (forall max, sc_queue_configs cfg !! j_queue job ≫= qc_max_concurrent = Some max ->
     running_rows (fun r => bool_decide (jr_queue r = j_queue job)
       && ns_filter (sc_namespace cfg) (jr_namespace r)) (db w) <= max)
  /\ (forall max, sc_task_configs cfg !! j_task_name job ≫= tc_max_concurrent = Some max ->
     running_rows (fun r => bool_decide (jr_task_name r = j_task_name job)
       && ns_filter (sc_namespace cfg) (jr_namespace r)) (db w) <= max)
  /\ (forall max, sc_task_configs cfg !! j_task_name job ≫= tc_max_in_flight_per_task = Some max ->
     (task_in_flight (j_task_name job) (po_scheduler p) < max)%nat).
Proof.
  intros Hwf Hco Hrun. unfold check_post_claim_concurrency in Hrun.
  set (same := idle (on_db (fun d => d = db w)) (po_scheduler p) (po_sent p)).
  assert (Hi0 : same (p, w)) by by split_and!.
  assert (Hstep : forall A (m : PollM A) r pw1 pw2, keeps same m -> same pw1 ->
    attempt m pw1 = (Ok r, pw2) -> same pw2).
  { intros A m r pw1 pw2 Hm Hi Ha%attempt_inv. specialize (Hm pw1 Hi). by rewrite Ha in Hm. }
  pose proof (idle_quiet (on_db (fun d => d = db w)) (po_scheduler p) (po_sent p)) as Hquiet.
  apply bind_inv_ok in Hrun as (rq & pw1 & H1 & Hrun).
  pose proof (Hstep _ _ _ _ _ (quiet_quota (K:=same) _) Hi0 H1) as Hi1. apply attempt_inv in H1.
  destruct rq as [quota|e]; [|done].
  assert (Hquota : stored_quota (db w) (j_namespace job) = Ok quota).
  { unfold quoted in H1. destruct (cache_get (j_namespace job) (po_quotas p, w)) as [r [c1 w1]] eqn:Hg.
    injection H1 as -> _. destruct (cache_get_run _ _ _ _ _ _ Hco Hg) as (_ & _ & Hq). by apply Hq. }
  apply bind_inv_ok in Hrun as (r2 & pw2 & H2 & Hrun).
  pose proof (Hstep _ _ _ _ _ (keeps_under_cap same _ _ _ (fun c => keeps_namespace_running same c _)) Hi1 H2) as Hi2.
  destruct r2 as [[[] c2]|e]; [|done..].
  apply bind_inv_ok in Hrun as (r3 & pw3 & H3 & Hrun).
  pose proof (Hstep _ _ _ _ _ (keeps_under_cap same _ _ _ (fun c => keeps_queue_running same c _)) Hi2 H3) as Hi3.
  destruct r3 as [[[] c3]|e]; [|done..].
  apply bind_inv_ok in Hrun as (r4 & pw4 & H4 & Hrun).
  pose proof (Hstep _ _ _ _ _ (keeps_under_cap same _ _ _ (fun c => keeps_task_running same c _)) Hi3 H4) as Hi4.
  destruct r4 as [[[] c4]|e]; [|done..].
  assert (Hdb : forall pw', same pw' -> db (snd pw') = db w) by by intros pw' (_ & ? & _).
  destruct (under_namespace_counts _ _ _ _ _ _ H2) as [Hq2 Ht2].
  pose proof (under_queue_counts _ _ _ _ _ _ H3) as Ht3. split_and!.
  - intros q max Hq Hm. rewrite Hquota in Hq. injection Hq as ->.
    destruct (under_cap_inv _ _ _ _ _ _ max H2) as (n & Hr & Hle); [done|].
    unfold cached_namespace_running in Hr. simpl in Hr. rewrite lookup_empty in Hr.
    apply bind_inv_ok in Hr as (n' & pw5 & Hr & [= <- _ _]). destruct pw1 as [p1 w1].
    apply stored_inv in Hr as (w5 & Hr & _). apply namespace_running_run in Hr.
    pose proof (Hdb _ Hi1) as Hd. simpl in Hd. rewrite Hd in Hr. by rewrite <- Hr.
  - intros max Hm. destruct (under_cap_inv _ _ _ _ _ _ max H3 Hm) as (n & Hr & Hle).
    unfold cached_queue_running in Hr. rewrite Hq2 in Hr. simpl in Hr. rewrite lookup_empty in Hr.
    apply bind_inv_ok in Hr as (n' & pw5 & Hr & [= <- _ _]). destruct pw2 as [p2 w2].
    apply stored_inv in Hr as (w5 & Hr & _). apply queue_running_run in Hr; [|apply Hi2].
    pose proof (Hdb _ Hi2) as Hd. simpl in Hd. rewrite Hd in Hr. by rewrite <- Hr.
  - intros max Hm. destruct (under_cap_inv _ _ _ _ _ _ max H4 Hm) as (n & Hr & Hle).
    unfold cached_task_running in Hr. rewrite Ht3, Ht2 in Hr. simpl in Hr. rewrite lookup_empty in Hr.
    apply bind_inv_ok in Hr as (n' & pw5 & Hr & [= <- _ _]). destruct pw3 as [p3 w3].
    apply stored_inv in Hr as (w5 & Hr & _). apply task_running_run in Hr.
    pose proof (Hdb _ Hi3) as Hd. simpl in Hd. rewrite Hd in Hr. by rewrite <- Hr.
  - intros max Hm. apply bind_inv_ok in Hrun as (busy & pw5 & Hb & Hrun). rewrite Hm in Hrun.
    injection Hrun as Hlt _ _. destruct Hi4 as (_ & _ & Hs & _). destruct pw4 as [p4 w4].
    injection Hb as <- _. simpl in Hs. rewrite Hs in Hlt. apply negb_true_iff, Nat.leb_gt in Hlt. done.
Qed.
Lemma finish_dispatch_run job now epoch counts p w row c :
  wf w -> running_at (db w) (j_id job) = Some (row, Some c) -> job_of_row row = job ->
  ec_worker_id c = sc_claim_owner cfg -> ec_epoch c = Some epoch ->
  exists res counts' p' w',
    finish_dispatch cfg job now (Some epoch) counts (p, w) = (Ok (res, counts'), (p', w'))
    /\ handled job counts res p w p' w'.
Proof.
  intros Hwf Hrun Hjob Hown Hep. unfold finish_dispatch.
  destruct (post_claim_run job counts p w Hwf) as (a & c1 & p1 & w1 & Hpost & Hwf1 & Hdb1 & Hs1 & Hl1 & Hco1).
  rewrite (bind_ok _ _ _ _ _ Hpost). rewrite <- Hdb1 in Hrun.
  assert (Hpre : forall res p' w', handled job counts res p1 w1 p' w' -> handled job counts res p w p' w').
  { intros res p' w'. apply handled_after; [by rewrite Hdb1|done|done|done]. }
  assert (Hreject : forall delay answer, exists res counts' p' w',
    hand_back cfg job now delay answer c1 (p1, w1) = (Ok (res, counts'), (p', w')) /\ handled job counts res p w p' w').
  { intros delay answer. destruct (hand_back_run job now delay answer c1 p1 w1 Hwf1)
      as (res & c' & w' & Hb & Hwf' & Hbut & Hr).
    exists res, c', p1, w'. split; [done|]. by apply Hpre, handled_back. }
  destruct a as [[]|e]; [|apply Hreject..]. clear Hreject.
  erewrite bind_ok by done. set (p2 := with_scheduler _ p1).
  destruct (track_facts cfg (j_id job) (j_task_name job) (j_queue job) (j_retry_count job) epoch
    (po_scheduler p1)) as (Hby & Hlease & Hbook & Hlen).
  destruct (channel_answer (tick w1)) eqn:Hch.
  { erewrite bind_ok by (unfold try_send; by rewrite Hch). eexists _, _, _, _. split; [done|].
    rewrite Hs1 in Hbook, Hlen. split_and!; [by apply (wf_bump 1)|intros id _; simpl; by rewrite Hdb1
      |simpl; by rewrite Hs1|left]. simpl. rewrite Hl1, Hs1.
    split_and!; [done|done|exists row, c, epoch; by split_and!| |exact Hlen].
    intros -> Hco. destruct (post_claim_caps job p w c1 p1 w1 Hwf Hco Hpost) as (Hn & Hq & Ht & Hf).
    unfold within_caps. simpl. rewrite Hdb1. split_and!; [done..|]. intros max Hmax. specialize (Hf max Hmax).
    pose proof (track_count (j_id job) (j_task_name job) (j_queue job) (j_retry_count job) (Some epoch)
      (po_scheduler p)). rewrite Hs1. lia. }
  all: erewrite bind_ok by (unfold try_send; by rewrite Hch); cbv beta iota; erewrite bind_ok by done.
  all: set (p3 := with_scheduler _ p2).
  all: destruct (hand_back_run job now CHANNEL_BACKPRESSURE_RETRY_DELAY_MS (Ok false) c1 p3 (bump 1 w1)
    (wf_bump 1 _ Hwf1)) as (res & c' & w' & Hb & Hwf' & Hbut & Hr).
  all: exists res, c', p3, w'; (split; [exact Hb|]); apply Hpre.
  all: destruct (untrack_track_facts cfg (j_id job) (j_task_name job) (j_queue job)
    (j_retry_count job) epoch (po_scheduler p1)) as [Hbook' Hlen'].
  all: split_and!; [done|done|exact Hbook'|right]; split_and!; [done|exact Hlen'|].
  all: intros Hok; apply not_stranded; auto.
Qed.

Lemma pre_claim_run job p w :
  wf w ->
  exists r p1 w1, attempt (check_pre_claim_gates cfg job) (p, w) = (Ok r, (p1, w1))
    /\ wf w1 /\ (forall id, running_at (db w1) id = running_at (db w) id)
    /\ po_scheduler p1 = po_scheduler p /\ po_sent p1 = po_sent p
    /\ (coherent (po_quotas p) (db w) -> coherent (po_quotas p1) (db w1)).
Proof.
  intros Hwf. pose proof (keeps_gates_idle (running_at (db w)) (po_scheduler p) (po_sent p) job
    (p, w) (conj Hwf (conj (fun _ => eq_refl) (conj eq_refl eq_refl)))) as Hk.
  pose proof (fun Hc => keeps_gates_cached _ job _ (proj1 (coherent_cached p w) Hc)) as Hc.
  destruct (attempt_total (check_pre_claim_gates cfg job) (p, w)) as (r & [p1 w1] & Heq & Ha).
  rewrite Heq in Hk, Hc. exists r, p1, w1. destruct Hk as (? & ? & ? & ?).
  split_and!; [done..|]. intros Hco. apply (Hc Hco).
Qed.

Lemma handled_claimed job counts b p w r c :
  wf w -> running_at (db w) (j_id job) = Some (r, Some c) -> handled job counts (Ok b) p w p w.
Proof.
  intros Hwf Hr. split_and!; [done|apply same_but_refl|apply book_but_refl|]. right.
  split_and!; [done|done|]. intros _ [r' Hr']. congruence.
Qed.

Lemma handled_error job counts e p w : wf w -> handled job counts (Err e) p w p w.
Proof. intros Hwf. apply handled_back; [done|apply same_but_refl|done]. Qed.

Lemma dispatch_claimed_run job now epoch counts p w row c :
  wf w -> running_at (db w) (j_id job) = Some (row, Some c) -> job_of_row row = job ->
  ec_worker_id c = sc_claim_owner cfg -> ec_epoch c = Some epoch ->
  exists res counts' p' w',
    dispatch_claimed cfg job now (Some epoch) counts (p, w) = (Ok (res, counts'), (p', w'))
    /\ handled job counts res p w p' w'.
Proof.
  intros Hwf Hrun Hjob Hown Hep. unfold dispatch_claimed.
  destruct (pre_claim_run job p w Hwf) as (r & p1 & w1 & Ha & Hwf1 & Hv & Hs & Hl & Hco).
  rewrite (bind_ok _ _ _ _ _ Ha). rewrite <- Hv in Hrun.
  assert (Hpre : forall res p' w', handled job counts res p1 w1 p' w' -> handled job counts res p w p' w').
  { intros res p' w'. by apply handled_after. }
  destruct r as [[|delay|reason]|e].
  - destruct (finish_dispatch_run job now epoch counts p1 w1 row c) as (res & c' & p' & w' & Heq & Hh);
      [done..|]. exists res, c', p', w'. auto.
  - destruct (hand_back_run job now delay (Ok false) counts p1 w1 Hwf1)
      as (res & c' & w' & Heq & Hwf' & Hbut & Hr).
    exists res, c', p1, w'. split; [done|]. by apply Hpre, handled_back.
  - destruct (attempt_total (shed_rate_limited cfg job reason true) (p1, w1)) as (r & s' & Heq & Ha').
    rewrite (bind_ok _ _ _ _ _ Ha').
    destruct (shed_limited_run _ _ _ _ _ _ _ Hwf1 Heq) as (w' & -> & Hwf' & Hbut & Hr).
    eexists _, _, p1, w'. split; [done|]. apply Hpre, handled_back; [done|done|]. by destruct r.
  - eexists _, _, p1, w1. split; [done|]. by apply Hpre, handled_error.
Qed.

Lemma claim_for_dispatch_eq job p w r w' :
  claim_execution (j_id job) (sc_claim_owner cfg) w = (r, w') ->
  claim_for_dispatch cfg job (p, w) = (Ok match r with
     | Ok (Some epoch) => Claimed (Some epoch)
     | Ok None => AlreadyClaimed
     | Err _ => Errored
     end, (p, w')).
Proof. intros Hc. unfold claim_for_dispatch, mbind, M_bind, attempt, stored. by rewrite Hc. Qed.

Lemma gate_and_dispatch_run job now counts p w row c :
  wf w -> running_at (db w) (j_id job) = Some (row, c) -> job_of_row row = job ->
  exists res counts' p' w',
    gate_and_dispatch cfg job now counts (p, w) = (Ok (res, counts'), (p', w'))
    /\ handled job counts res p w p' w'.
Proof.
  intros Hwf Hrun Hjob. unfold gate_and_dispatch.
  destruct (pre_claim_run job p w Hwf) as (r & p1 & w1 & Ha & Hwf1 & Hv & Hs & Hl & Hco).
  rewrite (bind_ok _ _ _ _ _ Ha). rewrite <- Hv in Hrun.
  assert (Hpre : forall res p' w', handled job counts res p1 w1 p' w' -> handled job counts res p w p' w').
  { intros res p' w'. by apply handled_after. }
  destruct r as [[|delay|reason]|e].
  - destruct (claim_execution (j_id job) (sc_claim_owner cfg) w1) as [rc w2] eqn:Hc.
    rewrite (bind_ok _ _ _ _ _ (claim_for_dispatch_eq job p1 w1 _ _ Hc)).
    destruct (claim_running _ _ _ _ _ Hwf1 Hc) as (Hwf2 & Hbut2 & Hr2).
    assert (Hstep : forall res p' w', handled job counts res p1 w2 p' w' -> handled job counts res p w p' w').
    { intros res p' w' (? & Hb & Hbook & Hres). apply Hpre. split_and!; [done| |done|].
      - by eapply same_but_trans.
      - destruct Hres as [(? & ? & ? & Hcap & ?)|?]; [left; split_and!; auto|by right].
        intros -> Hc1. apply Hcap; [done|]. pose proof (keeps_claim_cached _ (j_id job) (sc_claim_owner cfg) _
          (proj1 (coherent_cached p1 w1) Hc1)) as Hk. unfold stored in Hk. rewrite Hc in Hk. apply Hk. }
    destruct (running_row _ _ _ _ Hrun) as (Hrow & Hst & ->).
    destruct rc as [[epoch|]|e]; simpl.
    + destruct Hr2 as (Hj2 & cl & Hcl & Hown & Hep). rewrite <- Hj2 in Hrow.
      pose proof (running_at_row _ _ _ Hrow Hst) as Hrun2. rewrite Hcl in Hrun2.
      destruct (finish_dispatch_run job now epoch counts p1 w2 row cl) as (res & c' & p' & w' & Heq & Hh);
        [done..|]. exists res, c', p', w'. auto.
    + destruct Hr2 as [Hdb2 [cl Hcl]]. rewrite Hcl, <- Hdb2 in Hrun. eexists _, _, p1, w2.
      split; [done|]. by eapply Hstep, handled_claimed.
    + destruct (hand_back_run job now CLAIM_ERROR_RETRY_DELAY_MS (Ok false) counts p1 w2 Hwf2)
        as (res & c' & w' & Heq & Hwf' & Hbut & Hr).
      exists res, c', p1, w'. split; [done|]. by apply Hstep, handled_back.
  - destruct (attempt_total (at_ ← later now delay; reschedule_deferred cfg (j_id job) at_) (p1, w1))
      as (r & s' & Heq & Ha'). rewrite (bind_ok _ _ _ _ _ Ha').
    destruct (defer_run _ _ _ _ _ _ _ Hwf1 Heq) as (w' & -> & Hwf' & Hbut & Hr).
    destruct r; eexists _, _, p1, w'; (split; [done|]); by apply Hpre, handled_back.
  - destruct (attempt_total (shed_rate_limited cfg job reason false) (p1, w1)) as (r & s' & Heq & Ha').
    rewrite (bind_ok _ _ _ _ _ Ha').
    destruct (shed_limited_run _ _ _ _ _ _ _ Hwf1 Heq) as (w' & -> & Hwf' & Hbut & Hr).
    destruct r; eexists _, _, p1, w'; (split; [done|]); by apply Hpre, handled_back.
  - eexists _, _, p1, w1. split; [done|]. by apply Hpre, handled_error.
Qed.

(** *** A round *)

(** Whatever was running runs on, under the same claim. *)
Definition undisturbed (w0 w : World) : Prop :=
  wf w /\ forall id x, running_at (db w0) id = Some x -> running_at (db w) id = Some x.

Lemma taken_undisturbed js w0 w : taken js w0 w -> undisturbed w0 w.
Proof.
  intros [Hwf _ Hjs Hrest]. split; [done|]. intros id x Hx. rewrite Hrest; [done|].
  intros (j & -> & Hj)%list_elem_of_fmap. rewrite Forall_forall in Hjs.
  destruct (Hjs _ Hj) as [Hn _]. by rewrite Hn in Hx.
Qed.

Lemma undisturbed_but id w0 w w' :
  undisturbed w0 w -> running_at (db w0) id = None -> wf w' -> same_but id (db w) (db w') ->
  undisturbed w0 w'.
Proof.
  intros [_ Hu] Hn Hwf' Hbut. split; [done|]. intros id' x Hx. rewrite Hbut; [by apply Hu|].
  intros ->. by rewrite Hn in Hx.
Qed.

Lemma codel_loop now w0 kept rest p w r p' w' :
  taken (kept ++ rest) w0 w -> foldM (codel_one cfg now) kept rest (p, w) = (r, (p', w')) ->
  po_scheduler p' = po_scheduler p /\ po_sent p' = po_sent p
  /\ match r with
     | Ok jobs => taken jobs w0 w' /\ (length jobs <= length (kept ++ rest))%nat
     | Err _ => undisturbed w0 w'
     end.
Proof.
  revert kept p w. induction rest as [|j rest IH]; intros kept p w Ht Hrun; simpl in Hrun.
  { injection Hrun as <- <- <-. rewrite app_nil_r in *. done. }
  assert (Hkeep : forall p1, po_scheduler p1 = po_scheduler p -> po_sent p1 = po_sent p ->
    foldM (codel_one cfg now) (kept ++ [j]) rest (p1, w) = (r, (p', w')) ->
    po_scheduler p' = po_scheduler p /\ po_sent p' = po_sent p
    /\ match r with
       | Ok jobs => taken jobs w0 w' /\ (length jobs <= length (kept ++ j :: rest))%nat
       | Err _ => undisturbed w0 w'
       end).
  { intros p1 <- <- Hrest. specialize (IH (kept ++ [j]) p1 w). rewrite <- app_assoc in IH.
    by apply IH. }
  apply bind_inv in Hrun as [(l & pw1 & H1 & H2)|(e & H1 & ->)]; unfold codel_one in H1;
    (destruct (sc_codel_configs cfg !! j_queue j) as [c|]; [|try done]).
  2:{ injection H1 as <- <-. by apply (Hkeep p). }
  all: erewrite bind_ok in H1 by done; case_match eqn:Hsd; erewrite bind_ok in H1 by done.
  all: set (p1 := with_codel_states _ p) in H1; case_match; [|by (injection H1 as <- <-; by apply (Hkeep p1)) || done].
  all: apply bind_inv in H1 as [(cas & pw2 & H1 & H3)|(e' & H1 & H3)]; try done.
  all: apply stored_inv in H1 as (w2 & H1 & Hpw2).
  all: destruct (shed_running _ _ _ _ _ _ _ (tk_wf _ _ _ Ht) H1) as (Hwf2 & Hbut2 & Hgone).
  - subst pw2. injection H3 as <- <-.
    destruct (IH _ _ _ (taken_drop _ _ _ _ _ _ Ht Hwf2 Hbut2 (Hgone eq_refl)) H2) as (Hs & Hl & Hr).
    split_and!; [done..|]. destruct r; [|done]. destruct Hr as [Hr Hlen]. split; [done|].
    rewrite length_app in *. simpl. lia.
  - injection Hpw2 as -> ->. split_and!; [done..|].
    apply (undisturbed_but (j_id j) _ w); [by eapply taken_undisturbed| |done|done].
    pose proof (tk_jobs _ _ _ Ht) as Hjs. apply Forall_app in Hjs as [_ [[Hn _] _]%Forall_cons]. done.
Qed.

Lemma codel_admit_run jobs now w0 p w r p' w' :
  taken jobs w0 w -> codel_admit cfg jobs now (p, w) = (r, (p', w')) ->
  po_scheduler p' = po_scheduler p /\ po_sent p' = po_sent p
  /\ match r with
     | Ok jobs' => taken jobs' w0 w' /\ (length jobs' <= length jobs)%nat
     | Err _ => undisturbed w0 w'
     end.
Proof.
  intros Ht. unfold codel_admit. case_bool_decide; [by intros [= <- <- <-]|].
  by apply (codel_loop now w0 []).
Qed.

Lemma keeps_codel_cached st jobs now : keeps (cached st) (codel_admit cfg jobs now).
Proof.
  unfold codel_admit. case_bool_decide; [apply keeps_ret|]. apply keeps_foldM. intros kept job _.
  unfold codel_one. case_match; [|apply keeps_ret]. apply keeps_bind; [apply keeps_gets|]. intros x.
  case_match. apply keeps_bind; [by intros [p w]|]. intros []. case_match; [|apply keeps_ret].
  apply keeps_bind; [apply keeps_shed_cached|intros ?; apply keeps_ret].
Qed.

(** Reading the paused queues changes only that cache. *)
Class PausedAside (K : Poll * World -> Prop) : Prop :=
  paused_aside : forall x p w, K (p, w) -> K (with_paused x p, w).
#[local] Instance idle_paused I s sent : PausedAside (idle I s sent). Proof. by intros x p w. Qed.
#[local] Instance cached_paused st : PausedAside (cached st). Proof. by intros x p w. Qed.

Lemma keeps_active_queues K `{!Quiet K, !PausedAside K} : keeps K (active_queues cfg).
Proof.
  assert (Hd : forall A (f : nat -> A), keeps K (stored (draw f))).
  { intros A f. apply quiet_read. intros I' ?. apply keeps_draw, _. }
  unfold active_queues. apply keeps_bind; [apply keeps_bind; [apply Hd|intros t; apply keeps_gets]|].
  intros stale. apply keeps_bind.
  - destruct stale; [|apply keeps_ret]. apply keeps_bind.
    + apply keeps_attempt, quiet_read. intros I' ?. unfold list_paused_queues. solve_keeps.
    + intros r. apply keeps_bind; [apply Hd|]. intros t [p w] Hi. by apply paused_aside.
  - intros []. apply keeps_bind; [apply keeps_gets|]. intros x. apply keeps_ret.
Qed.

(** What a round did so far: the jobs it sent were idle when it began, are distinct, and
    each is in hand; at most [n] of them. *)
Record dispatched (p0 : Poll) (w0 : World) (n : nat) (sent : list Job) (p : Poll) (w : World)
    : Prop := {
  ds_undisturbed : undisturbed w0 w;
  ds_sent : po_sent p = po_sent p0 ++ sent;
  ds_nodup : NoDup (j_id <$> sent);
  ds_hand : Forall (fun j => running_at (db w0) (j_id j) = None /\ in_hand j p w) sent;
  ds_len : (if_len (sd_in_flight (po_scheduler p))
            <= if_len (sd_in_flight (po_scheduler p0)) + length sent)%nat;
  ds_bound : (length sent <= n)%nat
}.

Lemma in_hand_but job id p w p' w' :
  j_id job <> id -> same_but id (db w) (db w') -> book_but id (po_scheduler p) (po_scheduler p') ->
  in_hand job p w -> in_hand job p' w'.
Proof.
  intros Hne Hbut Hbook (row & c & epoch & H1 & H2 & H3 & H4 & H5 & H6).
  destruct (Hbook _ Hne) as [Hb1 Hb2]. exists row, c, epoch.
  rewrite Hbut, Hb1, Hb2 by done. by split_and!.
Qed.

Lemma dispatched_step p0 w0 n sent p w job counts res p' w' :
  dispatched p0 w0 n sent p w -> j_id job ∉ (j_id <$> sent) -> running_at (db w0) (j_id job) = None ->
  handled job counts res p w p' w' ->
  exists sent', dispatched p0 w0 (S n) sent' p' w' /\ (sent' = sent \/ sent' = sent ++ [job])
    /\ same_but (j_id job) (db w) (db w').
Proof.
  intros [Hu Hs Hnd Hh Hl Hb] Hid Hnone (Hwf' & Hbut & Hbook & Hres).
  assert (Hu' : undisturbed w0 w') by by eapply undisturbed_but.
  assert (Hh' : Forall (fun j => running_at (db w0) (j_id j) = None /\ in_hand j p' w') sent).
  { rewrite Forall_forall in Hh |- *. intros j Hj. destruct (Hh _ Hj) as [Hn Hj']. split; [done|].
    eapply in_hand_but; [|done..]. intros Heq. apply Hid. rewrite <- Heq. by apply list_elem_of_fmap_2. }
  destruct Hres as [(Hs' & _ & Hin & _ & Hlen)|(Hs' & Hlen & _)].
  - exists (sent ++ [job]). split; [|by eauto]. split; [done| | | | |].
    + by rewrite Hs', Hs, app_assoc.
    + rewrite fmap_app. apply NoDup_app. split_and!; [done| |apply NoDup_singleton].
      intros id H1 ->%list_elem_of_singleton. done.
    + apply Forall_app. split; [done|]. by repeat constructor.
    + rewrite length_app. simpl. lia.
    + rewrite length_app. simpl. lia.
  - exists sent. split; [|by eauto]. split; [done|by rewrite Hs'|done|done|lia|lia].
Qed.

Section each.
Context {A : Type} (f : A -> GateCounts -> PollM (Result QueueError bool * GateCounts))
  (job_of : A -> Job) (R : A -> option (JobRow * option ExecutionClaimRow) -> Prop).
Context (Hf : forall x counts p w, wf w -> R x (running_at (db w) (j_id (job_of x))) ->
  exists res counts' p' w', f x counts (p, w) = (Ok (res, counts'), (p', w'))
    /\ handled (job_of x) counts res p w p' w').

Lemma each_loop l any counts p0 w0 n sent p w :
  dispatched p0 w0 n sent p w -> NoDup (j_id <$> sent ++ (job_of <$> l)) ->
  Forall (fun x => running_at (db w0) (j_id (job_of x)) = None
    /\ R x (running_at (db w) (j_id (job_of x)))) l ->
  exists x p' w' sent',
    foldM (fun '(any, counts) x =>
      '(r, counts) ← f x counts;
      mret (any || match r with Ok b => b | Err _ => false end, counts)) (any, counts) l (p, w)
    = (Ok x, (p', w')) /\ dispatched p0 w0 (n + length l) sent' p' w'.
Proof.
  revert any counts n sent p w. induction l as [|x l IH]; intros any counts n sent p w Hd Hnd Hl; simpl.
  { eexists _, p, w, sent. split; [done|]. by rewrite Nat.add_0_r. }
  apply Forall_cons in Hl as [[Hn Hr] Hl]. rewrite fmap_app in Hnd. simpl in Hnd.
  rewrite <- Permutation_middle in Hnd. apply NoDup_cons in Hnd as [Hx Hnd].
  apply not_elem_of_app in Hx as [Hx1 Hx2].
  destruct (Hf x counts p w (proj1 (ds_undisturbed _ _ _ _ _ _ Hd)) Hr)
    as (res & c1 & p1 & w1 & Heq & Hh).
  erewrite bind_ok by (by erewrite bind_ok by exact Heq).
  destruct (dispatched_step _ _ _ _ _ _ _ _ _ _ _ Hd Hx1 Hn Hh) as (sent1 & Hd1 & Hs1 & Hbut).
  replace (n + S (length l))%nat with (S n + length l)%nat by lia. apply (IH _ _ (S n) sent1); [done| |].
  - destruct Hs1 as [->| ->]; rewrite !fmap_app; [done|]. simpl. rewrite <- app_assoc. simpl.
    rewrite <- Permutation_middle. apply NoDup_cons. split; [|done]. by apply not_elem_of_app.
  - rewrite Forall_forall in Hl |- *. intros y Hy. destruct (Hl _ Hy) as [Hny Hry]. split; [done|].
    rewrite Hbut; [done|]. intros Heq'. apply Hx2. rewrite <- Heq'. by do 2 apply list_elem_of_fmap_2.
Qed.

Lemma each_of_run l p w w0 :
  undisturbed w0 w -> NoDup (j_id <$> (job_of <$> l)) ->
  Forall (fun x => running_at (db w0) (j_id (job_of x)) = None
    /\ R x (running_at (db w) (j_id (job_of x)))) l ->
  exists b p' w' sent, each_of f l (p, w) = (Ok b, (p', w'))
    /\ dispatched p w0 (length l) sent p' w'.
Proof.
  intros Hu Hnd Hl.
  destruct (each_loop l false no_counts p w0 0 [] p w) as ([b c] & p' & w' & sent & Heq & Hd); [|done..|].
  - split; [done|by rewrite app_nil_r|apply NoDup_nil_2|by apply Forall_nil|simpl; lia|simpl; lia].
  - exists b, p', w', sent. split; [|done]. unfold each_of. by erewrite bind_ok by exact Heq.
Qed.
End each.

Lemma dispatched_nil p w0 n p' w' :
  undisturbed w0 w' -> po_scheduler p' = po_scheduler p -> po_sent p' = po_sent p ->
  dispatched p w0 n [] p' w'.
Proof.
  intros Hu Hs Hl. split; [done|by rewrite app_nil_r|apply NoDup_nil_2|by apply Forall_nil| |simpl; lia].
  rewrite Hs. simpl. lia.
Qed.

Lemma dispatched_from p p1 w0 n m sent p' w' :
  po_scheduler p1 = po_scheduler p -> po_sent p1 = po_sent p -> (n <= m)%nat ->
  dispatched p1 w0 n sent p' w' -> dispatched p w0 m sent p' w'.
Proof. intros Hs Hl Hn []. rewrite Hs in *. rewrite Hl in *. split; [done..|lia]. Qed.

(** The room left by the cap on jobs in flight. *)
Definition in_flight_room (p : Poll) (sent : list Job) : Prop :=
  forall max, sc_max_in_flight cfg = Some max ->
    (length sent <= max - if_len (sd_in_flight (po_scheduler p)))%nat.

(** A step that takes nothing. *)
Lemma quiet_run {A} (m : PollM A) p w r pw' :
  (forall I, TickMono I -> keeps (idle I (po_scheduler p) (po_sent p)) m) -> wf w ->
  m (p, w) = (r, pw') ->
  exists p' w', pw' = (p', w') /\ wf w' /\ db w' = db w
    /\ po_scheduler p' = po_scheduler p /\ po_sent p' = po_sent p.
Proof.
  intros Hm Hwf Hrun.
  pose proof (Hm (on_db (fun d => d = db w)) _ (p, w) (conj Hwf (conj eq_refl (conj eq_refl eq_refl)))) as Hk.
  rewrite Hrun in Hk. destruct pw' as [p' w']. exists p', w'. split; [done|]. by destruct Hk as (? & ? & ? & ?).
Qed.

Lemma keeps_stored_draw {A} (f : nat -> A) I `{!TickMono I} s sent : keeps (idle I s sent) (stored (draw f)).
Proof. apply keeps_stored_read; [|done]. intros I' ?. apply keeps_draw, _. Qed.

Definition strands_none (r : Result QueueError bool) (w w' : World) : Prop :=
  is_ok r = true -> forall id, stranded (db w') id -> stranded (db w) id.

(** The end of a round that began in [w0], from the state [p] and [w] on. *)
Definition round_done (p : Poll) (w0 w : World) (n : nat) (r : Result QueueError bool) (p' : Poll)
    (w' : World) : Prop :=
  exists sent, dispatched p w0 n sent p' w' /\ in_flight_room p sent /\ strands_none r w0 w'
    /\ (coherent (po_quotas p) (db w) -> Forall (fun j => within_caps j p' w') sent).

Lemma same_db_round p w w1 n r p' w' :
  wf w -> wf w' -> db w' = db w -> po_scheduler p' = po_scheduler p -> po_sent p' = po_sent p ->
  round_done p w w1 n r p' w'.
Proof.
  intros Hwf Hwf' Hdb Hs Hl. exists []. split_and!; [| | |by intros _; apply Forall_nil].
  - apply dispatched_nil; [|done|done]. split; [done|]. by rewrite Hdb.
  - intros m _. simpl. lia.
  - intros _ id. by rewrite Hdb.
Qed.

Lemma nothing_taken p w w1 n r p' w' :
  taken [] w w' -> po_scheduler p' = po_scheduler p -> po_sent p' = po_sent p ->
  round_done p w w1 n r p' w'.
Proof.
  intros Ht Hs Hl. exists []. split_and!; [| | |by intros _; apply Forall_nil].
  - apply dispatched_nil; [by eapply taken_undisturbed|done|done].
  - intros m _. simpl. lia.
  - intros _ id. apply stranded_eq. rewrite (tk_rest _ _ _ Ht); [done|]. by intros ?%elem_of_nil.
Qed.

Lemma round_failed p w w1 n e p' w' :
  undisturbed w w' -> po_scheduler p' = po_scheduler p -> po_sent p' = po_sent p ->
  round_done p w w1 n (Err e) p' w'.
Proof.
  intros Hu Hs Hl. exists [].
  split_and!; [by apply dispatched_nil|intros m _; simpl; lia|done|by intros _; apply Forall_nil].
Qed.

Lemma one_job_round job w0 p w res p' w' :
  taken [job] w0 w -> handled job no_counts res p w p' w' ->
  exists sent, dispatched p w0 1 sent p' w' /\ strands_none res w0 w'
    /\ (coherent (po_quotas p) (db w) -> Forall (fun j => within_caps j p' w') sent).
Proof.
  intros Ht Hh. pose proof (tk_jobs _ _ _ Ht) as Hj. apply Forall_cons in Hj as [[Hn _] _].
  destruct (dispatched_step p w0 0 [] p w job no_counts res p' w') as (sent & Hd & Hsent & Hbut); [|by intros ?%elem_of_nil|done|done|].
  { apply dispatched_nil; [by eapply taken_undisturbed|done|done]. }
  destruct Hh as (_ & _ & _ & Hres). exists sent. split_and!; [done| |].
  - intros Hok id Hst. destruct (decide (id = j_id job)) as [->|Hne].
    + destruct Hres as [(_ & _ & (row & c & epoch & Hr & _) & _)|(_ & _ & Hns)].
      * destruct Hst as [r' Hr']. congruence.
      * by destruct (Hns Hok).
    + eapply stranded_eq; [|exact Hst]. rewrite Hbut by done. apply (tk_rest _ _ _ Ht).
      by intros ?%list_elem_of_singleton.
  - intros Hco. pose proof (ds_sent _ _ _ _ _ _ Hd) as Hs. destruct Hsent as [->| ->]; [by apply Forall_nil|].
    destruct Hres as [(_ & _ & _ & Hcap & _)|(Hs' & _)]; [by apply Forall_singleton; auto|].
    rewrite Hs' in Hs. apply (f_equal length) in Hs. rewrite length_app in Hs. simpl in Hs. lia.
Qed.

(** From the queue on. *)
Lemma taken_round active now p w r p' w' w0 :
  taken [] w0 w -> in_flight_remaining cfg (po_scheduler p) <> Some 0%nat ->
  (dequeued ← stored (dequeue_from_reporting active now (sc_namespace cfg) (sc_dispatch_orders cfg));
   match dq_claimed dequeued with
   | None => mret false
   | Some job =>
       kept ← codel_admit cfg [job] now;
       match last kept with
       | None => mret false
       | Some job => lower (gate_and_dispatch cfg job now no_counts)
       end
   end) (p, w) = (r, (p', w')) ->
  round_done p w0 w 1 r p' w'.
Proof.
  intros Ht Hrem [(dq & pw4 & H4 & Hrun)|(e & H4 & ->)]%bind_inv;
    apply stored_inv in H4 as (w4 & H4 & Hpw);
    pose proof (taken_dequeue_from _ _ _ _ _ _ _ _ _ Ht H4) as Ht4.
  2:{ injection Hpw as -> ->. by apply nothing_taken. }
  subst pw4. cbv iota beta in Ht4. destruct (dq_claimed dq) as [job|]; cbn [option_list] in Ht4.
  2:{ injection Hrun as <- <- <-. by apply nothing_taken. }
  apply bind_inv in Hrun as [(kept & [p5 w5] & H5 & Hrun)|(e & H5 & ->)];
    destruct (codel_admit_run _ _ _ _ _ _ _ _ Ht4 H5) as (Hs5 & Hl5 & Hr5); [|by apply round_failed].
  assert (Hco5 : coherent (po_quotas p) (db w) -> coherent (po_quotas p5) (db w5)).
  { intros Hco%coherent_cached.
    pose proof (keeps_dequeue_cached _ active now (sc_namespace cfg) (sc_dispatch_orders cfg) _ Hco) as Hk4.
    unfold stored in Hk4. rewrite H4 in Hk4. pose proof (keeps_codel_cached _ [job] now _ Hk4) as Hk5.
    simpl in Hk5. rewrite H5 in Hk5. apply Hk5. }
  destruct Hr5 as [Ht5 Hlen5].
  destruct kept as [|job' [|]]; simpl in Hlen5; [|clear Hlen5|lia].
  { injection Hrun as <- <- <-. by apply nothing_taken. }
  cbn [last] in Hrun. pose proof (tk_jobs _ _ _ Ht5) as Hj.
  apply Forall_cons in Hj as [(_ & row & c & Hr & Hjob) _].
  destruct (gate_and_dispatch_run job' now no_counts p5 w5 row c (tk_wf _ _ _ Ht5) Hr Hjob)
    as (res & c' & p6 & w6 & Hg & Hh).
  unfold lower in Hrun. rewrite (bind_ok _ _ _ _ _ Hg) in Hrun.
  assert (Heq : r = res /\ p' = p6 /\ w' = w6) by (destruct res; by injection Hrun as <- <- <-).
  destruct Heq as (-> & -> & ->).
  destruct (one_job_round _ _ _ _ _ _ _ Ht5 Hh) as (sent & Hd & Hst & Hcap). exists sent. split_and!; [| |done|by auto].
  - by apply (dispatched_from p p5 w0 1).
  - intros max Hmax. pose proof (ds_bound _ _ _ _ _ _ Hd). unfold in_flight_remaining in Hrem.
    rewrite Hmax in Hrem. simpl in Hrem. assert (Hne : (max - if_len (sd_in_flight (po_scheduler p)))%nat <> 0%nat)
      by congruence. lia.
Qed.

Lemma try_dispatch_run p w r p' w' :
  wf w -> try_dispatch cfg (p, w) = (r, (p', w')) ->
  round_done p w w 1 r p' w'.
Proof.
  intros Hwf Hrun. unfold try_dispatch in Hrun. erewrite bind_ok in Hrun by done.
  set (now := Z.min _ _) in Hrun. set (w1 := mkWorld _ _) in Hrun.
  assert (Hwf1 : wf w1) by exact (wf_bump 1 _ Hwf).
  apply bind_inv in Hrun as [(active & pw2 & H2 & Hrun)|(e & H2 & ->)];
    destruct (quiet_run _ _ _ _ _ (fun I HI => keeps_active_queues (idle I _ _)) Hwf1 H2)
      as (p2 & w2 & Hpw2 & Hwf2 & Hdb2 & Hs2 & Hl2); change (db w1) with (db w) in Hdb2.
  2:{ injection Hpw2 as -> ->. by apply same_db_round. }
  subst pw2. case_bool_decide. { injection Hrun as <- <- <-. by apply same_db_round. }
  erewrite bind_ok in Hrun by done. case_bool_decide as Hrem.
  { injection Hrun as <- <- <-. by apply same_db_round. }
  erewrite bind_ok in Hrun by done. set (w3 := mkWorld _ _) in Hrun.
  assert (Hwf3 : wf w3) by exact (wf_bump 1 _ Hwf2).
  case_match. { injection Hrun as <- <- <-. by apply same_db_round. }
  assert (Ht3 : taken [] w w3).
  { eapply taken_quiet; [done| |by apply taken_nil]. intros id. by rewrite <- Hdb2. }
  destruct (taken_round active now p2 w3 r p' w' w Ht3 Hrem Hrun) as (sent & Hd & Hroom & Hst & Hcap).
  exists sent. split_and!; [by apply (dispatched_from p p2 w 1)| |done|].
  - unfold in_flight_room in *. by rewrite <- Hs2.
  - intros Hco. apply Hcap. pose proof (keeps_active_queues (cached _) (p, w1) (proj1 (coherent_cached p w1) Hco)) as Hk.
    rewrite H2 in Hk. apply Hk.
Qed.

(** *** A batch *)

Lemma gate_each now job counts p w :
  wf w -> (fun j x => exists r c, x = Some (r, c) /\ job_of_row r = j) job (running_at (db w) (j_id job)) ->
  exists res counts' p' w', gate_and_dispatch cfg job now counts (p, w) = (Ok (res, counts'), (p', w'))
    /\ handled job counts res p w p' w'.
Proof. intros Hwf (r & c & Hr & Hj). by eapply gate_and_dispatch_run. Qed.

Definition won (x : Job * option Z) (v : option (JobRow * option ExecutionClaimRow)) : Prop :=
  exists r c, v = Some (r, Some c) /\ job_of_row r = fst x
    /\ (forall epoch, snd x = Some epoch ->
          ec_worker_id c = sc_claim_owner cfg /\ ec_epoch c = Some epoch).

Lemma won_each now x counts p w :
  wf w -> won x (running_at (db w) (j_id (fst x))) ->
  exists res counts' p' w', dispatch_won cfg now x counts (p, w) = (Ok (res, counts'), (p', w'))
    /\ handled (fst x) counts res p w p' w'.
Proof.
  intros Hwf (r & c & Hr & Hj & Hw). unfold dispatch_won. destruct x as [job [epoch|]]; simpl in *.
  - destruct (Hw epoch eq_refl). by eapply dispatch_claimed_run.
  - eexists _, _, p, w. split; [done|]. by eapply handled_claimed.
Qed.

Lemma claim_batch_run ids owner w r w' :
  wf w -> NoDup ids -> claim_execution_batch ids owner w = (r, w') ->
  wf w' /\ match r with
  | Ok flags => db_jobs (db w') = db_jobs (db w)
      /\ (forall id, id ∉ ids -> db_execution_claims (db w') !! id = db_execution_claims (db w) !! id)
      /\ Forall2 (fun id flag => match flag with
           | Some epoch => exists c, db_execution_claims (db w') !! id = Some c
               /\ ec_worker_id c = owner /\ ec_epoch c = Some epoch
           | None => is_Some (db_execution_claims (db w') !! id)
           end) ids flags
  | Err _ => db w' = db w
  end.
Proof.
  intros Hwf Hnd Hrun. pose proof (keeps_claim_execution_batch ids owner w Hwf) as Hwf'.
  rewrite Hrun in Hwf'. split; [exact Hwf'|]. unfold claim_execution_batch in Hrun.
  case_bool_decide as Hnil. { injection Hrun as <- <-. subst ids. by split_and!. }
  erewrite bind_ok in Hrun by done. set (w1 := mkWorld _ _) in Hrun.
  rewrite write_transaction_eq in Hrun. destruct (pool_ready (tick w1)); [|by injection Hrun as <- <-].
  match type of Hrun with context [foldM ?f ?a ?l ?s] => destruct (foldM f a l s) as [r1 w2] eqn:Hf end.
  destruct (claim_batch_loop _ _ _ _ _ _ _ Hf Hnd) as (flags & -> & Hj & Hc & Hall).
  injection Hrun as <- <-. by split_and!.
Qed.

(** The jobs of a batch with the answers to their claims. *)
Lemma taken_won jobs flags w0 w w' :
  taken jobs w0 w -> wf w' -> db_jobs (db w') = db_jobs (db w) ->
  (forall id, id ∉ j_id <$> jobs -> db_execution_claims (db w') !! id = db_execution_claims (db w) !! id) ->
  Forall2 (fun id flag => match flag with
    | Some epoch => exists c, db_execution_claims (db w') !! id = Some c
        /\ ec_worker_id c = sc_claim_owner cfg /\ ec_epoch c = Some epoch
    | None => is_Some (db_execution_claims (db w') !! id)
    end) (j_id <$> jobs) flags ->
  undisturbed w0 w' /\ NoDup (j_id <$> (fst <$> zip jobs flags))
  /\ Forall (fun x => running_at (db w0) (j_id (fst x)) = None
       /\ won x (running_at (db w') (j_id (fst x)))) (zip jobs flags).
Proof.
  intros [Hwf Hnd Hjs Hrest] Hwf' Hj Hc Hall. pose proof (Forall2_length _ _ _ Hall) as Hlen.
  rewrite length_fmap in Hlen. split_and!.
  - split; [done|]. intros id x Hx. assert (Hn : id ∉ j_id <$> jobs).
    { intros (j & -> & Hin)%list_elem_of_fmap. rewrite Forall_forall in Hjs.
      destruct (Hjs _ Hin) as [Hn _]. by rewrite Hn in Hx. }
    rewrite <- Hx, <- (Hrest _ Hn). apply running_at_jobs; [by rewrite Hj|by apply Hc].
  - by rewrite fst_zip by lia.
  - apply Forall_lookup. intros i [j flag] (Hi & Hi')%lookup_zip_Some. simpl.
    destruct (Forall_lookup_1 _ _ _ _ Hjs Hi) as (Hn & r & c & Hr & Hjob). split; [done|].
    rewrite Forall2_fmap_l in Hall. pose proof (Forall2_lookup_lr _ _ _ _ _ _ Hall Hi Hi') as Hf. simpl in Hf.
    destruct (running_row _ _ _ _ Hr) as (Hrow & Hst & _). rewrite <- Hj in Hrow.
    pose proof (running_at_row _ _ _ Hrow Hst) as Hr'. destruct flag as [epoch|].
    + destruct Hf as (cl & Hcl & Ho & He). rewrite Hcl in Hr'. exists r, cl. split_and!; [done..|].
      by intros epoch' [= <-].
    + destruct Hf as [cl Hcl]. rewrite Hcl in Hr'. exists r, cl. by split_and!.
Qed.

Lemma each_of_batch now jobs w0 p w claimed pw1 r p' w' :
  taken jobs w0 w ->
  attempt (stored (claim_execution_batch (j_id <$> jobs) (sc_claim_owner cfg))) (p, w)
    = (Ok claimed, pw1) ->
  match claimed with
  | Err _ => each_of (fun job => gate_and_dispatch cfg job now) jobs
  | Ok flags => each_of (dispatch_won cfg now) (zip jobs flags)
  end pw1 = (r, (p', w')) ->
  exists sent, dispatched p w0 (length jobs) sent p' w'.
Proof.
  intros Ht Ha Hrun.
  destruct (attempt_total (stored (claim_execution_batch (j_id <$> jobs) (sc_claim_owner cfg))) (p, w))
    as (rc & s1 & Hs & Ha'). rewrite Ha' in Ha. injection Ha as -> ->.
  apply stored_inv in Hs as (w2 & Hc & ->).
  destruct (claim_batch_run _ _ _ _ _ (tk_wf _ _ _ Ht) (tk_nodup _ _ _ Ht) Hc) as [Hwf2 Hr].
  destruct claimed as [flags|e].
  - destruct Hr as (Hj & Hcl & Hall).
    destruct (taken_won _ _ _ _ _ Ht Hwf2 Hj Hcl Hall) as (Hu & Hnd & Hz).
    destruct (each_of_run (dispatch_won cfg now) fst won (won_each now) _ p w2 w0 Hu Hnd Hz)
      as (b & p3 & w3 & sent & Heq & Hd).
    rewrite Heq in Hrun. injection Hrun as <- <- <-. exists sent.
    apply (dispatched_from p p w0 (length (zip jobs flags))); [done|done| |done]. rewrite length_zip. lia.
  - assert (Ht2 : taken jobs w0 w2) by (eapply taken_quiet; [done| |done]; by rewrite Hr).
    destruct (each_of_run (fun job => gate_and_dispatch cfg job now) id _ (gate_each now) jobs p w2 w0)
      as (b & p3 & w3 & sent & Heq & Hd).
    + by eapply taken_undisturbed.
    + rewrite list_fmap_id. exact (tk_nodup _ _ _ Ht2).
    + eapply Forall_impl; [exact (tk_jobs _ _ _ Ht2)|]. intros j (Hn & row & c & Hr' & Hj'). by eauto 6.
    + rewrite Heq in Hrun. injection Hrun as <- <- <-. by exists sent.
Qed.

Lemma taken_batch_round active now budget p w r p' w' w0 :
  taken [] w0 w ->
  (dequeued ← stored (dequeue_batch_from_reporting active now (sc_namespace cfg) budget
                        (sc_dispatch_orders cfg));
   if bool_decide (dq_claimed dequeued = []) then mret false else
   jobs ← codel_admit cfg (dq_claimed dequeued) now;
   if bool_decide (jobs = []) then mret false else
   claimed ← attempt (stored (claim_execution_batch (j_id <$> jobs) (sc_claim_owner cfg)));
   match claimed with
   | Err _ => each_of (fun job => gate_and_dispatch cfg job now) jobs
   | Ok flags => each_of (dispatch_won cfg now) (zip jobs flags)
   end) (p, w) = (r, (p', w')) ->
  exists sent, dispatched p w0 budget sent p' w'.
Proof.
  intros Ht Hrun.
  assert (Hnone : forall p2 w2, undisturbed w0 w2 -> po_scheduler p2 = po_scheduler p ->
    po_sent p2 = po_sent p -> exists sent, dispatched p w0 budget sent p2 w2).
  { intros p2 w2 Hu Hs Hl. exists []. by apply dispatched_nil. }
  assert (Ht0 : taken (dq_claimed (mkDequeued [] [])) w0 w) by done.
  apply bind_inv in Hrun as [(dq & pw4 & H4 & Hrun)|(e & H4 & ->)];
    apply stored_inv in H4 as (w4 & H4 & Hpw);
    pose proof (taken_dequeue_batch _ _ _ _ _ _ _ _ _ _ Ht0 (Nat.le_0_l _) H4) as Ht4.
  2:{ injection Hpw as -> ->. destruct Ht4 as [js Ht4]. apply Hnone; [by eapply taken_undisturbed|done|done]. }
  subst pw4. destruct Ht4 as [Ht4 Hlen4]. pose proof (taken_undisturbed _ _ _ Ht4) as Hu4.
  case_bool_decide. { injection Hrun as <- <- <-. by apply Hnone. }
  apply bind_inv in Hrun as [(jobs & [p5 w5] & H5 & Hrun)|(e & H5 & ->)];
    destruct (codel_admit_run _ _ _ _ _ _ _ _ Ht4 H5) as (Hs5 & Hl5 & Hr5); [|by apply Hnone].
  destruct Hr5 as [Ht5 Hlen5]. pose proof (taken_undisturbed _ _ _ Ht5) as Hu5.
  case_bool_decide. { injection Hrun as <- <- <-. by apply Hnone. }
  apply bind_inv in Hrun as [(claimed & pw6 & H6 & Hrun)|(e & H6 & _)].
  2:{ unfold attempt in H6. by case_match. }
  destruct (each_of_batch _ _ _ _ _ _ _ _ _ _ Ht5 H6 Hrun) as (sent & Hd). exists sent.
  apply (dispatched_from p p5 w0 (length jobs)); [done|done|lia|done].
Qed.

Lemma try_dispatch_batch_run p w r p' w' :
  wf w -> try_dispatch_batch cfg (p, w) = (r, (p', w')) ->
  exists sent, dispatched p w (batch_size cfg) sent p' w' /\ in_flight_room p sent.
Proof.
  intros Hwf Hrun. unfold try_dispatch_batch in Hrun. erewrite bind_ok in Hrun by done.
  set (now := Z.min _ _) in Hrun. set (w1 := mkWorld _ _) in Hrun.
  assert (Hwf1 : wf w1) by exact (wf_bump 1 _ Hwf).
  assert (Hnone : forall p2 w2, wf w2 -> db w2 = db w -> po_scheduler p2 = po_scheduler p ->
    po_sent p2 = po_sent p -> exists sent, dispatched p w (batch_size cfg) sent p2 w2 /\ in_flight_room p sent).
  { intros p2 w2 H1 H2 H3 H4.
    destruct (same_db_round p w w (batch_size cfg) (Ok true) p2 w2 Hwf H1 H2 H3 H4) as (? & ? & ? & _). eauto. }
  apply bind_inv in Hrun as [(active & pw2 & H2 & Hrun)|(e & H2 & ->)];
    destruct (quiet_run _ _ _ _ _ (fun I HI => keeps_active_queues (idle I _ _)) Hwf1 H2)
      as (p2 & w2 & Hpw2 & Hwf2 & Hdb2 & Hs2 & Hl2); clear H2; change (db w1) with (db w) in Hdb2.
  2:{ injection Hpw2 as -> ->. by apply Hnone. }
  subst pw2. case_bool_decide. { injection Hrun as <- <- <-. by apply Hnone. }
  erewrite bind_ok in Hrun by done. set (w3 := mkWorld _ _) in Hrun.
  assert (Hwf3 : wf w3) by exact (wf_bump 1 _ Hwf2).
  case_match. { injection Hrun as <- <- <-. by apply Hnone. }
  erewrite bind_ok in Hrun by done. case_bool_decide as Hrem.
  { injection Hrun as <- <- <-. by apply Hnone. }
  set (budget := from_option _ _ _) in Hrun.
  assert (Ht3 : taken [] w w3).
  { eapply taken_quiet; [done| |by apply taken_nil]. intros id. by rewrite <- Hdb2. }
  destruct (taken_batch_round active now budget p2 w3 r p' w' w Ht3 Hrun) as (sent & Hd).
  pose proof (ds_bound _ _ _ _ _ _ Hd) as Hb. exists sent. unfold budget, in_flight_remaining in Hb. split.
  - apply (dispatched_from p p2 w budget); [done|done| |done]. unfold budget, in_flight_remaining.
    destruct (sc_max_in_flight cfg); simpl; lia.
  - intros max Hmax. rewrite Hmax, Hs2 in Hb. simpl in Hb. lia.
Qed.

Lemma tick_dispatch_run p w r p' w' :
  wf w -> tick_dispatch cfg (p, w) = (r, (p', w')) ->
  exists sent, dispatched p w (batch_size cfg) sent p' w' /\ in_flight_room p sent.
Proof.
  intros Hwf Hrun. unfold tick_dispatch in Hrun.
  match type of Hrun with context [attempt ?m] =>
    destruct (attempt_total m (p, w)) as (r1 & [p1 w1] & Hm & Ha) end.
  rewrite (bind_ok _ _ _ _ _ Ha) in Hrun. injection Hrun as <- <- <-.
  destruct (Nat.ltb_spec 1 (batch_size cfg)) as [Hb|Hb].
  - by eapply try_dispatch_batch_run.
  - destruct (try_dispatch_run _ _ _ _ _ Hwf Hm) as (sent & Hd & Hroom & _). exists sent.
    split; [|done]. apply (dispatched_from p p w 1); [done|done| |done].
    unfold batch_size. case_match; lia.
Qed.

(** C21: dispatching is sound.  Whatever a round of the scheduler does, over any database, the
    jobs it hands to the worker pool are distinct jobs that were not running before; each is
    now running under an execution claim of this scheduler and on its books under the token
    (owner, attempt, epoch) of that claim, with a lease for it; every job that was running
    before still is, under the claim it had; and the round stays within the batch size and
    the cap on jobs in flight. *)
Theorem dispatch_sound p w r p' w' :
  wf w -> tick_dispatch cfg (p, w) = (r, (p', w')) ->
  undisturbed w w' /\ exists sent, po_sent p' = po_sent p ++ sent
    /\ NoDup (j_id <$> sent)
    /\ Forall (fun j => running_at (db w) (j_id j) = None /\ in_hand j p' w') sent
    /\ (length sent <= batch_size cfg)%nat
    /\ (forall max, sc_max_in_flight cfg = Some max ->
          (if_len (sd_in_flight (po_scheduler p')) <= Nat.max max (if_len (sd_in_flight (po_scheduler p))))%nat).
Proof.
  intros Hwf Hrun. destruct (tick_dispatch_run _ _ _ _ _ Hwf Hrun) as (sent & [] & Hroom).
  split; [done|]. exists sent. split_and!; [done..|]. intros max Hmax. specialize (Hroom max Hmax). lia.
Qed.

(** C22: a dispatch that succeeds strands no job.  When a round over one job returns without an
    error, every job that is running without a claim was already so before: the job it took
    is in the pool's hands under a claim, back on the queue, dead-lettered, or claimed by
    another scheduler. *)
Theorem dispatch_strands_none p w b p' w' id :
  wf w -> try_dispatch cfg (p, w) = (Ok b, (p', w')) -> stranded (db w') id -> stranded (db w) id.
Proof. intros Hwf Hrun. destruct (try_dispatch_run _ _ _ _ _ Hwf Hrun) as (_ & _ & _ & Hst & _). by apply Hst. Qed.

End poll_proofs.

(** ** Examples *)

Section examples.
#[local] Existing Instances demo_engine demo_uuid_fresh demo_scan_complete demo_quota_json
  demo_texts demo_instants demo_base64.

(** A pool with room. *)
Definition demo_pool : WorkerChannel := {| channel_capacity _ := 4%nat; channel_answer _ := Sent |}.
#[local] Existing Instance demo_pool.

Definition demo_poll : Poll := mkPoll (mkScheduler no_dispatch ∅) ∅ ∅ (∅, -2000000000) [].

(** A scheduler of one queue, with a cap of one on its only task. *)
Definition demo_poller (batch : option nat) : SchedulerSettings :=
  mkSchedulerSettings
    {["mail.send"%string := mkTaskConfig default_policy None Defer None None (Some 1) (Some 1%nat)]}
    {["default"%string := mkQueueConfig (Some (mkRateLimitConfig (f64_of_Z 5) (f64_of_Z 1))) (Some 1)]}
    ∅ ∅ ["default"%string] (Some "acme"%string) "a" batch (Some 2%nat).

Definition batch_round := tick_dispatch (E:=demo_env) (demo_poller (Some 3%nat)) (demo_poll, one_world).
Definition single_round := try_dispatch (E:=demo_env) (demo_poller None) (demo_poll, one_world).

Lemma dispatch_sound_witness :
  let '(p', w') := snd batch_round in
  j_id <$> po_sent p' = ["1"%string] /\ (if_len (sd_in_flight (po_scheduler p')) <= 2)%nat
  /\ Forall (fun j => in_hand (demo_poller (Some 3%nat)) j p' w') (po_sent p').
Proof.
  assert (Hids : j_id <$> po_sent (fst (snd batch_round)) = ["1"%string]) by by vm_compute.
  destruct batch_round as [r [p' w']] eqn:Hrun. simpl in *.
  destruct (dispatch_sound (E:=demo_env) (demo_poller (Some 3%nat)) demo_poll one_world r p' w'
    wf_one_world Hrun) as (_ & sent & Hs & _ & Hall & _ & Hcap).
  simpl in Hs. split_and!; [done|by apply (Hcap 2%nat)|]. rewrite Hs.
  eapply Forall_impl; [exact Hall|]. by intros j [_ ?].
Defined.

Lemma dispatch_strands_none_witness :
  let '(p', w') := snd single_round in
  j_id <$> po_sent p' = ["1"%string] /\ ~ stranded (db w') "1".
Proof.
  assert (Hids : j_id <$> po_sent (fst (snd single_round)) = ["1"%string]) by by vm_compute.
  assert (Hok : fst single_round = Ok true) by by vm_compute.
  destruct single_round as [r [p' w']] eqn:Hrun. simpl in *. subst r. split; [done|]. intros Hst.
  destruct (dispatch_strands_none (E:=demo_env) (demo_poller None) demo_poll one_world true p' w' "1"
    wf_one_world Hrun Hst) as [row Hr]. by vm_compute in Hr.
Defined.


(** A pool of connections that refuses one request. *)
Definition flaky_env (at_ : nat) : Env := {|
  uuid_v7 := @uuid_v7 demo_env; system_ms := @system_ms demo_env; random_u64 := @random_u64 demo_env;
  pool_ready n := negb (n =? at_)%nat;
  json_object := @json_object demo_env; json_to_string := @json_to_string demo_env
|}.
Definition refused_round := try_dispatch (E:=flaky_env 10) (demo_poller None) (demo_poll, one_world).

End examples.
