(* ===== verification/Session.v ===== *)
(** * A step session over a store ([step/session.rs], [step/store.rs], [step/failure.rs])

    A session drives one attempt's sequence against a store: it reads the job's rows once,
    answers what is on record from them, and commits what is new through the store, which
    carries the fence.  [StepStore] is the trait of the store and [StepStoreLaws] what a
    session relies on; the database implements both ([storage_steps],
    [storage_steps_laws]).  The theorem of the session, [committed_steps_run_once], is
    proved against the laws alone: a step whose commit landed is never run again. *)
From S2P Require Import Prelude Job Db Store Enqueue Dequeue Transitions Cascade Purge.
From S2P Require Import Claims Steps StepSeq DeadLetter.

(** ** The store *)

Class StepStore (W St : Type) := {
  supports_steps : St -> bool;
  load_steps : St -> string -> option string -> M W QueueError (list JobStep);
  store_commit_step : St -> NewJobStep -> StepLimits -> option string -> M W QueueError StepCommit;
  store_commit_sleep :
    St -> NewJobStep -> Z -> StepLimits -> option string -> M W QueueError SleepOutcome
}.

(** The row a commit of [step] at [now] leaves. *)
Definition recorded_step (step : NewJobStep) (wake_at : option Z) (now : Z) : JobStep :=
  mkJobStep (sp_job_id step) (sp_seq step) (sp_step_key step) (sp_kind step) (sp_result step)
    wake_at now.

(** What a session may rely on.  [on_record w id] is the job's committed rows; [lives w id
    ns] says that the job exists in the namespace [ns]. *)
Class StepStoreLaws {W St} (S : StepStore W St) := {
  store_ok : W -> Prop;
  on_record : W -> string -> list JobStep;
  lives : W -> string -> option string -> Prop;
  on_record_gapless : forall w id, store_ok w ->
    (forall i row, on_record w id !! i = Some row -> st_seq row = Z.of_nat i)
    /\ NoDup (st_step_key <$> on_record w id);
  load_law : forall st id ns w l w', store_ok w -> lives w id ns ->
    load_steps st id ns w = (Ok l, w') ->
    store_ok w' /\ l = on_record w id /\ forall j, on_record w' j = on_record w j;
  commit_law : forall st step limits ns w r w', store_ok w ->
    store_commit_step st step limits ns w = (r, w') ->
    store_ok w' /\
    match r with
    | Ok Committed => exists now, on_record w' (sp_job_id step)
        = on_record w (sp_job_id step) ++ [recorded_step step None now]
    | Ok AlreadyCommitted => on_record w' (sp_job_id step) = on_record w (sp_job_id step)
        /\ exists row, row ∈ on_record w (sp_job_id step) /\ st_seq row = sp_seq step
    | Err _ => on_record w' (sp_job_id step) = on_record w (sp_job_id step)
    end
}.

(** ** The session *)

Inductive StepSleep :=
  | SleepElapsed (step_key : string) (wake_at : Z)
  | Sleeping (step_key : string) (wake_at : Z).

Record StepSession (St : Type) := mkStepSession {
  se_store : St;
  se_job_id : string;
  se_run_key : string;
  se_namespace : option string;
  se_limits : StepLimits;
  se_sequence : StepSequence
}.
Arguments mkStepSession {St}.
Arguments se_store {St}.
Arguments se_job_id {St}.
Arguments se_run_key {St}.
Arguments se_namespace {St}.
Arguments se_limits {St}.
Arguments se_sequence {St}.

(** An attempt at work: its session, the world of the store, and everything the step
    bodies act on. *)
Record Attempt (St W X : Type) := mkAttempt {
  at_session : StepSession St;
  at_world : W;
  at_outside : X
}.
Arguments mkAttempt {St W X}.
Arguments at_session {St W X}.
Arguments at_world {St W X}.
Arguments at_outside {St W X}.

Section session.
Context {E : Env} {W St X : Type} {S : StepStore W St}.

Notation SesM := (M (Attempt St W X) QueueError).

Definition with_sequence (q : StepSequence) (s : StepSession St) : StepSession St :=
  mkStepSession (se_store s) (se_job_id s) (se_run_key s) (se_namespace s) (se_limits s) q.

Definition on_sequence {A} (m : M StepSequence QueueError A) : SesM A := fun a =>
  let '(r, q) := m (se_sequence (at_session a)) in
  (r, mkAttempt (with_sequence q (at_session a)) (at_world a) (at_outside a)).

Definition on_store {A} (m : M W QueueError A) : SesM A := fun a =>
  let '(r, w) := m (at_world a) in (r, mkAttempt (at_session a) w (at_outside a)).

Definition outside {A} (m : M X QueueError A) : SesM A := fun a =>
  let '(r, x) := m (at_outside a) in (r, mkAttempt (at_session a) (at_world a) x).

(** [StepSession::open] *)
Definition open (store : St) (job : Job) (limits : StepLimits) : M W QueueError (StepSession St) :=
  if negb (supports_steps store) then
    throw (Config ("job " +:+ j_id job
      +:+ " uses durable steps, which this storage backend does not implement"))
  else
    recorded ← load_steps store (j_id job) (j_namespace job);
    match new_sequence (j_id job) recorded with
    | Ok sequence =>
        mret (mkStepSession store (j_id job) (run_key job) (j_namespace job) limits sequence)
    | Err e => throw e
    end.

Definition session_idempotency_key (s : StepSession St) (step_key : string) : string :=
  idempotency_key (se_run_key s) step_key.

Definition check_caps (s : StepSession St) (pending : PendingStep) (encoded : bytes)
    : Result QueueError unit :=
  let limits := clamped (se_limits s) in
  let too_large limit actual allowed :=
    Err (StepLimitExceeded (ps_step_key pending) limit actual allowed) in
  let len := Z.of_nat (length encoded) in
  if max_step_bytes limits <? len then too_large "step bytes"%string len (max_step_bytes limits)
  else
    let steps := sq_stored_count (se_sequence s) + 1 in
    if max_steps limits <? steps then too_large "step count"%string steps (max_steps limits)
    else
      let total := sq_stored_bytes (se_sequence s) + len in
      if max_total_bytes limits <? total
      then too_large "total bytes"%string total (max_total_bytes limits)
      else Ok tt.

Definition from_check {A} (r : Result QueueError A) : SesM A := fun a => (r, a).

Definition commit_run (pending : PendingStep) (encoded : bytes) : SesM StepCommit :=
  s ← gets at_session;
  from_check (check_caps s pending encoded) ;;
  let step := mkNewJobStep (se_job_id s) (ps_seq pending) (ps_step_key pending)
    (ps_kind pending) (Some encoded) in
  committed ← on_store (store_commit_step (se_store s) step (se_limits s) (se_namespace s));
  on_sequence (commit pending (Z.of_nat (length encoded))) ;;
  mret committed.

Definition run (name : string) (key : option string) (body : string -> M X QueueError bytes)
    : SesM bytes :=
  decision ← on_sequence (begin_run name key);
  match decision with
  | Memoized _ result => mret result
  | RunStep pending =>
      s ← gets at_session;
      encoded ← outside (body (session_idempotency_key s (ps_step_key pending)));
      commit_run pending encoded ;;
      mret encoded
  end.

Definition sleep_at (name key : option string) (wake_at now : Z) : SesM StepSleep :=
  decision ← on_sequence (begin_sleep name key now);
  match decision with
  | Elapsed step_key wake_at => mret (SleepElapsed step_key wake_at)
  | SleepStep pending | ResumeSleep pending =>
      s ← gets at_session;
      (match decision with
       | SleepStep _ => from_check (check_caps s pending [])
       | _ => mret tt
       end) ;;
      let step := mkNewJobStep (se_job_id s) (ps_seq pending) (ps_step_key pending) Sleep None in
      outcome ← on_store
        (store_commit_sleep (se_store s) step wake_at (se_limits s) (se_namespace s));
      on_sequence (commit_sleep pending outcome) ;;
      mret (Sleeping (ps_step_key pending) (outcome_wake_at outcome))
  end.
End session.

(** ** The database as a store *)

Record StorageSteps := mkStorageSteps {
  ss_owner : string;
  ss_attempt : Z;
  ss_epoch : option Z
}.

(** [StorageSteps::new] and [StorageSteps::with_epoch] *)
Definition new_storage_steps (owner : string) (attempt_no : Z) : StorageSteps :=
  mkStorageSteps owner attempt_no None.
Definition with_epoch (epoch : option Z) (s : StorageSteps) : StorageSteps :=
  mkStorageSteps (ss_owner s) (ss_attempt s) epoch.

Section storage.
Context {E : Env} {G : Engine}.

Definition storage_supports_steps (st : StorageSteps) : bool := true.

Definition storage_load_steps (st : StorageSteps) (job_id : string) (namespace : option string)
    : DbM (list JobStep) :=
  rows ← get_job_steps job_id namespace; mret (step_of_row <$> rows).

Definition storage_commit_step (st : StorageSteps) (step : NewJobStep) (limits : StepLimits)
    (namespace : option string) : DbM StepCommit :=
  record_step_result step (ss_owner st) (ss_attempt st) (ss_epoch st) limits namespace.

Definition storage_commit_sleep (st : StorageSteps) (step : NewJobStep) (wake_at : Z)
    (limits : StepLimits) (namespace : option string) : DbM SleepOutcome :=
  sleep_job step (ss_owner st) (ss_attempt st) (ss_epoch st) wake_at limits namespace.

#[export] Instance storage_steps : StepStore World StorageSteps := {
  supports_steps := storage_supports_steps;
  load_steps := storage_load_steps;
  store_commit_step := storage_commit_step;
  store_commit_sleep := storage_commit_sleep
}.

(** [StepSession::load] *)
Definition load (job : Job) (owner : string) (limits : StepLimits)
    : DbM (StepSession StorageSteps) :=
  open (new_storage_steps owner (j_retry_count job)) job limits.

Definition sleep_for {X} (name key : option string) (duration_ms : Z)
    : M (Attempt StorageSteps World X) QueueError StepSleep :=
  now ← on_store now_millis;
  sleep_at name key (sat_add_i64 now duration_ms) now.

Definition sleep_until {X} (name key : option string) (wake_at : Z)
    : M (Attempt StorageSteps World X) QueueError StepSleep :=
  now ← on_store now_millis;
  sleep_at name key wake_at now.
End storage.

(** ** What a failed step operation means *)

Inductive StepFailure := Retryable | Permanent | Superseded.

Definition should_retry (f : StepFailure) : bool :=
  match f with Retryable => true | _ => false end.

Definition classify_step_failure (error : QueueError) : StepFailure :=
  match error with
  | ClaimLost _ => Superseded
  | StepDiverged _ _ _ _ | StepSequenceDiverged _ | StepLimitExceeded _ _ _ _
  | Serialization _ | Json _ | Config _ | TaskNotRegistered _ | ContractTooOld _ _
  | StepRefused _ => Permanent
  | Storage UniqueViolation | Storage ForeignKeyViolation | Storage NotNullViolation
  | Storage CheckViolation => Permanent
  | _ => Retryable
  end.

Definition refusal_error (job_id : string) (message : option string)
    (failure : option StepFailure) : QueueError :=
  let message := default ("a step commit for job " +:+ job_id
    +:+ " was refused without saying why")%string message in
  match default Retryable failure with
  | Superseded => ClaimLost job_id
  | Permanent => StepRefused message
  | Retryable => Other message
  end.

(** ** A step that was committed is never run again *)

Section once.
Context {E : Env} {W St X : Type} {S : StepStore W St} {L : StepStoreLaws S}.
Implicit Types a : Attempt St W X.

Record Ask := mkAsk {
  ask_name : string;
  ask_key : option string;
  ask_body : string -> M X QueueError bytes
}.

(** The task body: its steps, one after the other. *)
Fixpoint run_all (asks : list Ask) : M (Attempt St W X) QueueError (list bytes) :=
  match asks with
  | [] => mret []
  | ask :: asks =>
      v ← run (ask_name ask) (ask_key ask) (ask_body ask);
      vs ← run_all asks;
      mret (v :: vs)
  end.

(** The same steps, whatever their bodies do now. *)
Definition same_asks : list Ask -> list Ask -> Prop :=
  Forall2 (fun x y => ask_name x = ask_name y /\ ask_key x = ask_key y).

(** The session's view of the record is the store's. *)
Record tracks (base rows : list JobStep) (a : Attempt St W X) : Prop := {
  tracks_grown : grown base rows (se_sequence (at_session a));
  tracks_ok : store_ok (at_world a);
  tracks_record : on_record (at_world a) (se_job_id (at_session a)) = base ++ rows;
  tracks_job : sq_job_id (se_sequence (at_session a)) = se_job_id (at_session a)
}.

Lemma run_memoized name key body a k v q :
  begin_run name key (se_sequence (at_session a)) = (Ok (Memoized k v), q) ->
  run name key body a
  = (Ok v, mkAttempt (with_sequence q (at_session a)) (at_world a) (at_outside a)).
Proof. intros Hb. unfold run, on_sequence, mbind, M_bind. by rewrite Hb. Qed.

(** A request that is answered without a new row runs nothing. *)
Lemma run_replayed t enc name key body a v q :
  perform t (RunReq name key enc) (se_sequence (at_session a)) = (Ok (Bytes v, []), q) ->
  run name key body a
  = (Ok v, mkAttempt (with_sequence q (at_session a)) (at_world a) (at_outside a)).
Proof.
  unfold perform, mbind at 1, M_bind at 1.
  destruct (begin_run name key (se_sequence (at_session a))) as [[[k r|p]|e] q1] eqn:Hb; [| |done].
  - intros [= -> ->]. by eapply run_memoized.
  - unfold mbind, M_bind. by destruct (commit p _ q1) as [[]].
Qed.

Lemma answer_row_seq now base done s r v row s' :
  grown base done s -> answer now s r = Some (v, [row], s') ->
  st_seq row = Z.of_nat (length (base ++ done)).
Proof.
  intros Hg Ha. pose proof (answer_grown _ _ _ _ _ _ _ _ Hg Ha) as Hg'.
  apply (sound_seq _ (grown_sound _ _ _ Hg')). rewrite app_assoc. by apply list_lookup_middle.
Qed.

Lemma commit_run_ok p enc a c a' :
  commit_run p enc a = (Ok c, a') ->
  let s := at_session a in
  let step := mkNewJobStep (se_job_id s) (ps_seq p) (ps_step_key p) (ps_kind p) (Some enc) in
  exists w' q,
    store_commit_step (se_store s) step (se_limits s) (se_namespace s) (at_world a) = (Ok c, w')
    /\ commit p (Z.of_nat (length enc)) (se_sequence s) = (Ok tt, q)
    /\ a' = mkAttempt (with_sequence q s) w' (at_outside a).
Proof.
  intros Hrun s step. unfold commit_run, gets, from_check, on_store, on_sequence, mbind, M_bind in Hrun.
  fold s in Hrun. destruct (check_caps s p enc); [|done]. fold step in Hrun.
  destruct (store_commit_step _ step _ _ (at_world a)) as [[c'|] w'] eqn:Hc; [|done]. simpl in Hrun.
  fold s in Hrun. destruct (commit p _ (se_sequence s)) as [[[]|] q] eqn:Hq; [|done].
  injection Hrun as <- <-. by exists w', q.
Qed.

(** What a step that succeeded did. *)
Lemma run_ok base rows name key body a v a' :
  tracks base rows a -> run name key body a = (Ok v, a') ->
  exists t enc rows',
    perform t (RunReq name key enc) (se_sequence (at_session a))
      = (Ok (Bytes v, rows'), se_sequence (at_session a'))
    /\ store_ok (at_world a') /\ se_job_id (at_session a') = se_job_id (at_session a)
    /\ on_record (at_world a') (se_job_id (at_session a))
       = on_record (at_world a) (se_job_id (at_session a)) ++ rows'.
Proof.
  intros Ht Hrun. unfold run, on_sequence in Hrun.
  destruct (begin_run name key (se_sequence (at_session a))) as [[[k r|p]|e] q1] eqn:Hb.
  - unfold mbind, M_bind in Hrun. rewrite Hb in Hrun. injection Hrun as <- <-.
    exists 0, [], []. rewrite app_nil_r. split_and!; [|apply Ht|done|done].
    unfold perform, mbind, M_bind. by rewrite Hb.
  - unfold gets, outside, mbind, M_bind in Hrun. rewrite Hb in Hrun. simpl in Hrun.
    destruct (body _ (at_outside a)) as [[enc|e] x]; [|done].
    destruct (commit_run p enc _) as [[c|] a1] eqn:Hc; [|done]. injection Hrun as <- <-.
    apply commit_run_ok in Hc as (w' & q2 & Hc & Hq & ->). simpl in *.
    assert (Hperf : forall t, perform t (RunReq name key enc) (se_sequence (at_session a))
      = (Ok (Bytes enc, [row_of_pending (sq_job_id q2) p (Some enc) None t]), q2)).
    { intros t. unfold perform, mbind, M_bind. rewrite Hb, Hq. done. }
    destruct (commit_law _ _ _ _ _ _ _ (tracks_ok _ _ _ Ht) Hc) as [Hok Hrec]. simpl in Hrec.
    pose proof (perform_answer 0 _ (RunReq name key enc)
      (grown_tidy _ _ _ (tracks_grown _ _ _ Ht))) as Ha.
    destruct (answer 0 _ _) as [[[v' rows'] q']|] eqn:Hans; [|by rewrite Hperf in Ha].
    rewrite (Hperf 0) in Ha. injection Ha as <- <- <-.
    pose proof (answer_row_seq _ _ _ _ _ _ _ _ (tracks_grown _ _ _ Ht) Hans) as Hseq.
    pose proof (answer_job _ _ _ _ _ _ Hans) as Hjob. rewrite (tracks_job _ _ _ Ht) in Hjob.
    simpl in Hseq. destruct c.
    + destruct Hrec as [now Hrec]. exists now, enc. eexists. split_and!; [apply Hperf|done|done|].
      rewrite Hrec. unfold recorded_step, row_of_pending. simpl. by rewrite Hjob.
    + destruct Hrec as [_ (row & Hin & Hrow)]. rewrite (tracks_record _ _ _ Ht) in Hin.
      apply list_elem_of_lookup in Hin as [i Hi]. apply lookup_lt_Some in Hi as Hlt.
      rewrite (sound_seq _ (grown_sound _ _ _ (tracks_grown _ _ _ Ht)) _ _ Hi) in Hrow. lia.
  - unfold mbind, M_bind in Hrun. by rewrite Hb in Hrun.
Qed.

Lemma tracks_run base rows name key enc t v rows' a a' :
  tracks base rows a ->
  perform t (RunReq name key enc) (se_sequence (at_session a))
    = (Ok (Bytes v, rows'), se_sequence (at_session a')) ->
  store_ok (at_world a') -> se_job_id (at_session a') = se_job_id (at_session a) ->
  on_record (at_world a') (se_job_id (at_session a))
    = on_record (at_world a) (se_job_id (at_session a)) ++ rows' ->
  tracks base (rows ++ rows') a'.
Proof.
  intros Ht Hp Hok Hid Hrec.
  pose proof (perform_answer t _ (RunReq name key enc) (grown_tidy _ _ _ (tracks_grown _ _ _ Ht))) as Ha.
  destruct (answer t _ _) as [[[v' r'] q']|] eqn:Hans; [|by rewrite Hp in Ha].
  rewrite Hp in Ha. injection Ha as <- <- <-. split; [|done| |].
  - eapply answer_grown; [apply Ht|done].
  - by rewrite Hid, Hrec, (tracks_record _ _ _ Ht), app_assoc.
  - by rewrite (answer_job _ _ _ _ _ _ Hans), Hid, (tracks_job _ _ _ Ht).
Qed.

(** The sequence's side of an ask. *)
Definition asked (ask : Ask) (q : Z * Request) : Prop :=
  exists t enc, q = (t, RunReq (ask_name ask) (ask_key ask) enc).

Lemma run_all_ok asks base rows a vs a' :
  tracks base rows a -> run_all asks a = (Ok vs, a') ->
  exists reqs rows', Forall2 asked asks reqs
    /\ perform_all reqs (se_sequence (at_session a))
       = (Ok (Bytes <$> vs, rows'), se_sequence (at_session a'))
    /\ tracks base (rows ++ rows') a'
    /\ se_job_id (at_session a') = se_job_id (at_session a).
Proof.
  revert rows a vs. induction asks as [|ask asks IH]; intros rows a vs Ht; cbn [run_all].
  { intros [= <- <-]. exists [], []. rewrite app_nil_r. by split_and!. }
  intros [(v & a1 & Hrun & Hrest)|(? & _ & ?)]%bind_inv; [|done].
  apply bind_inv in Hrest as [(vs' & a2 & Hall & [= <- <-])|(? & _ & ?)]; [|done].
  destruct (run_ok _ _ _ _ _ _ _ _ Ht Hrun) as (t & enc & r1 & Hp & Hok & Hid & Hrec).
  pose proof (tracks_run _ _ _ _ _ _ _ _ _ _ Ht Hp Hok Hid Hrec) as Ht1.
  destruct (IH _ _ _ Ht1 Hall) as (reqs & r2 & Hasked & Hperf & Ht2 & Hid2).
  exists ((t, RunReq (ask_name ask) (ask_key ask) enc) :: reqs), (r1 ++ r2).
  split_and!; [constructor; [by exists t, enc|done]| |by rewrite app_assoc|congruence].
  cbn [perform_all]. by rewrite (bind_ok _ _ _ _ _ Hp), (bind_ok _ _ _ _ _ Hperf).
Qed.

Lemma run_all_replayed asks reqs a vs q :
  Forall2 asked asks reqs ->
  perform_all reqs (se_sequence (at_session a)) = (Ok (Bytes <$> vs, []), q) ->
  run_all asks a
  = (Ok vs, mkAttempt (with_sequence q (at_session a)) (at_world a) (at_outside a)).
Proof.
  intros Hasked. revert a vs. induction Hasked as [|ask q0 asks reqs (t & enc & ->) Hasked IH];
    intros a vs; cbn [perform_all run_all].
  { destruct vs; [|done]. intros [= <-]. by destruct a as [[]]. }
  intros [([v rows] & q1 & Hp & Hrest)|(? & _ & ?)]%bind_inv; [|done].
  apply bind_inv in Hrest as [([vs' rows'] & q2 & Hall & Heq)|(? & _ & ?)]; [|done].
  injection Heq as Hvs Hrows <-. destruct vs as [|v0 vs]; [done|].
  injection Hvs as -> ->. apply app_nil in Hrows as [-> ->].
  rewrite (bind_ok _ _ _ _ _ (run_replayed _ _ _ _ (ask_body ask) _ _ _ Hp)).
  erewrite bind_ok; [|apply (IH _ vs); exact Hall]. done.
Qed.

Lemma same_asks_questions asks asks' reqs :
  same_asks asks asks' -> Forall2 asked asks reqs ->
  exists reqs', Forall2 asked asks' reqs' /\ same_questions reqs reqs'.
Proof.
  intros Hsame. revert reqs. induction Hsame as [|ask ask' asks asks' [Hn Hk] Hsame IH]; intros reqs.
  { intros ->%Forall2_nil_inv_l. exists []. split; constructor. }
  intros (q & reqs0 & (t & enc & ->) & Hasked & ->)%Forall2_cons_inv_l.
  destruct (IH _ Hasked) as (reqs' & Ha & Hq).
  exists ((t, RunReq (ask_name ask') (ask_key ask') enc) :: reqs'). split; constructor; try done.
  by exists t, enc.
Qed.

(** A session that opened is over a sound record. *)
Lemma open_ok st job limits w ses w' :
  store_ok w -> lives w (j_id job) (j_namespace job) -> open st job limits w = (Ok ses, w') ->
  sound_record (on_record w (j_id job))
  /\ forall x : X, tracks (on_record w (j_id job)) [] (mkAttempt ses w' x)
     /\ se_sequence ses = fresh_sequence (j_id job) (on_record w (j_id job))
     /\ se_job_id ses = j_id job.
Proof.
  intros Hok Hlives Hopen. unfold open in Hopen. destruct (supports_steps st); [|done]. simpl in Hopen.
  apply bind_inv in Hopen as [(l & w1 & Hload & Hopen)|(? & _ & ?)]; [|done].
  destruct (load_law _ _ _ _ _ _ Hok Hlives Hload) as (Hok1 & -> & Hsame).
  destruct (new_sequence (j_id job) _) as [q|] eqn:Hq; [|done]. injection Hopen as <- <-.
  destruct (on_record_gapless w (j_id job) Hok) as [Hseq Hkeys].
  unfold new_sequence in Hq. destruct (find_hole _ _) as [[]|] eqn:Hhole; [done|].
  injection Hq as <-.
  assert (Hsound : sound_record (on_record w (j_id job))).
  { split; [|done|done]. by apply find_hole_bound. }
  split; [done|]. intros x. split_and!; [|done|done]. split; simpl; [|done| |done].
  - by apply fresh_grown.
  - by rewrite Hsame, app_nil_r.
Qed.

Lemma open_again st job limits w l w' :
  store_ok w -> lives w (j_id job) (j_namespace job) -> supports_steps st = true ->
  load_steps st (j_id job) (j_namespace job) w = (Ok l, w') ->
  Z.of_nat (length l) <= i32_max + 1 ->
  sound_record (on_record w (j_id job))
  /\ open st job limits w = (Ok (mkStepSession st (j_id job) (run_key job) (j_namespace job) limits
       (fresh_sequence (j_id job) (on_record w (j_id job)))), w').
Proof.
  intros Hok Hlives Hsup Hload Hlen.
  destruct (load_law _ _ _ _ _ _ Hok Hlives Hload) as (_ & -> & _).
  destruct (on_record_gapless w (j_id job) Hok) as [Hseq Hkeys].
  assert (Hsound : sound_record (on_record w (j_id job))) by by split. split; [done|].
  unfold open. rewrite Hsup. simpl. rewrite (bind_ok _ _ _ _ _ Hload).
  by rewrite new_sequence_sound.
Qed.

(** C15: a step that was committed is never run again.  If a session over a job ran [asks]
    and got [vs], then any later attempt at that job, by whoever holds it, whose store still
    has the rows the first left (and possibly more), opens and gives the same values for
    the same steps; the store and everything the step bodies act on stay exactly as they
    were, so no body runs and nothing is committed. *)
Theorem committed_steps_run_once st job limits w ses w0 x asks vs a1 :
  store_ok w -> lives w (j_id job) (j_namespace job) ->
  open st job limits w = (Ok ses, w0) ->
  run_all asks (mkAttempt ses w0 x) = (Ok vs, a1) ->
  forall st' job' limits' w' l w1 more asks' x',
    j_id job' = j_id job -> store_ok w' -> lives w' (j_id job') (j_namespace job') ->
    on_record w' (j_id job) = on_record (at_world a1) (j_id job) ++ more ->
    supports_steps st' = true ->
    load_steps st' (j_id job') (j_namespace job') w' = (Ok l, w1) ->
    Z.of_nat (length l) <= i32_max + 1 ->
    same_asks asks asks' ->
    exists ses1 ses2, open st' job' limits' w' = (Ok ses1, w1)
      /\ run_all asks' (mkAttempt ses1 w1 x') = (Ok vs, mkAttempt ses2 w1 x').
Proof.
  intros Hok Hlives Hopen Hrun st' job' limits' w' l w1 more asks' x' Hid Hok' Hlives' Hrec Hsup
    Hload Hlen Hsame.
  destruct (open_ok _ _ _ _ _ _ Hok Hlives Hopen) as [Hsound Hses].
  destruct (Hses x) as (Ht & Hfresh & Hsid). clear Hses.
  destruct (run_all_ok _ _ _ _ _ _ Ht Hrun) as (reqs & rows & Hasked & Hperf & Ht1 & Hid1).
  destruct (same_asks_questions _ _ _ Hsame Hasked) as (reqs' & Hasked' & Hq).
  destruct (open_again st' job' limits' w' l w1 Hok' Hlives' Hsup Hload Hlen) as [Hsound' Hopen'].
  pose proof (tracks_record _ _ _ Ht1) as Hrec1. simpl in *. rewrite Hid1, Hsid in Hrec1.
  rewrite Hid, Hrec, Hrec1 in Hsound', Hopen'. rewrite <- app_assoc in Hsound', Hopen'.
  pose proof (fresh_sim (j_id job) _ _ Hsound Hsound') as Hsim. rewrite Hfresh in Hperf.
  destruct (replay_all reqs reqs' _ _ _ _ _ _ _ _ Hq Hsim Hperf) as (s2 & Hp2 & _).
  eexists. eexists. split; [exact Hopen'|].
  exact (run_all_replayed asks' reqs' (mkAttempt (mkStepSession _ _ _ _ _ _) w1 x') vs s2 Hasked' Hp2).
Qed.
End once.

(** ** The database keeps the laws *)

Section storage_laws.
Context {E : Env} {G : Engine} `{!UuidFresh E} `{!ScanComplete G}.

Definition step_rows (S : gmap string JobStepRow) (id : string) : list JobStepRow :=
  order_by (asc_Z js_seq) (filter (fun s => js_job_id s = id) (scan S)).

Definition db_record (w : World) (id : string) : list JobStep :=
  step_of_row <$> step_rows (db_job_steps (db w)) id.

Definition lives_in (w : World) (id : string) (ns : option string) : Prop :=
  exists r, db_jobs (db w) !! id = Some r /\ jr_namespace r = ns.

Lemma elem_of_step_rows S id s :
  s ∈ step_rows S id <-> exists k, S !! k = Some s /\ js_job_id s = id.
Proof.
  unfold step_rows. rewrite order_by_elem_of, list_elem_of_filter, elem_of_scan. naive_solver.
Qed.

(** Two rows of a job that share a position or a key are one. *)
Lemma step_rows_inj w id s s' :
  wf w -> s ∈ step_rows (db_job_steps (db w)) id -> s' ∈ step_rows (db_job_steps (db w)) id ->
  js_seq s = js_seq s' \/ js_step_key s = js_step_key s' -> s = s'.
Proof.
  intros Hwf (k & Hk & Hid)%elem_of_step_rows (k' & Hk' & Hid')%elem_of_step_rows Hor.
  assert (k = k') as ->; [|congruence].
  eapply (wf_step_unique _ _ _ _ _ Hwf); [exact Hk|exact Hk'|]. unfold step_conflict.
  rewrite bool_decide_eq_true_2 by congruence. destruct Hor as [Heq|Heq]; rewrite Heq.
  - by rewrite Z.eqb_refl.
  - rewrite (bool_decide_eq_true_2 (js_step_key s' = js_step_key s')) by done. by rewrite orb_true_r.
Qed.

Lemma step_rows_NoDup w id : wf w -> NoDup (step_rows (db_job_steps (db w)) id).
Proof. intros Hwf. unfold step_rows. rewrite order_by_perm. by apply NoDup_filter, steps_NoDup. Qed.

Lemma length_step_rows S id : length (step_rows S id) = steps_count S id.
Proof. unfold step_rows. by rewrite order_by_perm, length_filter_scan. Qed.

Lemma step_rows_seq w id i s :
  wf w -> step_rows (db_job_steps (db w)) id !! i = Some s -> js_seq s = Z.of_nat i.
Proof.
  intros Hwf Hi. set (l := step_rows (db_job_steps (db w)) id) in *.
  assert (Hl : (js_seq <$> l) = seqZ 0 (Z.of_nat (length l))).
  { rewrite <- (length_fmap js_seq l). apply sorted_gapless.
    - apply asc_Z_sorted, order_by_sorted, _.
    - apply NoDup_fmap_2_strong; [|by apply step_rows_NoDup].
      intros s1 s2 H1 H2 Heq. eapply step_rows_inj; [done|done|done|by left].
    - rewrite length_fmap. apply Forall_fmap, Forall_forall. intros s' Hin. simpl.
      apply elem_of_step_rows in Hin as (k & Hk & <-). unfold l. rewrite length_step_rows.
      by eapply (wf_step_bound _ _ _ _ _ Hwf). }
  assert (Hs : (js_seq <$> l) !! i = Some (js_seq s)) by by rewrite list_lookup_fmap, Hi.
  rewrite Hl, lookup_seqZ in Hs. lia.
Qed.

Lemma list_filter_ext_in {A} (P Q : A -> Prop) `{!forall x, Decision (P x)}
    `{!forall x, Decision (Q x)} (l : list A) :
  (forall x, x ∈ l -> P x <-> Q x) -> filter P l = filter Q l.
Proof.
  induction l as [|x l IH]; intros Hl; [done|]. rewrite !filter_cons, IH.
  - destruct (decide (P x)), (decide (Q x)); try done; specialize (Hl x ltac:(left)); tauto.
  - intros y Hy. apply Hl. by right.
Qed.

Lemma get_job_steps_eq id ns w :
  wf w -> lives_in w id ns -> pool_ready (tick w) = true ->
  get_job_steps id ns w = (Ok (step_rows (db_job_steps (db w)) id), bump 1 w).
Proof.
  intros Hwf (r & Hr & Hns) Hp. unfold get_job_steps. rewrite (bind_ok _ _ _ _ _ (conn_ok w Hp)).
  erewrite bind_ok by done. unfold mret, M_ret. f_equal. f_equal. unfold step_rows. f_equal.
  apply list_filter_ext_in. intros s [k Hk]%elem_of_scan.
  rewrite andb_True, bool_decide_spec. split; [tauto|]. intros Hid. split; [done|].
  destruct (wf_step_live _ _ _ _ _ Hwf _ _ Hk) as (r' & Hr' & Hn). rewrite Hid in Hr'.
  simplify_eq. rewrite Hn. unfold job_in_namespace. destruct (jr_namespace r); [|done].
  by rewrite bool_decide_eq_true_2.
Qed.

(** A commit at the next position goes to the end. *)
Lemma step_rows_insert w id k s :
  wf w -> db_job_steps (db w) !! k = None -> js_job_id s = id ->
  js_seq s = Z.of_nat (steps_count (db_job_steps (db w)) id) ->
  step_rows (<[k := s]> (db_job_steps (db w))) id = step_rows (db_job_steps (db w)) id ++ [s].
Proof.
  intros Hwf Hk Hid Hseq. apply order_by_unique; [apply _| | |].
  - intros s1 s2 H1 H2 Heq%Z.compare_eq.
    assert (Hin : forall x, x ∈ filter (fun s => js_job_id s = id)
        (scan (<[k := s]> (db_job_steps (db w)))) ->
      x = s \/ x ∈ step_rows (db_job_steps (db w)) id).
    { intros x [Hx [k' [[-> <-]|[_ Hk']]%lookup_insert_Some]%elem_of_scan]%list_elem_of_filter;
        [by left|right]. apply elem_of_step_rows. by exists k'. }
    assert (Hlt : forall x, x ∈ step_rows (db_job_steps (db w)) id -> js_seq x < js_seq s).
    { intros x (k' & Hk' & Hx)%elem_of_step_rows. rewrite Hseq, <- Hx.
      by eapply (wf_step_bound _ _ _ _ _ Hwf). }
    destruct (Hin _ H1) as [->|Hs1], (Hin _ H2) as [->|Hs2]; [done| | |].
    + specialize (Hlt _ Hs2). lia.
    + specialize (Hlt _ Hs1). lia.
    + eapply step_rows_inj; [done|done|done|by left].
  - apply StronglySorted_app_2; [|apply order_by_sorted, _|constructor; [constructor|by constructor]].
    intros x y (k' & Hk' & Hx)%elem_of_step_rows ->%list_elem_of_singleton.
    unfold cmp_le, asc_Z. rewrite Z.compare_gt_iff, Hseq, <- Hx.
    pose proof (wf_step_bound _ _ _ _ _ Hwf _ _ Hk'). lia.
  - unfold step_rows.
    rewrite order_by_perm, (scan_perm string JobStepRow (<[k := s]> (db_job_steps (db w)))).
    rewrite map_to_list_insert by done. rewrite (scan_perm string JobStepRow (db_job_steps (db w))).
    cbn [fmap list_fmap snd]. rewrite filter_cons_True by done. by rewrite <- Permutation_cons_append.
Qed.

Lemma kind_round_trip k : from_wire (kind_str k) = k.
Proof. by destruct k. Qed.

Lemma db_record_commit step owner a epoch limits ns w r w' :
  wf w -> record_step_result step owner a epoch limits ns w = (r, w') ->
  wf w' /\
  match r with
  | Ok Committed => exists now, db_record w' (sp_job_id step)
      = db_record w (sp_job_id step) ++ [recorded_step step None now]
  | Ok AlreadyCommitted => db_record w' (sp_job_id step) = db_record w (sp_job_id step)
      /\ exists row, row ∈ db_record w (sp_job_id step) /\ st_seq row = sp_seq step
  | Err _ => db_record w' (sp_job_id step) = db_record w (sp_job_id step)
  end.
Proof.
  intros Hwf Hrun. destruct (record_step_result_cases _ _ _ _ _ _ _ _ _ Hwf Hrun) as (Hwf' & _ & Hr).
  split; [done|]. unfold db_record. destruct r as [[|]|e].
  - destruct Hr as [_ (row & id & now & _ & _ & [Hseq _] & _ & _ & Hid & ->)]. exists now.
    rewrite (step_rows_insert w (sp_job_id step)) by done. rewrite fmap_app. simpl.
    unfold step_of_row, recorded_step. simpl. by rewrite kind_round_trip.
  - destruct Hr as [-> (s & (k & Hk & Hid & Hseq) & _)]. split; [done|].
    exists (step_of_row s). split; [|done]. apply list_elem_of_fmap_2, elem_of_step_rows.
    by exists k.
  - by rewrite Hr.
Qed.

#[export] Instance storage_steps_laws : StepStoreLaws storage_steps.
Proof.
  refine {| store_ok := wf; on_record := db_record; lives := lives_in |}.
  - intros w id Hwf. split.
    + intros i row. unfold db_record. rewrite list_lookup_fmap.
      destruct (step_rows _ id !! i) as [s|] eqn:Hs; [|done]. intros [= <-]. simpl.
      by eapply step_rows_seq.
    + unfold db_record. rewrite <- list_fmap_compose. apply NoDup_fmap_2_strong.
      * intros s s' Hs Hs' Heq. eapply step_rows_inj; [done|done|done|by right].
      * by apply step_rows_NoDup.
  - intros st id ns w l w' Hwf Hlives Hload. simpl in Hload. unfold storage_load_steps in Hload.
    destruct (pool_ready (tick w)) eqn:Hp.
    + rewrite (bind_ok _ _ _ _ _ (get_job_steps_eq id ns w Hwf Hlives Hp)) in Hload.
      injection Hload as <- <-. split; [by apply wf_bump|done].
    + unfold get_job_steps, conn, mbind, M_bind in Hload. simpl in Hload. by rewrite Hp in Hload.
  - intros st step limits ns w r w'. apply db_record_commit.
Defined.

Lemma load_steps_total st id ns w :
  wf w -> lives_in w id ns -> pool_ready (tick w) = true ->
  load_steps st id ns w = (Ok (db_record w id), bump 1 w).
Proof.
  intros Hwf Hl Hp. simpl. unfold storage_load_steps.
  by rewrite (bind_ok _ _ _ _ _ (get_job_steps_eq id ns w Hwf Hl Hp)).
Qed.
End storage_laws.

(** A refusal that crosses a process boundary classifies as it did before. *)
Lemma refusal_error_classify job_id message failure :
  classify_step_failure (refusal_error job_id message (Some failure)) = failure.
Proof. by destruct failure. Qed.

(** ** Example *)

Section examples.
#[local] Existing Instances demo_env demo_engine demo_uuid_fresh demo_scan_complete.

Definition held_job : Job :=
  match db_jobs (db claimed_world) !! uuid_v7 1 with
  | Some r => job_of_row r
  | None => demo_dead_job
  end.

Definition holder : StorageSteps := with_epoch (Some (epoch_at 6)) (new_storage_steps "a" 0).

(** A body that logs the key it was handed and returns [out]. *)
Definition logging (out : bytes) (key : string) : M (list string) QueueError bytes :=
  fun log => (Ok out, log ++ [key]).

Definition asks_once : list Ask :=
  [mkAsk "charge" None (logging [x2a]); mkAsk "mail" (Some "bob"%string) (logging [x07; x08])].
Definition asks_again : list Ask :=
  [mkAsk "charge" None (logging []); mkAsk "mail" (Some "bob"%string) (logging [xff])].

Definition opened : StepSession StorageSteps * World :=
  match open holder held_job default_limits claimed_world with
  | (Ok ses, w) => (ses, w)
  | (Err _, w) => (mkStepSession holder "" "" None default_limits (fresh_sequence "" []), w)
  end.

Definition first_attempt : Attempt StorageSteps World (list string) :=
  snd (run_all asks_once (mkAttempt (fst opened) (snd opened) [])).

Lemma committed_steps_run_once_witness :
  length (at_outside first_attempt) = 2%nat
  /\ exists ses1 ses2 w1,
       run_all asks_again (mkAttempt ses1 w1 []) = (Ok [[x2a]; [x07; x08]], mkAttempt ses2 w1 []).
Proof.
  split; [by vm_compute|].
  assert (Hopen : open holder held_job default_limits claimed_world = (Ok (fst opened), snd opened))
    by by vm_compute.
  assert (Hrun : run_all asks_once (mkAttempt (fst opened) (snd opened) [])
    = (Ok [[x2a]; [x07; x08]], first_attempt)) by by vm_compute.
  assert (Hlives : lives_in claimed_world (j_id held_job) (j_namespace held_job))
    by (eexists; split; by vm_compute).
  assert (Hlives1 : lives_in (at_world first_attempt) (j_id held_job) (j_namespace held_job))
    by (eexists; split; by vm_compute).
  assert (Hwf : wf (at_world first_attempt)).
  { pose proof (open_ok (X := list string) _ _ _ _ _ _ wf_claimed_world Hlives Hopen) as [_ Hses].
    destruct (Hses []) as (Ht & _ & _).
    destruct (run_all_ok _ _ _ _ _ _ Ht Hrun) as (? & ? & _ & _ & Ht1 & _). apply Ht1. }
  destruct (committed_steps_run_once (L := storage_steps_laws) _ _ _ _ _ _ _ _ _ _
    wf_claimed_world Hlives Hopen Hrun holder held_job default_limits _
    (db_record (at_world first_attempt) (j_id held_job)) (bump 1 (at_world first_attempt))
    [] asks_again [] eq_refl Hwf Hlives1) as (ses1 & ses2 & _ & Hagain).
  - by rewrite app_nil_r.
  - done.
  - apply (load_steps_total holder); [done|done|by vm_compute].
  - by vm_compute.
  - repeat constructor.
  - by exists ses1, ses2, (bump 1 (at_world first_attempt)).
Defined.
End examples.
