(* ===== verification/Lifecycle.v ===== *)
(** * The life of a job under every operation of the store

    An abstract machine of one job, with four moves: a live job keeps its identity and
    never loses retries, a live job ends, an ended job keeps its record, and an id that
    is in no table stays out.  [moves] says that an operation takes every id that was
    minted before it along these moves; the lemmas below show it of each operation that
    writes [jobs] or [archived_jobs] and is not a purge, and [shrinks] covers the
    purges, whose only other move is to forget an ended job. *)
From S2P Require Import Prelude Job Db Store Enqueue Dequeue Transitions Cascade.
From S2P Require Import Listing Stats Purge Claims Steps DeadLetter.

(** What no operation changes about a job. *)
Record Identity := mkIdentity {
  i_queue : string;
  i_task_name : string;
  i_priority : Z;
  i_created_at : Z;
  i_max_retries : Z;
  i_namespace : option string;
  i_enqueued_by : option string
}.

Definition identity (r : JobRow) : Identity :=
  mkIdentity (jr_queue r) (jr_task_name r) (jr_priority r) (jr_created_at r)
    (jr_max_retries r) (jr_namespace r) (jr_enqueued_by r).

Definition archived_identity (a : ArchivedJobRow) : Identity :=
  mkIdentity (ar_queue a) (ar_task_name a) (ar_priority a) (ar_created_at a)
    (ar_max_retries a) (ar_namespace a) (ar_enqueued_by a).

(** The abstract state of an id. *)
Inductive Phase :=
  | Absent
  | Live (i : Identity) (retries : Z)
  | Ended (a : ArchivedJobRow).

Definition phase (d : DB) (id : string) : Phase :=
  match db_jobs d !! id with
  | Some r => Live (identity r) (jr_retry_count r)
  | None =>
      match db_archived_jobs d !! id with
      | Some a => Ended a
      | None => Absent
      end
  end.

Inductive advance : Phase -> Phase -> Prop :=
  | adv_absent : advance Absent Absent
  | adv_live i n n' : n <= n' -> advance (Live i n) (Live i n')
  | adv_end i n a : archived_identity a = i -> n <= ar_retry_count a ->
      is_terminal (ar_status a) = true -> advance (Live i n) (Ended a)
  | adv_ended a : advance (Ended a) (Ended a).

(** A purge may also forget an ended job. *)
Inductive fade : Phase -> Phase -> Prop :=
  | fade_same p : fade p p
  | fade_purge a : fade (Ended a) Absent.

#[export] Instance advance_preorder : PreOrder advance.
Proof.
  split.
  - intros [|i n|a]; constructor; lia.
  - intros p q r H1 H2. destruct H1; inversion H2; subst; constructor; try done; lia.
Qed.

#[export] Instance fade_preorder : PreOrder fade.
Proof.
  split; [intros p; apply fade_same|].
  intros p q r H1 H2. destruct H1; [done|]. inversion H2; subst; constructor.
Qed.

Section lifecycle.
Context {E : Env} {G : Engine} `{!UuidFresh E} `{!ScanComplete G}.

(** The ids minted before the [n]th read of the outside, taken along a relation. *)
Definition along (R : relation Phase) (n : nat) (d d' : DB) : Prop :=
  forall i, (i < n)%nat -> R (phase d (uuid_v7 i)) (phase d' (uuid_v7 i)).

#[export] Instance along_preorder R n : PreOrder R -> PreOrder (along R n).
Proof.
  intros HR. split; [by intros d i Hi|]. intros d1 d2 d3 H1 H2 i Hi. etrans; [by apply H1|by apply H2].
Qed.

(** [moves P n m]: from a world with [P], [m] takes the ids minted before [n] along the
    lifecycle.  [P] is [wf], or nothing for the statements that do not need it. *)
Definition moves {A} (P : World -> Prop) (n : nat) (m : DbM A) : Prop :=
  forall w, P w -> (n <= tick w)%nat ->
    (n <= tick (snd (m w)))%nat /\ along advance n (db w) (db (snd (m w))).

Definition any_world : World -> Prop := fun _ => True.

#[export] Instance any_world_mono : TickMono any_world.
Proof. done. Qed.

Section rules.
Context (P : World -> Prop) (n : nat).

Lemma moves_any {A} (m : DbM A) : moves any_world n m -> moves P n m.
Proof. intros Hm w _. by apply Hm. Qed.

Lemma moves_ret {A} (a : A) : moves P n (mret a).
Proof. by intros w. Qed.

Lemma moves_throw {A} e : moves (A:=A) P n (throw e).
Proof. by intros w. Qed.

Lemma moves_gets {A} (f : World -> A) : moves P n (gets f).
Proof. by intros w. Qed.

Lemma moves_draw {A} (f : nat -> A) : moves P n (draw f).
Proof. intros w _ Hn. simpl. split; [lia|done]. Qed.

Lemma moves_bind {A B} (m : DbM A) (k : A -> DbM B) :
  keeps P m -> moves P n m -> (forall a, moves P n (k a)) -> moves P n (m ≫= k).
Proof.
  intros Hk Hm Hb w Hw Hn. specialize (Hk w Hw). specialize (Hm w Hw Hn).
  unfold mbind, M_bind. destruct (m w) as [[a|e] w1]; simpl in *; [|done].
  destruct Hm as [Hn1 H1]. destruct (Hb a w1 Hk Hn1) as [? H2]. split; [done|]. by etrans.
Qed.

Lemma moves_fmap {A B} (m : DbM A) (f : A -> B) :
  moves P n m -> moves P n (a ← m; mret (f a)).
Proof.
  intros Hm w Hw Hn. specialize (Hm w Hw Hn). unfold mbind, M_bind.
  by destruct (m w) as [[a|e] w1].
Qed.

Lemma moves_attempt {A} (m : DbM A) : moves P n m -> moves P n (attempt m).
Proof.
  intros Hm w Hw Hn. specialize (Hm w Hw Hn). unfold attempt. by destruct (m w) as [[a|e] w1].
Qed.

Lemma moves_map_err {A} f (m : DbM A) : moves P n m -> moves P n (map_err f m).
Proof.
  intros Hm w Hw Hn. specialize (Hm w Hw Hn). unfold map_err. by destruct (m w) as [[a|e] w1].
Qed.

Lemma moves_transaction {A} (m : DbM A) : moves P n m -> moves P n (transaction m).
Proof.
  intros Hm w Hw Hn. specialize (Hm w Hw Hn). unfold transaction.
  destruct (m w) as [[a|e] w1]; [done|]. simpl. split; [lia|done].
Qed.

Lemma moves_conn : moves P n conn.
Proof.
  intros w _ Hn. unfold conn, mbind, M_bind. simpl.
  destruct (pool_ready (tick w)); simpl; split; first [lia|done].
Qed.

Lemma moves_write_transaction {A} (m : DbM A) `{!TickMono P} :
  moves P n m -> moves P n (write_transaction m).
Proof.
  intros Hm. apply moves_bind; [by apply keeps_conn|apply moves_conn|].
  intros _. by apply moves_transaction.
Qed.

Lemma moves_for_each {A} (f : A -> DbM unit) l :
  (forall x, x ∈ l -> keeps P (f x) /\ moves P n (f x)) -> moves P n (for_each f l).
Proof.
  induction l as [|x l IH]; intros Hf; simpl; [apply moves_ret|].
  apply moves_bind; [by apply Hf; left|by apply Hf; left|]. intros _. apply IH.
  intros y Hy. apply Hf. by right.
Qed.

Lemma moves_mapM {A B} (f : A -> DbM B) l :
  (forall x, x ∈ l -> keeps P (f x) /\ moves P n (f x)) -> moves P n (mapM f l).
Proof.
  induction l as [|x l IH]; intros Hf; simpl; [apply moves_ret|].
  apply moves_bind; [by apply Hf; left|by apply Hf; left|]. intros y. apply moves_bind.
  - apply keeps_mapM. intros z Hz. apply Hf. by right.
  - apply IH. intros z Hz. apply Hf. by right.
  - intros ys. apply moves_ret.
Qed.

Lemma moves_foldM {A B} (f : B -> A -> DbM B) b l :
  (forall b x, x ∈ l -> keeps P (f b x) /\ moves P n (f b x)) -> moves P n (foldM f b l).
Proof.
  revert b. induction l as [|x l IH]; intros b Hf; simpl; [apply moves_ret|].
  apply moves_bind; [by apply Hf; left|by apply Hf; left|]. intros b'. apply IH.
  intros b'' y Hy. apply Hf. by right.
Qed.
End rules.

(** *** Statements *)

(** A table that is neither of the two. *)
Class Beside {K R} `{Countable K} (t : Table K R) : Prop :=
  beside : forall m d, db_jobs (t_set t m d) = db_jobs d
    /\ db_archived_jobs (t_set t m d) = db_archived_jobs d.

Section statements.
Context (n : nat) {K R : Type} `{Countable K} (t : Table K R) `{!Beside t}.

Lemma along_set m d d' : along advance n d d' -> along advance n d (t_set t m d').
Proof.
  intros Hd i Hi. unfold phase at 2. destruct (beside m d') as [-> ->]. by apply Hd.
Qed.

Lemma moves_insert P k r : moves P n (sql_insert t k r).
Proof.
  intros w _ Hn. destruct (sql_insert_inv t k r w) as [->|(_ & _ & ->)]; [done|].
  simpl. split; [done|]. by apply along_set.
Qed.

Lemma moves_replace P k r : moves P n (sql_replace t k r).
Proof. intros w _ Hn. simpl. split; [done|]. by apply along_set. Qed.

Lemma moves_upsert P k r f : moves P n (sql_upsert t k r f).
Proof. intros w _ Hn. split; [done|]. by apply along_set. Qed.

Lemma moves_insert_ignore P k r : moves P n (sql_insert_ignore t k r).
Proof. intros w _ Hn. unfold sql_insert_ignore. case_match; [done|]. split; [done|]. by apply along_set. Qed.

Lemma moves_update P k p f : moves P n (sql_update t k p f).
Proof.
  intros w _ Hn. unfold sql_update. destruct (t_get t (db w) !! k) as [r|]; [|done].
  destruct (p r); [|done]. simpl. split; [done|]. by apply along_set.
Qed.

Lemma moves_delete P p : moves P n (sql_delete t p).
Proof. intros w _ Hn. simpl. split; [done|]. by apply along_set. Qed.

Lemma moves_delete_pk P k : moves P n (sql_delete_pk t k).
Proof. intros w _ Hn. simpl. split; [done|]. by apply along_set. Qed.
End statements.
End lifecycle.

#[export] Instance beside_job_dependencies : Beside job_dependencies. Proof. by intros. Qed.
#[export] Instance beside_job_steps : Beside job_steps. Proof. by intros. Qed.
#[export] Instance beside_replay_history : Beside replay_history. Proof. by intros. Qed.
#[export] Instance beside_job_errors : Beside job_errors. Proof. by intros. Qed.
#[export] Instance beside_task_logs : Beside task_logs. Proof. by intros. Qed.
#[export] Instance beside_task_metrics : Beside task_metrics. Proof. by intros. Qed.
#[export] Instance beside_execution_claims : Beside execution_claims. Proof. by intros. Qed.
#[export] Instance beside_dead_letter : Beside dead_letter. Proof. by intros. Qed.
#[export] Instance beside_distributed_locks : Beside distributed_locks. Proof. by intros. Qed.
#[export] Instance beside_circuit_breakers : Beside circuit_breakers. Proof. by intros. Qed.
#[export] Instance beside_rate_limits : Beside rate_limits. Proof. by intros. Qed.
#[export] Instance beside_queue_state : Beside queue_state. Proof. by intros. Qed.
#[export] Instance beside_periodic_tasks : Beside periodic_tasks. Proof. by intros. Qed.
#[export] Instance beside_workers : Beside workers. Proof. by intros. Qed.
#[export] Instance beside_dashboard_settings : Beside dashboard_settings. Proof. by intros. Qed.
#[export] Instance beside_topic_subscriptions : Beside topic_subscriptions. Proof. by intros. Qed.
#[export] Instance beside_topic_messages : Beside topic_messages. Proof. by intros. Qed.
#[export] Instance beside_topics : Beside topics. Proof. by intros. Qed.
#[export] Instance beside_topic_deliveries : Beside topic_deliveries. Proof. by intros. Qed.
#[export] Instance beside_audit_log : Beside audit_log. Proof. by intros. Qed.

Create HintDb moves.
#[export] Hint Resolve moves_ret moves_throw moves_gets moves_draw moves_conn moves_insert
  moves_replace moves_upsert moves_insert_ignore moves_update moves_delete moves_delete_pk : moves.
#[export] Hint Extern 0 (Beside _) => apply _ : moves.

(** A statement keeps the trivial predicate. *)
Lemma keeps_any {A} (m : DbM A) : keeps any_world m.
Proof. done. Qed.
#[export] Hint Resolve keeps_any : keeps.

Section jobs_statements.
Context {E : Env} {G : Engine} `{!UuidFresh E} `{!ScanComplete G} (n : nat).

(** Minted at or after the [n]th read. *)
Definition fresh_id (id : string) : Prop := exists j, (n <= j)%nat /\ id = uuid_v7 j.

(** An update or an archiving that keeps what no operation changes. *)
Definition carries (f : JobRow -> JobRow) : Prop :=
  forall r, identity (f r) = identity r /\ jr_retry_count r <= jr_retry_count (f r).

Lemma moves_update_jobs P id p f : carries f -> moves P n (sql_update jobs id p f).
Proof.
  intros Hf w _ Hn. rewrite sql_update_jobs_eq.
  destruct (db_jobs (db w) !! id) as [r|] eqn:Hr; [|done]. destruct (p r); [|done].
  simpl. split; [done|]. intros i Hi. unfold phase at 2. simpl.
  destruct (decide (id = uuid_v7 i)) as [->|Hne];
    [|rewrite lookup_insert_ne by done; reflexivity].
  rewrite lookup_insert_eq. unfold phase. rewrite Hr. destruct (Hf r) as [-> ?].
  by constructor.
Qed.

Lemma moves_insert_jobs P id r : fresh_id id -> moves P n (sql_insert jobs id r).
Proof.
  intros (j & Hj & ->) w _ Hn.
  destruct (sql_insert_inv jobs (uuid_v7 j) r w) as [->|(_ & _ & ->)]; [done|].
  simpl. split; [done|]. intros i Hi. unfold phase at 2. simpl.
  rewrite lookup_insert_ne; [reflexivity|]. intros Heq%uuid_v7_inj. lia.
Qed.

(** Archiving the row that is live under its id. *)
Lemma along_archive f r w :
  wf w -> db_jobs (db w) !! jr_id r = Some r -> jr_id (f r) = jr_id r ->
  is_terminal (jr_status (f r)) = true -> carries f ->
  along advance n (db w) (archive_db (f r) (db w)).
Proof.
  intros Hwf Hr Hid Hterm Hf i Hi. unfold phase. simpl. rewrite Hid.
  destruct (decide (jr_id r = uuid_v7 i)) as [Heq|Hne].
  - rewrite <- Heq, Hr, lookup_delete_eq, lookup_insert_eq. destruct (Hf r) as [Hi' Hn].
    constructor; [exact Hi'|exact Hn|done].
  - rewrite lookup_delete_ne, lookup_insert_ne by done. reflexivity.
Qed.

Lemma archive_moves f r w :
  wf w -> (n <= tick w)%nat -> db_jobs (db w) !! jr_id r = Some r -> ends_row f -> carries f ->
  exists w', archive_job_row (f r) w = (Ok tt, w') /\ wf w' /\ (n <= tick w')%nat
    /\ along advance n (db w) (db w').
Proof.
  intros Hwf Hn Hr Hf Hc. destruct (Hf r) as (Hid & Hns & Hterm & Hcomp).
  destruct (archive_live w r (f r)) as [Ha Hwf']; try done; [by rewrite Hid|].
  eexists. split_and!; [exact Ha|done|done|]. by apply along_archive.
Qed.

(** A computation that is given a live row. *)
Definition moves_row {A} (k : JobRow -> DbM A) : Prop :=
  forall w r, wf w -> (n <= tick w)%nat -> db_jobs (db w) !! jr_id r = Some r ->
    (n <= tick (snd (k r w)))%nat /\ along advance n (db w) (db (snd (k r w))).

Lemma row_any {A} (k : JobRow -> DbM A) : (forall r, moves wf n (k r)) -> moves_row k.
Proof. intros Hk w r Hwf Hn _. by apply Hk. Qed.

Lemma row_archive f : ends_row f -> carries f -> moves_row (fun r => archive_job_row (f r)).
Proof.
  intros Hf Hc w r Hwf Hn Hr. destruct (archive_moves f r w) as (w' & -> & _ & ?); done.
Qed.

Lemma row_archive_then {A} f (k : JobRow -> DbM A) :
  ends_row f -> carries f -> (forall r, moves wf n (k r)) ->
  moves_row (fun r => archive_job_row (f r) ;; k r).
Proof.
  intros Hf Hc Hk w r Hwf Hn Hr.
  destruct (archive_moves f r w) as (w' & Ha & Hwf' & Hn' & H1); try done.
  rewrite (bind_ok _ _ _ _ _ Ha). destruct (Hk r w' Hwf' Hn') as [? H2].
  split; [done|]. by etrans.
Qed.

Lemma row_if {A} (p : JobRow -> bool) (k1 k2 : JobRow -> DbM A) :
  moves_row k1 -> moves_row k2 -> moves_row (fun r => if p r then k1 r else k2 r).
Proof. intros H1 H2 w r. destruct (p r); auto. Qed.

Lemma moves_find {A} id (k : option JobRow -> DbM A) :
  moves wf n (k None) -> moves_row (fun r => k (Some r)) -> moves wf n (sql_find jobs id ≫= k).
Proof.
  intros H0 H1 w Hwf Hn. erewrite bind_ok by done. cbn [t_get jobs].
  destruct (db_jobs (db w) !! id) as [r|] eqn:Hr; [|by apply H0]. apply H1; [done|done|].
  by rewrite (wf_live_key _ _ _ _ _ Hwf _ _ Hr).
Qed.

Lemma moves_find_running {A} id ns (k : option JobRow -> DbM A) :
  moves wf n (k None) -> moves_row (fun r => k (Some r)) ->
  moves wf n (find_running id ns ≫= k).
Proof.
  intros H0 H1 w Hwf Hn. rewrite (bind_ok _ _ _ _ _ (find_running_eq id ns w)).
  destruct (running_in (db w) id ns) as [r|] eqn:Hr; [|by apply H0].
  apply running_in_Some in Hr as (Hk & _). apply H1; [done|done|].
  by rewrite (wf_live_key _ _ _ _ _ Hwf _ _ Hk).
Qed.

(** A loop of archivings over selected rows. *)
Lemma moves_archive_rows {B} (g : JobRow -> B) f (p : JobRow -> bool) (h : list JobRow -> list JobRow) :
  ends_row f -> carries f -> (forall l, sublist (h l) l) ->
  moves wf n (rows ← sql_select jobs p;
              mapM (fun r => archive_job_row (f r) ;; mret (g (f r))) (h rows)).
Proof.
  intros Hf Hc Hh w Hwf Hn. erewrite bind_ok by done.
  destruct (selected_rows p w Hwf) as (Hnd & Hrows & _).
  set (rows := filter _ _) in *.
  destruct (archive_rows_eq g f (h rows) w Hwf Hf) as (w' & Heq & Hwf' & Htick & He1 & He2 & _).
  { eapply sublist_NoDup; [exact Hnd|]. by apply fmap_sublist. }
  { rewrite Forall_forall in Hrows |- *. intros r Hr. apply Hrows. by eapply elem_of_sublist. }
  cbn [t_get jobs]. simpl. fold rows. rewrite Heq. simpl. split; [by rewrite Htick|].
  intros i Hi. destruct (decide (uuid_v7 i ∈ (jr_id <$> h rows))) as [Hin|Hnot].
  - apply list_elem_of_fmap in Hin as (r & Hid & Hin). unfold phase. rewrite Hid.
    destruct (He1 _ Hin) as [-> ->]. rewrite Forall_forall in Hrows.
    rewrite (Hrows r) by by eapply elem_of_sublist. destruct (Hc r) as [? ?].
    constructor; [done|done|]. by destruct (Hf r) as (_ & _ & ? & _).
  - unfold phase. by destruct (He2 _ Hnot) as [-> ->].
Qed.
Lemma moves_into_job {A} P nj (k : Job -> DbM A) :
  TickMono P -> (forall job, fresh_id (j_id job) -> moves P n (k job)) ->
  moves P n (into_job nj ≫= k).
Proof.
  intros HP Hk w Hw Hn. rewrite (bind_ok _ _ _ _ _ (into_job_eq nj w)).
  assert (Hf : fresh_id (uuid_v7 (S (tick w)))) by (exists (S (tick w)); split; [lia|done]).
  destruct (Hk (into_job_at (uuid_v7 (S (tick w))) (clock_at (tick w)) nj) Hf (bump 2 w))
    as [? ?]; [|simpl; lia|done].
  destruct w as [d m]. eapply tick_mono; [|exact Hw]. simpl. lia.
Qed.

End jobs_statements.

#[export] Hint Resolve moves_update_jobs moves_insert_jobs : moves.

(** Walks a computation like [solve_keeps]. *)
Ltac solve_moves :=
  repeat first
    [ solve [eauto with moves]
    | apply moves_into_job; [apply _|intros ? ?]
    | apply moves_write_transaction; [apply _|]
    | apply moves_transaction
    | apply moves_map_err
    | apply moves_attempt
    | apply moves_for_each; intros ? ?; split; [solve [solve_keeps]|]
    | apply moves_mapM; intros ? ?; split; [solve [solve_keeps]|]
    | apply moves_foldM; intros ? ? ?; split; [solve [solve_keeps]|]
    | apply moves_bind; [solve [solve_keeps]| |intros ?]
    | case_match ];
  eauto with moves.


(** ** The operations *)

Ltac by_rows := by intros r; split_and!; [..|eexists].

Lemma ends_completed now res : ends_row (completed_row now res). Proof. by_rows. Qed.
Lemma ends_failed now e : ends_row (failed_row now e). Proof. by_rows. Qed.
Lemma ends_expired now : ends_row (expire_row now). Proof. by_rows. Qed.
Lemma ends_dead now e : ends_row (dead_row now e). Proof. by_rows. Qed.
Lemma carries_completed now res : carries (completed_row now res). Proof. by split. Qed.
Lemma carries_failed now e : carries (failed_row now e). Proof. by split. Qed.
Lemma carries_expired now : carries (expire_row now). Proof. by split. Qed.
Lemma carries_run now : carries (run_row now). Proof. by split. Qed.
Lemma carries_dead now e : carries (dead_row now e). Proof. by split. Qed.
Lemma carries_cancelled now e : carries (cancelled_row now e).
Proof. intros r. by destruct e. Qed.
Lemma carries_pending t : carries (pending_row t). Proof. by split. Qed.
Lemma carries_retry t :
  carries (fun r => jr_with_retry_count (jr_retry_count r + 1) (pending_row t r)).
Proof. intros r. split; [done|]. simpl. lia. Qed.
Lemma carries_requeue t : carries (fun r => jr_with_cancel_requested 0 (pending_row t r)).
Proof. by split. Qed.
Lemma carries_cancel_request v : carries (jr_with_cancel_requested v). Proof. by split. Qed.
Lemma carries_progress p : carries (jr_with_progress p). Proof. by split. Qed.
Lemma carries_slide job opts c : carries (debounce_slide job opts c).
Proof. intros r. unfold debounce_slide. by destruct (do_replace_payload opts). Qed.

#[export] Hint Resolve ends_completed ends_failed ends_expired ends_dead ends_cancelled
  carries_completed carries_failed carries_expired carries_run carries_dead
  carries_cancelled carries_pending carries_retry carries_requeue carries_cancel_request
  carries_progress carries_slide : moves.

(** A clock reading followed by one transaction. *)
Ltac now_txn :=
  apply moves_bind; [eauto with keeps|apply moves_draw|intros ?];
  apply moves_write_transaction; [apply _|].

Section operations.
Context {E : Env} {G : Engine} `{!UuidFresh E} `{!ScanComplete G} (n : nat).

Lemma moves_complete id res ns : moves wf n (complete id res ns).
Proof.
  unfold complete. now_txn. apply moves_find_running; [solve_moves|].
  apply row_archive; eauto with moves.
Qed.

Lemma moves_fail id e : moves wf n (fail id e).
Proof.
  unfold fail. now_txn. apply moves_find_running; [solve_moves|].
  apply row_archive; eauto with moves.
Qed.

Lemma moves_complete_one now ns c : moves wf n (complete_one now ns c).
Proof.
  unfold complete_one. apply moves_find_running; [solve_moves|].
  apply row_archive_then; [eauto with moves..|]. intros r. solve_moves.
Qed.

Lemma moves_complete_batch cs ns : moves wf n (complete_batch cs ns).
Proof.
  unfold complete_batch. case_match; [solve_moves|].
  now_txn. apply moves_for_each. intros c _. split; [apply keeps_complete_one|apply moves_complete_one].
Qed.

Lemma moves_mark_cancelled id ns : moves wf n (mark_cancelled id ns).
Proof.
  unfold mark_cancelled. now_txn. apply moves_find; [solve_moves|].
  apply row_if; [apply row_any; solve_moves|]. apply row_archive; eauto with moves.
Qed.

Lemma moves_retry id t ns : moves wf n (retry id t ns).
Proof. unfold retry. apply moves_any. solve_moves. Qed.

Lemma moves_reschedule id t ns : moves wf n (reschedule id t ns).
Proof. unfold reschedule. apply moves_any. solve_moves. Qed.

Lemma moves_requeue_stuck id now : moves wf n (requeue_stuck id now).
Proof. unfold requeue_stuck. apply moves_any. solve_moves. Qed.

Lemma moves_request_cancel id ns : moves wf n (request_cancel id ns).
Proof. unfold request_cancel. apply moves_any. solve_moves. Qed.

Lemma moves_update_progress id p ns : moves wf n (update_progress id p ns).
Proof. unfold update_progress. apply moves_any. solve_moves. Qed.

(** *** Cascades and cancellation *)

Lemma moves_bfs P fuel idx queue : keeps P (bfs fuel idx queue) /\ moves P n (bfs fuel idx queue).
Proof.
  split; [apply keeps_bfs|]. revert idx queue.
  induction fuel as [|fuel IH]; intros idx queue; simpl.
  - destruct (queue !! idx); apply moves_ret.
  - destruct (queue !! idx); [|apply moves_ret].
    apply moves_bind; [apply keeps_gets|apply moves_gets|]. eauto.
Qed.

Lemma moves_cascade root reason ns : moves wf n (cascade_cancel_reporting root reason ns).
Proof.
  unfold cascade_cancel_reporting. apply moves_bind; [eauto with keeps|apply moves_conn|]. intros _.
  apply moves_bind; [eauto with keeps|apply moves_draw|]. intros now.
  apply moves_bind; [eauto with keeps|apply moves_gets|]. intros fuel.
  apply moves_bind; [apply keeps_bfs|apply moves_bfs|]. intros walked.
  case_bool_decide; [apply moves_ret|]. apply moves_write_transaction; [apply _|].
  apply (moves_archive_rows n job_of_row (cancelled_row now _) _ id); eauto with moves.
Qed.

Lemma moves_cancel_txn id now ns : moves wf n (write_transaction (cancel_txn id now ns)).
Proof.
  apply moves_write_transaction; [apply _|]. apply moves_find; [solve_moves|].
  apply row_if; [apply row_any; solve_moves|]. apply row_if; [apply row_any; solve_moves|].
  apply row_archive_then; [eauto with moves..|]. intros r. solve_moves.
Qed.

Lemma moves_cancel_job id ns : moves wf n (cancel_job_reporting id ns).
Proof.
  unfold cancel_job_reporting.
  apply moves_bind; [eauto with keeps|apply moves_draw|]. intros now.
  apply moves_bind; [solve_keeps|apply moves_cancel_txn|].
  - intros archived. case_match; [solve_moves|].
    apply moves_bind; [apply keeps_cascade_cancel_reporting|apply moves_cascade|].
    intros l. apply moves_ret.
Qed.

(** *** Dequeue *)

Lemma keeps_archive_expired id now : keeps wf (archive_expired_candidate id now).
Proof.
  intros w Hwf. unfold archive_expired_candidate, mbind, M_bind. simpl.
  destruct (db_jobs (db w) !! id) as [r|] eqn:Hr; [|done].
  assert (Hk : db_jobs (db w) !! jr_id r = Some r).
  { by rewrite (wf_live_key _ _ _ _ _ Hwf _ _ Hr). }
  destruct (archive_moves 0 (expire_row now) r w) as (w' & Ha & Hwf' & _); eauto with moves;
    [lia|].
  unfold expire_row in Ha. by rewrite Ha.
Qed.

Lemma live_edit_run now : live_edit (run_row now).
Proof. intros r. by split_and!; [..|eexists]. Qed.

Lemma keeps_try_candidate row now : keeps wf (try_candidate row now).
Proof.
  unfold try_candidate. case_match.
  - apply keeps_bind; [apply keeps_archive_expired|]. intros j. apply keeps_ret.
  - pose proof (fun id p => keeps_sql_update_jobs id p _ (live_edit_run now)) as Hu.
    unfold deps_satisfied, claim_row, sql_count. fold (run_row now). solve_keeps.
Qed.

Lemma moves_try_candidate row now : moves wf n (try_candidate row now).
Proof.
  unfold try_candidate. case_match.
  - apply moves_bind; [apply keeps_archive_expired| |intros; apply moves_ret].
    unfold archive_expired_candidate. apply moves_find; [apply moves_throw|].
    apply (row_archive_then n (expire_row now)); [eauto with moves..|]. intros r. apply moves_ret.
  - pose proof (fun P id p => moves_update_jobs n P id p _ (carries_run now)) as Hu.
    apply moves_any. unfold deps_satisfied, claim_row, sql_count. fold (run_row now).
    solve_moves.
Qed.

Lemma moves_dequeue_loop now cands ex : moves wf n (dequeue_loop now cands ex).
Proof.
  revert ex. induction cands as [|row cands IH]; intros ex; simpl; [apply moves_ret|].
  apply moves_bind; [apply keeps_try_candidate|apply moves_try_candidate|].
  intros [[j|] [x|]]; try apply moves_ret; apply IH.
Qed.

Lemma moves_dequeue_batch_loop max now cands cl ex :
  moves wf n (dequeue_batch_loop max now cands cl ex).
Proof.
  revert cl ex. induction cands as [|row cands IH]; intros cl ex; simpl; [apply moves_ret|].
  case_bool_decide; [apply moves_ret|].
  apply moves_bind; [apply keeps_try_candidate|apply moves_try_candidate|].
  intros [[j|] [x|]]; apply IH.
Qed.

Lemma moves_scan_candidates P q now ns lim order :
  keeps P (scan_dequeue_candidates q now ns lim order)
  /\ moves P n (scan_dequeue_candidates q now ns lim order).
Proof.
  unfold scan_dequeue_candidates. split; [solve_keeps|].
  apply moves_bind; [apply keeps_gets|apply moves_gets|]. intros l. apply moves_ret.
Qed.

Lemma moves_dequeue q now ns order : moves wf n (dequeue_ordered_reporting q now ns order).
Proof.
  apply moves_write_transaction; [apply _|].
  apply moves_bind; [apply moves_scan_candidates..|]. intros cands. apply moves_dequeue_loop.
Qed.

Lemma moves_dequeue_from queues now ns orders :
  moves wf n (dequeue_from_reporting queues now ns orders).
Proof.
  unfold dequeue_from_reporting. generalize (@nil Job).
  induction queues as [|q queues IH]; intros ex; simpl; [apply moves_ret|].
  apply moves_bind; [apply keeps_dequeue_ordered_reporting|apply moves_dequeue|]. intros step.
  destruct (dq_claimed step); [apply moves_ret|apply IH].
Qed.

Lemma dequeue_batch_moves q now ns max order :
  keeps wf (dequeue_batch_ordered_reporting q now ns max order)
  /\ moves wf n (dequeue_batch_ordered_reporting q now ns max order).
Proof.
  unfold dequeue_batch_ordered_reporting.
  destruct (max =? 0)%nat; [split; [apply keeps_ret|apply moves_ret]|]. split.
  - apply keeps_write_transaction; [apply _|]. apply keeps_keeps_ok.
    apply keeps_bind; [by apply (moves_scan_candidates wf)|]. intros cands.
    generalize (@nil Job) at 1. generalize (@nil Job).
    induction cands as [|row cands IH]; intros cl ex; simpl; [apply keeps_ret|].
    case_bool_decide; [apply keeps_ret|].
    apply keeps_bind; [apply keeps_try_candidate|]. intros [[j|] [x|]]; apply IH.
  - apply moves_write_transaction; [apply _|].
    apply moves_bind; [apply moves_scan_candidates..|]. intros cands.
    apply moves_dequeue_batch_loop.
Qed.

Lemma moves_dequeue_batch_from queues now ns max orders :
  moves wf n (dequeue_batch_from_reporting queues now ns max orders).
Proof.
  unfold dequeue_batch_from_reporting. generalize (mkDequeued (@nil Job) []).
  induction queues as [|q queues IH]; intros out; simpl; [apply moves_ret|].
  case_bool_decide; [apply moves_ret|].
  apply moves_bind; [apply dequeue_batch_moves..|]. intros batch. apply IH.
Qed.

(** *** Locks, claims and steps *)

Lemma moves_locks name owner ttl t :
  moves wf n (acquire_lock name owner ttl) /\ moves wf n (release_lock name owner)
  /\ moves wf n (extend_lock name owner ttl) /\ moves wf n (reap_expired_locks t)
  /\ moves wf n (try_lead name owner ttl).
Proof.
  split_and!; apply moves_any;
    unfold try_lead, acquire_lock, release_lock, extend_lock, reap_expired_locks; solve_moves.
Qed.

Lemma moves_claims id ids owner owner' ns t :
  moves wf n (claim_execution id owner) /\ moves wf n (claim_execution_batch ids owner)
  /\ moves wf n (complete_execution id ns) /\ moves wf n (reclaim_execution id owner owner')
  /\ moves wf n (purge_execution_claims t).
Proof.
  split_and!; apply moves_any;
    unfold claim_execution, claim_execution_batch, complete_execution, reclaim_execution,
      purge_execution_claims, insert_claim, mint_claim_epoch, hidden_job, get_job; solve_moves.
Qed.

Lemma moves_fence P id owner a epoch ns b :
  moves P n (resolve_attempt_fence id owner a epoch ns b).
Proof. apply moves_any. unfold resolve_attempt_fence. solve_moves. Qed.
#[local] Hint Resolve moves_fence : moves.

Lemma moves_settle id owner a epoch t claimant ns :
  moves wf n (authorize_attempt id owner a epoch ns)
  /\ moves wf n (await_settle id owner a epoch t ns)
  /\ moves wf n (claim_settle id claimant ns).
Proof.
  split_and!; apply moves_any; unfold authorize_attempt, await_settle, claim_settle; solve_moves.
Qed.

Lemma moves_steps step owner a epoch wake limits ns id :
  moves wf n (record_step_result step owner a epoch limits ns)
  /\ moves wf n (sleep_job step owner a epoch wake limits ns)
  /\ moves wf n (delete_job_steps id ns).
Proof.
  split_and!; apply moves_any;
    unfold record_step_result, record_step_txn, sleep_job, sleep_txn, sleep_outcome,
      delete_job_steps, stored_step, step_totals, check_step_position, check_step_count,
      insert_step_row; solve_moves.
Qed.

(** *** Mass cancellation *)

Lemma moves_archive_pending now error p (on_batch : list JobRow -> DbM unit) :
  (forall l, keeps wf (on_batch l) /\ moves wf n (on_batch l)) ->
  moves wf n (archive_pending_in_batches now error p on_batch).
Proof.
  intros Hb. unfold archive_pending_in_batches.
  apply moves_bind; [apply keeps_gets|apply moves_gets|]. intros fuel.
  apply moves_fmap. generalize 0. induction fuel as [|fuel IH]; intros total; cbn [archive_loop]; [apply moves_ret|].
  apply moves_bind; [apply keeps_write_transaction; [apply _|apply keeps_archive_pending_rows]| |].
  - apply moves_write_transaction; [apply _|].
    apply (moves_archive_rows n id (cancelled_row now (Some error)) p (sql_limit MASS_ARCHIVE_BATCH));
      eauto with moves. intros l. apply sql_limit_sublist.
  - intros rows. apply moves_bind; [case_match; [apply keeps_ret|apply Hb]|
      case_match; [apply moves_ret|apply Hb]|]. intros _. case_match; [apply moves_ret|apply IH].
Qed.

Lemma moves_mass q task now :
  moves wf n (expire_pending_jobs now) /\ moves wf n (cancel_pending_by_queue q)
  /\ moves wf n (cancel_pending_by_task task).
Proof.
  split_and!.
  - apply moves_archive_pending. intros l. split; [apply keeps_ret|apply moves_ret].
  - apply moves_bind; [eauto with keeps|apply moves_draw|]. intros now'.
    apply moves_archive_pending. intros l. split; [apply keeps_ret|apply moves_ret].
  - apply moves_bind; [eauto with keeps|apply moves_draw|]. intros now'.
    apply moves_archive_pending. intros l. split; [apply keeps_ret|apply moves_ret].
Qed.

(** *** Sweeps over other tables *)

Lemma moves_drain {St} P (f : St -> DbM (Z * St)) s :
  (forall s, keeps P (f s) /\ moves P n (f s)) -> moves P n (drain_batches f s).
Proof.
  intros Hf. unfold drain_batches. generalize 0 as total. revert s.
  induction MAX_BATCHES_PER_SWEEP as [|k IH]; intros s total; cbn [drain_loop]; [apply moves_ret|].
  apply moves_bind; [apply Hf..|]. intros [removed s']. case_match; [apply moves_ret|apply IH].
Qed.

Lemma moves_errors id a e ns t :
  moves wf n (record_error id a e ns) /\ moves wf n (purge_job_errors t).
Proof.
  split; apply moves_any.
  - unfold record_error, hidden_job, get_job. solve_moves.
  - apply moves_drain. intros s. split; [done|]. unfold stateless. apply moves_fmap. solve_moves.
Qed.

(** *** The dead-letter queue *)

Lemma moves_purge_dead_where p : moves any_world n (purge_dead_where p).
Proof. unfold purge_dead_where. solve_moves. Qed.
#[local] Hint Resolve moves_purge_dead_where : moves.

Lemma moves_dead_sweeps older ns task id cutoff keep :
  moves wf n (purge_dead older ns) /\ moves wf n (purge_dead_by_task task ns)
  /\ moves wf n (delete_dead id ns) /\ moves wf n (purge_dead_with_ttl cutoff)
  /\ moves wf n (trim_dead_over ns keep).
Proof.
  assert (Hd : forall p, moves any_world n (drain_batches (stateless (purge_dead_where p)) tt)).
  { intros p. apply moves_drain. intros s. split; [done|]. apply moves_fmap. eauto with moves. }
  split_and!; apply moves_any; [apply Hd|..].
  - unfold purge_dead_by_task. solve_moves.
  - unfold delete_dead. solve_moves.
  - unfold purge_dead_with_ttl. apply moves_bind; [done|apply moves_draw|]. intros now.
    apply moves_bind; [done|destruct cutoff; [apply Hd|apply moves_ret]|]. intros g.
    apply moves_fmap, Hd.
  - unfold trim_dead_over, trim_oldest, sql_count. apply moves_bind; [done|solve_moves|]. intros total.
    apply moves_drain. intros s. split; [done|]. solve_moves.
Qed.

Lemma keeps_dead_letter_txn job error md shed now :
  keeps wf (write_transaction (dead_letter_in job error md shed now)).
Proof. apply keeps_write_transaction; [apply _|]. apply keeps_keeps_ok, keeps_dead_letter_in. Qed.

Lemma moves_dead_letter_txn job error md shed now :
  moves wf n (write_transaction (dead_letter_in job error md shed now)).
Proof.
  apply moves_write_transaction; [apply _|]. unfold dead_letter_in.
  apply moves_bind; [eauto with keeps|apply moves_draw|]. intros id.
  apply moves_bind; [eauto with keeps|eauto with moves|]. intros _.
  apply moves_find; [apply moves_ret|]. apply row_archive; eauto with moves.
Qed.

Lemma moves_dead_letter job error md shed : moves wf n (dead_letter_reporting job error md shed).
Proof.
  unfold dead_letter_reporting. apply moves_bind; [eauto with keeps|apply moves_draw|]. intros now.
  apply moves_bind; [apply keeps_dead_letter_txn|apply moves_dead_letter_txn|].
  intros _. apply moves_cascade.
Qed.

(** *** Enqueue *)

Lemma moves_retry_dead id ns : moves wf n (retry_dead id ns).
Proof.
  apply moves_any. unfold retry_dead. solve_moves.
Qed.

Lemma moves_insert_with_deps P job deps :
  fresh_id n (j_id job) -> moves P n (insert_job_with_deps job deps).
Proof.
  intros Hj. apply moves_any. unfold insert_job_with_deps, insert_job_dependencies. solve_moves.
Qed.

Lemma moves_validate P deps ns :
  moves P n (validate_dependencies deps ns).
Proof. apply moves_any. unfold validate_dependencies, validate_dependency. solve_moves. Qed.
#[local] Hint Resolve moves_insert_with_deps moves_validate : moves.

Lemma moves_enqueue nj : moves wf n (enqueue nj).
Proof. apply moves_any. unfold enqueue. solve_moves. Qed.

Lemma moves_unique_step job deps :
  fresh_id n (j_id job) -> moves any_world n (enqueue_unique_step job deps).
Proof. intros Hj. unfold enqueue_unique_step, find_active_by_unique_key. solve_moves. Qed.
#[local] Hint Resolve moves_unique_step : moves.

Lemma moves_enqueue_unique nj : moves wf n (enqueue_unique_reporting nj).
Proof.
  apply moves_any. unfold enqueue_unique_reporting. apply moves_into_job; [apply _|].
  intros job Hj. induction MAX_ENQUEUE_ATTEMPTS as [|k IH]; cbn [enqueue_unique_attempts];
    [apply moves_throw|].
  unfold find_active_by_unique_key. solve_moves.
Qed.

Lemma moves_debounced_txn job deps opts key :
  fresh_id n (j_id job) -> moves any_world n (enqueue_debounced_txn job deps opts key).
Proof.
  intros Hj. unfold enqueue_debounced_txn, find_debounce_target, lock_debounce_candidates,
    sql_count. solve_moves.
Qed.
#[local] Hint Resolve moves_debounced_txn : moves.

Lemma moves_enqueue_debounced nj opts : moves wf n (enqueue_debounced nj opts).
Proof.
  apply moves_any. unfold enqueue_debounced. apply moves_bind; [done|by intros w|]. intros key.
  apply moves_into_job; [apply _|]. intros job Hj.
  apply moves_bind; [done|apply moves_draw|]. intros now.
  apply moves_map_err, moves_write_transaction; [apply _|]. by apply moves_debounced_txn.
Qed.

(** A loop that only reads the outside, and what it draws. *)
Lemma mapM_drawn {A B} (f : A -> DbM B) (Q : B -> Prop) l w :
  (forall x w, (n <= tick w)%nat -> exists y w', f x w = (Ok y, w') /\ Q y
     /\ (n <= tick w')%nat /\ db w' = db w) ->
  (n <= tick w)%nat ->
  exists ys w', mapM f l w = (Ok ys, w') /\ Forall Q ys /\ (n <= tick w')%nat /\ db w' = db w.
Proof.
  intros Hf. revert w. induction l as [|x l IH]; intros w Hn; simpl.
  { exists [], w. split_and!; [done|constructor|done|done]. }
  destruct (Hf x w Hn) as (y & w1 & Hy & HQ & Hn1 & Hd1).
  destruct (IH w1 Hn1) as (ys & w2 & Hys & HQs & Hn2 & Hd2).
  exists (y :: ys), w2. rewrite (bind_ok _ _ _ _ _ Hy), (bind_ok _ _ _ _ _ Hys).
  split_and!; [done|by constructor|done|congruence].
Qed.

Lemma moves_drawn {A B C} (f : A -> DbM B) (Q : B -> Prop) l (k : list B -> DbM C) :
  (forall x w, (n <= tick w)%nat -> exists y w', f x w = (Ok y, w') /\ Q y
     /\ (n <= tick w')%nat /\ db w' = db w) ->
  (forall ys, Forall Q ys -> moves any_world n (k ys)) -> moves any_world n (mapM f l ≫= k).
Proof.
  intros Hf Hk w _ Hn. destruct (mapM_drawn f Q l w Hf Hn) as (ys & w' & Hys & HQ & Hn' & <-).
  rewrite (bind_ok _ _ _ _ _ Hys). by apply Hk.
Qed.

Lemma moves_enqueue_batch njs : moves wf n (enqueue_batch njs).
Proof.
  apply moves_any. unfold enqueue_batch.
  apply (moves_drawn _ (fun job => fresh_id n (j_id job))).
  { intros nj w Hn. do 2 eexists. split; [apply into_job_eq|]. split_and!; [|simpl; lia|done].
    exists (S (tick w)). split; [lia|done]. }
  intros js Hjs. unfold enqueue_batch_txn, validate_dependency, insert_job_dependencies.
  solve_moves.
  assert (Hin : x0 ∈ ((fun job => new_job_row job (attribution_of job)) <$> js)).
  { rewrite <- (chunks_concat BATCH_INSERT_CHUNK) by (unfold BATCH_INSERT_CHUNK; lia).
    apply list_elem_of_In, in_concat. exists x. by split; apply list_elem_of_In. }
  apply list_elem_of_fmap in Hin as (job & -> & Hin). rewrite Forall_forall in Hjs.
  by apply moves_insert_jobs, Hjs.
Qed.

Lemma moves_enqueue_unique_batch njs : moves wf n (enqueue_unique_batch_reporting njs).
Proof.
  apply moves_any. unfold enqueue_unique_batch_reporting.
  apply (moves_drawn _ (fun p => fresh_id n (j_id p.1))).
  { intros nj w Hn. do 2 eexists. erewrite bind_ok by apply into_job_eq.
    split; [done|]. split_and!; [|simpl; lia|done]. exists (S (tick w)). split; [lia|done]. }
  intros ps Hps. rewrite Forall_forall in Hps.
  induction MAX_ENQUEUE_ATTEMPTS as [|k IH]; cbn [enqueue_unique_batch_attempts];
    [apply moves_throw|].
  apply moves_bind; [done| |intros r; repeat case_match; eauto with moves].
  apply moves_attempt, moves_write_transaction; [apply _|]. apply moves_mapM.
  intros [job deps] Hin. split; [done|]. apply moves_unique_step. by apply (Hps _ Hin).
Qed.
End operations.

#[export] Hint Resolve moves_complete moves_fail moves_complete_batch moves_mark_cancelled
  moves_retry moves_reschedule moves_requeue_stuck moves_request_cancel moves_update_progress
  moves_cancel_txn moves_cancel_job moves_cascade moves_dequeue moves_dequeue_from
  moves_dequeue_batch_from moves_dead_letter_txn moves_dead_letter moves_retry_dead
  moves_enqueue moves_enqueue_unique moves_enqueue_debounced moves_enqueue_batch
  moves_enqueue_unique_batch : moves.
#[export] Hint Resolve keeps_dead_letter_txn : keeps.

(** ** Purges *)

Section purges.
Context {E : Env} {G : Engine} `{!UuidFresh E} `{!ScanComplete G}.

(** The live jobs are those of [w0] and the archive has only lost rows. *)
Definition shrunk (w0 w : World) : Prop :=
  (tick w0 <= tick w)%nat /\ db_jobs (db w) = db_jobs (db w0)
  /\ db_archived_jobs (db w) ⊆ db_archived_jobs (db w0).

Lemma shrunk_along w0 n w : shrunk w0 w -> along fade n (db w0) (db w).
Proof.
  intros (_ & HJ & HA) i _. unfold phase. rewrite HJ.
  destruct (db_jobs (db w0) !! uuid_v7 i); [constructor|].
  destruct (db_archived_jobs (db w) !! uuid_v7 i) as [a|] eqn:Ha.
  - rewrite (lookup_weaken _ _ _ _ Ha HA). constructor.
  - destruct (db_archived_jobs (db w0) !! uuid_v7 i); constructor.
Qed.

Lemma keeps_shrunk_beside {K R} `{Countable K} (t : Table K R) `{!Beside t} w0 p :
  keeps (shrunk w0) (sql_delete t p).
Proof.
  intros w (Ht & HJ & HA). unfold shrunk. simpl.
  match goal with |- context [t_set t ?m (db w)] => destruct (beside m (db w)) as [-> ->] end.
  done.
Qed.

Lemma keeps_shrunk_archive w0 p : keeps (shrunk w0) (sql_delete archived_jobs p).
Proof.
  intros w (Ht & HJ & HA). split_and!; [done|done|]. simpl. etrans; [|exact HA]. apply map_filter_subseteq.
Qed.

#[local] Instance shrunk_mono w0 : TickMono (shrunk w0).
Proof. intros d n n' Hn (Ht & HJ & HA). split_and!; [simpl in *; lia|done|done]. Qed.
#[local] Hint Resolve keeps_shrunk_beside keeps_shrunk_archive : keeps.
#[local] Hint Extern 0 (Beside _) => apply _ : keeps.

Lemma keeps_shrunk_batch w0 ids c : keeps (shrunk w0) (purge_archived_id_batch ids c).
Proof.
  unfold purge_archived_id_batch, delete_job_relations, delete_job_diagnostics. solve_keeps.
Qed.
#[local] Hint Resolve keeps_shrunk_batch : keeps.

Lemma keeps_shrunk_where w0 p c : keeps (shrunk w0) (purge_archived_where p c).
Proof. unfold purge_archived_where. solve_keeps. Qed.
#[local] Hint Resolve keeps_shrunk_where keeps_stateless : keeps.

Lemma keeps_shrunk_purges w0 older cutoff ns keep :
  keeps (shrunk w0) (purge_completed older)
  /\ keeps (shrunk w0) (purge_completed_with_ttl cutoff)
  /\ keeps (shrunk w0) (trim_archived_over ns keep).
Proof.
  split_and!.
  - apply keeps_drain. intros s. eauto with keeps.
  - unfold purge_completed_with_ttl. apply keeps_bind; [eauto with keeps|]. intros now.
    apply keeps_bind; [destruct cutoff; [apply keeps_drain; eauto with keeps|apply keeps_ret]|].
    intros g. apply keeps_bind; [apply keeps_drain; eauto with keeps|]. intros l. apply keeps_ret.
  - unfold trim_archived_over, trim_oldest, sql_count. apply keeps_bind; [solve_keeps|].
    intros total. apply keeps_drain. intros s. solve_keeps.
Qed.
End purges.
