(* ===== verification/Results.v ===== *)
(** * Settling results ([scheduler/result_handler.rs], [scheduler/mod.rs],
      [diesel_common/metrics.rs])

    A worker reports how an attempt ended.  The scheduler checks the report against the
    dispatch it made, drops it when the job has moved on, and otherwise writes the
    transition it asks for: completed, put back for another attempt, dead-lettered,
    cancelled, or, for a sleep, nothing at all.  A batch completes its successes in one
    transaction and falls back to one at a time. *)
From S2P Require Import Prelude Job Db Store Enqueue Dequeue Transitions Cascade Purge.
From S2P Require Import Claims Steps DeadLetter Lifecycle Resilience InFlight Sched.

(** ** Reports and outcomes *)

Inductive JobResult :=
  | RSuccess (job_id : string) (result : option bytes) (task_name : string) (wall_time_ns : Z)
  | RFailure (job_id error : string) (retry_count max_retries : Z) (task_name : string)
      (wall_time_ns : Z) (should_retry timed_out : bool)
  | RCancelled (job_id task_name : string) (wall_time_ns : Z)
  | RSlept (job_id task_name : string) (wake_at wall_time_ns : Z).

Definition result_job_id (r : JobResult) : string :=
  match r with
  | RSuccess id _ _ _ | RFailure id _ _ _ _ _ _ _ | RCancelled id _ _ | RSlept id _ _ _ => id
  end.

Inductive ResultOutcome :=
  | OSuccess (job_id task_name : string) (wall_time_ns : Z)
  | ORetry (job_id task_name queue error : string) (retry_count : Z) (timed_out : bool)
      (wall_time_ns : Z)
  | ODeadLettered (job_id task_name queue error : string) (timed_out : bool) (wall_time_ns : Z)
  | OCancelled (job_id task_name queue : string) (wall_time_ns : Z)
  | OSuperseded (job_id : string)
  | OSlept (job_id task_name queue : string) (wake_at wall_time_ns : Z).

Definition RETRY_BUDGET_EXHAUSTED : string := "retry_budget_exhausted".

(** ** The scheduler *)

Record Settled := mkSettled {
  se_outcome : ResultOutcome;
  se_record : option DispatchRecord;
  se_cascaded : list Job
}.

(** What the fence decided about a finished result. *)
Inductive Finished :=
  | Current (record : option DispatchRecord)
  | Moved.

Notation SchM := (M (Scheduler * World) QueueError).

Definition on_db {A} (m : DbM A) : SchM A := fun '(s, w) =>
  let '(r, w') := m w in (r, (s, w')).

(** [if let Err(e) = op { log }] *)
Definition logged {S A} (m : M S QueueError A) : M S QueueError unit := attempt m ;; mret tt.

Section results.
Context {E : Env} {G : Engine} {B : Base64} (cfg : SchedulerSettings).

Definition record_metric (task_name job_id : string) (wall_time_ns memory_bytes : Z)
    (succeeded : bool) (namespace : option string) : DbM unit :=
  conn ;;
  id ← now_v7;
  now ← now_millis;
  sql_insert task_metrics id
    (mkTaskMetricRow id task_name job_id wall_time_ns memory_bytes succeeded now namespace).

(** *** Dispatch bookkeeping *)

Definition release_in_flight (job_id : string) : SchM (option DispatchRecord) := fun '(s, w) =>
  let '(record, f) := if_remove job_id (sd_in_flight s) in
  let leases :=
    match record ≫= dr_epoch with
    | Some epoch => lease_retire job_id (from_epoch epoch) (sd_leases s)
    | None => sd_leases s
    end in
  (Ok record, (mkScheduler f leases, w)).

Definition release_dispatch (job_id : string) : SchM (option DispatchRecord) :=
  record ← release_in_flight job_id;
  match record with
  | Some record => mret (Some record)
  | None => gets (fun '(s, _) => last_dispatch job_id (sd_in_flight s))
  end.

(** A fence that cannot be read lets the result through. *)
Definition authorize_finished (job_id : string) : SchM Finished :=
  record ← release_dispatch job_id;
  match record with
  | None => mret (Current None)
  | Some record =>
      r ← attempt (on_db (authorize_attempt job_id (dr_owner record) (dr_attempt record)
            (dr_epoch record) (sc_namespace cfg)));
      match r with
      | Ok Superseded => mret Moved
      | _ => mret (Current (Some record))
      end
  end.

(** *** Transitions *)

Definition retry_budget_allows (task_name : string) : DbM bool :=
  match c ← sc_task_configs cfg !! task_name; tc_retry_budget c with
  | None => mret true
  | Some config =>
      let key := ("retry::" +:+ default ""%string (sc_namespace cfg) +:+ "::" +:+ task_name)%string in
      r ← attempt (try_acquire key config);
      match r with Ok allowed => mret allowed | Err _ => mret true end
  end.

Definition finalize_success (c : JobCompletion) : DbM ResultOutcome :=
  complete (jc_job_id c) (jc_result c) (sc_namespace cfg) ;;
  logged (complete_execution (jc_job_id c) (sc_namespace cfg)) ;;
  logged (record_metric (jc_task_name c) (jc_job_id c) (jc_wall_time_ns c) 0 true
            (sc_namespace cfg)) ;;
  logged (record_success (jc_task_name c)) ;;
  mret (OSuccess (jc_job_id c) (jc_task_name c) (jc_wall_time_ns c)).

Definition queue_of (job : option Job) : string := default ""%string (j_queue <$> job).

Definition finalize_sleep (job_id task_name : string) (wake_at wall_time_ns : Z)
    : DbM ResultOutcome :=
  job ← get_job job_id (sc_namespace cfg);
  mret (OSlept job_id task_name (queue_of job) wake_at wall_time_ns).

Definition move_failed (job_id error : string) (job : option Job) (metadata : option string)
    : DbM (list Job) :=
  match job with
  | Some job => move_to_dlq_reporting job error metadata
  | None => logged (complete_execution job_id (sc_namespace cfg)) ;; mret []
  end.

Definition settle_failure (job_id error : string) (retry_count max_retries : Z)
    (task_name : string) (wall_time_ns : Z) (should_retry timed_out : bool)
    : DbM (ResultOutcome * list Job) :=
  logged (record_error job_id retry_count error (sc_namespace cfg)) ;;
  logged (record_metric task_name job_id wall_time_ns 0 false (sc_namespace cfg)) ;;
  logged (record_failure task_name) ;;
  job ← get_job job_id (sc_namespace cfg);
  let queue := queue_of job in
  let dead := ODeadLettered job_id task_name queue error timed_out wall_time_ns in
  if negb should_retry then
    cascaded ← move_failed job_id error job None;
    mret (dead, cascaded)
  else
    let policy := default default_policy (tc_retry_policy <$> sc_task_configs cfg !! task_name) in
    if retry_count <? max_retries then
      allowed ← retry_budget_allows task_name;
      if negb allowed then
        cascaded ← move_failed job_id error job (Some RETRY_BUDGET_EXHAUSTED);
        mret (dead, cascaded)
      else
        next_at ← next_retry_at policy retry_count;
        retry job_id next_at (sc_namespace cfg) ;;
        mret (ORetry job_id task_name queue error retry_count timed_out wall_time_ns, [])
    else
      cascaded ← move_failed job_id error job None;
      mret (dead, cascaded).

Definition settle_cancelled (job_id task_name : string) (wall_time_ns : Z)
    : DbM (ResultOutcome * list Job) :=
  logged (mark_cancelled job_id (sc_namespace cfg)) ;;
  logged (record_metric task_name job_id wall_time_ns 0 false (sc_namespace cfg)) ;;
  job ← get_job job_id (sc_namespace cfg);
  mret (OCancelled job_id task_name (queue_of job) wall_time_ns, []).

(** [transition] *)
Definition transition (result : JobResult) : DbM (ResultOutcome * list Job) :=
  match result with
  | RSuccess job_id result task_name wall_time_ns =>
      o ← finalize_success (mkJobCompletion job_id result task_name wall_time_ns);
      mret (o, [])
  | RFailure job_id error retry_count max_retries task_name wall_time_ns should_retry timed_out =>
      settle_failure job_id error retry_count max_retries task_name wall_time_ns should_retry
        timed_out
  | RCancelled job_id task_name wall_time_ns => settle_cancelled job_id task_name wall_time_ns
  | RSlept job_id task_name wake_at wall_time_ns =>
      o ← finalize_sleep job_id task_name wake_at wall_time_ns;
      mret (o, [])
  end.

(** *** One result *)

Definition settle_result (result : JobResult) : SchM Settled :=
  finished ← (match result with
              | RSlept _ _ _ _ => record ← release_dispatch (result_job_id result); mret (Current record)
              | _ => authorize_finished (result_job_id result)
              end);
  match finished with
  | Moved => mret (mkSettled (OSuperseded (result_job_id result)) None [])
  | Current record =>
      '(outcome, cascaded) ← on_db (transition result);
      mret (mkSettled outcome record cascaded)
  end.

(** [handle_result], without the events it emits. *)
Definition handle_result (result : JobResult) : SchM ResultOutcome :=
  settled ← settle_result result; mret (se_outcome settled).

(** *** A batch of results *)

(** The first pass: a slot that is answered, or a success to complete. *)
Fixpoint triage (results : list JobResult)
    : SchM (list (Result QueueError ResultOutcome + JobCompletion)) :=
  match results with
  | [] => mret []
  | result :: results =>
      slot ← (match result with
              | RSuccess job_id res task_name wall_time_ns =>
                  r ← attempt (authorize_finished job_id);
                  mret match r with
                       | Ok (Current _) => inr (mkJobCompletion job_id res task_name wall_time_ns)
                       | Ok Moved => inl (Ok (OSuperseded job_id))
                       | Err e => inl (Err e)
                       end
              | _ =>
                  r ← attempt (settle_result result);
                  mret (inl match r with
                            | Ok settled => Ok (se_outcome settled)
                            | Err e => Err e
                            end)
              end);
      slots ← triage results;
      mret (slot :: slots)
  end.

Definition completions (slots : list (Result QueueError ResultOutcome + JobCompletion))
    : list JobCompletion :=
  omap (fun s => match s with inl _ => None | inr c => Some c end) slots.

Definition success_of (c : JobCompletion) : ResultOutcome :=
  OSuccess (jc_job_id c) (jc_task_name c) (jc_wall_time_ns c).

(** The answers of the completions, put back in their slots. *)
Fixpoint fill (slots : list (Result QueueError ResultOutcome + JobCompletion))
    (answers : list (Result QueueError ResultOutcome)) : list (Result QueueError ResultOutcome) :=
  match slots, answers with
  | [], _ => []
  | inl r :: slots, answers => r :: fill slots answers
  | inr _ :: slots, a :: answers => a :: fill slots answers
  | inr _ :: slots, [] => fill slots []
  end.

Definition complete_successes (cs : list JobCompletion)
    : DbM (list (Result QueueError ResultOutcome)) :=
  batch ← attempt (complete_batch cs (sc_namespace cfg));
  match batch with
  | Ok _ =>
      mapM (fun c => logged (record_success (jc_task_name c)) ;; mret (Ok (success_of c))) cs
  | Err _ => mapM (fun c => attempt (finalize_success c)) cs
  end.

(** [handle_results], without the events it emits. *)
Definition handle_results (results : list JobResult) : SchM (list (Result QueueError ResultOutcome)) :=
  slots ← triage results;
  let cs := completions slots in
  answers ← (if bool_decide (cs = []) then mret [] else on_db (complete_successes cs));
  mret (fill slots answers).
End results.

(** ** What the bookkeeping leaves alone *)

Section frames.
Context {E : Env} {G : Engine} {B : Base64} (cfg : SchedulerSettings).

Lemma keeps_logged {S A} (I : S -> Prop) (m : M S QueueError A) : keeps I m -> keeps I (logged m).
Proof. intros Hm. apply keeps_bind; [by apply keeps_attempt|]. intros _. apply keeps_ret. Qed.

Lemma keeps_on_db {A} (I : World -> Prop) (m : DbM A) :
  keeps I m -> keeps (fun sw => I (snd sw)) (on_db m).
Proof. intros Hm [s w] Hw. specialize (Hm w Hw). unfold on_db. by destruct (m w). Qed.

(** Reads and writes of the tables beside the jobs. *)
Section beside_jobs.
Context (I : World -> Prop) `{!TickMono I} `{!Aside I job_errors} `{!Aside I circuit_breakers}
  `{!Aside I rate_limits}.

Lemma keeps_get_circuit_breaker t : keeps I (get_circuit_breaker t).
Proof. unfold get_circuit_breaker. solve_keeps. Qed.

Lemma keeps_upsert_circuit_breaker r : keeps I (upsert_circuit_breaker r).
Proof. unfold upsert_circuit_breaker. solve_keeps. Qed.

Hint Resolve keeps_get_circuit_breaker keeps_upsert_circuit_breaker : keeps.

Lemma keeps_record_success t : keeps I (record_success t).
Proof. unfold record_success. solve_keeps. Qed.

Lemma keeps_record_failure t : keeps I (record_failure t).
Proof. unfold record_failure. solve_keeps. Qed.

Lemma keeps_record_error_any id a e ns : keeps I (record_error id a e ns).
Proof. unfold record_error, hidden_job. solve_keeps. Qed.

Lemma keeps_next_retry_at p rc : keeps I (next_retry_at p rc).
Proof. unfold next_retry_at, full_jitter. solve_keeps. Qed.

Lemma keeps_try_acquire key c : keeps I (try_acquire key c).
Proof. unfold try_acquire, try_acquire_token, try_acquire_tokens. solve_keeps. Qed.

Lemma keeps_retry_budget t : keeps I (retry_budget_allows cfg t).
Proof.
  unfold retry_budget_allows. case_match; [|solve_keeps].
  apply keeps_bind; [apply keeps_attempt, keeps_try_acquire|]. intros []; apply keeps_ret.
Qed.

Lemma keeps_record_metric `{!Aside I task_metrics} t id wt mb ok ns :
  keeps I (record_metric t id wt mb ok ns).
Proof. unfold record_metric. solve_keeps. Qed.

Lemma keeps_complete_execution_any `{!Aside I execution_claims} id ns :
  keeps I (complete_execution id ns).
Proof. unfold complete_execution, hidden_job. solve_keeps. Qed.
End beside_jobs.
End frames.

(** ** Invariants *)

#[export] Hint Resolve keeps_logged keeps_get_circuit_breaker keeps_upsert_circuit_breaker
  keeps_record_success keeps_record_failure keeps_next_retry_at keeps_try_acquire
  keeps_retry_budget keeps_record_metric : keeps.

Section invariants.
Context {E : Env} {G : Engine} {B : Base64} `{!UuidFresh E} `{!ScanComplete G} (cfg : SchedulerSettings).

Lemma keeps_finalize_success c : keeps wf (finalize_success cfg c).
Proof.
  unfold finalize_success. repeat (apply keeps_bind; [|intros _]); eauto with keeps.
Qed.

Lemma keeps_move_failed id error job md : keeps wf (move_failed cfg id error job md).
Proof.
  destruct job as [job|]; [apply keeps_dead_letter|].
  apply keeps_bind; [apply keeps_logged, keeps_complete_execution|]. intros _. apply keeps_ret.
Qed.

Lemma keeps_settle_failure id error rc mx t wt sr to :
  keeps wf (settle_failure cfg id error rc mx t wt sr to).
Proof.
  assert (Hdead : forall job md (o : ResultOutcome),
    keeps wf (c ← move_failed cfg id error job md; mret (o, c))).
  { intros job md o. apply keeps_bind; [apply keeps_move_failed|]. intros c. apply keeps_ret. }
  unfold settle_failure.
  apply keeps_bind; [apply keeps_logged, keeps_record_error|intros _].
  do 2 (apply keeps_bind; [eauto with keeps|intros ?]).
  apply keeps_bind; [eauto with keeps|intros job].
  destruct (negb sr); [done|]. destruct (rc <? mx); [|done].
  apply keeps_bind; [eauto with keeps|intros allowed]. destruct (negb allowed); [done|].
  apply keeps_bind; [eauto with keeps|intros t0].
  apply keeps_bind; [apply keeps_retry|intros _; apply keeps_ret].
Qed.

Lemma keeps_transition r : keeps wf (transition cfg r).
Proof.
  destruct r; simpl.
  - apply keeps_bind; [apply keeps_finalize_success|intros o; apply keeps_ret].
  - apply keeps_settle_failure.
  - unfold settle_cancelled. apply keeps_bind; [apply keeps_logged, keeps_mark_cancelled|intros _].
    repeat (apply keeps_bind; [eauto with keeps|intros ?]). apply keeps_ret.
  - apply keeps_bind; [|intros ?; apply keeps_ret].
    apply keeps_bind; [apply keeps_get_job, _|intros ?; apply keeps_ret].
Qed.

(** The scheduler's book and the store, both in order. *)
Definition scheduler_ok (sw : Scheduler * World) : Prop :=
  in_flight_ok (sd_in_flight (fst sw)) /\ wf (snd sw).

Lemma keeps_on_db_ok {A} (m : DbM A) : keeps wf m -> keeps scheduler_ok (on_db m).
Proof.
  intros Hm [s w] [Hs Hw]. specialize (Hm w Hw). unfold on_db. by destruct (m w).
Qed.

Lemma keeps_release_dispatch id : keeps scheduler_ok (release_dispatch id).
Proof.
  apply keeps_bind.
  - intros [s w] [Hs Hw]. unfold release_in_flight.
    pose proof (if_remove_ok id (sd_in_flight s) Hs) as Hok.
    by destruct (if_remove id (sd_in_flight s)) as [r f].
  - intros [r|]; [apply keeps_ret|]. by intros [s w].
Qed.

Lemma keeps_authorize_finished id : keeps scheduler_ok (authorize_finished cfg id).
Proof.
  apply keeps_bind; [apply keeps_release_dispatch|]. intros [r|]; [|apply keeps_ret].
  apply keeps_bind; [apply keeps_attempt, keeps_on_db_ok, keeps_authorize_attempt|].
  intros [[]|]; apply keeps_ret.
Qed.

Lemma keeps_settle_result r : keeps scheduler_ok (settle_result cfg r).
Proof.
  apply keeps_bind.
  - destruct r; try apply keeps_authorize_finished.
    apply keeps_bind; [apply keeps_release_dispatch|intros ?; apply keeps_ret].
  - intros [record|]; [|apply keeps_ret].
    apply keeps_bind; [apply keeps_on_db_ok, keeps_transition|].
    intros [o cascaded]. apply keeps_ret.
Qed.

Lemma keeps_triage rs : keeps scheduler_ok (triage cfg rs).
Proof.
  induction rs as [|r rs IH]; [apply keeps_ret|]. cbn [triage]. apply keeps_bind.
  - destruct r; (apply keeps_bind; [apply keeps_attempt|intros ?; apply keeps_ret]);
      first [apply keeps_authorize_finished | apply keeps_settle_result].
  - intros slot. apply keeps_bind; [done|]. intros slots. apply keeps_ret.
Qed.

Lemma keeps_complete_successes cs : keeps wf (complete_successes cfg cs).
Proof.
  apply keeps_bind; [apply keeps_attempt, keeps_complete_batch|]. intros [_|e]; apply keeps_mapM; intros c _.
  - apply keeps_bind; [eauto with keeps|intros _; apply keeps_ret].
  - apply keeps_attempt, keeps_finalize_success.
Qed.

Lemma keeps_handle_results rs : keeps scheduler_ok (handle_results cfg rs).
Proof.
  apply keeps_bind; [apply keeps_triage|]. intros slots. apply keeps_bind.
  - case_bool_decide; [apply keeps_ret|apply keeps_on_db_ok, keeps_complete_successes].
  - intros answers. apply keeps_ret.
Qed.
End invariants.

(** ** A result that no longer speaks for its job *)

Section superseded.
Context {E : Env} {G : Engine} {B : Base64} (cfg : SchedulerSettings).

Definition is_sleep (r : JobResult) : bool := match r with RSlept _ _ _ _ => true | _ => false end.

Lemma release_dispatch_run id s w :
  exists s', release_dispatch id (s, w) = (Ok (last_dispatch id (sd_in_flight s)), (s', w)).
Proof.
  unfold release_dispatch, release_in_flight, mbind, M_bind, if_remove.
  destruct (if_take_by_job id (sd_in_flight s)) as (Htake & Hby & Hret & _).
  destruct (if_take id (sd_in_flight s)) as [[r|] f]; simpl in *.
  - unfold last_dispatch. rewrite <- Htake. by eexists.
  - eexists. unfold gets, last_dispatch. simpl. by rewrite Hby, Hret, <- Htake, lookup_delete_eq.
Qed.

(** The verdict of the fence on the dispatch the scheduler remembers. *)
Definition still_speaks (d : DB) (id : string) (r : DispatchRecord) : bool :=
  bool_decide (is_Some (attempt_current d id (dr_attempt r) (sc_namespace cfg)))
  && claim_allows d id (dr_owner r) (dr_epoch r).

Lemma authorize_finished_run id s w :
  pool_ready (tick w) = true ->
  exists s', authorize_finished cfg id (s, w)
    = match last_dispatch id (sd_in_flight s) with
      | None => (Ok (Current None), (s', w))
      | Some r => (Ok (if still_speaks (db w) id r then Current (Some r) else Moved),
                   (s', bump 1 w))
      end.
Proof.
  intros Hp. destruct (release_dispatch_run id s w) as [s' Hrel]. exists s'.
  unfold authorize_finished. rewrite (bind_ok _ _ _ _ _ Hrel).
  destruct (last_dispatch id (sd_in_flight s)) as [r|]; [|done].
  destruct (authorize_attempt_eq id (dr_owner r) (dr_attempt r) (dr_epoch r) (sc_namespace cfg) w Hp)
    as [Ha _].
  unfold attempt, on_db, mbind, M_bind. rewrite Ha. fold (still_speaks (db w) id r).
  by destruct (still_speaks (db w) id r).
Qed.

(** a result from an attempt the job has moved past is dropped.  If the scheduler
    dispatched the job and the job is no longer running as that attempt under that claim,
    the outcome says so and the database is exactly what it was: nothing is completed,
    retried, dead-lettered or even recorded. *)
Theorem superseded_result_dropped result s w r :
  is_sleep result = false -> pool_ready (tick w) = true ->
  last_dispatch (result_job_id result) (sd_in_flight s) = Some r ->
  still_speaks (db w) (result_job_id result) r = false ->
  exists s', settle_result cfg result (s, w)
    = (Ok (mkSettled (OSuperseded (result_job_id result)) None []), (s', bump 1 w)).
Proof.
  intros Hs Hp Hlast Hmoved.
  destruct (authorize_finished_run (result_job_id result) s w Hp) as [s' Ha]. exists s'.
  rewrite Hlast, Hmoved in Ha. unfold settle_result.
  destruct result; try done; simpl in *; by rewrite (bind_ok _ _ _ _ _ Ha).
Qed.
End superseded.

(** ** What a failure leads to *)

Section failures.
Context {E : Env} {G : Engine} {B : Base64} `{!UuidFresh E} `{!ScanComplete G} (cfg : SchedulerSettings).

(** The live rows and the dead letters' ids, while the bookkeeping goes on. *)
Definition untouched (J : gmap string JobRow) (w : World) : Prop :=
  wf w /\ minted (tick w) (db_dead_letter (db w)) /\ db_jobs (db w) = J.

#[local] Instance untouched_mono J : TickMono (untouched J).
Proof.
  intros d n n' Hn (Hwf & Hm & HJ). split_and!; [|by eapply minted_mono|done].
  by eapply (wf_mono d n).
Qed.
#[local] Instance untouched_errors J : Aside (untouched J) job_errors.
Proof. by intros m w (? & ? & ?). Qed.
#[local] Instance untouched_metrics J : Aside (untouched J) task_metrics.
Proof. by intros m w (? & ? & ?). Qed.
#[local] Instance untouched_breakers J : Aside (untouched J) circuit_breakers.
Proof. by intros m w (? & ? & ?). Qed.
#[local] Instance untouched_limits J : Aside (untouched J) rate_limits.
Proof. by intros m w (? & ? & ?). Qed.
#[local] Instance untouched_claims J : Aside (untouched J) execution_claims.
Proof. by intros m w (? & ? & ?). Qed.

Lemma bind_keeps {A C} (I : World -> Prop) (m : DbM A) (k : A -> DbM C) w r w' :
  keeps I m -> I w -> (m ≫= k) w = (r, w') ->
  (exists a w1, I w1 /\ k a w1 = (r, w')) \/ (exists e, r = Err e /\ I w').
Proof.
  intros Hm Hw [(a & w1 & Hm1 & Hk)|(e & Hm1 & ->)]%bind_inv; specialize (Hm w Hw); rewrite Hm1 in Hm.
  - left. by exists a, w1.
  - right. by exists e.
Qed.

Lemma bind_logged {A C} (I : World -> Prop) (m : DbM A) (k : unit -> DbM C) w r w' :
  keeps I m -> I w -> (logged m ≫= k) w = (r, w') -> exists w1, I w1 /\ k tt w1 = (r, w').
Proof.
  intros Hm Hw Hrun. specialize (Hm w Hw). unfold logged, attempt, mbind, M_bind in Hrun.
  destruct (m w) as [x w1]. by exists w1.
Qed.

(** The job is dead and has its entry in the dead-letter queue. *)
Definition dead_lettered_as (error : string) (row : JobRow) (d : DB) : Prop :=
  db_jobs d !! jr_id row = None
  /\ (exists now, db_archived_jobs d !! jr_id row = Some (archived_of (dead_row now error row)))
  /\ exists k e, db_dead_letter d !! k = Some e /\ dl_original_job_id e = jr_id row
       /\ dl_error e = Some error.

Lemma dead_letter_row_fields k job error md shed now :
  dl_original_job_id (new_dead_letter_row k job error md shed now) = j_id job
  /\ dl_error (new_dead_letter_row k job error md shed now) = Some error.
Proof. done. Qed.

Lemma move_failed_live error md row J w r w' :
  untouched J w -> J !! jr_id row = Some row ->
  move_failed cfg (jr_id row) error (Some (job_of_row row)) md w = (r, w') ->
  match r with
  | Ok _ => dead_lettered_as error row (db w')
  | Err e => e = Pool /\ (db_jobs (db w') !! jr_id row = Some row
                          \/ dead_lettered_as error row (db w'))
  end.
Proof.
  intros (Hwf & Hm & HJ) Hrow Hrun. rewrite <- HJ in Hrow.
  destruct (dead_letter_cases _ _ _ _ _ _ _ Hwf Hm Hrun) as [_ Hc].
  destruct (negb (pool_ready (S (tick w)))).
  { destruct Hc as [-> Hd]. split; [done|left]. by rewrite Hd. }
  destruct Hc as (Hdl & _ & Hnone & Harch & Hend). cbn [j_id job_of_row] in *.
  assert (Hdead : dead_lettered_as error row (db w')).
  { split_and!; [done|eexists; by apply Harch|]. eexists. eexists. rewrite Hdl, lookup_insert_eq.
    split; [done|]. by destruct (dead_letter_row_fields (uuid_v7 (2 + tick w)) (job_of_row row)
      error md false (clock_at (tick w))). }
  destruct r as [cancelled|e]; [done|]. destruct Hend as [-> _]. split; [done|by right].
Qed.

Lemma get_job_live id ns row w :
  db_jobs (db w) !! id = Some row -> job_in_namespace (jr_namespace row) ns = true ->
  get_job id ns w
  = if pool_ready (tick w) then (Ok (Some (job_of_row row)), bump 1 w) else (Err Pool, bump 1 w).
Proof.
  intros Hrow Hns. unfold get_job, conn, mbind, M_bind, draw. simpl.
  destruct (pool_ready (tick w)); [|done]. unfold sql_find, gets. simpl. by rewrite Hrow, Hns.
Qed.

(** The task may retry only at a limited rate. *)
Definition has_budget (task_name : string) : Prop :=
  is_Some (c ← sc_task_configs cfg !! task_name; tc_retry_budget c).

Lemma retry_budget_run J task_name w :
  untouched J w ->
  exists b w1, retry_budget_allows cfg task_name w = (Ok b, w1) /\ untouched J w1
    /\ (b = false -> has_budget task_name).
Proof.
  intros Hw. pose proof (keeps_retry_budget cfg (untouched J) task_name w Hw) as Hk.
  unfold retry_budget_allows, has_budget in *.
  destruct (c ← sc_task_configs cfg !! task_name; tc_retry_budget c) as [config|]; [|by exists true, w].
  unfold attempt, mbind, M_bind in *. destruct (try_acquire _ config w) as [[b|e] w1]; simpl in *.
  - by exists b, w1.
  - by exists true, w1.
Qed.

(** What a failed attempt may lead to. *)
Definition failure_outcome (error : string) (rc mx : Z) (task_name : string) (sr : bool)
    (row : JobRow) (r : Result QueueError (ResultOutcome * list Job)) (d : DB) : Prop :=
  match r with
  | Ok (ORetry _ _ _ _ _ _ _, cascaded) =>
      sr = true /\ rc < mx /\ cascaded = []
      /\ (exists t, db_jobs d !! jr_id row
           = Some (jr_with_retry_count (jr_retry_count row + 1) (pending_row t row)))
      /\ db_execution_claims d !! jr_id row = None
  | Ok (ODeadLettered _ _ _ _ _ _, _) =>
      (sr = false \/ mx <= rc \/ has_budget task_name) /\ dead_lettered_as error row d
  | Ok _ => False
  | Err e => e = Pool /\ (db_jobs d !! jr_id row = Some row \/ dead_lettered_as error row d)
  end.

Lemma settle_failure_dead error rc mx task_name sr row J md o w r w' :
  untouched J w -> J !! jr_id row = Some row ->
  (exists id q to wt, o = ODeadLettered id task_name q error to wt) ->
  sr = false \/ mx <= rc \/ has_budget task_name ->
  (cascaded ← move_failed cfg (jr_id row) error (Some (job_of_row row)) md; mret (o, cascaded)) w
    = (r, w') ->
  failure_outcome error rc mx task_name sr row r (db w').
Proof.
  intros Hw Hrow (id & q & to & wt & ->) Hwhy
    [(c & w1 & Hm & [= <- <-])|(e & Hm & ->)]%bind_inv;
    pose proof (move_failed_live _ _ _ _ _ _ _ Hw Hrow Hm) as Hd; [by split|exact Hd].
Qed.

Lemma settle_failure_cases id error rc mx task_name wt sr to row w r w' :
  wf w -> minted (tick w) (db_dead_letter (db w)) ->
  db_jobs (db w) !! id = Some row ->
  job_in_namespace (jr_namespace row) (sc_namespace cfg) = true ->
  settle_failure cfg id error rc mx task_name wt sr to w = (r, w') ->
  failure_outcome error rc mx task_name sr row r (db w').
Proof.
  intros Hwf Hm Hid Hns Hrun. assert (jr_id row = id) as <- by by eapply (wf_live_key _ _ _ _ _ Hwf).
  assert (Hw : untouched (db_jobs (db w)) w) by done. set (J := db_jobs (db w)) in *.
  unfold settle_failure in Hrun.
  apply (bind_logged (untouched J)) in Hrun as (w1 & H1 & Hrun); [|apply keeps_record_error_any; tc_solve|done].
  apply (bind_logged (untouched J)) in Hrun as (w2 & H2 & Hrun); [|apply keeps_record_metric; tc_solve|done].
  apply (bind_logged (untouched J)) in Hrun as (w3 & H3 & Hrun); [|apply keeps_record_failure; tc_solve|done].
  assert (Hlive : forall w0, untouched J w0 -> db_jobs (db w0) !! jr_id row = Some row)
    by (intros w0 (_ & _ & ->); done).
  pose proof (get_job_live _ _ _ _ (Hlive w3 H3) Hns) as Hget.
  destruct (pool_ready (tick w3)).
  2:{ rewrite (bind_err _ _ _ _ _ Hget) in Hrun. injection Hrun as <- <-. split; [done|left].
      by apply (Hlive w3). }
  rewrite (bind_ok _ _ _ _ _ Hget) in Hrun.
  assert (H4 : untouched J (bump 1 w3)) by (eapply (tick_mono (I := untouched J)); [|exact H3]; lia).
  destruct sr; simpl in Hrun.
  2:{ eapply settle_failure_dead; [exact H4|done|by eexists _, _, _, _|by left|exact Hrun]. }
  destruct (Z.ltb_spec rc mx) as [Hlt|Hge].
  2:{ eapply settle_failure_dead; [exact H4|done|by eexists _, _, _, _|by right; left|exact Hrun]. }
  destruct (retry_budget_run J task_name (bump 1 w3) H4) as (b & w5 & Hb & H5 & Hbudget).
  rewrite (bind_ok _ _ _ _ _ Hb) in Hrun. destruct b; simpl in Hrun.
  2:{ eapply settle_failure_dead; [exact H5|done|by eexists _, _, _, _|by right; right; apply Hbudget|exact Hrun]. }
  set (policy := default default_policy _) in Hrun.
  destruct (next_retry_at_total policy rc w5) as (t & w6 & Ht).
  pose proof (keeps_next_retry_at (untouched J) policy rc w5 H5) as H6. rewrite Ht in H6.
  rewrite (bind_ok _ _ _ _ _ Ht) in Hrun.
  destruct (retry_cases (jr_id row) t (sc_namespace cfg) w6 (proj1 H6)) as [Hretry _].
  rewrite (Hlive w6 H6), Hns in Hretry. destruct (pool_ready (tick w6)); simpl in Hretry.
  - rewrite (bind_ok _ _ _ _ _ Hretry) in Hrun. injection Hrun as <- <-.
    split_and!; [done|done|done| |apply lookup_delete_eq]. exists t. apply lookup_insert_eq.
  - rewrite (bind_err _ _ _ _ _ Hretry) in Hrun. injection Hrun as <- <-. split; [done|left].
    by apply (Hlive w6).
Qed.

End failures.

(** ** Batches of results *)

Section batches.
Context {E : Env} {G : Engine} {B : Base64} `{!UuidFresh E} `{!ScanComplete G} (cfg : SchedulerSettings).

(** The job is archived as complete, with this result. *)
Definition completed_as (id : string) (res : option bytes) (w : World) : Prop :=
  wf w /\ exists a, db_archived_jobs (db w) !! id = Some a
                    /\ ar_status a = as_int Complete /\ ar_result a = res.

(** An operation of the store: it keeps the invariant and only advances jobs. *)
Definition steady {A} (m : DbM A) : Prop := keeps wf m /\ forall n, moves wf n m.

Lemma steady_completed {A} (m : DbM A) id res : steady m -> keeps (completed_as id res) m.
Proof.
  intros [Hk Hm] w (Hwf & a & Ha & Hs & Hr). split; [by apply Hk|].
  destruct (wf_minted_arch _ _ _ _ _ Hwf id (mk_is_Some _ _ Ha)) as (i & Hi & ->).
  destruct (Hm (tick w) w Hwf) as [_ Hal]; [done|]. specialize (Hal i Hi). unfold phase in Hal.
  assert (db_jobs (db w) !! uuid_v7 i = None) as HJ.
  { destruct (db_jobs (db w) !! uuid_v7 i) eqn:Hj; [|done].
    by rewrite (wf_disjoint _ _ _ _ _ Hwf _ (mk_is_Some _ _ Hj)) in Ha. }
  rewrite HJ, Ha in Hal. exists a. split; [|done].
  destruct (db_jobs (db (snd (m w))) !! _); [inversion Hal|].
  destruct (db_archived_jobs (db (snd (m w))) !! _); by inversion Hal.
Qed.

Lemma archive_completed now res row w :
  wf w -> db_jobs (db w) !! jr_id row = Some row ->
  exists w1, archive_job_row (completed_row now res row) w = (Ok tt, w1)
    /\ completed_as (jr_id row) res w1.
Proof.
  intros Hwf Hrow.
  destruct (archive_live w row (completed_row now res row)) as [Ha Hwf']; try done.
  eexists. split; [exact Ha|]. split; [done|]. simpl. rewrite lookup_insert_eq. by eexists.
Qed.

Lemma running_live d id ns row n :
  wf (mkWorld d n) -> running_in d id ns = Some row -> db_jobs d !! jr_id row = Some row /\ jr_id row = id.
Proof.
  intros Hwf (Hj & _ & _)%running_in_Some.
  assert (jr_id row = id) as <- by exact (wf_live_key _ _ _ _ _ Hwf _ _ Hj). done.
Qed.

Lemma complete_done id res ns w w' :
  wf w -> complete id res ns w = (Ok tt, w') -> completed_as id res w'.
Proof.
  intros Hwf. unfold complete. erewrite bind_ok by done. rewrite write_transaction_eq.
  destruct (pool_ready _); [|done]. rewrite (bind_ok _ _ _ _ _ (find_running_eq id ns _)).
  assert (Hwf2 : wf (bump 1 (mkWorld (db w) (S (tick w))))) by by apply wf_bump, (wf_bump 1).
  destruct (running_in _ id ns) as [row|] eqn:Hr; [|done].
  destruct (running_live _ _ _ _ _ Hwf2 Hr) as [Hrow <-].
  destruct (archive_completed (clock_at (tick w)) res row _ Hwf2 Hrow) as (w1 & Ha & Hd).
  unfold clock_at in Ha. rewrite Ha. by intros [= <-].
Qed.

Lemma complete_one_done now ns c w w' :
  wf w -> complete_one now ns c w = (Ok tt, w') -> completed_as (jc_job_id c) (jc_result c) w'.
Proof.
  destruct w as [d n]. intros Hwf. unfold complete_one. rewrite (bind_ok _ _ _ _ _ (find_running_eq _ ns _)).
  destruct (running_in _ _ ns) as [row|] eqn:Hr; [|done].
  destruct (running_live _ _ _ _ _ Hwf Hr) as [Hrow <-].
  destruct (archive_completed now (jc_result c) row _ Hwf Hrow) as (w1 & Ha & Hd).
  rewrite (bind_ok _ _ _ _ _ Ha). revert Hd. generalize w1. clear. intros w Hd Hrun.
  assert (Hk : keeps (completed_as (jr_id row) (jc_result c)) (
    metric_id ← now_v7;
    sql_insert task_metrics metric_id
        (mkTaskMetricRow metric_id (jc_task_name c) (jr_id row) (jc_wall_time_ns c)
           0 true now (jr_namespace row)))).
  { apply steady_completed. split; [solve_keeps|]. intros k. solve_moves. }
  specialize (Hk w Hd). by rewrite Hrun in Hk.
Qed.

(** A loop of steady operations, each of which completes its job when it succeeds. *)
Lemma for_each_done (f : JobCompletion -> DbM unit) cs w w' :
  (forall c, steady (f c)) ->
  (forall c w w', wf w -> f c w = (Ok tt, w') -> completed_as (jc_job_id c) (jc_result c) w') ->
  wf w -> for_each f cs w = (Ok tt, w') ->
  Forall (fun c => completed_as (jc_job_id c) (jc_result c) w') cs.
Proof.
  intros Hst Hd. revert w. induction cs as [|c cs IH]; intros w Hwf Hrun; [constructor|].
  cbn [for_each] in Hrun. apply bind_inv in Hrun as [([] & w1 & Hc & Hrun)|(e & _ & ?)]; [|done].
  pose proof (Hd _ _ _ Hwf Hc) as Hc1. constructor; [|eapply (IH w1); [apply Hc1|done]].
  assert (Hk : keeps (completed_as (jc_job_id c) (jc_result c)) (for_each f cs)).
  { apply keeps_for_each. intros c' _. by apply steady_completed. }
  specialize (Hk w1 Hc1). by rewrite Hrun in Hk.
Qed.

(** What the answer to a completion promises of the store. *)
Definition answered (w : World) (c : JobCompletion) (a : Result QueueError ResultOutcome) : Prop :=
  match a with
  | Ok o => o = success_of c /\ completed_as (jc_job_id c) (jc_result c) w
  | Err _ => True
  end.

Lemma mapM_answered (f : JobCompletion -> DbM (Result QueueError ResultOutcome)) cs w :
  (forall c, steady (f c)) ->
  Forall (fun c => forall w, wf w -> exists a w', f c w = (Ok a, w') /\ answered w' c a) cs ->
  wf w -> exists answers w', mapM f cs w = (Ok answers, w') /\ Forall2 (answered w') cs answers.
Proof.
  intros Hst Hf. revert w. induction Hf as [|c cs Hc _ IH]; intros w Hwf.
  { by exists [], w. }
  destruct (Hc w Hwf) as (a & w1 & Ha & Hans). destruct (IH w1) as (answers & w2 & Hm & Hall).
  { destruct (Hst c) as [Hk _]. specialize (Hk w Hwf). by rewrite Ha in Hk. }
  exists (a :: answers), w2. cbn [mapM]. rewrite (bind_ok _ _ _ _ _ Ha), (bind_ok _ _ _ _ _ Hm).
  split; [done|]. constructor; [|done]. destruct a as [o|]; [|done]. destruct Hans as [-> Hd].
  split; [done|].
  assert (Hk : keeps (completed_as (jc_job_id c) (jc_result c)) (mapM f cs)).
  { apply keeps_mapM. intros c' _. by apply steady_completed. }
  specialize (Hk w1 Hd). by rewrite Hm in Hk.
Qed.

Lemma steady_logged {A} (m : DbM A) : steady m -> steady (logged m).
Proof.
  intros [Hk Hm]. split; [by apply keeps_logged|]. intros n. apply moves_fmap, moves_attempt, Hm.
Qed.

Lemma steady_bind {A C} (m : DbM A) (k : A -> DbM C) :
  steady m -> (forall a, steady (k a)) -> steady (m ≫= k).
Proof.
  intros [Hk Hm] Hb. split; [apply keeps_bind; [done|intros a; apply Hb]|].
  intros n. apply moves_bind; [done|apply Hm|intros a; apply Hb].
Qed.

Lemma steady_ret {A} (a : A) : steady (mret a : DbM A).
Proof. split; [apply keeps_ret|intros n; apply moves_ret]. Qed.

Lemma steady_complete_execution id ns : steady (complete_execution id ns).
Proof.
  split; [apply keeps_complete_execution|]. intros n.
  exact (proj1 (proj2 (proj2 (moves_claims n id [] "" "" ns 0)))).
Qed.

Lemma steady_record_metric t id wt mb ok ns : steady (record_metric t id wt mb ok ns).
Proof. split; [apply keeps_record_metric; apply _|]. intros n. unfold record_metric. solve_moves. Qed.

Lemma steady_record_success t : steady (record_success t).
Proof.
  split; [apply keeps_record_success; apply _|]. intros n. apply moves_any.
  unfold record_success, get_circuit_breaker, upsert_circuit_breaker. solve_moves.
Qed.

Lemma steady_finalize_success c : steady (finalize_success cfg c).
Proof.
  unfold finalize_success.
  apply steady_bind; [split; [apply keeps_complete|intros n; apply moves_complete]|intros _].
  apply steady_bind; [apply steady_logged, steady_complete_execution|intros _].
  apply steady_bind; [apply steady_logged, steady_record_metric|intros _].
  apply steady_bind; [apply steady_logged, steady_record_success|intros _]. apply steady_ret.
Qed.

Lemma steady_attempt {A} (m : DbM A) : steady m -> steady (attempt m).
Proof. intros [Hk Hm]. split; [by apply keeps_attempt|]. intros n. apply moves_attempt, Hm. Qed.

Lemma finalize_success_answered c w :
  wf w -> exists a w', attempt (finalize_success cfg c) w = (Ok a, w') /\ answered w' c a.
Proof.
  intros Hwf. unfold attempt. destruct (finalize_success cfg c w) as [[o|e] w'] eqn:Hf; [|by eexists _, _].
  exists (Ok o), w'. split; [done|]. unfold finalize_success in Hf.
  apply bind_inv in Hf as [([] & w1 & Hc & Hf)|(e & _ & ?)]; [|done].
  apply (complete_done _ _ _ _ _ Hwf) in Hc. set (I := completed_as _ _) in Hc.
  assert (Hall : forall A (m : DbM A), steady m -> keeps I m) by (intros A m Hm; by apply steady_completed).
  apply (bind_logged I) in Hf as (w2 & H2 & Hf); [|apply Hall, steady_complete_execution|done].
  apply (bind_logged I) in Hf as (w3 & H3 & Hf); [|apply Hall, steady_record_metric|done].
  apply (bind_logged I) in Hf as (w4 & H4 & Hf); [|apply Hall, steady_record_success|done].
  by injection Hf as <- <-.
Qed.

Lemma mapM_logged {A C} (f : A -> DbM unit) (g : A -> C) l w :
  exists w', mapM (fun x => logged (f x) ;; mret (g x)) l w = (Ok (g <$> l), w').
Proof.
  revert w. induction l as [|x l IH]; intros w; [by exists w|]. cbn [mapM].
  assert (exists w1, (logged (f x) ;; mret (g x)) w = (Ok (g x), w1)) as [w1 H1].
  { unfold logged, attempt, mbind, M_bind. destruct (f x w) as [[[]|e] w1]; by exists w1. }
  destruct (IH w1) as [w2 H2]. exists w2. by rewrite (bind_ok _ _ _ _ _ H1), (bind_ok _ _ _ _ _ H2).
Qed.

Lemma complete_batch_done cs ns w w' :
  wf w -> complete_batch cs ns w = (Ok tt, w') ->
  Forall (fun c => completed_as (jc_job_id c) (jc_result c) w') cs.
Proof.
  intros Hwf. unfold complete_batch. case_bool_decide as Hcs.
  { apply fmap_nil_inv in Hcs as ->. constructor. }
  erewrite bind_ok by done. rewrite write_transaction_eq. destruct (pool_ready _); [|done].
  destruct (for_each _ cs _) as [[[]|e] w1] eqn:Hrun; [|done]. intros [= <-].
  eapply for_each_done; [| |by apply wf_bump, (wf_bump 1)|exact Hrun].
  - intros c. split; [apply keeps_complete_one|]. intros n. apply moves_complete_one.
  - intros c w0 w0'. apply complete_one_done.
Qed.

Lemma complete_successes_answered cs w :
  wf w -> exists answers w', complete_successes cfg cs w = (Ok answers, w')
    /\ Forall2 (answered w') cs answers.
Proof.
  intros Hwf. unfold complete_successes.
  pose proof (keeps_complete_batch cs (sc_namespace cfg) w Hwf) as Hwf1.
  destruct (complete_batch cs (sc_namespace cfg) w) as [[[]|e] w1] eqn:Hb; simpl in Hwf1;
    (erewrite bind_ok by by (unfold attempt; rewrite Hb)); simpl.
  - apply (complete_batch_done _ _ _ _ Hwf) in Hb.
    set (answer := fun c => Ok (success_of c) : Result QueueError ResultOutcome).
    destruct (mapM_logged (fun c => record_success (jc_task_name c)) answer cs w1) as [w2 Hm].
    exists (answer <$> cs), w2. split; [exact Hm|].
    apply Forall2_fmap_r, Forall_Forall2_diag. eapply Forall_impl; [exact Hb|]. intros c Hc.
    split; [done|]. match type of Hm with ?m _ = _ => assert (Hk : keeps (completed_as (jc_job_id c) (jc_result c)) m) end.
    { apply keeps_mapM. intros c' _. apply steady_completed.
      apply steady_bind; [apply steady_logged, steady_record_success|intros _; apply steady_ret]. }
    specialize (Hk w1 Hc). by rewrite Hm in Hk.
  - apply mapM_answered; [intros c; apply steady_attempt, steady_finalize_success| |done].
    apply Forall_true. intros c w0. apply finalize_success_answered.
Qed.

(** The answers a result may get, about its own job. *)
Definition outcome_for (r : JobResult) (o : ResultOutcome) : Prop :=
  match r, o with
  | RSuccess id _ t wt, OSuccess id' t' wt' => id' = id /\ t' = t /\ wt' = wt
  | RFailure id error rc _ t wt _ to, ORetry id' t' _ error' rc' to' wt' =>
      id' = id /\ t' = t /\ error' = error /\ rc' = rc /\ to' = to /\ wt' = wt
  | RFailure id error _ _ t wt _ to, ODeadLettered id' t' _ error' to' wt' =>
      id' = id /\ t' = t /\ error' = error /\ to' = to /\ wt' = wt
  | RCancelled id t wt, OCancelled id' t' _ wt' => id' = id /\ t' = t /\ wt' = wt
  | RSlept id t at_ wt, OSlept id' t' _ at' wt' => id' = id /\ t' = t /\ at' = at_ /\ wt' = wt
  | RSuccess id _ _ _, OSuperseded id' | RFailure id _ _ _ _ _ _ _, OSuperseded id'
  | RCancelled id _ _, OSuperseded id' => id' = id
  | _, _ => False
  end.

(** A computation whose answers all satisfy [Q]. *)
Definition yields {S A} (Q : A -> Prop) (m : M S QueueError A) : Prop :=
  forall s a s', m s = (Ok a, s') -> Q a.

Lemma yields_ret {S A} (Q : A -> Prop) a : Q a -> yields Q (mret a : M S QueueError A).
Proof. intros Ha s a' s' [= <- <-]. done. Qed.

Lemma yields_bind {S A C} (Q : C -> Prop) (m : M S QueueError A) (k : A -> M S QueueError C) :
  (forall a, yields Q (k a)) -> yields Q (m ≫= k).
Proof. intros Hk s a s' [(b & s1 & _ & H1)|(e & _ & ?)]%bind_inv; [by eapply Hk|done]. Qed.

Lemma transition_outcome r : yields (fun '(o, _) => outcome_for r o) (transition cfg r).
Proof.
  destruct r as [id res t wt|id error rc mx t wt sr to|id t wt|id t at_ wt]; simpl.
  - unfold finalize_success. intros w [o c] w' Hrun.
    apply bind_inv in Hrun as [(o' & w1 & Ho & [= <- <- <-])|(e & _ & ?)]; [|done].
    revert Ho. apply (yields_bind (fun o => outcome_for (RSuccess id res t wt) o)). intros _.
    do 3 (apply yields_bind; intros _). by apply yields_ret.
  - unfold settle_failure. do 3 (apply yields_bind; intros _). apply yields_bind. intros job.
    destruct (negb sr); [apply yields_bind; intros c; by apply yields_ret|].
    destruct (rc <? mx); [|apply yields_bind; intros c; by apply yields_ret].
    apply yields_bind. intros b. destruct (negb b); [apply yields_bind; intros c; by apply yields_ret|].
    do 2 (apply yields_bind; intros ?). by apply yields_ret.
  - unfold settle_cancelled. do 2 (apply yields_bind; intros _). apply yields_bind. intros job.
    by apply yields_ret.
  - intros w [o c] w' Hrun.
    apply bind_inv in Hrun as [(o' & w1 & Ho & [= <- <- <-])|(e & _ & ?)]; [|done].
    revert Ho. apply (yields_bind (fun o => outcome_for (RSlept id t at_ wt) o)). intros job.
    by apply yields_ret.
Qed.

Lemma settle_result_outcome r :
  yields (fun st => outcome_for r (se_outcome st)) (settle_result cfg r).
Proof.
  assert (Hcur : forall record, yields (fun st => outcome_for r (se_outcome st))
    ('(outcome, cascaded) ← on_db (transition cfg r); mret (mkSettled outcome record cascaded))).
  { intros record [s w] st sw'. unfold on_db, mbind, M_bind.
    destruct (transition cfg r w) as [[[o c]|e] w1] eqn:Ht; [|done]. intros [= <- <-].
    by apply transition_outcome in Ht. }
  unfold settle_result. destruct r as [id res t wt|id error rc mx t wt sr to|id t wt|id t at_ wt].
  1-3: apply yields_bind; intros [record|]; [apply Hcur|by apply yields_ret].
  intros sw st sw' Hrun. apply bind_inv in Hrun as [(f & sw1 & Hf & Hrun)|(e & _ & ?)]; [|done].
  apply bind_inv in Hf as [(record & sw2 & _ & [= <- <-])|(e & _ & ?)]; [|done]. by eapply Hcur.
Qed.

(** What the first pass leaves for a result. *)
Definition slot_for (r : JobResult) (slot : Result QueueError ResultOutcome + JobCompletion) : Prop :=
  match slot with
  | inl (Ok o) => outcome_for r o /\ (forall id t wt, o <> OSuccess id t wt)
  | inl (Err _) => True
  | inr c => exists id res t wt, r = RSuccess id res t wt /\ c = mkJobCompletion id res t wt
  end.

Lemma triage_run rs sw :
  exists slots sw', triage cfg rs sw = (Ok slots, sw') /\ Forall2 slot_for rs slots.
Proof.
  revert sw. induction rs as [|r rs IH]; intros sw; [by exists [], sw|]. cbn [triage].
  match goal with |- context [@mbind _ _ _ _ ?k ?m] => set (first := m) end.
  assert (exists slot sw1, first sw = (Ok slot, sw1) /\ slot_for r slot) as (slot & sw1 & H1 & Hslot).
  { unfold first. destruct r as [id res t wt|id error rc mx t wt sr to|id t wt|id t at_ wt].
    1: unfold attempt, mbind, M_bind; destruct (authorize_finished cfg id sw) as [[[]|] sw1];
         eexists _, sw1; split; [done|by eexists _, _, _, _|done|done|done|done].
    all: match goal with |- context [settle_result cfg ?r] =>
      pose proof (settle_result_outcome r sw) as Ho; unfold attempt, mbind, M_bind;
      destruct (settle_result cfg r sw) as [[st|e] sw1] end;
      eexists _, sw1; (split; [done|]); [|done]; specialize (Ho _ _ eq_refl);
      (split; [done|]); intros i t' wt' Heq; by rewrite Heq in Ho. }
  destruct (IH sw1) as (slots & sw2 & H2 & Hall). exists (slot :: slots), sw2.
  rewrite (bind_ok _ _ _ _ _ H1), (bind_ok _ _ _ _ _ H2). split; [done|]. by constructor.
Qed.

(** What the answer to a result of a batch promises. *)
Definition settled_as (w : World) (r : JobResult) (a : Result QueueError ResultOutcome) : Prop :=
  match a with
  | Ok o =>
      outcome_for r o /\
      match r, o with
      | RSuccess id res _ _, OSuccess _ _ _ => completed_as id res w
      | _, _ => True
      end
  | Err _ => True
  end.

Lemma fill_settled w rs slots answers :
  Forall2 slot_for rs slots -> Forall2 (answered w) (completions slots) answers ->
  Forall2 (settled_as w) rs (fill slots answers).
Proof.
  intros Hs. revert answers. induction Hs as [|r slot rs slots Hslot _ IH]; intros answers Ha.
  { constructor. }
  destruct slot as [a|c]; simpl in Ha.
  - cbn [fill]. constructor; [|by apply IH]. destruct a as [o|]; [|done].
    destruct Hslot as [Ho Hne]. split; [done|]. destruct r, o; try done. by destruct (Hne _ _ _ eq_refl).
  - inversion Ha as [|? a ? answers' Hc Hrest]; subst. cbn [fill]. constructor; [|by apply IH].
    destruct Hslot as (id & res & t & wt & -> & ->). destruct a as [o|]; [|done].
    by destruct Hc as [-> Hc].
Qed.

(** C25: a batch of results gets one answer per result, in order, and each answer is about
    its own result: the same job, task and error, and an outcome that result can have.
    A success that is answered as one is in the archive as complete, with the result the
    worker reported, once the whole batch is done, whether the batch was completed in one
    transaction or fell back to one at a time. *)
Theorem batch_settled rs s w :
  scheduler_ok (s, w) ->
  exists answers s' w', handle_results cfg rs (s, w) = (Ok answers, (s', w'))
    /\ scheduler_ok (s', w') /\ Forall2 (settled_as w') rs answers.
Proof.
  intros Hok. pose proof (keeps_handle_results cfg rs (s, w) Hok) as Hok'. revert Hok'.
  pose proof (keeps_triage cfg rs (s, w) Hok) as Hok1.
  destruct (triage_run rs (s, w)) as (slots & [s1 w1] & Ht & Hslots). rewrite Ht in Hok1.
  unfold handle_results. rewrite (bind_ok _ _ _ _ _ Ht). case_bool_decide as Hcs.
  - intros Hok'. eexists _, _, _. split; [done|]. split; [exact Hok'|].
    apply fill_settled; [done|]. by rewrite Hcs.
  - destruct (complete_successes_answered (completions slots) w1 (proj2 Hok1)) as (answers & w2 & Hc & Ha).
    assert (Hdb : on_db (complete_successes cfg (completions slots)) (s1, w1) = (Ok answers, (s1, w2)))
      by (unfold on_db; by rewrite Hc).
    rewrite (bind_ok _ _ _ _ _ Hdb). intros Hok'. eexists _, _, _. split; [done|]. split; [exact Hok'|].
    by apply fill_settled.
Qed.
End batches.

(** ** Examples *)

Section examples.
#[local] Existing Instances demo_env demo_engine demo_uuid_fresh demo_scan_complete demo_base64.

Definition demo_config : SchedulerSettings := 
  mkSchedulerSettings ∅ ∅ ∅ ∅ ["default"%string] (Some "acme"%string) "a" None None.

(** The scheduler dispatched the job under the claim it took. *)
Definition dispatched : Scheduler :=
  track_in_flight demo_config "1" "mail.send" "default" 0 (Some (epoch_at 6))
    (mkScheduler no_dispatch ∅).

Lemma superseded_result_dropped_witness :
  let w := snd (retry "1" 9000 (Some "acme"%string) claimed_world) in
  exists s', settle_result demo_config (RSuccess "1" None "mail.send" 5) (dispatched, w)
    = (Ok (mkSettled (OSuperseded "1") None []), (s', bump 1 w)).
Proof.
  intros w.
  apply (superseded_result_dropped demo_config (RSuccess "1" None "mail.send" 5) dispatched w
    (mkDispatchRecord "mail.send" "default" "a" 0 (Some (epoch_at 6)))); vm_compute; reflexivity.
Defined.


Lemma batch_settled_witness :
  let rs := [RSuccess "1" (Some [x07]) "mail.send" 5; RSuccess "1" None "mail.send" 6;
             RCancelled "2" "mail.send" 7] in
  exists answers s' w', handle_results demo_config rs (dispatched, claimed_world) = (Ok answers, (s', w'))
    /\ answers !! 0%nat = Some (Ok (OSuccess "1" "mail.send" 5))
    /\ Forall2 (settled_as w') rs answers.
Proof.
  intros rs. destruct (batch_settled demo_config rs dispatched claimed_world)
    as (answers & s' & w' & Hrun & _ & Hall).
  { split; [|apply wf_claimed_world]. apply if_insert_ok; [apply no_dispatch_ok|done]. }
  exists answers, s', w'. split; [done|]. split; [|done].
  assert (Hf : (match fst (handle_results demo_config rs (dispatched, claimed_world)) with
    | Ok l => l !! 0%nat | Err _ => None end) = Some (Ok (OSuccess "1" "mail.send" 5))) by by vm_compute.
  by rewrite Hrun in Hf.
Defined.
End examples.
