(* ===== verification/System.v ===== *)
(** * The store as a transition system

    Every operation that writes the store, as a label; the worlds a sequence of them
    reaches from an empty database; and what holds of all of them.  The transactions of
    the two calls that commit twice are labels of their own, so a process that stops
    between the two, and another process that runs in between, are executions too. *)
From S2P Require Import Prelude Job Db Store Enqueue Dequeue Transitions Cascade.
From S2P Require Import Listing Stats Purge Claims Steps DeadLetter Lifecycle.

Inductive Op :=
  | OpEnqueue (nj : NewJob)
  | OpEnqueueBatch (njs : list NewJob)
  | OpEnqueueUnique (nj : NewJob)
  | OpEnqueueUniqueBatch (njs : list NewJob)
  | OpEnqueueDebounced (nj : NewJob) (o : DebounceOptions)
  | OpDequeue (queue : string) (now : Z) (ns : option string) (o : DispatchOrder)
  | OpDequeueFrom (queues : list string) (now : Z) (ns : option string) (os : gmap string
      DispatchOrder)
  | OpDequeueBatchFrom (queues : list string) (now : Z) (ns : option string) (max : nat) (os :
      gmap string DispatchOrder)
  | OpComplete (id : string) (result : option bytes) (ns : option string)
  | OpCompleteBatch (cs : list JobCompletion) (ns : option string)
  | OpFail (id error : string)
  | OpMarkCancelled (id : string) (ns : option string)
  | OpRetry (id : string) (t : Z) (ns : option string)
  | OpReschedule (id : string) (t : Z) (ns : option string)
  | OpRequeueStuck (id : string) (now : Z)
  | OpRequestCancel (id : string) (ns : option string)
  | OpUpdateProgress (id : string) (p : Z) (ns : option string)
  | OpCancelJob (id : string) (ns : option string)
  | OpCancelTxn (id : string) (now : Z) (ns : option string)
  | OpCascade (root reason : string) (ns : option string)
  | OpExpire (now : Z)
  | OpCancelQueue (queue : string)
  | OpCancelTask (task : string)
  | OpRecordError (id : string) (a : Z) (e : string) (ns : option string)
  | OpPurgeErrors (t : Z)
  | OpPurge (older : Z)
  | OpPurgeTtl (cutoff : option Z)
  | OpTrimArchive (ns : option string) (keep : Z)
  | OpAcquireLock (name owner : string) (ttl : Z)
  | OpReleaseLock (name owner : string)
  | OpExtendLock (name owner : string) (ttl : Z)
  | OpReapLocks (t : Z)
  | OpLead (name owner : string) (ttl : Z)
  | OpClaim (id owner : string)
  | OpClaimBatch (ids : list string) (owner : string)
  | OpUnclaim (id : string) (ns : option string)
  | OpReclaim (id owner owner' : string)
  | OpPurgeClaims (t : Z)
  | OpAuthorize (id owner : string) (a : Z) (epoch : option Z) (ns : option string)
  | OpAwaitSettle (id owner : string) (a : Z) (epoch : option Z) (t : Z) (ns : option string)
  | OpSettle (id : string) (c : SettleClaimant) (ns : option string)
  | OpRecordStep (s : NewJobStep) (owner : string) (a : Z) (epoch : option Z) (l : StepLimits)
      (ns : option string)
  | OpSleepJob (s : NewJobStep) (owner : string) (a : Z) (epoch : option Z) (wake : Z) (l :
      StepLimits) (ns : option string)
  | OpDeleteSteps (id : string) (ns : option string)
  | OpDeadLetter (job : Job) (error : string) (md : option string) (shed : bool)
  | OpDeadLetterTxn (job : Job) (error : string) (md : option string) (shed : bool) (now : Z)
  | OpRetryDead (id : string) (ns : option string)
  | OpPurgeDead (older : Z) (ns : option string)
  | OpPurgeDeadTask (task : string) (ns : option string)
  | OpDeleteDead (id : string) (ns : option string)
  | OpPurgeDeadTtl (cutoff : option Z)
  | OpTrimDead (ns : option string) (keep : Z).

Section system.
Context {E : Env} {G : Engine} `{!UuidFresh E} `{!ScanComplete G}.

(** A call whose answer is dropped. *)
Definition silent {A} (m : DbM A) : DbM unit := m ;; mret tt.

Definition run_op (op : Op) : DbM unit :=
  match op with
  | OpEnqueue nj => silent (enqueue nj)
  | OpEnqueueBatch njs => silent (enqueue_batch njs)
  | OpEnqueueUnique nj => silent (enqueue_unique_reporting nj)
  | OpEnqueueUniqueBatch njs => silent (enqueue_unique_batch_reporting njs)
  | OpEnqueueDebounced nj o => silent (enqueue_debounced nj o)
  | OpDequeue queue now ns o => silent (dequeue_ordered_reporting queue now ns o)
  | OpDequeueFrom queues now ns os => silent (dequeue_from_reporting queues now ns os)
  | OpDequeueBatchFrom queues now ns max os => silent (dequeue_batch_from_reporting queues now ns max os)
  | OpComplete id result ns => silent (complete id result ns)
  | OpCompleteBatch cs ns => silent (complete_batch cs ns)
  | OpFail id error => silent (fail id error)
  | OpMarkCancelled id ns => silent (mark_cancelled id ns)
  | OpRetry id t ns => silent (retry id t ns)
  | OpReschedule id t ns => silent (reschedule id t ns)
  | OpRequeueStuck id now => silent (requeue_stuck id now)
  | OpRequestCancel id ns => silent (request_cancel id ns)
  | OpUpdateProgress id p ns => silent (update_progress id p ns)
  | OpCancelJob id ns => silent (cancel_job_reporting id ns)
  | OpCancelTxn id now ns => silent (write_transaction (cancel_txn id now ns))
  | OpCascade root reason ns => silent (cascade_cancel_reporting root reason ns)
  | OpExpire now => silent (expire_pending_jobs now)
  | OpCancelQueue queue => silent (cancel_pending_by_queue queue)
  | OpCancelTask task => silent (cancel_pending_by_task task)
  | OpRecordError id a e ns => silent (record_error id a e ns)
  | OpPurgeErrors t => silent (purge_job_errors t)
  | OpPurge older => silent (purge_completed older)
  | OpPurgeTtl cutoff => silent (purge_completed_with_ttl cutoff)
  | OpTrimArchive ns keep => silent (trim_archived_over ns keep)
  | OpAcquireLock name owner ttl => silent (acquire_lock name owner ttl)
  | OpReleaseLock name owner => silent (release_lock name owner)
  | OpExtendLock name owner ttl => silent (extend_lock name owner ttl)
  | OpReapLocks t => silent (reap_expired_locks t)
  | OpLead name owner ttl => silent (try_lead name owner ttl)
  | OpClaim id owner => silent (claim_execution id owner)
  | OpClaimBatch ids owner => silent (claim_execution_batch ids owner)
  | OpUnclaim id ns => silent (complete_execution id ns)
  | OpReclaim id owner owner' => silent (reclaim_execution id owner owner')
  | OpPurgeClaims t => silent (purge_execution_claims t)
  | OpAuthorize id owner a epoch ns => silent (authorize_attempt id owner a epoch ns)
  | OpAwaitSettle id owner a epoch t ns => silent (await_settle id owner a epoch t ns)
  | OpSettle id c ns => silent (claim_settle id c ns)
  | OpRecordStep s owner a epoch l ns => silent (record_step_result s owner a epoch l ns)
  | OpSleepJob s owner a epoch wake l ns => silent (sleep_job s owner a epoch wake l ns)
  | OpDeleteSteps id ns => silent (delete_job_steps id ns)
  | OpDeadLetter job error md shed => silent (dead_letter_reporting job error md shed)
  | OpDeadLetterTxn job error md shed now => silent (write_transaction (dead_letter_in job error md shed now))
  | OpRetryDead id ns => silent (retry_dead id ns)
  | OpPurgeDead older ns => silent (purge_dead older ns)
  | OpPurgeDeadTask task ns => silent (purge_dead_by_task task ns)
  | OpDeleteDead id ns => silent (delete_dead id ns)
  | OpPurgeDeadTtl cutoff => silent (purge_dead_with_ttl cutoff)
  | OpTrimDead ns keep => silent (trim_dead_over ns keep)
  end.

(** The sweeps of the archive. *)
Definition purging (op : Op) : bool :=
  match op with
  | OpPurge _ | OpPurgeTtl _ | OpTrimArchive _ _ => true
  | _ => false
  end.

(** What an operation may do to an id that existed before it. *)
Definition lifecycle (op : Op) : relation Phase := if purging op then fade else advance.

Definition step (op : Op) (w w' : World) : Prop := w' = snd (run_op op w).

Definition any_step (w w' : World) : Prop := exists op, step op w w'.

Definition reachable (w : World) : Prop := exists n, rtc any_step (mkWorld empty_db n) w.

Lemma keeps_silent {A} I (m : DbM A) : keeps I m -> keeps I (silent m).
Proof. intros Hm. apply keeps_bind; [done|]. intros _. apply keeps_ret. Qed.

Lemma moves_silent {A} P n (m : DbM A) : moves P n m -> moves P n (silent m).
Proof. apply moves_fmap. Qed.

Lemma keeps_op op : keeps wf (run_op op).
Proof.
  destruct op; apply keeps_silent;
  [ apply keeps_enqueue | apply keeps_enqueue_batch | apply keeps_enqueue_unique_reporting |
    apply keeps_enqueue_unique_batch_reporting | apply keeps_enqueue_debounced | apply
    keeps_dequeue_ordered_reporting | apply keeps_dequeue_from_reporting | apply
    keeps_dequeue_batch_from_reporting | apply keeps_complete | apply keeps_complete_batch |
    apply keeps_fail | apply keeps_mark_cancelled | apply keeps_retry | apply keeps_reschedule |
    apply keeps_requeue_stuck | apply keeps_request_cancel | apply keeps_update_progress | apply
    keeps_cancel_job_reporting | apply keeps_write_transaction, keeps_keeps_ok,
    keeps_cancel_txn; apply _ | apply keeps_cascade_cancel_reporting | apply
    keeps_expire_pending_jobs | apply keeps_cancel_pending_by_queue | apply
    keeps_cancel_pending_by_task | apply keeps_record_error | apply keeps_purge_job_errors |
    apply keeps_purge_completed | apply keeps_purge_completed_with_ttl | apply
    keeps_trim_archived_over | apply keeps_acquire_lock | apply keeps_release_lock | apply
    keeps_extend_lock | apply keeps_reap_expired_locks | apply keeps_try_lead | apply
    keeps_claim_execution | apply keeps_claim_execution_batch | apply keeps_complete_execution |
    apply keeps_reclaim_execution | apply keeps_purge_execution_claims | apply
    keeps_authorize_attempt | apply keeps_await_settle | apply keeps_claim_settle | apply
    keeps_record_step_result | apply keeps_sleep_job | apply keeps_delete_job_steps | apply
    keeps_dead_letter | apply keeps_dead_letter_txn | apply keeps_retry_dead | apply
    keeps_purge_dead | apply keeps_purge_dead_by_task | apply keeps_delete_dead | apply
    keeps_purge_dead_with_ttl | apply keeps_trim_dead_over ].
Qed.

Lemma moves_op n op : purging op = false -> moves wf n (run_op op).
Proof.
  intros Hp. destruct op; try discriminate Hp; apply moves_silent; clear Hp;
  [ apply moves_enqueue | apply moves_enqueue_batch | apply moves_enqueue_unique | apply
    moves_enqueue_unique_batch | apply moves_enqueue_debounced | apply moves_dequeue | apply
    moves_dequeue_from | apply moves_dequeue_batch_from | apply moves_complete | apply
    moves_complete_batch | apply moves_fail | apply moves_mark_cancelled | apply moves_retry |
    apply moves_reschedule | apply moves_requeue_stuck | apply moves_request_cancel | apply
    moves_update_progress | apply moves_cancel_job | apply moves_cancel_txn | apply
    moves_cascade | exact (proj1 (moves_mass n "" "" now)) | exact (proj1 (proj2 (moves_mass n
    queue "" 0))) | exact (proj2 (proj2 (moves_mass n "" task 0))) | exact (proj1 (moves_errors
    n id a e ns 0)) | exact (proj2 (moves_errors n "" 0 "" None t)) | exact (proj1 (moves_locks
    n name owner ttl 0)) | exact (proj1 (proj2 (moves_locks n name owner 0 0))) | exact (proj1
    (proj2 (proj2 (moves_locks n name owner ttl 0)))) | exact (proj1 (proj2 (proj2 (proj2
    (moves_locks n "" "" 0 t))))) | exact (proj2 (proj2 (proj2 (proj2 (moves_locks n name owner
    ttl 0))))) | exact (proj1 (moves_claims n id [] owner "" None 0)) | exact (proj1 (proj2
    (moves_claims n "" ids owner "" None 0))) | exact (proj1 (proj2 (proj2 (moves_claims n id []
    "" "" ns 0)))) | exact (proj1 (proj2 (proj2 (proj2 (moves_claims n id [] owner owner' None
    0))))) | exact (proj2 (proj2 (proj2 (proj2 (moves_claims n "" [] "" "" None t))))) | exact
    (proj1 (moves_settle n id owner a epoch 0 Abandoned ns)) | exact (proj1 (proj2 (moves_settle
    n id owner a epoch t Abandoned ns))) | exact (proj2 (proj2 (moves_settle n id "" 0 None 0 c
    ns))) | exact (proj1 (moves_steps n s owner a epoch 0 l ns "")) | exact (proj1 (proj2
    (moves_steps n s owner a epoch wake l ns ""))) | exact (proj2 (proj2 (moves_steps n
    (mkNewJobStep "" 0 "" Run None) "" 0 None 0 default_limits ns id))) | apply
    moves_dead_letter | apply moves_dead_letter_txn | apply moves_retry_dead | exact (proj1
    (moves_dead_sweeps n older ns "" "" None 0)) | exact (proj1 (proj2 (moves_dead_sweeps n 0 ns
    task "" None 0))) | exact (proj1 (proj2 (proj2 (moves_dead_sweeps n 0 ns "" id None 0)))) |
    exact (proj1 (proj2 (proj2 (proj2 (moves_dead_sweeps n 0 None "" "" cutoff 0))))) | exact
    (proj2 (proj2 (proj2 (proj2 (moves_dead_sweeps n 0 ns "" "" None keep))))) ].
Qed.

Lemma step_along op w w' :
  wf w -> step op w w' ->
  wf w' /\ (tick w <= tick w')%nat /\ along (lifecycle op) (tick w) (db w) (db w').
Proof.
  intros Hwf ->. split; [by apply keeps_op|]. unfold lifecycle.
  destruct (purging op) eqn:Hp; [|by apply (moves_op (tick w) op Hp)].
  assert (Hs : shrunk w (snd (run_op op w))).
  { assert (H0 : shrunk w w) by done. destruct op; try discriminate Hp;
      cbn [run_op]; revert w H0 Hwf; intros w H0 Hwf; apply keeps_silent; [|done| |done| |done].
    - exact (proj1 (keeps_shrunk_purges w older None None 0)).
    - exact (proj1 (proj2 (keeps_shrunk_purges w 0 cutoff None 0))).
    - exact (proj2 (proj2 (keeps_shrunk_purges w 0 None ns keep))). }
  split; [apply Hs|]. by apply shrunk_along.
Qed.

Lemma steps_wf w w' : rtc any_step w w' -> wf w -> wf w'.
Proof.
  induction 1 as [w|w w1 w' [op Hop] _ IH]; [done|]. intros Hwf. apply IH.
  by destruct (step_along op w w1 Hwf Hop).
Qed.

Lemma reachable_inv w : reachable w -> wf w.
Proof. intros [n Hr]. apply (steps_wf _ _ Hr), wf_empty. Qed.



Lemma ended_step i a op w w' :
  wf w -> (i < tick w)%nat -> step op w w' ->
  phase (db w) (uuid_v7 i) = Ended a \/ phase (db w) (uuid_v7 i) = Absent ->
  phase (db w') (uuid_v7 i) = Ended a \/ phase (db w') (uuid_v7 i) = Absent.
Proof.
  intros Hwf Hi Hs Hp. destruct (step_along op w w' Hwf Hs) as (_ & _ & Hal).
  specialize (Hal i Hi). unfold lifecycle in Hal.
  destruct (purging op), Hp as [Hp|Hp]; rewrite Hp in Hal; inversion Hal; auto.
Qed.

End system.

(** ** Examples: a job that is enqueued, claimed and completed *)

Section examples.
#[local] Existing Instances demo_env demo_engine demo_uuid_fresh demo_scan_complete.

Definition life : list Op :=
  [ OpEnqueue (demo_new_job None None []);
    OpDequeue "default" 5000 (Some "acme"%string) Fifo;
    OpComplete "1" (Some [x07]) None ].

Definition play (ops : list Op) (w : World) : World := foldl (fun w op => snd (run_op op w)) w ops.

Lemma play_steps ops w : rtc any_step w (play ops w).
Proof.
  revert w. induction ops as [|op ops IH]; intros w; simpl; [apply rtc_refl|].
  eapply rtc_l; [by exists op|]. apply IH.
Qed.

Definition done_world : World := play life demo_world.



End examples.
