(* ===== verification/Maintenance.v ===== *)
(** * Maintenance ([scheduler/maintenance.rs], [scheduler/events.rs], [scheduler/mod.rs])

    What a scheduler does between rounds: settle the attempts that ran out of time, take over
    the jobs of workers that died, clean up as the elected leader, retry dead letters, and
    fire the schedules; each on its own count of ticks. *)
From S2P Require Import Prelude Text Job Db Store Enqueue Dequeue Transitions Cascade Purge Drain Telemetry PubSub.
From S2P Require Import Resilience Shed Claims Workers InFlight DeadLetter Retention Settings Quota Queues Sched.
From S2P Require Import Periodic Poller Lifecycle Results.

Definition ACCEPTED_NOT_SETTLED : string := "push.accepted_not_settled".
Definition TOPIC_MESSAGE_PURGE_LIMIT : Z := 10000.
Definition DLQ_RETRY_CANDIDATES : Z := 50.
Definition RETENTION_LOCK : string := "flexiq:retention".
Definition RETENTION_LOCK_TTL_MS : Z := 300000.

(** The fields of [SchedulerConfig] that concern maintenance. *)
Record MaintenanceConfig := mkMaintenanceConfig {
  mc_reap_interval : Z;
  mc_periodic_check_interval : Z;
  mc_cleanup_interval : Z;
  mc_result_ttl_ms : option Z;
  mc_retention : option RetentionConfig;
  mc_honor_retention_override : bool;
  mc_dlq_auto_retry_delay_ms : option Z;
  mc_dlq_auto_retry_max : Z;
  mc_dlq_auto_retry_interval : Z
}.

(** [SchedulerConfig::default] *)
Definition default_maintenance : MaintenanceConfig :=
  mkMaintenanceConfig 100 60 1200 None None true None 1 60.

Definition effective_retention (mc : MaintenanceConfig) : RetentionConfig :=
  resolve_effective_retention (mc_retention mc) (mc_result_ttl_ms mc).

Definition retention_is_defaulted (mc : MaintenanceConfig) : bool :=
  is_retention_defaulted (mc_retention mc) (mc_result_ttl_ms mc).

Record TickCounters := mkTickCounters {
  tk_reap : Z;
  tk_periodic : Z;
  tk_cleanup : Z;
  tk_dlq_auto_retry : Z
}.

(** [u32] counting, wrapping as a release build does: [counters.x += 1] and [is_multiple_of]. *)
Definition u32_succ (x : Z) : Z := (x + 1) mod 2 ^ 32.
Definition is_multiple_of (x n : Z) : bool := if n =? 0 then x =? 0 else x mod n =? 0.

(** A step of the scheduler's books, as a step of the poller. *)
Definition booked {A} (m : SchM A) : PollM A := fun '(p, w) =>
  let '(r, (s, w')) := m (po_scheduler p, w) in (r, (with_scheduler s p, w')).

Section maintenance.
Context {E : Env} {G : Engine} {X : Texts} {J : QuotaJson} {JR : RetentionJson} {T : Monotonic} {C : Cron} {HA : Hasher}.
Context {B : Base64} (cfg : SchedulerSettings) (mc : MaintenanceConfig).

(** ** Attempts that ran out of time *)

Definition owns_namespace (namespace : option string) : bool :=
  bool_decide (sc_namespace cfg = namespace).

Definition settle_reaped (job : Job) (result : JobResult) : SchM ResultOutcome :=
  if owns_namespace (j_namespace job) then handle_result cfg result
  else settled ← settle_result cfg result; mret (se_outcome settled).

(** The failure a sweep reports for an attempt. *)
Definition reaped_failure (job : Job) (error : string) (timed_out : bool) : JobResult :=
  RFailure (j_id job) error (j_retry_count job) (j_max_retries job) (j_task_name job) 0 true timed_out.

Definition timeout_error (stale : StaleJob) : string :=
  if sj_awaiting_settle stale then
    (ACCEPTED_NOT_SETTLED +:+ ": the target accepted this job and never settled it within "
     +:+ pretty (j_timeout_ms (sj_job stale)) +:+ "ms")%string
  else ("job timed out after " +:+ pretty (j_timeout_ms (sj_job stale)) +:+ "ms")%string.

(** The marker of an accepted dispatch is taken first; who does not get it does not settle. *)
Definition reap_one (now : Z) (stale : StaleJob) : SchM unit :=
  let job := sj_job stale in
  won ← (if sj_awaiting_settle stale then
           r ← attempt (Results.on_db (claim_settle (j_id job) (Expired now) (sc_namespace cfg)));
           mret match r with Ok Granted => true | _ => false end
         else mret true);
  if (won : bool) then
    settle_reaped job (reaped_failure job (timeout_error stale) true) ;; mret tt
  else mret tt.

(** ** Jobs of workers that died *)

Definition recover_one (x : Job * string) : SchM unit :=
  let '(job, dead_owner) := x in
  r ← attempt (Results.on_db (reclaim_execution (j_id job) dead_owner (sc_claim_owner cfg)));
  match r with
  | Ok (Some epoch) =>
      modify (fun '(s, w) => (track_in_flight cfg (j_id job) (j_task_name job) (j_queue job)
        (j_retry_count job) (Some epoch) s, w)) ;;
      logged (settle_reaped job (reaped_failure job
        ("worker " +:+ dead_owner +:+ " died; recovering in-flight job")%string false))
  | _ => mret tt
  end.

Definition recover_orphaned_jobs (now : Z) : SchM unit :=
  live ← Results.on_db (list_live_worker_ids (dead_worker_cutoff now));
  orphans ← Results.on_db (reap_orphaned_jobs (live ++ [sc_claim_owner cfg]) (sc_namespace cfg));
  for_each recover_one orphans.

(** [reap_stale], without the events it emits. *)
Definition reap_stale : SchM unit :=
  now ← Results.on_db now_millis;
  logged (Results.on_db (expire_pending_jobs now)) ;;
  logged (Results.on_db (reap_expired_locks now)) ;;
  logged (Results.on_db (purge_execution_claims (sat_sub_i64 now 3600000))) ;;
  stale_jobs ← Results.on_db (reap_stale_jobs now (sc_namespace cfg));
  for_each (reap_one now) stale_jobs ;;
  logged (recover_orphaned_jobs now).

(** ** Cleanup *)

(** A ceiling of rows for each namespace that has one; a quota that does not parse is skipped. *)
Definition trim_one (trimmed : Z) (setting : string * string) : DbM Z :=
  let '(key, raw) := setting in
  match namespace_of_quota_key key with
  | None => mret trimmed
  | Some namespace =>
      match quota_from_json raw with
      | Err _ => mret trimmed
      | Ok quota =>
          archived ← match nq_max_archived_rows quota with
            | Some keep => sweep (trim_archived_over namespace keep)
            | None => mret 0
            end;
          dead ← match nq_max_dead_rows quota with
            | Some keep => sweep (trim_dead_over namespace keep)
            | None => mret 0
            end;
          mret (trimmed + archived + dead)
      end
  end.

Definition trim_to_quotas : DbM Z :=
  r ← attempt list_settings;
  match r with
  | Err _ => mret 0
  | Ok settings => foldM trim_one 0 (map_to_list settings)
  end.

Definition publish_retention (windows : RetentionConfig) (source : RetentionSource)
    (code_windows : RetentionConfig) (now : Z) : DbM unit :=
  publish_effective_retention (sc_namespace cfg)
    (mkEffectiveRetention (negb (windows_is_empty windows))
       (bool_decide (source = Code) && retention_is_defaulted mc)
       (default DEFAULT_NAMESPACE (sc_namespace cfg)) now windows source (Some code_windows)).

(** An override that cannot be read leaves the windows of the code. *)
Definition sweep_windows (code : RetentionConfig) : DbM (RetentionConfig * RetentionSource) :=
  if negb (mc_honor_retention_override mc) then mret (code, Code)
  else
    r ← attempt (read_retention_override (sc_namespace cfg));
    mret match r with
         | Ok document =>
             match document ≫= active_windows with
             | Some windows => (windows, Dashboard)
             | None => (code, Code)
             end
         | Err _ => (code, Code)
         end.

(** [auto_cleanup], without what it logs. *)
Definition auto_cleanup : DbM unit :=
  leading ← attempt (try_lead RETENTION_LOCK (sc_claim_owner cfg) RETENTION_LOCK_TTL_MS);
  if negb (match leading with Ok b => b | Err _ => false end) then mret tt
  else
    now ← now_millis;
    let code_windows := effective_retention mc in
    '(windows, source) ← sweep_windows code_windows;
    logged (publish_retention windows source code_windows now) ;;
    purge_windows windows now ;;
    sweep (purge_topic_messages now TOPIC_MESSAGE_PURGE_LIMIT) ;;
    trim_to_quotas ;;
    mret tt.

(** ** Dead letters *)

Definition auto_retry_one (entry : DeadJob) : PollM unit :=
  if is_shed_reason (dj_error entry) then mret tt
  else logged (stored (retry_dead (dj_id entry) (sc_namespace cfg))).

(** [auto_retry_dlq], without the events it emits. *)
Definition auto_retry_dlq : PollM unit :=
  match mc_dlq_auto_retry_delay_ms mc with
  | None => mret tt
  | Some delay =>
      now ← stored now_millis;
      let cutoff := sat_sub_i64 now delay in
      queues ← active_queues cfg;
      candidates ← stored (list_dead_for_retry cutoff (mc_dlq_auto_retry_max mc) (sc_namespace cfg)
        queues DLQ_RETRY_CANDIDATES);
      for_each auto_retry_one candidates
  end.

(** ** Ticks *)

Definition when_due (due : bool) (m : PollM unit) : PollM bool :=
  if due then r ← attempt m; mret match r with Ok _ => true | Err _ => false end else mret false.

(** The answer says whether the schedules were looked at. *)
Definition tick_maintenance (counters : TickCounters) : PollM (bool * TickCounters) :=
  let reap := u32_succ (tk_reap counters) in
  let periodic := u32_succ (tk_periodic counters) in
  let cleanup := u32_succ (tk_cleanup counters) in
  when_due (is_multiple_of reap (mc_reap_interval mc)) (booked reap_stale) ;;
  had_maintenance ← when_due (is_multiple_of periodic (mc_periodic_check_interval mc))
    (quoted (check_periodic (sc_namespace cfg)));
  when_due (is_multiple_of cleanup (mc_cleanup_interval mc)) (stored auto_cleanup) ;;
  let retries := u32_succ (tk_dlq_auto_retry counters) in
  when_due (is_multiple_of retries (mc_dlq_auto_retry_interval mc)) auto_retry_dlq ;;
  mret (had_maintenance, mkTickCounters reap periodic cleanup retries).
End maintenance.

(** ** Settling one attempt *)

(** The store in order, with its dead letters under ids that were minted, and what one job is doing. *)
Definition minding (id : string) (v : option (JobRow * option ExecutionClaimRow)) {E : Env} (w : World) : Prop :=
  wf w /\ minted (tick w) (db_dead_letter (db w)) /\ running_at (db w) id = v.

Section settling.
Context {E : Env} {G : Engine} {B : Base64} `{!UuidFresh E} `{!ScanComplete G} (cfg : SchedulerSettings).
Context (id' : string) (v : option (JobRow * option ExecutionClaimRow)).

#[global] Instance minding_mono : TickMono (minding id' v).
Proof.
  intros d n n' Hn (Hwf & Hm & Hv). split_and!; [by eapply (wf_mono d n)|by eapply minted_mono|done].
Qed.
#[global] Instance minding_errors : Aside (minding id' v) job_errors.
Proof. by intros m w (? & ? & ?). Qed.
#[global] Instance minding_metrics : Aside (minding id' v) task_metrics.
Proof. by intros m w (? & ? & ?). Qed.
#[global] Instance minding_breakers : Aside (minding id' v) circuit_breakers.
Proof. by intros m w (? & ? & ?). Qed.
#[global] Instance minding_limits : Aside (minding id' v) rate_limits.
Proof. by intros m w (? & ? & ?). Qed.
#[global] Instance minding_locks : Aside (minding id' v) distributed_locks.
Proof. by intros m w (? & ? & ?). Qed.

Lemma get_job_id id ns w job w' :
  wf w -> get_job id ns w = (Ok (Some job), w') -> j_id job = id.
Proof.
  intros Hwf. unfold get_job, conn, mbind, M_bind, draw. simpl. destruct (pool_ready (tick w)); [|done].
  unfold sql_find, gets. simpl. destruct (db_jobs (db w) !! id) as [r|] eqn:Hr.
  - destruct (negb _); intros [= <- <-]. exact (wf_live_key _ _ _ _ _ Hwf _ _ Hr).
  - unfold mret, M_ret. cbn [db]. destruct (db_archived_jobs (db w) !! id) as [a|] eqn:Ha; [|done].
    destruct (job_in_namespace _ _); intros [= <- <-]. exact (wf_arch_key _ _ _ _ _ Hwf _ _ Ha).
Qed.

Lemma dead_letter_minted job error md shed w :
  wf w -> minted (tick w) (db_dead_letter (db w)) ->
  minted (tick (snd (dead_letter_reporting job error md shed w)))
    (db_dead_letter (db (snd (dead_letter_reporting job error md shed w)))).
Proof.
  intros Hwf Hm. destruct (moves_dead_letter (tick w) job error md shed w Hwf) as [Ht _]; [done|].
  destruct (dead_letter_reporting job error md shed w) as [r w'] eqn:Hrun. simpl in *.
  pose proof (dead_letter_cases _ _ _ _ _ _ _ Hwf Hm Hrun) as [_ Hc].
  destruct (pool_ready (S (tick w))) eqn:Hp; simpl in Hc.
  2:{ destruct Hc as [_ ->]. by eapply minted_mono. }
  destruct Hc as [-> _]. assert (Hlt : (2 + tick w < tick w')%nat).
  { unfold dead_letter_reporting in Hrun. erewrite bind_ok in Hrun by done.
    change (mkWorld (db w) (S (tick w))) with (bump 1 w) in Hrun.
    destruct (dead_letter_in_eq job error md shed (clock_at (tick w)) (bump 2 w) (wf_bump 2 w Hwf))
      as [Hin Hwf1]; [eapply minted_mono; [|done]; simpl; lia|].
    rewrite (bind_ok _ _ _ _ _ (write_transaction_ok _ (bump 1 w) _ _ Hp Hin)) in Hrun.
    destruct (moves_cascade (3 + tick w) (j_id job) DEPENDENCY_FAILED (j_namespace job) _ Hwf1) as [Hge _]; [simpl; lia|].
    rewrite Hrun in Hge. simpl in Hge. lia. }
  apply minted_insert; [lia|]. eapply minted_mono; [|done]. lia.
Qed.

Lemma keeps_complete_other id ns : id <> id' -> keeps (minding id' v) (complete_execution id ns).
Proof.
  intros Hid. unfold complete_execution, hidden_job, get_job. solve_keeps; try apply _.
  intros w (Hwf & Hm & Hv). split_and!; [exact Hwf|exact Hm|]. rewrite <- Hv. apply running_at_jobs; [done|].
  simpl. by rewrite lookup_delete_ne.
Qed.

Lemma keeps_move_failed_other id error job md :
  (forall job', job = Some job' -> j_id job' <> id') -> id <> id' ->
  keeps (minding id' v) (move_failed cfg id error job md).
Proof.
  intros Hjob Hid w (Hwf & Hm & Hv). destruct job as [job|]; simpl.
  - unfold move_to_dlq_reporting. destruct (dead_letter_reporting job error md false w) as [r w'] eqn:Hrun.
    pose proof (dead_letter_minted job error md false w Hwf Hm) as Hm'. rewrite Hrun in Hm'.
    destruct (shed_running _ _ _ _ _ _ _ Hwf Hrun) as (Hwf' & Hbut & _). simpl. split_and!; [done|done|].
    rewrite Hbut; [done|]. by apply not_eq_sym, Hjob.
  - assert (Hk : keeps (minding id' v) (logged (complete_execution id (sc_namespace cfg)) ;; mret (@nil Job))).
    2:{ by apply Hk. }
    apply keeps_bind; [|intros _; apply keeps_ret]. apply keeps_logged. by apply keeps_complete_other.
Qed.

Lemma keeps_retry_other id t ns : id <> id' -> keeps (minding id' v) (retry id t ns).
Proof.
  intros Hid w (Hwf & Hm & Hv). destruct (retry_cases id t ns w Hwf) as [Heq Hwf']. rewrite Heq in *.
  destruct (pool_ready (tick w)); simpl in *; [|split_and!; [done|apply (minted_mono (tick w)); [simpl; lia|done]|done]].
  destruct (db_jobs (db w) !! id) as [r|]; [destruct (job_in_namespace _ ns)|]; simpl in *;
    (split_and!; [done|apply (minted_mono (tick w)); [simpl; lia|done]|]); [|done..].
  rewrite <- Hv. apply running_at_jobs; simpl; [by rewrite lookup_insert_ne|by rewrite lookup_delete_ne].
Qed.

Lemma keeps_settle_failure_other id error rc mx t wt sr to :
  id <> id' -> keeps (minding id' v) (settle_failure cfg id error rc mx t wt sr to).
Proof.
  intros Hid. unfold settle_failure.
  apply keeps_bind; [apply keeps_logged, keeps_record_error_any; tc_solve|intros _].
  apply keeps_bind; [apply keeps_logged, keeps_record_metric; tc_solve|intros _].
  apply keeps_bind; [apply keeps_logged, keeps_record_failure; tc_solve|intros _].
  intros w Hw. pose proof (keeps_get_job (minding id' v) id (sc_namespace cfg) w Hw) as Hget.
  unfold mbind at 1, M_bind at 1. destruct (get_job id (sc_namespace cfg) w) as [[job|e] w1] eqn:Hj; [|done].
  assert (Hjob : forall job', job = Some job' -> j_id job' <> id').
  { intros job' ->. by rewrite (get_job_id _ _ _ _ _ (proj1 Hw) Hj). }
  assert (Hdead : forall md (o : ResultOutcome), keeps (minding id' v) (c ← move_failed cfg id error job md; mret (o, c))).
  { intros md o. apply keeps_bind; [by apply keeps_move_failed_other|intros c; apply keeps_ret]. }
  simpl in Hget. revert Hget. generalize w1. clear w w1 Hw Hj.
  change (keeps (minding id' v) (if negb sr then c ← move_failed cfg id error job None; mret (ODeadLettered id t (queue_of job) error to wt, c) else
    if rc <? mx then allowed ← retry_budget_allows cfg t; if negb allowed then c ← move_failed cfg id error job (Some RETRY_BUDGET_EXHAUSTED); mret (ODeadLettered id t (queue_of job) error to wt, c)
      else next_at ← next_retry_at (default default_policy (tc_retry_policy <$> sc_task_configs cfg !! t)) rc; retry id next_at (sc_namespace cfg) ;; mret (ORetry id t (queue_of job) error rc to wt, [])
    else c ← move_failed cfg id error job None; mret (ODeadLettered id t (queue_of job) error to wt, c))).
  destruct (negb sr); [done|]. destruct (rc <? mx); [|done].
  apply keeps_bind; [apply keeps_retry_budget; tc_solve|intros allowed]. destruct (negb allowed); [done|].
  apply keeps_bind; [apply keeps_next_retry_at; tc_solve|intros t0].
  apply keeps_bind; [by apply keeps_retry_other|intros _; apply keeps_ret].
Qed.
End settling.

(** ** One step of a sweep *)

(** What a sweep owes a job it is not at: the job goes on as it is, and the scheduler's memory of its
    dispatch stays or fades. *)
Definition bystander (id : string) (v : option (JobRow * option ExecutionClaimRow))
    (m : option DispatchRecord) {E : Env} (sw : Scheduler * World) : Prop :=
  minding id v (snd sw) /\ in_flight_ok (sd_in_flight (fst sw))
  /\ (last_dispatch id (sd_in_flight (fst sw)) = m \/ last_dispatch id (sd_in_flight (fst sw)) = None).

Section steps.
Context {E : Env} {G : Engine} {B : Base64} `{!UuidFresh E} `{!ScanComplete G} (cfg : SchedulerSettings).

Lemma retire_last id r id' f :
  in_flight_ok f -> if_by_job f !! id = None -> id' <> id ->
  last_dispatch id' (retire id r f) = last_dispatch id' f \/ last_dispatch id' (retire id r f) = None.
Proof.
  intros Hf Hid Hne. unfold last_dispatch. rewrite retire_by_job.
  destruct (if_by_job f !! id') as [r'|]; [by left|]. unfold retire.
  set (order := match if_retired f !! id with None => _ | Some _ => _ end).
  pose proof (trim_retired_spec order (<[id := r]> (if_retired f))) as Ht.
  destruct (trim_retired order (<[id := r]> (if_retired f))) as [order' retired']. simpl.
  destruct Ht as (_ & _ & _ & Hsub).
  { unfold order. destruct (if_retired f !! id) eqn:Hr; [apply Hf|]. apply NoDup_app. split_and!; [apply Hf| |apply NoDup_singleton].
    intros i Hi ->%list_elem_of_singleton. apply (ifo_retired f Hf) in Hi as [? ?]. congruence. }
  { intros i. rewrite lookup_insert_is_Some. unfold order. destruct (if_retired f !! id) as [r0|] eqn:Hr.
    - rewrite (ifo_retired f Hf). split; [|intros [->|[_ ?]]; [by eexists|done]].
      intros Hi. destruct (decide (id = i)); auto.
    - rewrite elem_of_app, list_elem_of_singleton, (ifo_retired f Hf). split.
      + intros [Hi| ->]; [right; split; [|done]; intros ->; destruct Hi; congruence|by left].
      + intros [->|[_ Hi]]; auto. }
  destruct (retired' !! id') as [r'|] eqn:Hr'; [|by right]. left.
  apply Hsub in Hr'. by rewrite lookup_insert_ne in Hr'.
Qed.

Lemma release_dispatch_other id id' v m : id' <> id -> keeps (bystander id' v m) (release_dispatch id).
Proof.
  intros Hne [s w] (Hmind & Hok & Hlast). unfold release_dispatch, release_in_flight, mbind, M_bind.
  pose proof (if_remove_ok id (sd_in_flight s) Hok) as Hok'. unfold if_remove in *.
  pose proof (if_take_ok id (sd_in_flight s) Hok) as Hokt.
  destruct (if_take_by_job id (sd_in_flight s)) as (Htake & Hby & Hret & _).
  destruct (if_take id (sd_in_flight s)) as [[r|] f]; simpl in *.
  - split_and!; [done|done|]. assert (Hl : last_dispatch id' f = last_dispatch id' (sd_in_flight s)).
    { unfold last_dispatch. by rewrite Hby, Hret, lookup_delete_ne. }
    destruct (retire_last id r id' f Hokt) as [Hq|Hq]; [by rewrite Hby, lookup_delete_eq|done| |by right].
    rewrite Hl in Hq. destruct Hlast as [Hlast|Hlast]; rewrite Hlast in Hq; [by left|by right].
  - split_and!; [done|done|]. assert (Hl : last_dispatch id' f = last_dispatch id' (sd_in_flight s)).
    { unfold last_dispatch. by rewrite Hby, Hret, lookup_delete_ne. }
    rewrite <- Hl in Hlast. exact Hlast.
Qed.

Lemma bystander_on_db {A} id v m (op : DbM A) :
  keeps (minding id v) op -> keeps (bystander id v m) (Results.on_db op).
Proof.
  intros Hk [s w] (Hm & Hok & Hl). specialize (Hk w Hm). unfold Results.on_db. destruct (op w) as [r w'].
  by split_and!.
Qed.

Lemma settle_reaped_eq job result :
  settle_reaped cfg job result = (settled ← settle_result cfg result; mret (se_outcome settled)).
Proof. unfold settle_reaped, handle_result. by destruct (owns_namespace _ _). Qed.

Lemma settle_reaped_other job error to id' v m :
  id' <> j_id job -> keeps (bystander id' v m) (settle_reaped cfg job (reaped_failure job error to)).
Proof.
  intros Hne. rewrite settle_reaped_eq. apply keeps_bind; [|intros ?; apply keeps_ret].
  unfold settle_result, reaped_failure. apply keeps_bind.
  - unfold authorize_finished. apply keeps_bind; [by apply release_dispatch_other|].
    intros [rec|]; [|apply keeps_ret]. apply keeps_bind.
    + apply keeps_attempt, bystander_on_db. unfold authorize_attempt, resolve_attempt_fence. solve_keeps.
    + intros [[]|]; apply keeps_ret.
  - intros [record|]; [|apply keeps_ret]. apply keeps_bind.
    + apply bystander_on_db. by apply keeps_settle_failure_other, not_eq_sym.
    + intros [o c]. apply keeps_ret.
Qed.
End steps.

(** ** The timed-out attempts *)

(** The store and the scheduler's book in order. *)
Definition orderly {E : Env} (sw : Scheduler * World) : Prop :=
  wf (snd sw) /\ minted (tick (snd sw)) (db_dead_letter (db (snd sw))) /\ in_flight_ok (sd_in_flight (fst sw)).

Section timeouts.
Context {E : Env} {G : Engine} {B : Base64} `{!UuidFresh E} `{!ScanComplete G} (cfg : SchedulerSettings).

Lemma other_id id : String Ascii.zero id <> id.
Proof. intros Hx%(f_equal String.length). simpl in Hx. lia. Qed.

Lemma orderly_bystander id sw :
  orderly sw -> bystander id (running_at (db (snd sw)) id) (last_dispatch id (sd_in_flight (fst sw))) sw.
Proof. intros (? & ? & ?). split_and!; [done|done|by left]. Qed.

Lemma bystander_orderly id v m sw : bystander id v m sw -> orderly sw.
Proof. intros ((? & ? & ?) & ? & _). by split_and!. Qed.

(** The scheduler remembers no dispatch of the job, or one that the job is still running as. *)
Definition unmoved (id : string) (sw : Scheduler * World) : Prop :=
  forall r, last_dispatch id (sd_in_flight (fst sw)) = Some r -> still_speaks cfg (db (snd sw)) id r = true.

Lemma still_speaks_running d d' id r :
  running_at d' id = running_at d id -> still_speaks cfg d' id r = still_speaks cfg d id r.
Proof.
  unfold still_speaks, attempt_current, claim_allows, running_at.
  destruct (db_jobs d' !! id) as [r1|], (db_jobs d !! id) as [r2|]; simpl; try done;
    repeat match goal with |- context[jr_status ?x =? ?y] => destruct (jr_status x =? y) end;
    rewrite ?andb_false_r; simpl; try done; intros [= -> ->]; done.
Qed.

Lemma bystander_unmoved id v m sw sw' :
  bystander id v m sw -> last_dispatch id (sd_in_flight (fst sw)) = m -> bystander id v m sw' ->
  unmoved id sw -> unmoved id sw'.
Proof.
  intros ((_ & _ & Hv) & _) Hm ((_ & _ & Hv') & _ & Hl) Hu r Hr. destruct Hl as [Hl|Hl]; [|congruence].
  rewrite (still_speaks_running (db (snd sw))) by congruence. apply Hu. congruence.
Qed.

(** The fence, whatever the state of the connections. *)
Lemma authorize_finished_any id s w :
  exists f s' w', authorize_finished cfg id (s, w) = (Ok f, (s', w')) /\ db w' = db w /\ (tick w <= tick w')%nat
    /\ match f with
       | Current _ => True
       | Moved => exists r, last_dispatch id (sd_in_flight s) = Some r /\ still_speaks cfg (db w) id r = false
       end.
Proof.
  destruct (pool_ready (tick w)) eqn:Hp.
  - destruct (authorize_finished_run cfg id s w Hp) as [s' Ha].
    destruct (last_dispatch id (sd_in_flight s)) as [r|].
    + destruct (still_speaks cfg (db w) id r) eqn:Hs; eexists _, s', _; (split; [exact Ha|]); simpl; split_and!; eauto.
    + by eexists _, s', _.
  - destruct (release_dispatch_run id s w) as [s' Hrel].
    unfold authorize_finished. rewrite (bind_ok _ _ _ _ _ Hrel).
    destruct (last_dispatch id (sd_in_flight s)) as [r|]; [|by eexists _, s', _].
    eexists _, s', (bump 1 w). split.
    + unfold attempt, Results.on_db, mbind, M_bind, authorize_attempt. by rewrite (bind_err _ _ _ _ _ (conn_err w Hp)).
    + simpl. split_and!; [done|lia|done].
Qed.

Lemma settle_reaped_self job error to s w r s' w' row c :
  orderly (s, w) -> running_at (db w) (j_id job) = Some (row, c) ->
  job_in_namespace (jr_namespace row) (sc_namespace cfg) = true ->
  settle_reaped cfg job (reaped_failure job error to) (s, w) = (r, (s', w')) ->
  orderly (s', w')
  /\ match r with
     | Ok _ => unmoved (j_id job) (s, w) -> running_at (db w') (j_id job) = None
     | Err e => e = Pool
     end.
Proof.
  intros Hord Hrun Hns Heq. split.
  { pose proof (settle_reaped_other cfg job error to (String Ascii.zero (j_id job)) _ _ (other_id _) _ (orderly_bystander _ _ Hord)) as Hb.
    rewrite Heq in Hb. by apply bystander_orderly in Hb. }
  rewrite settle_reaped_eq in Heq. unfold settle_result in Heq. cbn [reaped_failure result_job_id] in Heq.
  destruct (authorize_finished_any (j_id job) s w) as (f & s1 & w1 & Ha & Hdb & Ht & Hf).
  unfold mbind, M_bind in Heq. rewrite Ha in Heq. destruct f as [rec|].
  2:{ injection Heq as <- <- <-. intros Hu. destruct Hf as (r & Hl & Hs). specialize (Hu r Hl). simpl in Hu. congruence. }
  destruct Hord as (Hwf & Hm & _). destruct (running_row _ _ _ _ Hrun) as (Hrow & Hst & _). simpl in *.
  assert (Hwf1 : wf w1) by (destruct w1; simpl in *; subst; by eapply wf_mono).
  assert (Hid : jr_id row = j_id job) by exact (wf_live_key _ _ _ _ _ Hwf _ _ Hrow).
  unfold Results.on_db in Heq.
  match type of Heq with context[settle_failure ?a ?b ?c ?d ?e ?f ?g ?h ?i w1] =>
    destruct (settle_failure a b c d e f g h i w1) as [[[o cs]|err] w2] eqn:Htr end;
    pose proof (settle_failure_cases cfg _ _ _ _ _ _ _ _ row w1 _ _ Hwf1
      ltac:(rewrite Hdb; by eapply minted_mono) ltac:(by rewrite Hdb) Hns Htr) as Hout;
    injection Heq as <- <- <-; simpl in Hout; [|by destruct Hout].
  intros _. unfold running_at. rewrite <- Hid. destruct o; try done.
  - destruct Hout as (_ & _ & _ & (t & ->) & _). done.
  - by destruct Hout as (_ & -> & _).
Qed.
End timeouts.

Section reaping.
Context {E : Env} {G : Engine} {B : Base64} `{!UuidFresh E} `{!ScanComplete G} (cfg : SchedulerSettings).

Lemma keeps_claim_settle_other id id' v claimant ns :
  id' <> id -> keeps (minding id' v) (claim_settle id claimant ns).
Proof.
  intros Hne.
  assert (Hup : keeps (minding id' v) (sql_update execution_claims id (may_settle claimant) (ec_with_settle_deadline_ms None))).
  { intros w (Hwf & Hm & Hv). unfold sql_update. simpl.
    destruct (db_execution_claims (db w) !! id) as [c|]; [|done]. destruct (may_settle _ _); [|done].
    split_and!; [done|done|]. rewrite <- Hv. apply running_at_jobs; [done|]. simpl. by rewrite lookup_insert_ne. }
  unfold claim_settle. solve_keeps.
Qed.

Lemma reap_one_other now stale id' v m :
  id' <> j_id (sj_job stale) -> keeps (bystander id' v m) (reap_one cfg now stale).
Proof.
  intros Hne. unfold reap_one. apply keeps_bind.
  - destruct (sj_awaiting_settle stale); [|apply keeps_ret]. apply keeps_bind; [|intros ?; apply keeps_ret].
    apply keeps_attempt, bystander_on_db. by apply keeps_claim_settle_other.
  - intros [|]; [|apply keeps_ret]. apply keeps_bind; [by apply settle_reaped_other|intros ?; apply keeps_ret].
Qed.

(** The claim of a job changes hands or its marker; the job runs on. *)
Lemma claim_settle_runs id claimant ns w row c r w' :
  running_at (db w) id = Some (row, c) -> claim_settle id claimant ns w = (r, w') ->
  exists c', running_at (db w') id = Some (row, c').
Proof.
  intros Hrun Heq. destruct (running_row _ _ _ _ Hrun) as (Hrow & Hst & _).
  assert (Hk : keeps (Db.on_db (fun d => db_jobs d = db_jobs (db w))) (claim_settle id claimant ns)).
  { assert (Aside (Db.on_db (fun d => db_jobs d = db_jobs (db w))) execution_claims) by by intros m w0.
    unfold claim_settle. solve_keeps. }
  specialize (Hk w eq_refl). rewrite Heq in Hk. unfold Db.on_db in Hk. simpl in Hk.
  eexists. apply running_at_row; [by rewrite Hk|done].
Qed.

Lemma reap_one_self now stale s w r s' w' row c :
  orderly (s, w) -> running_at (db w) (j_id (sj_job stale)) = Some (row, c) ->
  job_in_namespace (jr_namespace row) (sc_namespace cfg) = true ->
  reap_one cfg now stale (s, w) = (r, (s', w')) ->
  orderly (s', w')
  /\ match r with
     | Ok _ => sj_awaiting_settle stale = false -> unmoved cfg (j_id (sj_job stale)) (s, w) ->
               running_at (db w') (j_id (sj_job stale)) = None
     | Err e => e = Pool
     end.
Proof.
  intros Hord Hrun Hns. unfold reap_one.
  assert (Hsettle : forall s1 w1 c1, orderly (s1, w1) -> running_at (db w1) (j_id (sj_job stale)) = Some (row, c1) ->
    (settle_reaped cfg (sj_job stale) (reaped_failure (sj_job stale) (timeout_error stale) true) ;; mret tt) (s1, w1)
      = (r, (s', w')) ->
    orderly (s', w') /\ match r with
      | Ok _ => unmoved cfg (j_id (sj_job stale)) (s1, w1) -> running_at (db w') (j_id (sj_job stale)) = None
      | Err e => e = Pool end).
  { intros s1 w1 c1 Hord1 Hrun1 [(o & [s2 w2] & H1 & [= <- <- <-])|(e & H1 & ->)]%bind_inv;
      exact (settle_reaped_self cfg _ _ _ _ _ _ _ _ _ _ Hord1 Hrun1 Hns H1). }
  destruct (sj_awaiting_settle stale) eqn:Haw.
  - unfold mbind at 1, M_bind at 1. unfold mbind at 1, M_bind at 1. unfold attempt, Results.on_db.
    destruct (claim_settle (j_id (sj_job stale)) (Expired now) (sc_namespace cfg) w) as [x w1] eqn:Hc.
    destruct (claim_settle_runs _ _ _ _ _ _ _ _ Hrun Hc) as [c1 Hrun1].
    assert (Hord1 : orderly (s, w1)).
    { pose proof (bystander_on_db (String Ascii.zero (j_id (sj_job stale))) _ _ _
        (keeps_claim_settle_other (j_id (sj_job stale)) _ _ (Expired now) (sc_namespace cfg) (other_id _)) _ (orderly_bystander _ _ Hord)) as Hb.
      unfold Results.on_db in Hb. rewrite Hc in Hb. by apply bystander_orderly in Hb. }
    cbn. intros Heq.
    assert (Hres : orderly (s', w') /\ match r with Ok _ => True | Err e => e = Pool end).
    { destruct x as [[]|]; [|injection Heq as <- <- <-; done..].
      destruct (Hsettle s w1 c1 Hord1 Hrun1 Heq) as [? Hr]. split; [done|]. by destruct r. }
    destruct Hres as [? Hr]. split; [done|]. by destruct r.
  - intros Heq. destruct (Hsettle s w c Hord Hrun Heq) as [? Hr]. split; [done|]. by destruct r.
Qed.
End reaping.

(** ** The claims of a sweep *)

(** What settling attempts does not read and the claims it only removes. *)
Section beside_claims.
Context {E : Env} {G : Engine} {B : Base64} (cfg : SchedulerSettings) (I : World -> Prop).
Context `{!TickMono I} `{!Aside I jobs} `{!Aside I archived_jobs} `{!Aside I job_steps} `{!Aside I dead_letter}.
Context `{!Aside I job_errors} `{!Aside I task_metrics} `{!Aside I circuit_breakers} `{!Aside I rate_limits}.
Context (Hdel : forall id, keeps I (sql_delete_pk execution_claims id)).

Lemma keeps_archive_row_any row : keeps I (archive_job_row row).
Proof. unfold archive_job_row. solve_keeps. Qed.

Lemma keeps_dead_letter_any job error md shed : keeps I (dead_letter_reporting job error md shed).
Proof.
  pose proof keeps_archive_row_any as Har. unfold dead_letter_reporting, dead_letter_in, cascade_cancel_reporting.
  apply keeps_bind; [solve_keeps|intros now]. apply keeps_bind; [solve_keeps|intros _].
  repeat (apply keeps_bind; [first [apply keeps_bfs|solve_keeps]|intros ?]). case_match; solve_keeps.
Qed.

Lemma keeps_settle_failure_any id error rc mx t wt sr to :
  keeps I (settle_failure cfg id error rc mx t wt sr to).
Proof.
  assert (Hmove : forall job md, keeps I (move_failed cfg id error job md)).
  { intros [job|] md; [apply keeps_dead_letter_any|]. unfold move_failed. apply keeps_bind; [|intros _; apply keeps_ret].
    apply keeps_logged. unfold complete_execution, hidden_job. solve_keeps. }
  assert (Hretry : forall t0, keeps I (retry id t0 (sc_namespace cfg))) by (intros t0; unfold retry; solve_keeps).
  unfold settle_failure.
  apply keeps_bind; [apply keeps_logged, keeps_record_error_any; tc_solve|intros _].
  apply keeps_bind; [apply keeps_logged, keeps_record_metric; tc_solve|intros _].
  apply keeps_bind; [apply keeps_logged, keeps_record_failure; tc_solve|intros _].
  apply keeps_bind; [apply keeps_get_job; tc_solve|intros job].
  destruct (negb sr); [apply keeps_bind; [done|intros ?; apply keeps_ret]|].
  destruct (rc <? mx); [|apply keeps_bind; [done|intros ?; apply keeps_ret]].
  apply keeps_bind; [apply keeps_retry_budget; tc_solve|intros allowed].
  destruct (negb allowed); [apply keeps_bind; [done|intros ?; apply keeps_ret]|].
  apply keeps_bind; [apply keeps_next_retry_at; tc_solve|intros t0].
  apply keeps_bind; [done|intros _; apply keeps_ret].
Qed.

End beside_claims.

(** A whole step does to the store what settling the failure does: the scheduler's book does
    not matter. *)
Lemma settle_reaped_lift {E : Env} {G : Engine} {B : Base64} (cfg : SchedulerSettings)
    (I : World -> Prop) `{!TickMono I} job error to :
  keeps I (settle_failure cfg (j_id job) error (j_retry_count job) (j_max_retries job) (j_task_name job) 0 true to) ->
  keeps (fun sw => I (snd sw)) (settle_reaped cfg job (reaped_failure job error to)).
Proof.
  intros Hs. rewrite settle_reaped_eq. apply keeps_bind; [|intros ?; apply keeps_ret].
  unfold settle_result, reaped_failure. apply keeps_bind.
  - unfold authorize_finished. apply keeps_bind.
    + intros [s w] Hw. cbn [result_job_id]. destruct (release_dispatch_run (j_id job) s w) as [s' ->]. done.
    + intros [rec|]; [|apply keeps_ret]. apply keeps_bind; [|intros [[]|]; apply keeps_ret].
      apply keeps_attempt, keeps_on_db. unfold authorize_attempt, resolve_attempt_fence. solve_keeps.
  - intros [record|]; [|apply keeps_ret]. apply keeps_bind; [|intros [o c]; apply keeps_ret].
    by apply keeps_on_db.
Qed.

(** ** The sweep as a whole *)

(** The heartbeats stand, and whoever holds a claim on the job is one of [L]. *)
Definition guarded (id : string) (L : list string) (X : gmap string WorkerRow) (w : World) : Prop :=
  db_workers (db w) = X
  /\ forall k c, db_execution_claims (db w) !! k = Some c -> ec_job_id c = id -> ec_worker_id c ∈ L.

#[export] Instance guarded_mono id L X : TickMono (guarded id L X). Proof. by intros d n n'. Qed.
#[export] Instance guarded_jobs id L X : Aside (guarded id L X) jobs. Proof. by intros m w. Qed.
#[export] Instance guarded_archived id L X : Aside (guarded id L X) archived_jobs. Proof. by intros m w. Qed.
#[export] Instance guarded_steps id L X : Aside (guarded id L X) job_steps. Proof. by intros m w. Qed.
#[export] Instance guarded_dead id L X : Aside (guarded id L X) dead_letter. Proof. by intros m w. Qed.
#[export] Instance guarded_errors id L X : Aside (guarded id L X) job_errors. Proof. by intros m w. Qed.
#[export] Instance guarded_metrics id L X : Aside (guarded id L X) task_metrics. Proof. by intros m w. Qed.
#[export] Instance guarded_breakers id L X : Aside (guarded id L X) circuit_breakers. Proof. by intros m w. Qed.
#[export] Instance guarded_limits id L X : Aside (guarded id L X) rate_limits. Proof. by intros m w. Qed.
#[export] Instance guarded_locks id L X : Aside (guarded id L X) distributed_locks. Proof. by intros m w. Qed.

Lemma keeps_and {S E A} (I J : S -> Prop) (m : M S E A) : keeps I m -> keeps J m -> keeps (fun s => I s /\ J s) m.
Proof. intros HI HJ s [??]. by split; [apply HI|apply HJ]. Qed.

Section sweeping.
Context {E : Env} {G : Engine} {B : Base64} `{!UuidFresh E} `{!ScanComplete G} (cfg : SchedulerSettings).

Lemma guarded_delete_pk id L X k : keeps (guarded id L X) (sql_delete_pk execution_claims k).
Proof.
  intros w [HX HL]. split; [done|]. intros k' c. simpl. intros [_ Hc]%lookup_delete_Some. by eapply HL.
Qed.

Lemma guarded_claim_settle id L X id' claimant ns : keeps (guarded id L X) (claim_settle id' claimant ns).
Proof.
  assert (Hup : keeps (guarded id L X) (sql_update execution_claims id' (may_settle claimant) (ec_with_settle_deadline_ms None))).
  { intros w [HX HL]. unfold sql_update. simpl. destruct (db_execution_claims (db w) !! id') as [c|] eqn:Hc; [|done].
    destruct (may_settle _ _); [|done]. split; [done|]. intros k' c'. simpl.
    intros [[<- <-]|[_ ?]]%lookup_insert_Some; [|by eapply HL]. simpl. by eapply HL. }
  unfold claim_settle. solve_keeps.
Qed.

Lemma guarded_reap_one id L X now stale : keeps (fun sw => guarded id L X (snd sw)) (reap_one cfg now stale).
Proof.
  unfold reap_one. apply keeps_bind.
  - destruct (sj_awaiting_settle stale); [|apply keeps_ret]. apply keeps_bind; [|intros ?; apply keeps_ret].
    apply keeps_attempt, keeps_on_db, guarded_claim_settle.
  - intros [|]; [|apply keeps_ret]. apply keeps_bind; [|intros ?; apply keeps_ret].
    apply settle_reaped_lift; [tc_solve|]. apply keeps_settle_failure_any; try tc_solve. apply guarded_delete_pk.
Qed.

(** Archiving pending rows leaves what is running. *)
Lemma archive_effect_running f rows d d' :
  archive_effect f rows d d' ->
  Forall (fun r => db_jobs d !! jr_id r = Some r /\ jr_status r = as_int Pending) rows ->
  forall id, running_at d' id = running_at d id.
Proof.
  intros (He1 & He2 & _ & He4) Hrows id. rewrite Forall_forall in Hrows.
  destruct (decide (id ∈ jr_id <$> rows)) as [(row & -> & Hrow)%list_elem_of_fmap|Hn].
  - destruct (Hrows row Hrow) as [Hl Hs]. rewrite (not_running _ _ _ Hl Hs).
    unfold running_at. by rewrite (proj1 (He1 _ Hrow)).
  - apply running_at_jobs; [apply (He2 _ Hn)|by apply He4].
Qed.

(** A sweep over pending rows, in terms of one of its batches. *)
Lemma keeps_expire I `{!TickMono I} now :
  keeps_ok I (rows ← sql_select jobs (fun r => (jr_status r =? as_int Pending) && opt_lt (jr_expires_at r) now);
              archive_pending_rows (sql_limit MASS_ARCHIVE_BATCH rows) now EXPIRED) ->
  keeps I (expire_pending_jobs now).
Proof.
  intros Hb. apply keeps_bind; [apply keeps_gets|]. intros fuel.
  apply keeps_bind; [|intros; apply keeps_ret]. generalize 0 as total.
  induction fuel as [|fuel IH]; intros total; cbn [archive_loop]; [apply keeps_ret|].
  apply keeps_bind; [apply keeps_write_transaction; [apply _|exact Hb]|].
  intros rows. apply keeps_bind; [case_match; apply keeps_ret|]. intros _. case_match; [apply keeps_ret|apply IH].
Qed.

Lemma running_expire id v now :
  keeps (fun w => wf w /\ running_at (db w) id = v) (expire_pending_jobs now).
Proof.
  apply keeps_expire.
  { intros d n n' Hn [Hwf Hv]. split; [by eapply (wf_mono d n)|done]. }
  intros w [Hwf Hv]. apply wp_bind. unfold wp at 1. simpl. set (p := fun r : JobRow => (jr_status r =? as_int Pending) && opt_lt (jr_expires_at r) now).
  destruct (selected_rows p w Hwf) as (Hnd & _ & Hin).
  set (rows := sql_limit MASS_ARCHIVE_BATCH (filter (fun r => Is_true (p r)) (scan (db_jobs (db w))))).
  destruct (archive_rows_eq (fun r => r) (cancelled_row now (Some EXPIRED)) rows w Hwf)
    as (w' & Heq & Hwf' & _ & Heff).
  - apply ends_cancelled.
  - eapply sublist_NoDup; [exact Hnd|]. apply fmap_sublist, sql_limit_sublist.
  - apply Forall_forall. intros r Hr%sql_limit_elem_of. by apply Hin.
  - unfold wp, archive_pending_rows. unfold rows, p in Heq. cbn beta in Heq. rewrite Heq. split; [done|]. rewrite <- Hv.
    eapply archive_effect_running; [exact Heff|]. apply Forall_forall. intros r Hr%sql_limit_elem_of.
    apply Hin in Hr as [Hr Hp]. split; [done|]. unfold p in Hp. apply andb_prop in Hp as [Hp _]. by apply Z.eqb_eq.
Qed.

(** Everything else about the archived rows. *)
Lemma keeps_expire_any I `{!TickMono I, !Aside I jobs, !Aside I archived_jobs, !Aside I job_steps} now :
  (forall id, keeps I (sql_delete_pk execution_claims id)) -> keeps I (expire_pending_jobs now).
Proof.
  intros Hdel. apply keeps_expire; [done|]. apply keeps_keeps_ok. unfold archive_pending_rows, archive_job_row. solve_keeps.
Qed.
End sweeping.

Section whole.
Context {E : Env} {G : Engine} {B : Base64} `{!UuidFresh E} `{!ScanComplete G} (cfg : SchedulerSettings).

(** Past its deadline, and this scheduler's to settle. *)
Definition overdue (now : Z) (row : JobRow) : bool :=
  past_deadline now row && job_in_namespace (jr_namespace row) (sc_namespace cfg).

(** A job the sweep may still settle. *)
Definition staged (w : World) (now : Z) (stale : StaleJob) : Prop :=
  exists row c, running_at (db w) (j_id (sj_job stale)) = Some (row, c) /\ overdue now row = true.

Lemma omap_sublist_key {A C K} (f : A -> option C) (ka : A -> K) (kc : C -> K) (l : list A) :
  (forall a c, f a = Some c -> kc c = ka a) -> (kc <$> omap f l) `sublist_of` (ka <$> l).
Proof.
  intros Hf. induction l as [|a l IH]; [constructor|]. cbn [omap list_omap fmap list_fmap].
  destruct (f a) as [c|] eqn:Hfa; simpl; [rewrite (Hf _ _ Hfa); by constructor|by constructor].
Qed.

Lemma reap_stale_jobs_run now w r w' :
  wf w -> reap_stale_jobs now (sc_namespace cfg) w = (r, w') ->
  db w' = db w /\ (tick w <= tick w')%nat
  /\ match r with
     | Err e => e = Pool
     | Ok stales =>
         NoDup ((fun st => j_id (sj_job st)) <$> stales) /\ Forall (staged w now) stales
         /\ forall id row c, running_at (db w) id = Some (row, c) -> overdue now row = true ->
              (forall k c', db_execution_claims (db w) !! k = Some c' -> ec_job_id c' = id ->
                            ec_settle_deadline_ms c' = None) ->
              exists st, st ∈ stales /\ j_id (sj_job st) = id /\ sj_awaiting_settle st = false
     end.
Proof.
  intros Hwf. unfold reap_stale_jobs. destruct (pool_ready (tick w)) eqn:Hp.
  2:{ rewrite (bind_err _ _ _ _ _ (conn_err w Hp)). intros [= <- <-]. simpl. split_and!; [done|lia|done]. }
  rewrite (bind_ok _ _ _ _ _ (conn_ok w Hp)). erewrite bind_ok by done. cbn [db bump jobs t_get].
  set (p := fun r : JobRow => (jr_status r =? as_int Running) && past_deadline now r
    && job_in_namespace (jr_namespace r) (sc_namespace cfg)).
  change (filter (fun r0 : JobRow => Is_true _) (scan (db_jobs (db w))))
    with (filter (fun r => Is_true (p r)) (scan (db_jobs (db w)))).
  destruct (selected_rows p w Hwf) as (Hnd & _ & Hin). set (rows := filter _ _) in *.
  assert (Hrow : forall row, row ∈ rows ->
    running_at (db w) (jr_id row) = Some (row, db_execution_claims (db w) !! jr_id row) /\ overdue now row = true).
  { intros row [Hl Hpr]%Hin. unfold p in Hpr. rewrite !andb_true_iff, Z.eqb_eq in Hpr. destruct Hpr as [[Hs Hd] Hn].
    split; [by apply running_at_row|]. unfold overdue. by rewrite Hd, Hn. }
  assert (Hmem : forall id row c, running_at (db w) id = Some (row, c) -> overdue now row = true ->
    row ∈ rows /\ jr_id row = id).
  { intros id row c (Hl & Hs & _)%running_row Ho. pose proof (wf_live_key _ _ _ _ _ Hwf _ _ Hl) as Hid. split; [|done].
    apply Hin. rewrite Hid. split; [done|]. unfold p. unfold overdue in Ho. by rewrite Hs, <- andb_assoc, Ho. }
  case_bool_decide as Hnil.
  { intros [= <- <-]. simpl. split_and!; [done|lia|constructor|constructor|].
    intros id row c Hr Ho _. destruct (Hmem _ _ _ Hr Ho) as [Hrin _]. destruct rows; [|done]. by apply elem_of_nil in Hrin. }
  erewrite bind_ok by done. cbn [db bump execution_claims t_get]. set (markers := filter _ (scan (db_execution_claims (db w)))).
  set (awaiting := list_to_map _). intros [= <- <-]. simpl. split_and!; [done|lia| | |].
  - eapply sublist_NoDup; [exact Hnd|]. eapply (omap_sublist_key _ jr_id). intros row st. destruct (awaiting !! jr_id row) as [d|].
    + destruct (now <? d); intros [= <-]. done.
    + by intros [= <-].
  - apply Forall_forall. intros st (row & Hr & Hst)%list_elem_of_omap. destruct (Hrow row Hr) as [Hrun Ho].
    assert (Hid : j_id (sj_job st) = jr_id row).
    { destruct (awaiting !! jr_id row) as [d|]; [destruct (now <? d)|]; by simplify_eq. }
    exists row, (db_execution_claims (db w) !! jr_id row). by rewrite Hid.
  - intros id row c Hr Ho Hno. destruct (Hmem _ _ _ Hr Ho) as [Hrin <-].
    assert (Hnone : awaiting !! jr_id row = None).
    { destruct (awaiting !! jr_id row) as [d|] eqn:Ha; [|done]. exfalso.
      apply elem_of_list_to_map_2, list_elem_of_omap in Ha as (c' & Hc' & Hd).
      unfold markers in Hc'. rewrite list_elem_of_filter, elem_of_scan in Hc'. destruct Hc' as [_ [k Hk]].
      destruct (ec_settle_deadline_ms c') as [d'|] eqn:Hs; [|done]. injection Hd as Hid _.
      by rewrite (Hno k c' Hk Hid) in Hs. }
    exists (mkStaleJob (from_narrow (narrow row) [] None) false). split_and!; [|done|done].
    apply list_elem_of_omap. exists row. split; [done|]. by rewrite Hnone.
Qed.
End whole.

Section whole_sweep.
Context {E : Env} {G : Engine} {B : Base64} `{!UuidFresh E} `{!ScanComplete G} (cfg : SchedulerSettings).

(** The loop over the timed-out attempts settles each, and its only error is a missing connection. *)
Lemma reap_loop now stales s w r s' w' :
  orderly (s, w) -> NoDup ((fun st => j_id (sj_job st)) <$> stales) -> Forall (staged cfg w now) stales ->
  for_each (reap_one cfg now) stales (s, w) = (r, (s', w')) ->
  orderly (s', w') /\ (r = Ok tt \/ r = Err Pool)
  /\ (r = Ok tt -> forall st, st ∈ stales -> sj_awaiting_settle st = false ->
        unmoved cfg (j_id (sj_job st)) (s, w) -> running_at (db w') (j_id (sj_job st)) = None).
Proof.
  revert s w. induction stales as [|st stales IH]; intros s w Hord Hnd Hst Hrun.
  { injection Hrun as <- <- <-. split_and!; [done|by left|]. by intros _ st ?%elem_of_nil. }
  rewrite fmap_cons in Hnd. apply NoDup_cons in Hnd as [Hnin Hnd]. apply Forall_cons in Hst as [(row & c & Hr & Ho) Hst].
  cbn [for_each] in Hrun. unfold overdue in Ho. apply andb_prop in Ho as [_ Hns].
  destruct (reap_one cfg now st (s, w)) as [r1 [s1 w1]] eqn:H1.
  destruct (reap_one_self cfg now st s w r1 s1 w1 row c Hord Hr Hns H1) as [Hord1 Hself].
  destruct r1 as [[]|e]; [rewrite (bind_ok _ _ _ _ _ H1) in Hrun|].
  2:{ rewrite (bind_err _ _ _ _ _ H1) in Hrun. injection Hrun as <- <- <-. subst e. split_and!; [done|by right|done]. }
  assert (Hother : forall id, id <> j_id (sj_job st) ->
    bystander id (running_at (db w) id) (last_dispatch id (sd_in_flight s)) (s1, w1)).
  { intros id Hne. pose proof (reap_one_other cfg now st id _ _ Hne _ (orderly_bystander id _ Hord)) as Hb. by rewrite H1 in Hb. }
  assert (Hne : forall st', st' ∈ stales -> j_id (sj_job st') <> j_id (sj_job st)).
  { intros st' Hin Heq. apply Hnin. rewrite <- Heq. by apply (list_elem_of_fmap_2 (fun st => j_id (sj_job st))). }
  destruct (IH s1 w1 Hord1 Hnd) as (Hord' & Hr' & Hdone); [|done|].
  { apply Forall_forall. intros st' Hin. rewrite Forall_forall in Hst. destruct (Hst st' Hin) as (row' & c' & Hr' & Ho').
    exists row', c'. destruct (Hother _ (Hne _ Hin)) as ((_ & _ & Hv) & _). simpl in Hv. by rewrite Hv. }
  split_and!; [done|done|]. intros Hok st' Hin Haw Hu. apply elem_of_cons in Hin as [->|Hin].
  - specialize (Hself Haw Hu). clear IH Hdone Hr' Hother Hst Hord H1. subst r.
    assert (Hk : keeps (bystander (j_id (sj_job st)) None (last_dispatch (j_id (sj_job st)) (sd_in_flight s1)))
      (for_each (reap_one cfg now) stales)).
    { apply keeps_for_each. intros st' Hin. apply reap_one_other. by apply not_eq_sym, Hne. }
    specialize (Hk (s1, w1)). rewrite Hrun in Hk. simpl in Hk. destruct Hk as ((_ & _ & Hv) & _); [|exact Hv].
    rewrite <- Hself. by apply orderly_bystander.
  - apply (Hdone Hok _ Hin Haw). eapply bystander_unmoved; [exact (orderly_bystander _ _ Hord)|done|by apply Hother, Hne|done].
Qed.

Lemma reap_loop_other now stales id v m :
  id ∉ ((fun st => j_id (sj_job st)) <$> stales) ->
  keeps (bystander id v m) (for_each (reap_one cfg now) stales).
Proof.
  intros Hn. apply keeps_for_each. intros st Hin. apply reap_one_other. intros ->. apply Hn.
  by apply (list_elem_of_fmap_2 (fun st => j_id (sj_job st))).
Qed.

(** *** Jobs of dead workers *)

Lemma keeps_reclaim_other id id' v o o' : id' <> id -> keeps (minding id' v) (reclaim_execution id o o').
Proof.
  intros Hne. unfold reclaim_execution.
  assert (Hup : forall now epoch, keeps (minding id' v) (sql_update execution_claims id
    (fun c => bool_decide (ec_worker_id c = o)) (fun c => mkExecutionClaimRow (ec_job_id c) o' now (Some epoch) (ec_settle_deadline_ms c)))).
  { intros now epoch w (Hwf & Hm & Hv). unfold sql_update. simpl.
    destruct (db_execution_claims (db w) !! id) as [c|]; [|done]. case_bool_decide; [|done].
    split_and!; [done|done|]. rewrite <- Hv. apply running_at_jobs; [done|]. simpl. by rewrite lookup_insert_ne. }
  solve_keeps.
Qed.

Lemma recover_one_other x id' v :
  id' <> j_id (fst x) -> keeps (fun sw => minding id' v (snd sw)) (recover_one cfg x).
Proof.
  destruct x as [job owner]. simpl. intros Hne. unfold recover_one. apply keeps_bind.
  - apply keeps_attempt, keeps_on_db. by apply keeps_reclaim_other.
  - intros [[epoch|]|]; [|apply keeps_ret..]. apply keeps_bind.
    + by intros [s w].
    + intros _. apply keeps_logged, settle_reaped_lift; [tc_solve|]. by apply keeps_settle_failure_other, not_eq_sym.
Qed.

Lemma recover_wf now : keeps (fun sw => wf (snd sw)) (recover_orphaned_jobs cfg now).
Proof.
  unfold recover_orphaned_jobs. apply keeps_bind; [apply keeps_on_db; unfold list_live_worker_ids; solve_keeps|intros live].
  apply keeps_bind; [apply keeps_on_db; unfold reap_orphaned_jobs; solve_keeps|intros orphans].
  apply keeps_for_each. intros [job owner] _. unfold recover_one.
  apply keeps_bind; [apply keeps_attempt, keeps_on_db, keeps_reclaim_execution|].
  intros [[epoch|]|]; [|apply keeps_ret..]. apply keeps_bind; [by intros [s w]|intros _].
  apply keeps_logged, settle_reaped_lift; [tc_solve|]. apply keeps_settle_failure.
Qed.

Lemma reap_orphaned_run live ns w r w' :
  wf w -> reap_orphaned_jobs live ns w = (r, w') ->
  db w' = db w /\ (tick w <= tick w')%nat
  /\ forall l, r = Ok l -> Forall (fun x => exists row c, running_at (db w) (j_id (fst x)) = Some (row, c)
       /\ exists k c', db_execution_claims (db w) !! k = Some c' /\ ec_job_id c' = j_id (fst x)
          /\ ec_worker_id c' ∉ live) l.
Proof.
  intros Hwf. unfold reap_orphaned_jobs. case_bool_decide.
  { intros [= <- <-]. split_and!; [done|lia|]. intros l [= <-]. constructor. }
  destruct (pool_ready (tick w)) eqn:Hp.
  2:{ rewrite (bind_err _ _ _ _ _ (conn_err w Hp)). intros [= <- <-]. simpl. split_and!; [done|lia|done]. }
  rewrite (bind_ok _ _ _ _ _ (conn_ok w Hp)). erewrite bind_ok by done. cbn [db bump execution_claims t_get].
  set (orphans := filter _ (scan (db_execution_claims (db w)))). case_bool_decide.
  { intros [= <- <-]. simpl. split_and!; [done|lia|]. intros l [= <-]. constructor. }
  erewrite bind_ok by done. intros [= <- <-]. simpl. split_and!; [done|lia|]. intros l [= <-].
  apply Forall_forall. intros x (row & -> & Hrow)%list_elem_of_fmap. simpl.
  rewrite list_elem_of_filter, elem_of_scan, Is_true_true, !andb_true_iff, Z.eqb_eq in Hrow.
  destruct Hrow as [[[Hm Hs] _] [k Hk]]. pose proof (wf_live_key _ _ _ _ _ Hwf _ _ Hk) as Hid.
  exists row. eexists. split; [rewrite Hid; by apply running_at_row|].
  apply bool_decide_eq_true, list_elem_of_fmap in Hm as (c' & Hc' & Ho).
  unfold orphans in Ho. rewrite list_elem_of_filter, elem_of_scan, Is_true_true, negb_true_iff in Ho.
  destruct Ho as [Hlive [k' Hk']]. exists k', c'. split_and!; [done|done|]. by apply bool_decide_eq_false in Hlive.
Qed.

Definition live_owner (d : DB) (now : Z) (owner : string) : Prop :=
  owner = sc_claim_owner cfg
  \/ exists k wr, db_workers d !! k = Some wr /\ wk_worker_id wr = owner /\ dead_worker_cutoff now <= wk_last_heartbeat wr.

(** A job that is not running, or whose claims are held by the living, is left alone. *)
Lemma recover_spares now id v s w r s' w' :
  minding id v w ->
  (forall k c, v <> None -> db_execution_claims (db w) !! k = Some c -> ec_job_id c = id ->
     live_owner (db w) now (ec_worker_id c)) ->
  recover_orphaned_jobs cfg now (s, w) = (r, (s', w')) -> minding id v w'.
Proof.
  intros Hmind Hlive Hrun. unfold recover_orphaned_jobs in Hrun.
  destruct (list_live_worker_ids (dead_worker_cutoff now) w) as [x w1] eqn:Hl.
  assert (Hk : keeps (fun w0 => minding id v w0 /\ db w0 = db w) (list_live_worker_ids (dead_worker_cutoff now))).
  { apply keeps_and; [unfold list_live_worker_ids; solve_keeps|].
    change (keeps (Db.on_db (fun d => d = db w)) (list_live_worker_ids (dead_worker_cutoff now))).
    unfold list_live_worker_ids. solve_keeps. }
  destruct (Hk w (conj Hmind eq_refl)) as [Hmind1 Hdb1]. rewrite Hl in Hmind1, Hdb1. simpl in Hmind1, Hdb1.
  assert (Hx : forall ids o, x = Ok ids -> live_owner (db w) now o -> o ∈ ids ++ [sc_claim_owner cfg]).
  { intros ids o -> Ho. apply elem_of_app. destruct Ho as [->|(k & wr & Hwr & <- & Hbeat)]; [right; left|left].
    unfold list_live_worker_ids in Hl. destruct (pool_ready (tick w)) eqn:Hp.
    2:{ by rewrite (bind_err _ _ _ _ _ (conn_err w Hp)) in Hl. }
    rewrite (bind_ok _ _ _ _ _ (conn_ok w Hp)) in Hl. injection Hl as <- _. apply list_elem_of_fmap_2.
    apply list_elem_of_filter. rewrite Is_true_true, Z.leb_le. split; [done|]. apply elem_of_scan. by exists k. }
  unfold mbind at 1, M_bind at 1 in Hrun. unfold Results.on_db at 1 in Hrun. rewrite Hl in Hrun.
  destruct x as [ids|e]; [|injection Hrun as <- <- <-; done].
  unfold mbind at 1, M_bind at 1 in Hrun. unfold Results.on_db at 1 in Hrun.
  destruct (reap_orphaned_jobs (ids ++ [sc_claim_owner cfg]) (sc_namespace cfg) w1) as [y w2] eqn:Hy.
  destruct (reap_orphaned_run _ _ _ _ _ (proj1 Hmind1) Hy) as (Hdb2 & Ht2 & Hlist).
  assert (Hmind2 : minding id v w2).
  { destruct w1 as [d1 n1], w2 as [d2 n2]. simpl in *. subst d2. by eapply (minding_mono id v d1 n1). }
  destruct y as [l|e]; [|injection Hrun as <- <- <-; done]. specialize (Hlist l eq_refl).
  assert (Hkeep : keeps (fun sw => minding id v (snd sw)) (for_each (recover_one cfg) l)).
  { apply keeps_for_each. intros y Hin. apply recover_one_other. intros ->.
    rewrite Forall_forall in Hlist. destruct (Hlist y Hin) as (row & c & Hr & k & c' & Hc' & Hid & Hn). apply Hn.
    rewrite Hdb1 in Hr, Hc'. eapply Hx; [done|]. eapply Hlive; [|exact Hc'|done].
    destruct Hmind as (_ & _ & Hv). rewrite <- Hv, Hr. done. }
  specialize (Hkeep (s, w2) Hmind2). by rewrite Hrun in Hkeep.
Qed.
End whole_sweep.

(** Claims only go, and the heartbeats stand. *)
Definition shrunk (X : gmap string ExecutionClaimRow) (Y : gmap string WorkerRow) (w : World) : Prop :=
  db_execution_claims (db w) ⊆ X /\ db_workers (db w) = Y.

#[export] Instance shrunk_mono X Y : TickMono (shrunk X Y). Proof. by intros d n n'. Qed.
#[export] Instance shrunk_jobs X Y : Aside (shrunk X Y) jobs. Proof. by intros m w. Qed.
#[export] Instance shrunk_archived X Y : Aside (shrunk X Y) archived_jobs. Proof. by intros m w. Qed.
#[export] Instance shrunk_steps X Y : Aside (shrunk X Y) job_steps. Proof. by intros m w. Qed.
#[export] Instance shrunk_locks X Y : Aside (shrunk X Y) distributed_locks. Proof. by intros m w. Qed.

(** Dead letters under minted ids. *)
Definition dead_minted {E : Env} (w : World) : Prop := minted (tick w) (db_dead_letter (db w)).
#[export] Instance dead_minted_mono {E : Env} : TickMono dead_minted.
Proof. intros d n n' Hn Hm. by eapply minted_mono. Qed.
#[export] Instance dead_minted_jobs {E : Env} : Aside dead_minted jobs. Proof. by intros m w. Qed.
#[export] Instance dead_minted_archived {E : Env} : Aside dead_minted archived_jobs. Proof. by intros m w. Qed.
#[export] Instance dead_minted_steps {E : Env} : Aside dead_minted job_steps. Proof. by intros m w. Qed.
#[export] Instance dead_minted_claims {E : Env} : Aside dead_minted execution_claims. Proof. by intros m w. Qed.

Section reap_stale.
Context {E : Env} {G : Engine} {B : Base64} `{!UuidFresh E} `{!ScanComplete G} (cfg : SchedulerSettings).

Lemma bind_logged_on_db {A C} (m : DbM A) (k : unit -> SchM C) s w :
  (logged (Results.on_db m) ≫= k) (s, w) = k tt (s, snd (m w)).
Proof. unfold logged, attempt, Results.on_db, mbind, M_bind. by destruct (m w). Qed.

Lemma minding_expire id v now : keeps (minding id v) (expire_pending_jobs now).
Proof.
  intros w (Hwf & Hm & Hv). pose proof (running_expire id v now w (conj Hwf Hv)) as [Hwf' Hv'].
  assert (Hk : keeps dead_minted (expire_pending_jobs now)).
  { apply keeps_expire_any; try tc_solve. intros k w0. by apply (keeps_aside_delete_pk dead_minted execution_claims). }
  split_and!; [done|by apply Hk|done].
Qed.

Lemma shrunk_expire X Y now : keeps (shrunk X Y) (expire_pending_jobs now).
Proof.
  apply keeps_expire_any; try tc_solve. intros k w [HX HY]. split; [|done]. simpl.
  etransitivity; [apply delete_subseteq|done].
Qed.

(** What the sweep of old claims leaves of a running job. *)
Lemma purge_claims_run cutoff w :
  let w' := snd (purge_execution_claims cutoff w) in
  db_jobs (db w') = db_jobs (db w) /\ db_dead_letter (db w') = db_dead_letter (db w) /\ (tick w <= tick w')%nat
  /\ forall X Y, shrunk X Y w -> shrunk X Y w'.
Proof.
  unfold purge_execution_claims. destruct (pool_ready (tick w)) eqn:Hp.
  2:{ rewrite (bind_err _ _ _ _ _ (conn_err w Hp)). simpl. split_and!; [done..|lia|done]. }
  rewrite (bind_ok _ _ _ _ _ (conn_ok w Hp)). erewrite bind_ok by done. unfold sql_delete. simpl.
  split_and!; [done..|lia|]. intros X Y [HX HY]. split; [|done]. simpl. etransitivity; [apply map_filter_subseteq|done].
Qed.

(** The state of a job when the sweep looks for the overdue. *)
Definition entered (id : string) (row : JobRow) (c : option ExecutionClaimRow) (w w3 : World) : Prop :=
  exists c3, running_at (db w3) id = Some (row, c3) /\ (c3 = c \/ c3 = None).

Lemma reap_head now w :
  wf w -> dead_minted w ->
  let w1 := snd (expire_pending_jobs now w) in
  let w2 := snd (reap_expired_locks now w1) in
  let w3 := snd (purge_execution_claims (sat_sub_i64 now 3600000) w2) in
  wf w3 /\ dead_minted w3 /\ shrunk (db_execution_claims (db w)) (db_workers (db w)) w3
  /\ forall id row c, running_at (db w) id = Some (row, c) -> entered id row c w w3.
Proof.
  intros Hwf Hm w1 w2 w3.
  assert (H2 : forall id v, minding id v w -> minding id v w2).
  { intros id v Hv. apply (minding_expire id v now) in Hv. fold w1 in Hv. unfold w2.
    assert (Hk : keeps (minding id v) (reap_expired_locks now)) by (unfold reap_expired_locks; solve_keeps). by apply Hk. }
  assert (Hs2 : shrunk (db_execution_claims (db w)) (db_workers (db w)) w2).
  { assert (Hk : keeps (shrunk (db_execution_claims (db w)) (db_workers (db w))) (reap_expired_locks now))
      by (unfold reap_expired_locks; solve_keeps). apply Hk, shrunk_expire. by split. }
  destruct (purge_claims_run (sat_sub_i64 now 3600000) w2) as (HJ & HD & Ht & Hs). fold w3 in HJ, HD, Ht, Hs.
  destruct (H2 ""%string _ (conj Hwf (conj Hm eq_refl))) as (Hwf2 & Hm2 & _).
  pose proof (keeps_purge_execution_claims (sat_sub_i64 now 3600000) w2 Hwf2) as Hwf3. fold w3 in Hwf3.
  split_and!; [done| |by apply Hs|].
  { unfold dead_minted. rewrite HD. by eapply minted_mono. }
  intros id row c Hr. destruct (H2 id _ (conj Hwf (conj Hm Hr))) as (_ & _ & Hr2).
  destruct (running_row _ _ _ _ Hr2) as (Hl & Hst & Hc).
  exists (db_execution_claims (db w3) !! id). split; [apply running_at_row; [by rewrite HJ|done]|].
  destruct (db_execution_claims (db w3) !! id) as [c3|] eqn:Hc3; [left|by right]. symmetry.
  destruct (running_row _ _ _ _ Hr) as (_ & _ & ->). destruct (Hs _ _ Hs2) as [Hsub _].
  eapply lookup_weaken; [exact Hc3|exact Hsub].
Qed.

Lemma entered_unmoved id row c s w w3 :
  running_at (db w) id = Some (row, c) -> entered id row c w w3 ->
  unmoved cfg id (s, w) -> unmoved cfg id (s, w3).
Proof.
  intros Hr (c3 & Hr3 & Hc) Hu r Hl. specialize (Hu r Hl). simpl in *. destruct Hc as [->| ->].
  - by rewrite (still_speaks_running cfg (db w)) by congruence.
  - destruct (running_row _ _ _ _ Hr) as (HJ & _). destruct (running_row _ _ _ _ Hr3) as (HJ3 & _ & Hnone).
    unfold still_speaks, attempt_current, claim_allows in *. rewrite HJ3, <- Hnone, andb_true_r. rewrite HJ in Hu.
    by apply andb_prop in Hu as [-> _].
Qed.
End reap_stale.

Section reap_stale_laws.
Context {E : Env} {G : Engine} {B : Base64} `{!UuidFresh E} `{!ScanComplete G} (cfg : SchedulerSettings).

Lemma bind_inv_any {S A C} (m : M S QueueError A) (k : A -> M S QueueError C) st r st' :
  (m ≫= k) st = (r, st') ->
  exists x st1, m st = (x, st1) /\ match x with Ok a => k a st1 = (r, st') | Err e => r = Err e /\ st' = st1 end.
Proof.
  unfold mbind, M_bind. destruct (m st) as [[a|e] st1]; intros H; eexists _, st1; (split; [done|]); [done|].
  by injection H as <- <-.
Qed.

(** Settling the overdue and recovering the orphans, from the list of the overdue. *)
Lemma reap_tail now stales s w r s' w' :
  orderly (s, w) -> NoDup ((fun st => j_id (sj_job st)) <$> stales) -> Forall (staged cfg w now) stales ->
  (for_each (reap_one cfg now) stales ;; logged (recover_orphaned_jobs cfg now)) (s, w) = (r, (s', w')) ->
  wf w' /\ (r = Ok tt \/ r = Err Pool)
  /\ (r = Ok tt -> forall st, st ∈ stales -> sj_awaiting_settle st = false ->
        unmoved cfg (j_id (sj_job st)) (s, w) -> running_at (db w') (j_id (sj_job st)) = None)
  /\ (forall id, id ∉ ((fun st => j_id (sj_job st)) <$> stales) ->
        (forall k c, db_execution_claims (db w) !! k = Some c -> ec_job_id c = id -> live_owner cfg (db w) now (ec_worker_id c)) ->
        running_at (db w') id = running_at (db w) id).
Proof.
  intros Hord Hnd Hst (x & [s1 w1] & Hloop & Hrest)%bind_inv_any.
  destruct (reap_loop cfg now stales s w x s1 w1 Hord Hnd Hst Hloop) as (Hord1 & Hx & Hsettled).
  assert (Hother : forall id, id ∉ ((fun st => j_id (sj_job st)) <$> stales) -> running_at (db w1) id = running_at (db w) id).
  { intros id Hn. pose proof (reap_loop_other cfg now stales id _ _ Hn _ (orderly_bystander id _ Hord)) as Hb.
    rewrite Hloop in Hb. by destruct Hb as ((_ & _ & Hv) & _). }
  destruct x as [[]|e].
  2:{ destruct Hrest as [-> [= -> ->]]. destruct Hx as [?|[= ->]]; [done|]. split_and!; [apply Hord1|by right|done|].
      intros id Hn _. by apply Hother. }
  destruct Hord1 as (Hwf1 & Hm1 & _). simpl in Hwf1, Hm1. unfold logged in Hrest.
  destruct (recover_orphaned_jobs cfg now (s1, w1)) as [y [s2 w2]] eqn:Hrec.
  rewrite (bind_attempt _ _ _ _ _ Hrec) in Hrest. injection Hrest as <- <- <-.
  assert (Hspare : forall id v, minding id v w1 ->
    (forall k c, v <> None -> db_execution_claims (db w1) !! k = Some c -> ec_job_id c = id ->
       live_owner cfg (db w1) now (ec_worker_id c)) -> minding id v w2)
    by (intros id v Hv Hl; exact (recover_spares cfg now id v s1 w1 y s2 w2 Hv Hl Hrec)).
  assert (Hg : forall id L, guarded id L (db_workers (db w)) w -> guarded id L (db_workers (db w)) w1).
  { intros id L HgL. assert (Hk : keeps (fun sw => guarded id L (db_workers (db w)) (snd sw)) (for_each (reap_one cfg now) stales))
      by (apply keeps_for_each; intros st _; apply guarded_reap_one).
    specialize (Hk (s, w) HgL). by rewrite Hloop in Hk. }
  split_and!.
  - pose proof (recover_wf cfg now (s1, w1) Hwf1) as Hk. by rewrite Hrec in Hk.
  - by left.
  - intros _ st Hin Haw Hu. destruct (Hspare (j_id (sj_job st)) None) as (_ & _ & Hv); [|done|done].
    split_and!; [done|done|]. by apply Hsettled.
  - intros id Hn Hlive. destruct (Hspare id (running_at (db w) id)) as (_ & _ & Hv); [| |done].
    { split_and!; [done|done|by apply Hother]. }
    set (L := (fun kc : string * ExecutionClaimRow => ec_worker_id kc.2)
      <$> filter (fun kc => ec_job_id kc.2 = id) (map_to_list (db_execution_claims (db w)))).
    destruct (Hg id L) as [HW HL].
    { split; [done|]. intros k c Hc Hid. apply (list_elem_of_fmap_2 (fun kc => ec_worker_id kc.2) _ (k, c)).
      apply list_elem_of_filter. split; [done|]. by apply elem_of_map_to_list. }
    intros k c _ Hc Hid. specialize (HL k c Hc Hid).
    apply list_elem_of_fmap in HL as ([k0 c0] & -> & [Hid0 Hc0]%list_elem_of_filter). simpl in *.
    apply elem_of_map_to_list in Hc0. destruct (Hlive k0 c0 Hc0 Hid0) as [Hs|(k' & wr & Hwr & Hw)]; [by left|right].
    exists k', wr. by rewrite HW.
Qed.

(** What a run of the sweep does to one job that was running when it began. *)
Definition swept_job (now : Z) (s : Scheduler) (w : World) (r : Result QueueError unit) (w' : World)
    (id : string) (row : JobRow) (c : option ExecutionClaimRow) : Prop :=
  (overdue cfg now row = true -> (forall c', c = Some c' -> ec_settle_deadline_ms c' = None) ->
     unmoved cfg id (s, w) -> r = Ok tt -> running_at (db w') id = None)
  /\ (overdue cfg now row = false -> (forall c', c = Some c' -> live_owner cfg (db w) now (ec_worker_id c')) ->
     exists c', running_at (db w') id = Some (row, c') /\ (c' = c \/ c' = None)).

End reap_stale_laws.

(** ** Examples *)

Section examples.
#[local] Existing Instances demo_engine demo_uuid_fresh demo_scan_complete demo_quota_json
  demo_texts demo_instants demo_base64 demo_pool.

(** A clock that reads [t] and on, over connections that refuse the requests of [refuses]. *)
Definition env_from (t : Z) (refuses : nat -> bool) : Env := {|
  uuid_v7 := @uuid_v7 demo_env; system_ms n := t + Z.of_nat n; random_u64 := @random_u64 demo_env;
  pool_ready n := negb (refuses n);
  json_object := @json_object demo_env; json_to_string := @json_to_string demo_env
|}.
Definition steady_from (t : Z) : Env := env_from t (fun _ => false).

Definition sched_of (pw : Poll * World) : Scheduler * World := (po_scheduler (fst pw), snd pw).
Definition failed_once : JobResult := RFailure "1" "boom" 0 3 "mail.send" 0 true false.

(** The job runs and fails once. *)
Definition ran_world : Poll * World :=
  snd (try_dispatch (E:=steady_from 1000) (demo_poller None) (demo_poll, one_world)).
Definition retried : Scheduler * World :=
  snd (handle_result (E:=steady_from 2000) (demo_poller None) failed_once (sched_of ran_world)).
(** Its second attempt is stranded by the connection its queue's rate limit is read over. *)
Definition stranded_retry : Scheduler * World :=
  sched_of (snd (try_dispatch (E:=env_from 100000 (fun n => n =? 38)%nat) (demo_poller None)
    (with_scheduler (fst retried) (fst ran_world), snd retried))).

Definition is_stranded (id : string) (x : Result QueueError unit * (Scheduler * World)) : bool :=
  is_ok (fst x) && match running_at (db (snd (snd x))) id with Some (_, None) => true | _ => false end.
Definition is_settled (id : string) (x : Result QueueError unit * (Scheduler * World)) : bool :=
  is_ok (fst x) && match running_at (db (snd (snd x))) id with None => true | Some _ => false end.

(** The sweep of a scheduler that dispatched the first attempt, a day later its next one, and
    that of a scheduler that has just started. *)
Definition reap_at (t : Z) (sw : Scheduler * World) : Result QueueError unit * (Scheduler * World) :=
  reap_stale (E:=steady_from t) (demo_poller None) sw.
Definition remembering : Result QueueError unit * (Scheduler * World) := reap_at 200000 stranded_retry.
Definition day_after : Result QueueError unit * (Scheduler * World) := reap_at (200000 + DAY_MS) (snd remembering).
Definition forgetful : Result QueueError unit * (Scheduler * World) :=
  reap_at 200000 (mkScheduler no_dispatch ∅, snd stranded_retry).


#[local] Instance steady_fresh t : UuidFresh (steady_from t) := @uuid_v7_inj demo_env demo_uuid_fresh.

(** The clock does not enter the invariant. *)
Lemma steady_wf t w : wf (E:=demo_env) w -> wf (E:=steady_from t) w.
Proof. intros []. constructor; assumption. Qed.

Definition left_running : World :=
  snd (dequeue_ordered_reporting (E:=demo_env) "default" 5000 (Some "acme"%string) Fifo one_world).

End examples.
