(* ===== verification/Cleanup.v ===== *)
(** * Cleanup, overrides and ticks ([scheduler/maintenance.rs], [scheduler/mod.rs])

    What the maintenance of [Maintenance.v] promises beyond the sweep for overdue attempts:
    the cleanup is the leader's and touches history only, the windows saved on the dashboard
    are those it applies, and every job of a tick comes due again. *)
From S2P Require Import Prelude Text Job Db Store Enqueue Dequeue Transitions Cascade Purge Drain Telemetry PubSub.
From S2P Require Import Resilience Shed Claims Workers InFlight DeadLetter Retention Settings Quota Queues Sched.
From S2P Require Import Periodic Poller Lifecycle Results Maintenance.

(** ** Cleanup leaves what is live *)

(** The tables the dispatch of jobs works on. *)
Definition same_live (d d' : DB) : Prop :=
  db_jobs d' = db_jobs d /\ db_execution_claims d' = db_execution_claims d /\ db_workers d' = db_workers d
  /\ db_job_steps d' = db_job_steps d /\ db_periodic_tasks d' = db_periodic_tasks d.

Section cleanup.
Context {E : Env} {G : Engine} {HA : Hasher} {X : Texts} {J : QuotaJson} {JR : RetentionJson}.
Context (cfg : SchedulerSettings) (mc : MaintenanceConfig).
Context (d0 : DB).

Definition live_is (w : World) : Prop := same_live d0 (db w).

#[local] Instance live_is_mono : TickMono live_is.
Proof. by intros d n n' Hn Hd. Qed.
#[local] Instance live_archived : Aside live_is archived_jobs.
Proof. by intros m w Hw. Qed.
#[local] Instance live_dependencies : Aside live_is job_dependencies.
Proof. by intros m w Hw. Qed.
#[local] Instance live_replay : Aside live_is replay_history.
Proof. by intros m w Hw. Qed.
#[local] Instance live_errors : Aside live_is job_errors.
Proof. by intros m w Hw. Qed.
#[local] Instance live_logs : Aside live_is task_logs.
Proof. by intros m w Hw. Qed.
#[local] Instance live_metrics : Aside live_is task_metrics.
Proof. by intros m w Hw. Qed.
#[local] Instance live_dead : Aside live_is dead_letter.
Proof. by intros m w Hw. Qed.
#[local] Instance live_locks : Aside live_is distributed_locks.
Proof. by intros m w Hw. Qed.
#[local] Instance live_settings : Aside live_is dashboard_settings.
Proof. by intros m w Hw. Qed.
#[local] Instance live_messages : Aside live_is topic_messages.
Proof. by intros m w Hw. Qed.
#[local] Instance live_deliveries : Aside live_is topic_deliveries.
Proof. by intros m w Hw. Qed.

Lemma live_purge_ids ids b : keeps live_is (purge_archived_id_batch ids b).
Proof. unfold purge_archived_id_batch, delete_job_relations, delete_job_diagnostics. solve_keeps. Qed.
#[local] Hint Resolve live_purge_ids : keeps.

Lemma live_purge_where p b : keeps live_is (purge_archived_where p b).
Proof. unfold purge_archived_where. solve_keeps. Qed.
Lemma live_purge_dead_where p : keeps live_is (purge_dead_where p).
Proof. unfold purge_dead_where. solve_keeps. Qed.
#[local] Hint Resolve live_purge_where live_purge_dead_where : keeps.

Lemma live_drain {St} (f : St -> DbM (Z * St)) s : (forall s, keeps live_is (f s)) -> keeps live_is (drain_batches f s).
Proof. apply keeps_drain. Qed.
Ltac drains := first [apply live_drain; intros ?; try apply keeps_stateless; solve_keeps | solve_keeps].

Lemma live_purge_completed_with_ttl c : keeps live_is (purge_completed_with_ttl c).
Proof.
  apply keeps_bind; [solve_keeps|]. intros now. apply keeps_bind; [destruct c; drains|].
  intros g. apply keeps_bind; [drains|]. intros p. apply keeps_ret.
Qed.
Lemma live_purge_dead_with_ttl c : keeps live_is (purge_dead_with_ttl c).
Proof.
  apply keeps_bind; [solve_keeps|]. intros now. apply keeps_bind; [destruct c; drains|].
  intros g. apply keeps_bind; [drains|]. intros p. apply keeps_ret.
Qed.
Lemma live_purge_job_errors c : keeps live_is (purge_job_errors c).
Proof.
  apply keeps_drain. intros s. apply keeps_stateless. apply keeps_write_transaction; [apply _|].
  apply keeps_keeps_ok, keeps_bind; [apply keeps_gets|]. by intros rows w.
Qed.
Lemma live_trim_archived ns keep : keeps live_is (trim_archived_over ns keep).
Proof. apply keeps_bind; [solve_keeps|]. intros total. unfold trim_oldest. drains. Qed.
Lemma live_trim_dead ns keep : keeps live_is (trim_dead_over ns keep).
Proof. apply keeps_bind; [solve_keeps|]. intros total. unfold trim_oldest. drains. Qed.
Lemma live_purge_metrics c : keeps live_is (purge_metrics c).
Proof. exact (keeps_drain_where task_metrics tm_id live_is _). Qed.
Lemma live_purge_logs c : keeps live_is (purge_task_logs c).
Proof. exact (keeps_drain_where task_logs tl_id live_is _). Qed.

Lemma live_collect_acked limit floors ids : keeps live_is (collect_acked limit floors ids).
Proof.
  revert ids. induction floors as [|[t [f|]] floors IH]; intros ids; cbn [collect_acked]; [solve_keeps| |apply IH].
  case_match; [solve_keeps|]. apply keeps_bind; [solve_keeps|]. intros acked. apply IH.
Qed.
Lemma live_collect_delivered limit logs topics ids : keeps live_is (collect_delivered limit logs topics ids).
Proof.
  revert ids. induction topics as [|[t names] topics IH]; intros ids; cbn [collect_delivered]; [solve_keeps|].
  repeat (case_match; [solve_keeps|]). apply keeps_bind; [solve_keeps|]. intros rows.
  case_match; [apply IH|]. apply keeps_bind; [solve_keeps|]. intros ds. apply IH.
Qed.
#[local] Hint Resolve live_collect_acked live_collect_delivered : keeps.
Lemma live_purge_topic_messages now limit : keeps live_is (purge_topic_messages now limit).
Proof. unfold purge_topic_messages. solve_keeps. Qed.

Lemma live_sweep m : keeps live_is m -> keeps live_is (sweep m).
Proof. intros Hm. unfold sweep. solve_keeps. Qed.
Lemma live_sweep_past purge cutoff : (forall c, keeps live_is (purge c)) -> keeps live_is (sweep_past purge cutoff).
Proof. intros Hp. destruct cutoff; [apply live_sweep, Hp|apply keeps_ret]. Qed.

Lemma live_purge_windows windows now : keeps live_is (purge_windows windows now).
Proof.
  unfold purge_windows. apply keeps_bind; [apply live_sweep, live_purge_completed_with_ttl|intros ?].
  apply keeps_bind; [apply live_sweep, live_purge_dead_with_ttl|intros ?].
  apply keeps_bind; [apply live_sweep_past, live_purge_job_errors|intros ?].
  apply keeps_bind; [apply live_sweep_past, live_purge_metrics|intros ?].
  apply keeps_bind; [apply live_sweep_past, live_purge_logs|intros ?]. apply keeps_ret.
Qed.
Lemma live_trim_to_quotas : keeps live_is trim_to_quotas.
Proof.
  unfold trim_to_quotas, list_settings. apply keeps_bind; [solve_keeps|]. intros [rows|e]; [|apply keeps_ret].
  apply keeps_foldM. intros trimmed [key raw] _. unfold trim_one.
  destruct (namespace_of_quota_key key); [|apply keeps_ret]. destruct (quota_from_json raw); [|apply keeps_ret].
  apply keeps_bind; [case_match; [apply live_sweep, live_trim_archived|apply keeps_ret]|intros ?].
  apply keeps_bind; [case_match; [apply live_sweep, live_trim_dead|apply keeps_ret]|intros ?]. apply keeps_ret.
Qed.
Lemma live_try_lead n o t : keeps live_is (try_lead n o t).
Proof. unfold try_lead, extend_lock, acquire_lock. solve_keeps. Qed.

Lemma live_sweep_windows code : keeps live_is (sweep_windows cfg mc code).
Proof. unfold sweep_windows, read_retention_override, get_setting. solve_keeps. Qed.

Lemma live_auto_cleanup : keeps live_is (auto_cleanup cfg mc).
Proof.
  unfold auto_cleanup. apply keeps_bind; [apply keeps_attempt, live_try_lead|intros leading].
  case_match; [apply keeps_ret|]. apply keeps_bind; [solve_keeps|intros now].
  apply keeps_bind; [apply live_sweep_windows|intros [windows source]].
  apply keeps_bind; [unfold Results.logged, publish_retention, publish_effective_retention, set_setting; solve_keeps|intros _].
  apply keeps_bind; [apply live_purge_windows|intros _].
  apply keeps_bind; [apply live_sweep, live_purge_topic_messages|intros _].
  apply keeps_bind; [apply live_trim_to_quotas|intros _]. apply keeps_ret.
Qed.
End cleanup.

(** A computation that always answers. *)
Definition sure {S A} (m : M S QueueError A) : Prop := forall s, exists a, fst (m s) = Ok a.

Lemma sure_ret {S A} (a : A) : sure (mret a : M S QueueError A).
Proof. intros s. by exists a. Qed.
Lemma sure_bind {S A C} (m : M S QueueError A) (k : A -> M S QueueError C) :
  sure m -> (forall a, sure (k a)) -> sure (m ≫= k).
Proof.
  intros Hm Hk s. destruct (Hm s) as [a Ha], (m s) as [x s1] eqn:Hs. simpl in Ha. subst x.
  rewrite (bind_ok _ _ _ _ _ Hs). apply Hk.
Qed.
Lemma sure_attempt {S A} (m : M S QueueError A) : sure (attempt m).
Proof. intros s. unfold attempt. destruct (m s) as [x s1]. by exists x. Qed.
Lemma sure_foldM {S A C} (f : C -> A -> M S QueueError C) l c : (forall c x, sure (f c x)) -> sure (foldM f c l).
Proof.
  intros Hf. revert c. induction l as [|x l IH]; intros c; simpl; [apply sure_ret|].
  apply sure_bind; [apply Hf|]. intros c'. apply IH.
Qed.
Lemma sure_sweep m : sure (sweep m).
Proof. apply sure_bind; [apply sure_attempt|]. intros r. apply sure_ret. Qed.

Section cleanup_laws.
Context {E : Env} {G : Engine} {HA : Hasher} {X : Texts} {J : QuotaJson} {JR : RetentionJson}.
Context (cfg : SchedulerSettings) (mc : MaintenanceConfig).

Lemma sure_purge_windows windows now : sure (purge_windows windows now).
Proof.
  unfold purge_windows, sweep_past.
  repeat (apply sure_bind; [first [apply sure_sweep|case_match; [apply sure_sweep|apply sure_ret]]|intros ?]).
  apply sure_ret.
Qed.

Lemma sure_trim_to_quotas : sure trim_to_quotas.
Proof.
  apply sure_bind; [apply sure_attempt|]. intros [rows|e]; [|apply sure_ret].
  apply sure_foldM. intros trimmed [key raw]. unfold trim_one.
  destruct (namespace_of_quota_key key); [|apply sure_ret]. destruct (quota_from_json raw); [|apply sure_ret].
  do 2 (apply sure_bind; [case_match; [apply sure_sweep|apply sure_ret]|intros ?]). apply sure_ret.
Qed.

Lemma sure_auto_cleanup : sure (auto_cleanup cfg mc).
Proof.
  apply sure_bind; [apply sure_attempt|]. intros leading. destruct (negb _); [apply sure_ret|].
  apply sure_bind; [intros w; by eexists|]. intros now. apply sure_bind.
  { unfold sweep_windows. destruct (negb _); [apply sure_ret|]. apply sure_bind; [apply sure_attempt|]. intros r. apply sure_ret. }
  intros [windows source]. apply sure_bind; [apply sure_bind; [apply sure_attempt|intros ?; apply sure_ret]|intros _].
  apply sure_bind; [apply sure_purge_windows|intros _]. apply sure_bind; [apply sure_sweep|intros _].
  apply sure_bind; [apply sure_trim_to_quotas|intros _]. apply sure_ret.
Qed.

(** C35: cleanup is the leader's alone, and removes history only.  Whatever its windows, its
    quotas and the errors it meets, it returns, and the live jobs, the claims on them, their
    steps, the workers and the schedules are those it found; and while another scheduler's
    unexpired lease on the cleanup stands it changes nothing at all. *)
Theorem auto_cleanup_spec w r w' :
  auto_cleanup cfg mc w = (r, w') ->
  r = Ok tt /\ same_live (db w) (db w')
  /\ (forall l, db_distributed_locks (db w) !! RETENTION_LOCK = Some l -> lk_owner_id l <> sc_claim_owner cfg ->
        clock_at (3 + tick w) < lk_expires_at l -> db w' = db w).
Proof.
  intros Hrun. split_and!.
  - destruct (sure_auto_cleanup w) as [[] Ha]. by rewrite Hrun in Ha.
  - pose proof (live_auto_cleanup cfg mc (db w) w) as Hl. rewrite Hrun in Hl. by apply Hl.
  - intros l Hl Ho Ht. destruct w as [d n]. pose proof (try_lead_held RETENTION_LOCK d l (sc_claim_owner cfg)
      RETENTION_LOCK_TTL_MS n Hl (not_eq_sym Ho) Ht) as [Hf Hd].
    unfold auto_cleanup in Hrun. destruct (try_lead RETENTION_LOCK _ _ _) as [x w1] eqn:Hlead.
    rewrite (bind_attempt _ _ _ _ _ Hlead) in Hrun. simpl in Hf, Hd.
    destruct x as [[|]|]; [done| |]; injection Hrun as <- <-; done.
Qed.
End cleanup_laws.

Section overrides.
Context {E : Env} {G : Engine} {JR : RetentionJson} `{!RetentionJsonLaw JR} `{!ScanComplete G} `{!Connected E}.
Context (cfg : SchedulerSettings) (mc : MaintenanceConfig).

(** C36: the windows saved on the dashboard are the ones the sweep applies.  A request that is
    accepted and switched on is stored for its namespace, and from then on a sweep for that
    namespace takes exactly its windows in place of those of the code, each of an hour at
    least, so that no cutoff is later than an hour ago; a scheduler told not to honour
    overrides keeps to the code. *)
Theorem override_applied body now o code w :
  from_request_json body now = Ok o -> ro_source o = Dashboard -> settings_keyed (db w) ->
  exists w1 w2, write_retention_override (sc_namespace cfg) o w = (Ok tt, w1)
    /\ sweep_windows cfg mc code w1
       = (Ok (if mc_honor_retention_override mc then (ro_windows o, Dashboard) else (code, Code)), w2)
    /\ db w2 = db w1
    /\ each_window (fun ms => MIN_OVERRIDE_WINDOW_MS <= ms) (ro_windows o).
Proof.
  intros Hreq Hsrc Hk. destruct (from_request_floor body now o Hreq) as [Hfloor _].
  destruct (write_retention_override_run (sc_namespace cfg) o w Hk (always_ready _)) as (w1 & Hw & _ & Hst & _).
  unfold sweep_windows. destruct (mc_honor_retention_override mc); simpl.
  - exists w1, (bump 1 w1). split; [done|].
    pose proof (read_retention_override_run (sc_namespace cfg) w1 (always_ready _)) as Hr.
    rewrite (bind_attempt _ _ _ _ _ Hr), Hst. unfold active_windows. simpl.
    rewrite bool_decide_eq_true_2 by done. rewrite sanitized_valid; [done|].
    eapply Forall_impl; [exact Hfloor|]. intros f Ht ms Hms. specialize (Ht ms Hms).
    unfold MIN_OVERRIDE_WINDOW_MS in Ht. lia.
  - by exists w1, w1.
Qed.
End overrides.

(** ** Ticks *)

Section ticks.
Context {E : Env} {G : Engine} {X : Texts} {J : QuotaJson} {JR : RetentionJson} {T : Monotonic} {C : Cron} {HA : Hasher}.
Context {B : Base64} (cfg : SchedulerSettings) (mc : MaintenanceConfig).

Definition next_counts (c : TickCounters) : TickCounters :=
  mkTickCounters (u32_succ (tk_reap c)) (u32_succ (tk_periodic c)) (u32_succ (tk_cleanup c))
    (u32_succ (tk_dlq_auto_retry c)).

(** Maintenance, [k] times over. *)
Fixpoint ticks (k : nat) (c : TickCounters) : PollM TickCounters :=
  match k with
  | O => mret c
  | S k => '(_, c') ← tick_maintenance cfg mc c; ticks k c'
  end.

Lemma sure_when_due due m : sure (when_due due m).
Proof.
  destruct due; [|apply sure_ret]. apply sure_bind; [apply sure_attempt|]. intros r. apply sure_ret.
Qed.

Lemma tick_advances c st : exists had st', tick_maintenance cfg mc c st = (Ok (had, next_counts c), st').
Proof.
  unfold tick_maintenance.
  assert (Hb : forall A D (m : PollM A) (k : A -> PollM D) st, sure m ->
    exists a st1, (m ≫= k) st = k a st1).
  { intros A D m k st0 Hm. destruct (Hm st0) as [a Ha], (m st0) as [x st1] eqn:Hx. simpl in Ha. subst x.
    exists a, st1. apply (bind_ok _ _ _ _ _ Hx). }
  do 4 (edestruct Hb as (? & ? & ->); [apply sure_when_due|]). by eexists _, _.
Qed.

Lemma ticks_run k c st : exists st', ticks k c st = (Ok (Nat.iter k next_counts c), st').
Proof.
  revert c st. induction k as [|k IH]; intros c st; [by exists st|].
  destruct (tick_advances c st) as (had & st1 & H1). destruct (IH (next_counts c) st1) as [st2 H2].
  exists st2. cbn [ticks]. rewrite (bind_ok _ _ _ _ _ H1), H2. by rewrite Nat.iter_succ_r.
Qed.

(** A count that wraps passes a multiple of [n] within [n] steps. *)
Lemma due_within x n : 0 <= x < 2 ^ 32 -> 0 < n ->
  exists k, Z.of_nat k < n /\ is_multiple_of (u32_succ (Nat.iter k u32_succ x)) n = true.
Proof.
  intros Hx Hn.
  assert (Hit : forall k, x + Z.of_nat k < 2 ^ 32 -> Nat.iter k u32_succ x = x + Z.of_nat k).
  { induction k as [|k IH]; intros Hk; [simpl; lia|]. rewrite Nat.iter_succ, IH by lia.
    unfold u32_succ. rewrite Z.mod_small by lia. lia. }
  assert (Hm : forall y, y mod n = 0 -> is_multiple_of y n = true).
  { intros y Hy. unfold is_multiple_of. rewrite (proj2 (Z.eqb_neq n 0)) by lia. by apply Z.eqb_eq. }
  assert (0 <= x mod n < n) by (apply Z.mod_pos_bound; lia). remember (n - 1 - x mod n) as d eqn:Hd.
  destruct (decide (x + d + 1 < 2 ^ 32)) as [Hlt|Hge].
  - exists (Z.to_nat d). split; [lia|]. apply Hm. rewrite Hit by lia. unfold u32_succ.
    rewrite Z2Nat.id, (Z.mod_small (x + d + 1)) by lia. subst d.
    replace (x + (n - 1 - x mod n) + 1) with ((x - x mod n) + 1 * n) by lia.
    rewrite Z.mod_add by lia. rewrite Zminus_mod_idemp_r. by rewrite Z.sub_diag, Z.mod_0_l by lia.
  - exists (Z.to_nat (2 ^ 32 - 1 - x)). split; [lia|]. apply Hm. rewrite Hit by lia.
    unfold u32_succ. rewrite Z2Nat.id by lia. replace (x + (2 ^ 32 - 1 - x) + 1) with (2 ^ 32) by lia.
    by rewrite Z.mod_same, Z.mod_0_l by lia.
Qed.

(** The counters are [u32]s. *)
Definition counters_ok (c : TickCounters) : Prop :=
  Forall (fun x => 0 <= x < 2 ^ 32) [tk_reap c; tk_periodic c; tk_cleanup c; tk_dlq_auto_retry c].

End ticks.

(** A reading of the documents that parses what it prints. *)
Definition windows_tuple (c : RetentionConfig) : option Z * option Z * option Z * option Z * option Z :=
  (archived_jobs_ttl_ms c, dead_letter_ttl_ms c, task_logs_ttl_ms c, task_metrics_ttl_ms c, job_errors_ttl_ms c).
Definition tuple_windows (t : option Z * option Z * option Z * option Z * option Z) : RetentionConfig :=
  let '(a, d, l, m, e) := t in mkRetentionConfig a d l m e.
Definition source_bool (s : RetentionSource) : bool := bool_decide (s = Dashboard).
Definition bool_source (b : bool) : RetentionSource := if b then Dashboard else Code.

Definition parsed {A B} `{Countable A} (f : A -> B) (raw : string) : Result string B :=
  match decode (A:=A) (of_digits raw) with Some t => Ok (f t) | None => Err "expected value"%string end.
Definition printed {A} `{Countable A} (a : A) : string := digits (encode a).

Lemma parsed_printed {A B} `{Countable A} (f : A -> B) a : parsed f (printed a) = Ok (f a).
Proof. unfold parsed, printed. by rewrite of_digits_digits, decode_encode. Qed.

Definition demo_retention_json : RetentionJson := {|
  effective_json e := printed (er_enabled e, er_defaulted e, er_namespace e, er_reported_at e,
    windows_tuple (er_windows e), source_bool (er_source e), windows_tuple <$> er_code_windows e);
  effective_of_json := parsed (fun '(x, y, n, t, c, s, o) =>
    mkEffectiveRetention x y n t (tuple_windows c) (bool_source s) (tuple_windows <$> o));
  override_json o := printed (source_bool (ro_source o), windows_tuple (ro_windows o), ro_updated_at o);
  override_of_json := parsed (fun '(s, c, t) => mkRetentionOverride (bool_source s) (tuple_windows c) t);
  request_of_json := parsed (fun '(s, c) => (bool_source s, tuple_windows c))
|}.

Lemma demo_retention_json_law : RetentionJsonLaw demo_retention_json.
Proof.
  split.
  - intros [x y n t [] [] [[]|]]; cbn -[parsed printed]; by rewrite parsed_printed.
  - intros [[] [] t]; cbn -[parsed printed]; by rewrite parsed_printed.
Qed.

Section retention_examples.
#[local] Existing Instances demo_engine demo_uuid_fresh demo_scan_complete demo_quota_json
  demo_texts demo_instants demo_base64 demo_pool demo_retention_json demo_retention_json_law demo_hasher demo_cron.

#[local] Instance steady_connected t : Connected (steady_from t) := fun _ => eq_refl.

(** A job of the namespace [acme], completed. *)
Definition completed_world : World :=
  snd (snd (handle_result (E:=steady_from 2000) (demo_poller None) (RSuccess "1" None "mail.send" 0)
    (sched_of ran_world))).

(** A scheduler of another namespace that keeps history for a day. *)
Definition other_scheduler : SchedulerSettings :=
  mkSchedulerSettings ∅ ∅ ∅ ∅ ["default"%string] (Some "other"%string) "b" None None.
Definition keep_a_day : MaintenanceConfig :=
  mkMaintenanceConfig 100 60 1200 None (Some (uniform DAY_MS)) true None 1 60.
Definition other_cleanup : Result QueueError unit * World :=
  auto_cleanup (E:=steady_from (3 * DAY_MS)) other_scheduler keep_a_day completed_world.
Definition published : Result QueueError (option EffectiveRetention) :=
  fst (read_effective_retention (E:=steady_from (3 * DAY_MS)) (Some "other"%string) (snd other_cleanup)).

(** one namespace's windows delete another's history.  The document a cleanup publishes
    names the namespace its windows apply to, and says that they cover every queue of it; the
    cleanup by a scheduler of the namespace [other] deletes the record of a job of [acme]. *)
Theorem retention_crosses_namespaces :
  (ar_namespace <$> db_archived_jobs (db completed_world) !! "1"%string) = Some (Some "acme"%string)
  /\ fst other_cleanup = Ok tt
  /\ match published with
      | Ok (Some e) => er_namespace e = "other"%string /\ er_windows e = uniform DAY_MS
      | _ => False
      end
  /\ db_archived_jobs (db (snd other_cleanup)) !! "1"%string = None.
Proof. split_and!; by vm_compute. Qed.

Lemma override_applied_witness :
  let o := mkRetentionOverride Dashboard (uniform DAY_MS) (Some 5) in
  exists w1 w2, write_retention_override (E:=steady_from 0) (Some "other"%string) o demo_world = (Ok tt, w1)
    /\ sweep_windows (E:=steady_from 0) other_scheduler keep_a_day recommended w1 = (Ok (uniform DAY_MS, Dashboard), w2).
Proof.
  intros o. destruct (override_applied (E:=steady_from 0) other_scheduler keep_a_day
    (printed (true, windows_tuple (uniform DAY_MS))) 5 o recommended demo_world)
    as (w1 & w2 & H1 & H2 & _); [by vm_compute|done|apply map_Forall_empty|].
  by exists w1, w2.
Defined.

(** A rival tries to clean up right after. *)
Lemma auto_cleanup_spec_witness :
  let x := auto_cleanup (E:=steady_from (3 * DAY_MS)) (demo_poller None) keep_a_day (snd other_cleanup) in
  same_live (db (snd other_cleanup)) (db (snd x)) /\ db (snd x) = db (snd other_cleanup).
Proof.
  intros x.
  assert (Hl : match db_distributed_locks (db (snd other_cleanup)) !! RETENTION_LOCK with
    | Some l => negb (String.eqb (lk_owner_id l) "a")
        && (clock_at (E:=steady_from (3 * DAY_MS)) (3 + tick (snd other_cleanup)) <? lk_expires_at l)
    | None => false end = true) by by vm_compute.
  assert (Hgen : forall w r w', w = snd other_cleanup ->
    auto_cleanup (E:=steady_from (3 * DAY_MS)) (demo_poller None) keep_a_day w = (r, w') ->
    same_live (db w) (db w') /\ db w' = db w).
  { intros w r w' Hw Hrun. rewrite <- Hw in Hl.
    destruct (auto_cleanup_spec (E:=steady_from (3 * DAY_MS)) (demo_poller None) keep_a_day w r w' Hrun)
      as (_ & Hsame & Hheld).
    split; [exact Hsame|]. destruct (db_distributed_locks _ !! RETENTION_LOCK) as [l|]; [|discriminate Hl].
    apply andb_true_iff in Hl as [Ho Ht%Z.ltb_lt]. apply (Hheld l eq_refl); [|exact Ht].
    intros Ha. rewrite Ha in Ho. discriminate Ho. }
  exact (Hgen (snd other_cleanup) (fst x) (snd x) eq_refl (surjective_pairing x)).
Defined.

End retention_examples.
